(* ===== verification/_CoqProject ===== *)
-Q . S2P
Prelude.v
Bytes.v
OrdMap.v
Search.v
Record.v
Block.v
Bloom.v
Index.v
Footer.v
LegacyBlock.v
SSTable.v
Preflight.v
WalFormat.v
WalAnalysis.v
Wal.v
WalCrash.v
WalRefine.v
WalRead.v
WalProps.v
Manifest.v
Unicode.v
ManifestTheory.v
Admission.v
Config.v
Store.v
Read.v
ReadTheory.v
Tables.v
Write.v
WriteTheory.v
Compaction.v
CompactionTheory.v
Root.v
RootTheory.v
Engine.v
OpenTheory.v
EngineTheory.v
KVTheory.v
Api.v
KVRefine.v
Fts.v
FtsTheory.v
FtsIndexTheory.v
FtsSearch.v
FtsBulk.v
FtsRank.v
FtsRefine.v
KVEngine.v
Command.v
CommandTheory.v
Repl.v
Sessions.v
Generation.v
GenerationTheory.v
Experimental.v
ReferenceTheory.v
SealTheory.v
Frame.v
ExperimentalTheory.v
CleanTheory.v
SwitchTheory.v
ExperimentalRefine.v
RaftLog.v
RaftLogTheory.v
RaftNode.v
RaftKV.v
RaftTheory.v
Durable.v
Main.v
