(* ===== verification/Prelude.v ===== *)
(** * CereDB: a verification library

    CereDB ([src/src]) is a log-structured key-value store with full-text
    search.  A write is admitted, appended to a write-ahead log and inserted
    into a memtable; a flush packs the memtable into blocks and writes them as
    a sorted-string table (SSTable) with a sparse index, a Bloom filter and a
    footer, and registers it in the manifest; a checkpoint then lets the log
    drop the segments the table covers; reads consult memtable and tables, and
    compaction merges tables.  Three engines are built from these parts: [KV2];
    the experimental engine, whose values stay in the log of a generation and
    whose index refers to them; and [RaftKV2], which replicates its writes.  A
    full-text index, a command language and a command loop sit on top, and the
    program chooses an engine by its flags and its data directory.

    The library models these parts bottom up and proves that each does what its
    callers rely on.  A file models the source file named in its own header,
    keeps the source's names, and is executable: the witnesses run the model on
    concrete bytes.

    ** Conventions

    - Machine integers are [Z]; [u32]/[u64] values satisfy [is_u32]/[is_u64],
      casts and unchecked arithmetic wrap (release profile), checked operations
      return [option].  [usize] is 64 bits wide.  An [f64] is an IEEE-754 value.
    - Bytes are [Byte.byte]; byte strings are lists; a [String] is its UTF-8
      bytes.  Files are byte strings, directories are maps from names to files.
    - A Rust computation is a [res]: [Ok], [Err] or [Panic]; one on a state is an
      [eff] ([Store]); streaming decoders are readers ([Bytes]).  Absence of
      panics is a theorem.
    - Error messages are kept; text formatted into them is reduced to its
      fixed prefix, and I/O errors to their kind.
    - Disk failures are arguments of the operations: a write fails after any
      number of bytes, a file is not created, a rename fails before or after it
      is done.  A crash is the state after a failed operation.  Bytes reach a
      file in order.  The refinement theorems ask of a manifest entry that it is
      written whole or not at all ([clean]); [manifest_torn_entry_fails] says
      what a part of one does.
    - What is not in the sources is a class: [Crc32] (a checksum is a [u32];
      [ieee] is CRC-32 itself), [FastBloom] (the contract of the [fastbloom]
      crate), [Unicode] (the character tables of the standard), [NaturalLog],
      [Display] (the text of errors and scores), [OpenRaft], [RaftRpc] and
      [Bincode] (the consensus library and its serialization), [SocketAddrs];
      what the file system answers about paths is a record ([PathFacts],
      [DirFacts]).  Each assumption has an instance that meets it.
    - Theorems about whole engines are stated for a universe of records that is
      [roomy]: the table of any of its records fits into memory.  [small_roomy]
      gives such universes, with finitely many keys and bounded values.
    - Locks are held across a whole operation in the source, so an operation
      is one state transformer; the admission queue, whose callers interleave,
      is a step relation.  Logging, test counters and durations have no state
      in the model.

    ** Files

    - [Prelude], [Bytes], [OrdMap], [Search], [Store], [Unicode]: integers,
      errors, codecs and readers, ordered maps ([BTreeMap]/[SkipMap]),
      [binary_search_by] and stable [sort_by], the monad of effects, strings,
      with the automation the other files use.
    - [Record] ([record.rs]), [Block] ([writemanager/block.rs], [checksum.rs]
      and the packing loops of [write.rs] and [compaction.rs]), [Bloom]
      ([bloom.rs]), [Index] ([index.rs]), [Footer] ([footer.rs]),
      [LegacyBlock] ([block.rs] and the lookups of [index.rs]), [SSTable]
      ([sstable_codec.rs]), [Preflight] ([sstable_preflight.rs]).
    - [WalFormat], [WalAnalysis], [Wal], [WalRead] ([recovermanager/wal.rs],
      [recovermanager/log_store.rs]): frames and references; the recovery pass;
      the manager with its directory; value lookup by reference.  [WalCrash],
      [WalRefine], [WalProps]: the proofs about the log.
    - [Manifest], [ManifestTheory] ([manifest_codec.rs]); [Admission]
      ([writemanager/admission.rs]); [Config] ([storage/config.rs] and the flags
      of [config.rs]).
    - [Read], [ReadTheory] ([readmanager/read.rs]); [Tables], the tables on disk
      as the catalogue of the manifest; [Write], [WriteTheory]
      ([writemanager/write.rs]); [Compaction], [CompactionTheory]
      ([compactionmanager/compaction.rs]).
    - [Engine], [OpenTheory], [EngineTheory], [KVTheory], [KVRefine]
      ([KV2] of [kv2.rs]); [Api] ([api/api.rs]), the interface of engines with
      its contract, and [KVEngine], the proof that [KV2] keeps it; [Frame], what
      flushes and compactions leave alone.
    - [Fts], [FtsTheory], [FtsIndexTheory], [FtsSearch], [FtsBulk], [FtsRank],
      [FtsRefine] ([fts/mod.rs]): full-text search over the interface.
    - [Command], [CommandTheory] ([command.rs]), [Repl] ([repl.rs]), [Sessions]:
      commands and the command loop.
    - [Root], [RootTheory], [Generation], [GenerationTheory], [SealTheory],
      [Experimental], [ReferenceTheory], [ExperimentalTheory], [CleanTheory],
      [SwitchTheory], [ExperimentalRefine] ([experimental.rs]): the root and its
      files, generations, and the experimental engine with its cleaning.
    - [RaftLog], [RaftLogTheory] ([raft/log_store.rs]), [RaftNode]
      ([raft/state_machine.rs], [raft/network.rs], [raft/server.rs],
      [raft/mod.rs] and the cluster flags of [config.rs]), [RaftKV],
      [RaftTheory] ([RaftKV2] of [kv2.rs]).
    - [Durable] ([durable_dir.rs]) and [Main] ([main.rs]).

    ** What the theorems show

    - Engines refine maps.  [kv_refines_map] and [kv_restart_durable]: every run
      of [KV2] with failures, flushes, compactions and restarts has the results
      of an ordered map, and a restart gives back what was committed.
      [experimental_refines_map], [clean_keeps_contents],
      [generations_never_reused], [seal_accepts_exactly]: the experimental
      engine does too while it runs, and cleaning switches generations without
      changing the contents.  [raft_kv_refines_map]: so does a cluster node on
      the leader, as long as it runs.  [compaction_keeps_view],
      [get_returns_newest], [scan_returns_newest] are the parts of this for
      compactions and reads.
    - Logs.  [wal_refines_log], [wal_append_atomic], [wal_receipt_read_back],
      [wal_recovery_total], [wal_scan_terminates]: the segmented, checksummed,
      rotating log with torn writes refines a list of commands to which
      transactions are appended whole; receipts lead back to their values;
      recovery ends on every input.  [raft_log_refines],
      [raft_log_reads_by_index]: the log of the raft adapter is a copy in memory
      and one on disk that changes whole.
    - The manifest ([manifest_restart_agrees], [manifest_fresh_ids],
      [lru_cache_correct]) and admission ([admission_fifo],
      [admission_progress], [drain_ready_correct]).
    - Tables ([pack_correct], [sstable_roundtrip]) and their validation
      ([validate_sound], [validate_accepts_serialized]).
    - Above the engines: [fts_refines_documents] and
      [search_ranked_best_first] for search, [command_language_exact] for
      parsing and printing, [repl_session_correct] for the loop, and
      [main_session_correct] for the program from its start.
    - Files and flags: [root_files_exact], [durable_directories_synced],
      [builder_builds_valid].
    - What the code does that its callers cannot want: [raft_log_departs],
      [raft_apply_acknowledges], [raft_restart_forgets], [validation_gaps], and
      the lemmas [decode_record_offset_short],
      [decode_record_from_file_overshoots], [search_sstable_never_finds] and
      [pack_single_empty_key_panics].

    ** Fuel

    Loops whose recursion is not structural carry fuel bounded by the input:
    [scan_loop], [read_loop] and [replay_loop] take the number of bytes (every
    iteration consumes one, see [wal_scan_terminates]), [sparse_search] and
    [bs_loop] the length of the list, which halves, [parse_batch] the number of
    tokens, [closure_loop] the number of tables, of which each round takes one
    more, [hex_digits] the six digits a character has at most.
    [create_table_file] and [create_output_file] try at most one more name than
    there are files, each attempt that fails meeting another file; the theorems
    on flushes and compactions exclude the panic that would end them.
    [compact_loop] has no bound in the source, and goes on while a level is due: the theorems hold
    for every number of rounds.  [walk] is structural, on the links that may
    still be followed and then on the path.

    ** Not modelled

    - Restarts of the experimental engine as a refinement: opening is modelled
      on every root, but that theorem starts from a new one; the index rebuilt
      from a log has the newest record of a key only, which the invariant used
      here does not cover.  What a cleaning leaves on disk is covered by
      [clean_keeps_contents].
    - The consensus library, the HTTP transport, the parsing of command lines
      and socket addresses, the terminal and the logger: parameters or left out.
    - The loss of data a file system may show without a sync after a power
      failure: files keep what was written to them in order.
    - Benchmarks, comparison tools, examples and test support. *)

From stdpp Require Export base numbers list option strings.
From Stdlib Require Export ZArith Lia Strings.Byte.

#[export] Set Default Goal Selector "!".
#[global] Open Scope Z_scope.

(** ** Machine integers

    Rust's unsigned integers are modelled by [Z].  A value of type [u32] or
    [u64] satisfies [is_u32] / [is_u64]; [usize] is 64 bits wide.  A cast
    [x as u32] is [wrap32 x] and an unchecked [+] is [wrap64 (x + y)], the
    arithmetic of a release build (the repository's [profile.release] leaves
    overflow checks off). *)

Definition u8_max : Z := 255.
Definition u32_max : Z := 4294967295.
Definition u64_max : Z := 18446744073709551615.
(** [isize::MAX], the largest capacity a [Vec<u8>] may request. *)
Definition isize_max : Z := 9223372036854775807.

Definition is_u32 (z : Z) : Prop := 0 <= z <= u32_max.
Definition is_u64 (z : Z) : Prop := 0 <= z <= u64_max.
Definition wrap32 (z : Z) : Z := z mod (u32_max + 1).
Definition wrap64 (z : Z) : Z := z mod (u64_max + 1).

Definition checked_add (x y : Z) : option Z :=
  if x + y <=? u64_max then Some (x + y) else None.
Definition checked_sub (x y : Z) : option Z :=
  if y <=? x then Some (x - y) else None.
Definition checked_mul (x y : Z) : option Z :=
  if x * y <=? u64_max then Some (x * y) else None.
Definition saturating_add (x y : Z) : Z := Z.min (x + y) u64_max.
Definition saturating_sub (x y : Z) : Z := Z.max (x - y) 0.
Definition saturating_mul (x y : Z) : Z := Z.min (x * y) u64_max.

#[export] Instance is_u32_dec z : Decision (is_u32 z).
Proof. unfold is_u32; apply _. Defined.
#[export] Instance is_u64_dec z : Decision (is_u64 z).
Proof. unfold is_u64; apply _. Defined.

Create HintDb cere discriminated.
#[export] Hint Unfold is_u32 is_u64 u8_max u32_max u64_max isize_max : cere.

(** [word_lia]: linear arithmetic after unfolding the machine-width constants. *)
Ltac word_lia :=
  unfold is_u32, is_u64, wrap32, wrap64, u8_max, u32_max, u64_max, isize_max in *; lia.

Lemma wrap32_id z : is_u32 z → wrap32 z = z.
Proof. intros H. unfold wrap32. apply Z.mod_small. word_lia. Qed.
Lemma wrap64_id z : is_u64 z → wrap64 z = z.
Proof. intros H. unfold wrap64. apply Z.mod_small. word_lia. Qed.
Lemma wrap32_u32 z : is_u32 (wrap32 z).
Proof. unfold wrap32. pose proof (Z.mod_pos_bound z (u32_max + 1)). word_lia. Qed.
Lemma wrap64_u64 z : is_u64 (wrap64 z).
Proof. unfold wrap64. pose proof (Z.mod_pos_bound z (u64_max + 1)). word_lia. Qed.
Lemma is_u32_u64 z : is_u32 z → is_u64 z.
Proof. word_lia. Qed.

(** ** Errors and results

    [DBError] is [src/src/error.rs]; an [std::io::Error] is reduced to its
    kind.  A Rust computation ends with a value, with an error, or by
    panicking (an out-of-range index, an [unwrap] of [None], a capacity
    overflow), so that the absence of panics is a statement of the model. *)

Inductive io_kind : Type :=
| UnexpectedEof | NotFoundKind | InvalidInput | AlreadyExists | OtherIo.

Inductive DBError : Type :=
| IO (kind : io_kind)
| TryIntoError
| Corrupted (msg : string)
| MutexPoisoned (msg : string)
| StorageError (msg : string)
| NotFound.

Inductive res (A : Type) : Type :=
| Ok (a : A)
| Err (e : DBError)
| Panic.
Arguments Ok {A} a.
Arguments Err {A} e.
Arguments Panic {A}.

#[export] Instance io_kind_eq_dec : EqDecision io_kind.
Proof. solve_decision. Defined.
#[export] Instance DBError_eq_dec : EqDecision DBError.
Proof. solve_decision. Defined.

#[export] Instance res_ret : MRet res := @Ok.
#[export] Instance res_bind : MBind res := λ A B f m,
  match m with Ok a => f a | Err e => Err e | Panic => Panic end.
#[export] Instance res_fmap : FMap res := λ A B f m,
  match m with Ok a => Ok (f a) | Err e => Err e | Panic => Panic end.

(** [ok_or o e] is [Option::ok_or]. *)
Definition is_ok {A} (r : res A) : bool := match r with Ok _ => true | _ => false end.
Definition ok_or {A} (o : option A) (e : DBError) : res A :=
  match o with Some a => Ok a | None => Err e end.
(** [guard_err b e] is [if !b { return Err(e) }]. *)
Definition guard_err (b : bool) (e : DBError) : res unit :=
  if b then Ok tt else Err e.

Definition is_Ok {A} (m : res A) : Prop := ∃ a, m = Ok a.
Definition is_Err {A} (m : res A) : Prop := ∃ e, m = Err e.

Lemma res_bind_Ok {A B} (m : res A) (f : A → res B) b :
  m ≫= f = Ok b ↔ ∃ a, m = Ok a ∧ f a = Ok b.
Proof. destruct m; simpl; naive_solver. Qed.
Lemma res_bind_no_panic {A B} (m : res A) (f : A → res B) :
  m ≠ Panic → (∀ a, m = Ok a → f a ≠ Panic) → m ≫= f ≠ Panic.
Proof. destruct m; simpl; naive_solver. Qed.
Lemma ok_or_Ok {A} (o : option A) e a : ok_or o e = Ok a ↔ o = Some a.
Proof. destruct o; simpl; naive_solver. Qed.
Lemma guard_err_Ok b e u : guard_err b e = Ok u ↔ b = true.
Proof. destruct b, u; simpl; naive_solver. Qed.
Lemma is_Ok_Ok {A} (a : A) : is_Ok (Ok a).
Proof. by exists a. Qed.
#[export] Hint Resolve is_Ok_Ok : cere.
Lemma guard_err_np b e : guard_err b e ≠ Panic.
Proof. by destruct b. Qed.
Lemma ok_or_np {A} (o : option A) e : ok_or o e ≠ Panic.
Proof. by destruct o. Qed.
Lemma res_fmap_np {A B} (f : A → B) (m : res A) : m ≠ Panic → f <$> m ≠ Panic.
Proof. by destruct m. Qed.
#[export] Hint Resolve guard_err_np ok_or_np : cere.

(** Running a chain of checks: [check_run] passes a guard whose condition
    holds by arithmetic, or a checked operation that does not overflow. *)
Lemma guard_run {B} b e (k : unit → res B) m :
  b = true → k tt = m → (guard_err b e ≫= k) = m.
Proof. by intros ->. Qed.
Lemma ok_or_run {A B} (o : option A) a e (k : A → res B) m :
  o = Some a → k a = m → (ok_or o e ≫= k) = m.
Proof. by intros ->. Qed.
Lemma bind_run {A B} (x : res A) a (k : A → res B) m : x = Ok a → k a = m → (x ≫= k) = m.
Proof. by intros ->. Qed.
Lemma checked_add_Some x y z : checked_add x y = Some z ↔ z = x + y ∧ x + y <= u64_max.
Proof. unfold checked_add. destruct (Z.leb_spec (x + y) u64_max); naive_solver lia. Qed.
Lemma checked_add_run x y : x + y <= u64_max → checked_add x y = Some (x + y).
Proof. intros. by apply checked_add_Some. Qed.
Lemma checked_sub_run x y : y <= x → checked_sub x y = Some (x - y).
Proof. intros. unfold checked_sub. by rewrite (proj2 (Z.leb_le _ _)). Qed.

Ltac bool_lia :=
  repeat first
    [ rewrite andb_true_iff | rewrite negb_true_iff | rewrite orb_false_iff
    | rewrite andb_false_iff | rewrite negb_false_iff
    | rewrite Z.leb_le | rewrite Z.ltb_lt | rewrite Z.eqb_eq
    | rewrite Z.leb_gt | rewrite Z.ltb_ge | rewrite Z.eqb_neq ]; lia.
Ltac check_run :=
  first [ apply guard_run; [bool_lia|]
        | eapply ok_or_run; [first [apply checked_add_run | apply checked_sub_run]; lia|] ];
  cbv beta.
