(* ===== verification/Bytes.v ===== *)
(** * Byte strings, integer codecs and readers

    The byte-level vocabulary every on-disk format of CereDB is written in:
    [to_be_bytes]/[from_be_bytes] and their little-endian twins, the
    [read_exact] discipline of [std::io::Read] as a small reader monad, and
    the interface of the [crc32fast] crate.  Round trips are stated in the
    streaming form [p (encode x ++ rest) = Ok (x, rest)], and their converse
    ([p bs = Ok (x, rest)] forces [bs = encode x ++ rest]) as inversion lemmas. *)

From S2P Require Import Prelude.

Abbreviation bytes := (list byte).

#[export] Instance byte_eq_decision : EqDecision byte := byte_eq_dec.

(** [x.len()] of a byte vector, as an unbounded integer. *)
Definition len {A} (l : list A) : Z := Z.of_nat (length l).

(** The bytes of a literal or of [format!]. *)
Definition bytes_of_string (s : string) : bytes := String.list_byte_of_string s.

(** ** Bytes as numbers *)

Definition bz (b : byte) : Z := Z.of_N (Byte.to_N b).
Definition zb (z : Z) : byte :=
  match Byte.of_N (Z.to_N (z mod 256)) with Some b => b | None => x00 end.

(** Little- and big-endian encodings on [n] bytes. *)
Fixpoint to_le (n : nat) (z : Z) : bytes :=
  match n with
  | O => []
  | S n => zb z :: to_le n (z / 256)
  end.
Fixpoint from_le (bs : bytes) : Z :=
  match bs with
  | [] => 0
  | b :: bs => bz b + 256 * from_le bs
  end.
Definition to_be (n : nat) (z : Z) : bytes := rev (to_le n z).
Definition from_be (bs : bytes) : Z := from_le (rev bs).

(** Lexicographic comparison of byte slices ([Ord for [u8]]). *)
Fixpoint bytes_cmp (x y : bytes) : comparison :=
  match x, y with
  | [], [] => Eq
  | [], _ :: _ => Lt
  | _ :: _, [] => Gt
  | a :: x, b :: y =>
      match Z.compare (bz a) (bz b) with
      | Eq => bytes_cmp x y
      | c => c
      end
  end.
Definition bytes_ltb (x y : bytes) : bool :=
  match bytes_cmp x y with Lt => true | _ => false end.
Definition bytes_leb (x y : bytes) : bool :=
  match bytes_cmp x y with Gt => false | _ => true end.
Definition bytes_eqb (x y : bytes) : bool := bool_decide (x = y).

(** [starts_with p x]: [x.starts_with(p)]. *)
Fixpoint starts_with (p x : bytes) : bool :=
  match p, x with
  | [], _ => true
  | _ :: _, [] => false
  | a :: p, b :: x => bool_decide (a = b) && starts_with p x
  end.

(** [slice bs i j] is [&bs[i..j]]: panics when the range is out of bounds. *)
Definition slice (bs : bytes) (i j : Z) : res bytes :=
  if (i <=? j) && (j <=? len bs)
  then Ok (take (Z.to_nat (j - i)) (drop (Z.to_nat i) bs)) else Panic.
(** [slice_get bs i j] is [bs.get(i..j)]. *)
Definition slice_get (bs : bytes) (i j : Z) : option bytes :=
  if (i <=? j) && (j <=? len bs)
  then Some (take (Z.to_nat (j - i)) (drop (Z.to_nat i) bs)) else None.
(** [byte_at bs i] is [bs[i]]. *)
Definition byte_at (bs : bytes) (i : Z) : res byte :=
  match bs !! Z.to_nat i with Some b => Ok b | None => Panic end.

(** ** The [crc32fast] crate

    [crc32] is [crc32fast::hash]; feeding a [Hasher] the slices [a] and [b]
    in turn hashes their concatenation.  The only fact the formats rely on is
    that the result is a [u32]. *)

Class Crc32 : Type := crc32 : bytes → Z.
Class Crc32Spec `{Crc32} : Prop := crc32_u32 : ∀ bs, is_u32 (crc32 bs).
#[export] Hint Resolve crc32_u32 : cere.

(** CRC-32/IEEE, the polynomial the crate documents: the concrete instance
    the examples and witnesses run with. *)
Fixpoint crc_bits (n : nat) (c : Z) : Z :=
  match n with
  | O => c
  | S n => crc_bits n (if Z.odd c then Z.lxor (Z.shiftr c 1) 3988292384 else Z.shiftr c 1)
  end.
Definition crc32_ieee (bs : bytes) : Z :=
  wrap32 (Z.lxor (foldl (λ c b, crc_bits 8 (Z.lxor c (bz b))) u32_max bs) u32_max).
Definition ieee : Crc32 := crc32_ieee.
Lemma ieee_spec : @Crc32Spec ieee.
Proof. intros bs. apply wrap32_u32. Qed.

(** The value the documentation of [calculate_crc32] gives for "hello". *)
Example crc32_hello :
  crc32_ieee [x68; x65; x6c; x6c; x6f] = 907060870.
Proof. vm_compute. reflexivity. Qed.

(** ** Readers *)

Definition reader (A : Type) : Type := bytes → res (A * bytes).

#[export] Instance reader_ret : MRet reader := λ A a bs, Ok (a, bs).
#[export] Instance reader_bind : MBind reader := λ A B f p bs,
  match p bs with Ok (a, r) => f a r | Err e => Err e | Panic => Panic end.

Definition lift {A} (m : res A) : reader A :=
  λ bs, match m with Ok a => Ok (a, bs) | Err e => Err e | Panic => Panic end.
Definition fail_with {A} (e : DBError) : reader A := λ _, Err e.
Definition require (b : bool) (e : DBError) : reader unit := lift (guard_err b e).

(** [Read::read_exact] into a buffer of [n] bytes. *)
Definition read_exact (n : Z) : reader bytes := λ bs,
  if len bs <? n then Err (IO UnexpectedEof)
  else Ok (take (Z.to_nat n) bs, drop (Z.to_nat n) bs).
(** [vec![0u8; n]] followed by [read_exact]: a capacity above [isize::MAX] panics. *)
Definition read_vec (n : Z) : reader bytes := λ bs,
  if isize_max <? n then Panic else read_exact n bs.

Definition read_be (n : nat) : reader Z := b ← read_exact (Z.of_nat n); mret (from_be b).
Definition read_le (n : nat) : reader Z := b ← read_exact (Z.of_nat n); mret (from_le b).
Abbreviation read_u32_be := (read_be 4).
Abbreviation read_u64_be := (read_be 8).
Abbreviation read_u32_le := (read_le 4).
Abbreviation read_u64_le := (read_le 8).
(** A single byte, [read_exact] into [[0u8; 1]]. *)
Definition read_u8 : reader byte := λ bs,
  match bs with [] => Err (IO UnexpectedEof) | b :: r => Ok (b, r) end.

(** [for _ in 0..n { v.push(p(reader)?) }]. *)
Fixpoint read_many {A} (p : reader A) (n : nat) : reader (list A) :=
  match n with
  | O => mret []
  | S n => x ← p; xs ← read_many p n; mret (x :: xs)
  end.

(** ** Number codecs *)

Lemma bz_range b : 0 <= bz b < 256.
Proof. unfold bz. pose proof (Byte.to_N_bounded b). lia. Qed.
Lemma bz_zb z : bz (zb z) = z mod 256.
Proof.
  unfold bz, zb. pose proof (Z.mod_pos_bound z 256 ltac:(lia)).
  destruct (Byte.of_N _) eqn:E.
  - apply Byte.to_of_N in E. rewrite E. lia.
  - apply Byte.of_N_None_iff in E. lia.
Qed.
Lemma bz_inj a b : bz a = bz b → a = b.
Proof.
  unfold bz. intros H%N2Z.inj. pose proof (Byte.of_to_N a). pose proof (Byte.of_to_N b).
  congruence.
Qed.
Lemma zb_bz b : zb (bz b) = b.
Proof. apply bz_inj. rewrite bz_zb, Z.mod_small; [done | apply bz_range]. Qed.

Lemma length_to_le n z : length (to_le n z) = n.
Proof. revert z. induction n; intros z; simpl; [done | by rewrite IHn]. Qed.
Lemma length_to_be n z : length (to_be n z) = n.
Proof. unfold to_be. by rewrite length_rev, length_to_le. Qed.

Lemma from_le_range bs : 0 <= from_le bs < 256 ^ Z.of_nat (length bs).
Proof.
  induction bs as [|b bs IH]; simpl length; simpl from_le; [lia|].
  rewrite Nat2Z.inj_succ, Z.pow_succ_r by lia. pose proof (bz_range b). lia.
Qed.
Lemma from_be_range bs : 0 <= from_be bs < 256 ^ Z.of_nat (length bs).
Proof. unfold from_be. rewrite <- (length_rev bs). apply from_le_range. Qed.

Lemma from_to_le n z : 0 <= z < 256 ^ Z.of_nat n → from_le (to_le n z) = z.
Proof.
  revert z. induction n as [|n IH]; intros z; simpl to_le; simpl from_le; [lia|].
  rewrite Nat2Z.inj_succ, Z.pow_succ_r by lia. intros Hz.
  rewrite bz_zb, IH.
  - pose proof (Z.div_mod z 256). lia.
  - split; [apply Z.div_pos; lia | apply Z.div_lt_upper_bound; lia].
Qed.
Lemma from_to_be n z : 0 <= z < 256 ^ Z.of_nat n → from_be (to_be n z) = z.
Proof. intros. unfold from_be, to_be. rewrite rev_involutive. by apply from_to_le. Qed.

Lemma to_from_le bs : to_le (length bs) (from_le bs) = bs.
Proof.
  induction bs as [|b bs IH]; simpl; [done|]. f_equal.
  - apply bz_inj. rewrite bz_zb, (Z.mul_comm 256), Z.mod_add by lia.
    apply Z.mod_small, bz_range.
  - etrans; [|apply IH]. f_equal.
    rewrite (Z.mul_comm 256), Z.div_add by lia. rewrite Z.div_small by apply bz_range. lia.
Qed.
Lemma to_from_be bs : to_be (length bs) (from_be bs) = bs.
Proof.
  unfold to_be, from_be. rewrite <- (length_rev bs), to_from_le. apply rev_involutive.
Qed.

Lemma u32_bound z : is_u32 z ↔ 0 <= z < 256 ^ Z.of_nat 4.
Proof. change (256 ^ Z.of_nat 4) with 4294967296. word_lia. Qed.
Lemma u64_bound z : is_u64 z ↔ 0 <= z < 256 ^ Z.of_nat 8.
Proof. change (256 ^ Z.of_nat 8) with 18446744073709551616. word_lia. Qed.

Lemma len_app {A} (x y : list A) : len (x ++ y) = len x + len y.
Proof. unfold len. rewrite length_app. lia. Qed.
Lemma len_nil {A} : len (@nil A) = 0.
Proof. done. Qed.
Lemma len_cons {A} (a : A) x : len (a :: x) = 1 + len x.
Proof. unfold len. simpl. lia. Qed.
Lemma len_nonneg {A} (x : list A) : 0 <= len x.
Proof. unfold len. lia. Qed.
Lemma len_to_be n z : len (to_be n z) = Z.of_nat n.
Proof. unfold len. by rewrite length_to_be. Qed.
Lemma len_to_le n z : len (to_le n z) = Z.of_nat n.
Proof. unfold len. by rewrite length_to_le. Qed.
Lemma len_take_drop {A} n (x : list A) : 0 <= n <= len x → len (take (Z.to_nat n) x) = n.
Proof. unfold len. rewrite length_take. lia. Qed.
Lemma len_0_nil {A} (x : list A) : len x = 0 → x = [].
Proof. destruct x; [done|]. rewrite len_cons. pose proof (len_nonneg x). lia. Qed.
Create Rewrite HintDb len.
#[export] Hint Rewrite @len_app @len_nil @len_cons len_to_be len_to_le : len.

(** ** Byte-string order *)

Lemma bytes_cmp_refl x : bytes_cmp x x = Eq.
Proof. induction x; simpl; [done | by rewrite Z.compare_refl]. Qed.
Lemma bytes_cmp_eq x y : bytes_cmp x y = Eq ↔ x = y.
Proof.
  split; [|intros ->; apply bytes_cmp_refl].
  revert y. induction x as [|a x IH]; intros [|b y]; simpl; try done.
  destruct (Z.compare_spec (bz a) (bz b)) as [E|E|E]; try done.
  intros H. apply bz_inj in E. apply IH in H. by subst.
Qed.
Lemma bytes_cmp_antisym x y : bytes_cmp y x = CompOpp (bytes_cmp x y).
Proof.
  revert y. induction x as [|a x IH]; intros [|b y]; simpl; try done.
  rewrite (Z.compare_antisym (bz a) (bz b)). destruct (bz a ?= bz b); simpl; auto.
Qed.
Lemma bytes_cmp_trans x y z : bytes_cmp x y = Lt → bytes_cmp y z = Lt → bytes_cmp x z = Lt.
Proof.
  revert y z. induction x as [|a x IH]; intros [|b y] [|c z]; simpl; try done.
  destruct (Z.compare_spec (bz a) (bz b)), (Z.compare_spec (bz b) (bz c)),
    (Z.compare_spec (bz a) (bz c)); try done; try lia; eauto.
Qed.
Lemma bytes_ltb_lt x y : bytes_ltb x y = true ↔ bytes_cmp x y = Lt.
Proof. unfold bytes_ltb. destruct (bytes_cmp x y); naive_solver. Qed.
Lemma bytes_leb_le x y : bytes_leb x y = true ↔ bytes_cmp x y ≠ Gt.
Proof. unfold bytes_leb. destruct (bytes_cmp x y); naive_solver. Qed.
Lemma bytes_eqb_eq x y : bytes_eqb x y = true ↔ x = y.
Proof. unfold bytes_eqb. by rewrite bool_decide_eq_true. Qed.

Lemma starts_with_spec p x : starts_with p x = true ↔ ∃ r, x = p ++ r.
Proof.
  revert x. induction p as [|a p IH]; intros x; simpl; [naive_solver|].
  destruct x as [|b x]; [split; [done | by intros [? ?]]|].
  rewrite andb_true_iff, bool_decide_eq_true, IH.
  split; [intros [-> [r ->]]; by exists r | intros [r [= -> ->]]; eauto].
Qed.

(** ** Reader lemmas: running on an encoding, and inverting a success *)

Lemma reader_bind_Ok {A B} (p : reader A) (f : A → reader B) bs b r :
  (p ≫= f) bs = Ok (b, r) ↔ ∃ a r', p bs = Ok (a, r') ∧ f a r' = Ok (b, r).
Proof.
  unfold mbind, reader_bind. destruct (p bs) as [[a r']| |]; naive_solver.
Qed.
Lemma reader_ret_Ok {A} (a b : A) bs r : (mret a : reader A) bs = Ok (b, r) ↔ a = b ∧ bs = r.
Proof. unfold mret, reader_ret. naive_solver. Qed.
Lemma reader_bind_run {A B} (p : reader A) (f : A → reader B) bs a r :
  p bs = Ok (a, r) → (p ≫= f) bs = f a r.
Proof. unfold mbind, reader_bind. by intros ->. Qed.

Lemma read_exact_run (x r : bytes) n : n = len x → read_exact n (x ++ r) = Ok (x, r).
Proof.
  intros ->. unfold read_exact. rewrite len_app.
  destruct (Z.ltb_spec (len x + len r) (len x)); [pose proof (len_nonneg r); lia|].
  unfold len. rewrite Nat2Z.id, take_app_length, drop_app_length. done.
Qed.
Lemma read_exact_inv n bs x r :
  0 <= n → read_exact n bs = Ok (x, r) → bs = x ++ r ∧ len x = n.
Proof.
  intros Hn. unfold read_exact. destruct (Z.ltb_spec (len bs) n); [done|].
  intros [= <- <-]. rewrite take_drop. split; [done|]. apply len_take_drop. lia.
Qed.
Lemma read_vec_run (x r : bytes) n :
  n = len x → n <= isize_max → read_vec n (x ++ r) = Ok (x, r).
Proof.
  intros Hn Hm. unfold read_vec. destruct (Z.ltb_spec isize_max n); [lia|].
  by apply read_exact_run.
Qed.
Lemma read_vec_inv n bs x r :
  0 <= n → read_vec n bs = Ok (x, r) → bs = x ++ r ∧ len x = n ∧ n <= isize_max.
Proof.
  intros Hn. unfold read_vec. destruct (Z.ltb_spec isize_max n); [done|].
  intros [-> <-]%read_exact_inv; [done | lia].
Qed.
Lemma read_be_run n z r : 0 <= z < 256 ^ Z.of_nat n → read_be n (to_be n z ++ r) = Ok (z, r).
Proof.
  intros Hz. unfold read_be. erewrite reader_bind_run.
  2: { apply read_exact_run. by rewrite len_to_be. }
  unfold mret, reader_ret. by rewrite from_to_be.
Qed.
Lemma read_le_run n z r : 0 <= z < 256 ^ Z.of_nat n → read_le n (to_le n z ++ r) = Ok (z, r).
Proof.
  intros Hz. unfold read_le. erewrite reader_bind_run.
  2: { apply read_exact_run. by rewrite len_to_le. }
  unfold mret, reader_ret. by rewrite from_to_le.
Qed.
Lemma read_be_inv n bs z r :
  read_be n bs = Ok (z, r) → bs = to_be n z ++ r ∧ 0 <= z < 256 ^ Z.of_nat n.
Proof.
  unfold read_be. intros (x & r' & H & [<- <-]%reader_ret_Ok)%reader_bind_Ok.
  apply read_exact_inv in H as [-> Hx]; [|lia]. unfold len in Hx.
  assert (length x = n) as <- by lia. split; [by rewrite to_from_be | apply from_be_range].
Qed.
Lemma read_le_inv n bs z r :
  read_le n bs = Ok (z, r) → bs = to_le n z ++ r ∧ 0 <= z < 256 ^ Z.of_nat n.
Proof.
  unfold read_le. intros (x & r' & H & [<- <-]%reader_ret_Ok)%reader_bind_Ok.
  apply read_exact_inv in H as [-> Hx]; [|lia]. unfold len in Hx.
  assert (length x = n) as <- by lia. split; [by rewrite to_from_le | apply from_le_range].
Qed.
Lemma read_u32_be_run z r : is_u32 z → read_u32_be (to_be 4 z ++ r) = Ok (z, r).
Proof. intros Hz%u32_bound. by apply read_be_run. Qed.
Lemma read_u64_be_run z r : is_u64 z → read_u64_be (to_be 8 z ++ r) = Ok (z, r).
Proof. intros Hz%u64_bound. by apply read_be_run. Qed.
Lemma read_u32_le_run z r : is_u32 z → read_u32_le (to_le 4 z ++ r) = Ok (z, r).
Proof. intros Hz%u32_bound. by apply read_le_run. Qed.
Lemma read_u64_le_run z r : is_u64 z → read_u64_le (to_le 8 z ++ r) = Ok (z, r).
Proof. intros Hz%u64_bound. by apply read_le_run. Qed.
Lemma read_u32_be_inv bs z r : read_u32_be bs = Ok (z, r) → bs = to_be 4 z ++ r ∧ is_u32 z.
Proof. intros [-> ?%u32_bound]%read_be_inv. done. Qed.
Lemma read_u64_be_inv bs z r : read_u64_be bs = Ok (z, r) → bs = to_be 8 z ++ r ∧ is_u64 z.
Proof. intros [-> ?%u64_bound]%read_be_inv. done. Qed.
Lemma read_u32_le_inv bs z r : read_u32_le bs = Ok (z, r) → bs = to_le 4 z ++ r ∧ is_u32 z.
Proof. intros [-> ?%u32_bound]%read_le_inv. done. Qed.
Lemma read_u64_le_inv bs z r : read_u64_le bs = Ok (z, r) → bs = to_le 8 z ++ r ∧ is_u64 z.
Proof. intros [-> ?%u64_bound]%read_le_inv. done. Qed.
Lemma read_u8_run b r : read_u8 (b :: r) = Ok (b, r).
Proof. done. Qed.
Lemma read_u8_inv bs b r : read_u8 bs = Ok (b, r) → bs = b :: r.
Proof. destruct bs; naive_solver. Qed.
Lemma lift_Ok {A} (m : res A) bs a r : lift m bs = Ok (a, r) ↔ m = Ok a ∧ bs = r.
Proof. unfold lift. destruct m; naive_solver. Qed.
Lemma require_Ok b e bs u r : require b e bs = Ok (u, r) ↔ b = true ∧ bs = r.
Proof. unfold require. rewrite lift_Ok, guard_err_Ok. done. Qed.
Lemma lift_run {A} (m : res A) a r : m = Ok a → lift m r = Ok (a, r).
Proof. by intros ->. Qed.
Lemma require_run b e r : b = true → require b e r = Ok (tt, r).
Proof. by intros ->. Qed.

(** A list of records encoded one after the other is read back by [read_many]. *)
Lemma read_many_run {A B} (p : reader B) (enc : A → bytes) (norm : A → B) l r :
  Forall (λ x, ∀ r, p (enc x ++ r) = Ok (norm x, r)) l →
  read_many p (length l) (concat (enc <$> l) ++ r) = Ok (norm <$> l, r).
Proof.
  intros H. revert r. induction H as [|x l Hx Hl IH]; intros r; [done|]. csimpl.
  rewrite <- (assoc_L (++)), (reader_bind_run _ _ _ _ _ (Hx _)).
  by rewrite (reader_bind_run _ _ _ _ _ (IH _)).
Qed.
Lemma read_many_inv {A} (p : reader A) (enc : A → bytes) (P : A → Prop) n bs l r :
  (∀ bs x r, p bs = Ok (x, r) → bs = enc x ++ r ∧ P x) →
  read_many p n bs = Ok (l, r) →
  bs = concat (enc <$> l) ++ r ∧ length l = n ∧ Forall P l.
Proof.
  intros Hp. revert bs l r. induction n as [|n IH]; intros bs l r; simpl.
  - intros [<- <-]%reader_ret_Ok. auto.
  - intros (x & r1 & [-> Hx]%Hp & (xs & r2 & (-> & <- & Hxs)%IH & [<- <-]%reader_ret_Ok)%reader_bind_Ok)%reader_bind_Ok.
    simpl. rewrite (assoc_L (++)). auto.
Qed.

(** ** Automation

    [run_reader] executes a reader on a right-nested concatenation of
    encodings; [inv_reader] destructs a successful run into the pieces it
    consumed. *)

Ltac side := first [ done | solve [eauto with cere] | word_lia
                   | (autorewrite with len; word_lia) ].

Ltac reader_hook := fail.
Ltac reader_prim :=
  lazymatch goal with
  | |- read_u8 _ = _ => apply read_u8_run
  | |- read_be 8 _ = _ => apply read_u64_be_run; side
  | |- read_be 4 _ = _ => apply read_u32_be_run; side
  | |- read_le 8 _ = _ => apply read_u64_le_run; side
  | |- read_le 4 _ = _ => apply read_u32_le_run; side
  | |- read_be _ _ = _ => apply read_be_run; side
  | |- read_le _ _ = _ => apply read_le_run; side
  | |- read_vec _ _ = _ => apply read_vec_run; side
  | |- read_exact _ _ = _ => apply read_exact_run; side
  | |- _ => reader_hook
  end.
Ltac norm_app :=
  repeat first
    [ progress rewrite <- ?app_assoc
    | progress rewrite <- ?app_comm_cons
    | progress rewrite ?app_nil_l ].
Ltac step_reader := erewrite reader_bind_run; [| reader_prim]; cbv beta.
Ltac run_reader := norm_app; repeat step_reader; try (unfold mret, reader_ret).

Ltac inv_reader :=
  repeat match goal with
    | H : (_ ≫= _) _ = Ok (_, _) |- _ =>
        apply reader_bind_Ok in H; destruct H as (?&?&?&H)
    | H : mret _ _ = Ok (_, _) |- _ =>
        apply reader_ret_Ok in H; destruct H as [? ?]
    | H : reader_ret _ _ _ = Ok (_, _) |- _ =>
        apply reader_ret_Ok in H; destruct H as [? ?]
    | H : lift _ _ = Ok (_, _) |- _ => apply lift_Ok in H; destruct H as [? ?]
    | H : require _ _ _ = Ok (_, _) |- _ => apply require_Ok in H; destruct H as [? ?]
    | H : read_u8 _ = Ok (_, _) |- _ => apply read_u8_inv in H
    | H : read_u64_be _ = Ok (_, _) |- _ => apply read_u64_be_inv in H; destruct H as [? ?]
    | H : read_u32_be _ = Ok (_, _) |- _ => apply read_u32_be_inv in H; destruct H as [? ?]
    | H : read_u64_le _ = Ok (_, _) |- _ => apply read_u64_le_inv in H; destruct H as [? ?]
    | H : read_u32_le _ = Ok (_, _) |- _ => apply read_u32_le_inv in H; destruct H as [? ?]
    | H : read_be _ _ = Ok (_, _) |- _ => apply read_be_inv in H; destruct H as [? ?]
    | H : read_vec _ _ = Ok (_, _) |- _ =>
        apply read_vec_inv in H; [destruct H as (?&?&?) | side]
    | H : read_exact _ _ = Ok (_, _) |- _ =>
        apply read_exact_inv in H; [destruct H as [? ?] | side]
    | H : context [fail_with] |- _ => discriminate H
    end; subst.

#[global] Opaque to_be to_le.
#[global] Arguments len : simpl never.

(** ** Absence of panics

    [no_panic] proves that a reader never panics: only a [read_vec] whose
    length may exceed [isize::MAX] could, and its argument is bounded by the
    width of the length field read before it. *)

Lemma reader_bind_np {A B} (p : reader A) (f : A → reader B) bs :
  p bs ≠ Panic → (∀ a r, p bs = Ok (a, r) → f a r ≠ Panic) → (p ≫= f) bs ≠ Panic.
Proof. unfold mbind, reader_bind. destruct (p bs) as [[a r]| |]; naive_solver. Qed.
Lemma slice_np (bs : bytes) i j : i <= j <= len bs → slice bs i j ≠ Panic.
Proof. intros. unfold slice. by rewrite !(proj2 (Z.leb_le _ _)) by lia. Qed.
Lemma read_exact_np n bs : read_exact n bs ≠ Panic.
Proof. unfold read_exact. by case_match. Qed.
Lemma read_vec_np n bs : n <= isize_max → read_vec n bs ≠ Panic.
Proof.
  intros. unfold read_vec. destruct (Z.ltb_spec isize_max n); [lia | apply read_exact_np].
Qed.
Lemma read_be_np n bs : read_be n bs ≠ Panic.
Proof. apply reader_bind_np; [apply read_exact_np | done]. Qed.
Lemma read_le_np n bs : read_le n bs ≠ Panic.
Proof. apply reader_bind_np; [apply read_exact_np | done]. Qed.
Lemma read_u8_np bs : read_u8 bs ≠ Panic.
Proof. by destruct bs. Qed.
Lemma require_np b e bs : require b e bs ≠ Panic.
Proof. by destruct b. Qed.
Lemma lift_np {A} (m : res A) bs : m ≠ Panic → lift m bs ≠ Panic.
Proof. by destruct m. Qed.
Lemma read_many_np {A} (p : reader A) n bs : (∀ bs, p bs ≠ Panic) → read_many p n bs ≠ Panic.
Proof.
  intros Hp. revert bs. induction n as [|n IH]; intros bs; simpl; [done|].
  apply reader_bind_np; [done|]. intros. apply reader_bind_np; [done | by intros].
Qed.
#[export] Hint Resolve read_exact_np read_be_np read_le_np read_u8_np require_np lift_np : cere.

Ltac no_panic :=
  repeat match goal with
    | |- (_ ≫= _) _ ≠ Panic => apply reader_bind_np; [| intros ? ? ?; inv_reader]
    | |- read_vec _ _ ≠ Panic => apply read_vec_np; word_lia
    | |- read_many _ _ _ ≠ Panic => apply read_many_np; intros ?
    | |- _ => solve [ eauto with cere | done ]
    end.
