(* ===== verification/OrdMap.v ===== *)
(** * Ordered maps

    [BTreeMap], [BTreeSet] and [crossbeam_skiplist::SkipMap] as association
    lists sorted strictly by key, with iteration in list order, which is what
    the sources rely on.  A [HashMap] whose iteration order is never observed
    (its contents are sorted before they leave the function) is modelled the
    same way.  Keys are compared through the class [OrdKey]; its instances are
    byte strings, machine integers and pairs of those (lexicographic). *)

From S2P Require Import Prelude Bytes.
From Stdlib Require Import Sorted.

Class OrdKey (K : Type) : Type := {
  kcmp : K → K → comparison;
  kcmp_eq : ∀ x y, kcmp x y = Eq ↔ x = y;
  kcmp_antisym : ∀ x y, kcmp y x = CompOpp (kcmp x y);
  kcmp_trans : ∀ x y z, kcmp x y = Lt → kcmp y z = Lt → kcmp x z = Lt
}.

#[export] Instance bytes_ord : OrdKey bytes :=
  {| kcmp := bytes_cmp; kcmp_eq := bytes_cmp_eq;
     kcmp_antisym := bytes_cmp_antisym; kcmp_trans := bytes_cmp_trans |}.

Lemma Z_compare_trans (x y z : Z) : (x ?= y) = Lt → (y ?= z) = Lt → (x ?= z) = Lt.
Proof. rewrite !Z.compare_lt_iff. lia. Qed.
Lemma Z_compare_antisym (x y : Z) : (y ?= x) = CompOpp (x ?= y).
Proof. apply Z.compare_antisym. Qed.
#[export] Instance Z_ord : OrdKey Z :=
  {| kcmp := Z.compare; kcmp_eq := Z.compare_eq_iff;
     kcmp_antisym := Z_compare_antisym; kcmp_trans := Z_compare_trans |}.

Section pair_ord.
Context {A B : Type} `{OrdKey A, OrdKey B}.

(** Lexicographic comparison of tuples ([derive(Ord)] on [(A, B)]). *)
Definition pair_cmp (x y : A * B) : comparison :=
  match kcmp (fst x) (fst y) with Eq => kcmp (snd x) (snd y) | c => c end.

Lemma pair_cmp_eq x y : pair_cmp x y = Eq ↔ x = y.
Proof.
  unfold pair_cmp. destruct x as [a b], y as [a' b']; simpl.
  destruct (kcmp a a') eqn:E.
  - apply kcmp_eq in E as ->. rewrite kcmp_eq. naive_solver.
  - split; [done|]. intros [= -> ->]. by rewrite (proj2 (kcmp_eq a' a')) in E.
  - split; [done|]. intros [= -> ->]. by rewrite (proj2 (kcmp_eq a' a')) in E.
Qed.
Lemma pair_cmp_antisym x y : pair_cmp y x = CompOpp (pair_cmp x y).
Proof.
  unfold pair_cmp. rewrite (kcmp_antisym (fst x)).
  destruct (kcmp (fst x) (fst y)); simpl; [apply kcmp_antisym | done | done].
Qed.
Lemma pair_cmp_trans x y z : pair_cmp x y = Lt → pair_cmp y z = Lt → pair_cmp x z = Lt.
Proof.
  unfold pair_cmp. destruct x as [a b], y as [a' b'], z as [a'' b'']; simpl.
  destruct (kcmp a a') eqn:E1; [| |done]; destruct (kcmp a' a'') eqn:E2; try done.
  - apply kcmp_eq in E1 as ->. apply kcmp_eq in E2 as ->.
    rewrite (proj2 (kcmp_eq a'' a'') eq_refl). apply kcmp_trans.
  - apply kcmp_eq in E1 as ->. by rewrite E2.
  - apply kcmp_eq in E2 as ->. by rewrite E1.
  - by rewrite (kcmp_trans _ _ _ E1 E2).
Qed.
End pair_ord.

#[export] Instance pair_ordkey {A B} `{OrdKey A, OrdKey B} : OrdKey (A * B) :=
  {| kcmp := pair_cmp; kcmp_eq := pair_cmp_eq;
     kcmp_antisym := pair_cmp_antisym; kcmp_trans := pair_cmp_trans |}.

(** ** Order facts *)

Section ord_facts.
Context {K : Type} `{OrdKey K}.
Definition klt (x y : K) : Prop := kcmp x y = Lt.
Definition kle (x y : K) : Prop := kcmp x y ≠ Gt.
Definition kltb (x y : K) : bool := match kcmp x y with Lt => true | _ => false end.
Definition kleb (x y : K) : bool := match kcmp x y with Gt => false | _ => true end.

Lemma kcmp_refl x : kcmp x x = Eq.
Proof. by apply kcmp_eq. Qed.
Lemma kcmp_gt x y : kcmp x y = Gt ↔ klt y x.
Proof. unfold klt. rewrite (kcmp_antisym x y). destruct (kcmp x y); naive_solver. Qed.
Lemma klt_irrefl x : ¬ klt x x.
Proof. unfold klt. by rewrite kcmp_refl. Qed.
Lemma klt_trans x y z : klt x y → klt y z → klt x z.
Proof. apply kcmp_trans. Qed.
Lemma kle_lt_eq x y : kle x y ↔ klt x y ∨ x = y.
Proof. unfold kle, klt. rewrite <- kcmp_eq. destruct (kcmp x y); naive_solver. Qed.
Lemma klt_le x y : klt x y → kle x y.
Proof. rewrite kle_lt_eq. auto. Qed.
Lemma kle_refl x : kle x x.
Proof. rewrite kle_lt_eq. auto. Qed.
Lemma kle_trans x y z : kle x y → kle y z → kle x z.
Proof. rewrite !kle_lt_eq. intros [?| ->] [?| ->]; eauto using klt_trans. Qed.
Lemma klt_le_trans x y z : klt x y → kle y z → klt x z.
Proof. rewrite kle_lt_eq. intros ? [?| ->]; eauto using klt_trans. Qed.
Lemma kle_lt_trans x y z : kle x y → klt y z → klt x z.
Proof. rewrite kle_lt_eq. intros [?| ->] ?; eauto using klt_trans. Qed.
Lemma klt_not_le x y : klt x y ↔ ¬ kle y x.
Proof. unfold kle. rewrite kcmp_gt. destruct (kcmp x y) eqn:E; unfold klt; rewrite E; naive_solver. Qed.
Lemma kle_antisym x y : kle x y → kle y x → x = y.
Proof. rewrite !kle_lt_eq. intros [?|?] [?|?]; try done. by destruct (klt_irrefl x); eapply klt_trans. Qed.
Lemma kle_total x y : kle x y ∨ klt y x.
Proof. unfold kle. rewrite <- kcmp_gt. destruct (kcmp x y); naive_solver. Qed.
Lemma kltb_lt x y : kltb x y = true ↔ klt x y.
Proof. unfold kltb, klt. destruct (kcmp x y); naive_solver. Qed.
Lemma kleb_le x y : kleb x y = true ↔ kle x y.
Proof. unfold kleb, kle. destruct (kcmp x y); naive_solver. Qed.
Lemma kltb_ge x y : kltb x y = false ↔ kle y x.
Proof. unfold kltb, kle. rewrite (kcmp_antisym x y). destruct (kcmp x y); naive_solver. Qed.
Lemma kleb_gt x y : kleb x y = false ↔ klt y x.
Proof. unfold kleb. rewrite <- kcmp_gt. destruct (kcmp x y); naive_solver. Qed.
#[export] Instance klt_dec x y : Decision (klt x y).
Proof. unfold klt. apply _. Defined.
#[export] Instance kle_dec x y : Decision (kle x y).
Proof. unfold kle. apply _. Defined.
End ord_facts.

(** ** Maps *)

Section ordmap.
Context {K V : Type} `{OrdKey K}.

Definition ordmap : Type := list (K * V).
Implicit Types (m : list (K * V)) (k : K) (v : V).

Fixpoint om_get (k : K) (m : list (K * V)) : option V :=
  match m with
  | [] => None
  | (k', v) :: m => match kcmp k k' with Eq => Some v | _ => om_get k m end
  end.
(** [insert]: replaces the value of an existing key. *)
Fixpoint om_insert (k : K) (v : V) (m : list (K * V)) : list (K * V) :=
  match m with
  | [] => [(k, v)]
  | (k', v') :: m' =>
      match kcmp k k' with
      | Lt => (k, v) :: (k', v') :: m'
      | Eq => (k, v) :: m'
      | Gt => (k', v') :: om_insert k v m'
      end
  end.
Definition om_remove (k : K) (m : list (K * V)) : list (K * V) :=
  List.filter (λ kv, match kcmp k (fst kv) with Eq => false | _ => true end) m.

(** The representation invariant: keys strictly increasing. *)
Definition om_wf (m : list (K * V)) : Prop := StronglySorted (λ x y, klt (fst x) (fst y)) m.

Lemma om_wf_nil : om_wf [].
Proof. constructor. Qed.
Lemma om_wf_cons k v m : om_wf ((k, v) :: m) ↔ om_wf m ∧ Forall (λ kv, klt k (fst kv)) m.
Proof. split; [intros [? ?]%StronglySorted_inv; done | intros [? ?]; by constructor]. Qed.

Lemma om_get_notin k m : Forall (λ kv, klt k (fst kv)) m → om_get k m = None.
Proof.
  induction 1 as [|[k' v'] m Hk ? IH]; simpl; [done|]. simpl in Hk. unfold klt in Hk.
  by rewrite Hk.
Qed.
Lemma om_get_Some m k v : om_wf m → om_get k m = Some v ↔ (k, v) ∈ m.
Proof.
  induction m as [|[k' v'] m IH]; simpl; [by intros ?; rewrite elem_of_nil|].
  intros [Hw Hf]%om_wf_cons. rewrite elem_of_cons. destruct (kcmp k k') eqn:E.
  - apply kcmp_eq in E as ->. split; [intros [= ->]; by left|].
    intros [[= ->]|Hin]; [done|]. rewrite Forall_forall in Hf. specialize (Hf _ Hin).
    by apply klt_irrefl in Hf.
  - rewrite IH by done. split; [auto|]. intros [[= -> ->]|?]; [by rewrite kcmp_refl in E | done].
  - rewrite IH by done. split; [auto|]. intros [[= -> ->]|?]; [by rewrite kcmp_refl in E | done].
Qed.

Lemma om_insert_perm k v m : om_get k m = None → om_insert k v m ≡ₚ (k, v) :: m.
Proof.
  induction m as [|[k' v'] m IH]; simpl; [done|]. destruct (kcmp k k') eqn:E; [done|done|].
  intros Hg. rewrite IH by done. constructor.
Qed.
Lemma om_insert_Forall (P : K → Prop) k v m :
  P k → Forall (λ kv, P (fst kv)) m → Forall (λ kv, P (fst kv)) (om_insert k v m).
Proof.
  intros Hk. induction 1 as [|[k' v'] m Hk' ? IH]; simpl; [by constructor|].
  destruct (kcmp k k'); auto.
Qed.
Lemma om_insert_wf k v m : om_wf m → om_wf (om_insert k v m).
Proof.
  induction m as [|[k' v'] m IH]; simpl; intros Hw; [by repeat constructor|].
  pose proof Hw as [Hm Hf]%om_wf_cons. destruct (kcmp k k') eqn:E.
  - apply kcmp_eq in E as ->. by apply om_wf_cons.
  - apply om_wf_cons. split; [done|]. constructor; [done|].
    eapply Forall_impl; [exact Hf|]. intros [k2 v2]; simpl. by apply klt_trans.
  - apply om_wf_cons. split; [by apply IH|]. apply kcmp_gt in E.
    by apply om_insert_Forall.
Qed.
Lemma om_get_insert_eq k v m : om_get k (om_insert k v m) = Some v.
Proof.
  induction m as [|[k' v'] m IH]; simpl; [by rewrite kcmp_refl|].
  destruct (kcmp k k') eqn:E; simpl; rewrite ?kcmp_refl, ?E; done.
Qed.
Lemma om_get_insert_ne k k0 v m : k ≠ k0 → om_get k (om_insert k0 v m) = om_get k m.
Proof.
  intros Hne. assert (kcmp k k0 ≠ Eq) as Hc by (by rewrite kcmp_eq).
  induction m as [|[k' v'] m IH]; simpl; [by destruct (kcmp k k0)|].
  destruct (kcmp k0 k') eqn:E; simpl.
  - apply kcmp_eq in E as ->. by destruct (kcmp k k').
  - by destruct (kcmp k k0).
  - by rewrite IH.
Qed.
Lemma om_get_insert `{!EqDecision K} k k0 v m :
  om_get k (om_insert k0 v m) = if decide (k = k0) then Some v else om_get k m.
Proof. case_decide; subst; [apply om_get_insert_eq | by apply om_get_insert_ne]. Qed.
Lemma om_remove_wf k m : om_wf m → om_wf (om_remove k m).
Proof.
  induction m as [|[k' v'] m IH]; simpl; [done|]. intros [Hw Hf]%om_wf_cons.
  assert (Forall (λ kv, klt k' (fst kv)) (om_remove k m)).
  { rewrite Forall_forall in *. intros x Hx. apply Hf. unfold om_remove in Hx.
    rewrite list_elem_of_In in *. by apply filter_In in Hx as [? _]. }
  destruct (kcmp k k'); [by apply IH | |]; apply om_wf_cons; auto.
Qed.
Lemma om_get_remove_eq k m : om_get k (om_remove k m) = None.
Proof.
  induction m as [|[k' v'] m IH]; simpl; [done|].
  destruct (kcmp k k') eqn:E; simpl; rewrite ?E; done.
Qed.
Lemma om_get_remove_ne k k0 m : k ≠ k0 → om_get k (om_remove k0 m) = om_get k m.
Proof.
  intros Hne. induction m as [|[k' v'] m IH]; simpl; [done|].
  destruct (kcmp k0 k') eqn:E; simpl; rewrite IH; try done.
  apply kcmp_eq in E as ->. destruct (kcmp k k') eqn:E; [|done|done].
  by apply kcmp_eq in E.
Qed.

(** Two maps with the same lookups are the same list. *)
Lemma om_ext m1 m2 : om_wf m1 → om_wf m2 → (∀ k, om_get k m1 = om_get k m2) → m1 = m2.
Proof.
  revert m2. induction m1 as [|[k1 v1] m1 IH]; intros [|[k2 v2] m2] H1 H2 Hg; [done|..].
  - specialize (Hg k2). simpl in Hg. by rewrite kcmp_refl in Hg.
  - specialize (Hg k1). simpl in Hg. by rewrite kcmp_refl in Hg.
  - apply om_wf_cons in H1 as [H1 F1], H2 as [H2 F2].
    assert (k1 = k2) as ->.
    { pose proof (Hg k1) as G1. pose proof (Hg k2) as G2. simpl in G1, G2.
      rewrite kcmp_refl in G1, G2. destruct (kcmp k1 k2) eqn:E; [by apply kcmp_eq in E|..].
      - rewrite om_get_notin in G1; [done|]. eapply Forall_impl; [exact F2|].
        intros kv. by apply klt_trans.
      - rewrite (kcmp_antisym k1 k2), E in G2. simpl in G2. rewrite om_get_notin in G2; [done|].
        eapply Forall_impl; [exact F1|]. intros kv. apply klt_trans. by apply kcmp_gt. }
    pose proof (Hg k2) as G. simpl in G. rewrite kcmp_refl in G. injection G as ->.
    f_equal. apply IH; [done|done|]. intros k. specialize (Hg k). simpl in Hg.
    destruct (kcmp k k2) eqn:E; [|done|done]. apply kcmp_eq in E as ->.
    by rewrite !om_get_notin.
Qed.
Lemma om_insert_snoc k v m :
  Forall (λ kv, klt (fst kv) k) m → om_insert k v m = m ++ [(k, v)].
Proof.
  induction 1 as [|[k' v'] m Hk ? IH]; simpl; [done|]. simpl in Hk.
  apply kcmp_gt in Hk. by rewrite Hk, IH.
Qed.
Lemma om_get_app_l k m1 m2 v : om_get k m1 = Some v → om_get k (m1 ++ m2) = Some v.
Proof. induction m1 as [|[k' v'] m1 IH]; simpl; [done|]. destruct (kcmp k k'); auto. Qed.
Lemma om_get_app k m1 m2 :
  om_get k (m1 ++ m2) = match om_get k m1 with Some v => Some v | None => om_get k m2 end.
Proof. induction m1 as [|[k' v'] m1 IH]; simpl; [done|]. destruct (kcmp k k'); auto. Qed.
Lemma om_get_above k m : Forall (λ kv, klt (fst kv) k) m → om_get k m = None.
Proof.
  induction 1 as [|[k' v'] m Hk ? IH]; simpl; [done|]. simpl in Hk. apply kcmp_gt in Hk. by rewrite Hk.
Qed.
Lemma om_wf_app m1 m2 :
  om_wf (m1 ++ m2) ↔ om_wf m1 ∧ om_wf m2 ∧ ∀ x y, x ∈ m1 → y ∈ m2 → klt (fst x) (fst y).
Proof.
  unfold om_wf. induction m1 as [|x m1 IH]; simpl.
  - split; [intros ?; split_and!; [constructor | done | by intros ?? ?%elem_of_nil] | naive_solver].
  - split.
    + intros [(?&?&Hxy)%IH Hf]%StronglySorted_inv. rewrite Forall_app in Hf. destruct Hf as [Hf1 Hf2].
      split_and!; [by constructor | done |].
      intros a b [->|Ha]%elem_of_cons Hb; [by eapply Forall_forall in Hb; [|exact Hf2] | auto].
    + intros ([? Hf]%StronglySorted_inv & ? & Hxy). constructor.
      * apply IH. split_and!; [done|done|]. intros a b Ha Hb. apply Hxy; [by right|done].
      * apply Forall_app. split; [done|]. apply Forall_forall. intros b Hb. apply Hxy; [by left|done].
Qed.
Lemma om_wf_snoc m k v :
  om_wf (m ++ [(k, v)]) ↔ om_wf m ∧ Forall (λ kv, klt (fst kv) k) m.
Proof.
  rewrite om_wf_app, Forall_forall. split.
  - intros (?&_&Hx). split; [done|]. intros a Ha. apply (Hx a (k, v)); [done | by apply list_elem_of_singleton].
  - intros [? Hx]. split_and!; [done | repeat constructor |].
    intros a b Ha ->%list_elem_of_singleton. by apply Hx.
Qed.
(** Replacing the value of the greatest key. *)
Lemma om_insert_last m k v v' :
  Forall (λ kv, klt (fst kv) k) m → om_insert k v' (m ++ [(k, v)]) = m ++ [(k, v')].
Proof.
  induction 1 as [|[k' w] m Hk ? IH]; simpl; [by rewrite kcmp_refl|]. simpl in Hk.
  apply kcmp_gt in Hk. by rewrite Hk, IH.
Qed.
Lemma om_get_last m k v :
  Forall (λ kv, klt (fst kv) k) m → om_get k (m ++ [(k, v)]) = Some v.
Proof. intros Hf. rewrite om_get_app, om_get_above by done. simpl. by rewrite kcmp_refl. Qed.
End ordmap.
Arguments ordmap : clear implicits.
#[export] Hint Resolve om_wf_nil om_insert_wf om_remove_wf : cere.
