(* ===== verification/Search.v ===== *)
(** * Slice algorithms of the Rust standard library

    [slice::binary_search_by] and [slice::sort_by] as the sources use them:
    the binary search is the branch-light loop of the standard library (its
    result on several matches is the one that loop picks), the sort is stable,
    so it is determined by the comparison. *)

From S2P Require Import Prelude.
From Stdlib Require Import Sorted.

Section binary_search.
Context {A : Type} (f : A → comparison).

Definition cmp_at (l : list A) (i : nat) : comparison :=
  match l !! i with Some x => f x | None => Gt end.

(** [while size > 1 { half = size / 2; mid = base + half;
    base = if f(mid) == Greater { base } else { mid }; size -= half }]. *)
Fixpoint bs_loop (fuel : nat) (l : list A) (base size : nat) : nat :=
  match fuel with
  | O => base
  | S fuel =>
      if (size <=? 1)%nat then base
      else
        let half := (size / 2)%nat in
        let mid := (base + half)%nat in
        let base := match cmp_at l mid with Gt => base | _ => mid end in
        bs_loop fuel l base (size - half)
  end.

(** [inl i] is [Ok(i)], [inr i] is [Err(i)]. *)
Definition binary_search_by (l : list A) : nat + nat :=
  match l with
  | [] => inr O
  | _ =>
      let base := bs_loop (length l) l 0 (length l) in
      match cmp_at l base with
      | Eq => inl base
      | Lt => inr (S base)
      | Gt => inr base
      end
  end.

(** The comparison is non-decreasing along the slice: a run of [Less], a run
    of [Equal], a run of [Greater]. *)
Definition partitioned (l : list A) : Prop :=
  ∀ i j x y, (i <= j)%nat → l !! i = Some x → l !! j = Some y →
    (f y = Lt → f x = Lt) ∧ (f x = Gt → f y = Gt).

Lemma binary_search_by_found l i :
  binary_search_by l = inl i → ∃ x, l !! i = Some x ∧ f x = Eq.
Proof.
  unfold binary_search_by. destruct l as [|a l]; [done|].
  set (base := bs_loop _ _ _ _). unfold cmp_at.
  destruct ((a :: l) !! base) as [x|] eqn:E; [|done].
  intros H. destruct (f x) eqn:F; simplify_eq. eauto.
Qed.

(** The loop invariant: the window is inside the slice, everything to its
    right is [Greater] and its left end is not [Greater] once it has moved. *)
Lemma bs_loop_inv fuel l base size :
  partitioned l → (size <= fuel)%nat → (1 <= size)%nat → (base + size <= length l)%nat →
  (∀ i, (base + size <= i)%nat → cmp_at l i = Gt) →
  (base = O ∨ cmp_at l base ≠ Gt) →
  let b := bs_loop fuel l base size in
  (b < length l)%nat ∧ (∀ i, (b < i)%nat → cmp_at l i = Gt) ∧ (b = O ∨ cmp_at l b ≠ Gt).
Proof.
  intros Hp. revert base size.
  induction fuel as [|fuel IH]; intros base size Hf H1 Hb Hgt Hbase; cbn [bs_loop]; [lia|].
  destruct (Nat.leb_spec size 1).
  { split_and!; [lia | intros; apply Hgt; lia | done]. }
  pose proof (Nat.div_lt size 2 ltac:(lia) ltac:(lia)).
  assert (1 <= size / 2)%nat by (apply Nat.div_le_lower_bound; lia).
  pose proof (Nat.Div0.mul_div_le size 2).
  generalize dependent (size / 2)%nat. intros half Hh1 Hh2 Hh3.
  destruct (cmp_at l (base + half)) eqn:E.
  3: { apply IH; try lia; [|exact Hbase]. intros i Hi. destruct (decide (base + size <= i)%nat).
       { by apply Hgt. }
       unfold cmp_at in *. destruct (l !! (base + half)%nat) as [x|] eqn:Ex;
         [|apply lookup_ge_None in Ex; lia].
       destruct (l !! i) as [y|] eqn:Ey; [|done].
       eapply (Hp (base + half)%nat i x y); [lia | done..]. }
  all: apply IH; try lia; [intros i Hi; apply Hgt; lia | right; by rewrite E].
Qed.

Lemma binary_search_by_missing l i :
  partitioned l → binary_search_by l = inr i →
  (i <= length l)%nat ∧
  (∀ j x, (j < i)%nat → l !! j = Some x → f x = Lt) ∧
  (∀ j x, (i <= j)%nat → l !! j = Some x → f x = Gt).
Proof.
  intros Hp. unfold binary_search_by. destruct l as [|a l].
  { intros [= <-]. split_and!; [done | lia | by intros []]. }
  destruct (bs_loop_inv (length (a :: l)) (a :: l) 0 (length (a :: l)) Hp)
    as (Hb & Hgt & Hb0); [lia | simpl; lia | lia | | by left |].
  { intros j Hj. unfold cmp_at. by rewrite lookup_ge_None_2 by lia. }
  set (b := bs_loop _ _ _ _) in *. clearbody b.
  assert (∀ j x, (b < j)%nat → (a :: l) !! j = Some x → f x = Gt) as Hgt'.
  { intros j x Hj Hx. specialize (Hgt j Hj). unfold cmp_at in Hgt. by rewrite Hx in Hgt. }
  destruct (lookup_lt_is_Some_2 _ _ Hb) as [xb Hxb].
  assert (cmp_at (a :: l) b = f xb) as Hcb by (unfold cmp_at; by rewrite Hxb).
  rewrite Hcb in *. intros Hr.
  destruct (f xb) eqn:E; try done;
    injection Hr as <-; (split_and!; [lia| |]).
  - intros j x Hj Hx. by eapply (Hp j b x xb); [lia | done..].
  - intros j x Hj Hx. apply (Hgt' j); [lia|done].
  - destruct Hb0 as [->|?]; [lia|done].
  - intros j x Hj Hx. by eapply (Hp b j xb x); [lia | done..].
Qed.

(** On a partitioned slice an [Equal] element is always found. *)
Lemma binary_search_by_complete l j x :
  partitioned l → l !! j = Some x → f x = Eq → ∃ i, binary_search_by l = inl i.
Proof.
  intros Hp Hx Hf. destruct (binary_search_by l) as [i|i] eqn:E; [eauto|].
  apply binary_search_by_missing in E as (Hi & Hlt & Hgt); [|done].
  destruct (decide (j < i)%nat); [specialize (Hlt j x ltac:(lia) Hx) | specialize (Hgt j x ltac:(lia) Hx)];
    congruence.
Qed.
End binary_search.

(** ** Stable sort *)

Section stable_sort.
Context {A : Type} (cmp : A → A → comparison).

Fixpoint insert_by (x : A) (l : list A) : list A :=
  match l with
  | [] => [x]
  | y :: l => match cmp x y with Gt => y :: insert_by x l | _ => x :: y :: l end
  end.
Definition sort_by (l : list A) : list A := foldr insert_by [] l.

Lemma insert_by_perm x l : insert_by x l ≡ₚ x :: l.
Proof.
  induction l as [|y l IH]; simpl; [done|]. destruct (cmp x y); try done.
  rewrite IH. constructor.
Qed.
Lemma sort_by_perm l : sort_by l ≡ₚ l.
Proof. induction l as [|x l IH]; simpl; [done|]. by rewrite insert_by_perm, IH. Qed.

(** A list already in order is left as it is. *)
Lemma sort_by_id l :
  StronglySorted (λ x y, cmp x y ≠ Gt) l → sort_by l = l.
Proof.
  induction 1 as [|x l Hs IH Hx]; simpl; [done|]. rewrite IH.
  destruct l as [|y l]; [done|]. simpl. apply Forall_cons_1 in Hx as [Hxy _].
  by destruct (cmp x y).
Qed.
End stable_sort.

(** The result is sorted when the comparison is a total preorder. *)
Section sort_sorted.
Context {A : Type} (cmp : A → A → comparison).
Hypothesis cmp_antisym : ∀ x y, cmp y x = CompOpp (cmp x y).
Hypothesis cmp_trans : ∀ x y z, cmp x y ≠ Gt → cmp y z ≠ Gt → cmp x z ≠ Gt.

Lemma insert_by_sorted x l :
  StronglySorted (λ x y, cmp x y ≠ Gt) l →
  StronglySorted (λ x y, cmp x y ≠ Gt) (insert_by cmp x l).
Proof.
  induction 1 as [|y l Hs IH Hy]; simpl; [by repeat constructor|].
  destruct (cmp x y) eqn:E.
  1, 2: assert (cmp x y ≠ Gt) as Hxy by (by rewrite E);
    constructor; [by constructor|]; constructor; [done|];
    (eapply Forall_impl; [exact Hy|]); intros z Hz; eapply cmp_trans; [exact Hxy | exact Hz].
  constructor; [done|]. rewrite Forall_forall in *. intros z Hz.
  rewrite insert_by_perm in Hz. apply elem_of_cons in Hz as [->|Hz]; [|auto].
  rewrite (cmp_antisym x y), E. done.
Qed.
Lemma sort_by_sorted l : StronglySorted (λ x y, cmp x y ≠ Gt) (sort_by cmp l).
Proof. induction l as [|x l IH]; simpl; [constructor | by apply insert_by_sorted]. Qed.
End sort_sorted.

(** Strong sortedness relates the elements at increasing positions. *)
Lemma StronglySorted_lookup {A} (R : A → A → Prop) l i j x y :
  StronglySorted R l → (i < j)%nat → l !! i = Some x → l !! j = Some y → R x y.
Proof.
  intros Hs. revert i j. induction Hs as [|a l Hs IH Ha]; intros i j Hij Hi Hj; [done|].
  destruct j as [|j]; [lia|]. destruct i as [|i]; simpl in *.
  - injection Hi as ->. rewrite Forall_forall in Ha. apply Ha. by eapply list_elem_of_lookup_2.
  - apply (IH i j); [lia|done|done].
Qed.
