(* ===== verification/Record.v ===== *)
(** * Key-value records: [src/src/storage/record.rs]

    The two record formats of the storage layer: [Record], the timestamped
    big-endian record of the legacy block format, and [MemtableRecord], the
    little-endian record the memtable, the SSTable blocks and compaction use;
    the legacy WAL record reader [decode_record]; and the orders both record
    types are sorted by. *)

From S2P Require Import Prelude Bytes.

(** ** Data *)

Inductive RecordType : Type := Put | Delete.
#[export] Instance RecordType_eq_dec : EqDecision RecordType.
Proof. solve_decision. Defined.

(** [self.record_type as u8]. *)
Definition record_type_u8 (t : RecordType) : byte :=
  match t with Put => x01 | Delete => x02 end.

Module Record.
Record t : Type := mk {
  key : bytes;
  value : bytes;
  record_type : RecordType;
  timestamp : Z;
  offset : Z
}.

Definition new (k v : bytes) (ty : RecordType) (ts : Z) : t := mk k v ty ts 0.
Definition tombstone (k : bytes) (ts : Z) : t := mk k [] Delete ts 0.

Section codec.
Context `{Crc32}.

Definition encode (r : t) : bytes :=
  [record_type_u8 (record_type r)]
  ++ to_be 8 (timestamp r)
  ++ to_be 8 (len (key r))
  ++ to_be 8 (len (value r))
  ++ key r ++ value r
  ++ to_be 4 (crc32 (value r)).

Definition decode_type (b : byte) : res RecordType :=
  match b with
  | x01 => Ok Put
  | x02 => Ok Delete
  | _ => Err (Corrupted "Invalid record type")
  end.

(** The checksum is verified before the type byte is interpreted. *)
Definition decode : reader t :=
  type_byte ← read_u8;
  timestamp ← read_u64_be;
  key_len ← read_u64_be;
  value_len ← read_u64_be;
  key_buf ← read_vec key_len;
  value_buf ← read_vec value_len;
  checksum ← read_u32_be;
  _ ← require (crc32 value_buf =? checksum) (Corrupted "Checksum mismatch");
  record_type ← lift (decode_type type_byte);
  mret (mk key_buf value_buf record_type timestamp
          (wrap64 (1 + 8 + 8 + 8 + key_len + value_len + 4))).
End codec.

(** [PartialEq]: the offset is not compared. *)
Definition eqb (x y : t) : bool :=
  bool_decide (key x = key y) && bool_decide (value x = value y)
  && bool_decide (record_type x = record_type y) && (timestamp x =? timestamp y).

(** [Ord]: by key, then newest timestamp first. *)
Definition cmp (x y : t) : comparison :=
  match bytes_cmp (key x) (key y) with
  | Eq => Z.compare (timestamp y) (timestamp x)
  | c => c
  end.
End Record.

(** ** Legacy WAL records *)

Record DecodeRecordResult : Type := mkDecodeRecordResult {
  drr_key : bytes;
  drr_val : bytes;
  drr_record_type : RecordType;
  drr_lsn : Z;
  drr_offset : Z
}.

Section decode_record.
Context `{Crc32}.

(** The part of [decode_record] after the seek, on the bytes from [offset] on. *)
Definition decode_record_body (offset : Z) : reader DecodeRecordResult :=
  type_byte ← read_u8;
  record_type ← lift (Record.decode_type type_byte);
  lsn ← read_u64_be;
  _ ← read_u64_be;
  key_len ← read_u64_be;
  value_len ← read_u64_be;
  key ← read_vec key_len;
  value ← read_vec value_len;
  checksum ← read_u32_be;
  _ ← require (crc32 value =? checksum) (Corrupted "Checksum mismatch");
  mret (mkDecodeRecordResult key value record_type lsn
          (wrap64 (offset + 1 + 8 + 8 + 8 + key_len + value_len + 4))).

(** [reader.seek(SeekFrom::Start(offset))] on an in-memory file, then the body. *)
Definition decode_record (file : bytes) (offset : Z) : res (DecodeRecordResult * bytes) :=
  decode_record_body offset (drop (Z.to_nat offset) file).
End decode_record.

(** ** Memtable records *)

Module MemtableRecord.
Record t : Type := mk {
  record_type : RecordType;
  lsn : Z;
  key : bytes;
  value : bytes
}.

Definition new (value : bytes) (ty : RecordType) (lsn : Z) : t := mk ty lsn [] value.
Definition with_key (r : t) (k : bytes) : t := mk (record_type r) (lsn r) k (value r).

Definition encode (r : t) (k : bytes) : bytes :=
  to_le 4 (wrap32 (len k)) ++ k
  ++ to_le 4 (wrap32 (len (value r))) ++ value r
  ++ [record_type_u8 (record_type r)]
  ++ to_le 8 (lsn r).

Definition record_length (r : t) (k : bytes) : Z := 4 + len k + 4 + len (value r) + 1 + 8.

Definition decode : reader t :=
  key_len ← read_u32_le;
  key_buf ← read_vec key_len;
  value_len ← read_u32_le;
  value_buf ← read_vec value_len;
  type_byte ← read_u8;
  record_type ← lift (Record.decode_type type_byte);
  lsn ← read_u64_le;
  mret (mk record_type lsn key_buf value_buf).

(** The [AsyncRead] twin of [decode] (it only adds a log line). *)
Definition async_decode : reader t :=
  key_len ← read_u32_le;
  key_buf ← read_vec key_len;
  value_len ← read_u32_le;
  value_buf ← read_vec value_len;
  type_byte ← read_u8;
  record_type ← lift (Record.decode_type type_byte);
  lsn ← read_u64_le;
  mret (mk record_type lsn key_buf value_buf).

(** [Ord]: by key, then newest [lsn] first. *)
Definition cmp (x y : t) : comparison :=
  match bytes_cmp (key x) (key y) with
  | Eq => Z.compare (lsn y) (lsn x)
  | c => c
  end.

#[export] Instance eq_dec : EqDecision t.
Proof. solve_decision. Defined.

(** What a record must satisfy to be encoded without loss: the lengths fit
    the [u32] length fields and the sequence number is a [u64]. *)
Definition encodable (r : t) : Prop :=
  is_u64 (lsn r) ∧ len (key r) <= u32_max ∧ len (value r) <= u32_max.
End MemtableRecord.

#[global] Arguments Record.encode : simpl never.
#[global] Arguments MemtableRecord.encode : simpl never.
#[global] Arguments MemtableRecord.record_length : simpl never.

(** ** Round trips *)

Lemma decode_type_run t : Record.decode_type (record_type_u8 t) = Ok t.
Proof. by destruct t. Qed.
Lemma decode_type_inv b t : Record.decode_type b = Ok t → b = record_type_u8 t.
Proof. destruct b, t; done. Qed.
Lemma lift_type_run t r : lift (Record.decode_type (record_type_u8 t)) r = Ok (t, r).
Proof. by destruct t. Qed.

Ltac reader_hook ::=
  first [ apply lift_type_run
        | apply require_run; first [ done | by apply Z.eqb_eq | by apply bool_decide_eq_true ] ].

Section record_roundtrip.
Context `{Crc32Spec}.

(** The number of bytes [Record::encode] writes. *)
Definition record_size (r : Record.t) : Z := 29 + len (Record.key r) + len (Record.value r).

(** What [Record] values fit the format: a [u64] timestamp and vectors that fit in memory. *)
Definition record_encodable (r : Record.t) : Prop :=
  is_u64 (Record.timestamp r) ∧ len (Record.key r) + len (Record.value r) + 29 <= isize_max.

Lemma record_encode_len r : len (Record.encode r) = record_size r.
Proof. unfold Record.encode, record_size. autorewrite with len. lia. Qed.

Lemma record_decode_encode r rest :
  record_encodable r →
  Record.decode (Record.encode r ++ rest) =
  Ok (Record.mk (Record.key r) (Record.value r) (Record.record_type r) (Record.timestamp r)
        (record_size r), rest).
Proof.
  intros [Hts Hlen]. unfold Record.decode, Record.encode, record_size.
  pose proof (len_nonneg (Record.key r)). pose proof (len_nonneg (Record.value r)).
  run_reader. do 3 f_equal. rewrite wrap64_id; word_lia.
Qed.

Lemma record_decode_inv bs r rest :
  Record.decode bs = Ok (r, rest) →
  bs = Record.encode r ++ rest ∧ is_u64 (Record.timestamp r) ∧
  (record_size r <= u64_max → Record.offset r = record_size r).
Proof.
  unfold Record.decode. intros Hd. inv_reader.
  match goal with H : Record.decode_type _ = Ok _ |- _ => apply decode_type_inv in H; subst end.
  match goal with H : (_ =? _) = true |- _ => apply Z.eqb_eq in H; subst end.
  unfold Record.encode, record_size; simpl. norm_app. split_and!; [done|done|].
  intros. rewrite wrap64_id; [lia|]. unfold len in *. word_lia.
Qed.
End record_roundtrip.

Lemma memtable_encode_len r k : len (MemtableRecord.encode r k) = MemtableRecord.record_length r k.
Proof.
  unfold MemtableRecord.encode, MemtableRecord.record_length. autorewrite with len. lia.
Qed.

Lemma memtable_async_decode bs : MemtableRecord.async_decode bs = MemtableRecord.decode bs.
Proof. reflexivity. Qed.

Lemma memtable_decode_encode r rest :
  MemtableRecord.encodable r →
  MemtableRecord.decode (MemtableRecord.encode r (MemtableRecord.key r) ++ rest) = Ok (r, rest).
Proof.
  destruct r as [t lsn k v]. intros (Hl & Hk & Hv). simpl in *.
  unfold MemtableRecord.decode, MemtableRecord.encode; simpl.
  pose proof (len_nonneg k). pose proof (len_nonneg v).
  rewrite !wrap32_id by word_lia. run_reader. done.
Qed.

Lemma memtable_decode_inv bs r rest :
  MemtableRecord.decode bs = Ok (r, rest) →
  bs = MemtableRecord.encode r (MemtableRecord.key r) ++ rest ∧ MemtableRecord.encodable r.
Proof.
  unfold MemtableRecord.decode. intros Hd. inv_reader.
  match goal with H : Record.decode_type _ = Ok _ |- _ => apply decode_type_inv in H; subst end.
  unfold MemtableRecord.encode, MemtableRecord.encodable; simpl. rewrite !wrap32_id by done.
  norm_app. split_and!; try done; word_lia.
Qed.

Lemma decode_type_np b : Record.decode_type b ≠ Panic.
Proof. by destruct b. Qed.
#[export] Hint Resolve decode_type_np : cere.

Lemma memtable_decode_no_panic bs : MemtableRecord.decode bs ≠ Panic.
Proof. unfold MemtableRecord.decode. no_panic. Qed.

(** ** Orders *)

Lemma key_desc_antisym kx ky (nx ny : Z) :
  match bytes_cmp ky kx with Eq => Z.compare nx ny | c => c end =
  CompOpp (match bytes_cmp kx ky with Eq => Z.compare ny nx | c => c end).
Proof.
  rewrite (bytes_cmp_antisym kx ky).
  destruct (bytes_cmp kx ky); simpl; [apply Z.compare_antisym | done | done].
Qed.
Lemma key_desc_trans kx ky kz (nx ny nz : Z) :
  match bytes_cmp kx ky with Eq => Z.compare ny nx | c => c end = Lt →
  match bytes_cmp ky kz with Eq => Z.compare nz ny | c => c end = Lt →
  match bytes_cmp kx kz with Eq => Z.compare nz nx | c => c end = Lt.
Proof.
  destruct (bytes_cmp kx ky) eqn:E1; [| |done]; destruct (bytes_cmp ky kz) eqn:E2; try done.
  - apply bytes_cmp_eq in E1 as ->. rewrite E2. rewrite !Z.compare_lt_iff. lia.
  - apply bytes_cmp_eq in E1 as ->. by rewrite E2.
  - apply bytes_cmp_eq in E2 as ->. by rewrite E1.
  - by rewrite (bytes_cmp_trans _ _ _ E1 E2).
Qed.

(** ** Properties *)

(** The memtable record codec is exact in both directions: [decode]
    succeeds on a stream with record [r] and remainder [rest] precisely when
    [r] fits the format and the stream is the encoding of [r] (under its own
    key) followed by [rest]. *)
Theorem memtable_record_codec_exact bs r rest :
  MemtableRecord.decode bs = Ok (r, rest) ↔
  MemtableRecord.encodable r ∧
  bs = MemtableRecord.encode r (MemtableRecord.key r) ++ rest.
Proof.
  split.
  - intros [-> ?]%memtable_decode_inv. done.
  - intros [? ->]. by apply memtable_decode_encode.
Qed.

(** The order memtable records are merged by is a strict total order on
    (key, sequence) pairs: antisymmetric, transitive, and equal only when key
    and sequence number agree; among records of one key the newest is least. *)
Theorem memtable_record_order (x y z : MemtableRecord.t) :
  MemtableRecord.cmp y x = CompOpp (MemtableRecord.cmp x y) ∧
  (MemtableRecord.cmp x y = Eq ↔
     MemtableRecord.key x = MemtableRecord.key y ∧
     MemtableRecord.lsn x = MemtableRecord.lsn y) ∧
  (MemtableRecord.cmp x y = Lt → MemtableRecord.cmp y z = Lt →
     MemtableRecord.cmp x z = Lt) ∧
  (MemtableRecord.key x = MemtableRecord.key y →
     (MemtableRecord.cmp x y = Lt ↔ MemtableRecord.lsn y < MemtableRecord.lsn x)).
Proof.
  unfold MemtableRecord.cmp. split_and!.
  - apply key_desc_antisym.
  - destruct (bytes_cmp _ _) eqn:E.
    + apply bytes_cmp_eq in E. rewrite Z.compare_eq_iff. naive_solver.
    + split; [done|]. intros [Hk _]. rewrite Hk, bytes_cmp_refl in E. done.
    + split; [done|]. intros [Hk _]. rewrite Hk, bytes_cmp_refl in E. done.
  - apply key_desc_trans.
  - intros ->. rewrite bytes_cmp_refl. apply Z.compare_lt_iff.
Qed.

Section decode_record_offset.
Context `{Crc32}.

(** The offset the legacy WAL reader returns for the next record is 8
    bytes short of the bytes it consumed: the timestamp it skips is not
    counted, so following the returned offset lands inside the record. *)
Theorem decode_record_offset_short file offset d rest :
  0 <= offset <= len file → len file <= isize_max →
  decode_record file offset = Ok (d, rest) →
  drr_offset d + 8 = len file - len rest.
Proof.
  intros Ho Hf. unfold decode_record, decode_record_body. intros Hd.
  assert (len (drop (Z.to_nat offset) file) = len file - offset) as Hl.
  { unfold len. rewrite length_drop. unfold len in Ho. lia. }
  inv_reader.
  match goal with H : drop _ _ = _ |- _ => rewrite H in Hl end.
  autorewrite with len in Hl. simpl. rewrite wrap64_id; [lia|].
  unfold len in *. word_lia.
Qed.
End decode_record_offset.

(** The encoding of ("k", "v") with lsn 7 and timestamp 0: 39 bytes, of which
    the returned offset counts 31. *)
Lemma decode_record_offset_short_witness :
  let file := [x01] ++ to_be 8 7 ++ to_be 8 0 ++ to_be 8 1 ++ to_be 8 1
              ++ [x6b] ++ [x76] ++ to_be 4 (crc32_ieee [x76]) in
  drr_offset (mkDecodeRecordResult [x6b] [x76] Put 7 31) + 8 = len file - 0.
Proof.
  intros file.
  apply (@decode_record_offset_short ieee file 0
           (mkDecodeRecordResult [x6b] [x76] Put 7 31) []).
  - vm_compute. split; discriminate.
  - vm_compute. discriminate.
  - vm_compute. reflexivity.
Defined.
