(* ===== verification/Block.v ===== *)
(** * Data blocks: [src/src/storage/writemanager/block.rs] and [checksum.rs]

    [Block] with its codec, [BlockBuilder] with its size limit, and the
    packing loop the memtable flush and compaction share.  The theorems say
    that packing loses and reorders nothing, that every block's key range and
    counters are the ones of its records, that the 4 KiB limit holds for every
    block with more than one record, and that a block decodes to itself. *)

From S2P Require Import Prelude Bytes OrdMap Record.
From Stdlib Require Import Sorted.

Definition SSTABLE_BLOCK_SIZE : Z := 4096.

(** ** [checksum.rs] *)

Section checksum.
Context `{Crc32}.
Definition calculate_crc32 (data : bytes) : Z := crc32 data.
Definition verify_crc32 (data : bytes) (expected : Z) : res unit :=
  if calculate_crc32 data =? expected then Ok tt else Err (Corrupted "CRC32 mismatch").
End checksum.

(** ** Blocks *)

Module Block.
Record t : Type := mk {
  offset : Z;
  first_key : bytes;
  last_key : bytes;
  record_count : Z;
  data_size : Z;
  data : option (list MemtableRecord.t)
}.

(** The encoding of a block's records, one after the other. *)
Definition encode_records (rs : list MemtableRecord.t) : bytes :=
  concat ((λ r, MemtableRecord.encode r (MemtableRecord.key r)) <$> rs).

Section codec.
Context `{Crc32}.

Definition header (b : t) : bytes :=
  to_be 4 (wrap32 (len (first_key b))) ++ first_key b
  ++ to_be 4 (wrap32 (len (last_key b))) ++ last_key b
  ++ to_be 4 (record_count b)
  ++ to_be 4 (data_size b).

Definition encode (b : t) : bytes :=
  let buf := header b ++ match data b with Some rs => encode_records rs | None => [] end in
  buf ++ to_be 4 (calculate_crc32 buf).

(** The shared body of [decode] and [async_decode]: everything after the seek. *)
Definition decode_at (offset : Z) : reader t :=
  first_key_len ← read_u32_be;
  first_key ← read_vec first_key_len;
  last_key_len ← read_u32_be;
  last_key ← read_vec last_key_len;
  record_count ← read_u32_be;
  data_size ← read_u32_be;
  record_bytes ← read_vec data_size;
  stored_checksum ← read_u32_be;
  let block_data :=
    to_be 4 (wrap32 first_key_len) ++ first_key
    ++ to_be 4 (wrap32 last_key_len) ++ last_key
    ++ to_be 4 record_count ++ to_be 4 data_size ++ record_bytes in
  _ ← lift (verify_crc32 block_data stored_checksum);
  records ← lift (read_many MemtableRecord.decode (Z.to_nat record_count) record_bytes);
  mret (mk offset first_key last_key record_count data_size (Some (fst records))).

(** [decode(data, offset)] on a file: seek, then read. *)
Definition decode (file : bytes) (offset : Z) : res t :=
  fst <$> decode_at offset (drop (Z.to_nat offset) file).
(** [async_decode]: no seek, and the offset is left 0. *)
Definition async_decode : reader t := decode_at 0.
End codec.
End Block.

#[global] Arguments Block.encode : simpl never.

(** ** The builder *)

Inductive BlockBuilderState : Type :=
| EnoughSpace
| Full (block : Block.t) (block_data : bytes).

Module BlockBuilder.
Record t : Type := mk {
  data : list MemtableRecord.t;
  data_size : Z;
  first_key : option bytes;
  last_key : option bytes;
  record_count : Z;
  block_offset : Z
}.

Definition new (block_offset : Z) : t := mk [] 0 None None 0 block_offset.

Definition is_empty (bb : t) : bool := match data bb with [] => true | _ => false end.
Definition size (bb : t) : Z := len (data bb).

Section ops.
Context `{Crc32}.

Definition add_record (bb : t) (key : bytes) (record : MemtableRecord.t)
    : res (BlockBuilderState * t) :=
  if negb (is_empty bb)
     && (SSTABLE_BLOCK_SIZE <? wrap64 (data_size bb + MemtableRecord.record_length record key))
  then
    let block := Block.mk (block_offset bb)
                   (default [] (first_key bb)) (default [] (last_key bb))
                   (record_count bb) (wrap32 (data_size bb)) (Some (data bb)) in
    let block_data := Block.encode block in
    match checked_add (block_offset bb) (len block_data) with
    | None => Panic
    | Some off => Ok (Full block block_data, mk [] 0 None None 0 off)
    end
  else
    let first := match first_key bb with None => key | Some k => k end in
    let first := if bytes_ltb key first then key else first in
    let last :=
      if bytes_ltb (default [] (last_key bb)) key then Some key else last_key bb in
    Ok (EnoughSpace,
        mk (data bb ++ [MemtableRecord.mk (MemtableRecord.record_type record)
                          (MemtableRecord.lsn record) key (MemtableRecord.value record)])
           (wrap64 (data_size bb + MemtableRecord.record_length record key))
           (Some first) last
           (wrap32 (record_count bb + 1))
           (block_offset bb)).
End ops.

(** [build]: the two [unwrap]s panic on an absent key. *)
Definition build (bb : t) : res (option (Block.t * bytes)) :=
  if is_empty bb then Ok None
  else
    match first_key bb, last_key bb with
    | Some f, Some l =>
        Ok (Some (Block.mk (block_offset bb) f l (record_count bb)
                    (wrap32 (data_size bb)) (Some (data bb)), []))
    | _, _ => Panic
    end.
End BlockBuilder.

#[global] Arguments BlockBuilder.new : simpl never.
#[global] Arguments BlockBuilder.add_record : simpl never.

(** ** The packing loop

    The loop body of [flush_inner] and [flush_winner]: when the block is full
    it is pushed and the record is added again to the emptied builder, the
    state of the second call being ignored; after the loop the last block is
    built and pushed. *)

Section pack.
Context `{Crc32}.

Definition push_record (bb : BlockBuilder.t) (blocks : list Block.t)
    (key : bytes) (record : MemtableRecord.t) : res (BlockBuilder.t * list Block.t) :=
  '(st, bb) ← BlockBuilder.add_record bb key record;
  match st with
  | EnoughSpace => mret (bb, blocks)
  | Full block _ =>
      '(_, bb) ← BlockBuilder.add_record bb key record;
      mret (bb, blocks ++ [block])
  end.

Definition finish (bb : BlockBuilder.t) (blocks : list Block.t) : res (list Block.t) :=
  last ← BlockBuilder.build bb;
  match last with
  | Some (block, _) => mret (blocks ++ [block])
  | None => mret blocks
  end.

Fixpoint push_all (bb : BlockBuilder.t) (blocks : list Block.t)
    (rs : list (bytes * MemtableRecord.t)) : res (BlockBuilder.t * list Block.t) :=
  match rs with
  | [] => mret (bb, blocks)
  | (k, r) :: rs => '(bb, blocks) ← push_record bb blocks k r; push_all bb blocks rs
  end.

Definition pack (rs : list (bytes * MemtableRecord.t)) : res (list Block.t) :=
  '(bb, blocks) ← push_all (BlockBuilder.new 0) [] rs;
  finish bb blocks.
End pack.

(** ** Invariants *)

(** A record whose encoding is lossless and whose size fits the [u32] [data_size]. *)
Definition rec_ok (r : MemtableRecord.t) : Prop :=
  MemtableRecord.encodable r ∧
  MemtableRecord.record_length r (MemtableRecord.key r) <= u32_max.
Definition rec_size (r : MemtableRecord.t) : Z :=
  MemtableRecord.record_length r (MemtableRecord.key r).
Definition records_size (rs : list MemtableRecord.t) : Z :=
  foldr (λ r n, rec_size r + n) 0 rs.
Definition keys_sorted (rs : list MemtableRecord.t) : Prop :=
  StronglySorted (λ x y, klt (MemtableRecord.key x) (MemtableRecord.key y)) rs.
Definition first_of (rs : list MemtableRecord.t) : bytes :=
  default [] (MemtableRecord.key <$> head rs).
Definition last_of (rs : list MemtableRecord.t) : bytes :=
  default [] (MemtableRecord.key <$> last rs).
Definition block_records (b : Block.t) : list MemtableRecord.t := default [] (Block.data b).
Definition blocks_records (bs : list Block.t) : list MemtableRecord.t := bs ≫= block_records.

(** A block agrees with its records, and obeys the size limit. *)
Record block_wf (b : Block.t) : Prop := {
  bwf_data : Block.data b = Some (block_records b);
  bwf_nonempty : block_records b ≠ [];
  bwf_ok : Forall rec_ok (block_records b);
  bwf_sorted : keys_sorted (block_records b);
  bwf_count : Block.record_count b = len (block_records b);
  bwf_size : Block.data_size b = records_size (block_records b);
  bwf_limit : len (block_records b) = 1 ∨ Block.data_size b <= SSTABLE_BLOCK_SIZE;
  bwf_first : Block.first_key b = first_of (block_records b);
  bwf_last : Block.last_key b = last_of (block_records b)
}.

(** What holds of the builder between two calls.  [last_key] stays [None]
    while the only key is the empty one. *)
Record builder_inv (bb : BlockBuilder.t) : Prop := {
  bi_ok : Forall rec_ok (BlockBuilder.data bb);
  bi_sorted : keys_sorted (BlockBuilder.data bb);
  bi_count : BlockBuilder.record_count bb = len (BlockBuilder.data bb);
  bi_size : BlockBuilder.data_size bb = records_size (BlockBuilder.data bb);
  bi_limit : len (BlockBuilder.data bb) <= 1 ∨
             BlockBuilder.data_size bb <= SSTABLE_BLOCK_SIZE;
  bi_first : BlockBuilder.first_key bb = MemtableRecord.key <$> head (BlockBuilder.data bb);
  bi_last : BlockBuilder.last_key bb =
    match last (BlockBuilder.data bb) with
    | Some r => match MemtableRecord.key r with [] => None | k => Some k end
    | None => None
    end;
  bi_offset : 0 <= BlockBuilder.block_offset bb
}.

(** Blocks laid out one after the other from [off] to [off'] in a file. *)
Fixpoint laid_out `{Crc32} (off : Z) (bs : list Block.t) (off' : Z) : Prop :=
  match bs with
  | [] => off = off'
  | b :: bs => Block.offset b = off ∧ laid_out (off + len (Block.encode b)) bs off'
  end.

(** A bound on the bytes of the blocks that hold [rs], one block per record at worst. *)
Definition packed_bound (rs : list MemtableRecord.t) : Z :=
  foldr (λ r n, 20 + 3 * rec_size r + n) 0 rs.

(** ** Sizes *)

Lemma rec_size_pos r : 17 <= rec_size r.
Proof.
  unfold rec_size, MemtableRecord.record_length.
  pose proof (len_nonneg (MemtableRecord.key r)).
  pose proof (len_nonneg (MemtableRecord.value r)). lia.
Qed.
Lemma rec_key_size r : len (MemtableRecord.key r) <= rec_size r.
Proof.
  unfold rec_size, MemtableRecord.record_length.
  pose proof (len_nonneg (MemtableRecord.value r)). lia.
Qed.
Lemma records_size_app x y : records_size (x ++ y) = records_size x + records_size y.
Proof. induction x; simpl; lia. Qed.
Lemma packed_bound_app x y : packed_bound (x ++ y) = packed_bound x + packed_bound y.
Proof. induction x; simpl; lia. Qed.
Lemma records_size_len rs : 17 * len rs <= records_size rs.
Proof.
  induction rs as [|r rs IH]; simpl; [by vm_compute|].
  rewrite len_cons. pose proof (rec_size_pos r). lia.
Qed.
Lemma packed_bound_size rs : 3 * records_size rs + 20 * len rs = packed_bound rs.
Proof. induction rs as [|r rs IH]; [done|]. rewrite len_cons. simpl. lia. Qed.
Lemma encode_records_len rs : len (Block.encode_records rs) = records_size rs.
Proof.
  unfold Block.encode_records. induction rs as [|r rs IH]; [done|].
  rewrite fmap_cons. cbn [concat]. rewrite len_app, IH, memtable_encode_len. done.
Qed.
Lemma elem_rec_size r rs : r ∈ rs → rec_size r <= records_size rs.
Proof.
  induction rs as [|x rs IH]; [by rewrite elem_of_nil|]. rewrite elem_of_cons. simpl.
  pose proof (records_size_len rs). pose proof (len_nonneg rs). pose proof (rec_size_pos x).
  intros [->|Hr]; [lia | apply IH in Hr; lia].
Qed.
Lemma first_of_size rs : len (first_of rs) <= records_size rs.
Proof.
  unfold first_of. destruct rs as [|r rs]; [by vm_compute|]. simpl.
  pose proof (rec_key_size r). pose proof (records_size_len rs). pose proof (len_nonneg rs). lia.
Qed.
Lemma last_of_size rs : len (last_of rs) <= records_size rs.
Proof.
  unfold last_of. destruct (last rs) as [r|] eqn:E; simpl.
  - apply last_Some_elem_of in E. apply elem_rec_size in E. pose proof (rec_key_size r). lia.
  - pose proof (records_size_len rs). pose proof (len_nonneg rs). vm_compute (len []). lia.
Qed.

Section block_theory.
Context `{Crc32}.

Lemma block_encode_len b :
  Block.data b = Some (block_records b) →
  len (Block.encode b) =
    20 + len (Block.first_key b) + len (Block.last_key b) + records_size (block_records b).
Proof.
  intros Hd. unfold Block.encode, Block.header. rewrite Hd.
  autorewrite with len. rewrite encode_records_len. lia.
Qed.
Lemma block_encode_bound b : block_wf b → len (Block.encode b) <= packed_bound (block_records b).
Proof.
  intros [Hd Hne _ _ _ _ _ Hf Hl]. rewrite block_encode_len by done.
  rewrite Hf, Hl, <- packed_bound_size.
  pose proof (first_of_size (block_records b)). pose proof (last_of_size (block_records b)).
  destruct (block_records b); [done|]. rewrite len_cons in *. pose proof (len_nonneg l). lia.
Qed.
Lemma block_wf_sizes b : block_wf b →
  is_u32 (Block.record_count b) ∧ is_u32 (Block.data_size b) ∧
  len (Block.first_key b) <= u32_max ∧ len (Block.last_key b) <= u32_max.
Proof.
  intros [Hd Hne Hok _ Hc Hs Hlim Hf Hl].
  assert (Block.data_size b <= u32_max) as Hds.
  { destruct Hlim as [H1|H4]; [|unfold SSTABLE_BLOCK_SIZE in *; word_lia].
    rewrite Hs. destruct (block_records b) as [|r [|r2 rs]]; [done| |].
    - apply Forall_cons_1 in Hok as [[_ Hr] _]. simpl. unfold rec_size. lia.
    - rewrite !len_cons in H1. pose proof (len_nonneg rs). lia. }
  pose proof (records_size_len (block_records b)). pose proof (len_nonneg (block_records b)).
  rewrite Hc, Hf, Hl. rewrite Hs in *.
  pose proof (first_of_size (block_records b)). pose proof (last_of_size (block_records b)).
  split_and!; word_lia.
Qed.
End block_theory.

(** ** Sorted record lists *)

Lemma keys_sorted_app x y :
  keys_sorted (x ++ y) ↔
  keys_sorted x ∧ keys_sorted y ∧
  ∀ a b, a ∈ x → b ∈ y → klt (MemtableRecord.key a) (MemtableRecord.key b).
Proof.
  unfold keys_sorted. induction x as [|r x IH]; simpl.
  - split; [intros ?; split_and!; [constructor | done | by intros ?? ?%elem_of_nil] | naive_solver].
  - split.
    + intros [(?&?&Hxy)%IH Hf]%StronglySorted_inv. rewrite Forall_app in Hf.
      rewrite !Forall_forall in Hf. split_and!; [constructor; [done|]; rewrite Forall_forall; naive_solver | done |].
      intros a b [->|Ha]%elem_of_cons Hb; naive_solver.
    + intros ([? Hf]%StronglySorted_inv & ? & Hxy). constructor.
      * apply IH. split_and!; [done|done|]. intros a b Ha Hb. apply Hxy; [by right|done].
      * apply Forall_app. split; [done|]. rewrite Forall_forall. intros b Hb. apply Hxy; [by left|done].
Qed.
Lemma keys_sorted_snoc x r :
  keys_sorted (x ++ [r]) ↔
  keys_sorted x ∧ Forall (λ a, klt (MemtableRecord.key a) (MemtableRecord.key r)) x.
Proof.
  rewrite keys_sorted_app, Forall_forall. split.
  - intros (?&_&Hx). split; [done|]. intros a Ha. apply Hx; [done | by apply list_elem_of_singleton].
  - intros [? Hx]. split_and!; [done | repeat constructor |].
    intros a b Ha ->%list_elem_of_singleton. auto.
Qed.

(** ** Builder steps *)

Section builder.
Context `{Crc32}.
Implicit Types (bb : BlockBuilder.t) (r : MemtableRecord.t).

Abbreviation keyed := (λ kr : bytes * MemtableRecord.t, MemtableRecord.with_key kr.2 kr.1).

(** The block a builder is holding. *)
Definition block_of bb : Block.t :=
  Block.mk (BlockBuilder.block_offset bb)
    (first_of (BlockBuilder.data bb)) (last_of (BlockBuilder.data bb))
    (BlockBuilder.record_count bb) (BlockBuilder.data_size bb) (Some (BlockBuilder.data bb)).

Lemma builder_new_inv off : 0 <= off → builder_inv (BlockBuilder.new off).
Proof. intros. split; simpl; try done; [apply SSorted_nil | left; by vm_compute]. Qed.

Lemma builder_size_u32 bb :
  builder_inv bb → BlockBuilder.data_size bb <= u32_max ∧ len (BlockBuilder.data bb) <= 241.
Proof.
  intros [Hok _ _ Hs Hlim _ _ _]. pose proof (records_size_len (BlockBuilder.data bb)).
  unfold SSTABLE_BLOCK_SIZE in *. destruct Hlim as [H1|H4]; [|split; word_lia].
  split; [|lia]. rewrite Hs. destruct (BlockBuilder.data bb) as [|r [|r2 rs]].
  - by vm_compute.
  - apply Forall_cons_1 in Hok as [[_ Hr] _]. simpl. unfold rec_size. lia.
  - rewrite !len_cons in H1. pose proof (len_nonneg rs). lia.
Qed.

Lemma block_of_wf bb : builder_inv bb → BlockBuilder.data bb ≠ [] → block_wf (block_of bb).
Proof.
  intros [] Hne. constructor; unfold block_records; simpl; try done.
  destruct bi_limit0 as [H1|H4]; [left|by right].
  destruct (BlockBuilder.data bb); [done|]. rewrite len_cons in *. pose proof (len_nonneg l). lia.
Qed.

Lemma builder_first_default bb :
  builder_inv bb → default [] (BlockBuilder.first_key bb) = first_of (BlockBuilder.data bb).
Proof. intros []. by rewrite bi_first0. Qed.
Lemma builder_last_default bb :
  builder_inv bb → default [] (BlockBuilder.last_key bb) = last_of (BlockBuilder.data bb).
Proof.
  intros []. rewrite bi_last0. unfold last_of.
  destruct (last (BlockBuilder.data bb)) as [r|]; [|done]. simpl.
  by destruct (MemtableRecord.key r).
Qed.

Lemma add_record_full bb k r :
  builder_inv bb → BlockBuilder.data bb ≠ [] →
  MemtableRecord.record_length r k <= u32_max →
  SSTABLE_BLOCK_SIZE < BlockBuilder.data_size bb + MemtableRecord.record_length r k →
  BlockBuilder.block_offset bb + len (Block.encode (block_of bb)) <= u64_max →
  BlockBuilder.add_record bb k r =
  Ok (Full (block_of bb) (Block.encode (block_of bb)),
      BlockBuilder.new (BlockBuilder.block_offset bb + len (Block.encode (block_of bb)))).
Proof.
  intros Hi Hne Hr Hgt Hoff. unfold BlockBuilder.add_record.
  pose proof (builder_size_u32 bb Hi) as [Hds _].
  pose proof (records_size_len (BlockBuilder.data bb)) as Hpos. rewrite <- (bi_size bb Hi) in Hpos.
  pose proof (len_nonneg (BlockBuilder.data bb)).
  assert (0 <= MemtableRecord.record_length r k).
  { rewrite <- memtable_encode_len. apply len_nonneg. }
  assert (BlockBuilder.is_empty bb = false) as ->.
  { unfold BlockBuilder.is_empty. by destruct (BlockBuilder.data bb). }
  rewrite (wrap64_id (_ + _)) by word_lia.
  rewrite (proj2 (Z.ltb_lt _ _) Hgt). simpl.
  rewrite (wrap32_id (BlockBuilder.data_size bb)) by word_lia.
  rewrite builder_first_default, builder_last_default by done.
  change (Block.mk _ _ _ _ _ _) with (block_of bb).
  unfold checked_add. by rewrite (proj2 (Z.leb_le _ _) Hoff).
Qed.

Lemma head_snoc {A} (x : list A) a : head (x ++ [a]) = match head x with Some b => Some b | None => Some a end.
Proof. by destruct x. Qed.

(** The key is the least of an empty block, and above every key of a
    non-empty one: the [first_key]/[last_key] updates agree with the records. *)
Lemma first_key_update bb k :
  builder_inv bb → Forall (λ a, klt (MemtableRecord.key a) k) (BlockBuilder.data bb) →
  (if bytes_ltb k (match BlockBuilder.first_key bb with None => k | Some f => f end)
   then k else match BlockBuilder.first_key bb with None => k | Some f => f end) =
  match head (BlockBuilder.data bb) with Some a => MemtableRecord.key a | None => k end.
Proof.
  intros Hi Hf. rewrite (bi_first bb Hi).
  destruct (BlockBuilder.data bb) as [|a d]; simpl.
  - by destruct (bytes_ltb k k).
  - apply Forall_cons_1 in Hf as [Hf _]. apply klt_le in Hf.
    change (bytes_ltb k (MemtableRecord.key a)) with (kltb k (MemtableRecord.key a)).
    by rewrite (proj2 (kltb_ge _ _) Hf).
Qed.
Lemma bytes_nil_least (k : bytes) : k ≠ [] → bytes_ltb [] k = true.
Proof. by destruct k. Qed.
Lemma last_key_update bb k :
  builder_inv bb → Forall (λ a, klt (MemtableRecord.key a) k) (BlockBuilder.data bb) →
  (if bytes_ltb (default [] (BlockBuilder.last_key bb)) k then Some k else BlockBuilder.last_key bb) =
  match k with [] => None | _ => Some k end.
Proof.
  intros Hi Hf. destruct k as [|x k].
  - assert (BlockBuilder.data bb = []) as Hd.
    { destruct (BlockBuilder.data bb) as [|a d]; [done|]. apply Forall_cons_1 in Hf as [Hf _].
      exfalso. revert Hf. unfold klt. simpl. by destruct (MemtableRecord.key a). }
    rewrite (bi_last bb Hi), Hd. done.
  - rewrite builder_last_default by done. unfold last_of.
    destruct (last (BlockBuilder.data bb)) as [r|] eqn:E; simpl; [|done].
    apply last_Some_elem_of in E. rewrite Forall_forall in Hf. specialize (Hf r E).
    change (bytes_ltb (MemtableRecord.key r) (x :: k)) with (kltb (MemtableRecord.key r) (x :: k)).
    by rewrite (proj2 (kltb_lt _ _) Hf).
Qed.

Lemma add_record_room bb k r :
  builder_inv bb → rec_ok (keyed (k, r)) →
  Forall (λ a, klt (MemtableRecord.key a) k) (BlockBuilder.data bb) →
  BlockBuilder.data bb = [] ∨
    BlockBuilder.data_size bb + MemtableRecord.record_length r k <= SSTABLE_BLOCK_SIZE →
  ∃ bb', BlockBuilder.add_record bb k r = Ok (EnoughSpace, bb') ∧ builder_inv bb' ∧
    BlockBuilder.data bb' = BlockBuilder.data bb ++ [keyed (k, r)] ∧
    BlockBuilder.block_offset bb' = BlockBuilder.block_offset bb.
Proof.
  intros Hi [Henc Hr] Hf Hroom. simpl in Henc, Hr.
  pose proof (builder_size_u32 bb Hi) as [Hds Hlen].
  pose proof (records_size_len (BlockBuilder.data bb)) as Hpos. rewrite <- (bi_size bb Hi) in Hpos.
  pose proof (len_nonneg (BlockBuilder.data bb)) as Hl0.
  pose proof (rec_size_pos (keyed (k, r))) as Hrs. unfold rec_size in Hrs; simpl in Hrs.
  change (MemtableRecord.record_length (MemtableRecord.with_key r k) k)
    with (MemtableRecord.record_length r k) in *.
  unfold BlockBuilder.add_record. rewrite (wrap64_id (_ + _)) by word_lia.
  assert (negb (BlockBuilder.is_empty bb)
          && (SSTABLE_BLOCK_SIZE <? BlockBuilder.data_size bb + MemtableRecord.record_length r k)
          = false) as ->.
  { unfold BlockBuilder.is_empty. destruct Hroom as [-> | Hle]; [done|].
    apply andb_false_iff. right. apply Z.ltb_ge. done. }
  cbv zeta. rewrite (first_key_update bb k Hi Hf), (last_key_update bb k Hi Hf).
  eexists. split; [done|]. split; [|done].
  destruct Hi as [Hok Hs Hc Hsz Hlim Hfk Hlk Ho]. constructor; simpl.
  - apply Forall_app. split; [done|]. apply Forall_singleton. by split.
  - by apply keys_sorted_snoc.
  - rewrite wrap32_id by (rewrite Hc; word_lia). rewrite Hc, len_app. done.
  - rewrite records_size_app, Hsz. unfold records_size, rec_size. simpl.
    change (MemtableRecord.record_length (MemtableRecord.mk _ _ k _) k) with (MemtableRecord.record_length r k). lia.
  - destruct Hroom as [-> | Hle]; [by left | by right].
  - rewrite head_snoc. by destruct (head (BlockBuilder.data bb)).
  - rewrite last_snoc; simpl. by destruct k.
  - done.
Qed.

(** One iteration of the packing loop. *)
Lemma push_record_spec bb blocks k r :
  builder_inv bb → rec_ok (keyed (k, r)) →
  Forall (λ a, klt (MemtableRecord.key a) k) (BlockBuilder.data bb) →
  BlockBuilder.block_offset bb + packed_bound (BlockBuilder.data bb) <= isize_max →
  ∃ bb' new, push_record bb blocks k r = Ok (bb', blocks ++ new) ∧
    builder_inv bb' ∧ Forall block_wf new ∧
    blocks_records new ++ BlockBuilder.data bb' = BlockBuilder.data bb ++ [keyed (k, r)] ∧
    laid_out (BlockBuilder.block_offset bb) new (BlockBuilder.block_offset bb') ∧
    BlockBuilder.block_offset bb' <= BlockBuilder.block_offset bb + packed_bound (blocks_records new).
Proof.
  intros Hi Hr Hf Hoff. unfold push_record.
  destruct (decide (BlockBuilder.data bb = [] ∨
    BlockBuilder.data_size bb + MemtableRecord.record_length r k <= SSTABLE_BLOCK_SIZE)) as [Hroom|Hfull].
  - destruct (add_record_room bb k r Hi Hr Hf Hroom) as (bb' & -> & Hi' & Hd & Ho).
    exists bb', []. simpl. rewrite app_nil_r, Hd, Ho. split_and!; try done. lia.
  - apply Decidable.not_or in Hfull as [Hne Hgt%Z.nle_gt].
    pose proof (block_of_wf bb Hi Hne) as Hwf.
    pose proof (block_encode_bound _ Hwf) as Hb. unfold block_records in Hb; simpl in Hb.
    assert (MemtableRecord.record_length r k <= u32_max) as Hr' by apply Hr.
    pose proof (bi_offset bb Hi). pose proof (len_nonneg (Block.encode (block_of bb))).
    rewrite add_record_full by (done || word_lia).
    unfold mbind, res_bind. cbv beta iota.
    destruct (add_record_room
                (BlockBuilder.new (BlockBuilder.block_offset bb + len (Block.encode (block_of bb)))) k r)
      as (bb' & -> & Hi' & Hd & Ho); [apply builder_new_inv; lia | done | constructor | by left |].
    exists bb', [block_of bb]. simpl. rewrite Hd, Ho, app_nil_r. split_and!; try done.
    + by apply Forall_singleton.
    + unfold block_records. simpl. lia.
Qed.
Lemma blocks_records_app x y : blocks_records (x ++ y) = blocks_records x ++ blocks_records y.
Proof. apply bind_app. Qed.
Lemma laid_out_app off1 x off2 y off3 :
  laid_out off1 x off2 → laid_out off2 y off3 → laid_out off1 (x ++ y) off3.
Proof. revert off1. induction x as [|b x IH]; simpl; [by intros ? ->|]. intros off1 [? ?] ?; eauto. Qed.
Lemma packed_bound_nonneg rs : 0 <= packed_bound rs.
Proof.
  rewrite <- packed_bound_size. pose proof (records_size_len rs). pose proof (len_nonneg rs). lia.
Qed.

Lemma push_all_spec rs bb blocks :
  builder_inv bb → Forall rec_ok (keyed <$> rs) →
  keys_sorted (BlockBuilder.data bb ++ (keyed <$> rs)) →
  BlockBuilder.block_offset bb + packed_bound (BlockBuilder.data bb ++ (keyed <$> rs)) <= isize_max →
  ∃ bb' new, push_all bb blocks rs = Ok (bb', blocks ++ new) ∧
    builder_inv bb' ∧ Forall block_wf new ∧
    blocks_records new ++ BlockBuilder.data bb' = BlockBuilder.data bb ++ (keyed <$> rs) ∧
    laid_out (BlockBuilder.block_offset bb) new (BlockBuilder.block_offset bb').
Proof.
  revert bb blocks. induction rs as [|[k r] rs IH]; intros bb blocks Hi Hok Hs Hoff.
  { exists bb, []. simpl. rewrite !app_nil_r. done. }
  rewrite fmap_cons in *. apply Forall_cons_1 in Hok as [Hr Hok].
  rewrite cons_middle, (assoc_L (++)) in Hs, Hoff.
  pose proof Hs as [[_ Hf]%keys_sorted_snoc _]%keys_sorted_app.
  rewrite !packed_bound_app in Hoff. pose proof (packed_bound_nonneg (keyed <$> rs)).
  pose proof (packed_bound_nonneg [keyed (k, r)]).
  destruct (push_record_spec bb blocks k r Hi Hr Hf ltac:(lia))
    as (bb1 & new1 & Hp & Hi1 & Hw1 & Hd1 & Hl1 & Hb1).
  assert (packed_bound (blocks_records new1) + packed_bound (BlockBuilder.data bb1)
          = packed_bound (BlockBuilder.data bb) + packed_bound [keyed (k, r)]) as Hpb.
  { by rewrite <- !packed_bound_app, Hd1. }
  destruct (IH bb1 (blocks ++ new1)) as (bb2 & new2 & Hp2 & Hi2 & Hw2 & Hd2 & Hl2); [done | done | | |].
  { rewrite <- Hd1, <- (assoc_L (++)) in Hs. by apply keys_sorted_app in Hs as (_ & ? & _). }
  { rewrite packed_bound_app. cbv beta in Hpb. cbn [fst snd] in *. lia. }
  exists bb2, (new1 ++ new2). cbn [push_all]. rewrite Hp. simpl. rewrite Hp2, (assoc_L (++)).
  split_and!; [done | done | by apply Forall_app | | by eapply laid_out_app].
  rewrite blocks_records_app, <- (assoc_L (++)), Hd2, (assoc_L (++)), Hd1.
  by rewrite <- (assoc_L (++)).
Qed.

(** [build] panics exactly when the only key of the block is the empty one. *)
Lemma build_spec bb :
  builder_inv bb →
  BlockBuilder.build bb =
  match BlockBuilder.data bb with
  | [] => Ok None
  | d => if bool_decide (last_of d = []) then Panic else Ok (Some (block_of bb, []))
  end.
Proof.
  intros Hi. pose proof (builder_size_u32 bb Hi) as [Hds _].
  pose proof (records_size_len (BlockBuilder.data bb)) as Hpos. rewrite <- (bi_size bb Hi) in Hpos.
  pose proof (len_nonneg (BlockBuilder.data bb)).
  unfold BlockBuilder.build, BlockBuilder.is_empty, block_of.
  rewrite (wrap32_id (BlockBuilder.data_size bb)) by word_lia.
  rewrite (bi_first bb Hi), (bi_last bb Hi). unfold last_of, first_of.
  destruct (BlockBuilder.data bb) as [|r d] eqn:E; [done|]. simpl head. simpl fmap.
  destruct (last (r :: d)) as [r'|] eqn:El; [|by apply last_None in El]. simpl.
  by destruct (MemtableRecord.key r').
Qed.

(** The packed blocks of a sorted record list. *)
Record packed (rs : list MemtableRecord.t) (blocks : list Block.t) : Prop := {
  pk_wf : Forall block_wf blocks;
  pk_records : blocks_records blocks = rs;
  pk_layout : ∃ off, laid_out 0 blocks off
}.

Lemma pack_spec rs :
  Forall rec_ok (keyed <$> rs) → keys_sorted (keyed <$> rs) →
  packed_bound (keyed <$> rs) <= isize_max →
  (∀ r, keyed <$> rs = [r] → MemtableRecord.key r ≠ []) →
  ∃ blocks, pack rs = Ok blocks ∧ packed (keyed <$> rs) blocks.
Proof.
  intros Hok Hs Hb Hne. unfold pack.
  destruct (push_all_spec rs (BlockBuilder.new 0) []) as (bb & new & -> & Hi & Hw & Hd & Hl);
    [by apply builder_new_inv | done | done | done |].
  simpl in Hd, Hl |- *. unfold finish. rewrite build_spec by done.
  destruct (BlockBuilder.data bb) as [|r d] eqn:E.
  - exists new. split; [done|]. rewrite app_nil_r in Hd. split; [done | done | eauto].
  - assert (last_of (r :: d) ≠ []) as Hlast.
    { unfold last_of. destruct (last (r :: d)) as [r'|] eqn:El; [|by apply last_None in El]. simpl.
      intros Hk. pose proof (bi_sorted bb Hi) as Hsd. rewrite E in Hsd.
      apply last_Some in El as [d' El]. rewrite <- Hd, El, (assoc_L (++)) in Hs.
      apply keys_sorted_snoc in Hs as [_ Hf].
      assert (blocks_records new ++ d' = []) as Hnil.
      { destruct (blocks_records new ++ d') as [|x y]; [done|].
        apply Forall_cons_1 in Hf as [Hx _]. rewrite Hk in Hx. unfold klt in Hx. simpl in Hx.
        by destruct (MemtableRecord.key x). }
      apply (Hne r'); [|done]. by rewrite <- Hd, El, (assoc_L (++)), Hnil. }
    rewrite bool_decide_false by done. simpl. exists (new ++ [block_of bb]). split; [done|].
    assert (block_wf (block_of bb)) as Hwf by (apply block_of_wf; [done | by rewrite E]).
    split.
    + apply Forall_app. split; [done|]. by apply Forall_singleton.
    + rewrite blocks_records_app. simpl. unfold block_records. simpl. by rewrite app_nil_r, E.
    + eexists. eapply laid_out_app; [done|]. simpl. done.
Qed.
End builder.

(** ** The block codec *)

Section block_codec.
Context `{Crc32Spec}.

Lemma verify_crc32_self data : verify_crc32 data (crc32 data) = Ok tt.
Proof. unfold verify_crc32, calculate_crc32. by rewrite Z.eqb_refl. Qed.
Lemma verify_crc32_Ok data c u : verify_crc32 data c = Ok u ↔ c = crc32 data.
Proof. unfold verify_crc32, calculate_crc32. destruct u. destruct (Z.eqb_spec (crc32 data) c); naive_solver. Qed.

Lemma read_records_run rs rest :
  Forall rec_ok rs →
  read_many MemtableRecord.decode (length rs) (Block.encode_records rs ++ rest) = Ok (rs, rest).
Proof.
  intros Hok. unfold Block.encode_records.
  rewrite (read_many_run _ _ id), list_fmap_id; [done|].
  eapply Forall_impl; [exact Hok|]. intros r [Hr _] rest'. by apply memtable_decode_encode.
Qed.

Lemma block_decode_encode b off rest :
  block_wf b →
  Block.decode_at off (Block.encode b ++ rest) =
  Ok (Block.mk off (Block.first_key b) (Block.last_key b) (Block.record_count b)
        (Block.data_size b) (Block.data b), rest).
Proof.
  intros Hwf. pose proof (block_wf_sizes b Hwf) as (Hrc & Hds & Hf & Hl).
  destruct b as [o fk lk rc ds d]. destruct Hwf as [Hd _ Hok _ Hc Hs _ _ _]; simpl in *.
  unfold block_records in *. simpl in *. destruct d as [rs|]; [|done]. simpl in *.
  unfold Block.decode_at, Block.encode, Block.header; simpl.
  pose proof (len_nonneg fk). pose proof (len_nonneg lk).
  rewrite !wrap32_id by word_lia. subst rc ds. pose proof (encode_records_len rs) as Hel.
  norm_app. do 5 step_reader. step_reader.
  erewrite reader_bind_run; [|apply read_vec_run; [by rewrite Hel | word_lia]]. cbv beta.
  step_reader.
  erewrite reader_bind_run; [|apply lift_run; rewrite !wrap32_id by word_lia; rewrite <- ?app_assoc; apply verify_crc32_self].
  erewrite reader_bind_run; [|apply lift_run; unfold len; rewrite Nat2Z.id;
    rewrite <- (app_nil_r (Block.encode_records rs)); by apply read_records_run].
  done.
Qed.

Lemma verify_crc32_np data c : verify_crc32 data c ≠ Panic.
Proof. unfold verify_crc32. by case_match. Qed.
Hint Resolve verify_crc32_np memtable_decode_no_panic : cere.

Lemma block_decode_no_panic off bs : Block.decode_at off bs ≠ Panic.
Proof.
  unfold Block.decode_at. no_panic. apply lift_np, read_many_np; auto with cere.
Qed.
End block_codec.

(** ** Properties *)

Section block_properties.
Context `{Crc32Spec}.

(** C23.  Packing sorted records into blocks succeeds, keeps every record
    once and in order, gives each block the key range, record count and data
    size of its own records, keeps every block of two or more records within
    the 4 KiB limit, and assigns each block the file offset at which the
    blocks before it end. *)
Theorem pack_correct (rs : list (bytes * MemtableRecord.t)) :
  let recs := (λ kr, MemtableRecord.with_key kr.2 kr.1) <$> rs in
  Forall rec_ok recs → keys_sorted recs → packed_bound recs <= isize_max →
  (∀ r, recs = [r] → MemtableRecord.key r ≠ []) →
  ∃ blocks, pack rs = Ok blocks ∧ blocks_records blocks = recs ∧
    Forall block_wf blocks ∧ ∃ off, laid_out 0 blocks off.
Proof.
  intros recs Hok Hs Hb Hne. destruct (pack_spec rs Hok Hs Hb Hne) as (bs & Hp & []).
  eauto 6.
Qed.

(** A table whose only key is the empty key cannot be packed: the last
    key of the block is never set and [build] unwraps it.  Batches with an
    empty key are accepted by the write path, so such a flush panics. *)
Theorem pack_single_empty_key_panics (r : MemtableRecord.t) :
  pack [([], r)] = Panic.
Proof. done. Qed.

(** A well-formed block written anywhere in a file is read back, with
    the same keys, counters and records, and the offset it was read from. *)
Theorem block_roundtrip b (before after : bytes) :
  block_wf b →
  Block.decode (before ++ Block.encode b ++ after) (len before) =
  Ok (Block.mk (len before) (Block.first_key b) (Block.last_key b)
        (Block.record_count b) (Block.data_size b) (Block.data b)).
Proof.
  intros Hwf. unfold Block.decode, len at 2. rewrite Nat2Z.id, drop_app_length.
  by rewrite block_decode_encode.
Qed.
End block_properties.

(** Three records, the second of which is larger than a block. *)
Definition sample_records : list (bytes * MemtableRecord.t) :=
  [([x61], MemtableRecord.new [x31] Put 1);
   ([x62], MemtableRecord.new (replicate 5000 x32) Put 2);
   ([x63], MemtableRecord.new [] Delete 3)].

Lemma pack_correct_witness :
  ∃ blocks, @pack ieee sample_records = Ok blocks ∧
    blocks_records blocks = (λ kr, MemtableRecord.with_key kr.2 kr.1) <$> sample_records ∧
    Forall block_wf blocks ∧ ∃ off, @laid_out ieee 0 blocks off.
Proof.
  apply (@pack_correct ieee sample_records).
  - unfold sample_records, rec_ok, MemtableRecord.encodable.
    rewrite ?fmap_cons, fmap_nil. simpl. repeat (apply Forall_cons; split); try apply Forall_nil_2;
      split_and!; vm_compute; repeat split; discriminate.
  - unfold sample_records, keys_sorted. simpl. repeat constructor.
  - vm_compute. discriminate.
  - intros r Hr. vm_compute in Hr. discriminate Hr.
Defined.

(** The block of two short records. *)
Definition sample_block : Block.t :=
  Block.mk 0 [x61] [x62] 2 37
    (Some [MemtableRecord.mk Put 1 [x61] [x31]; MemtableRecord.mk Delete 2 [x62] []]).

Lemma sample_block_wf : block_wf sample_block.
Proof.
  split; unfold sample_block, block_records; cbn [Block.data default from_option id].
  - reflexivity.
  - discriminate.
  - repeat (apply Forall_cons; split); try apply Forall_nil_2;
      unfold rec_ok, MemtableRecord.encodable; split_and!; vm_compute; repeat split; discriminate.
  - unfold keys_sorted. repeat constructor.
  - reflexivity.
  - vm_compute. reflexivity.
  - right. vm_compute. discriminate.
  - reflexivity.
  - reflexivity.
Defined.

Lemma block_roundtrip_witness :
  @Block.decode ieee ([x00] ++ @Block.encode ieee sample_block ++ []) 1 =
  Ok (Block.mk 1 [x61] [x62] 2 37 (Block.data sample_block)).
Proof. exact (@block_roundtrip ieee ieee_spec sample_block [x00] [] sample_block_wf). Defined.
