(* ===== verification/Bloom.v ===== *)
(** * Bloom filters: [src/src/storage/bloom.rs]

    [BloomFilterWrapper] around the [fastbloom] crate.  The crate is an
    interface: [FastBloom] lists the operations the wrapper calls and
    [FastBloomSpec] what the crate documents about them (no false negatives,
    and a filter rebuilt from its bit vector, seed and hash count answers like
    the original).  The wrapper's codec and membership are proved against it. *)

From S2P Require Import Prelude Bytes.
From Stdlib Require Import Floats.SpecFloat.

(** An [f64], as the IEEE-754 value it denotes. *)
Abbreviation f64 := spec_float.

Definition u128_max : Z := 340282366920938463463374607431768211455.
Definition is_u128 (z : Z) : Prop := 0 <= z <= u128_max.

Class FastBloom : Type := {
  BloomFilter : Type;
  (** [with_num_bits(bits).seed(&seed).expected_items(n)] *)
  bf_with_num_bits : Z → Z → Z → BloomFilter;
  (** [with_false_pos(rate).seed(&seed).expected_items(n)] *)
  bf_with_false_pos : f64 → Z → Z → BloomFilter;
  bf_insert : BloomFilter → bytes → BloomFilter;
  bf_contains : BloomFilter → bytes → bool;
  bf_num_bits : BloomFilter → Z;
  bf_num_hashes : BloomFilter → Z;
  bf_as_slice : BloomFilter → list Z;
  (** [from_vec(words).seed(&seed).hashes(n)], which rejects some arguments by panicking *)
  bf_from_vec : list Z → Z → Z → res BloomFilter;
  bf_clear : BloomFilter → BloomFilter
}.

Class FastBloomSpec `{FastBloom} : Type := {
  (** the filter hashes with this seed *)
  bf_seeded : BloomFilter → Z → Prop;
  bf_seeded_bits : ∀ n s e, bf_seeded (bf_with_num_bits n s e) s;
  bf_seeded_rate : ∀ p s e, bf_seeded (bf_with_false_pos p s e) s;
  bf_seeded_insert : ∀ f s k, bf_seeded f s → bf_seeded (bf_insert f k) s;
  bf_seeded_clear : ∀ f s, bf_seeded f s → bf_seeded (bf_clear f) s;
  bf_contains_insert : ∀ f k, bf_contains (bf_insert f k) k = true;
  bf_contains_mono : ∀ f k k', bf_contains f k = true → bf_contains (bf_insert f k') k = true;
  bf_restore : ∀ f s, bf_seeded f s →
    ∃ f', bf_from_vec (bf_as_slice f) s (bf_num_hashes f) = Ok f' ∧ bf_seeded f' s ∧
      ∀ k, bf_contains f' k = bf_contains f k;
  bf_num_bits_u64 : ∀ f, is_u64 (bf_num_bits f);
  bf_num_hashes_u32 : ∀ f, is_u32 (bf_num_hashes f);
  bf_words_u64 : ∀ f, Forall is_u64 (bf_as_slice f);
  bf_words_len : ∀ f, 8 * len (bf_as_slice f) <= isize_max
}.
#[export] Hint Resolve bf_num_bits_u64 bf_num_hashes_u32 bf_seeded_insert : cere.

Module BloomFilterWrapper.
Section wrapper.
Context `{FastBloom}.

Definition DEFAULT_BLOOM_SEED : Z := 0.

Record t : Type := mk { filter : BloomFilter; seed : Z }.

Definition new (num_bits expected_items : Z) : t :=
  let seed := DEFAULT_BLOOM_SEED in mk (bf_with_num_bits num_bits seed expected_items) seed.
Definition with_rate (expected_items : Z) (false_positive_rate : f64) : t :=
  let seed := DEFAULT_BLOOM_SEED in
  mk (bf_with_false_pos false_positive_rate seed expected_items) seed.
Definition insert (w : t) (key : bytes) : t := mk (bf_insert (filter w) key) (seed w).
Definition contains (w : t) (key : bytes) : bool := bf_contains (filter w) key.
Definition clear (w : t) : t := mk (bf_clear (filter w)) (seed w).

Definition encode (w : t) : bytes :=
  to_be 16 (seed w)
  ++ to_be 8 (bf_num_bits (filter w))
  ++ to_be 4 (bf_num_hashes (filter w))
  ++ to_be 8 (len (bf_as_slice (filter w)))
  ++ concat (to_be 8 <$> bf_as_slice (filter w)).

(** [Vec::with_capacity(n)] of [u64] words panics above [isize::MAX] bytes. *)
Definition with_capacity_words (n : Z) : reader unit :=
  λ bs, if isize_max <? 8 * n then Panic else Ok (tt, bs).

Definition decode : reader t :=
  seed ← read_be 16;
  _ ← read_u64_be;
  num_hashes ← read_u32_be;
  num_words ← read_u64_be;
  _ ← with_capacity_words num_words;
  bitmap_words ← read_many read_u64_be (Z.to_nat num_words);
  filter ← lift (bf_from_vec bitmap_words seed num_hashes);
  mret (mk filter seed).
(** [async_decode] differs in the reader it polls and a log line. *)
Definition async_decode : reader t :=
  seed ← read_be 16;
  _ ← read_u64_be;
  num_hashes ← read_u32_be;
  num_words ← read_u64_be;
  _ ← with_capacity_words num_words;
  bitmap_words ← read_many read_u64_be (Z.to_nat num_words);
  filter ← lift (bf_from_vec bitmap_words seed num_hashes);
  mret (mk filter seed).
End wrapper.
End BloomFilterWrapper.
#[global] Arguments BloomFilterWrapper.encode : simpl never.

(** ** Theory *)

Section bloom_theory.
Context `{FastBloomSpec}.
Implicit Types (w : BloomFilterWrapper.t).

Definition bloom_wf w : Prop :=
  is_u128 (BloomFilterWrapper.seed w) ∧
  bf_seeded (BloomFilterWrapper.filter w) (BloomFilterWrapper.seed w).

(** [insert_all] is the loop [for key in keys { bloom.insert(key) }]. *)
Definition insert_all w (ks : list bytes) : BloomFilterWrapper.t :=
  foldl BloomFilterWrapper.insert w ks.

(** The shape [fastbloom] gives a filter: at least one hash and one word, and
    as many words as the bits need. *)
Definition bloom_shape (w : BloomFilterWrapper.t) : Prop :=
  let f := BloomFilterWrapper.filter w in
  1 <= bf_num_hashes f <= bf_num_bits f ∧ bf_num_bits f + 63 <= u64_max ∧
  (bf_num_bits f + 63) / 64 = len (bf_as_slice f).

Lemma bloom_new_wf n e : bloom_wf (BloomFilterWrapper.new n e).
Proof. split; [by vm_compute | apply bf_seeded_bits]. Qed.
Lemma bloom_with_rate_wf n p : bloom_wf (BloomFilterWrapper.with_rate n p).
Proof. split; [by vm_compute | apply bf_seeded_rate]. Qed.
Lemma bloom_insert_wf w k : bloom_wf w → bloom_wf (BloomFilterWrapper.insert w k).
Proof. intros [? ?]. split; [done | by apply bf_seeded_insert]. Qed.
Lemma bloom_clear_wf w : bloom_wf w → bloom_wf (BloomFilterWrapper.clear w).
Proof. intros [? ?]. split; [done | by apply bf_seeded_clear]. Qed.
Lemma insert_all_wf w ks : bloom_wf w → bloom_wf (insert_all w ks).
Proof. revert w. induction ks; intros w Hw; simpl; auto using bloom_insert_wf. Qed.
Lemma insert_all_mono w ks k :
  BloomFilterWrapper.contains w k = true → BloomFilterWrapper.contains (insert_all w ks) k = true.
Proof.
  revert w. induction ks as [|k' ks IH]; intros w Hw; simpl; [done|].
  apply IH. by apply bf_contains_mono.
Qed.
(** Every inserted key is reported present. *)
Lemma insert_all_contains w ks k :
  k ∈ ks → BloomFilterWrapper.contains (insert_all w ks) k = true.
Proof.
  revert w. induction ks as [|k' ks IH]; intros w; [by intros ?%elem_of_nil|].
  intros [->|Hk]%elem_of_cons; simpl; [|by apply IH].
  apply insert_all_mono. apply bf_contains_insert.
Qed.

Lemma with_capacity_words_run n bs :
  8 * n <= isize_max → BloomFilterWrapper.with_capacity_words n bs = Ok (tt, bs).
Proof. intros. unfold BloomFilterWrapper.with_capacity_words. destruct (Z.ltb_spec isize_max (8 * n)); [lia|done]. Qed.

Lemma bloom_encode_len w :
  len (BloomFilterWrapper.encode w) =
  36 + 8 * len (bf_as_slice (BloomFilterWrapper.filter w)).
Proof.
  unfold BloomFilterWrapper.encode. autorewrite with len.
  assert (∀ ws, len (concat (to_be 8 <$> ws)) = 8 * len ws) as ->; [|lia].
  induction ws; [done|]. csimpl. autorewrite with len. rewrite IHws. lia.
Qed.

Lemma bloom_decode_encode w rest :
  bloom_wf w →
  ∃ w', BloomFilterWrapper.decode (BloomFilterWrapper.encode w ++ rest) = Ok (w', rest) ∧
    BloomFilterWrapper.seed w' = BloomFilterWrapper.seed w ∧ bloom_wf w' ∧
    ∀ k, BloomFilterWrapper.contains w' k = BloomFilterWrapper.contains w k.
Proof.
  destruct w as [f s]. intros [Hs Hf]. simpl in *.
  destruct (bf_restore f s Hf) as (f' & Hr & Hf' & Hc).
  exists (BloomFilterWrapper.mk f' s). split; [|done].
  unfold BloomFilterWrapper.decode, BloomFilterWrapper.encode. simpl.
  pose proof (bf_words_len f). pose proof (len_nonneg (bf_as_slice f)).
  norm_app. erewrite reader_bind_run; [|apply read_be_run].
  2: { change (256 ^ Z.of_nat 16) with (u128_max + 1). unfold is_u128 in Hs. lia. }
  cbv beta. do 3 step_reader.
  erewrite reader_bind_run; [|by apply with_capacity_words_run].
  unfold len at 1. rewrite Nat2Z.id.
  erewrite reader_bind_run; [|apply (read_many_run _ (to_be 8) id)].
  2: { eapply Forall_impl; [apply bf_words_u64|]. intros z Hz r. by apply read_u64_be_run. }
  rewrite list_fmap_id. unfold mbind, reader_bind, lift. by rewrite Hr.
Qed.
End bloom_theory.

(** ** A concrete filter

    A 64-bit, one-hash filter: the instance the examples run with. *)

Record ToyBloom : Type := mkToyBloom { tb_seed : Z; tb_hashes : Z; tb_word : Z }.
Definition toy_bit (seed : Z) (key : bytes) : Z := (seed + 31 * from_le key) mod 64.
Definition toy_fastbloom : FastBloom := {|
  BloomFilter := ToyBloom;
  bf_with_num_bits := λ _ s _, mkToyBloom s 1 0;
  bf_with_false_pos := λ _ s _, mkToyBloom s 1 0;
  bf_insert := λ f k, mkToyBloom (tb_seed f) (tb_hashes f)
                        (Z.lor (tb_word f) (Z.shiftl 1 (toy_bit (tb_seed f) k)));
  bf_contains := λ f k, Z.testbit (tb_word f) (toy_bit (tb_seed f) k);
  bf_num_bits := λ _, 64;
  bf_num_hashes := λ f, wrap32 (tb_hashes f);
  bf_as_slice := λ f, [wrap64 (tb_word f)];
  bf_from_vec := λ ws s h,
    match ws with [w] => Ok (mkToyBloom s h w) | _ => Panic end;
  bf_clear := λ f, mkToyBloom (tb_seed f) (tb_hashes f) 0
|}.

Lemma toy_bit_range s k : 0 <= toy_bit s k < 64.
Proof. unfold toy_bit. apply Z.mod_pos_bound. lia. Qed.

Lemma toy_restore (f : ToyBloom) (s : Z) :
  tb_seed f = s →
  ∃ f' : ToyBloom, @bf_from_vec toy_fastbloom [wrap64 (tb_word f)] s (wrap32 (tb_hashes f)) = Ok f' ∧
    tb_seed f' = s ∧ ∀ k, @bf_contains toy_fastbloom f' k = @bf_contains toy_fastbloom f k.
Proof.
  intros <-. eexists. split; [reflexivity|]. split; [done|]. intros k. simpl.
  pose proof (toy_bit_range (tb_seed f) k). unfold wrap64.
  change (u64_max + 1) with (2 ^ 64). rewrite Z.mod_pow2_bits_low by lia. done.
Qed.

Lemma toy_contains_insert (f : ToyBloom) k :
  @bf_contains toy_fastbloom (@bf_insert toy_fastbloom f k) k = true.
Proof.
  simpl. pose proof (toy_bit_range (tb_seed f) k).
  rewrite Z.lor_spec, Z.shiftl_spec, Z.sub_diag by lia. by rewrite orb_true_r.
Qed.
Lemma toy_contains_mono (f : ToyBloom) k k' :
  @bf_contains toy_fastbloom f k = true →
  @bf_contains toy_fastbloom (@bf_insert toy_fastbloom f k') k = true.
Proof. simpl. intros Hk. by rewrite Z.lor_spec, Hk. Qed.

Lemma toy_fastbloom_spec : @FastBloomSpec toy_fastbloom.
Proof.
  refine (@Build_FastBloomSpec toy_fastbloom (λ f s, tb_seed f = s)
    _ _ _ _ toy_contains_insert toy_contains_mono toy_restore _ _ _ _).
  - done.
  - done.
  - done.
  - done.
  - intros f. vm_compute. split; discriminate.
  - intros f. apply wrap32_u32.
  - intros f. repeat constructor; apply wrap64_u64.
  - intros f. vm_compute. discriminate.
Defined.

(** The shape is what the crate documents for every filter it builds from a
    rate and an expected number of items. *)
Class FastBloomShape `{FastBloom} : Prop :=
  bf_shape n p ks : 1 <= n → bloom_shape (insert_all (BloomFilterWrapper.with_rate n p) ks).
Lemma toy_fastbloom_shape : @FastBloomShape toy_fastbloom.
Proof.
  intros n p ks _. unfold insert_all.
  assert (∀ w : @BloomFilterWrapper.t toy_fastbloom, tb_hashes (BloomFilterWrapper.filter w) = 1 →
    tb_hashes (BloomFilterWrapper.filter (foldl BloomFilterWrapper.insert w ks)) = 1) as Hh.
  { induction ks as [|k ks IH]; intros w Hw; [done|]. simpl. by apply IH. }
  unfold bloom_shape. simpl. rewrite Hh by done. vm_compute. repeat split; discriminate.
Qed.

(** ** Property *)

Section bloom_property.
Context `{FastBloomSpec}.

(** A filter created for a table, filled with the table's keys and
    written to disk decodes to a filter that reports every one of those keys
    present: the stored filter has no false negatives. *)
Theorem bloom_no_false_negative n p (ks : list bytes) rest :
  let w := insert_all (BloomFilterWrapper.with_rate n p) ks in
  ∃ w', BloomFilterWrapper.decode (BloomFilterWrapper.encode w ++ rest) = Ok (w', rest) ∧
    Forall (λ k, BloomFilterWrapper.contains w' k = true) ks.
Proof.
  intros w. destruct (bloom_decode_encode w rest) as (w' & Hd & _ & _ & Hc).
  { apply insert_all_wf, bloom_with_rate_wf. }
  exists w'. split; [done|]. rewrite Forall_forall. intros k Hk. rewrite Hc.
  by apply insert_all_contains.
Qed.
End bloom_property.

(** Run with the concrete filter on two keys. *)
Lemma bloom_no_false_negative_witness :
  let w := @insert_all toy_fastbloom
             (@BloomFilterWrapper.with_rate toy_fastbloom 12 (S754_zero false)) [[x61]; [x62]] in
  ∃ w', @BloomFilterWrapper.decode toy_fastbloom
          (@BloomFilterWrapper.encode toy_fastbloom w ++ [x00]) = Ok (w', [x00]) ∧
    Forall (λ k, @BloomFilterWrapper.contains toy_fastbloom w' k = true) [[x61]; [x62]].
Proof.
  apply (@bloom_no_false_negative toy_fastbloom toy_fastbloom_spec
           12 (S754_zero false) [[x61]; [x62]] [x00]).
Defined.
