(* ===== verification/Index.v ===== *)
(** * SSTable index entries: [src/src/storage/index.rs]

    The codecs of [IndexEntry] and [SparseIndexEntry] and the index checksum.
    The lookups of the same source file are in [LegacyBlock]. *)

From S2P Require Import Prelude Bytes.

Module IndexEntry.
Record t : Type := mk { key : bytes; offset : Z }.

Definition encode (e : t) : bytes :=
  to_be 8 (len (key e)) ++ key e ++ to_be 8 (offset e).

Definition decode : reader t :=
  key_len ← read_u64_be;
  key ← read_vec key_len;
  offset ← read_u64_be;
  mret (mk key offset).
End IndexEntry.

Module SparseIndexEntry.
Record t : Type := mk {
  first_key : bytes;
  block_offset : Z;
  last_key : bytes;
  record_count : Z
}.

Definition encode (e : t) : bytes :=
  to_be 8 (len (first_key e)) ++ first_key e
  ++ to_be 8 (block_offset e)
  ++ to_be 8 (len (last_key e)) ++ last_key e
  ++ to_be 4 (record_count e).

Definition decode : reader t :=
  first_key_len ← read_u64_be;
  first_key ← read_vec first_key_len;
  block_offset ← read_u64_be;
  last_key_len ← read_u64_be;
  last_key ← read_vec last_key_len;
  record_count ← read_u32_be;
  mret (mk first_key block_offset last_key record_count).

(** The [AsyncRead] twin. *)
Definition async_decode : reader t :=
  first_key_len ← read_u64_be;
  first_key ← read_vec first_key_len;
  block_offset ← read_u64_be;
  last_key_len ← read_u64_be;
  last_key ← read_vec last_key_len;
  record_count ← read_u32_be;
  mret (mk first_key block_offset last_key record_count).
End SparseIndexEntry.
#[global] Arguments IndexEntry.encode : simpl never.
#[global] Arguments SparseIndexEntry.encode : simpl never.

#[export] Instance IndexEntry_eq_dec : EqDecision IndexEntry.t.
Proof. solve_decision. Defined.
#[export] Instance SparseIndexEntry_eq_dec : EqDecision SparseIndexEntry.t.
Proof. solve_decision. Defined.

Section index_checksum.
Context `{Crc32}.
Definition verify_index_checksum (data : bytes) (expected : Z) : res unit :=
  if crc32 data =? expected then Ok tt
  else Err (Corrupted "Index block checksum mismatch").

(** The sparse index section: the number of entries, then the entries. *)
Definition encode_index (es : list SparseIndexEntry.t) : bytes :=
  to_be 8 (len es) ++ concat (SparseIndexEntry.encode <$> es).
End index_checksum.

(** ** Round trips *)

Definition index_entry_ok (e : IndexEntry.t) : Prop :=
  len (IndexEntry.key e) <= isize_max ∧ is_u64 (IndexEntry.offset e).
Definition sparse_entry_ok (e : SparseIndexEntry.t) : Prop :=
  len (SparseIndexEntry.first_key e) <= isize_max ∧
  len (SparseIndexEntry.last_key e) <= isize_max ∧
  is_u64 (SparseIndexEntry.block_offset e) ∧ is_u32 (SparseIndexEntry.record_count e).

Lemma index_entry_run e rest :
  index_entry_ok e → IndexEntry.decode (IndexEntry.encode e ++ rest) = Ok (e, rest).
Proof.
  destruct e as [k o]. intros [Hk Ho]. simpl in *. unfold IndexEntry.decode, IndexEntry.encode. simpl.
  pose proof (len_nonneg k). run_reader. done.
Qed.
Lemma index_entry_inv bs e rest :
  IndexEntry.decode bs = Ok (e, rest) → bs = IndexEntry.encode e ++ rest ∧ index_entry_ok e.
Proof.
  unfold IndexEntry.decode, index_entry_ok, IndexEntry.encode. intros Hd. inv_reader. simpl.
  norm_app. done.
Qed.
Lemma sparse_entry_run e rest :
  sparse_entry_ok e → SparseIndexEntry.decode (SparseIndexEntry.encode e ++ rest) = Ok (e, rest).
Proof.
  destruct e as [f o l c]. intros (Hf & Hl & Ho & Hc). simpl in *.
  unfold SparseIndexEntry.decode, SparseIndexEntry.encode. simpl.
  pose proof (len_nonneg f). pose proof (len_nonneg l). run_reader. done.
Qed.
Lemma sparse_entry_inv bs e rest :
  SparseIndexEntry.decode bs = Ok (e, rest) →
  bs = SparseIndexEntry.encode e ++ rest ∧ sparse_entry_ok e.
Proof.
  unfold SparseIndexEntry.decode, sparse_entry_ok, SparseIndexEntry.encode. intros Hd.
  inv_reader. simpl. norm_app. done.
Qed.
Lemma sparse_entries_run es rest :
  Forall sparse_entry_ok es →
  read_many SparseIndexEntry.decode (length es) (concat (SparseIndexEntry.encode <$> es) ++ rest)
  = Ok (es, rest).
Proof.
  intros Hok. rewrite (read_many_run _ _ id), list_fmap_id; [done|].
  eapply Forall_impl; [exact Hok|]. intros e He r. by apply sparse_entry_run.
Qed.
Lemma sparse_entry_len e :
  len (SparseIndexEntry.encode e) =
  28 + len (SparseIndexEntry.first_key e) + len (SparseIndexEntry.last_key e).
Proof. unfold SparseIndexEntry.encode. autorewrite with len. lia. Qed.

(** Both index entry codecs are exact: an entry decodes from a stream
    precisely when the stream starts with its encoding and its fields fit
    their widths; the asynchronous decoder is the same function. *)
Theorem index_codecs_exact bs rest :
  (∀ e, IndexEntry.decode bs = Ok (e, rest) ↔
     index_entry_ok e ∧ bs = IndexEntry.encode e ++ rest) ∧
  (∀ e, SparseIndexEntry.decode bs = Ok (e, rest) ↔
     sparse_entry_ok e ∧ bs = SparseIndexEntry.encode e ++ rest) ∧
  SparseIndexEntry.async_decode bs = SparseIndexEntry.decode bs.
Proof.
  split_and!; [| |done]; intros e; split.
  - intros [-> ?]%index_entry_inv. done.
  - intros [? ->]. by apply index_entry_run.
  - intros [-> ?]%sparse_entry_inv. done.
  - intros [? ->]. by apply sparse_entry_run.
Qed.
