(* ===== verification/Footer.v ===== *)
(** * SSTable footer and sections: [src/src/storage/footer.rs]

    The 64-byte footer and its codec, and the readers that fetch the footer,
    the index sections and the bloom filter of a table file.  A seekable file
    is its contents; [SeekFrom::Start(n)] drops [n] bytes (a later
    [read_exact] fails past the end) and [SeekFrom::End(-n)] fails on a file
    shorter than [n]. *)

From S2P Require Import Prelude Bytes OrdMap Record Bloom Index.

Definition FOOTER_SIZE : Z := 64.
Definition MAGIC_NUMBER : Z := 3674559829. (* 0xDB055555 *)

(** [seek(SeekFrom::Start(n))] followed by the reader [p]. *)
Definition read_at {A} (file : bytes) (n : Z) (p : reader A) : res A :=
  fst <$> p (drop (Z.to_nat n) file).
(** [seek(SeekFrom::End(-n))] followed by the reader [p]. *)
Definition read_from_end {A} (file : bytes) (n : Z) (p : reader A) : res A :=
  if len file <? n then Err (IO InvalidInput) else read_at file (len file - n) p.

Module SSTableFooter.
Record t : Type := mk {
  data_block_start : Z;
  data_block_end : Z;
  index_block_start : Z;
  index_block_end : Z;
  index_checksum : Z;
  bloom_block_start : Z;
  bloom_block_end : Z;
  bloom_checksum : Z
}.

Section codec.
Context `{Crc32}.

(** The 60 bytes the footer checksum covers. *)
Definition body (f : t) : bytes :=
  to_be 8 (data_block_start f) ++ to_be 8 (data_block_end f)
  ++ to_be 8 (index_block_start f) ++ to_be 8 (index_block_end f)
  ++ to_be 4 (index_checksum f)
  ++ to_be 8 (bloom_block_start f) ++ to_be 8 (bloom_block_end f)
  ++ to_be 4 (bloom_checksum f)
  ++ to_be 4 MAGIC_NUMBER.

Definition encode (f : t) : bytes := body f ++ to_be 4 (crc32 (body f)).

Definition decode : reader t :=
  data_block_start ← read_u64_be;
  data_block_end ← read_u64_be;
  index_block_start ← read_u64_be;
  index_block_end ← read_u64_be;
  index_checksum ← read_u32_be;
  bloom_block_start ← read_u64_be;
  bloom_block_end ← read_u64_be;
  bloom_checksum ← read_u32_be;
  magic ← read_u32_be;
  _ ← require (magic =? MAGIC_NUMBER) (Corrupted "Invalid magic number");
  stored_checksum ← read_u32_be;
  let footer_data :=
    to_be 8 data_block_start ++ to_be 8 data_block_end
    ++ to_be 8 index_block_start ++ to_be 8 index_block_end
    ++ to_be 4 index_checksum
    ++ to_be 8 bloom_block_start ++ to_be 8 bloom_block_end
    ++ to_be 4 bloom_checksum ++ to_be 4 magic in
  _ ← require (stored_checksum =? crc32 footer_data) (Corrupted "Footer checksum mismatch");
  mret (mk data_block_start data_block_end index_block_start index_block_end
          index_checksum bloom_block_start bloom_block_end bloom_checksum).

(** [async_decode] reads the last 64 bytes and decodes them. *)
Definition async_decode (file : bytes) : res t :=
  buf ← read_from_end file FOOTER_SIZE (read_exact FOOTER_SIZE);
  fst <$> decode buf.
End codec.
End SSTableFooter.
#[global] Arguments SSTableFooter.encode : simpl never.

Section sections.
Context `{Crc32, FastBloom}.

Definition verify_bloom_checksum (data : bytes) (expected : Z) : res unit :=
  if crc32 data =? expected then Ok tt
  else Err (Corrupted "Bloom filter checksum mismatch").

(** The slice-based record reader of the legacy index lookup. *)
Definition decode_record_from_file (file : bytes) (offset : Z)
    : res (bytes * bytes * RecordType * Z) :=
  type_byte ← byte_at file offset;
  record_type ← Record.decode_type type_byte;
  let offset := wrap64 (offset + 1) in
  key_len ← from_be <$> slice file offset (wrap64 (offset + 8));
  let offset := wrap64 (offset + 8) in
  value_len ← from_be <$> slice file offset (wrap64 (offset + 8));
  let offset := wrap64 (offset + 8) in
  key ← slice file offset (wrap64 (offset + key_len));
  let offset := wrap64 (offset + key_len) in
  value ← slice file offset (wrap64 (offset + value_len));
  let offset := wrap64 (offset + value_len) in
  checksum ← from_be <$> slice file offset (wrap64 (offset + 4));
  _ ← guard_err (crc32 value =? checksum) (Corrupted "Checksum mismatch");
  let next_offset := wrap64 (offset + 1 + 8 + 8 + key_len + value_len + 4) in
  mret (key, value, record_type, next_offset).

Definition read_sstable_footer (file : bytes) : res SSTableFooter.t :=
  read_from_end file FOOTER_SIZE SSTableFooter.decode.

(** A section of the file, read whole. *)
Definition read_section (file : bytes) (start end_ : Z) : res bytes :=
  read_at file start (read_vec (wrap64 (end_ - start))).

Definition read_sstable_sparse_index (file : bytes) (footer : SSTableFooter.t)
    : res (list SparseIndexEntry.t) :=
  index_data ← read_section file (SSTableFooter.index_block_start footer)
                 (SSTableFooter.index_block_end footer);
  _ ← verify_index_checksum index_data (SSTableFooter.index_checksum footer);
  fst <$> (entry_count ← read_u64_be;
           read_many SparseIndexEntry.decode (Z.to_nat entry_count)) index_data.

Definition read_sstable_index (file : bytes) (footer : SSTableFooter.t)
    : res (ordmap bytes Z) :=
  index_data ← read_section file (SSTableFooter.index_block_start footer)
                 (SSTableFooter.index_block_end footer);
  _ ← verify_index_checksum index_data (SSTableFooter.index_checksum footer);
  es ← fst <$> (entry_count ← read_u64_be;
                read_many IndexEntry.decode (Z.to_nat entry_count)) index_data;
  mret (foldl (λ m e, om_insert (IndexEntry.key e) (IndexEntry.offset e) m) [] es).

Definition read_sstable_bloom (file : bytes) (footer : SSTableFooter.t)
    : res BloomFilterWrapper.t :=
  bloom_data ← read_section file (SSTableFooter.bloom_block_start footer)
                 (SSTableFooter.bloom_block_end footer);
  _ ← verify_bloom_checksum bloom_data (SSTableFooter.bloom_checksum footer);
  fst <$> BloomFilterWrapper.decode bloom_data.
End sections.

(** ** Theory *)

Definition footer_ok (f : SSTableFooter.t) : Prop :=
  is_u64 (SSTableFooter.data_block_start f) ∧ is_u64 (SSTableFooter.data_block_end f) ∧
  is_u64 (SSTableFooter.index_block_start f) ∧ is_u64 (SSTableFooter.index_block_end f) ∧
  is_u32 (SSTableFooter.index_checksum f) ∧
  is_u64 (SSTableFooter.bloom_block_start f) ∧ is_u64 (SSTableFooter.bloom_block_end f) ∧
  is_u32 (SSTableFooter.bloom_checksum f).

Lemma MAGIC_NUMBER_u32 : is_u32 MAGIC_NUMBER.
Proof. vm_compute. split; discriminate. Qed.
#[export] Hint Resolve MAGIC_NUMBER_u32 : cere.

Section footer_theory.
Context `{Crc32Spec}.

Lemma footer_encode_len f : len (SSTableFooter.encode f) = FOOTER_SIZE.
Proof. unfold SSTableFooter.encode, SSTableFooter.body. autorewrite with len. reflexivity. Qed.

Lemma footer_run f rest :
  footer_ok f → SSTableFooter.decode (SSTableFooter.encode f ++ rest) = Ok (f, rest).
Proof.
  destruct f. intros (?&?&?&?&?&?&?&?). simpl in *.
  unfold SSTableFooter.decode, SSTableFooter.encode, SSTableFooter.body. simpl. norm_app.
  do 11 step_reader. erewrite reader_bind_run; [|apply require_run, Z.eqb_refl]. done.
Qed.

Lemma footer_inv bs f rest :
  SSTableFooter.decode bs = Ok (f, rest) → bs = SSTableFooter.encode f ++ rest ∧ footer_ok f.
Proof.
  unfold SSTableFooter.decode, SSTableFooter.encode, SSTableFooter.body, footer_ok.
  intros Hd. inv_reader. repeat match goal with H : (_ =? _) = true |- _ => apply Z.eqb_eq in H; subst end.
  simpl. norm_app. split_and!; try done.
Qed.

Lemma read_at_app {A} (x y : bytes) (p : reader A) a r n :
  n = len x → p y = Ok (a, r) → read_at (x ++ y) n p = Ok a.
Proof.
  intros -> Hp. unfold read_at, len. rewrite Nat2Z.id, drop_app_length. by rewrite Hp.
Qed.

Lemma async_footer_run x f :
  footer_ok f → SSTableFooter.async_decode (x ++ SSTableFooter.encode f) = Ok f.
Proof.
  intros Hf. unfold SSTableFooter.async_decode, read_from_end.
  rewrite len_app, footer_encode_len.
  pose proof (len_nonneg x). destruct (Z.ltb_spec (len x + FOOTER_SIZE) FOOTER_SIZE); [lia|].
  erewrite read_at_app; [|lia|].
  2: { rewrite <- (app_nil_r (SSTableFooter.encode f)). apply read_exact_run. by rewrite footer_encode_len. }
  simpl. rewrite <- (app_nil_r (SSTableFooter.encode f)). by rewrite footer_run.
Qed.
Lemma read_footer_run x f :
  footer_ok f → read_sstable_footer (x ++ SSTableFooter.encode f) = Ok f.
Proof.
  intros Hf. unfold read_sstable_footer, read_from_end. rewrite len_app, footer_encode_len.
  pose proof (len_nonneg x). destruct (Z.ltb_spec (len x + FOOTER_SIZE) FOOTER_SIZE); [lia|].
  eapply read_at_app; [lia|]. rewrite <- (app_nil_r (SSTableFooter.encode f)). by apply footer_run.
Qed.
Lemma read_section_app x y z s e :
  s = len x → e = len x + len y → len y <= isize_max →
  read_section (x ++ y ++ z) s e = Ok y.
Proof.
  intros -> -> Hy. unfold read_section. replace (len x + len y - len x) with (len y) by lia.
  pose proof (len_nonneg y). rewrite wrap64_id by word_lia.
  eapply read_at_app; [done|]. apply read_vec_run; [done|lia].
Qed.
Lemma footer_decode_no_panic bs : SSTableFooter.decode bs ≠ Panic.
Proof. unfold SSTableFooter.decode. no_panic. Qed.
End footer_theory.

Section footer_properties.
Context `{Crc32Spec}.

(** The footer codec is exact, magic number and checksum included, and
    the two ways of reading a file's footer (the asynchronous one, through a
    64-byte buffer, and the synchronous one) agree on every file. *)
Theorem footer_codec_exact :
  (∀ bs f rest, SSTableFooter.decode bs = Ok (f, rest) ↔
     footer_ok f ∧ bs = SSTableFooter.encode f ++ rest) ∧
  (∀ file, SSTableFooter.async_decode file = read_sstable_footer file).
Proof.
  split.
  - intros bs f rest. split; [intros [-> ?]%footer_inv; done | intros [? ->]; by apply footer_run].
  - intros file. unfold SSTableFooter.async_decode, read_sstable_footer, read_from_end, read_at.
    destruct (Z.ltb_spec (len file) FOOTER_SIZE); [done|].
    set (tail := drop _ file).
    assert (len tail = FOOTER_SIZE) as Hl.
    { unfold tail, len. rewrite length_drop. unfold len, FOOTER_SIZE in *. lia. }
    rewrite <- (app_nil_r tail) at 1. rewrite read_exact_run by done. done.
Qed.
End footer_properties.

Definition small_footer : SSTableFooter.t := SSTableFooter.mk 0 10 10 20 7 20 30 9.
Lemma footer_codec_exact_witness :
  @SSTableFooter.decode ieee (@SSTableFooter.encode ieee small_footer ++ [x2a]) =
  Ok (small_footer, [x2a]).
Proof.
  apply (proj1 (@footer_codec_exact ieee ieee_spec)). split; [|reflexivity].
  vm_compute. repeat split; discriminate.
Defined.

(** ** The legacy slice reader *)

Lemma res_fmap_Ok {A B} (f : A → B) (m : res A) b :
  f <$> m = Ok b ↔ ∃ a, m = Ok a ∧ b = f a.
Proof. destruct m; simpl; naive_solver. Qed.
Lemma slice_Ok bs i j x : slice bs i j = Ok x → i <= j <= len bs ∧ (0 <= i → len x = j - i).
Proof.
  unfold slice. destruct ((i <=? j) && (j <=? len bs)) eqn:E; [|done].
  apply andb_true_iff in E as [?%Z.leb_le ?%Z.leb_le]. intros [= <-]. split; [lia|].
  intros Hi. unfold len in *. rewrite length_take, length_drop. lia.
Qed.
(** A slice [bs[i..i + n]] that is in range did not wrap around. *)
Lemma slice_len_Ok bs i n x :
  0 <= i <= len bs → is_u64 n → len bs <= isize_max → slice bs i (wrap64 (i + n)) = Ok x →
  wrap64 (i + n) = i + n ∧ i + n <= len bs ∧ len x = n.
Proof.
  intros Hi Hn Hb Hx. apply slice_Ok in Hx as [Hr Hl]. specialize (Hl ltac:(lia)).
  assert (wrap64 (i + n) = i + n) as E; [|lia].
  destruct (decide (i + n <= u64_max)); [apply wrap64_id; word_lia|].
  assert (wrap64 (i + n) = i + n - (u64_max + 1)) as E.
  { symmetry. apply (Z.mod_unique_pos _ _ 1); word_lia. }
  rewrite E in Hr. word_lia.
Qed.
Lemma slice_be_Ok bs i z :
  0 <= i <= len bs → len bs <= isize_max → from_be <$> slice bs i (wrap64 (i + 8)) = Ok z →
  wrap64 (i + 8) = i + 8 ∧ i + 8 <= len bs ∧ is_u64 z.
Proof.
  intros Hi Hb (x & Hx & ->)%res_fmap_Ok.
  apply slice_len_Ok in Hx as (? & ? & Hl); [|done|word_lia|done]. split_and!; try done.
  apply u64_bound. unfold len in Hl. replace 8%nat with (length x) by lia. apply from_be_range.
Qed.

Section decode_record_from_file.
Context `{Crc32}.

(** The offset [decode_record_from_file] returns as the start of the
    next record is past the end of the record it decoded by the whole
    17-byte header and both fields: they are added to an offset that was
    already advanced over them. *)
Theorem decode_record_from_file_overshoots file offset k v ty next :
  0 <= offset <= len file → 3 * len file <= isize_max →
  decode_record_from_file file offset = Ok (k, v, ty, next) →
  let record_end := offset + 1 + 8 + 8 + len k + len v + 4 in
  record_end <= len file ∧ next = record_end + (17 + len k + len v).
Proof.
  intros Ho Hf. unfold decode_record_from_file.
  intros (b & _ & (t & _ & Hd)%res_bind_Ok)%res_bind_Ok. cbv zeta in Hd.
  rewrite (wrap64_id (offset + 1)) in Hd by word_lia.
  destruct (decide (offset + 1 <= len file)) as [H1|H1].
  2: { apply res_bind_Ok in Hd as (? & (? & Hs & _)%res_fmap_Ok & _). apply slice_Ok in Hs. lia. }
  apply res_bind_Ok in Hd as (kl & (Ek & Hk & Hkl)%slice_be_Ok & Hd); [|lia|word_lia].
  rewrite Ek in Hd. clear Ek.
  apply res_bind_Ok in Hd as (vl & (Ev & Hv & Hvl)%slice_be_Ok & Hd); [|lia|word_lia].
  rewrite Ev in Hd. clear Ev.
  apply res_bind_Ok in Hd as (key & (Ek & Hkb & Hkey)%slice_len_Ok & Hd); [|lia|done|word_lia].
  rewrite Ek in Hd. clear Ek.
  apply res_bind_Ok in Hd as (value & (Ev & Hvb & Hval)%slice_len_Ok & Hd);
    [|word_lia|done|word_lia].
  rewrite Ev in Hd. clear Ev.
  apply res_bind_Ok in Hd as (c & (x & Hx & ->)%res_fmap_Ok & Hd).
  apply slice_len_Ok in Hx as (_ & Hx & _); [|word_lia|word_lia|word_lia].
  apply res_bind_Ok in Hd as (_ & _ & [= <- <- <- <-]).
  rewrite wrap64_id by word_lia. lia.
Qed.
End decode_record_from_file.

(** The record ("k", "v"): it ends at 23, the returned offset is 42. *)
Lemma decode_record_from_file_overshoots_witness :
  let file := [x01] ++ to_be 8 1 ++ to_be 8 1 ++ [x6b] ++ [x76]
              ++ to_be 4 (crc32_ieee [x76]) in
  let record_end := 0 + 1 + 8 + 8 + 1 + 1 + 4 in
  record_end <= len file ∧ 42 = record_end + (17 + 1 + 1).
Proof.
  intros file. apply (@decode_record_from_file_overshoots ieee file 0 [x6b] [x76] Put 42).
  - vm_compute. split; discriminate.
  - vm_compute. discriminate.
  - vm_compute. reflexivity.
Defined.
