(* ===== verification/LegacyBlock.v ===== *)
(** * Legacy blocks and lookups: [src/src/storage/block.rs], [index.rs]

    The older block format, whose records carry timestamps and per-value
    checksums, with its builder, and the lookups of [index.rs] that search
    tables in that format: the sparse-index search with its hand-written
    binary search, and the full-index searches. *)

From S2P Require Import Prelude Bytes OrdMap Search Record Block Bloom Index Footer.
From Stdlib Require Import Sorted.

Module LegacyBlock.
Record t : Type := mk {
  offset : Z;
  first_key : bytes;
  last_key : bytes;
  record_count : Z;
  data_size : Z;
  data : option (list Record.t)
}.

(** [encode] writes the header only. *)
Definition encode (b : t) : bytes :=
  to_be 4 (wrap32 (len (first_key b))) ++ first_key b
  ++ to_be 4 (wrap32 (len (last_key b))) ++ last_key b
  ++ to_be 4 (record_count b)
  ++ to_be 4 (data_size b).

Definition key_cmp (x y : Record.t) : comparison := bytes_cmp (Record.key x) (Record.key y).

Section codec.
Context `{Crc32}.

(** After the seek; the second seek of the source re-reads the first length. *)
Definition decode_at (offset : Z) : reader t :=
  first_key_len ← read_u32_be;
  first_key ← read_vec first_key_len;
  last_key_len ← read_u32_be;
  last_key ← read_vec last_key_len;
  record_count ← read_u32_be;
  data_size ← read_u32_be;
  record_data ← read_vec data_size;
  stored_checksum ← read_u32_be;
  let block_data_for_checksum :=
    to_be 4 (wrap32 first_key_len) ++ first_key
    ++ to_be 4 (wrap32 last_key_len) ++ last_key
    ++ to_be 4 record_count ++ to_be 4 data_size ++ record_data in
  _ ← lift (verify_crc32 block_data_for_checksum stored_checksum);
  records ← lift (read_many Record.decode (Z.to_nat record_count) record_data);
  mret (mk offset first_key last_key record_count data_size
          (Some (sort_by key_cmp (fst records)))).

Definition decode (file : bytes) (offset : Z) : res t :=
  read_at file offset (decode_at offset).
End codec.
End LegacyBlock.

Module LegacyBlockBuilder.
Record t : Type := mk {
  data : bytes;
  first_key : option bytes;
  last_key : option bytes;
  record_count : Z;
  block_offset : Z
}.

Definition new (block_offset : Z) : t := mk [] None None 0 block_offset.
Definition is_empty (bb : t) : bool := match data bb with [] => true | _ => false end.
Definition size (bb : t) : Z := len (data bb).

Section ops.
Context `{Crc32}.

(** [Ok(())] is [inl] of the new state, [Err(message)] is [inr]: the builder
    is then unchanged. *)
Definition add_record (bb : t) (record : Record.t) : t + string :=
  if SSTABLE_BLOCK_SIZE <? len (data bb) + len (Record.value record)
  then inr "Record too large to fit in block"%string
  else
    inl (mk (data bb ++ Record.encode record)
            (match first_key bb with None => Some (Record.key record) | k => k end)
            (Some (Record.key record))
            (wrap32 (record_count bb + 1))
            (block_offset bb)).

Definition build (bb : t) : res (option (LegacyBlock.t * bytes)) :=
  if is_empty bb then Ok None
  else
    match first_key bb, last_key bb with
    | Some f, Some l =>
        let block := LegacyBlock.mk (block_offset bb) f l (record_count bb)
                       (wrap32 (len (data bb))) None in
        let block_data := LegacyBlock.encode block ++ data bb in
        Ok (Some (block, block_data ++ to_be 4 (calculate_crc32 block_data)))
    | _, _ => Panic
    end.
End ops.
End LegacyBlockBuilder.

(** ** Lookups of [index.rs] *)

Section lookups.
Context `{Crc32, FastBloom}.
Implicit Types (e : SparseIndexEntry.t).

(** The loop [while left < right], on [fuel] iterations. *)
Fixpoint sparse_search (fuel : nat) (index : list SparseIndexEntry.t) (key : bytes)
    (left right : nat) : option SparseIndexEntry.t :=
  match fuel with
  | O => None
  | S fuel =>
      if (left <? right)%nat then
        let mid := (left + (right - left) / 2)%nat in
        match index !! mid with
        | None => None
        | Some entry =>
            if bytes_ltb key (SparseIndexEntry.first_key entry)
            then sparse_search fuel index key left mid
            else if bytes_ltb (SparseIndexEntry.last_key entry) key
            then sparse_search fuel index key (S mid) right
            else Some entry
        end
      else None
  end.

Definition search_sstable_sparse (file : bytes) (key : bytes)
    (sparse_index : list SparseIndexEntry.t) : res (option bytes) :=
  match sparse_search (length sparse_index) sparse_index key 0 (length sparse_index) with
  | None => Ok None
  | Some block =>
      block ← LegacyBlock.decode file (SparseIndexEntry.block_offset block);
      match LegacyBlock.data block with
      | Some records =>
          match binary_search_by (λ record, bytes_cmp (Record.key record) key) records with
          | inl index =>
              match records !! index with
              | Some record =>
                  match Record.record_type record with
                  | Put => Ok (Some (Record.value record))
                  | Delete => Ok None
                  end
              | None => Panic
              end
          | inr _ => Ok None
          end
      | None => Ok None
      end
  end.

(** The slice handed to [decode_record_from_file] is [buf.buffer()] of a
    [BufReader] nothing was read through: it is empty. *)
Definition search_sstable (file : bytes) (key : bytes) (index : ordmap bytes Z)
    : res (option bytes) :=
  match om_get key index with
  | Some offset =>
      '(record_key, record_value, record_type, _) ← decode_record_from_file [] offset;
      if bool_decide (record_key = key) then
        match record_type with
        | Put => mret (Some record_value)
        | Delete => mret None
        end
      else mret None
  | None => Ok None
  end.

Definition search_sstable_with_bloom (file : bytes) (key : bytes)
    (bloom : BloomFilterWrapper.t) (index : ordmap bytes Z) : res (option bytes) :=
  if negb (BloomFilterWrapper.contains bloom key) then Ok None
  else search_sstable file key index.
End lookups.

(** ** The sparse-index binary search *)

Definition covers (e : SparseIndexEntry.t) (key : bytes) : Prop :=
  kle (SparseIndexEntry.first_key e) key ∧ kle key (SparseIndexEntry.last_key e).
(** Block ranges in increasing order, without overlap. *)
Definition index_sorted (index : list SparseIndexEntry.t) : Prop :=
  Forall (λ e, kle (SparseIndexEntry.first_key e) (SparseIndexEntry.last_key e)) index ∧
  StronglySorted
    (λ e e', klt (SparseIndexEntry.last_key e) (SparseIndexEntry.first_key e')) index.

Lemma bytes_ltb_kltb (x y : bytes) : bytes_ltb x y = kltb x y.
Proof. done. Qed.

Lemma sparse_search_sound fuel index key l r e :
  sparse_search fuel index key l r = Some e → e ∈ index ∧ covers e key.
Proof.
  revert l r. induction fuel as [|fuel IH]; intros l r; [done|]. cbn [sparse_search].
  destruct (l <? r)%nat; [|done].
  destruct (index !! _) as [x|] eqn:Ex; [|done]. rewrite (bytes_ltb_kltb key), (bytes_ltb_kltb _ key).
  destruct (kltb key _) eqn:E1; [apply IH|].
  destruct (kltb (SparseIndexEntry.last_key x) key) eqn:E2; [apply IH|]. intros [= <-].
  apply kltb_ge in E1, E2. split; [by eapply list_elem_of_lookup_2 | done].
Qed.

(** Of two entries of a sorted index, a key at or below the end of the earlier
    one is strictly below the later one. *)
Lemma index_sorted_before index i j x y key :
  index_sorted index → (i < j)%nat → index !! i = Some x → index !! j = Some y →
  kle key (SparseIndexEntry.last_key x) → klt key (SparseIndexEntry.first_key y).
Proof.
  intros [_ Hs] Hij Hx Hy Hk. eapply kle_lt_trans; [exact Hk|].
  exact (StronglySorted_lookup _ _ i j x y Hs Hij Hx Hy).
Qed.
Lemma index_sorted_range index i x :
  index_sorted index → index !! i = Some x →
  kle (SparseIndexEntry.first_key x) (SparseIndexEntry.last_key x).
Proof. intros [Hf _] Hx. rewrite Forall_lookup in Hf. by eapply Hf. Qed.
(** The range a key is covered by is unique. *)
Lemma covers_unique index i j x y key :
  index_sorted index → index !! i = Some x → index !! j = Some y →
  covers x key → covers y key → i = j.
Proof.
  intros Hs Hx Hy [Hx1 Hx2] [Hy1 Hy2]. destruct (lt_eq_lt_dec i j) as [[Hij|?]|Hij]; [exfalso|done|exfalso].
  - pose proof (index_sorted_before _ _ _ _ _ _ Hs Hij Hx Hy Hx2) as Hk. by apply klt_not_le in Hk.
  - pose proof (index_sorted_before _ _ _ _ _ _ Hs Hij Hy Hx Hy2) as Hk. by apply klt_not_le in Hk.
Qed.

Lemma sparse_search_complete fuel index key l r i e :
  index_sorted index → (r - l <= fuel)%nat → (r <= length index)%nat →
  (l <= i < r)%nat → index !! i = Some e → covers e key →
  sparse_search fuel index key l r = Some e.
Proof.
  intros Hs. revert l r. induction fuel as [|fuel IH]; intros l r Hf Hr Hi He Hc; [lia|].
  cbn [sparse_search]. destruct (Nat.ltb_spec l r); [|lia].
  pose proof (Nat.div_lt (r - l) 2 ltac:(lia) ltac:(lia)).
  set (mid := (l + (r - l) / 2)%nat) in *. assert (l <= mid < r)%nat by lia. clearbody mid.
  destruct (index !! mid) as [x|] eqn:Ex; [|apply lookup_ge_None in Ex; lia].
  pose proof (index_sorted_range _ _ _ Hs Ex) as Hx.
  rewrite (bytes_ltb_kltb key), (bytes_ltb_kltb _ key). destruct (kltb key _) eqn:E1; [|destruct (kltb (SparseIndexEntry.last_key x) key) eqn:E2].
  - apply kltb_lt in E1. apply IH; [lia | lia | | done | done]. split; [lia|].
    destruct (lt_eq_lt_dec i mid) as [[?|Him]|Hlt]; [done|exfalso..].
    + simplify_eq. destruct Hc as [Hc _]. by apply klt_not_le in E1.
    + apply klt_le in E1. destruct Hc as [Hc _].
      pose proof (index_sorted_before _ _ _ _ _ key Hs Hlt Ex He (kle_trans _ _ _ E1 Hx)) as Hk.
      by apply klt_not_le in Hk.
  - apply kltb_lt in E2. apply IH; [lia | lia | | done | done]. split; [|lia].
    destruct (lt_eq_lt_dec i mid) as [[Hlt|Him]|?]; [exfalso..|lia].
    + destruct Hc as [_ Hc].
      pose proof (index_sorted_before _ _ _ _ _ key Hs Hlt He Ex Hc) as Hk.
      apply (klt_irrefl key). eapply klt_trans; [exact Hk|]. by eapply kle_lt_trans.
    + simplify_eq. destruct Hc as [_ Hc]. by apply klt_not_le in E2.
  - apply kltb_ge in E1, E2. f_equal.
    assert (mid = i) as -> by (by eapply covers_unique). congruence.
Qed.

(** ** The legacy builder and its blocks *)

Section legacy_theory.
Context `{Crc32Spec}.
Implicit Types (rs : list Record.t) (bb : LegacyBlockBuilder.t).

(** [add_record] for each record in turn, stopping at the first refusal. *)
Fixpoint legacy_add_all bb rs : LegacyBlockBuilder.t + string :=
  match rs with
  | [] => inl bb
  | r :: rs =>
      match LegacyBlockBuilder.add_record bb r with
      | inl bb => legacy_add_all bb rs
      | inr e => inr e
      end
  end.

Definition legacy_bytes rs : bytes := concat (Record.encode <$> rs).

(** The builder holds the encodings of the records added so far. *)
Record legacy_inv bb rs : Prop := {
  li_data : LegacyBlockBuilder.data bb = legacy_bytes rs;
  li_count : LegacyBlockBuilder.record_count bb = wrap32 (len rs);
  li_first : LegacyBlockBuilder.first_key bb = Record.key <$> head rs;
  li_last : LegacyBlockBuilder.last_key bb = Record.key <$> last rs
}.

Lemma legacy_bytes_app x y : legacy_bytes (x ++ y) = legacy_bytes x ++ legacy_bytes y.
Proof. unfold legacy_bytes. by rewrite fmap_app, concat_app. Qed.
Lemma legacy_bytes_cons r rs : len (legacy_bytes (r :: rs)) = record_size r + len (legacy_bytes rs).
Proof. change (legacy_bytes (r :: rs)) with (Record.encode r ++ legacy_bytes rs).
  by rewrite len_app, record_encode_len. Qed.
Lemma record_size_key r : 29 + len (Record.key r) <= record_size r.
Proof. unfold record_size. pose proof (len_nonneg (Record.value r)). lia. Qed.
Lemma legacy_bytes_elem r rs : r ∈ rs → len (Record.key r) <= len (legacy_bytes rs).
Proof.
  intros (x & y & ->)%list_elem_of_split. rewrite legacy_bytes_app, len_app, legacy_bytes_cons.
  pose proof (record_size_key r). pose proof (len_nonneg (legacy_bytes x)).
  pose proof (len_nonneg (legacy_bytes y)). lia.
Qed.
Lemma legacy_bytes_len rs : 29 * len rs <= len (legacy_bytes rs).
Proof.
  induction rs as [|r rs IH]; [done|]. rewrite legacy_bytes_cons, len_cons.
  pose proof (record_size_key r). pose proof (len_nonneg (Record.key r)). lia.
Qed.

Lemma legacy_add_inv bb rs r bb' :
  legacy_inv bb rs → LegacyBlockBuilder.add_record bb r = inl bb' → legacy_inv bb' (rs ++ [r]).
Proof.
  intros [Hd Hc Hf Hl]. unfold LegacyBlockBuilder.add_record. case_match; [done|].
  intros [= <-]. split; simpl.
  - rewrite legacy_bytes_app, Hd. unfold legacy_bytes at 3. simpl. by rewrite app_nil_r.
  - rewrite Hc, len_app. change (len [r]) with 1. unfold wrap32. by rewrite Z.add_mod_idemp_l by done.
  - rewrite Hf. by destruct rs.
  - by rewrite last_snoc.
Qed.
Lemma legacy_add_all_inv bb rs0 rs bb' :
  legacy_inv bb rs0 → legacy_add_all bb rs = inl bb' → legacy_inv bb' (rs0 ++ rs) ∧
  LegacyBlockBuilder.block_offset bb' = LegacyBlockBuilder.block_offset bb.
Proof.
  revert bb rs0. induction rs as [|r rs IH]; intros bb rs0 Hi; simpl.
  { intros [= <-]. by rewrite app_nil_r. }
  destruct (LegacyBlockBuilder.add_record bb r) as [bb1|] eqn:E; [|done]. intros Ha.
  apply (IH bb1 (rs0 ++ [r])) in Ha as [Hi' Ho]; [|by eapply legacy_add_inv].
  rewrite <- (assoc_L (++)) in Hi'. split; [done|]. rewrite Ho.
  unfold LegacyBlockBuilder.add_record in E. case_match; [done|]. by injection E as <-.
Qed.
Lemma legacy_new_inv off : legacy_inv (LegacyBlockBuilder.new off) [].
Proof. done. Qed.

(** The record as [Record::decode] returns it: the offset field holds its size. *)
Definition decoded r : Record.t :=
  Record.mk (Record.key r) (Record.value r) (Record.record_type r) (Record.timestamp r)
    (record_size r).

Lemma legacy_records_run rs rest :
  Forall record_encodable rs →
  read_many Record.decode (length rs) (legacy_bytes rs ++ rest) = Ok (decoded <$> rs, rest).
Proof.
  intros Hok. unfold legacy_bytes. apply read_many_run.
  eapply Forall_impl; [exact Hok|]. intros r Hr rest'. by apply record_decode_encode.
Qed.

Lemma legacy_decode_encode off fk lk rs rest :
  Forall record_encodable rs → len fk <= u32_max → len lk <= u32_max →
  len (legacy_bytes rs) <= u32_max →
  let header := LegacyBlock.encode
                  (LegacyBlock.mk off fk lk (len rs) (len (legacy_bytes rs)) None) in
  let block_data := header ++ legacy_bytes rs in
  LegacyBlock.decode_at off ((block_data ++ to_be 4 (crc32 block_data)) ++ rest) =
  Ok (LegacyBlock.mk off fk lk (len rs) (len (legacy_bytes rs))
        (Some (sort_by LegacyBlock.key_cmp (decoded <$> rs))), rest).
Proof.
  intros Hok Hf Hl Hd. unfold LegacyBlock.decode_at, LegacyBlock.encode; simpl.
  pose proof (len_nonneg fk). pose proof (len_nonneg lk). pose proof (legacy_bytes_len rs).
  pose proof (len_nonneg rs). rewrite !wrap32_id by word_lia.
  norm_app. do 8 step_reader.
  erewrite reader_bind_run; [|apply lift_run; rewrite !wrap32_id by word_lia;
    rewrite <- ?app_assoc; apply verify_crc32_self].
  erewrite reader_bind_run; [|apply lift_run; unfold len at 1; rewrite Nat2Z.id;
    rewrite <- (app_nil_r (legacy_bytes rs)); by apply legacy_records_run].
  done.
Qed.

(** A legacy block built from any accepted sequence of records decodes,
    wherever it is written, to the first and last key added and to the same
    records sorted by key, earlier additions first among equal keys. *)
Theorem legacy_block_roundtrip rs bb (before after : bytes) :
  rs ≠ [] → Forall record_encodable rs →
  legacy_add_all (LegacyBlockBuilder.new (len before)) rs = inl bb →
  LegacyBlockBuilder.size bb <= u32_max →
  ∃ block data, LegacyBlockBuilder.build bb = Ok (Some (block, data)) ∧
    LegacyBlock.decode (before ++ data ++ after) (len before) =
    Ok (LegacyBlock.mk (len before)
          (default [] (Record.key <$> head rs)) (default [] (Record.key <$> last rs))
          (len rs) (LegacyBlockBuilder.size bb)
          (Some (sort_by LegacyBlock.key_cmp (decoded <$> rs)))).
Proof.
  intros Hne Hok Ha Hs.
  apply legacy_add_all_inv with (rs0 := []) in Ha as [[Hd Hc Hf Hl] Ho]; [|apply legacy_new_inv].
  simpl in *. unfold LegacyBlockBuilder.size in *. rewrite Hd in Hs |- *.
  pose proof (legacy_bytes_len rs). pose proof (len_nonneg rs).
  destruct rs as [|r rs]; [done|]. set (all := r :: rs) in *.
  destruct (last all) as [r'|] eqn:El; [|by apply last_None in El].
  pose proof (legacy_bytes_elem r all (list_elem_of_here _ _)) as Hk1.
  pose proof (legacy_bytes_elem r' all (last_Some_elem_of _ _ El)) as Hk2.
  assert (LegacyBlockBuilder.is_empty bb = false) as He.
  { unfold LegacyBlockBuilder.is_empty. rewrite Hd.
    destruct (legacy_bytes all) eqn:E; [|done]. change (len []) with 0 in *.
    unfold all in *. rewrite len_cons in *. pose proof (len_nonneg rs). lia. }
  unfold LegacyBlockBuilder.build. rewrite He, Hf, Hl, Hd, Hc, Ho. simpl.
  do 2 eexists. split; [done|]. unfold LegacyBlock.decode.
  eapply read_at_app; [done|]. rewrite !wrap32_id by word_lia.
  apply legacy_decode_encode; (done || lia).
Qed.
End legacy_theory.

(** ** Lookups *)

Section lookup_theory.
Context `{Crc32}.
Implicit Types (rs : list Record.t) (key : bytes).

Definition find_record key rs : option Record.t :=
  List.find (λ r, bool_decide (Record.key r = key)) rs.

(** What a lookup answers for the record it found. *)
Definition answer (o : option Record.t) : option bytes :=
  match o with
  | Some r => match Record.record_type r with Put => Some (Record.value r) | Delete => None end
  | None => None
  end.

Lemma sorted_partitioned key rs :
  StronglySorted (λ x y, LegacyBlock.key_cmp x y ≠ Gt) rs →
  partitioned (λ r, bytes_cmp (Record.key r) key) rs.
Proof.
  intros Hs i j x y Hij Hx Hy. destruct (decide (i = j)) as [->|]; [naive_solver|].
  pose proof (StronglySorted_lookup _ _ i j x y Hs ltac:(lia) Hx Hy) as Hxy.
  change (kle (Record.key x) (Record.key y)) in Hxy.
  change (bytes_cmp (Record.key x) key) with (kcmp (Record.key x) key).
  change (bytes_cmp (Record.key y) key) with (kcmp (Record.key y) key).
  rewrite !kcmp_gt. split; intros Hk.
  - by eapply kle_lt_trans.
  - by eapply klt_le_trans.
Qed.

Lemma legacy_decode_sorted file off b rs :
  LegacyBlock.decode file off = Ok b → LegacyBlock.data b = Some rs →
  StronglySorted (λ x y, LegacyBlock.key_cmp x y ≠ Gt) rs.
Proof.
  unfold LegacyBlock.decode, read_at, LegacyBlock.decode_at.
  intros ([b' r] & Hd & ->)%res_fmap_Ok. inv_reader. simpl. intros [= <-].
  apply sort_by_sorted.
  - intros x y. apply bytes_cmp_antisym.
  - intros x y z. exact (kle_trans (Record.key x) (Record.key y) (Record.key z)).
Qed.

Lemma find_record_None key rs : find_record key rs = None ↔ ∀ r, r ∈ rs → Record.key r ≠ key.
Proof.
  unfold find_record. split.
  - intros Hf r Hr Hk. apply list_elem_of_In in Hr. pose proof (find_none _ _ Hf r Hr) as Hn.
    simpl in Hn. by apply bool_decide_eq_false in Hn.
  - intros Hn. destruct (List.find _ rs) as [r|] eqn:E; [|done].
    apply find_some in E as [Hr Hk%bool_decide_eq_true]. apply list_elem_of_In in Hr. by destruct (Hn r Hr).
Qed.
Lemma find_record_unique key rs r :
  NoDup (Record.key <$> rs) → r ∈ rs → Record.key r = key → find_record key rs = Some r.
Proof.
  intros Hn Hr Hk. unfold find_record. induction rs as [|x rs IH]; [by apply elem_of_nil in Hr|].
  rewrite fmap_cons, NoDup_cons in Hn. destruct Hn as [Hx Hn]. simpl.
  apply elem_of_cons in Hr as [->|Hr]; [by rewrite bool_decide_true|].
  rewrite bool_decide_false; [by apply IH|]. intros Hxk. apply Hx. rewrite Hxk, <- Hk.
  by apply list_elem_of_fmap_2.
Qed.

(** The binary search in a sorted block answers like a linear search. *)
Lemma record_binary_search key rs :
  StronglySorted (λ x y, LegacyBlock.key_cmp x y ≠ Gt) rs → NoDup (Record.key <$> rs) →
  match binary_search_by (λ record, bytes_cmp (Record.key record) key) rs with
  | inl i => ∃ r, rs !! i = Some r ∧ find_record key rs = Some r
  | inr _ => find_record key rs = None
  end.
Proof.
  intros Hs Hn. destruct (binary_search_by _ _) as [i|i] eqn:E.
  - apply binary_search_by_found in E as (r & Hr & Hk%bytes_cmp_eq). exists r. split; [done|].
    apply find_record_unique; [done | by eapply list_elem_of_lookup_2 | done].
  - apply binary_search_by_missing in E as (_ & Hlt & Hgt); [|by apply sorted_partitioned].
    apply find_record_None. intros r [j Hj]%list_elem_of_lookup_1 <-.
    destruct (decide (j < i)%nat); [specialize (Hlt j r ltac:(lia) Hj) | specialize (Hgt j r ltac:(lia) Hj)];
      simpl in *; by rewrite bytes_cmp_refl in *.
Qed.

(** On an index of disjoint, ordered block ranges, the sparse search
    answers [None] for a key no block covers and otherwise exactly what the
    covering block's record for the key says: its value, or nothing for a
    tombstone or an absent key.  The search loop always terminates within the
    length of the index. *)
Theorem search_sstable_sparse_correct file key index :
  index_sorted index →
  ((∀ e, e ∈ index → ¬ covers e key) → search_sstable_sparse file key index = Ok None) ∧
  (∀ e b rs, e ∈ index → covers e key →
     LegacyBlock.decode file (SparseIndexEntry.block_offset e) = Ok b →
     LegacyBlock.data b = Some rs → NoDup (Record.key <$> rs) →
     search_sstable_sparse file key index = Ok (answer (find_record key rs))).
Proof.
  intros Hs. unfold search_sstable_sparse. split.
  - intros Hn. destruct (sparse_search _ _ _ _ _) as [e|] eqn:E; [|done].
    apply sparse_search_sound in E as [He Hc]. by destruct (Hn e He).
  - intros e b rs [i Hi]%list_elem_of_lookup_1 Hc Hb Hd Hn.
    pose proof (lookup_lt_Some _ _ _ Hi).
    rewrite (sparse_search_complete _ index key 0 (length index) i e) by (done || lia).
    rewrite Hb. simpl. rewrite Hd.
    pose proof (record_binary_search key rs (legacy_decode_sorted _ _ _ _ Hb Hd) Hn) as Hbs.
    destruct (binary_search_by _ _) as [j|j].
    + destruct Hbs as (r & -> & ->). simpl. by destruct (Record.record_type r).
    + by rewrite Hbs.
Qed.

(** The full-index lookup never returns a value: a key the index does
    not hold yields [None], and a key it does hold makes the slice decoder
    index an empty buffer and panic, whatever the file contains. *)
Theorem search_sstable_never_finds file key index :
  search_sstable file key index =
  match om_get key index with Some _ => Panic | None => Ok None end.
Proof. unfold search_sstable. by destruct (om_get key index). Qed.
End lookup_theory.

(** The size check of [add_record] looks at the value alone: a record with a
    long key is accepted into a block it overflows. *)
Lemma legacy_block_exceeds_limit :
  ∃ r bb, @LegacyBlockBuilder.add_record ieee (LegacyBlockBuilder.new 0) r = inl bb ∧
    SSTABLE_BLOCK_SIZE < LegacyBlockBuilder.size bb.
Proof.
  exists (Record.new (replicate 5000 x61) [] Put 0). eexists. split; [reflexivity|].
  vm_compute. reflexivity.
Qed.

(** ** Witnesses *)

Definition legacy_sample : list Record.t :=
  [Record.new [x61] [x31] Put 5; Record.new [x62] [] Delete 6].
Definition legacy_sample_builder (off : Z) : LegacyBlockBuilder.t :=
  match @legacy_add_all ieee (LegacyBlockBuilder.new off) legacy_sample with
  | inl bb => bb
  | inr _ => LegacyBlockBuilder.new off
  end.
Definition legacy_sample_file : bytes :=
  match @LegacyBlockBuilder.build ieee (legacy_sample_builder 0) with
  | Ok (Some (_, data)) => data
  | _ => []
  end.

Lemma legacy_block_roundtrip_witness :
  ∃ block data, @LegacyBlockBuilder.build ieee (legacy_sample_builder 1) = Ok (Some (block, data)) ∧
    @LegacyBlock.decode ieee ([x00] ++ data ++ []) 1 =
    Ok (LegacyBlock.mk 1 [x61] [x62] 2 61
          (Some (sort_by LegacyBlock.key_cmp (decoded <$> legacy_sample)))).
Proof.
  apply (@legacy_block_roundtrip ieee ieee_spec legacy_sample (legacy_sample_builder 1) [x00] []).
  - discriminate.
  - repeat (apply Forall_cons; split); try apply Forall_nil_2;
      (split; vm_compute; [split|]; discriminate).
  - vm_compute. reflexivity.
  - vm_compute. discriminate.
Defined.

Lemma search_sstable_sparse_correct_witness :
  let index := [SparseIndexEntry.mk [x61] 0 [x62] 2] in
  @search_sstable_sparse ieee legacy_sample_file [x61] index = Ok (Some [x31]).
Proof.
  intros index.
  apply (proj2 (@search_sstable_sparse_correct ieee legacy_sample_file [x61] index
    ltac:(split; [repeat constructor; vm_compute; discriminate | repeat constructor])))
    with (e := SparseIndexEntry.mk [x61] 0 [x62] 2)
         (b := LegacyBlock.mk 0 [x61] [x62] 2 61 (Some (decoded <$> legacy_sample)))
         (rs := decoded <$> legacy_sample).
  - apply list_elem_of_here.
  - split; vm_compute; discriminate.
  - vm_compute. reflexivity.
  - reflexivity.
  - vm_compute. repeat constructor; rewrite ?list_elem_of_singleton, ?elem_of_nil; naive_solver.
Defined.
