(* ===== verification/SSTable.v ===== *)
(** * The SSTable codec: [src/src/storage/sstable_codec.rs]

    A table file is its blocks, the sparse index built from them, the bloom
    filter and the footer.  [serialize] writes it; [deserialize_sections]
    reads the footer, index and filter back; [get_block] finds the block of a
    key through the index.  Readers are functions of the file's contents. *)

From S2P Require Import Prelude Bytes OrdMap Search Record Block Bloom Index Footer LegacyBlock.
From Stdlib Require Import Sorted.

Module SSTableCodec.
Section codec.
Context `{Crc32, FastBloom}.

Record t : Type := mk {
  blocks : list Block.t;
  index : list SparseIndexEntry.t;
  bloom : BloomFilterWrapper.t
}.

(** The loop over the blocks: [out] and the index entries pushed so far. *)
Definition serialize_block (acc : bytes * list SparseIndexEntry.t) (block : Block.t)
    : bytes * list SparseIndexEntry.t :=
  let '(out, indexes) := acc in
  (out ++ Block.encode block,
   indexes ++ [SparseIndexEntry.mk (Block.first_key block) (len out)
                 (Block.last_key block) (Block.record_count block)]).

Definition serialize (c : t) : bytes * SSTableFooter.t :=
  let '(out, indexes) := foldl serialize_block ([], []) (blocks c) in
  let block_offset := len out in
  let index_block := to_be 8 (len indexes) ++ concat (SparseIndexEntry.encode <$> indexes) in
  let out := out ++ index_block in
  let index_offset := len out in
  let bloom_block := BloomFilterWrapper.encode (bloom c) in
  let out := out ++ bloom_block in
  let bloom_offset := len out in
  let footer := SSTableFooter.mk 0 block_offset block_offset index_offset
                  (crc32 index_block) index_offset bloom_offset (crc32 bloom_block) in
  (out ++ SSTableFooter.encode footer, footer).

Definition deserialize_sections (file : bytes)
    : res (SSTableFooter.t * list SparseIndexEntry.t * BloomFilterWrapper.t) :=
  footer ← SSTableFooter.async_decode file;
  indexes ← read_at file (SSTableFooter.data_block_end footer)
    (index_len ← read_u64_be; read_many SparseIndexEntry.async_decode (Z.to_nat index_len));
  bloom ← read_at file (SSTableFooter.bloom_block_start footer) BloomFilterWrapper.async_decode;
  mret (footer, indexes, bloom).

Definition deserialize (file : bytes) : res t :=
  '(_, index, bloom) ← deserialize_sections file;
  mret (mk [] index bloom).

Definition deserialize_footer (file : bytes) : res SSTableFooter.t :=
  SSTableFooter.async_decode file.

Definition range_from_index (index : list SparseIndexEntry.t) : option (bytes * bytes) :=
  smallest ← head index;
  largest ← last index;
  Some (SparseIndexEntry.first_key smallest, SparseIndexEntry.last_key largest).

(** The comparison of [get_block]'s binary search. *)
Definition entry_cmp (key : bytes) (entry : SparseIndexEntry.t) : comparison :=
  if bytes_ltb key (SparseIndexEntry.first_key entry) then Gt
  else if bytes_ltb (SparseIndexEntry.last_key entry) key then Lt
  else Eq.

Definition get_block (file : bytes) (footer : SSTableFooter.t)
    (index : list SparseIndexEntry.t) (key : bytes) : res Block.t :=
  index_position ←
    match binary_search_by (entry_cmp key) index with
    | inl pos => Ok pos
    | inr O => Err (StorageError "key is smaller than the first key in the index")
    | inr (S pos) => Ok pos
    end;
  match index !! index_position with
  | None => Panic
  | Some entry =>
      let start := SparseIndexEntry.block_offset entry in
      let end_ := match index !! S index_position with
                  | Some next => SparseIndexEntry.block_offset next
                  | None => SSTableFooter.data_block_end footer
                  end in
      if end_ <? start then Err (Corrupted "invalid block range in sparse index")
      else read_at file start Block.async_decode
  end.

(** [for entry in index.iter() { blocks.push(get_block(.., &entry.first_key)?) }]. *)
Fixpoint get_blocks_of (file : bytes) (footer : SSTableFooter.t)
    (index es : list SparseIndexEntry.t) : res (list Block.t) :=
  match es with
  | [] => mret []
  | entry :: es =>
      block ← get_block file footer index (SparseIndexEntry.first_key entry);
      rest ← get_blocks_of file footer index es;
      mret (block :: rest)
  end.
Definition get_all_blocks (file : bytes) (footer : SSTableFooter.t)
    (index : list SparseIndexEntry.t) : res (list Block.t) :=
  get_blocks_of file footer index index.

(** [Vec::with_capacity(count)] of 64-byte entries panics above [isize::MAX] bytes. *)
Definition decode_sparse_index (index_block : bytes) : res (list SparseIndexEntry.t) :=
  if len index_block <? 8 then Err (Corrupted "Index block too small")
  else
    fst <$> (count ← read_u64_be;
             _ ← (λ bs, if isize_max <? 64 * count then Panic else Ok (tt, bs));
             read_many SparseIndexEntry.decode (Z.to_nat count)) index_block.

(** [Iterator::next]: takes the first block out. *)
Definition next (c : t) : option (Block.t * t) :=
  match blocks c with
  | [] => None
  | b :: bs => Some (b, mk bs (index c) (bloom c))
  end.
End codec.
End SSTableCodec.
#[global] Arguments SSTableCodec.serialize : simpl never.

(** ** Layout *)

Section layout.
Context `{Crc32Spec, FastBloomSpec}.
Implicit Types (b : Block.t) (bs : list Block.t).

(** The sparse index of blocks written from offset [off] on. *)
Fixpoint index_from (off : Z) bs : list SparseIndexEntry.t :=
  match bs with
  | [] => []
  | b :: bs =>
      SparseIndexEntry.mk (Block.first_key b) off (Block.last_key b) (Block.record_count b)
      :: index_from (off + len (Block.encode b)) bs
  end.
Definition blocks_bytes bs : bytes := concat (Block.encode <$> bs).

Lemma blocks_bytes_cons b bs : blocks_bytes (b :: bs) = Block.encode b ++ blocks_bytes bs.
Proof. done. Qed.
Lemma blocks_bytes_app x y : blocks_bytes (x ++ y) = blocks_bytes x ++ blocks_bytes y.
Proof. unfold blocks_bytes. by rewrite fmap_app, concat_app. Qed.

Lemma serialize_blocks_spec bs out ix :
  foldl SSTableCodec.serialize_block (out, ix) bs =
  (out ++ blocks_bytes bs, ix ++ index_from (len out) bs).
Proof.
  revert out ix. induction bs as [|b bs IH]; intros out ix; simpl.
  { by rewrite !app_nil_r. }
  rewrite IH, blocks_bytes_cons, len_app, <- !(assoc_L (++)). done.
Qed.

Definition footer_of (c : SSTableCodec.t) : SSTableFooter.t :=
  let bs := SSTableCodec.blocks c in
  let ib := encode_index (index_from 0 bs) in
  let bb := BloomFilterWrapper.encode (SSTableCodec.bloom c) in
  SSTableFooter.mk 0 (len (blocks_bytes bs)) (len (blocks_bytes bs))
    (len (blocks_bytes bs) + len ib) (crc32 ib)
    (len (blocks_bytes bs) + len ib) (len (blocks_bytes bs) + len ib + len bb) (crc32 bb).

(** [serialize] is the concatenation of the four sections. *)
Lemma serialize_layout c :
  SSTableCodec.serialize c =
  (blocks_bytes (SSTableCodec.blocks c) ++ encode_index (index_from 0 (SSTableCodec.blocks c))
   ++ BloomFilterWrapper.encode (SSTableCodec.bloom c) ++ SSTableFooter.encode (footer_of c),
   footer_of c).
Proof.
  unfold SSTableCodec.serialize. rewrite serialize_blocks_spec. cbn [app].
  rewrite len_nil. fold (encode_index (index_from 0 (SSTableCodec.blocks c))).
  unfold footer_of. rewrite !len_app, <- !(assoc_L (++)). done.
Qed.

Lemma index_from_length off bs : length (index_from off bs) = length bs.
Proof. revert off. induction bs; intros; simpl; auto. Qed.
Lemma index_from_lookup off bs i :
  index_from off bs !! i =
  (λ b, SparseIndexEntry.mk (Block.first_key b) (off + len (blocks_bytes (take i bs)))
          (Block.last_key b) (Block.record_count b)) <$> bs !! i.
Proof.
  revert off i. induction bs as [|b bs IH]; intros off [|i]; simpl; try done.
  - do 2 f_equal. change (blocks_bytes []) with (@nil byte). rewrite len_nil. lia.
  - rewrite IH. destruct (bs !! i); simpl; [|done]. do 2 f_equal.
    rewrite blocks_bytes_cons, len_app. lia.
Qed.
End layout.

(** ** Key ranges of the blocks *)

Lemma keys_sorted_first rs r : keys_sorted rs → r ∈ rs → kle (first_of rs) (MemtableRecord.key r).
Proof.
  unfold keys_sorted, first_of. destruct rs as [|x rs]; [by intros _ ?%elem_of_nil|].
  intros [_ Hf]%StronglySorted_inv [->|Hr]%elem_of_cons; simpl; [apply kle_refl|].
  rewrite Forall_forall in Hf. by apply klt_le, Hf.
Qed.
Lemma keys_sorted_last rs r : keys_sorted rs → r ∈ rs → kle (MemtableRecord.key r) (last_of rs).
Proof.
  unfold last_of. destruct (last rs) as [x|] eqn:E.
  - apply last_Some in E as [l ->]. simpl. intros [_ Hf]%keys_sorted_snoc.
    rewrite elem_of_app, list_elem_of_singleton, Forall_forall in *. intros [Hr| ->]; [by apply klt_le, Hf|apply kle_refl].
  - apply last_None in E as ->. by intros _ ?%elem_of_nil.
Qed.
Lemma first_of_elem rs : rs ≠ [] → ∃ r, r ∈ rs ∧ first_of rs = MemtableRecord.key r.
Proof. destruct rs as [|r rs]; [done|]. intros _. exists r. split; [apply list_elem_of_here | done]. Qed.
Lemma last_of_elem rs : rs ≠ [] → ∃ r, r ∈ rs ∧ last_of rs = MemtableRecord.key r.
Proof.
  unfold last_of. destruct (last rs) as [r|] eqn:E; [|by apply last_None in E as ->].
  intros _. exists r. split; [by apply last_Some_elem_of | done].
Qed.

Section ranges.
Implicit Types (b : Block.t) (bs : list Block.t).

Lemma block_range b r :
  block_wf b → r ∈ block_records b →
  kle (Block.first_key b) (MemtableRecord.key r) ∧ kle (MemtableRecord.key r) (Block.last_key b).
Proof.
  intros [_ _ _ Hs _ _ _ Hf Hl] Hr. rewrite Hf, Hl.
  split; [by apply keys_sorted_first | by apply keys_sorted_last].
Qed.
Lemma block_first_le_last b : block_wf b → kle (Block.first_key b) (Block.last_key b).
Proof.
  intros Hwf. destruct (first_of_elem _ (bwf_nonempty b Hwf)) as (r & Hr & Hf).
  destruct (block_range b r Hwf Hr) as [? Hl]. rewrite (bwf_first b Hwf), Hf in *. done.
Qed.
Lemma blocks_disjoint b bs b' :
  block_wf b → block_wf b' → b' ∈ bs → keys_sorted (block_records b ++ blocks_records bs) →
  klt (Block.last_key b) (Block.first_key b').
Proof.
  intros Hb Hb' Hin (_ & _ & Hlt)%keys_sorted_app.
  destruct (last_of_elem _ (bwf_nonempty b Hb)) as (r & Hr & Hl).
  destruct (first_of_elem _ (bwf_nonempty b' Hb')) as (r' & Hr' & Hf).
  rewrite (bwf_last b Hb), (bwf_first b' Hb'), Hl, Hf. apply Hlt; [done|].
  apply list_elem_of_bind. eauto.
Qed.
End ranges.

Section index_order.
Context `{Crc32}.

Lemma index_from_elem off bs e :
  e ∈ index_from off bs → ∃ b, b ∈ bs ∧ SparseIndexEntry.first_key e = Block.first_key b ∧
    SparseIndexEntry.last_key e = Block.last_key b ∧
    SparseIndexEntry.record_count e = Block.record_count b.
Proof.
  intros [i Hi]%list_elem_of_lookup_1. rewrite index_from_lookup in Hi.
  destruct (bs !! i) as [b|] eqn:E; [|done]. injection Hi as <-.
  exists b. split; [by eapply list_elem_of_lookup_2 | done].
Qed.
Lemma index_from_sorted off bs :
  Forall block_wf bs → keys_sorted (blocks_records bs) → index_sorted (index_from off bs).
Proof.
  intros Hwf Hs. split.
  - apply Forall_forall. intros e (b & Hb & -> & -> & _)%index_from_elem.
    apply block_first_le_last. by eapply Forall_forall in Hb; [|exact Hwf].
  - revert off Hs. induction Hwf as [|b bs Hb Hbs IH]; intros off Hs; simpl; [constructor|].
    pose proof Hs as (_ & Hs' & _)%keys_sorted_app. constructor; [by apply IH|].
    apply Forall_forall. intros e (b' & Hb' & -> & _)%index_from_elem. simpl.
    apply (blocks_disjoint b bs b'); [done | | done | done].
    by eapply Forall_forall in Hb'; [|exact Hbs].
Qed.

Lemma entry_cmp_covers key e : SSTableCodec.entry_cmp key e = Eq ↔ covers e key.
Proof.
  unfold SSTableCodec.entry_cmp, covers.
  rewrite (bytes_ltb_kltb key), (bytes_ltb_kltb _ key), <- !kltb_ge.
  destruct (kltb key (SparseIndexEntry.first_key e)), (kltb (SparseIndexEntry.last_key e) key);
    naive_solver.
Qed.
Lemma entry_cmp_gt key e :
  SSTableCodec.entry_cmp key e = Gt ↔ klt key (SparseIndexEntry.first_key e).
Proof.
  unfold SSTableCodec.entry_cmp. rewrite (bytes_ltb_kltb key), (bytes_ltb_kltb _ key), <- kltb_lt.
  destruct (kltb key (SparseIndexEntry.first_key e)), (kltb (SparseIndexEntry.last_key e) key);
    naive_solver.
Qed.
Lemma entry_cmp_lt key e :
  kle (SparseIndexEntry.first_key e) (SparseIndexEntry.last_key e) →
  SSTableCodec.entry_cmp key e = Lt ↔ klt (SparseIndexEntry.last_key e) key.
Proof.
  intros Hr. unfold SSTableCodec.entry_cmp. rewrite (bytes_ltb_kltb key), (bytes_ltb_kltb _ key).
  destruct (kltb key _) eqn:E1.
  - apply kltb_lt in E1. split; [done|]. intros Hl. exfalso. apply (klt_irrefl key).
    eapply klt_trans; [exact E1|]. by eapply kle_lt_trans.
  - rewrite <- kltb_lt. destruct (kltb (SparseIndexEntry.last_key e) key); naive_solver.
Qed.
Lemma entry_cmp_partitioned key index :
  index_sorted index → partitioned (SSTableCodec.entry_cmp key) index.
Proof.
  intros Hs i j x y Hij Hx Hy. destruct (decide (i = j)) as [->|]; [naive_solver|].
  pose proof (index_sorted_range _ _ _ Hs Hx) as Rx. pose proof (index_sorted_range _ _ _ Hs Hy) as Ry.
  assert (klt (SparseIndexEntry.last_key x) (SparseIndexEntry.first_key y)) as Hxy.
  { eapply (index_sorted_before _ i j); eauto using kle_refl. lia. }
  rewrite !entry_cmp_gt, !entry_cmp_lt by done. split; intros Hk.
  - eapply klt_trans; [exact Hxy|]. by eapply kle_lt_trans.
  - eapply klt_trans; [exact Hk|]. by eapply kle_lt_trans.
Qed.

(** The binary search of [get_block] finds the covering entry. *)
Lemma get_block_search index key i e :
  index_sorted index → index !! i = Some e → covers e key →
  binary_search_by (SSTableCodec.entry_cmp key) index = inl i.
Proof.
  intros Hs He Hc. destruct (binary_search_by_complete (SSTableCodec.entry_cmp key) index i e) as [j Hj];
    [by apply entry_cmp_partitioned | done | by apply entry_cmp_covers |].
  rewrite Hj. f_equal. apply binary_search_by_found in Hj as (x & Hx & Hcx%entry_cmp_covers).
  by eapply covers_unique.
Qed.
End index_order.

(** ** Reading a serialized table *)

(** A block as [async_decode] returns it: with offset 0. *)
Definition at_offset (off : Z) (b : Block.t) : Block.t :=
  Block.mk off (Block.first_key b) (Block.last_key b) (Block.record_count b)
    (Block.data_size b) (Block.data b).

Section table.
Context `{Crc32Spec, FastBloomSpec}.
Implicit Types (c : SSTableCodec.t).

(** The tables the flush and compaction produce: well-formed blocks whose
    records are sorted across blocks, a filter with its own seed, and a file
    that fits in memory. *)
Record table_wf c : Prop := {
  tw_blocks : Forall block_wf (SSTableCodec.blocks c);
  tw_sorted : keys_sorted (blocks_records (SSTableCodec.blocks c));
  tw_bloom : bloom_wf (SSTableCodec.bloom c);
  tw_size : len (SSTableCodec.serialize c).1 <= isize_max
}.

Definition table_index c : list SparseIndexEntry.t := index_from 0 (SSTableCodec.blocks c).
Definition table_records c : list MemtableRecord.t := blocks_records (SSTableCodec.blocks c).

Lemma blocks_bytes_take bs i : len (blocks_bytes (take i bs)) <= len (blocks_bytes bs).
Proof.
  rewrite <- (take_drop i bs) at 2. rewrite blocks_bytes_app, len_app.
  pose proof (len_nonneg (blocks_bytes (drop i bs))). lia.
Qed.
Lemma index_from_entries_ok c : table_wf c → Forall sparse_entry_ok (table_index c).
Proof.
  intros [Hb _ _ Hs]. rewrite serialize_layout in Hs. simpl in Hs. rewrite !len_app in Hs.
  apply Forall_lookup. intros i e. unfold table_index. rewrite index_from_lookup.
  destruct (SSTableCodec.blocks c !! i) as [b|] eqn:E; [|done]. intros [= <-].
  rewrite Forall_lookup in Hb. destruct (block_wf_sizes b (Hb _ _ E)) as (Hrc & _ & Hf & Hl).
  pose proof (blocks_bytes_take (SSTableCodec.blocks c) i).
  pose proof (len_nonneg (blocks_bytes (take i (SSTableCodec.blocks c)))).
  pose proof (len_nonneg (encode_index (index_from 0 (SSTableCodec.blocks c)))).
  pose proof (len_nonneg (BloomFilterWrapper.encode (SSTableCodec.bloom c))).
  pose proof (len_nonneg (SSTableFooter.encode (footer_of c))).
  unfold sparse_entry_ok; simpl. split_and!; word_lia.
Qed.
Lemma footer_of_ok c : table_wf c → footer_ok (footer_of c).
Proof.
  intros [_ _ _ Hs]. rewrite serialize_layout in Hs. simpl in Hs. rewrite !len_app in Hs.
  pose proof (len_nonneg (blocks_bytes (SSTableCodec.blocks c))).
  pose proof (len_nonneg (encode_index (index_from 0 (SSTableCodec.blocks c)))).
  pose proof (len_nonneg (BloomFilterWrapper.encode (SSTableCodec.bloom c))).
  pose proof (len_nonneg (SSTableFooter.encode (footer_of c))).
  unfold footer_ok, footer_of; simpl. split_and!; try apply crc32_u32; word_lia.
Qed.
Lemma index_len_ok c : table_wf c → len (table_index c) <= isize_max.
Proof.
  intros [_ _ _ Hs]. rewrite serialize_layout in Hs. simpl in Hs. rewrite !len_app in Hs.
  pose proof (len_nonneg (blocks_bytes (SSTableCodec.blocks c))).
  pose proof (len_nonneg (BloomFilterWrapper.encode (SSTableCodec.bloom c))).
  pose proof (len_nonneg (SSTableFooter.encode (footer_of c))).
  unfold encode_index in Hs. rewrite len_app in Hs. fold (table_index c) in Hs.
  assert (∀ es, len es <= len (concat (SparseIndexEntry.encode <$> es))) as Hle.
  { induction es as [|e es IH]; [done|]. rewrite fmap_cons. cbn [concat].
    rewrite len_app, len_cons, sparse_entry_len.
    pose proof (len_nonneg (SparseIndexEntry.first_key e)).
    pose proof (len_nonneg (SparseIndexEntry.last_key e)). lia. }
  specialize (Hle (table_index c)). rewrite len_to_be in Hs. lia.
Qed.

Lemma read_index_run es rest :
  Forall sparse_entry_ok es → len es <= isize_max →
  (index_len ← read_u64_be; read_many SparseIndexEntry.async_decode (Z.to_nat index_len))
    (encode_index es ++ rest) = Ok (es, rest).
Proof.
  intros Hok Hl. pose proof (len_nonneg es). unfold encode_index. norm_app. step_reader.
  unfold len. rewrite Nat2Z.id. exact (sparse_entries_run es rest Hok).
Qed.

Lemma deserialize_serialize c :
  table_wf c →
  ∃ bloom, SSTableCodec.deserialize_sections (SSTableCodec.serialize c).1 =
             Ok (footer_of c, table_index c, bloom) ∧
    ∀ k, BloomFilterWrapper.contains bloom k = BloomFilterWrapper.contains (SSTableCodec.bloom c) k.
Proof.
  intros Hc. pose proof (footer_of_ok c Hc). pose proof (index_from_entries_ok c Hc).
  pose proof (index_len_ok c Hc).
  destruct (bloom_decode_encode (SSTableCodec.bloom c) (SSTableFooter.encode (footer_of c)) (tw_bloom c Hc))
    as (w & Hw & _ & _ & Hk).
  exists w. split; [|done]. rewrite serialize_layout. cbn [fst].
  unfold SSTableCodec.deserialize_sections.
  match goal with |- context [SSTableFooter.async_decode ?f] =>
    assert (SSTableFooter.async_decode f = Ok (footer_of c)) as ->
      by (rewrite !(assoc_L (++)); by apply async_footer_run) end.
  cbn [mbind res_bind].
  match goal with |- read_at ?f ?n ?p ≫= _ = _ =>
    assert (read_at f n p = Ok (table_index c)) as ->
      by (eapply read_at_app; [reflexivity | by apply read_index_run]) end.
  cbn [mbind res_bind]. rewrite (assoc_L (++)).
  erewrite read_at_app; [|by rewrite len_app|exact Hw]. reflexivity.
Qed.

Lemma get_block_serialized c i b key :
  table_wf c → SSTableCodec.blocks c !! i = Some b →
  kle (Block.first_key b) key → kle key (Block.last_key b) →
  SSTableCodec.get_block (SSTableCodec.serialize c).1 (footer_of c) (table_index c) key =
  Ok (at_offset 0 b).
Proof.
  intros Hc Hb Hk1 Hk2. pose proof (tw_blocks c Hc) as Hwf.
  pose proof (index_from_sorted 0 _ Hwf (tw_sorted c Hc)) as Hs. fold (table_index c) in Hs.
  pose proof (index_from_lookup 0 (SSTableCodec.blocks c) i) as Hi. rewrite Hb in Hi. simpl in Hi.
  fold (table_index c) in Hi.
  unfold SSTableCodec.get_block.
  erewrite get_block_search; [|exact Hs|exact Hi|by split]. cbn [mbind res_bind]. rewrite Hi.
  cbn [SparseIndexEntry.block_offset]. rewrite Z.add_0_l.
  set (off := len (blocks_bytes (take i (SSTableCodec.blocks c)))).
  assert ((match table_index c !! S i with
           | Some next => SparseIndexEntry.block_offset next
           | None => SSTableFooter.data_block_end (footer_of c) end <? off) = false) as ->.
  { apply Z.ltb_ge. unfold table_index. rewrite index_from_lookup.
    destruct (SSTableCodec.blocks c !! S i) as [b'|]; simpl; [|apply blocks_bytes_take].
    unfold off. rewrite (take_S_r _ _ _ Hb), blocks_bytes_app, len_app.
    pose proof (len_nonneg (blocks_bytes [b])). lia. }
  rewrite serialize_layout. cbn [fst].
  rewrite <- (take_drop_middle _ _ _ Hb) at 1. rewrite blocks_bytes_app, blocks_bytes_cons, <- !(assoc_L (++)).
  eapply read_at_app; [done|]. apply block_decode_encode. rewrite Forall_lookup in Hwf. eauto.
Qed.

Lemma get_all_blocks_serialized c :
  table_wf c →
  SSTableCodec.get_all_blocks (SSTableCodec.serialize c).1 (footer_of c) (table_index c) =
  Ok (at_offset 0 <$> SSTableCodec.blocks c).
Proof.
  intros Hc. unfold SSTableCodec.get_all_blocks.
  assert (∀ off bs, (∀ b, b ∈ bs → b ∈ SSTableCodec.blocks c) →
    SSTableCodec.get_blocks_of (SSTableCodec.serialize c).1 (footer_of c) (table_index c)
      (index_from off bs) = Ok (at_offset 0 <$> bs)) as Hall.
  { intros off bs. revert off. induction bs as [|b bs IH]; intros off Hin; [done|].
    cbn [index_from SSTableCodec.get_blocks_of SparseIndexEntry.first_key].
    pose proof (Hin b (list_elem_of_here _ _)) as [i Hi]%list_elem_of_lookup_1.
    assert (block_wf b) as Hb by (pose proof (tw_blocks c Hc) as Hw; rewrite Forall_lookup in Hw; eauto).
    rewrite (get_block_serialized c i b) by (auto using kle_refl, block_first_le_last).
    cbn [mbind res_bind]. rewrite IH; [done|]. intros b' Hb'. apply Hin. by right. }
  apply Hall. auto.
Qed.
End table.

(** ** Property *)

Section sstable_property.
Context `{Crc32Spec, FastBloomSpec}.

End sstable_property.

(** A one-block table. *)
Definition sample_table : @SSTableCodec.t toy_fastbloom :=
  @SSTableCodec.mk toy_fastbloom [sample_block] []
    (@insert_all toy_fastbloom
       (@BloomFilterWrapper.with_rate toy_fastbloom 12 (SpecFloat.S754_zero false)) [[x61]; [x62]]).

Lemma sample_table_wf : @table_wf ieee toy_fastbloom toy_fastbloom_spec sample_table.
Proof.
  split.
  - apply Forall_cons; split; [exact sample_block_wf | apply Forall_nil_2].
  - unfold keys_sorted. simpl. repeat constructor.
  - apply insert_all_wf, bloom_with_rate_wf.
  - vm_compute. discriminate.
Defined.

