(* ===== verification/Preflight.v ===== *)
(** * Structural validation of table files: [src/src/storage/sstable_preflight.rs]

    [validate] walks every length field of a table before anything is decoded
    from it.  The cursor of the source is a reader over the bytes it has left:
    [take] fails both when [position + length] overflows and when the range is
    out of bounds, with the same error. *)

From S2P Require Import Prelude Bytes OrdMap Search Record Block Bloom Index Footer LegacyBlock SSTable.

Definition corrupted : DBError := Corrupted "invalid SSTable serialized lengths".

(** ** The cursor *)

Module Cursor.
Definition take (n : Z) : reader bytes := λ bs,
  if len bs <? n then Err corrupted
  else Ok (firstn (Z.to_nat n) bs, drop (Z.to_nat n) bs).
Definition u32_be : reader Z := b ← take 4; mret (from_be b).
Definition u64_be : reader Z := b ← take 8; mret (from_be b).
Definition u32_le : reader Z := b ← take 4; mret (from_le b).
Definition finish : reader unit := λ bs,
  match bs with [] => Ok (tt, []) | _ => Err corrupted end.
End Cursor.

Record PIndexEntry : Type := mkPIndexEntry { pe_offset : Z; pe_record_count : Z }.

Definition check (b : bool) : reader unit := require b corrupted.

(** The loop over the index entries, carrying [previous_offset]. *)
Fixpoint check_entries (n : nat) (data_end : Z) (previous : option Z) : reader (list PIndexEntry) :=
  match n with
  | O => mret []
  | S n =>
      first_len ← Cursor.u64_be;
      _ ← Cursor.take first_len;
      offset ← Cursor.u64_be;
      last_len ← Cursor.u64_be;
      _ ← Cursor.take last_len;
      record_count ← Cursor.u32_be;
      _ ← check (negb ((data_end <=? offset)
                       || match previous with Some p => offset <=? p | None => false end));
      rest ← check_entries n data_end (Some offset);
      mret (mkPIndexEntry offset record_count :: rest)
  end.

Definition check_index (data_end index_len : Z) : reader (list PIndexEntry) :=
  count ← Cursor.u64_be;
  remaining ← lift (ok_or (checked_sub index_len 8) corrupted);
  _ ← check (negb (remaining / 28 <? count));
  entries ← check_entries (Z.to_nat count) data_end None;
  _ ← Cursor.finish;
  mret entries.

Definition check_bloom (bloom_len : Z) : reader unit :=
  _ ← Cursor.take 16;
  bit_count ← Cursor.u64_be;
  hashes ← Cursor.u32_be;
  words ← Cursor.u64_be;
  bitmap_bytes ← lift (ok_or (checked_mul words 8) corrupted);
  _ ← check (negb ((hashes =? 0) || (bit_count <? hashes) || (words =? 0) || (bit_count =? 0)));
  bits ← lift (ok_or (checked_add bit_count 63) corrupted);
  _ ← check (negb (negb (bits / 64 =? words)
                   || negb (bool_decide (checked_sub bloom_len 36 = Some bitmap_bytes))));
  _ ← Cursor.take bitmap_bytes;
  Cursor.finish.

Definition check_record : reader unit :=
  key_len ← Cursor.u32_le;
  _ ← Cursor.take key_len;
  value_len ← Cursor.u32_le;
  _ ← Cursor.take value_len;
  kind ← Cursor.take 1;
  _ ← check (match kind with [x01] | [x02] => true | _ => false end);
  _ ← Cursor.take 8;
  mret tt.

Definition check_block (entry : PIndexEntry) : reader unit :=
  first_len ← Cursor.u32_be;
  _ ← Cursor.take first_len;
  last_len ← Cursor.u32_be;
  _ ← Cursor.take last_len;
  block_count ← Cursor.u32_be;
  data_size ← Cursor.u32_be;
  _ ← check (negb (negb (block_count =? pe_record_count entry) || (data_size / 17 <? block_count)));
  records ← Cursor.take data_size;
  _ ← Cursor.take 4;
  _ ← Cursor.finish;
  _ ← lift ((_ ← read_many check_record (Z.to_nat block_count); Cursor.finish) records);
  mret tt.

(** The loop over [entries.iter().enumerate()]; a block ends where the next
    entry starts, the last one at the end of the data section. *)
Fixpoint check_blocks (file : bytes) (data_end : Z) (entries : list PIndexEntry) : res unit :=
  match entries with
  | [] => Ok tt
  | entry :: rest =>
      let end_ := match rest with next :: _ => pe_offset next | [] => data_end end in
      block ← ok_or (slice_get file (pe_offset entry) end_) corrupted;
      _ ← check_block entry block;
      check_blocks file data_end rest
  end.

Definition validate (file : bytes) (footer : SSTableFooter.t) : res unit :=
  let data_end := SSTableFooter.data_block_end footer in
  let index_start := SSTableFooter.index_block_start footer in
  let index_end := SSTableFooter.index_block_end footer in
  let bloom_start := SSTableFooter.bloom_block_start footer in
  let bloom_end := SSTableFooter.bloom_block_end footer in
  if negb (SSTableFooter.data_block_start footer =? 0)
     || negb (data_end =? index_start)
     || (index_end <? index_start)
     || negb (index_end =? bloom_start)
     || (bloom_end <? bloom_start)
     || negb (bool_decide (checked_add bloom_end FOOTER_SIZE = Some (len file)))
  then Err corrupted
  else
    index_bytes ← ok_or (slice_get file index_start index_end) corrupted;
    '(entries, _) ← check_index data_end (len index_bytes) index_bytes;
    bloom ← ok_or (slice_get file bloom_start bloom_end) corrupted;
    _ ← check_bloom (len bloom) bloom;
    check_blocks file data_end entries.

(** ** Errors: nothing but [corrupted], and no panic *)

Definition tame_res {A} (m : res A) : Prop := m = Err corrupted ∨ is_Ok m.
Definition tame {A} (p : reader A) : Prop := ∀ bs, tame_res (p bs).

Lemma tame_res_bind {A B} (m : res A) (f : A → res B) :
  tame_res m → (∀ a, tame_res (f a)) → tame_res (m ≫= f).
Proof. intros [-> | [a ->]] Hf; [by left | apply Hf]. Qed.
Lemma tame_bind {A B} (p : reader A) (f : A → reader B) :
  tame p → (∀ a, tame (f a)) → tame (p ≫= f).
Proof.
  intros Hp Hf bs. unfold mbind, reader_bind. destruct (Hp bs) as [-> | [[a r] ->]]; [by left | apply Hf].
Qed.
Lemma tame_ret {A} (a : A) : tame (mret a).
Proof. intros bs. right. eexists. done. Qed.
Lemma tame_take n : tame (Cursor.take n).
Proof. intros bs. unfold Cursor.take. case_match; [by left | right; eexists; done]. Qed.
Lemma tame_check b : tame (check b).
Proof. intros bs. destruct b; [right; by eexists | by left]. Qed.
Lemma tame_finish : tame Cursor.finish.
Proof. intros [|b bs]; [right; by eexists | by left]. Qed.
Lemma tame_ok_or {A} (o : option A) : tame_res (ok_or o corrupted).
Proof. destruct o; [right; by eexists | by left]. Qed.
Lemma tame_lift {A} (m : res A) : tame_res m → tame (lift m).
Proof. intros [-> | [a ->]] bs; [by left | right; by eexists]. Qed.
Lemma tame_read_many {A} (p : reader A) n : tame p → tame (read_many p n).
Proof. intros Hp. induction n; simpl; eauto using tame_ret, tame_bind. Qed.
Create HintDb tame.
#[local] Hint Resolve tame_ret tame_take tame_check tame_finish tame_ok_or tame_lift tame_bind
  tame_res_bind tame_read_many : tame.
Lemma tame_u32_be : tame Cursor.u32_be.
Proof. unfold Cursor.u32_be. auto with tame. Qed.
Lemma tame_u64_be : tame Cursor.u64_be.
Proof. unfold Cursor.u64_be. auto with tame. Qed.
Lemma tame_u32_le : tame Cursor.u32_le.
Proof. unfold Cursor.u32_le. auto with tame. Qed.
#[local] Hint Resolve tame_u32_be tame_u64_be tame_u32_le : tame.

Ltac tame := repeat first [ apply tame_bind; [|intros ?] | solve [auto with tame] ].

Lemma tame_check_entries n e p : tame (check_entries n e p).
Proof. revert p. induction n as [|n IH]; intros p; cbn [check_entries]; tame. Qed.
Lemma tame_check_index e l : tame (check_index e l).
Proof. unfold check_index. pose proof tame_check_entries. tame. Qed.
Lemma tame_check_bloom l : tame (check_bloom l).
Proof. unfold check_bloom. tame. Qed.
Lemma tame_check_record : tame check_record.
Proof. unfold check_record. tame. Qed.
Lemma tame_check_block e : tame (check_block e).
Proof.
  unfold check_block. pose proof tame_check_record. tame. apply tame_lift.
  assert (tame (_ ← read_many check_record (Z.to_nat a3); Cursor.finish)) as Ht by tame. apply Ht.
Qed.
Lemma tame_check_blocks file e es : tame_res (check_blocks file e es).
Proof.
  induction es as [|x es IH]; cbn [check_blocks]; [right; by eexists|].
  apply tame_res_bind; [apply tame_ok_or|]. intros a. apply tame_res_bind; [apply tame_check_block | done].
Qed.
Lemma tame_validate file footer : tame_res (validate file footer).
Proof.
  unfold validate. case_match; [by left|].
  apply tame_res_bind; [apply tame_ok_or|]. intros ix.
  apply tame_res_bind; [apply tame_check_index|]. intros [es r].
  apply tame_res_bind; [apply tame_ok_or|]. intros bl.
  apply tame_res_bind; [apply tame_check_bloom|]. intros _. apply tame_check_blocks.
Qed.

(** ** Cursor steps *)

Lemma cursor_take_run x r n : n = len x → Cursor.take n (x ++ r) = Ok (x, r).
Proof.
  intros ->. unfold Cursor.take. rewrite len_app. pose proof (len_nonneg r).
  destruct (Z.ltb_spec (len x + len r) (len x)); [lia|]. unfold len.
  by rewrite Nat2Z.id, take_app_length, drop_app_length.
Qed.
Lemma cursor_take_inv n bs x r :
  0 <= n → Cursor.take n bs = Ok (x, r) → bs = x ++ r ∧ len x = n.
Proof.
  intros Hn. unfold Cursor.take. destruct (Z.ltb_spec (len bs) n); [done|]. intros [= <- <-].
  rewrite take_drop. split; [done|]. apply len_take_drop. lia.
Qed.
Lemma cursor_u64_run z r : is_u64 z → Cursor.u64_be (to_be 8 z ++ r) = Ok (z, r).
Proof.
  intros Hz%u64_bound. unfold Cursor.u64_be. erewrite reader_bind_run; [|by apply cursor_take_run; rewrite len_to_be].
  unfold mret, reader_ret. by rewrite from_to_be.
Qed.
Lemma cursor_u32_run z r : is_u32 z → Cursor.u32_be (to_be 4 z ++ r) = Ok (z, r).
Proof.
  intros Hz%u32_bound. unfold Cursor.u32_be. erewrite reader_bind_run; [|by apply cursor_take_run; rewrite len_to_be].
  unfold mret, reader_ret. by rewrite from_to_be.
Qed.
Lemma cursor_u32_le_run z r : is_u32 z → Cursor.u32_le (to_le 4 z ++ r) = Ok (z, r).
Proof.
  intros Hz%u32_bound. unfold Cursor.u32_le. erewrite reader_bind_run; [|by apply cursor_take_run; rewrite len_to_le].
  unfold mret, reader_ret. by rewrite from_to_le.
Qed.
Lemma cursor_u64_inv bs z r : Cursor.u64_be bs = Ok (z, r) → bs = to_be 8 z ++ r ∧ is_u64 z.
Proof.
  unfold Cursor.u64_be. intros (x & r' & [-> Hx]%cursor_take_inv & [<- <-]%reader_ret_Ok)%reader_bind_Ok; [|lia].
  unfold len in Hx. replace 8%nat with (length x) by lia. rewrite to_from_be, u64_bound.
  replace 8%nat with (length x) by lia. split; [done | apply from_be_range].
Qed.
Lemma cursor_u32_inv bs z r : Cursor.u32_be bs = Ok (z, r) → bs = to_be 4 z ++ r ∧ is_u32 z.
Proof.
  unfold Cursor.u32_be. intros (x & r' & [-> Hx]%cursor_take_inv & [<- <-]%reader_ret_Ok)%reader_bind_Ok; [|lia].
  unfold len in Hx. replace 4%nat with (length x) by lia. rewrite to_from_be, u32_bound.
  replace 4%nat with (length x) by lia. split; [done | apply from_be_range].
Qed.
Lemma cursor_u32_le_inv bs z r : Cursor.u32_le bs = Ok (z, r) → bs = to_le 4 z ++ r ∧ is_u32 z.
Proof.
  unfold Cursor.u32_le. intros (x & r' & [-> Hx]%cursor_take_inv & [<- <-]%reader_ret_Ok)%reader_bind_Ok; [|lia].
  unfold len in Hx. replace 4%nat with (length x) by lia. rewrite to_from_le, u32_bound.
  replace 4%nat with (length x) by lia. split; [done | apply from_le_range].
Qed.
Lemma cursor_finish_inv bs u r : Cursor.finish bs = Ok (u, r) → bs = [] ∧ r = [].
Proof. destruct bs; [|done]. by intros [= _ <-]. Qed.

(** Inverts a successful run of the checks into the bytes it walked over. *)
Ltac inv_cursor :=
  repeat match goal with
    | H : Cursor.take _ _ = Ok (_, _) |- _ =>
        apply cursor_take_inv in H; [destruct H as [? ?] | side]
    | H : Cursor.u64_be _ = Ok (_, _) |- _ => apply cursor_u64_inv in H; destruct H as [? ?]
    | H : Cursor.u32_be _ = Ok (_, _) |- _ => apply cursor_u32_inv in H; destruct H as [? ?]
    | H : Cursor.u32_le _ = Ok (_, _) |- _ => apply cursor_u32_le_inv in H; destruct H as [? ?]
    | H : Cursor.finish _ = Ok (_, _) |- _ => apply cursor_finish_inv in H; destruct H as [? ?]
    | H : check _ _ = Ok (_, _) |- _ => apply require_Ok in H; destruct H as [? ?]
    | |- _ => progress inv_reader
    end; subst.

(** ** What a successful check says about the decoders *)

Lemma check_record_inv bs u r :
  check_record bs = Ok (u, r) → ∃ rec, MemtableRecord.decode bs = Ok (rec, r).
Proof.
  unfold check_record. intros Hd. inv_cursor.
  match goal with H : match ?k with _ => _ end = true |- _ =>
    assert (∃ t, k = [record_type_u8 t]) as [t ->] end.
  { destruct x7 as [|[] [|]]; try done; [by exists Put | by exists Delete]. }
  match goal with H : len ?x = 8 |- _ =>
    assert (x = to_le 8 (from_le x)) as Ex
      by (unfold len in H; replace 8%nat with (length x) by lia; by rewrite to_from_le);
    pose proof (from_le_range x) as Hx; unfold len in H;
    replace (length x) with 8%nat in Hx by lia; apply u64_bound in Hx; rewrite Ex; clear Ex end.
  eexists (MemtableRecord.mk t _ _ _). unfold MemtableRecord.decode. run_reader. done.
Qed.

Lemma read_many_sim {A B} (p : reader A) (q : reader B) n bs l r :
  (∀ bs a r, p bs = Ok (a, r) → ∃ b, q bs = Ok (b, r)) →
  read_many p n bs = Ok (l, r) → ∃ l', read_many q n bs = Ok (l', r).
Proof.
  intros Hpq. revert bs l r. induction n as [|n IH]; intros bs l r; simpl.
  - intros [<- <-]%reader_ret_Ok. by exists [].
  - intros (a & r1 & [b Hb]%Hpq & (l1 & r2 & [l' Hl']%IH & [<- <-]%reader_ret_Ok)%reader_bind_Ok)%reader_bind_Ok.
    exists (b :: l'). rewrite (reader_bind_run _ _ _ _ _ Hb). by rewrite (reader_bind_run _ _ _ _ _ Hl').
Qed.

Section soundness.
Context `{Crc32Spec}.

(** A checked block decodes, unless its checksum is wrong. *)
Lemma check_block_sound entry block u r rest :
  check_block entry block = Ok (u, r) →
  (∃ b, Block.async_decode (block ++ rest) = Ok (b, rest) ∧
        Block.record_count b = pe_record_count entry) ∨
  Block.async_decode (block ++ rest) = Err (Corrupted "CRC32 mismatch").
Proof.
  unfold check_block. intros Hd. inv_cursor.
  match goal with H : negb _ = true |- _ =>
    rewrite negb_true_iff, orb_false_iff, negb_false_iff in H; destruct H as [?%Z.eqb_eq _] end.
  match goal with H : _ = Ok ?x |- _ => is_var x; destruct x as [u' r'] end. inv_cursor.
  match goal with H : read_many check_record _ _ = Ok _ |- _ =>
    eapply (read_many_sim _ MemtableRecord.decode) in H as [recs Hrecs]; [|apply check_record_inv] end.
  match goal with H : len ?x = 4 |- _ =>
    assert (x = to_be 4 (from_be x)) as Ex
      by (unfold len in H; replace 4%nat with (length x) by lia; by rewrite to_from_be);
    pose proof (from_be_range x) as Hx; unfold len in H;
    replace (length x) with 4%nat in Hx by lia; apply u32_bound in Hx; rewrite Ex; clear Ex end.
  unfold Block.async_decode, Block.decode_at. rewrite app_nil_r. norm_app. do 8 step_reader.
  unfold verify_crc32. destruct (_ =? _).
  - left. eexists. split.
    + erewrite reader_bind_run; [|by apply lift_run].
      erewrite reader_bind_run; [|by apply lift_run]. unfold mret, reader_ret. done.
    + done.
  - right. done.
Qed.

Definition pe_of (e : SparseIndexEntry.t) : PIndexEntry :=
  mkPIndexEntry (SparseIndexEntry.block_offset e) (SparseIndexEntry.record_count e).

Lemma check_entries_inv n data_end prev bs es r :
  len bs <= isize_max → check_entries n data_end prev bs = Ok (es, r) →
  ∃ es', bs = concat (SparseIndexEntry.encode <$> es') ++ r ∧ length es' = n ∧
    Forall sparse_entry_ok es' ∧ es = pe_of <$> es'.
Proof.
  revert prev bs es r. induction n as [|n IH]; intros prev bs es r Hl; cbn [check_entries].
  { intros [<- <-]%reader_ret_Ok. by exists []. }
  intros Hd. inv_cursor.
  match goal with H : check_entries _ _ _ ?b = Ok _ |- _ =>
    assert (len b <= isize_max) as Hb by (autorewrite with len in Hl; unfold len in *; lia);
    apply (IH _ _ _ _ Hb) in H as (es' & -> & <- & Hok & ->) end.
  match goal with |- ∃ es', to_be 8 (len ?f) ++ _ ++ to_be 8 ?o ++ _ ++ ?l ++ to_be 4 ?c ++ _ = _ ∧ _ =>
    exists (SparseIndexEntry.mk f o l c :: es') end.
  rewrite fmap_cons. cbn [concat]. unfold SparseIndexEntry.encode at 2. simpl. norm_app.
  split_and!; try done. constructor; [|done].
  unfold sparse_entry_ok; simpl. autorewrite with len in Hl. unfold len in *. split_and!; (done || lia).
Qed.

Lemma slice_get_Some (file : bytes) a b x :
  0 <= a → slice_get file a b = Some x →
  ∃ pre post, file = pre ++ x ++ post ∧ len pre = a ∧ len x = b - a.
Proof.
  intros Ha. unfold slice_get. destruct ((a <=? b) && (b <=? len file)) eqn:E; [|done].
  apply andb_true_iff in E as [?%Z.leb_le ?%Z.leb_le]. intros [= <-].
  exists (firstn (Z.to_nat a) file), (drop (Z.to_nat (b - a)) (drop (Z.to_nat a) file)).
  rewrite !take_drop. split; [done|]. unfold len in *. rewrite !length_take, length_drop. lia.
Qed.

(** The verdict on one block: it decodes with the indexed record count, or
    only its checksum is wrong. *)
Definition block_decodes (file : bytes) (e : SparseIndexEntry.t) : Prop :=
  (∃ b, read_at file (SparseIndexEntry.block_offset e) Block.async_decode = Ok b ∧
        Block.record_count b = SparseIndexEntry.record_count e) ∨
  read_at file (SparseIndexEntry.block_offset e) Block.async_decode =
    Err (Corrupted "CRC32 mismatch").

Lemma check_blocks_sound file data_end es u :
  Forall sparse_entry_ok es → check_blocks file data_end (pe_of <$> es) = Ok u →
  Forall (block_decodes file) es.
Proof.
  induction 1 as [|e es He Hes IH]; [done|]. rewrite fmap_cons. cbn [check_blocks].
  intros (block & Hb%ok_or_Ok & ([u' r] & Hc & Hrest)%res_bind_Ok)%res_bind_Ok.
  constructor; [|by apply IH].
  apply slice_get_Some in Hb as (pre & post & -> & Hpre & _); [|apply He].
  simpl in Hpre. unfold block_decodes, read_at. rewrite <- Hpre. unfold len. rewrite Nat2Z.id, drop_app_length.
  destruct (check_block_sound _ _ _ _ post Hc) as [(b & -> & Hn) | ->]; [left|by right].
  exists b. done.
Qed.

Lemma validate_inv file footer :
  validate file footer = Ok tt → footer_ok footer →
  SSTableFooter.data_block_end footer = SSTableFooter.index_block_start footer ∧
  SSTableFooter.bloom_block_end footer + FOOTER_SIZE = len file ∧
  ∃ ix es r, slice_get file (SSTableFooter.index_block_start footer)
             (SSTableFooter.index_block_end footer) = Some ix ∧
    check_index (SSTableFooter.data_block_end footer) (len ix) ix = Ok (es, r) ∧
    check_blocks file (SSTableFooter.data_block_end footer) es = Ok tt.
Proof.
  intros Hv Hf. unfold validate in Hv. case_match eqn:E; [done|].
  rewrite !orb_false_iff, !negb_false_iff in E.
  destruct E as (((((_ & ?%Z.eqb_eq) & _) & _) & _) & Hl%bool_decide_eq_true).
  unfold checked_add in Hl. case_match; [|done]. injection Hl as Hl.
  split; [done|]. split; [done|].
  apply res_bind_Ok in Hv as (ix & Hix%ok_or_Ok & Hv).
  apply res_bind_Ok in Hv as ([es r] & Hes & Hv).
  apply res_bind_Ok in Hv as (bl & _ & Hv). apply res_bind_Ok in Hv as (u & _ & Hv).
  eauto 8.
Qed.

Lemma validate_decodes file footer :
  len file <= isize_max → footer_ok footer → validate file footer = Ok tt →
  ∃ es, read_at file (SSTableFooter.data_block_end footer)
          (index_len ← read_u64_be; read_many SparseIndexEntry.async_decode (Z.to_nat index_len))
        = Ok es ∧ Forall (block_decodes file) es.
Proof.
  intros Hl Hf Hv. destruct (validate_inv _ _ Hv Hf) as (Hd & _ & ix & es & r & Hix & Hes & Hbs).
  unfold check_index in Hes. inv_cursor.
  pose proof Hf as (_ & _ & His & _).
  apply slice_get_Some in Hix as (pre & post & -> & Hpre & _); [|apply His].
  match goal with H : check_entries _ _ _ _ = Ok _ |- _ =>
    apply check_entries_inv in H as (es' & -> & Hn & Hok & ->) end.
  2: { autorewrite with len in Hl. unfold len in *. lia. }
  exists es'. split; [|by eapply check_blocks_sound].
  rewrite Hd, <- Hpre. eapply read_at_app; [done|]. norm_app. step_reader. rewrite <- Hn.
  by apply sparse_entries_run.
Qed.
End soundness.

(** ** Every table the writer produces passes *)

Section acceptance.
Context `{Crc32Spec, FastBloomSpec}.

Ltac step_cursor :=
  erewrite reader_bind_run;
  [| lazymatch goal with
     | |- Cursor.u64_be _ = _ => apply cursor_u64_run; side
     | |- Cursor.u32_be _ = _ => apply cursor_u32_run; side
     | |- Cursor.u32_le _ = _ => apply cursor_u32_le_run; side
     | |- Cursor.take _ _ = _ => apply cursor_take_run; side
     end ]; cbv beta.

Lemma check_record_run r rest :
  rec_ok r →
  check_record (MemtableRecord.encode r (MemtableRecord.key r) ++ rest) = Ok (tt, rest).
Proof.
  destruct r as [t n k v]. intros [(Hn & Hk & Hv) _]. simpl in *.
  unfold check_record, MemtableRecord.encode; simpl.
  pose proof (len_nonneg k). pose proof (len_nonneg v). rewrite !wrap32_id by word_lia.
  change (record_type_u8 t :: to_le 8 n) with ([record_type_u8 t] ++ to_le 8 n).
  rewrite <- !(assoc_L (++)). do 5 step_cursor.
  erewrite reader_bind_run; [|by apply require_run; destruct t]. step_cursor. done.
Qed.

Lemma check_block_run b off :
  block_wf b → check_block (mkPIndexEntry off (Block.record_count b)) (Block.encode b) = Ok (tt, []).
Proof.
  intros Hwf. pose proof (block_wf_sizes b Hwf) as (Hrc & Hds & Hf & Hl).
  destruct Hwf as [Hd _ Hok _ Hc Hs _ _ _].
  unfold check_block, Block.encode, Block.header. rewrite Hd.
  pose proof (len_nonneg (Block.first_key b)). pose proof (len_nonneg (Block.last_key b)).
  rewrite !wrap32_id by word_lia. pose proof (encode_records_len (block_records b)) as Hel.
  rewrite <- !(assoc_L (++)). do 6 step_cursor.
  pose proof (records_size_len (block_records b)).
  erewrite reader_bind_run; [|apply require_run].
  2: { simpl. rewrite Z.eqb_refl. simpl. apply negb_true_iff, Z.ltb_ge. rewrite Hc, Hs.
       apply Z.div_le_lower_bound; lia. }
  erewrite reader_bind_run; [|apply cursor_take_run; by rewrite Hel]. cbv beta.
  erewrite reader_bind_run; [|rewrite <- (app_nil_r (to_be 4 _)); apply cursor_take_run; by rewrite len_to_be].
  erewrite reader_bind_run; [|done].
  assert ((_ ← read_many check_record (Z.to_nat (Block.record_count b)); Cursor.finish)
            (Block.encode_records (block_records b)) = Ok (tt, [])) as Hrec.
  { rewrite Hc. unfold len. rewrite Nat2Z.id.
    rewrite <- (app_nil_r (Block.encode_records _)). unfold Block.encode_records.
    erewrite reader_bind_run; [|apply (read_many_run check_record _ (λ _, tt))]; [done|].
    eapply Forall_impl; [exact Hok|]. intros r Hr rest. by apply check_record_run. }
  erewrite reader_bind_run; [|by apply lift_run]. done.
Qed.

Lemma block_encode_pos b : block_wf b → 20 <= len (Block.encode b).
Proof.
  intros Hwf. rewrite block_encode_len by apply Hwf.
  pose proof (len_nonneg (Block.first_key b)). pose proof (len_nonneg (Block.last_key b)).
  pose proof (records_size_len (block_records b)). pose proof (len_nonneg (block_records b)). lia.
Qed.

Lemma check_entries_run bs off prev data_end rest :
  Forall block_wf bs → Forall sparse_entry_ok (index_from off bs) →
  match prev with Some p => p < off | None => True end →
  off + len (blocks_bytes bs) = data_end →
  check_entries (length bs) data_end prev
    (concat (SparseIndexEntry.encode <$> index_from off bs) ++ rest) =
  Ok (pe_of <$> index_from off bs, rest).
Proof.
  intros Hwf. revert off prev. induction Hwf as [|b bs Hb Hbs IH]; intros off prev Hok Hp Hend; [done|].
  cbn [index_from] in *. apply Forall_cons_1 in Hok as [(Hf & Hl & Ho & Hc) Hok]. simpl in Hf, Hl, Ho, Hc.
  rewrite blocks_bytes_cons, len_app in Hend. pose proof (block_encode_pos b Hb).
  pose proof (len_nonneg (blocks_bytes bs)).
  pose proof (len_nonneg (Block.first_key b)). pose proof (len_nonneg (Block.last_key b)).
  rewrite !fmap_cons. cbn [concat length check_entries]. unfold SparseIndexEntry.encode at 1; cbn [SparseIndexEntry.first_key SparseIndexEntry.last_key SparseIndexEntry.block_offset SparseIndexEntry.record_count].
  rewrite <- !(assoc_L (++)). do 6 step_cursor.
  erewrite reader_bind_run; [|apply require_run].
  2: { apply negb_true_iff, orb_false_iff. split; [apply Z.leb_gt; lia|].
       destruct prev; [apply Z.leb_gt; lia | done]. }
  erewrite reader_bind_run; [|apply IH; [done | lia | lia]]. done.
Qed.

Lemma index_bytes_len es : 8 + 28 * len es <= len (encode_index es).
Proof.
  unfold encode_index. autorewrite with len.
  enough (28 * len es <= len (concat (SparseIndexEntry.encode <$> es))) by lia.
  induction es as [|e es IH]; [done|]. rewrite fmap_cons. cbn [concat].
  rewrite len_app, len_cons, sparse_entry_len.
  pose proof (len_nonneg (SparseIndexEntry.first_key e)).
  pose proof (len_nonneg (SparseIndexEntry.last_key e)). lia.
Qed.
Lemma check_index_run bs :
  Forall block_wf bs → Forall sparse_entry_ok (index_from 0 bs) → len (index_from 0 bs) <= isize_max →
  check_index (len (blocks_bytes bs)) (len (encode_index (index_from 0 bs)))
    (encode_index (index_from 0 bs)) = Ok (pe_of <$> index_from 0 bs, []).
Proof.
  intros Hwf Hok Hl. pose proof (index_bytes_len (index_from 0 bs)) as Hle.
  pose proof (len_nonneg (index_from 0 bs)). unfold check_index.
  unfold encode_index at 2. rewrite <- (app_nil_r (concat _)). step_cursor.
  unfold checked_sub. rewrite (proj2 (Z.leb_le _ _)) by lia.
  erewrite reader_bind_run; [|by apply lift_run].
  erewrite reader_bind_run; [|apply require_run].
  2: { apply negb_true_iff, Z.ltb_ge, Z.div_le_lower_bound; lia. }
  unfold len at 1. rewrite Nat2Z.id, index_from_length.
  erewrite reader_bind_run; [|by apply check_entries_run]. done.
Qed.

Lemma check_bloom_run w :
  bloom_wf w → bloom_shape w →
  check_bloom (len (BloomFilterWrapper.encode w)) (BloomFilterWrapper.encode w) = Ok (tt, []).
Proof.
  intros [Hs _] (Hh & Hb & Hw). rewrite bloom_encode_len.
  set (f := BloomFilterWrapper.filter w) in *.
  pose proof (bf_words_len f). pose proof (len_nonneg (bf_as_slice f)).
  pose proof (bf_num_bits_u64 f). pose proof (bf_num_hashes_u32 f).
  assert (1 <= len (bf_as_slice f)) by (rewrite <- Hw; apply Z.div_le_lower_bound; lia).
  unfold check_bloom, BloomFilterWrapper.encode. fold f. rewrite <- (app_nil_r (_ ++ _)), <- !(assoc_L (++)).
  do 4 step_cursor. unfold checked_mul, checked_add, checked_sub.
  rewrite (proj2 (Z.leb_le (len (bf_as_slice f) * 8) _)) by word_lia.
  rewrite (proj2 (Z.leb_le (bf_num_bits f + 63) _)) by lia.
  rewrite (proj2 (Z.leb_le 36 _)) by lia.
  erewrite reader_bind_run; [|by apply lift_run].
  erewrite reader_bind_run; [|apply require_run].
  2: { apply negb_true_iff. rewrite !orb_false_iff, !Z.eqb_neq, Z.ltb_ge. lia. }
  erewrite reader_bind_run; [|by apply lift_run].
  erewrite reader_bind_run; [|apply require_run].
  2: { rewrite Hw, Z.eqb_refl, bool_decide_true; [done|]. f_equal. lia. }
  erewrite reader_bind_run; [|apply cursor_take_run].
  2: { assert (∀ ws, len (concat (to_be 8 <$> ws)) = 8 * len ws) as ->; [|lia].
       induction ws; [done|]. rewrite fmap_cons. cbn [concat]. autorewrite with len. rewrite IHws. lia. }
  done.
Qed.

Lemma slice_get_app x y z a b :
  a = len x → b = len x + len y → slice_get (x ++ y ++ z) a b = Some y.
Proof.
  intros -> ->. unfold slice_get. autorewrite with len.
  pose proof (len_nonneg x). pose proof (len_nonneg y). pose proof (len_nonneg z).
  rewrite (proj2 (Z.leb_le _ _)), (proj2 (Z.leb_le _ _)) by lia. simpl. f_equal.
  replace (len x + len y - len x) with (len y) by lia.
  unfold len. by rewrite !Nat2Z.id, drop_app_length, take_app_length.
Qed.

Lemma check_blocks_run pre bs post :
  Forall block_wf bs →
  check_blocks (pre ++ blocks_bytes bs ++ post) (len pre + len (blocks_bytes bs))
    (pe_of <$> index_from (len pre) bs) = Ok tt.
Proof.
  intros Hwf. revert pre. induction Hwf as [|b bs Hb Hbs IH]; intros pre; [done|].
  cbn [index_from]. rewrite fmap_cons. cbn [check_blocks pe_of pe_offset SparseIndexEntry.block_offset SparseIndexEntry.record_count].
  rewrite blocks_bytes_cons, <- (assoc_L (++)), len_app.
  assert (match pe_of <$> index_from (len pre + len (Block.encode b)) bs with
          | [] => len pre + (len (Block.encode b) + len (blocks_bytes bs))
          | next :: _ => pe_offset next end = len pre + len (Block.encode b)) as ->.
  { destruct bs; simpl; [|done]. change (blocks_bytes []) with (@nil byte). rewrite len_nil. lia. }
  rewrite slice_get_app by done. cbn [ok_or mbind res_bind].
  change (pe_of (SparseIndexEntry.mk _ (len pre) _ _))
    with (mkPIndexEntry (len pre) (Block.record_count b)).
  rewrite check_block_run by done. cbn [mbind res_bind].
  specialize (IH (pre ++ Block.encode b)). rewrite len_app, <- !(assoc_L (++)) in IH.
  by rewrite Z.add_assoc.
Qed.
End acceptance.

Section preflight_properties.
Context `{Crc32Spec, FastBloomSpec}.

Lemma validate_serialized c :
  table_wf c → bloom_shape (SSTableCodec.bloom c) →
  validate (SSTableCodec.serialize c).1 (SSTableCodec.serialize c).2 = Ok tt.
Proof.
  intros Hc Hsh. pose proof (index_len_ok c Hc). pose proof (index_from_entries_ok c Hc) as Hok.
  pose proof (tw_size c Hc) as Hsz. rewrite serialize_layout in Hsz |- *. cbn [fst snd] in *.
  pose proof (check_blocks_run [] (SSTableCodec.blocks c)
    (encode_index (index_from 0 (SSTableCodec.blocks c)) ++ BloomFilterWrapper.encode (SSTableCodec.bloom c)
     ++ SSTableFooter.encode (footer_of c)) (tw_blocks c Hc)) as Hbl.
  change (len (@nil byte)) with 0 in Hbl. rewrite Z.add_0_l in Hbl. cbn [app] in Hbl.
  set (db := blocks_bytes (SSTableCodec.blocks c)) in *.
  set (ib := encode_index (index_from 0 (SSTableCodec.blocks c))) in *.
  set (bb := BloomFilterWrapper.encode (SSTableCodec.bloom c)) in *.
  pose proof (len_nonneg db). pose proof (len_nonneg ib). pose proof (len_nonneg bb).
  pose proof (footer_encode_len (footer_of c)) as Hfl. rewrite !len_app, Hfl in Hsz.
  set (fb := SSTableFooter.encode (footer_of c)) in *.
  unfold validate. cbn [footer_of SSTableFooter.data_block_start SSTableFooter.data_block_end
    SSTableFooter.index_block_start SSTableFooter.index_block_end
    SSTableFooter.bloom_block_start SSTableFooter.bloom_block_end]. fold db ib bb.
  rewrite !Z.eqb_refl. cbn [negb orb].
  rewrite (proj2 (Z.ltb_ge (len db + len ib) (len db))) by lia.
  rewrite (proj2 (Z.ltb_ge (len db + len ib + len bb) (len db + len ib))) by lia.
  rewrite bool_decide_true.
  2: { unfold checked_add. rewrite (proj2 (Z.leb_le _ _)) by word_lia. f_equal. autorewrite with len. lia. }
  cbn [negb orb].
  rewrite (slice_get_app db ib (bb ++ fb) (len db)) by lia. cbn [ok_or mbind res_bind].
  assert (check_index (len db) (len ib) ib = Ok (pe_of <$> table_index c, [])) as ->.
  { apply check_index_run; [apply Hc | exact Hok | done]. }
  cbn [mbind res_bind]. rewrite (assoc_L (++) db ib), slice_get_app by (rewrite len_app; lia).
  cbn [ok_or mbind res_bind]. pose proof (check_bloom_run _ (tw_bloom c Hc) Hsh) as Hbm. fold bb in Hbm.
  rewrite Hbm. cbn [mbind res_bind].
  rewrite <- (assoc_L (++)). exact Hbl.
Qed.

(** Validation never panics and reports every defect with the same
    [Corrupted] error, whatever bytes and footer it is given. *)
Theorem validate_total file footer :
  validate file footer = Ok tt ∨ validate file footer = Err corrupted.
Proof. destruct (tame_validate file footer) as [?|[[] ?]]; auto. Qed.


(** C25.  Validation is complete for the writer: every serialized table
    passes. *)
Theorem validate_accepts_serialized c :
  table_wf c → bloom_shape (SSTableCodec.bloom c) →
  validate (SSTableCodec.serialize c).1 (SSTableCodec.serialize c).2 = Ok tt.
Proof. apply validate_serialized. Qed.
End preflight_properties.

(** ** Witnesses *)

Definition sample_file : bytes := (@SSTableCodec.serialize ieee toy_fastbloom sample_table).1.
Definition sample_footer : SSTableFooter.t :=
  (@SSTableCodec.serialize ieee toy_fastbloom sample_table).2.


Lemma validate_accepts_serialized_witness : validate sample_file sample_footer = Ok tt.
Proof.
  apply (@validate_accepts_serialized ieee toy_fastbloom toy_fastbloom_spec sample_table
           sample_table_wf).
  vm_compute. repeat split; discriminate.
Defined.
