(* ===== verification/WalFormat.v ===== *)
(** * The write-ahead log format

    The byte formats of [src/src/storage/recovermanager/wal.rs] and
    [log_store.rs]: replicated commands, transaction frames with their two
    checksums, segment headers, legacy records and the 94-byte value
    references.  Decoders are readers over the bytes that remain, as the
    [Decoder] of the source. *)

From S2P Require Import Prelude Bytes Record.

Definition LEGACY_WAL_VERSION : Z := 1.
Definition WAL_VERSION : Z := 2.
Definition WAL_HEADER_SIZE : Z := 36.
(** [b"WALMGIC\0"] *)
Definition WAL_MAGIC : bytes := [x57; x41; x4c; x4d; x47; x49; x43; x00].
Definition MAX_FRAME_SIZE : Z := 67108864.
Definition FRAME_HEADER_SIZE : Z := 20.
Definition MAX_GROUP_COUNT : Z := 1024.
Definition MAX_GROUP_ENCODED_SIZE : Z := 268435456.
Definition WAL_VALUE_REF_VERSION : byte := x01.
Definition WAL_VALUE_REF_ENCODED_SIZE : Z := 94.
Definition MIN_WAL_UPDATE_FRAME_SIZE : Z := FRAME_HEADER_SIZE + 42.
Definition MAX_WAL_UPDATE_FRAME_SIZE : Z := FRAME_HEADER_SIZE + MAX_FRAME_SIZE.

(** ** Commands: [log_store.rs] *)

Module LogCommand.
Record t : Type := mk { record_type : RecordType; key : bytes; value : bytes; lsn : Z }.

Definition serialize (c : t) : bytes :=
  [record_type_u8 (record_type c)]
  ++ to_le 8 (len (key c)) ++ key c
  ++ to_le 8 (len (value c)) ++ value c
  ++ to_le 8 (lsn c).

(** Slice-based, so short input panics instead of failing. *)
Definition deserialize (data : bytes) : res t :=
  type_byte ← byte_at data 0;
  record_type ← Record.decode_type type_byte;
  key_len ← from_le <$> slice data 1 9;
  key ← slice data 9 (wrap64 (9 + key_len));
  let value_len_start := wrap64 (9 + key_len) in
  value_len ← from_le <$> slice data value_len_start (wrap64 (value_len_start + 8));
  value ← slice data (wrap64 (value_len_start + 8))
            (wrap64 (wrap64 (value_len_start + 8) + value_len));
  let lsn_start := wrap64 (wrap64 (value_len_start + 8) + value_len) in
  lsn ← from_le <$> slice data lsn_start (wrap64 (lsn_start + 8));
  mret (mk record_type key value lsn).
End LogCommand.
#[export] Instance LogCommand_eq_dec : EqDecision LogCommand.t.
Proof. solve_decision. Defined.

(** ** Frames *)

Inductive TransactionRecord : Type :=
| Update (command : LogCommand.t)
| Commit.

Module Frame.
Record t : Type := mk {
  lsn : Z;
  transaction_id : Z;
  previous_lsn : Z;
  record : TransactionRecord
}.
End Frame.
#[export] Instance TransactionRecord_eq_dec : EqDecision TransactionRecord.
Proof. solve_decision. Defined.
#[export] Instance Frame_eq_dec : EqDecision Frame.t.
Proof. solve_decision. Defined.

(** [decode_record_type]. *)
Definition decode_record_type (b : byte) : res RecordType :=
  match b with
  | x01 => Ok Put
  | x02 => Ok Delete
  | _ => Err (Corrupted "Invalid WAL operation")
  end.

(** The body of a frame, before its length is checked. *)
Definition frame_body (f : Frame.t) : bytes :=
  [match Frame.record f with Update _ => x01 | Commit => x02 end]
  ++ to_be 8 (Frame.transaction_id f)
  ++ to_be 8 (Frame.previous_lsn f)
  ++ match Frame.record f with
     | Update c =>
         [record_type_u8 (LogCommand.record_type c)]
         ++ to_be 8 (LogCommand.lsn c)
         ++ to_be 8 (len (LogCommand.key c))
         ++ to_be 8 (len (LogCommand.value c))
         ++ LogCommand.key c ++ LogCommand.value c
     | Commit => []
     end.

Section frames.
Context `{Crc32}.

(** The bytes of a frame: lsn, body length, the checksum of both with the
    body, the checksum of those 16 bytes, the body. *)
Definition frame_prefix (lsn : Z) (body : bytes) : bytes :=
  to_be 8 lsn ++ to_be 4 (wrap32 (len body)).
Definition frame_header (lsn : Z) (body : bytes) : bytes :=
  let p := frame_prefix lsn body ++ to_be 4 (crc32 (frame_prefix lsn body ++ body)) in
  p ++ to_be 4 (crc32 p).

Definition encode_frame (f : Frame.t) : res bytes :=
  let too_large := StorageError "WAL frame exceeds 64 MiB" in
  _ ← match Frame.record f with
      | Update c =>
          guard_err (42 + len (LogCommand.key c) + len (LogCommand.value c) <=? MAX_FRAME_SIZE)
            too_large
      | Commit => Ok tt
      end;
  let body := frame_body f in
  _ ← guard_err (len body <=? MAX_FRAME_SIZE) too_large;
  mret (frame_header (Frame.lsn f) body ++ body).

(** [be_u32]/[be_u64] at a fixed offset of a slice long enough. *)
Definition be_u32 (bs : bytes) (off : Z) : res Z := from_be <$> slice bs off (off + 4).
Definition be_u64 (bs : bytes) (off : Z) : res Z := from_be <$> slice bs off (off + 8).

Definition decode_frame_header (bs : bytes) : res (Z * Z) :=
  checksum ← be_u32 bs 16;
  prefix ← slice bs 0 16;
  _ ← guard_err (checksum =? crc32 prefix) (Corrupted "WAL frame header checksum mismatch");
  lsn ← be_u64 bs 0;
  length ← be_u32 bs 8;
  mret (lsn, length).

Definition verify_frame_body (header body : bytes) : res Z :=
  checksum ← be_u32 header 12;
  prefix ← slice header 0 12;
  _ ← guard_err (checksum =? crc32 (prefix ++ body)) (Corrupted "WAL frame checksum mismatch");
  mret checksum.
End frames.

(** The [Decoder] of the source: [take] past the end is an I/O error. *)
Module Decoder.
Definition take (n : Z) : reader bytes := read_exact n.
Definition number : reader Z := read_u64_be.
Definition payload (n : Z) : reader bytes := take n.
Definition take1 : reader byte := read_u8.
End Decoder.

Definition decode_frame (lsn : Z) (body : bytes) : res Frame.t :=
  '(f, remaining) ←
    (kind ← Decoder.take1;
     transaction_id ← Decoder.number;
     previous_lsn ← Decoder.number;
     record ← match kind with
              | x01 =>
                  type_byte ← Decoder.take1;
                  record_type ← lift (decode_record_type type_byte);
                  command_lsn ← Decoder.number;
                  key_length ← Decoder.number;
                  value_length ← Decoder.number;
                  key ← Decoder.payload key_length;
                  value ← Decoder.payload value_length;
                  _ ← require (negb (bool_decide (record_type = Delete)
                                     && negb (bool_decide (value = []))))
                        (Corrupted "Delete contains a value");
                  mret (Update (LogCommand.mk record_type key value command_lsn))
              | x02 => mret Commit
              | _ => fail_with (Corrupted "Invalid WAL transaction record")
              end;
     mret (Frame.mk lsn transaction_id previous_lsn record)) body;
  _ ← guard_err (bool_decide (remaining = [])) (Corrupted "Trailing WAL record bytes");
  mret f.

(** ** Records and legacy segments *)

Module WALRecord.
Record t : Type := mk {
  record_type : byte;
  lsn : Z;
  key : bytes;
  value : bytes;
  checksum : Z
}.
End WALRecord.

Section legacy.
Context `{Crc32}.

Definition decode_legacy (bs : bytes) : res (WALRecord.t * Z) :=
  '(r, remaining) ←
    (record_type ← Decoder.take1;
     _ ← lift (decode_record_type record_type);
     lsn ← Decoder.number;
     key_length ← Decoder.number;
     key ← Decoder.payload key_length;
     value_length ← Decoder.number;
     value ← Decoder.payload value_length;
     payload_remaining ← (λ rest, Ok (rest, rest));
     checksum ← read_u32_be;
     _ ← require (crc32 (take (length bs - length payload_remaining) bs) =? checksum)
           (Corrupted "Legacy WAL checksum mismatch");
     mret (WALRecord.mk record_type lsn key value checksum)) bs;
  mret (r, len bs - len remaining).
End legacy.

(** ** Segment headers *)

Module WALHeader.
Record t : Type := mk {
  magic : bytes;
  version : Z;
  last_checkpoint : Z;
  last_checkpoint_offset : Z
}.

Definition default_ : t := mk WAL_MAGIC WAL_VERSION 0 0.
Definition with_version (v : Z) : t := mk WAL_MAGIC v 0 0.

Section codec.
Context `{Crc32}.
Definition prefix (h : t) : bytes :=
  magic h ++ to_be 8 (version h) ++ to_be 8 (last_checkpoint h)
  ++ to_be 8 (last_checkpoint_offset h).
Definition encode (h : t) : bytes := prefix h ++ to_be 4 (crc32 (prefix h)).

(** The order of the checks is the source's: length, magic, version, checksum. *)
Definition decode (buf : bytes) : res t :=
  _ ← guard_err (WAL_HEADER_SIZE <=? len buf) (Corrupted "Buffer too short for WAL header");
  magic ← slice buf 0 8;
  _ ← guard_err (bool_decide (magic = WAL_MAGIC)) (Corrupted "Invalid WAL magic number");
  version ← from_be <$> slice buf 8 16;
  _ ← guard_err ((version =? LEGACY_WAL_VERSION) || (version =? WAL_VERSION))
        (Corrupted "Unsupported WAL version");
  last_checkpoint ← from_be <$> slice buf 16 24;
  last_checkpoint_offset ← from_be <$> slice buf 24 32;
  checksum ← from_be <$> slice buf 32 36;
  covered ← slice buf 0 32;
  _ ← guard_err (checksum =? crc32 covered) (Corrupted "WAL header checksum mismatch");
  mret (mk magic version last_checkpoint last_checkpoint_offset).
End codec.
End WALHeader.
#[global] Arguments WALHeader.encode : simpl never.

(** ** Value references *)

Module WalValueRef.
Record t : Type := mk {
  segment_id : Z;
  transaction_id : Z;
  transaction_start_offset : Z;
  commit_offset : Z;
  commit_lsn : Z;
  frame_offset : Z;
  frame_length : Z;
  physical_lsn : Z;
  application_sequence : Z;
  record_type : RecordType;
  key_length : Z;
  key_checksum : Z;
  value_length : Z;
  value_checksum : Z
}.

Section codec.
Context `{Crc32}.

Definition body (r : t) : bytes :=
  [WAL_VALUE_REF_VERSION]
  ++ to_be 8 (segment_id r) ++ to_be 8 (transaction_id r)
  ++ to_be 8 (transaction_start_offset r) ++ to_be 8 (commit_offset r)
  ++ to_be 8 (commit_lsn r) ++ to_be 8 (frame_offset r)
  ++ to_be 4 (frame_length r) ++ to_be 8 (physical_lsn r)
  ++ to_be 8 (application_sequence r)
  ++ [record_type_u8 (record_type r)]
  ++ to_be 4 (key_length r) ++ to_be 4 (key_checksum r)
  ++ to_be 8 (value_length r) ++ to_be 4 (value_checksum r).

Definition encode (r : t) : bytes := body r ++ to_be 4 (crc32 (body r)).

Definition validate (r : t) : res unit :=
  _ ← guard_err (negb ((transaction_id r =? 0) || (physical_lsn r <? transaction_id r)
                       || (commit_lsn r <=? physical_lsn r)))
        (Corrupted "Invalid WAL value reference LSNs");
  _ ← guard_err (negb ((transaction_start_offset r <? WAL_HEADER_SIZE)
                       || (commit_offset r <=? transaction_start_offset r)
                       || (frame_offset r <? transaction_start_offset r)))
        (Corrupted "Invalid WAL value reference offsets");
  frame_end ← ok_or (checked_add (frame_offset r) (frame_length r))
                (Corrupted "WAL value reference overflow");
  _ ← guard_err (negb (commit_offset r <? frame_end))
        (Corrupted "WAL value reference frame is not before its commit");
  body_length ← ok_or (n ← checked_add 42 (key_length r); checked_add n (value_length r))
                  (Corrupted "WAL value reference length overflow");
  _ ← guard_err (negb (MAX_FRAME_SIZE <? body_length))
        (Corrupted "WAL value reference payload is too large");
  _ ← guard_err (negb (negb (frame_length r =? FRAME_HEADER_SIZE + body_length)
                       || negb ((MIN_WAL_UPDATE_FRAME_SIZE <=? frame_length r)
                                && (frame_length r <=? MAX_WAL_UPDATE_FRAME_SIZE))))
        (Corrupted "Invalid WAL value reference frame length");
  _ ← guard_err (negb (bool_decide (record_type r = Delete) && negb (value_length r =? 0)))
        (Corrupted "Delete WAL value reference has a value");
  Ok tt.

Definition decode (bs : bytes) : res t :=
  _ ← guard_err (len bs =? WAL_VALUE_REF_ENCODED_SIZE)
        (Corrupted "Invalid WAL value reference length");
  version ← byte_at bs 0;
  _ ← guard_err (bool_decide (version = WAL_VALUE_REF_VERSION))
        (Corrupted "Unsupported WAL value reference version");
  checksum ← be_u32 bs (WAL_VALUE_REF_ENCODED_SIZE - 4);
  covered ← slice bs 0 (WAL_VALUE_REF_ENCODED_SIZE - 4);
  _ ← guard_err (crc32 covered =? checksum) (Corrupted "WAL value reference checksum mismatch");
  segment_id ← be_u64 bs 1;
  transaction_id ← be_u64 bs 9;
  transaction_start_offset ← be_u64 bs 17;
  commit_offset ← be_u64 bs 25;
  commit_lsn ← be_u64 bs 33;
  frame_offset ← be_u64 bs 41;
  frame_length ← be_u32 bs 49;
  physical_lsn ← be_u64 bs 53;
  application_sequence ← be_u64 bs 61;
  type_byte ← byte_at bs 69;
  record_type ← decode_record_type type_byte;
  key_length ← be_u32 bs 70;
  key_checksum ← be_u32 bs 74;
  value_length ← be_u64 bs 78;
  value_checksum ← be_u32 bs 86;
  let reference := mk segment_id transaction_id transaction_start_offset commit_offset commit_lsn
                     frame_offset frame_length physical_lsn application_sequence record_type
                     key_length key_checksum value_length value_checksum in
  _ ← validate reference;
  mret reference.
End codec.
End WalValueRef.
#[export] Instance WalValueRef_eq_dec : EqDecision WalValueRef.t.
Proof. solve_decision. Defined.
#[global] Arguments WalValueRef.encode : simpl never.

(** ** Slices of concatenations *)

Lemma slice_skip n (x y : bytes) i j :
  len x = n → n <= i → slice (x ++ y) i j = slice y (i - n) (j - n).
Proof.
  intros <- Hi. unfold slice. rewrite len_app.
  assert (((i <=? j) && (j <=? len x + len y)) = ((i - len x <=? j - len x) && (j - len x <=? len y))) as ->.
  { f_equal; apply eq_true_iff_eq; rewrite !Z.leb_le; lia. }
  destruct (_ && _) eqn:E; [|done].
  apply andb_true_iff in E as [?%Z.leb_le ?%Z.leb_le].
  replace (j - len x - (i - len x)) with (j - i) by lia.
  rewrite drop_app_ge by (unfold len in *; lia).
  do 3 f_equal. unfold len in *. lia.
Qed.
Lemma slice_here (x y : bytes) j : len x = j → slice (x ++ y) 0 j = Ok x.
Proof.
  intros <-. unfold slice. rewrite len_app. pose proof (len_nonneg x). pose proof (len_nonneg y).
  rewrite (proj2 (Z.leb_le 0 _)), (proj2 (Z.leb_le (len x) _)) by lia. simpl.
  rewrite Z.sub_0_r, drop_0. unfold len. by rewrite Nat2Z.id, take_app_length.
Qed.
Lemma slice_all (x : bytes) j : len x = j → slice x 0 j = Ok x.
Proof. intros. rewrite <- (app_nil_r x) at 1. by apply slice_here. Qed.
Lemma byte_at_skip n (x y : bytes) i :
  len x = n → 0 <= n <= i → byte_at (x ++ y) i = byte_at y (i - n).
Proof.
  intros <- Hi. unfold byte_at. rewrite lookup_app_r by (unfold len in *; lia).
  by replace (Z.to_nat i - length x)%nat with (Z.to_nat (i - len x)) by (unfold len in *; lia).
Qed.

(** [slice_walk] evaluates [slice]/[byte_at] at constant offsets of a
    right-nested concatenation of fixed-width fields. *)
Ltac field_width x :=
  lazymatch x with
  | to_be ?n _ => let z := eval compute in (Z.of_nat n) in z
  | [_] => constr:(1)
  end.
Ltac field_len := first [ rewrite len_to_be; reflexivity | reflexivity ].
Ltac slice_walk :=
  repeat match goal with
    | |- context [slice (?x ++ ?y) ?i ?j] =>
        let n := field_width x in
        let i' := eval compute in (i - n) in
        let j' := eval compute in (j - n) in
        lazymatch i' with
        | Z.neg _ => fail
        | _ => rewrite (slice_skip n x y i j) by (first [ field_len | lia ]);
               change (i - n) with i'; change (j - n) with j'
        end
    | |- context [byte_at (?x ++ ?y) ?i] =>
        let n := field_width x in
        let i' := eval compute in (i - n) in
        lazymatch i' with
        | Z.neg _ => fail
        | _ => rewrite (byte_at_skip n x y i) by (first [ field_len | lia ]);
               change (i - n) with i'
        end
    | |- context [slice (?x ++ ?y) 0 ?j] => rewrite (slice_here x y j) by field_len
    end.

Lemma from_be_u64 z : is_u64 z → from_be (to_be 8 z) = z.
Proof. intros Hz%u64_bound. by apply from_to_be. Qed.
Lemma from_be_u32 z : is_u32 z → from_be (to_be 4 z) = z.
Proof. intros Hz%u32_bound. by apply from_to_be. Qed.

(** ** Frames *)

(** What the writer checks and the integer widths give: a frame whose
    encoding is lossless. *)
Definition command_ok (c : LogCommand.t) : Prop :=
  is_u64 (LogCommand.lsn c) ∧
  42 + len (LogCommand.key c) + len (LogCommand.value c) <= MAX_FRAME_SIZE ∧
  (LogCommand.record_type c = Delete → LogCommand.value c = []).
Definition frame_ok (f : Frame.t) : Prop :=
  is_u64 (Frame.lsn f) ∧ is_u64 (Frame.transaction_id f) ∧ is_u64 (Frame.previous_lsn f) ∧
  match Frame.record f with Update c => command_ok c | Commit => True end.

Definition record_body_len (r : TransactionRecord) : Z :=
  match r with
  | Update c => 42 + len (LogCommand.key c) + len (LogCommand.value c)
  | Commit => 17
  end.

Lemma frame_body_len f : len (frame_body f) = record_body_len (Frame.record f).
Proof.
  unfold frame_body, record_body_len. destruct (Frame.record f); autorewrite with len; lia.
Qed.
Lemma frame_body_bounds f : frame_ok f → 17 <= len (frame_body f) <= MAX_FRAME_SIZE.
Proof.
  intros (_ & _ & _ & Hr). rewrite frame_body_len. unfold record_body_len.
  destruct (Frame.record f) as [c|]; [|vm_compute; split; discriminate].
  destruct Hr as (_ & Hs & _).
  pose proof (len_nonneg (LogCommand.key c)). pose proof (len_nonneg (LogCommand.value c)). lia.
Qed.

Section frame_theory.
Context `{Crc32Spec}.
Implicit Types (f : Frame.t).

Definition frame_bytes f : bytes :=
  frame_header (Frame.lsn f) (frame_body f) ++ frame_body f.

Lemma encode_frame_ok f : frame_ok f → encode_frame f = Ok (frame_bytes f).
Proof.
  intros Hf. pose proof (frame_body_bounds f Hf) as Hb. unfold encode_frame.
  destruct Hf as (_ & _ & _ & Hr). rewrite (proj2 (Z.leb_le (len (frame_body f)) _)) by lia.
  destruct (Frame.record f) as [c|]; [|done]. destruct Hr as (_ & Hs & _).
  by rewrite (proj2 (Z.leb_le _ _) Hs).
Qed.
Lemma encode_frame_Ok f bs : encode_frame f = Ok bs →
  bs = frame_bytes f ∧ record_body_len (Frame.record f) <= MAX_FRAME_SIZE.
Proof.
  unfold encode_frame. intros (_ & _ & (u & Hg%guard_err_Ok%Z.leb_le & [= <-])%res_bind_Ok)%res_bind_Ok.
  rewrite <- frame_body_len. done.
Qed.

Lemma frame_header_len lsn body : len (frame_header lsn body) = FRAME_HEADER_SIZE.
Proof. unfold frame_header, frame_prefix. autorewrite with len. reflexivity. Qed.
Lemma frame_bytes_len f : len (frame_bytes f) = FRAME_HEADER_SIZE + len (frame_body f).
Proof. unfold frame_bytes. by rewrite len_app, frame_header_len. Qed.

Lemma frame_header_run lsn body :
  is_u64 lsn → len body <= u32_max →
  decode_frame_header (frame_header lsn body) = Ok (lsn, len body).
Proof.
  intros Hl Hb. pose proof (len_nonneg body).
  unfold decode_frame_header, be_u32, be_u64.
  assert (slice (frame_header lsn body) 0 16 =
          Ok (frame_prefix lsn body ++ to_be 4 (crc32 (frame_prefix lsn body ++ body)))) as ->.
  { apply slice_here. unfold frame_prefix. autorewrite with len. reflexivity. }
  unfold frame_header, frame_prefix. rewrite <- !(assoc_L (++)).
  set (c1 := crc32 (_ ++ _ ++ body)). set (c2 := crc32 _).
  simpl (_ + _). rewrite <- (app_nil_r (to_be 4 c2)). slice_walk. simpl.
  rewrite (from_be_u32 c2) by apply crc32_u32.
  rewrite Z.eqb_refl. simpl. slice_walk. simpl. slice_walk. simpl.
  rewrite from_be_u64 by done. rewrite wrap32_id by word_lia. by rewrite from_be_u32 by word_lia.
Qed.
Lemma verify_frame_body_run lsn body :
  verify_frame_body (frame_header lsn body) body = Ok (crc32 (frame_prefix lsn body ++ body)).
Proof.
  unfold verify_frame_body, be_u32.
  assert (slice (frame_header lsn body) 0 12 = Ok (frame_prefix lsn body)) as ->.
  { unfold frame_header. rewrite <- (assoc_L (++)). apply slice_here. unfold frame_prefix.
    autorewrite with len. reflexivity. }
  unfold frame_header, frame_prefix. rewrite <- !(assoc_L (++)).
  set (c1 := crc32 (_ ++ _ ++ body)). set (c2 := crc32 _).
  simpl (_ + _). slice_walk. simpl. rewrite (from_be_u32 c1) by apply crc32_u32.
  rewrite Z.eqb_refl. done.
Qed.
End frame_theory.

Lemma decode_record_type_run t : decode_record_type (record_type_u8 t) = Ok t.
Proof. by destruct t. Qed.
Lemma decode_record_type_inv b t : decode_record_type b = Ok t → b = record_type_u8 t.
Proof. destruct b, t; done. Qed.
Lemma delete_check_run (t : RecordType) (v : bytes) :
  (t = Delete → v = []) →
  negb (bool_decide (t = Delete) && negb (bool_decide (v = []))) = true.
Proof. destruct t; [done|]. intros ->; [|done]. done. Qed.
Lemma delete_check_inv (t : RecordType) (v : bytes) :
  negb (bool_decide (t = Delete) && negb (bool_decide (v = []))) = true → t = Delete → v = [].
Proof. intros Hn ->. rewrite (bool_decide_true (Delete = Delete)) in Hn by done. simpl in Hn.
  rewrite negb_involutive in Hn. by apply bool_decide_eq_true in Hn. Qed.

(** Decoding the body of an encoded frame. *)
Lemma decode_frame_run f : frame_ok f → decode_frame (Frame.lsn f) (frame_body f) = Ok f.
Proof.
  destruct f as [l t p r]. intros (Hl & Ht & Hp & Hr); simpl in *.
  unfold decode_frame, frame_body, Decoder.take1, Decoder.number, Decoder.payload, Decoder.take; simpl.
  destruct r as [[ty k v n]|]; simpl.
  - destruct Hr as (Hn & Hs & Hd); simpl in *.
    pose proof (len_nonneg k). pose proof (len_nonneg v). unfold MAX_FRAME_SIZE in Hs.
    rewrite <- (app_nil_r v) at 2.
    norm_app. do 3 step_reader. cbn [app].
    erewrite reader_bind_run.
    2: { norm_app. step_reader. erewrite reader_bind_run; [|by apply lift_run; apply decode_record_type_run].
         do 3 step_reader. do 2 step_reader.
         erewrite reader_bind_run; [|apply require_run, delete_check_run, Hd]. done. }
    done.
  - norm_app. do 3 step_reader. erewrite reader_bind_run; [|done]. done.
Qed.

Lemma decode_frame_inv lsn body f :
  is_u64 lsn → len body <= MAX_FRAME_SIZE →
  decode_frame lsn body = Ok f → body = frame_body f ∧ Frame.lsn f = lsn ∧ frame_ok f.
Proof.
  intros Hl Hs. unfold decode_frame, Decoder.take1, Decoder.number, Decoder.payload, Decoder.take.
  intros ([f' rem] & Hd & (u & Hg%guard_err_Ok%bool_decide_eq_true & [= ->])%res_bind_Ok)%res_bind_Ok.
  subst rem. inv_reader.
  match goal with H : match ?k with _ => _ end _ = Ok _ |- _ => destruct k; try discriminate H end.
  - inv_reader.
    match goal with H : decode_record_type _ = Ok _ |- _ => apply decode_record_type_inv in H; subst end.
    match goal with H : negb _ = true |- _ => pose proof (delete_check_inv _ _ H) as Hdel end.
    unfold frame_ok, command_ok, frame_body in *. simpl. rewrite ?app_nil_r in *.
    autorewrite with len in Hs. split_and!; try done. lia.
  - inv_reader. unfold frame_ok, frame_body. simpl. rewrite ?app_nil_r. done.
Qed.

(** ** Segment headers *)

Section header_theory.
Context `{Crc32Spec}.

Definition header_ok (h : WALHeader.t) : Prop :=
  WALHeader.magic h = WAL_MAGIC ∧
  (WALHeader.version h = LEGACY_WAL_VERSION ∨ WALHeader.version h = WAL_VERSION) ∧
  is_u64 (WALHeader.last_checkpoint h) ∧ is_u64 (WALHeader.last_checkpoint_offset h).

Lemma header_encode_len h : WALHeader.magic h = WAL_MAGIC → len (WALHeader.encode h) = WAL_HEADER_SIZE.
Proof.
  intros Hm. unfold WALHeader.encode, WALHeader.prefix. rewrite Hm. autorewrite with len. reflexivity.
Qed.
Lemma header_run h rest : header_ok h → WALHeader.decode (WALHeader.encode h ++ rest) = Ok h.
Proof.
  destruct h as [m v c o]. intros (Hm & Hv & Hc & Ho). simpl in *. subst m.
  assert (is_u64 v) as Hv64 by (destruct Hv as [-> | ->]; vm_compute; split; discriminate).
  unfold WALHeader.decode. rewrite len_app, header_encode_len by done.
  pose proof (len_nonneg rest). rewrite (proj2 (Z.leb_le _ _)) by lia. cbn [guard_err mbind res_bind].
  assert (slice (WALHeader.encode (WALHeader.mk WAL_MAGIC v c o) ++ rest) 0 32 =
          Ok (WALHeader.prefix (WALHeader.mk WAL_MAGIC v c o))) as ->.
  { unfold WALHeader.encode. rewrite <- (assoc_L (++)). apply slice_here.
    unfold WALHeader.prefix. autorewrite with len. reflexivity. }
  unfold WALHeader.encode. set (cs := crc32 _). unfold WALHeader.prefix. cbn [WALHeader.magic
    WALHeader.version WALHeader.last_checkpoint WALHeader.last_checkpoint_offset].
  rewrite <- !(assoc_L (++)).
  rewrite (slice_here WAL_MAGIC) by reflexivity. cbn [mbind res_bind].
  rewrite bool_decide_true by done. cbn [guard_err mbind res_bind].
  rewrite !(slice_skip 8 WAL_MAGIC) by (first [reflexivity | lia]). cbn [Z.sub Z.opp Z.add Z.pos_sub Pos.pred_double].
  simpl (_ - _). slice_walk. cbn [fmap res_fmap mbind res_bind].
  rewrite (from_be_u64 v) by done.
  assert ((v =? LEGACY_WAL_VERSION) || (v =? WAL_VERSION) = true) as ->.
  { destruct Hv as [-> | ->]; reflexivity. }
  cbn [guard_err mbind res_bind]. rewrite (from_be_u32 cs) by apply crc32_u32.
  fold (WALHeader.prefix (WALHeader.mk WAL_MAGIC v c o)) in cs.
  rewrite (from_be_u64 c), (from_be_u64 o) by done.
  rewrite Z.eqb_refl. done.
Qed.
End header_theory.

(** ** Value references *)

Definition ref_widths (r : WalValueRef.t) : Prop :=
  is_u64 (WalValueRef.segment_id r) ∧ is_u64 (WalValueRef.transaction_id r) ∧
  is_u64 (WalValueRef.transaction_start_offset r) ∧ is_u64 (WalValueRef.commit_offset r) ∧
  is_u64 (WalValueRef.commit_lsn r) ∧ is_u64 (WalValueRef.frame_offset r) ∧
  is_u32 (WalValueRef.frame_length r) ∧ is_u64 (WalValueRef.physical_lsn r) ∧
  is_u64 (WalValueRef.application_sequence r) ∧ is_u32 (WalValueRef.key_length r) ∧
  is_u32 (WalValueRef.key_checksum r) ∧ is_u64 (WalValueRef.value_length r) ∧
  is_u32 (WalValueRef.value_checksum r).

Lemma byte_at_0 (b : byte) (y : bytes) : byte_at ([b] ++ y) 0 = Ok b.
Proof. done. Qed.

Section ref_theory.
Context `{Crc32Spec}.

Lemma ref_encode_len r : len (WalValueRef.encode r) = WAL_VALUE_REF_ENCODED_SIZE.
Proof. unfold WalValueRef.encode, WalValueRef.body. autorewrite with len. reflexivity. Qed.

Lemma ref_run r :
  ref_widths r → WalValueRef.validate r = Ok tt → WalValueRef.decode (WalValueRef.encode r) = Ok r.
Proof.
  destruct r as [si ti ts co cl fo fl pl ap rt kl kc vl vc].
  intros (?&?&?&?&?&?&?&?&?&?&?&?&?) Hv. simpl in *.
  unfold WalValueRef.decode. rewrite ref_encode_len. cbn [Z.eqb guard_err mbind res_bind].
  change (WAL_VALUE_REF_ENCODED_SIZE =? WAL_VALUE_REF_ENCODED_SIZE) with true.
  change (WAL_VALUE_REF_ENCODED_SIZE - 4) with 90. cbn [guard_err mbind res_bind].
  set (ref := WalValueRef.mk si ti ts co cl fo fl pl ap rt kl kc vl vc) in *.
  assert (slice (WalValueRef.encode ref) 0 90 = Ok (WalValueRef.body ref)) as ->.
  { apply slice_here. unfold WalValueRef.body. autorewrite with len. reflexivity. }
  unfold WalValueRef.encode. set (cs := crc32 _). unfold WalValueRef.body, ref.
  cbn [WalValueRef.segment_id WalValueRef.transaction_id WalValueRef.transaction_start_offset
    WalValueRef.commit_offset WalValueRef.commit_lsn WalValueRef.frame_offset
    WalValueRef.frame_length WalValueRef.physical_lsn WalValueRef.application_sequence
    WalValueRef.record_type WalValueRef.key_length WalValueRef.key_checksum
    WalValueRef.value_length WalValueRef.value_checksum].
  rewrite <- !(assoc_L (++)), byte_at_0. cbn [mbind res_bind].
  rewrite bool_decide_true by done. cbn [guard_err mbind res_bind].
  unfold be_u32, be_u64. cbn [Z.add Pos.add Pos.succ]. rewrite <- (app_nil_r (to_be 4 cs)).
  slice_walk. rewrite byte_at_0. cbn [fmap res_fmap mbind res_bind].
  rewrite (from_be_u32 cs) by apply crc32_u32.
  change (crc32 _ =? cs) with (cs =? cs). rewrite Z.eqb_refl. cbn [guard_err mbind res_bind].
  rewrite decode_record_type_run. cbn [mbind res_bind].
  rewrite !from_be_u64, !from_be_u32 by done. fold ref. rewrite Hv. done.
Qed.
End ref_theory.

(** ** Commands *)

Lemma slice_mid (x y z data : bytes) i j :
  data = x ++ y ++ z → len x = i → i + len y = j → slice data i j = Ok y.
Proof.
  intros -> <- <-. rewrite (slice_skip (len x)) by lia.
  replace (len x - len x) with 0 by lia. replace (len x + len y - len x) with (len y) by lia.
  by apply slice_here.
Qed.
Lemma from_le_u64 z : is_u64 z → from_le (to_le 8 z) = z.
Proof. intros Hz%u64_bound. by apply from_to_le. Qed.

Lemma command_roundtrip c :
  is_u64 (LogCommand.lsn c) →
  25 + len (LogCommand.key c) + len (LogCommand.value c) <= isize_max →
  LogCommand.deserialize (LogCommand.serialize c) = Ok c.
Proof.
  destruct c as [t k v n]. simpl. intros Hn Hl.
  pose proof (len_nonneg k). pose proof (len_nonneg v).
  unfold LogCommand.deserialize, LogCommand.serialize.
  cbn [LogCommand.record_type LogCommand.key LogCommand.value LogCommand.lsn].
  set (data := [record_type_u8 t] ++ _).
  change (byte_at data 0) with (Ok (record_type_u8 t)). cbn [mbind res_bind].
  rewrite decode_type_run. cbn [mbind res_bind].
  rewrite (slice_mid [record_type_u8 t] (to_le 8 (len k))
    (k ++ to_le 8 (len v) ++ v ++ to_le 8 n) data 1 9) by (first [done | by rewrite len_to_le]).
  cbn [fmap res_fmap mbind res_bind]. rewrite from_le_u64 by word_lia.
  rewrite !(wrap64_id (9 + len k)) by word_lia. rewrite !(wrap64_id (9 + len k + 8)) by word_lia.
  rewrite (slice_mid ([record_type_u8 t] ++ to_le 8 (len k)) k
    (to_le 8 (len v) ++ v ++ to_le 8 n) data 9); [|by unfold data; rewrite <- !(assoc_L (++))
    | rewrite len_app, len_to_le; change (len [record_type_u8 t]) with 1; lia | done].
  cbn [mbind res_bind].
  rewrite (slice_mid ([record_type_u8 t] ++ to_le 8 (len k) ++ k) (to_le 8 (len v))
    (v ++ to_le 8 n) data (9 + len k)); [|by unfold data; rewrite <- !(assoc_L (++))
    | rewrite !len_app, len_to_le; change (len [record_type_u8 t]) with 1; lia | by rewrite len_to_le].
  cbn [fmap res_fmap mbind res_bind]. rewrite from_le_u64 by word_lia.
  rewrite !(wrap64_id (9 + len k + 8 + len v)) by word_lia.
  rewrite (wrap64_id (9 + len k + 8 + len v + 8)) by word_lia.
  rewrite (slice_mid ([record_type_u8 t] ++ to_le 8 (len k) ++ k ++ to_le 8 (len v)) v
    (to_le 8 n) data (9 + len k + 8)); [|by unfold data; rewrite <- !(assoc_L (++))
    | rewrite !len_app, !len_to_le; change (len [record_type_u8 t]) with 1; lia | done].
  cbn [mbind res_bind].
  rewrite (slice_mid ([record_type_u8 t] ++ to_le 8 (len k) ++ k ++ to_le 8 (len v) ++ v) (to_le 8 n)
    [] data (9 + len k + 8 + len v)); [|by unfold data; rewrite <- !(assoc_L (++)), app_nil_r
    | rewrite !len_app, !len_to_le; change (len [record_type_u8 t]) with 1; lia | by rewrite len_to_le].
  cbn [fmap res_fmap mbind res_bind]. by rewrite from_le_u64.
Qed.
