(* ===== verification/WalAnalysis.v ===== *)
(** * Log analysis and segment scanning: [src/src/storage/recovermanager/wal.rs]

    [Analysis] (the state of a recovery pass), [accept] (one frame), [redo]
    and [redo_with_refs] (the committed updates), and the segment scan with
    its three ways of treating an incomplete tail. *)

From S2P Require Import Prelude Bytes OrdMap Record WalFormat.

Record FramePosition : Type := mkFramePosition {
  fp_segment_id : Z;
  fp_offset : Z;
  fp_length : Z
}.
Record UpdatePosition : Type := mkUpdatePosition {
  up_segment_id : Z;
  up_transaction_start_offset : Z;
  up_frame_offset : Z;
  up_frame_length : Z;
  up_physical_lsn : Z
}.
Record CommitPosition : Type := mkCommitPosition {
  cp_frame_offset : Z;
  cp_commit_lsn : Z
}.
Record LoggedUpdate : Type := mkLoggedUpdate {
  lu_transaction_id : Z;
  lu_command : LogCommand.t;
  lu_checksum : Z;
  lu_position : option UpdatePosition
}.
Record RecoveredWalUpdate : Type := mkRecoveredWalUpdate {
  ru_record : WALRecord.t;
  ru_reference : WalValueRef.t
}.

Module Analysis.
Record t : Type := mk {
  latest_lsn : Z;
  previous_lsns : ordmap Z Z;
  committed_transactions : ordmap Z unit;
  updates : list LoggedUpdate;
  legacy : list WALRecord.t;
  track_refs : bool;
  transaction_starts : ordmap Z Z;
  commit_positions : ordmap Z CommitPosition
}.

Definition default_ : t := mk 0 [] [] [] [] false [] [].
Definition init (latest : Z) (track : bool) : t := mk latest [] [] [] [] track [] [].
Definition push_legacy (a : t) (r : WALRecord.t) : t :=
  mk (latest_lsn a) (previous_lsns a) (committed_transactions a) (updates a)
     (legacy a ++ [r]) (track_refs a) (transaction_starts a) (commit_positions a).

Definition is_committed (a : t) (id : Z) : bool :=
  bool_decide (om_get id (committed_transactions a) ≠ None).

Definition accept (a : t) (frame : Frame.t) (checksum : Z) (position : FramePosition) : res t :=
  let tid := Frame.transaction_id frame in
  let previous_lsn := default 0 (om_get tid (previous_lsns a)) in
  if negb (Frame.lsn frame =? wrap64 (latest_lsn a + 1))
     || (tid =? 0)
     || is_committed a tid
     || negb (Frame.previous_lsn frame =? previous_lsn)
  then Err (Corrupted "Invalid WAL transaction chain")
  else
    let frame_lsn := Frame.lsn frame in
    a ← match Frame.record frame with
        | Update command =>
            let starts :=
              if track_refs a && (previous_lsn =? 0)
              then om_insert tid (fp_offset position) (transaction_starts a)
              else transaction_starts a in
            let update_position :=
              if track_refs a
              then Some (mkUpdatePosition (fp_segment_id position)
                           (default (fp_offset position) (om_get tid starts))
                           (fp_offset position) (fp_length position) frame_lsn)
              else None in
            mret (mk (latest_lsn a) (previous_lsns a) (committed_transactions a)
                    (updates a ++ [mkLoggedUpdate tid command checksum update_position])
                    (legacy a) (track_refs a) starts (commit_positions a))
        | Commit =>
            if previous_lsn =? 0 then Err (Corrupted "Commit without update")
            else
              mret (mk (latest_lsn a) (previous_lsns a)
                      (om_insert tid tt (committed_transactions a))
                      (updates a) (legacy a) (track_refs a) (transaction_starts a)
                      (if track_refs a
                       then om_insert tid (mkCommitPosition (fp_offset position) frame_lsn)
                              (commit_positions a)
                       else commit_positions a))
        end;
    mret (mk frame_lsn (om_insert tid frame_lsn (previous_lsns a)) (committed_transactions a)
            (updates a) (legacy a) (track_refs a) (transaction_starts a) (commit_positions a)).

Definition record_of (u : LoggedUpdate) : WALRecord.t :=
  let c := lu_command u in
  WALRecord.mk (record_type_u8 (LogCommand.record_type c)) (LogCommand.lsn c)
    (LogCommand.key c) (LogCommand.value c) (lu_checksum u).

Definition redo (a : t) : list WALRecord.t :=
  legacy a
  ++ (record_of <$> List.filter (λ u, is_committed a (lu_transaction_id u)) (updates a)).

Section refs.
Context `{Crc32}.

Definition recover_one (a : t) (u : LoggedUpdate) : res RecoveredWalUpdate :=
  position ← ok_or (lu_position u) (StorageError "WAL recovery is missing an update position");
  commit ← ok_or (om_get (lu_transaction_id u) (commit_positions a))
             (StorageError "WAL recovery is missing a commit position");
  let c := lu_command u in
  key_length ← ok_or (if len (LogCommand.key c) <=? u32_max then Some (len (LogCommand.key c)) else None)
                 (Corrupted "WAL key length overflow");
  mret (mkRecoveredWalUpdate (record_of u)
    (WalValueRef.mk (up_segment_id position) (lu_transaction_id u)
       (up_transaction_start_offset position) (cp_frame_offset commit) (cp_commit_lsn commit)
       (up_frame_offset position) (up_frame_length position) (up_physical_lsn position)
       (LogCommand.lsn c) (LogCommand.record_type c) key_length (crc32 (LogCommand.key c))
       (len (LogCommand.value c)) (crc32 (LogCommand.value c)))).

Fixpoint recover_all (a : t) (us : list LoggedUpdate) : res (list RecoveredWalUpdate) :=
  match us with
  | [] => mret []
  | u :: us =>
      if is_committed a (lu_transaction_id u) then
        r ← recover_one a u;
        rs ← recover_all a us;
        mret (r :: rs)
      else recover_all a us
  end.

Definition redo_with_refs (a : t) : res (list RecoveredWalUpdate) :=
  match legacy a with
  | _ :: _ => Err (StorageError "Legacy WAL records do not carry value references")
  | [] => recover_all a (updates a)
  end.
End refs.
End Analysis.

Inductive TailHandling : Type := Repair | Allow | Reject.
#[export] Instance TailHandling_eq_dec : EqDecision TailHandling.
Proof. solve_decision. Defined.

Section scan.
Context `{Crc32}.

(** One iteration on the bytes from [offset] on: [None] is [break]. *)
Definition scan_frame (segment_id offset : Z) (rest : bytes) (a : Analysis.t)
    : res (option (Z * Analysis.t)) :=
  if len rest <? FRAME_HEADER_SIZE then Ok None
  else
    let header := take (Z.to_nat FRAME_HEADER_SIZE) rest in
    '(lsn, length) ← decode_frame_header header;
    _ ← guard_err ((17 <=? length) && (length <=? MAX_FRAME_SIZE))
          (Corrupted "Invalid WAL frame size");
    if len rest - FRAME_HEADER_SIZE <? length then Ok None
    else
      let body := take (Z.to_nat length) (drop (Z.to_nat FRAME_HEADER_SIZE) rest) in
      checksum ← verify_frame_body header body;
      frame ← match decode_frame lsn body with
              | Err _ => Err (Corrupted "Invalid WAL frame")
              | r => r
              end;
      a ← Analysis.accept a frame checksum
            (mkFramePosition segment_id offset (FRAME_HEADER_SIZE + length));
      mret (Some (FRAME_HEADER_SIZE + length, a)).

Definition scan_legacy (rest : bytes) (a : Analysis.t) : res (option (Z * Analysis.t)) :=
  match decode_legacy rest with
  | Ok (record, length) => Ok (Some (length, Analysis.push_legacy a record))
  | Err (IO UnexpectedEof) => Ok None
  | Err e => Err e
  | Panic => Panic
  end.

(** The loop [while offset < bytes.len()]; every iteration that does not break
    moves the offset, so [length bytes] iterations are enough. *)
Fixpoint scan_loop (fuel : nat) (version segment_id offset : Z) (rest : bytes) (a : Analysis.t)
    : res (Z * Analysis.t) :=
  match fuel with
  | O => Ok (offset, a)
  | S fuel =>
      match rest with
      | [] => Ok (offset, a)
      | _ =>
          step ← if version =? LEGACY_WAL_VERSION then scan_legacy rest a
                 else scan_frame segment_id offset rest a;
          match step with
          | None => Ok (offset, a)
          | Some (n, a) =>
              if n =? 0 then Ok (offset, a)
              else scan_loop fuel version segment_id (offset + n) (drop (Z.to_nat n) rest) a
          end
      end
  end.

(** The header an incomplete one is completed to: the first candidate version
    whose encoding starts with the bytes present. *)
Definition complete_header (bs : bytes) (a : Analysis.t) : res bytes :=
  let candidates :=
    List.filter (λ v, negb (v =? LEGACY_WAL_VERSION) || (Analysis.latest_lsn a =? 0))
      [WAL_VERSION; LEGACY_WAL_VERSION] in
  ok_or (List.find (λ h, starts_with bs h)
           ((λ v, WALHeader.encode (WALHeader.with_version v)) <$> candidates))
    (Corrupted "Invalid incomplete WAL header").

(** Scans a segment: its version, the analysis, and the contents the file is
    left with (completed and truncated when the tail is repaired). *)
Definition scan_segment_with_tail_handling (segment_id : Z) (file : bytes)
    (tail : TailHandling) (a : Analysis.t) : res (Z * Analysis.t * bytes) :=
  bs ← if (len file <? WAL_HEADER_SIZE) && negb (bool_decide (tail = Reject))
       then complete_header file a else Ok file;
  let file := if bool_decide (tail = Repair) then bs else file in
  header ← WALHeader.decode bs;
  _ ← guard_err (negb ((WALHeader.version header =? LEGACY_WAL_VERSION)
                       && negb (Analysis.latest_lsn a =? 0)))
        (Corrupted "Legacy WAL after transactional segment");
  _ ← guard_err (negb (negb (WALHeader.last_checkpoint header =? 0)
                       || negb (WALHeader.last_checkpoint_offset header =? 0)))
        (Corrupted "Unsupported WAL checkpoint metadata");
  '(offset, a) ← scan_loop (length bs) (WALHeader.version header)
                   (if Analysis.track_refs a then segment_id else 0)
                   WAL_HEADER_SIZE (drop (Z.to_nat WAL_HEADER_SIZE) bs) a;
  if offset =? len bs then mret (WALHeader.version header, a, file)
  else
    match tail with
    | Repair => mret (WALHeader.version header, a, take (Z.to_nat offset) file)
    | Allow => mret (WALHeader.version header, a, file)
    | Reject => Err (Corrupted "Incomplete WAL frame in sealed segment")
    end.

Definition scan_segment (segment_id : Z) (file : bytes) (repair_tail : bool) (a : Analysis.t)
    : res (Z * Analysis.t * bytes) :=
  scan_segment_with_tail_handling segment_id file (if repair_tail then Repair else Reject) a.
End scan.

(** ** Scanning a sequence of frames *)

Section scan_theory.
Context `{Crc32Spec}.
Implicit Types (f : Frame.t) (fs : list Frame.t) (a : Analysis.t).

Definition frames_bytes fs : bytes := concat (frame_bytes <$> fs).
Definition frame_checksum f : Z :=
  crc32 (frame_prefix (Frame.lsn f) (frame_body f) ++ frame_body f).

(** [accept] over frames laid out from [offset] on. *)
Fixpoint accept_frames (seg offset : Z) fs a : res Analysis.t :=
  match fs with
  | [] => Ok a
  | f :: fs =>
      a ← Analysis.accept a f (frame_checksum f)
            (mkFramePosition seg offset (len (frame_bytes f)));
      accept_frames seg (offset + len (frame_bytes f)) fs a
  end.

(** What a crash can leave after the last complete frame: nothing, or a
    proper prefix of a frame. *)
Definition torn (tail : bytes) : Prop :=
  tail = [] ∨ ∃ f n, frame_ok f ∧ (n < length (frame_bytes f))%nat ∧ tail = take n (frame_bytes f).

Lemma frames_bytes_cons f fs : frames_bytes (f :: fs) = frame_bytes f ++ frames_bytes fs.
Proof. done. Qed.
Lemma frames_bytes_app x y : frames_bytes (x ++ y) = frames_bytes x ++ frames_bytes y.
Proof. unfold frames_bytes. by rewrite fmap_app, concat_app. Qed.
Lemma accept_frames_app seg off x y a :
  accept_frames seg off (x ++ y) a =
  (a ← accept_frames seg off x a; accept_frames seg (off + len (frames_bytes x)) y a).
Proof.
  revert off a. induction x as [|f x IH]; intros off a; simpl.
  - change (frames_bytes []) with (@nil byte). by rewrite len_nil, Z.add_0_r.
  - destruct (Analysis.accept _ _ _ _); simpl; [|done|done].
    rewrite IH, frames_bytes_cons, len_app, Z.add_assoc. done.
Qed.

Lemma frame_bytes_pos f : 37 <= len (frame_bytes f).
Proof.
  rewrite frame_bytes_len, frame_body_len. unfold record_body_len, FRAME_HEADER_SIZE.
  destruct (Frame.record f) as [c|]; [|lia].
  pose proof (len_nonneg (LogCommand.key c)). pose proof (len_nonneg (LogCommand.value c)). lia.
Qed.

Lemma take_header f rest :
  take (Z.to_nat FRAME_HEADER_SIZE) (frame_bytes f ++ rest) =
  frame_header (Frame.lsn f) (frame_body f).
Proof.
  unfold frame_bytes. rewrite <- (assoc_L (++)).
  rewrite <- (frame_header_len (Frame.lsn f) (frame_body f)). unfold len.
  by rewrite Nat2Z.id, take_app_length.
Qed.
Lemma drop_header f rest :
  drop (Z.to_nat FRAME_HEADER_SIZE) (frame_bytes f ++ rest) = frame_body f ++ rest.
Proof.
  unfold frame_bytes. rewrite <- (assoc_L (++)).
  rewrite <- (frame_header_len (Frame.lsn f) (frame_body f)). unfold len.
  by rewrite Nat2Z.id, drop_app_length.
Qed.

(** A complete frame at the front is verified, decoded and accepted. *)
Lemma scan_frame_run seg off f rest a :
  frame_ok f →
  scan_frame seg off (frame_bytes f ++ rest) a =
  (a ← Analysis.accept a f (frame_checksum f) (mkFramePosition seg off (len (frame_bytes f)));
   mret (Some (len (frame_bytes f), a))).
Proof.
  intros Hf. pose proof (frame_body_bounds f Hf) as Hb. pose proof Hf as (Hl & _).
  unfold scan_frame. rewrite take_header, drop_header, len_app, frame_bytes_len.
  pose proof (len_nonneg rest). unfold MAX_FRAME_SIZE in *.
  rewrite (proj2 (Z.ltb_ge _ FRAME_HEADER_SIZE)) by lia.
  rewrite frame_header_run by (first [done | word_lia]). cbn [mbind res_bind].
  rewrite (proj2 (Z.leb_le 17 _)), (proj2 (Z.leb_le (len (frame_body f)) _)) by lia.
  cbn [andb guard_err mbind res_bind].
  rewrite (proj2 (Z.ltb_ge _ (len (frame_body f)))) by lia.
  assert (take (Z.to_nat (len (frame_body f))) (frame_body f ++ rest) = frame_body f) as ->.
  { unfold len. by rewrite Nat2Z.id, take_app_length. }
  rewrite verify_frame_body_run. cbn [mbind res_bind]. rewrite decode_frame_run by done.
  cbn [mbind res_bind]. unfold frame_checksum. done.
Qed.

(** A torn frame ends the scan without an error. *)
Lemma scan_frame_torn seg off tail a : torn tail → scan_frame seg off tail a = Ok None.
Proof.
  intros [->|(f & n & Hf & Hn & ->)]; [done|].
  pose proof (frame_body_bounds f Hf) as Hb. pose proof Hf as (Hl & _).
  unfold scan_frame. destruct (Z.ltb_spec (len (take n (frame_bytes f))) FRAME_HEADER_SIZE) as [|Hge]; [done|].
  assert (len (take n (frame_bytes f)) < len (frame_bytes f)) as Hlt.
  { unfold len. rewrite length_take. lia. }
  assert (take (Z.to_nat FRAME_HEADER_SIZE) (take n (frame_bytes f)) =
          frame_header (Frame.lsn f) (frame_body f)) as ->.
  { rewrite take_take, Nat.min_l by (unfold len in Hge; rewrite length_take in Hge; lia).
    rewrite <- (app_nil_r (frame_bytes f)). apply take_header. }
  unfold MAX_FRAME_SIZE in *.
  rewrite frame_header_run by (first [done | word_lia]). cbn [mbind res_bind].
  rewrite (proj2 (Z.leb_le 17 _)), (proj2 (Z.leb_le (len (frame_body f)) _)) by lia.
  cbn [andb guard_err mbind res_bind]. rewrite frame_bytes_len in Hlt.
  rewrite (proj2 (Z.ltb_lt _ _)) by lia. done.
Qed.

Lemma scan_loop_frames fuel seg off fs tail a a' :
  Forall frame_ok fs → torn tail →
  (length (frames_bytes fs ++ tail) <= fuel)%nat →
  accept_frames seg off fs a = Ok a' →
  scan_loop fuel WAL_VERSION seg off (frames_bytes fs ++ tail) a =
  Ok (off + len (frames_bytes fs), a').
Proof.
  intros Hok Ht. revert fuel off a. induction Hok as [|f fs Hf Hfs IH]; intros fuel off a Hfuel Ha.
  - simpl in Ha. injection Ha as ->. change (frames_bytes []) with (@nil byte) in *.
    rewrite len_nil, Z.add_0_r. cbn [app] in *. destruct fuel as [|fuel]; [done|]. cbn [scan_loop].
    destruct tail as [|b tail]; [done|]. change (WAL_VERSION =? LEGACY_WAL_VERSION) with false.
    by rewrite scan_frame_torn.
  - rewrite frames_bytes_cons, <- (assoc_L (++)) in *. cbn [accept_frames] in Ha.
    apply res_bind_Ok in Ha as (a1 & Ha1 & Ha). pose proof (frame_bytes_pos f) as Hpos.
    rewrite length_app in Hfuel. unfold len in Hpos.
    destruct fuel as [|fuel]; [lia|]. cbn [scan_loop].
    change (WAL_VERSION =? LEGACY_WAL_VERSION) with false. cbv iota.
    rewrite scan_frame_run, Ha1 by done. cbn [mbind res_bind mret res_ret].
    destruct (frame_bytes f ++ frames_bytes fs ++ tail) eqn:E.
    { apply (f_equal length) in E. rewrite length_app in E. simpl in E. lia. }
    rewrite <- E. rewrite (proj2 (Z.eqb_neq _ 0)) by (unfold len; lia).
    assert (drop (Z.to_nat (len (frame_bytes f))) (frame_bytes f ++ frames_bytes fs ++ tail)
            = frames_bytes fs ++ tail) as ->.
    { unfold len. by rewrite Nat2Z.id, drop_app_length. }
    rewrite (IH fuel _ a1) by (done || lia). rewrite len_app, Z.add_assoc. done.
Qed.

(** ** Scanning a segment *)

Definition wal_header : bytes := WALHeader.encode WALHeader.default_.
Definition seg_bytes fs : bytes := wal_header ++ frames_bytes fs.

Lemma wal_header_len : len wal_header = WAL_HEADER_SIZE.
Proof. by apply header_encode_len. Qed.
Lemma wal_header_run rest : WALHeader.decode (wal_header ++ rest) = Ok WALHeader.default_.
Proof.
  apply header_run. unfold header_ok. split_and!; [done | by right | |]; vm_compute; split; discriminate.
Qed.
Lemma drop_wal_header rest : drop (Z.to_nat WAL_HEADER_SIZE) (wal_header ++ rest) = rest.
Proof. rewrite <- wal_header_len. unfold len. by rewrite Nat2Z.id, drop_app_length. Qed.

Lemma scan_segment_run seg fs tail th a a' :
  Forall frame_ok fs → torn tail →
  accept_frames (if Analysis.track_refs a then seg else 0) WAL_HEADER_SIZE fs a = Ok a' →
  scan_segment_with_tail_handling seg (seg_bytes fs ++ tail) th a =
  match th with
  | Repair => Ok (WAL_VERSION, a', seg_bytes fs)
  | Allow => Ok (WAL_VERSION, a', seg_bytes fs ++ tail)
  | Reject => if bool_decide (tail = []) then Ok (WAL_VERSION, a', seg_bytes fs)
              else Err (Corrupted "Incomplete WAL frame in sealed segment")
  end.
Proof.
  intros Hok Ht Ha. unfold scan_segment_with_tail_handling.
  pose proof (eq_refl (seg_bytes fs ++ tail)) as Hfile.
  unfold seg_bytes in Hfile at 2. rewrite <- (assoc_L (++)) in Hfile.
  set (file := seg_bytes fs ++ tail) in *.
  assert (len file = WAL_HEADER_SIZE + len (frames_bytes fs) + len tail) as Hlen.
  { rewrite Hfile, !len_app, wal_header_len. lia. }
  pose proof (len_nonneg (frames_bytes fs)). pose proof (len_nonneg tail).
  assert (WALHeader.decode file = Ok WALHeader.default_) as Hdec by (rewrite Hfile; apply wal_header_run).
  assert (drop (Z.to_nat WAL_HEADER_SIZE) file = frames_bytes fs ++ tail) as Hdrop
    by (rewrite Hfile; apply drop_wal_header).
  rewrite (proj2 (Z.ltb_ge (len file) WAL_HEADER_SIZE)) by lia. cbn [andb mbind res_bind].
  rewrite Hdec. cbn [mbind res_bind WALHeader.default_ WALHeader.version
    WALHeader.last_checkpoint WALHeader.last_checkpoint_offset].
  change (WAL_VERSION =? LEGACY_WAL_VERSION) with false. cbn [andb negb orb guard_err Z.eqb mbind res_bind].
  rewrite Hdrop.
  rewrite (scan_loop_frames _ _ _ fs tail a a'); [|done|done| |done].
  2: { rewrite Hfile, !length_app. lia. }
  cbn [mbind res_bind].
  replace (if bool_decide (th = Repair) then file else file) with file by (by destruct (bool_decide _)).
  destruct (Z.eqb_spec (WAL_HEADER_SIZE + len (frames_bytes fs)) (len file)) as [E|E].
  - assert (tail = []) as -> by (apply len_0_nil; lia).
    unfold file. rewrite app_nil_r. by destruct th.
  - assert (tail ≠ []) by (intros ->; apply E; rewrite Hlen, len_nil; lia).
    destruct th; [|done|by rewrite bool_decide_false].
    unfold file. replace (WAL_HEADER_SIZE + len (frames_bytes fs)) with (len (seg_bytes fs)).
    2: { unfold seg_bytes. by rewrite len_app, wal_header_len. }
    unfold len. by rewrite Nat2Z.id, take_app_length.
Qed.

(** A header the crash cut short is completed, or read as if it were. *)
Lemma starts_with_take n (x : bytes) : starts_with (take n x) x = true.
Proof. apply starts_with_spec. exists (drop n x). by rewrite take_drop. Qed.
Lemma complete_header_run n a : complete_header (take n wal_header) a = Ok wal_header.
Proof.
  unfold complete_header. cbn [List.filter]. change (WAL_VERSION =? LEGACY_WAL_VERSION) with false.
  cbn [negb orb fmap list_fmap List.find].
  change (WALHeader.encode (WALHeader.with_version WAL_VERSION)) with wal_header.
  by rewrite starts_with_take.
Qed.
Lemma scan_torn_header seg n th a :
  (n < 36)%nat → th ≠ Reject →
  scan_segment_with_tail_handling seg (take n wal_header) th a =
  Ok (WAL_VERSION, a, if bool_decide (th = Repair) then wal_header else take n wal_header).
Proof.
  intros Hn Hth. unfold scan_segment_with_tail_handling.
  assert (len (take n wal_header) < WAL_HEADER_SIZE) as Hl.
  { unfold len. rewrite length_take. unfold WAL_HEADER_SIZE. lia. }
  rewrite (proj2 (Z.ltb_lt _ _) Hl), (bool_decide_false (th = Reject)) by done. cbn [andb negb].
  rewrite complete_header_run. cbn [mbind res_bind].
  pose proof (wal_header_run []) as Hdec. pose proof (drop_wal_header []) as Hdrop.
  rewrite app_nil_r in Hdec, Hdrop. rewrite Hdec.
  cbn [mbind res_bind WALHeader.default_ WALHeader.version
    WALHeader.last_checkpoint WALHeader.last_checkpoint_offset].
  change (WAL_VERSION =? LEGACY_WAL_VERSION) with false. cbn [andb negb orb guard_err Z.eqb mbind res_bind].
  rewrite Hdrop.
  assert (∀ fuel v s o, scan_loop fuel v s o [] a = Ok (o, a)) as -> by (by intros []).
  cbn [mbind res_bind]. rewrite wal_header_len, Z.eqb_refl. done.
Qed.
End scan_theory.

(** ** What an accepted frame does to the analysis *)

Section analysis_theory.
Context `{Crc32Spec}.
Implicit Types (f : Frame.t) (fs : list Frame.t) (a : Analysis.t) (t : Z).

(** The updates of an analysis, each with its transaction, positions aside. *)
Definition upds a : list (Z * WALRecord.t) :=
  (λ u, (lu_transaction_id u, Analysis.record_of u)) <$> Analysis.updates a.
Definition record_of_command (c : LogCommand.t) (ck : Z) : WALRecord.t :=
  WALRecord.mk (record_type_u8 (LogCommand.record_type c)) (LogCommand.lsn c)
    (LogCommand.key c) (LogCommand.value c) ck.
Definition frame_upds f (ck : Z) : list (Z * WALRecord.t) :=
  match Frame.record f with
  | Update c => [(Frame.transaction_id f, record_of_command c ck)]
  | Commit => []
  end.
Definition is_commit f : bool := match Frame.record f with Commit => true | _ => false end.
Definition prev_of a t : Z := default 0 (om_get t (Analysis.previous_lsns a)).

Lemma redo_upds a :
  Analysis.redo a =
  Analysis.legacy a ++ (snd <$> List.filter (λ u, Analysis.is_committed a (fst u)) (upds a)).
Proof.
  unfold Analysis.redo, upds. f_equal. generalize (Analysis.is_committed a). intros p.
  induction (Analysis.updates a) as [|u us IH]; [done|].
  rewrite fmap_cons. cbn [List.filter fst]. destruct (p (lu_transaction_id u)); [|done].
  rewrite !fmap_cons. cbn [snd]. by rewrite IH.
Qed.
Lemma is_committed_insert a t t' m :
  bool_decide (om_get t' (om_insert t tt m) ≠ None) =
  bool_decide (om_get t' m ≠ None) || (t' =? t).
Proof.
  rewrite om_get_insert. case_decide; subst; [rewrite Z.eqb_refl, orb_true_r; by apply bool_decide_true|].
  rewrite (proj2 (Z.eqb_neq _ _)) by done. by rewrite orb_false_r.
Qed.

(** The frames [accept] lets through. *)
Definition acceptable a f : Prop :=
  Frame.lsn f = wrap64 (Analysis.latest_lsn a + 1) ∧ Frame.transaction_id f ≠ 0 ∧
  Analysis.is_committed a (Frame.transaction_id f) = false ∧
  Frame.previous_lsn f = prev_of a (Frame.transaction_id f) ∧
  (is_commit f = true → Frame.previous_lsn f ≠ 0).

Record accepted a f (ck : Z) a' : Prop := {
  ac_latest : Analysis.latest_lsn a' = Frame.lsn f;
  ac_prev : ∀ t, prev_of a' t = if decide (t = Frame.transaction_id f) then Frame.lsn f else prev_of a t;
  ac_committed : ∀ t, Analysis.is_committed a' t =
    Analysis.is_committed a t || (is_commit f && (t =? Frame.transaction_id f));
  ac_upds : upds a' = upds a ++ frame_upds f ck;
  ac_legacy : Analysis.legacy a' = Analysis.legacy a;
  ac_track : Analysis.track_refs a' = Analysis.track_refs a
}.

Lemma prev_of_insert a t t' l :
  default 0 (om_get t' (om_insert t l (Analysis.previous_lsns a))) =
  if decide (t' = t) then l else prev_of a t'.
Proof. rewrite om_get_insert. by case_decide. Qed.

Lemma accept_iff a f ck pos :
  (∃ a', Analysis.accept a f ck pos = Ok a') ↔ acceptable a f.
Proof.
  unfold Analysis.accept, acceptable, is_commit. fold (prev_of a (Frame.transaction_id f)).
  destruct (Z.eqb_spec (Frame.lsn f) (wrap64 (Analysis.latest_lsn a + 1))) as [E1|E1];
    [|simpl; split; [by intros [? ?] | naive_solver]].
  destruct (Z.eqb_spec (Frame.transaction_id f) 0) as [E2|E2];
    [simpl; split; [by intros [? ?] | naive_solver]|].
  destruct (Analysis.is_committed a (Frame.transaction_id f)) eqn:E3;
    [simpl; split; [by intros [? ?] | naive_solver]|].
  destruct (Z.eqb_spec (Frame.previous_lsn f) (prev_of a (Frame.transaction_id f))) as [E4|E4];
    [|simpl; split; [by intros [? ?] | naive_solver]].
  cbn [negb orb]. destruct (Frame.record f) as [c|] eqn:Er.
  - simpl. split; [intros _; split_and!; done | eauto].
  - destruct (Z.eqb_spec (prev_of a (Frame.transaction_id f)) 0) as [E5|E5].
    + simpl. split; [by intros [? ?]|]. intros (_&_&_&_&Hn). destruct Hn; [done|congruence].
    + simpl. split; [intros _; split_and!; congruence | eauto].
Qed.

Lemma accept_effect a f ck pos a' :
  Analysis.accept a f ck pos = Ok a' → accepted a f ck a'.
Proof.
  unfold Analysis.accept. fold (prev_of a (Frame.transaction_id f)). case_match; [done|].
  destruct (Frame.record f) as [c|] eqn:Er.
  - simpl. intros [= <-]. split; simpl.
    + done.
    + intros t. apply prev_of_insert.
    + intros t. unfold is_commit. rewrite Er. simpl. by rewrite orb_false_r.
    + unfold upds, frame_upds. rewrite Er. simpl. by rewrite fmap_app.
    + done.
    + done.
  - case_match; [done|]. simpl. intros [= <-]. split; simpl.
    + done.
    + intros t. apply prev_of_insert.
    + intros t. unfold Analysis.is_committed, is_commit; simpl. rewrite Er. simpl.
      apply (is_committed_insert a).
    + unfold upds, frame_upds; simpl. by rewrite Er, app_nil_r.
    + done.
    + done.
Qed.

(** ** Transactions *)

Implicit Types (g : list LogCommand.t) (gs : list (list LogCommand.t)).

(** The update frames of a transaction, chained through [previous_lsn]. *)
Fixpoint update_frames (tid prev lsn : Z) g : list Frame.t :=
  match g with
  | [] => []
  | c :: g => Frame.mk lsn tid prev (Update c) :: update_frames tid lsn (lsn + 1) g
  end.
(** A transaction: its updates, then the commit. *)
Definition group_frames (lsn : Z) g : list Frame.t :=
  update_frames lsn 0 lsn g ++ [Frame.mk (lsn + len g) lsn (lsn + len g - 1) Commit].
Fixpoint groups_frames (lsn : Z) gs : list Frame.t :=
  match gs with
  | [] => []
  | g :: gs => group_frames lsn g ++ groups_frames (lsn + len g + 1) gs
  end.
(** The number of frames, which is the number of LSNs used. *)
Definition groups_size gs : Z := foldr (λ g n, len g + 1 + n) 0 gs.

(** The records a transaction's updates become on recovery. *)
Fixpoint update_records (tid prev lsn : Z) g : list WALRecord.t :=
  match g with
  | [] => []
  | c :: g =>
      record_of_command c (frame_checksum (Frame.mk lsn tid prev (Update c)))
      :: update_records tid lsn (lsn + 1) g
  end.
Fixpoint groups_records (lsn : Z) gs : list WALRecord.t :=
  match gs with
  | [] => []
  | g :: gs => update_records lsn 0 lsn g ++ groups_records (lsn + len g + 1) gs
  end.

(** Transaction identifiers never run ahead of the last LSN. *)
Record an_inv a : Prop := {
  ai_latest : 0 <= Analysis.latest_lsn a;
  ai_prev : ∀ t, prev_of a t ≠ 0 → t <= Analysis.latest_lsn a;
  ai_committed : ∀ t, Analysis.is_committed a t = true → t <= Analysis.latest_lsn a;
  ai_upds : ∀ u, u ∈ upds a → fst u <= Analysis.latest_lsn a
}.

(** The combined effect of several frames of transaction [tid]. *)
Record effect a (tid n : Z) (us : list WALRecord.t) (commits : bool) a' : Prop := {
  ef_latest : Analysis.latest_lsn a' = Analysis.latest_lsn a + n;
  ef_prev : ∀ t, t ≠ tid → prev_of a' t = prev_of a t;
  ef_committed : ∀ t, Analysis.is_committed a' t =
    Analysis.is_committed a t || (commits && (t =? tid));
  ef_upds : upds a' = upds a ++ (pair tid <$> us);
  ef_legacy : Analysis.legacy a' = Analysis.legacy a;
  ef_track : Analysis.track_refs a' = Analysis.track_refs a
}.

Lemma accept_updates seg tid g off prev lsn a :
  0 <= Analysis.latest_lsn a → lsn = Analysis.latest_lsn a + 1 → lsn + len g - 1 <= u64_max →
  tid ≠ 0 → Analysis.is_committed a tid = false → prev = prev_of a tid →
  ∃ a', accept_frames seg off (update_frames tid prev lsn g) a = Ok a' ∧
    effect a tid (len g) (update_records tid prev lsn g) false a' ∧
    prev_of a' tid = match g with [] => prev | _ => lsn + len g - 1 end.
Proof.
  intros Hl -> Hmax Ht Hc ->. revert off a Hl Hmax Hc. induction g as [|c g IH]; intros off a Hl Hmax Hc.
  { exists a. split; [done|]. split; [|done]. split; try done.
    - rewrite len_nil. lia.
    - intros. by rewrite orb_false_r.
    - by rewrite app_nil_r. }
  cbn [update_frames accept_frames]. rewrite len_cons in *. pose proof (len_nonneg g).
  set (f := Frame.mk (Analysis.latest_lsn a + 1) tid (prev_of a tid) (Update c)).
  destruct (proj2 (accept_iff a f (frame_checksum f) (mkFramePosition seg off (len (frame_bytes f)))))
    as [a1 Ha1].
  { split_and!; try done. simpl. by rewrite wrap64_id by word_lia. }
  rewrite Ha1. cbn [mbind res_bind]. apply accept_effect in Ha1 as [Hl1 Hp1 Hc1 Hu1 Hg1 Ht1].
  simpl in Hl1, Hp1, Hc1. pose proof (Hp1 tid) as Hp1t. rewrite decide_True in Hp1t by done.
  destruct (IH (off + len (frame_bytes f)) a1) as (a2 & Ha2 & [Hl2 Hp2 Hc2 Hu2 Hg2 Ht2] & Hpt).
  { lia. } { lia. } { by rewrite Hc1, orb_false_r. }
  rewrite Hl1, Hp1t in *. exists a2. split; [done|]. split.
  - split.
    + lia.
    + intros t Hne. rewrite Hp2, Hp1 by done. by rewrite decide_False.
    + intros t. rewrite Hc2, Hc1. by rewrite !orb_false_r.
    + rewrite Hu2, Hu1. cbn [update_records]. rewrite fmap_cons, <- (assoc_L (++)). done.
    + congruence.
    + congruence.
  - rewrite Hpt. destruct g; [rewrite len_nil; lia | lia].
Qed.

(** A whole transaction is accepted and becomes committed. *)
Lemma accept_group seg off g a :
  an_inv a → g ≠ [] → Analysis.latest_lsn a + 1 + len g <= u64_max →
  ∃ a', accept_frames seg off (group_frames (Analysis.latest_lsn a + 1) g) a = Ok a' ∧
    effect a (Analysis.latest_lsn a + 1) (len g + 1)
      (update_records (Analysis.latest_lsn a + 1) 0 (Analysis.latest_lsn a + 1) g) true a' ∧
    an_inv a'.
Proof.
  intros [Hl Hp Hc Hu] Hne Hmax. set (lsn := Analysis.latest_lsn a + 1).
  assert (prev_of a lsn = 0) as Hp0.
  { destruct (decide (prev_of a lsn = 0)) as [|Hx]; [done|]. apply Hp in Hx. lia. }
  assert (Analysis.is_committed a lsn = false) as Hc0.
  { destruct (Analysis.is_committed a lsn) eqn:E; [|done]. apply Hc in E. lia. }
  destruct (accept_updates seg lsn g off (prev_of a lsn) lsn a) as (a1 & Ha1 & [Hl1 Hp1 Hc1 Hu1 Hg1 Ht1] & Hpt1);
    [done | done | lia | lia | done | done |]. rewrite Hp0 in *.
  unfold group_frames. rewrite accept_frames_app, Ha1. cbn [mbind res_bind accept_frames].
  destruct g as [|c g']; [done|]. set (g := c :: g') in *.
  pose proof (len_nonneg g). assert (1 <= len g) by (unfold g; rewrite len_cons; pose proof (len_nonneg g'); lia).
  set (f := Frame.mk (lsn + len g) lsn (lsn + len g - 1) Commit).
  match goal with |- context [Analysis.accept a1 f ?ck ?pos] =>
    destruct (proj2 (accept_iff a1 f ck pos)) as [a2 Ha2] end.
  { unfold acceptable; simpl. rewrite Hl1, Hc1, Hpt1, Hc0, wrap64_id by word_lia.
    split_and!; try done; lia. }
  rewrite Ha2. cbn [mbind res_bind]. apply accept_effect in Ha2 as [Hl2 Hp2 Hc2 Hu2 Hg2 Ht2].
  simpl in *. exists a2. split; [done|].
  assert (effect a lsn (len g + 1) (update_records lsn 0 lsn g) true a2) as He.
  { split.
    - rewrite Hl2. lia.
    - intros t Hne'. rewrite Hp2, decide_False, Hp1 by done. done.
    - intros t. rewrite Hc2, Hc1. by rewrite orb_false_r.
    - rewrite Hu2, Hu1. by rewrite app_nil_r.
    - congruence.
    - congruence. }
  split; [done|]. destruct He as [Hl' Hp' Hc' Hu' _ _]. split; [lia| | |].
  - intros t Ht. destruct (decide (t = lsn)); [lia|]. rewrite Hp' in Ht by done. apply Hp in Ht. lia.
  - intros t. rewrite Hc', orb_true_iff, andb_true_iff, Z.eqb_eq.
    intros [Ht%Hc|[_ ->]]; lia.
  - intros u. rewrite Hu', elem_of_app. intros [Hin%Hu|Hin]; [lia|].
    apply list_elem_of_fmap in Hin as (r & -> & _). simpl. lia.
Qed.

(** Redo sees a committed transaction, and nothing of an unfinished one. *)
Lemma filter_ext_in {A} (p q : A → bool) (l : list A) :
  (∀ x, x ∈ l → p x = q x) → List.filter p l = List.filter q l.
Proof.
  induction l as [|x l IH]; intros Hpq; [done|]. simpl.
  rewrite (Hpq x) by apply list_elem_of_here. rewrite IH; [done|]. intros y Hy. apply Hpq. by right.
Qed.
Lemma filter_all_pair (p : Z * WALRecord.t → bool) (t : Z) (b : bool) (us : list WALRecord.t) :
  (∀ r, p (t, r) = b) → snd <$> List.filter p (pair t <$> us) = if b then us else [].
Proof.
  intros Hp. induction us as [|r us IH]; [by destruct b|]. rewrite fmap_cons. cbn [List.filter].
  rewrite Hp. destruct b; [|done]. rewrite fmap_cons, IH. done.
Qed.
Lemma redo_effect a n us commits a' :
  an_inv a → effect a (Analysis.latest_lsn a + 1) n us commits a' →
  Analysis.redo a' = Analysis.redo a ++ (if commits then us else []).
Proof.
  intros [_ _ Hc Hu] [_ _ Hc' Hu' Hg _]. rewrite !redo_upds, Hg, Hu', <- (assoc_L (++)). f_equal.
  rewrite List.filter_app, fmap_app. f_equal.
  - f_equal. apply filter_ext_in. intros u Hin. rewrite Hc'.
    apply Hu in Hin. rewrite (proj2 (Z.eqb_neq _ _)) by lia. by rewrite andb_false_r, orb_false_r.
  - apply filter_all_pair. intros r. simpl. rewrite Hc', Z.eqb_refl, andb_true_r.
    destruct (Analysis.is_committed a (Analysis.latest_lsn a + 1)) eqn:E; [apply Hc in E; lia | done].
Qed.

(** ** Prefixes of a batch of transactions *)

Lemma update_frames_length tid prev lsn g : length (update_frames tid prev lsn g) = length g.
Proof. revert prev lsn. induction g; intros; simpl; auto. Qed.
Lemma update_frames_take k tid prev lsn g :
  take k (update_frames tid prev lsn g) = update_frames tid prev lsn (take k g).
Proof. revert k prev lsn. induction g; intros [|k] prev lsn; simpl; f_equal; auto. Qed.
Lemma group_frames_length lsn g : length (group_frames lsn g) = S (length g).
Proof. unfold group_frames. rewrite length_app, update_frames_length. simpl. lia. Qed.

(** How many transactions lie entirely within the first [k] frames. *)
Fixpoint completed (k : nat) gs : nat :=
  match gs with
  | [] => O
  | g :: gs => if (k <=? length g)%nat then O else S (completed (k - S (length g)) gs)
  end.

Lemma completed_all k gs : (length (groups_frames 0 gs) <= k)%nat → completed k gs = length gs.
Proof.
  assert (∀ l l', length (groups_frames l gs) = length (groups_frames l' gs)) as Hl.
  { induction gs as [|g gs' IH]; intros l l'; [done|]. simpl.
    rewrite !length_app, !group_frames_length. by rewrite (IH _ (l' + len g + 1)). }
  revert k. induction gs as [|g gs IH]; intros k Hk; [done|]. simpl in *.
  rewrite length_app, group_frames_length in Hk.
  destruct (Nat.leb_spec k (length g)); [lia|]. f_equal. apply IH.
  - intros l l'. specialize (Hl (l - len g - 1) (l' - len g - 1)).
    rewrite !length_app, !group_frames_length in Hl.
    replace (l - len g - 1 + len g + 1) with l in Hl by lia.
    replace (l' - len g - 1 + len g + 1) with l' in Hl by lia. lia.
  - specialize (Hl 0 (- len g - 1)). rewrite !length_app, !group_frames_length in Hl.
    replace (- len g - 1 + len g + 1) with 0 in Hl by lia. lia.
Qed.

(** An unfinished transaction leaves what redo returns alone. *)
Lemma accept_torn_group seg off g a :
  an_inv a → Analysis.latest_lsn a + len g <= u64_max →
  ∃ a', accept_frames seg off
          (update_frames (Analysis.latest_lsn a + 1) 0 (Analysis.latest_lsn a + 1) g) a = Ok a' ∧
    an_inv a' ∧ Analysis.latest_lsn a' = Analysis.latest_lsn a + len g ∧
    Analysis.redo a' = Analysis.redo a ∧ Analysis.track_refs a' = Analysis.track_refs a.
Proof.
  intros Hi Hmax. pose proof Hi as [Hl Hp Hc Hu]. set (lsn := Analysis.latest_lsn a + 1) in *.
  destruct g as [|c g']; [exists a; split_and!; try done; rewrite len_nil; lia|].
  set (g := c :: g') in *.
  assert (1 <= len g) by (unfold g; rewrite len_cons; pose proof (len_nonneg g'); lia).
  assert (prev_of a lsn = 0) as Hp0.
  { destruct (decide (prev_of a lsn = 0)) as [|Hx]; [done|]. apply Hp in Hx. lia. }
  assert (Analysis.is_committed a lsn = false) as Hc0.
  { destruct (Analysis.is_committed a lsn) eqn:E; [|done]. apply Hc in E. lia. }
  destruct (accept_updates seg lsn g off (prev_of a lsn) lsn a) as (a1 & Ha1 & He & _);
    [done | done | lia | lia | done | done |]. rewrite Hp0 in *.
  exists a1. split; [done|]. pose proof (redo_effect _ _ _ _ _ Hi He) as Hr.
  rewrite app_nil_r in Hr. destruct He as [Hl' Hp' Hc' Hu' _ Ht]. split_and!; [|lia|done|done].
  split; [lia| | |].
  - intros t Htt. destruct (decide (t = lsn)); [lia|]. rewrite Hp' in Htt by done. apply Hp in Htt. lia.
  - intros t. rewrite Hc', orb_false_r. intros Htt%Hc. lia.
  - intros u. rewrite Hu', elem_of_app. intros [Hin%Hu|Hin]; [lia|].
    apply list_elem_of_fmap in Hin as (r & -> & _). simpl. lia.
Qed.

Lemma accept_groups_prefix seg off gs k a :
  an_inv a → Forall (λ g, g ≠ []) gs → Analysis.latest_lsn a + groups_size gs <= u64_max →
  ∃ a', accept_frames seg off (take k (groups_frames (Analysis.latest_lsn a + 1) gs)) a = Ok a' ∧
    an_inv a' ∧ Analysis.track_refs a' = Analysis.track_refs a ∧
    Analysis.latest_lsn a' =
      Analysis.latest_lsn a + len (take k (groups_frames (Analysis.latest_lsn a + 1) gs)) ∧
    Analysis.redo a' = Analysis.redo a ++
      groups_records (Analysis.latest_lsn a + 1) (take (completed k gs) gs).
Proof.
  intros Hi Hne. revert k off a Hi. induction Hne as [|g gs Hg Hgs IH]; intros k off a Hi Hmax.
  { exists a. simpl. rewrite take_nil, app_nil_r, len_nil. split_and!; try done. lia. }
  simpl in Hmax. assert (0 <= groups_size gs) as Hgs0.
  { clear. induction gs as [|g gs IH]; simpl; [lia|]. pose proof (len_nonneg g). lia. }
  pose proof (len_nonneg g). cbn [groups_frames completed].
  destruct (Nat.leb_spec k (length g)) as [Hk|Hk].
  - rewrite take_app_le by (rewrite group_frames_length; lia).
    unfold group_frames. rewrite take_app_le by (rewrite update_frames_length; lia).
    rewrite update_frames_take.
    assert (len (take k g) <= len g) as Htk by (unfold len; rewrite length_take; lia).
    destruct (accept_torn_group seg off (take k g) a Hi ltac:(lia)) as (a' & Ha' & Hi' & Hl' & Hr' & Ht').
    exists a'. simpl. rewrite app_nil_r. split_and!; try done.
    rewrite Hl'. f_equal. unfold len. by rewrite update_frames_length.
  - rewrite take_app, (take_ge (group_frames _ _)) by (rewrite group_frames_length; lia).
    rewrite group_frames_length.
    destruct (accept_group seg off g a Hi Hg ltac:(lia)) as (a1 & Ha1 & He & Hi1).
    pose proof (redo_effect _ _ _ _ _ Hi He) as Hr1. pose proof (ef_latest _ _ _ _ _ _ He) as Hl1.
    pose proof (ef_track _ _ _ _ _ _ He) as Ht1.
    rewrite accept_frames_app, Ha1. cbn [mbind res_bind].
    replace (Analysis.latest_lsn a + 1 + len g + 1) with (Analysis.latest_lsn a1 + 1) by lia.
    destruct (IH (k - S (length g))%nat
      (off + len (frames_bytes (group_frames (Analysis.latest_lsn a + 1) g))) a1 Hi1 ltac:(lia))
      as (a2 & Ha2 & Hi2 & Ht2 & Hl2 & Hr2).
    exists a2. split_and!; [done | done | congruence | |].
    + rewrite Hl2, Hl1, len_app. unfold len at 4. rewrite group_frames_length. unfold len. lia.
    + cbn [take groups_records]. rewrite Hr2, Hr1, <- (assoc_L (++)). do 3 f_equal. lia.
Qed.

(** ** Byte prefixes of a batch *)

Lemma frames_bytes_prefix n fs :
  Forall frame_ok fs →
  ∃ k tail, take n (frames_bytes fs) = frames_bytes (take k fs) ++ tail ∧ torn tail ∧
    ((length (frames_bytes fs) <= n)%nat → (length fs <= k)%nat).
Proof.
  intros Hok. revert n. induction Hok as [|f fs Hf Hfs IH]; intros n.
  { exists O, []. split_and!; [|by left | done]. by destruct n. }
  rewrite frames_bytes_cons. destruct (decide (n < length (frame_bytes f))%nat) as [Hn|Hn].
  - exists O, (take n (frame_bytes f)). rewrite take_app_le by lia. split_and!; [done | right; eauto |].
    rewrite length_app. lia.
  - destruct (IH (n - length (frame_bytes f))%nat) as (k & tail & Ht & Htorn & Hall).
    exists (S k), tail. rewrite take_app, take_ge by lia. cbn [take].
    rewrite Ht, frames_bytes_cons, (assoc_L (++)). split_and!; [done | done |].
    rewrite length_app. simpl. intros. specialize (Hall ltac:(lia)). lia.
Qed.
End analysis_theory.
