(* ===== verification/Wal.v ===== *)
(** * The write-ahead log: [WALManager] of [src/src/storage/recovermanager/wal.rs]

    The log directory and the writer state, with every operation as a state
    transformer: opening (with tail repair), appending groups of transactions,
    rotation, recovery, value lookup by reference, checkpoints and segment
    reclamation.  Disk failures are arguments of the operations: a failed
    write says how many bytes reached the disk, so that "the process stopped
    here" is the state after a failed operation, reopened. *)

From S2P Require Import Prelude Bytes OrdMap Search Record WalFormat WalAnalysis.

(** ** The directory *)

Inductive FileKind : Type := RegularFile | Directory | Symlink | OtherKind.
#[export] Instance FileKind_eq_dec : EqDecision FileKind.
Proof. solve_decision. Defined.

(** A directory entry that is not a canonically named regular segment file:
    the number its name [<n>.log] parses to, if any, whether the name is the
    canonical one for that number, its kind and its length. *)
Record ForeignEntry : Type := mkForeignEntry {
  fe_id : option Z;
  fe_canonical : bool;
  fe_kind : FileKind;
  fe_len : Z
}.

(** Segment files by number, and everything else. *)
Record WalDir : Type := mkWalDir {
  wd_segs : ordmap Z bytes;
  wd_foreign : list ForeignEntry
}.
Definition empty_dir : WalDir := mkWalDir [] [].
Definition set_segs (d : WalDir) (m : ordmap Z bytes) : WalDir := mkWalDir m (wd_foreign d).

(** [manifest_codec.rs]: where replay starts. *)
Record RecoveryCheckpoint : Type := mkRecoveryCheckpoint {
  replay_start_segment : Z;
  next_physical_lsn : Z;
  committed_sequence : Z
}.
#[export] Instance RecoveryCheckpoint_eq_dec : EqDecision RecoveryCheckpoint.
Proof. solve_decision. Defined.

(** [paths.windows(2).any(..)]: two neighbours that are not consecutive. *)
Fixpoint gap_free (ids : list Z) : bool :=
  match ids with
  | [] | [_] => true
  | x :: (y :: _) as rest =>
      negb ((x =? y) || negb (bool_decide (checked_add x 1 = Some y))) && gap_free rest
  end.

(** The loop over [read_dir]: an entry with a number at or above the floor
    must be a canonically named regular file. *)
Fixpoint check_foreign (floor : option Z) (es : list ForeignEntry) : res unit :=
  match es with
  | [] => Ok tt
  | e :: es =>
      match fe_id e with
      | None => check_foreign floor es
      | Some id =>
          if match floor with Some fl => id <? fl | None => false end
          then check_foreign floor es
          else if negb (fe_canonical e)
          then Err (Corrupted "WAL segment filename is not canonical")
          else Err (Corrupted "WAL segment is not a regular file")
      end
  end.

Definition segment_paths (d : WalDir) (floor : option Z) : res (list (Z * bytes)) :=
  _ ← check_foreign floor (wd_foreign d);
  let paths := List.filter (λ p, match floor with Some fl => fl <=? fst p | None => true end)
                 (wd_segs d) in
  _ ← guard_err (match floor with
                 | Some fl => bool_decide (fst <$> head paths = Some fl)
                 | None => true
                 end) (Corrupted "Missing WAL checkpoint segment");
  _ ← guard_err (gap_free (fst <$> paths)) (Corrupted "Duplicate or missing WAL segment");
  mret paths.

(** ** The writer *)

Module Wal.
Record t : Type := mk {
  dir : WalDir;
  segment_id : Z;
  size : Z;
  next_lsn : Z;
  poisoned : bool;
  sealed : ordmap Z unit;
  checkpoint : option RecoveryCheckpoint;
  max_segment_size : Z;
  raw_writes : bool;
  checkpoint_owner : bool;
  checkpoint_owner_registered : bool;
  checkpoint_token : option Z
}.

Definition set_dir (w : t) (d : WalDir) : t :=
  mk d (segment_id w) (size w) (next_lsn w) (poisoned w) (sealed w) (checkpoint w)
     (max_segment_size w) (raw_writes w) (checkpoint_owner w) (checkpoint_owner_registered w)
     (checkpoint_token w).
Definition set_poisoned (w : t) (b : bool) : t :=
  mk (dir w) (segment_id w) (size w) (next_lsn w) b (sealed w) (checkpoint w)
     (max_segment_size w) (raw_writes w) (checkpoint_owner w) (checkpoint_owner_registered w)
     (checkpoint_token w).
Definition set_checkpoint (w : t) (c : option RecoveryCheckpoint) : t :=
  mk (dir w) (segment_id w) (size w) (next_lsn w) (poisoned w) (sealed w) c
     (max_segment_size w) (raw_writes w) (checkpoint_owner w) (checkpoint_owner_registered w)
     (checkpoint_token w).
Definition set_sealed (w : t) (s : ordmap Z unit) : t :=
  mk (dir w) (segment_id w) (size w) (next_lsn w) (poisoned w) s (checkpoint w)
     (max_segment_size w) (raw_writes w) (checkpoint_owner w) (checkpoint_owner_registered w)
     (checkpoint_token w).

(** Bytes appended to the active segment file. *)
Definition write_active (w : t) (bs : bytes) : t :=
  let segs := wd_segs (dir w) in
  set_dir w (set_segs (dir w)
    (om_insert (segment_id w) (default [] (om_get (segment_id w) segs) ++ bs) segs)).

Definition ensure_healthy (w : t) : res unit :=
  guard_err (negb (poisoned w))
    (StorageError "WAL write interrupted or failed; reopen before reuse").

(** How a rotation can fail: with an error, and with the new segment absent
    or holding a prefix of its header. *)
Definition RotateFault : Type := io_kind * option nat.
(** How a write can fail: with an error, after this many bytes. *)
Definition WriteFault : Type := io_kind * nat.

Section ops.
Context `{Crc32}.

(** [create_segment]: [create_new], the header, and the two syncs. *)
Definition create_segment (d : WalDir) (id : Z) (fault : option RotateFault) : res unit * WalDir :=
  match fault with
  | Some (k, None) => (Err (IO k), d)
  | _ =>
      match om_get id (wd_segs d) with
      | Some _ => (Err (IO AlreadyExists), d)
      | None =>
          match fault with
          | Some (k, Some n) =>
              (Err (IO k), set_segs d (om_insert id (take n wal_header) (wd_segs d)))
          | _ => (Ok tt, set_segs d (om_insert id wal_header (wd_segs d)))
          end
      end
  end.

Definition rotate_locked (w : t) (fault : option RotateFault) : res unit * t :=
  match fault with
  | Some (k, None) => (Err (IO k), w)
  | _ =>
      match checked_add (segment_id w) 1 with
      | None => (Err (StorageError "WAL segment ID exhausted"), w)
      | Some next_id =>
          match create_segment (dir w) next_id fault with
          | (Ok _, d) =>
              (Ok tt, mk d next_id WAL_HEADER_SIZE (next_lsn w) (poisoned w)
                        (om_insert (segment_id w) tt (sealed w)) (checkpoint w)
                        (max_segment_size w) (raw_writes w) (checkpoint_owner w)
                        (checkpoint_owner_registered w) (checkpoint_token w))
          | (r, d) => (r, set_dir w d)
          end
      end
  end.

Definition rotate_wal_file (w : t) (fault : option RotateFault) : res Z * t :=
  match ensure_healthy w with
  | Ok _ =>
      match rotate_locked (set_poisoned w true) fault with
      | (Ok _, w) => (Ok (segment_id w), set_poisoned w false)
      | (Err e, w) => (Err e, w)
      | (Panic, w) => (Panic, w)
      end
  | Err e => (Err e, w)
  | Panic => (Panic, w)
  end.

(** *** Planning an append *)

Record PlannedUpdate : Type := mkPlannedUpdate {
  pu_transaction_id : Z;
  pu_transaction_start_offset : Z;
  pu_frame_offset : Z;
  pu_frame_length : Z;
  pu_physical_lsn : Z;
  pu_application_sequence : Z;
  pu_record_type : RecordType;
  pu_key_length : Z;
  pu_key_checksum : Z;
  pu_value_length : Z;
  pu_value_checksum : Z
}.
Record PlannedTransaction : Type := mkPlannedTransaction {
  pt_updates : list PlannedUpdate;
  pt_commit_offset : Z;
  pt_commit_lsn : Z
}.
(** The loop variables: the bytes so far, the next LSN, the previous LSN of
    the transaction and its encoded size. *)
Record PlanState : Type := mkPlanState {
  ps_bytes : bytes;
  ps_next_lsn : Z;
  ps_previous_lsn : Z;
  ps_group_size : Z
}.

Definition plan_update (collecting : bool) (tid start : Z) (st : PlanState) (c : LogCommand.t)
    : res (PlanState * PlannedUpdate) :=
  _ ← guard_err (negb (bool_decide (LogCommand.record_type c = Delete)
                       && negb (bool_decide (LogCommand.value c = []))))
        (StorageError "Delete contains a value");
  _ ← guard_err (len (LogCommand.key c) <=? u32_max) (StorageError "WAL key length overflow");
  let frame_offset := len (ps_bytes st) in
  let lsn := ps_next_lsn st in
  frame ← encode_frame (Frame.mk lsn tid (ps_previous_lsn st) (Update c));
  _ ← guard_err (len frame <=? u32_max) (StorageError "WAL frame length overflow");
  let group_size := ps_group_size st + len frame in
  _ ← guard_err (group_size <=? MAX_GROUP_ENCODED_SIZE)
        (StorageError "WAL transaction exceeds group limit");
  next ← ok_or (checked_add lsn 1) (StorageError "WAL LSN exhausted");
  mret (mkPlanState (ps_bytes st ++ frame) next lsn group_size,
        mkPlannedUpdate tid start frame_offset (len frame) lsn (LogCommand.lsn c)
          (LogCommand.record_type c) (len (LogCommand.key c))
          (if collecting then crc32 (LogCommand.key c) else 0)
          (len (LogCommand.value c))
          (if collecting then crc32 (LogCommand.value c) else 0)).

Fixpoint plan_updates (collecting : bool) (tid start : Z) (st : PlanState)
    (cs : list LogCommand.t) : res (PlanState * list PlannedUpdate) :=
  match cs with
  | [] => mret (st, [])
  | c :: cs =>
      '(st, u) ← plan_update collecting tid start st c;
      '(st, us) ← plan_updates collecting tid start st cs;
      mret (st, u :: us)
  end.

Definition plan_group (collecting : bool) (bs : bytes) (next_lsn : Z) (commands : list LogCommand.t)
    : res (bytes * Z * PlannedTransaction) :=
  _ ← guard_err (negb (bool_decide (commands = [])))
        (StorageError "WAL transaction must contain an update");
  let tid := next_lsn in
  '(st, us) ← plan_updates collecting tid (len bs) (mkPlanState bs next_lsn 0 0) commands;
  let commit_offset := len (ps_bytes st) in
  let commit_lsn := ps_next_lsn st in
  commit ← encode_frame (Frame.mk commit_lsn tid (ps_previous_lsn st) Commit);
  _ ← guard_err (ps_group_size st + len commit <=? MAX_GROUP_ENCODED_SIZE)
        (StorageError "WAL transaction exceeds group limit");
  next ← ok_or (checked_add commit_lsn 1) (StorageError "WAL LSN exhausted");
  mret (ps_bytes st ++ commit, next,
        mkPlannedTransaction us commit_offset commit_lsn).

Fixpoint plan_groups (collecting : bool) (bs : bytes) (next_lsn : Z)
    (groups : list (list LogCommand.t)) : res (bytes * Z * list PlannedTransaction) :=
  match groups with
  | [] => mret (bs, next_lsn, [])
  | g :: gs =>
      '(bs, next_lsn, pt) ← plan_group collecting bs next_lsn g;
      '(bs, next_lsn, pts) ← plan_groups collecting bs next_lsn gs;
      mret (bs, next_lsn, pt :: pts)
  end.

(** *** Receipts *)

Definition at_segment (segment_start off : Z) : res Z :=
  ok_or (checked_add segment_start off) (StorageError "WAL offset overflow").

Definition receipt (segment_id segment_start commit_offset commit_lsn : Z) (u : PlannedUpdate)
    : res WalValueRef.t :=
  start ← at_segment segment_start (pu_transaction_start_offset u);
  frame_offset ← at_segment segment_start (pu_frame_offset u);
  mret (WalValueRef.mk segment_id (pu_transaction_id u) start commit_offset commit_lsn
          frame_offset (pu_frame_length u) (pu_physical_lsn u) (pu_application_sequence u)
          (pu_record_type u) (pu_key_length u) (pu_key_checksum u) (pu_value_length u)
          (pu_value_checksum u)).

Fixpoint map_res {A B} (f : A → res B) (l : list A) : res (list B) :=
  match l with
  | [] => mret []
  | x :: l => y ← f x; ys ← map_res f l; mret (y :: ys)
  end.

Definition receipts_of (segment_id segment_start : Z) (pts : list PlannedTransaction)
    : res (list (list WalValueRef.t)) :=
  map_res (λ pt,
    commit_offset ← at_segment segment_start (pt_commit_offset pt);
    map_res (receipt segment_id segment_start commit_offset (pt_commit_lsn pt)) (pt_updates pt)) pts.

(** *** Appending *)

Definition append_transactions (w : t) (groups : list (list LogCommand.t)) (collecting : bool)
    (rotate_fault : option RotateFault) (write_fault : option WriteFault)
    : res (list (list WalValueRef.t)) * t :=
  if bool_decide (groups = []) then (Ok [], w)
  else if MAX_GROUP_COUNT <? len groups
  then (Err (StorageError "WAL transaction group exceeds count limit"), w)
  else
    match (_ ← ensure_healthy w; plan_groups collecting [] (next_lsn w) groups) with
    | Err e => (Err e, w)
    | Panic => (Panic, w)
    | Ok (bs, next, planned) =>
        let w := set_poisoned w true in
        let '(rotated, w) :=
          if (WAL_HEADER_SIZE <? size w)
             && (max_segment_size w <? saturating_add (size w) (len bs))
          then rotate_locked w rotate_fault else (Ok tt, w) in
        match (_ ← rotated;
               receipts_of (segment_id w) (size w) (if collecting then planned else [])) with
        | Err e => (Err e, w)
        | Panic => (Panic, w)
        | Ok receipts =>
            match write_fault with
            | Some (k, n) => (Err (IO k), write_active w (take n bs))
            | None =>
                let w := write_active w bs in
                (Ok receipts,
                 mk (dir w) (segment_id w) (wrap64 (size w + len bs)) next false (sealed w)
                    (checkpoint w) (max_segment_size w) (raw_writes w) (checkpoint_owner w)
                    (checkpoint_owner_registered w) (checkpoint_token w))
            end
        end
    end.

(** *** Entry points *)

Definition mark_untracked_mutation (w : t) : t :=
  mk (dir w) (segment_id w) (size w) (next_lsn w) (poisoned w) (sealed w) (checkpoint w)
     (max_segment_size w) true (checkpoint_owner w) (checkpoint_owner_registered w)
     (checkpoint_token w).

(** [write_transaction]: a raw write, which no recovery checkpoint may cover. *)
Definition write_transaction (w : t) (commands : list LogCommand.t)
    (rf : option RotateFault) (wf : option WriteFault) : res unit * t :=
  let '(r, w) := append_transactions (mark_untracked_mutation w) [commands] false rf wf in
  ((λ _, tt) <$> r, w).

Definition write_log (w : t) (key value : bytes) (lsn : Z) (ty : RecordType)
    (rf : option RotateFault) (wf : option WriteFault) : res Z * t :=
  let '(r, w) := write_transaction w [LogCommand.mk ty key value lsn] rf wf in
  ((λ _, lsn) <$> r, w).

(** [Arc::ptr_eq] of the registered token and the caller's owner. *)
Definition owns_checkpoint (w : t) (owner : option Z) : bool :=
  match checkpoint_token w, owner with
  | Some token, Some o => token =? o
  | _, _ => false
  end.

Definition append_engine_transactions (w : t) (groups : list (list LogCommand.t))
    (owner : option Z) (collecting : bool)
    (rf : option RotateFault) (wf : option WriteFault) : res (list (list WalValueRef.t)) * t :=
  let w := if owns_checkpoint w owner then w else mark_untracked_mutation w in
  append_transactions w groups collecting rf wf.

(** [token] is the identity of the freshly allocated owner. *)
Definition register_checkpoint_owner (w : t) (token : Z) : option Z * t :=
  if negb (checkpoint_owner w) || checkpoint_owner_registered w then (None, w)
  else (Some token,
        mk (dir w) (segment_id w) (size w) (next_lsn w) (poisoned w) (sealed w) (checkpoint w)
           (max_segment_size w) (raw_writes w) (checkpoint_owner w) true
           (match checkpoint_token w with Some t => Some t | None => Some token end)).

Definition owns_recovery_checkpoints (w : t) (owner : option Z) : bool :=
  checkpoint_owner w && owns_checkpoint w owner.

Definition recovery_position (w : t) : res (Z * Z) :=
  _ ← ensure_healthy w;
  mret (segment_id w, next_lsn w).

Definition trusted_recovery_position (w : t) : res (option (Z * Z)) :=
  _ ← ensure_healthy w;
  mret (if raw_writes w then None else Some (segment_id w, next_lsn w)).

Definition change_to_reserve (w : t) (locked_wal : Z) : res Z * t :=
  match ensure_healthy w with
  | Ok _ =>
      if bool_decide (om_get locked_wal (sealed w) = None)
      then (Err (StorageError "WAL segment is not sealed"), w)
      else (Ok locked_wal, set_sealed w (om_remove locked_wal (sealed w)))
  | Err e => (Err e, w)
  | Panic => (Panic, w)
  end.

(** *** Recovery *)

Definition initial_lsn (c : option RecoveryCheckpoint) : res Z :=
  match c with
  | Some c => ok_or (checked_sub (next_physical_lsn c) 1)
                (Corrupted "invalid checkpoint physical LSN")
  | None => Ok 0
  end.

(** The loop over the segments: the version and analysis after the last one,
    and the contents each file is left with. *)
Fixpoint scan_paths (tail : bool → TailHandling) (version : Z) (paths : list (Z * bytes))
    (a : Analysis.t) : res (Z * Analysis.t * list (Z * bytes)) :=
  match paths with
  | [] => mret (version, a, [])
  | (id, file) :: rest =>
      '(version, a, file) ← scan_segment_with_tail_handling id file
                              (tail (bool_decide (rest = []))) a;
      '(version, a, files) ← scan_paths tail version rest a;
      mret (version, a, (id, file) :: files)
  end.

Definition analyze_committed (w : t) (track_refs : bool) : res Analysis.t :=
  _ ← ensure_healthy w;
  latest ← initial_lsn (checkpoint w);
  paths ← segment_paths (dir w) (replay_start_segment <$> checkpoint w);
  '(_, a, _) ← scan_paths (λ _, Reject) WAL_VERSION paths (Analysis.init latest track_refs);
  mret a.

Definition recover_records (w : t) : res (list WALRecord.t) :=
  Analysis.redo <$> analyze_committed w false.
Definition recover_records_with_refs (w : t) : res (list RecoveredWalUpdate) :=
  a ← analyze_committed w true;
  Analysis.redo_with_refs a.

(** [recover]: the records inserted in order into a map keyed by user key. *)
Fixpoint recover_into (memtable : ordmap bytes (RecordType * bytes)) (rs : list WALRecord.t)
    : res (ordmap bytes (RecordType * bytes)) :=
  match rs with
  | [] => mret memtable
  | r :: rs =>
      ty ← decode_record_type (WALRecord.record_type r);
      recover_into (om_insert (WALRecord.key r) (ty, WALRecord.value r) memtable) rs
  end.
Definition recover (w : t) (memtable : ordmap bytes (RecordType * bytes))
    : res (ordmap bytes (RecordType * bytes)) :=
  rs ← recover_records w;
  recover_into memtable rs.

(** [LogStore::recover_commands]. *)
Definition recover_commands (w : t) : res (list LogCommand.t) :=
  rs ← recover_records w;
  map_res (λ r,
    ty ← decode_record_type (WALRecord.record_type r);
    mret (LogCommand.mk ty (WALRecord.key r) (WALRecord.value r) (WALRecord.lsn r))) rs.
(** [LogStore::append]. *)
Definition append (w : t) (command : LogCommand.t)
    (rf : option RotateFault) (wf : option WriteFault) : res Z * t :=
  let '(r, w) := write_transaction w [command] rf wf in
  ((λ _, LogCommand.lsn command) <$> r, w).

Definition preflight_recovery (d : WalDir) : res (Z * Z) :=
  paths ← segment_paths d None;
  '(_, a, _) ← scan_paths (λ last, if last : bool then Allow else Reject) WAL_VERSION paths
                 (Analysis.init 0 true);
  next ← ok_or (checked_add (Analysis.latest_lsn a) 1) (Corrupted "WAL physical LSN overflow");
  rs ← Analysis.redo_with_refs a;
  mret (foldr (λ u n, Z.max (WALRecord.lsn (ru_record u)) n) 0 rs, next).

(** *** Opening *)

Definition write_back (d : WalDir) (files : list (Z * bytes)) : WalDir :=
  set_segs d (foldl (λ m p, om_insert (fst p) (snd p) m) (wd_segs d) files).

Definition new_inner (d : WalDir) (max_segment_size : Z) (checkpoint : option RecoveryCheckpoint)
    (checkpoint_owner : bool) : res t :=
  paths ← segment_paths d (replay_start_segment <$> checkpoint);
  latest ← initial_lsn checkpoint;
  '(version, a, files) ← scan_paths (λ last, if last : bool then Repair else Reject)
                           WAL_VERSION paths (Analysis.init latest false);
  let d := write_back d files in
  let last_id := default 0 (fst <$> last paths) in
  let sealed := foldl (λ m p, om_insert (fst p) tt m) [] paths in
  segment_id ← if (version =? LEGACY_WAL_VERSION) && negb (bool_decide (paths = []))
               then ok_or (checked_add last_id 1) (StorageError "WAL segment ID exhausted")
               else Ok last_id;
  d ← if bool_decide (paths = []) || (version =? LEGACY_WAL_VERSION)
      then match create_segment d segment_id None with
           | (Ok _, d) => Ok d
           | (Err e, _) => Err e
           | (Panic, _) => Panic
           end
      else Ok d;
  (* [metadata().len()] is a [u64] *)
  mret (mk d segment_id (wrap64 (len (default [] (om_get segment_id (wd_segs d)))))
          (wrap64 (Analysis.latest_lsn a + 1)) false (om_remove segment_id sealed) checkpoint
          max_segment_size false checkpoint_owner false None).

(** *** Reclamation *)

(** The removal loop over the covered entries, in order of their number: a
    symbolic link or special file is skipped, removing a directory fails. *)
Inductive Covered : Type := CSegment (id : Z) | CForeign (id : Z) (e : ForeignEntry).
Definition covered_id (c : Covered) : Z :=
  match c with CSegment id => id | CForeign id _ => id end.
Definition covered_entries (d : WalDir) (floor : Z) : list Covered :=
  sort_by (λ x y, Z.compare (covered_id x) (covered_id y))
    (List.filter (λ c, covered_id c <? floor)
       ((CSegment ∘ fst <$> wd_segs d)
        ++ omap (λ e, (λ id, CForeign id e) <$> fe_id e) (wd_foreign d))).

Fixpoint remove_covered (w : t) (cs : list Covered) : res unit * t :=
  match cs with
  | [] => (Ok tt, w)
  | CSegment id :: cs =>
      remove_covered
        (set_sealed (set_dir w (set_segs (dir w) (om_remove id (wd_segs (dir w)))))
           (om_remove id (sealed w))) cs
  | CForeign id e :: cs =>
      match fe_kind e with
      | Symlink | OtherKind => remove_covered w cs
      | Directory => (Err (IO OtherIo), w)
      | RegularFile =>
          remove_covered
            (set_sealed
               (set_dir w (mkWalDir (wd_segs (dir w))
                  (List.filter (λ e', negb (bool_decide (fe_id e' = Some id)
                                            && bool_decide (fe_kind e' = RegularFile)))
                     (wd_foreign (dir w)))))
               (om_remove id (sealed w))) cs
      end
  end.

Definition reclaim_checkpointed_segments (w : t) (c : RecoveryCheckpoint) : res unit * t :=
  if negb (checkpoint_owner w)
  then (Err (StorageError "WAL manager has no engine checkpoint authority"), w)
  else
    match ensure_healthy w with
    | Ok _ =>
        if (segment_id w <? replay_start_segment c) || (next_lsn w <? next_physical_lsn c)
        then (Err (StorageError "WAL checkpoint is ahead of the writer state"), w)
        else
          let w := set_checkpoint w (Some c) in
          remove_covered w (covered_entries (dir w) (replay_start_segment c))
    | Err e => (Err e, w)
    | Panic => (Panic, w)
    end.
End ops.
End Wal.
