(* ===== verification/WalCrash.v ===== *)
(** * Crash safety of the write-ahead log

    The log as a sequence of committed transactions, and the proof that the
    operations of [Wal] implement it: an append that succeeds extends the
    sequence by every transaction of its groups, and one that fails anywhere,
    followed by reopening the directory, extends it by a prefix of them; each
    transaction is there entirely or not at all. *)

From S2P Require Import Prelude Bytes OrdMap Search Record WalFormat WalAnalysis Wal.
From Stdlib Require Import Sorted.

Section crash.
Context `{Crc32Spec}.
Implicit Types (w : Wal.t) (d : WalDir) (fs : list Frame.t) (a : Analysis.t)
  (segs : list (Z * list Frame.t)) (recs : list WALRecord.t)
  (gs : list (list LogCommand.t)).

(** ** Representation *)

Definition seg_file (s : Z * list Frame.t) : Z * bytes := (fst s, seg_bytes (snd s)).

(** What a crash can leave of a segment holding [fs]: the frames with a torn
    tail, or, for a segment being created, a cut header. *)
Definition damaged (file : bytes) fs : Prop :=
  (∃ tail, torn tail ∧ file = seg_bytes fs ++ tail) ∨
  (fs = [] ∧ ∃ n, (n < 36)%nat ∧ file = take n wal_header).

Fixpoint accept_segs segs a : res Analysis.t :=
  match segs with
  | [] => Ok a
  | (id, fs) :: segs =>
      a ← accept_frames (if Analysis.track_refs a then id else 0) WAL_HEADER_SIZE fs a;
      accept_segs segs a
  end.

Definition above_floor (c : option RecoveryCheckpoint) (id : Z) : Prop :=
  match c with Some c => replay_start_segment c <= id | None => True end.
Definition below_floor (c : option RecoveryCheckpoint) (id : Z) : Prop :=
  match c with Some c => id < replay_start_segment c | None => False end.

(** A directory whose segments from the floor on are [segs0] intact and then
    segment [id] with frames [fs] in file [file]; the frames are accepted, end
    just before LSN [next] and commit the records [recs]. *)
Record log_state (c : option RecoveryCheckpoint) d segs0 (id : Z) fs (file : bytes)
    (next : Z) recs : Prop := {
  ls_foreign : check_foreign (replay_start_segment <$> c) (wd_foreign d) = Ok tt;
  ls_files : ∃ old, wd_segs d = old ++ (seg_file <$> segs0) ++ [(id, file)] ∧
                    Forall (λ p, below_floor c (fst p)) old;
  ls_wf : om_wf (wd_segs d);
  ls_above : Forall (above_floor c) ((fst <$> segs0) ++ [id]);
  ls_first : match c with
             | Some c => head ((fst <$> segs0) ++ [id]) = Some (replay_start_segment c)
             | None => True end;
  ls_gap : gap_free ((fst <$> segs0) ++ [id]) = true;
  ls_ok : Forall (λ s, Forall frame_ok (snd s)) (segs0 ++ [(id, fs)]);
  ls_log : ∃ l0, Wal.initial_lsn c = Ok l0 ∧ ∀ track, ∃ a,
    accept_segs (segs0 ++ [(id, fs)]) (Analysis.init l0 track) = Ok a ∧ an_inv a ∧
    Analysis.latest_lsn a + 1 = next ∧ Analysis.redo a = recs ∧
    Analysis.track_refs a = track
}.

(** A healthy writer over the log [recs]. *)
Definition wal_inv w recs : Prop :=
  Wal.poisoned w = false ∧ 1 <= Wal.next_lsn w <= u64_max ∧
  ∃ segs0 fs,
    log_state (Wal.checkpoint w) (Wal.dir w) segs0 (Wal.segment_id w) fs (seg_bytes fs)
      (Wal.next_lsn w) recs ∧
    Wal.size w = wrap64 (len (seg_bytes fs)).

(** What a failed operation leaves: a directory reopening can repair. *)
Definition recoverable w recs : Prop :=
  ∃ segs0 id fs file next,
    log_state (Wal.checkpoint w) (Wal.dir w) segs0 id fs file next recs ∧
    damaged file fs ∧ next <= u64_max.

(** ** Scanning *)

Lemma accept_segs_app x y a :
  accept_segs (x ++ y) a = (a ← accept_segs x a; accept_segs y a).
Proof.
  revert a. induction x as [|[id fs] x IH]; intros a; [done|]. cbn [app accept_segs].
  destruct (accept_frames _ _ fs a); simpl; [apply IH | done | done].
Qed.

Lemma torn_nil : torn [].
Proof. by left. Qed.

Lemma scan_damaged id file fs a a' :
  damaged file fs → Forall frame_ok fs →
  accept_frames (if Analysis.track_refs a then id else 0) WAL_HEADER_SIZE fs a = Ok a' →
  scan_segment_with_tail_handling id file Repair a = Ok (WAL_VERSION, a', seg_bytes fs).
Proof.
  intros [(tail & Ht & ->)|(-> & n & Hn & ->)] Hok Ha.
  - by rewrite (scan_segment_run id fs tail Repair a a').
  - simpl in Ha. injection Ha as ->. rewrite scan_torn_header by done. simpl.
    unfold seg_bytes. change (frames_bytes []) with (@nil byte). by rewrite app_nil_r.
Qed.
Lemma scan_clean id fs th a a' :
  Forall frame_ok fs →
  accept_frames (if Analysis.track_refs a then id else 0) WAL_HEADER_SIZE fs a = Ok a' →
  scan_segment_with_tail_handling id (seg_bytes fs) th a = Ok (WAL_VERSION, a', seg_bytes fs).
Proof.
  intros Hok Ha. pose proof (scan_segment_run id fs [] th a a' Hok torn_nil Ha) as Hs.
  rewrite app_nil_r in Hs. rewrite Hs. by destruct th.
Qed.

(** Intact segments, then a last one [th] may repair. *)
Lemma scan_paths_run (th : bool → TailHandling) v segs0 id fs file a a' :
  th false = Reject →
  Forall (λ s, Forall frame_ok (snd s)) (segs0 ++ [(id, fs)]) →
  accept_segs (segs0 ++ [(id, fs)]) a = Ok a' →
  (∀ a a', accept_frames (if Analysis.track_refs a then id else 0) WAL_HEADER_SIZE fs a = Ok a' →
     scan_segment_with_tail_handling id file (th true) a = Ok (WAL_VERSION, a', seg_bytes fs)) →
  Wal.scan_paths th v ((seg_file <$> segs0) ++ [(id, file)]) a =
  Ok (WAL_VERSION, a', seg_file <$> (segs0 ++ [(id, fs)])).
Proof.
  intros Hth Hok Ha Hlast. revert v a Hok Ha.
  induction segs0 as [|[i f] segs0 IH]; intros v a Hok Ha.
  - cbn [app fmap list_fmap accept_segs] in Ha. apply res_bind_Ok in Ha as (a1 & Ha1 & [= ->]).
    cbn [app fmap list_fmap Wal.scan_paths]. rewrite bool_decide_true by done.
    rewrite (Hlast a a') by done. done.
  - cbn [app] in Hok. apply Forall_cons_1 in Hok as [Hf Hok]. simpl in Hf.
    cbn [app accept_segs] in Ha. apply res_bind_Ok in Ha as (a1 & Ha1 & Ha).
    rewrite fmap_cons. cbn [app Wal.scan_paths seg_file fst snd].
    rewrite bool_decide_false by (by destruct segs0).
    rewrite Hth, (scan_clean i f Reject a a1) by done. cbn [mbind res_bind].
    rewrite (IH _ a1 Hok Ha). done.
Qed.

(** ** The segment list *)

Lemma filter_none {A} (p : A → bool) l : Forall (λ x, p x = false) l → List.filter p l = [].
Proof. induction 1 as [|x l Hx _ IH]; simpl; [done | by rewrite Hx]. Qed.
Lemma filter_all {A} (p : A → bool) l : Forall (λ x, p x = true) l → List.filter p l = l.
Proof. induction 1 as [|x l Hx _ IH]; simpl; [done | by rewrite Hx, IH]. Qed.

Lemma segment_paths_run c d segs0 id fs file next recs :
  log_state c d segs0 id fs file next recs →
  segment_paths d (replay_start_segment <$> c) = Ok ((seg_file <$> segs0) ++ [(id, file)]).
Proof.
  intros [Hfor (old & Hfiles & Hold) _ Habove Hfirst Hgap _ _]. unfold segment_paths.
  rewrite Hfor. cbn [mbind res_bind].
  set (new := (seg_file <$> segs0) ++ [(id, file)]) in *.
  assert (fst <$> new = (fst <$> segs0) ++ [id]) as Hids.
  { unfold new. rewrite fmap_app, <- list_fmap_compose. done. }
  assert (List.filter (λ p, match replay_start_segment <$> c with
            | Some fl => fl <=? fst p | None => true end) (wd_segs d) = new) as ->.
  { rewrite Hfiles, List.filter_app, filter_none, filter_all; [done| |].
    - rewrite <- Hids in Habove. rewrite (Forall_fmap fst) in Habove.
      eapply Forall_impl; [exact Habove|]. intros p Hp. destruct c; simpl in *; [by apply Z.leb_le|done].
    - eapply Forall_impl; [exact Hold|]. intros p Hp. destruct c; simpl in *; [by apply Z.leb_gt|done]. }
  assert (fst <$> head new = head ((fst <$> segs0) ++ [id])) as Hh.
  { rewrite <- Hids. by destruct new. }
  rewrite Hids, Hgap.
  destruct c as [c|]; simpl in *; [|done]. rewrite Hh, bool_decide_true by done. done.
Qed.

(** ** Recovery and opening *)

Lemma analyze_run w segs0 fs recs track :
  Wal.poisoned w = false →
  log_state (Wal.checkpoint w) (Wal.dir w) segs0 (Wal.segment_id w) fs (seg_bytes fs)
    (Wal.next_lsn w) recs →
  ∃ a, Wal.analyze_committed w track = Ok a ∧ Analysis.redo a = recs ∧
    ∃ l0, accept_segs (segs0 ++ [(Wal.segment_id w, fs)]) (Analysis.init l0 track) = Ok a.
Proof.
  intros Hp Hls. pose proof (segment_paths_run _ _ _ _ _ _ _ _ Hls) as Hpaths.
  destruct Hls as [_ _ _ _ _ _ Hok (l0 & Hl0 & Hlog)].
  destruct (Hlog track) as (a & Ha & _ & _ & Hr & _).
  exists a. split_and!; [|done|by exists l0]. unfold Wal.analyze_committed, Wal.ensure_healthy.
  rewrite Hp. cbn [negb guard_err mbind res_bind]. rewrite Hl0, Hpaths. cbn [mbind res_bind].
  rewrite (scan_paths_run _ _ segs0 (Wal.segment_id w) fs _ _ a); try done.
  intros a1 a2. apply scan_clean. by apply Forall_app in Hok as [_ [Hf _]%Forall_cons_1].
Qed.

Lemma om_insert_same (k : Z) (v : bytes) (m : ordmap Z bytes) :
  om_wf m → om_get k m = Some v → om_insert k v m = m.
Proof.
  intros Hw Hg. apply om_ext; [by apply om_insert_wf | done |]. intros k'. rewrite om_get_insert.
  by case_decide; subst.
Qed.
Lemma foldl_insert_same (l m : ordmap Z bytes) :
  om_wf m → Forall (λ p, p ∈ m) l → foldl (λ m p, om_insert (fst p) (snd p) m) m l = m.
Proof.
  intros Hw. induction 1 as [|[k v] l Hin _ IH]; simpl; [done|].
  rewrite om_insert_same; [done | done | by apply om_get_Some].
Qed.
Lemma write_back_run d old l id file file' :
  wd_segs d = old ++ l ++ [(id, file)] → om_wf (wd_segs d) →
  Wal.write_back d (l ++ [(id, file')]) = set_segs d (old ++ l ++ [(id, file')]).
Proof.
  intros Hd Hw. unfold Wal.write_back. f_equal. rewrite foldl_app, (foldl_insert_same l); [|done|].
  2: { apply Forall_forall. intros p Hp. rewrite Hd, !elem_of_app. auto. }
  rewrite Hd, !(assoc_L (++)) in *. apply om_wf_snoc in Hw as [_ Hlt]. simpl. by apply om_insert_last.
Qed.

(** The active file of a log state may be replaced by any other. *)
Lemma log_state_file c d segs0 id fs file next recs old file' :
  log_state c d segs0 id fs file next recs →
  wd_segs d = old ++ (seg_file <$> segs0) ++ [(id, file)] →
  Forall (λ p, below_floor c (fst p)) old →
  log_state c (set_segs d (old ++ (seg_file <$> segs0) ++ [(id, file')])) segs0 id fs file'
    next recs.
Proof.
  intros [Hfor _ Hwf Habove Hfirst Hgap Hok Hlog] Hd Hold. split; try done.
  - exists old. done.
  - simpl. rewrite Hd, !(assoc_L (++)) in Hwf. rewrite (assoc_L (++)).
    apply om_wf_snoc in Hwf as [? ?]. by apply om_wf_snoc.
Qed.

(** Opening a directory a crash may have left repairs it: the committed
    records are kept, and the writer continues after the last LSN. *)
Lemma open_ok c d segs0 id fs file next recs max own :
  log_state c d segs0 id fs file next recs → damaged file fs → next <= u64_max →
  ∃ w, Wal.new_inner d max c own = Ok w ∧ wal_inv w recs ∧
    Wal.next_lsn w = next ∧ Wal.checkpoint w = c ∧ Wal.segment_id w = id ∧
    fst <$> (wd_segs (Wal.dir w) : list _) = fst <$> (wd_segs d : list _).
Proof.
  intros Hls Hdam Hnext. pose proof (segment_paths_run _ _ _ _ _ _ _ _ Hls) as Hpaths.
  pose proof Hls as [_ (old & Hd & Hold) Hwf _ _ _ Hok (l0 & Hl0 & Hlog)].
  destruct (Hlog false) as (a & Ha & Hi & Hn & Hr & _).
  pose proof (log_state_file _ _ _ _ _ _ _ _ _ (seg_bytes fs) Hls Hd Hold) as Hls'.
  pose proof Hwf as Hlt. rewrite Hd, (assoc_L (++)) in Hlt. apply om_wf_snoc in Hlt as [_ Hlt].
  eexists. split; [|split].
  - unfold Wal.new_inner. rewrite Hpaths, Hl0. cbn [mbind res_bind].
    rewrite (scan_paths_run _ _ segs0 id fs file _ a); try done.
    2: { intros a1 a2. apply scan_damaged; [done|]. by apply Forall_app in Hok as [_ [Hf _]%Forall_cons_1]. }
    cbn [mbind res_bind]. rewrite fmap_app. cbn [fmap list_fmap]. change (seg_file (id, fs)) with (id, seg_bytes fs).
    rewrite (write_back_run d old _ id file) by done.
    rewrite last_snoc. cbn [fmap option_fmap option_map default fst].
    change (WAL_VERSION =? LEGACY_WAL_VERSION) with false. cbn [andb orb mbind res_bind].
    rewrite bool_decide_false by (by destruct (seg_file <$> segs0)). cbn [orb mbind res_bind].
    rewrite Hn, (wrap64_id next) by (destruct Hi; word_lia). cbn [set_segs wd_segs].
    rewrite (assoc_L (++)), om_get_last by done. cbn [from_option]. rewrite <- (assoc_L (++)).
    reflexivity.
  - split_and!; [done | destruct Hi; simpl; lia | done |].
    exists segs0, fs. split; [exact Hls' | done].
  - split_and!; try done. simpl. by rewrite Hd, !fmap_app.
Qed.

(** ** Planning *)

(** Commands and groups as the types allow: sequence numbers are [u64]. *)
Definition typed (c : LogCommand.t) : Prop := is_u64 (LogCommand.lsn c).

(** The plan entries of a transaction's updates, whose frames start at [off]. *)
Fixpoint planned_updates (col : bool) (tid start off prev lsn : Z) (g : list LogCommand.t)
    : list Wal.PlannedUpdate :=
  match g with
  | [] => []
  | c :: g =>
      let n := len (frame_bytes (Frame.mk lsn tid prev (Update c))) in
      Wal.mkPlannedUpdate tid start off n lsn (LogCommand.lsn c) (LogCommand.record_type c)
        (len (LogCommand.key c)) (if col then crc32 (LogCommand.key c) else 0)
        (len (LogCommand.value c)) (if col then crc32 (LogCommand.value c) else 0)
      :: planned_updates col tid start (off + n) lsn (lsn + 1) g
  end.
Fixpoint planned_groups (col : bool) (off lsn : Z) gs : list Wal.PlannedTransaction :=
  match gs with
  | [] => []
  | g :: gs =>
      Wal.mkPlannedTransaction (planned_updates col lsn off off 0 lsn g)
        (off + len (frames_bytes (update_frames lsn 0 lsn g))) (lsn + len g)
      :: planned_groups col (off + len (frames_bytes (group_frames lsn g))) (lsn + len g + 1) gs
  end.

Lemma plan_update_Ok col tid start st c st' u :
  is_u64 tid → is_u64 (Wal.ps_previous_lsn st) → 0 <= Wal.ps_next_lsn st → typed c →
  Wal.plan_update col tid start st c = Ok (st', u) →
  let f := Frame.mk (Wal.ps_next_lsn st) tid (Wal.ps_previous_lsn st) (Update c) in
  frame_ok f ∧ Wal.ps_bytes st' = Wal.ps_bytes st ++ frame_bytes f ∧
  Wal.ps_next_lsn st' = Wal.ps_next_lsn st + 1 ∧ Wal.ps_next_lsn st + 1 <= u64_max ∧
  Wal.ps_previous_lsn st' = Wal.ps_next_lsn st ∧
  Wal.ps_group_size st' = Wal.ps_group_size st + len (frame_bytes f) ∧
  [u] = planned_updates col tid start (len (Wal.ps_bytes st)) (Wal.ps_previous_lsn st)
          (Wal.ps_next_lsn st) [c].
Proof.
  intros Ht Hprev Hn Hc. unfold Wal.plan_update.
  intros (_ & Hd%guard_err_Ok & (_ & _ & (fr & Hf & (_ & _ & (_ & _ & (nx & Hnx & Heq)%res_bind_Ok)%res_bind_Ok)%res_bind_Ok)%res_bind_Ok)%res_bind_Ok)%res_bind_Ok.
  apply encode_frame_Ok in Hf as [-> Hsz]. simpl in Hsz.
  apply ok_or_Ok, checked_add_Some in Hnx as [-> Hnx]. injection Heq as <- <-. simpl.
  split_and!; try done. unfold frame_ok, command_ok; simpl.
  do 3 (split; [word_lia|]). do 2 (split; [done|]). intros Hdel. rewrite Hdel in Hd.
  destruct (LogCommand.value c); [done|]. by rewrite bool_decide_true, bool_decide_false in Hd.
Qed.

Lemma plan_updates_Ok col tid start g st st' us :
  is_u64 tid → is_u64 (Wal.ps_previous_lsn st) → 0 <= Wal.ps_next_lsn st → Forall typed g →
  Wal.ps_next_lsn st <= u64_max →
  Wal.plan_updates col tid start st g = Ok (st', us) →
  let fs := update_frames tid (Wal.ps_previous_lsn st) (Wal.ps_next_lsn st) g in
  Forall frame_ok fs ∧ Wal.ps_bytes st' = Wal.ps_bytes st ++ frames_bytes fs ∧
  Wal.ps_next_lsn st' = Wal.ps_next_lsn st + len g ∧ Wal.ps_next_lsn st' <= u64_max ∧
  (g ≠ [] → Wal.ps_previous_lsn st' = Wal.ps_next_lsn st + len g - 1) ∧
  Wal.ps_group_size st' = Wal.ps_group_size st + len (frames_bytes fs) ∧
  us = planned_updates col tid start (len (Wal.ps_bytes st)) (Wal.ps_previous_lsn st)
         (Wal.ps_next_lsn st) g.
Proof.
  intros Ht Hprev Hn Hg. revert st us Hprev Hn. induction Hg as [|c g Hc Hg IH]; intros st us Hprev Hn Hmax.
  { intros [= <- <-]. simpl. unfold frames_bytes. simpl. rewrite app_nil_r, !len_nil, !Z.add_0_r. done. }
  cbn [Wal.plan_updates]. intros ([st1 u] & Hu & ([st2 us1] & Hus & [= -> <-])%res_bind_Ok)%res_bind_Ok.
  apply plan_update_Ok in Hu as (Hf & Hb & Hnx & Hmax1 & Hpr & Hgs & Hu); [|done..].
  pose proof Hus as Hus'. apply IH in Hus as (Hfs & Hb2 & Hnx2 & Hmax2 & Hpr2 & Hgs2 & ->); [|word_lia..].
  cbn [update_frames planned_updates] in *. rewrite Hpr, Hnx, Hb, len_app in *.
  injection Hu as ->. rewrite len_cons.
  split_and!; [by constructor | | lia | done | | rewrite Hgs2, Hgs, frames_bytes_cons, len_app; lia | done].
  - rewrite Hb2, frames_bytes_cons, <- (assoc_L (++)). done.
  - intros _. destruct g; [simpl in Hus'; injection Hus' as <-; rewrite len_nil; lia |].
    rewrite Hpr2 by done. lia.
Qed.

Lemma plan_group_Ok col bs lsn g bs' next pt :
  1 <= lsn <= u64_max → Forall typed g →
  Wal.plan_group col bs lsn g = Ok (bs', next, pt) →
  g ≠ [] ∧ Forall frame_ok (group_frames lsn g) ∧
  len (frames_bytes (group_frames lsn g)) <= MAX_GROUP_ENCODED_SIZE ∧
  bs' = bs ++ frames_bytes (group_frames lsn g) ∧
  next = lsn + len g + 1 ∧ next <= u64_max ∧
  [pt] = planned_groups col (len bs) lsn [g].
Proof.
  intros Hl Hg. unfold Wal.plan_group.
  intros (_ & Hne%guard_err_Ok & ([st us] & Hus & (cf & Hcf & (_ & Hsz%guard_err_Ok%Z.leb_le & (nx & Hnx & Heq)%res_bind_Ok)%res_bind_Ok)%res_bind_Ok)%res_bind_Ok)%res_bind_Ok.
  rewrite negb_true_iff, bool_decide_eq_false in Hne.
  apply plan_updates_Ok in Hus as (Hfs & Hb & Hn & Hmax & Hpr & Hgsz & ->); try done; simpl in *; [|word_lia..].
  apply encode_frame_Ok in Hcf as [-> _]. apply ok_or_Ok, checked_add_Some in Hnx as [-> Hnx].
  injection Heq as <- <- <-. rewrite Hpr, Hn in * by done.
  pose proof (len_nonneg g). split_and!; try done.
  - apply Forall_app. split; [done|]. repeat constructor; simpl; word_lia.
  - unfold group_frames. rewrite frames_bytes_app, len_app.
    unfold frames_bytes at 2. simpl. rewrite app_nil_r. lia.
  - rewrite Hb. unfold group_frames. rewrite frames_bytes_app, <- (assoc_L (++)).
    unfold frames_bytes at 3. simpl. by rewrite app_nil_r.
  - cbn [planned_groups]. rewrite Hb, len_app. done.
Qed.

(** The size of a transaction does not depend on where its LSNs start. *)
Lemma group_bytes_len lsn lsn' g :
  len (frames_bytes (group_frames lsn g)) = len (frames_bytes (group_frames lsn' g)).
Proof.
  assert (∀ f fs, len (frames_bytes (f :: fs)) =
    FRAME_HEADER_SIZE + record_body_len (Frame.record f) + len (frames_bytes fs)) as Hc.
  { intros f fs. by rewrite frames_bytes_cons, len_app, frame_bytes_len, frame_body_len. }
  unfold group_frames. rewrite !frames_bytes_app, !len_app, !Hc. f_equal.
  assert (∀ t p l t' p' l', len (frames_bytes (update_frames t p l g)) =
                            len (frames_bytes (update_frames t' p' l' g))) as Hu; [|apply Hu].
  induction g as [|c g IH]; intros; [done|]. cbn [update_frames]. rewrite !Hc.
  by rewrite (IH _ _ _ t' l' (l' + 1)).
Qed.

Lemma plan_groups_Ok col gs bs lsn bs' next pts :
  1 <= lsn <= u64_max → Forall (Forall typed) gs →
  Wal.plan_groups col bs lsn gs = Ok (bs', next, pts) →
  Forall (λ g, g ≠ []) gs ∧ Forall frame_ok (groups_frames lsn gs) ∧
  Forall (λ g, ∀ lsn, len (frames_bytes (group_frames lsn g)) <= MAX_GROUP_ENCODED_SIZE) gs ∧
  bs' = bs ++ frames_bytes (groups_frames lsn gs) ∧
  next = lsn + groups_size gs ∧ next <= u64_max ∧
  pts = planned_groups col (len bs) lsn gs.
Proof.
  intros Hl Hgs. revert bs lsn pts Hl. induction Hgs as [|g gs Hg Hgs IH]; intros bs lsn pts Hl.
  { intros [= <- <- <-]. simpl. unfold frames_bytes. simpl. rewrite app_nil_r, Z.add_0_r.
    split_and!; try done. lia. }
  cbn [Wal.plan_groups]. intros ([[bs1 n1] pt] & Hpt & ([[bs2 n2] pts1] & Hpts & [= -> -> <-])%res_bind_Ok)%res_bind_Ok.
  apply plan_group_Ok in Hpt as (Hne & Hf & Hsz & -> & -> & Hmax & Heq); [|done..].
  pose proof (len_nonneg g).
  apply IH in Hpts as (Hnes & Hfs & Hszs & -> & -> & Hmax2 & ->); [|lia].
  cbn [groups_frames groups_size foldr planned_groups] in *. injection Heq as ->.
  rewrite len_app, frames_bytes_app. split_and!; try done.
  - by constructor.
  - by apply Forall_app.
  - constructor; [|done]. intros lsn'. by rewrite (group_bytes_len lsn' lsn).
  - by rewrite (assoc_L (++)).
  - unfold groups_size. simpl. lia.
Qed.

(** ** Growing the log *)

Lemma accept_frames_track seg off fs a a' :
  accept_frames seg off fs a = Ok a' → Analysis.track_refs a' = Analysis.track_refs a.
Proof.
  revert off a. induction fs as [|f fs IH]; intros off a; simpl; [by intros [= ->]|].
  intros (a1 & Ha1 & Ha)%res_bind_Ok. rewrite (IH _ _ Ha). by apply accept_effect in Ha1 as [].
Qed.

(** New frames at the end of the active segment. *)
Lemma accept_segs_extend segs0 id fs new a a1 a2 :
  accept_segs (segs0 ++ [(id, fs)]) a = Ok a1 →
  accept_frames (if Analysis.track_refs a1 then id else 0)
    (WAL_HEADER_SIZE + len (frames_bytes fs)) new a1 = Ok a2 →
  accept_segs (segs0 ++ [(id, fs ++ new)]) a = Ok a2.
Proof.
  rewrite !accept_segs_app. intros (b & -> & (b1 & Hb1 & [= <-])%res_bind_Ok)%res_bind_Ok Hnew.
  cbn [mbind res_bind accept_segs]. rewrite accept_frames_app, Hb1. cbn [mbind res_bind].
  rewrite <- (accept_frames_track _ _ _ _ _ Hb1), Hnew. done.
Qed.

Lemma gap_free_snoc ids x y :
  gap_free (ids ++ [x]) = true → checked_add x 1 = Some y → gap_free (ids ++ [x; y]) = true.
Proof.
  intros Hg Hy. induction ids as [|a ids IH]; simpl in *.
  - pose proof Hy as [-> _]%checked_add_Some.
    rewrite bool_decide_true by done. destruct (Z.eqb_spec x (x + 1)); [lia | done].
  - destruct ids as [|b ids]; simpl in *; apply andb_true_iff in Hg as [-> Hg]; by rewrite IH.
Qed.

Lemma log_extend c d segs0 id fs file next recs old gs k file' :
  log_state c d segs0 id fs file next recs →
  wd_segs d = old ++ (seg_file <$> segs0) ++ [(id, file)] →
  Forall (λ p, below_floor c (fst p)) old →
  Forall (λ g, g ≠ []) gs → Forall frame_ok (groups_frames next gs) →
  next + groups_size gs <= u64_max →
  log_state c (set_segs d (old ++ (seg_file <$> segs0) ++ [(id, file')])) segs0 id
    (fs ++ take k (groups_frames next gs)) file' (next + len (take k (groups_frames next gs)))
    (recs ++ groups_records next (take (completed k gs) gs)).
Proof.
  intros Hls Hd Hold Hne Hfr Hmax.
  pose proof (log_state_file _ _ _ _ _ _ _ _ _ file' Hls Hd Hold) as [Hfor Hf Hwf Ha Hfi Hg Hok Hlog].
  split; try done.
  - apply Forall_app in Hok as [Hok0 [Hokf _]%Forall_cons_1]. apply Forall_app. split; [done|].
    constructor; [|done]. apply Forall_app. split; [done | by apply Forall_take].
  - destruct Hlog as (l0 & Hl0 & Hlog). exists l0. split; [done|]. intros track.
    destruct (Hlog track) as (a & Hacc & Hi & <- & <- & <-).
    destruct (accept_groups_prefix (if Analysis.track_refs a then id else 0)
      (WAL_HEADER_SIZE + len (frames_bytes fs)) gs k a Hi Hne ltac:(lia))
      as (a' & Ha' & Hi' & Ht' & Hl' & Hr').
    exists a'. split_and!; try done; [|lia].
    by eapply accept_segs_extend.
Qed.

Lemma log_rotate c d segs0 id fs next recs next_id file' :
  log_state c d segs0 id fs (seg_bytes fs) next recs → checked_add id 1 = Some next_id →
  om_get next_id (wd_segs d) = None ∧
  log_state c (set_segs d (om_insert next_id file' (wd_segs d))) (segs0 ++ [(id, fs)])
    next_id [] file' next recs.
Proof.
  intros [Hfor (old & Hd & Hold) Hwf Ha Hfi Hg Hok Hlog] Hid.
  pose proof Hid as [-> Hmax]%checked_add_Some.
  assert (Forall (λ kv, klt (fst kv) (id + 1)) (wd_segs d)) as Hlt.
  { pose proof Hwf as Hw. rewrite Hd, (assoc_L (++)) in Hw |- *.
    apply om_wf_snoc in Hw as [_ Hw]. apply Forall_app. split.
    - eapply Forall_impl; [exact Hw|]. intros [i f]; simpl. unfold klt; simpl.
      rewrite !Z.compare_lt_iff. lia.
    - repeat constructor. unfold klt; simpl. rewrite Z.compare_lt_iff. lia. }
  split; [by apply om_get_above|]. rewrite om_insert_snoc by done.
  assert (head (((fst <$> segs0) ++ [id]) ++ [id + 1]) = head ((fst <$> segs0) ++ [id])) as Hh.
  { by destruct segs0. }
  split; simpl; rewrite ?fmap_app; cbn [fmap list_fmap fst]; try done.
  - exists old. split; [|done]. rewrite Hd, <- !(assoc_L (++)). done.
  - apply om_wf_snoc. done.
  - apply Forall_app. split; [done|]. repeat constructor.
    apply Forall_app in Ha as [_ [Ha _]%Forall_cons_1]. destruct c; simpl in *; [lia|done].
  - rewrite Hh. done.
  - rewrite <- (assoc_L (++)). by apply gap_free_snoc.
  - apply Forall_app. split; [done|]. repeat constructor.
  - destruct Hlog as (l0 & Hl0 & Hlog). exists l0. split; [done|]. intros track.
    destruct (Hlog track) as (a & Hacc & ?). exists a.
    rewrite accept_segs_app, Hacc. done.
Qed.

(** ** Operations *)

Abbreviation clean_state w segs0 fs recs :=
  (log_state (Wal.checkpoint w) (Wal.dir w) segs0 (Wal.segment_id w) fs (seg_bytes fs)
     (Wal.next_lsn w) recs).

Lemma wal_inv_recoverable w recs : wal_inv w recs → recoverable w recs.
Proof.
  intros (_ & Hn & segs0 & fs & Hls & _). exists segs0, (Wal.segment_id w), fs, (seg_bytes fs), (Wal.next_lsn w).
  split_and!; [done | | lia]. left. exists []. rewrite app_nil_r. split; [apply torn_nil | done].
Qed.

Lemma damaged_clean fs : damaged (seg_bytes fs) fs.
Proof. left. exists []. rewrite app_nil_r. split; [apply torn_nil | done]. Qed.
Lemma damaged_header n : damaged (take n wal_header) [].
Proof.
  destruct (decide (n < 36)%nat) as [Hn|Hn]; [right; eauto|].
  rewrite take_ge; [|pose proof wal_header_len as Hl; unfold len, WAL_HEADER_SIZE in Hl; lia].
  assert (seg_bytes [] = wal_header) as <- by apply app_nil_r. apply damaged_clean.
Qed.

Lemma rotate_locked_spec w fault segs0 fs recs :
  clean_state w segs0 fs recs → Wal.next_lsn w <= u64_max →
  let '(r, w') := Wal.rotate_locked w fault in
  Wal.checkpoint w' = Wal.checkpoint w ∧ Wal.next_lsn w' = Wal.next_lsn w ∧
  Wal.poisoned w' = Wal.poisoned w ∧
  match r with
  | Ok _ => ∃ segs1, clean_state w' segs1 [] recs ∧ Wal.size w' = wrap64 (len (seg_bytes []))
  | Err _ => recoverable w' recs
  | Panic => False
  end.
Proof.
  intros Hls Hn. assert (recoverable w recs) as Hrec.
  { exists segs0, (Wal.segment_id w), fs, (seg_bytes fs), (Wal.next_lsn w).
    auto using damaged_clean. }
  unfold Wal.rotate_locked, Wal.create_segment.
  destruct (checked_add (Wal.segment_id w) 1) as [nid|] eqn:Hid; [|by destruct fault as [[k [n|]]|]].
  destruct (log_rotate _ _ _ _ _ _ _ nid wal_header Hls Hid) as [Hget Hls1].
  destruct fault as [[k [n|]]|]; [|done|]; rewrite Hget; simpl.
  - split_and!; [done..|]. destruct (log_rotate _ _ _ _ _ _ _ nid (take n wal_header) Hls Hid) as [_ Hls2].
    exists (segs0 ++ [(Wal.segment_id w, fs)]), nid, [], (take n wal_header), (Wal.next_lsn w).
    auto using damaged_header.
  - split_and!; [done..|]. exists (segs0 ++ [(Wal.segment_id w, fs)]).
    assert (seg_bytes [] = wal_header) as -> by apply app_nil_r. split; [done | symmetry; apply wal_header_len].
Qed.

Lemma write_active_dir w old l file bs :
  wd_segs (Wal.dir w) = old ++ l ++ [(Wal.segment_id w, file)] → om_wf (wd_segs (Wal.dir w)) →
  Wal.dir (Wal.write_active w bs) =
  set_segs (Wal.dir w) (old ++ l ++ [(Wal.segment_id w, file ++ bs)]).
Proof.
  intros Hd Hw. rewrite Hd, (assoc_L (++)) in Hw. apply om_wf_snoc in Hw as [_ Hlt].
  unfold Wal.write_active. cbn [Wal.set_dir Wal.dir]. rewrite Hd, (assoc_L (++)).
  rewrite om_get_last, om_insert_last, <- (assoc_L (++)) by done. done.
Qed.

(** Writing a prefix of a batch of transactions to the active segment. *)
Lemma write_active_spec w segs0 fs recs gs n :
  clean_state w segs0 fs recs →
  Forall (λ g, g ≠ []) gs → Forall frame_ok (groups_frames (Wal.next_lsn w) gs) →
  Wal.next_lsn w + groups_size gs <= u64_max →
  let frames := groups_frames (Wal.next_lsn w) gs in
  ∃ k tail, take n (frames_bytes frames) = frames_bytes (take k frames) ++ tail ∧ torn tail ∧
    ((length (frames_bytes frames) <= n)%nat → (length frames <= k)%nat) ∧
    log_state (Wal.checkpoint w) (Wal.dir (Wal.write_active w (take n (frames_bytes frames))))
      segs0 (Wal.segment_id w) (fs ++ take k frames) (seg_bytes (fs ++ take k frames) ++ tail)
      (Wal.next_lsn w + len (take k frames))
      (recs ++ groups_records (Wal.next_lsn w) (take (completed k gs) gs)).
Proof.
  intros Hls Hne Hok Hmax frames. destruct (frames_bytes_prefix n frames Hok) as (k & tail & Ht & Htorn & Hall).
  exists k, tail. split_and!; [done..|]. pose proof Hls as [_ (old & Hd & Hold) Hwf _ _ _ _ _].
  pose proof (log_extend _ _ _ _ _ _ _ _ _ gs k (seg_bytes (fs ++ take k frames) ++ tail)
    Hls Hd Hold Hne Hok Hmax) as Hnew.
  rewrite (write_active_dir w old (seg_file <$> segs0) (seg_bytes fs)), Ht, (assoc_L (++) (seg_bytes fs)) by done.
  unfold seg_bytes at 1. rewrite <- (assoc_L (++) wal_header), <- frames_bytes_app. exact Hnew.
Qed.

Lemma groups_size_nonneg gs : 0 <= groups_size gs.
Proof. induction gs as [|g gs IH]; simpl; [lia|]. pose proof (len_nonneg g). lia. Qed.
Lemma groups_frames_len lsn gs : len (groups_frames lsn gs) = groups_size gs.
Proof.
  revert lsn. induction gs as [|g gs IH]; intros lsn; [done|]. simpl.
  rewrite len_app, IH. unfold len at 1. rewrite group_frames_length. unfold len. lia.
Qed.
Lemma completed_full k lsn gs :
  (length (groups_frames lsn gs) <= k)%nat → completed k gs = length gs.
Proof.
  intros Hk. apply completed_all. pose proof (groups_frames_len lsn gs). pose proof (groups_frames_len 0 gs).
  unfold len in *. lia.
Qed.

Lemma write_active_all w segs0 fs recs gs :
  clean_state w segs0 fs recs →
  Forall (λ g, g ≠ []) gs → Forall frame_ok (groups_frames (Wal.next_lsn w) gs) →
  Wal.next_lsn w + groups_size gs <= u64_max →
  let frames := groups_frames (Wal.next_lsn w) gs in
  log_state (Wal.checkpoint w) (Wal.dir (Wal.write_active w (frames_bytes frames)))
    segs0 (Wal.segment_id w) (fs ++ frames) (seg_bytes (fs ++ frames))
    (Wal.next_lsn w + groups_size gs) (recs ++ groups_records (Wal.next_lsn w) gs).
Proof.
  intros Hls Hne Hok Hmax frames.
  destruct (write_active_spec w segs0 fs recs gs (length (frames_bytes frames)) Hls Hne Hok Hmax)
    as (k & tail & Ht & _ & Hall & Hnew). fold frames in Ht, Hall, Hnew.
  specialize (Hall ltac:(lia)). rewrite take_ge in Ht by lia.
  rewrite (take_ge (frames_bytes frames)), (take_ge frames) in * by lia.
  rewrite (completed_full k (Wal.next_lsn w)), (take_ge gs) in Hnew by done.
  assert (tail = []) as ->.
  { apply len_0_nil. apply (f_equal len) in Ht. rewrite len_app in Ht. lia. }
  rewrite app_nil_r in Hnew. rewrite <- (groups_frames_len (Wal.next_lsn w)). exact Hnew.
Qed.

(** Absence of panics in the error monad. *)
Lemma map_res_np {A B} (f : A → res B) l : (∀ x, f x ≠ Panic) → Wal.map_res f l ≠ Panic.
Proof.
  intros Hf. induction l as [|x l IH]; simpl; [done|].
  apply res_bind_no_panic; [done|]. intros y _. by apply res_bind_no_panic.
Qed.
Ltac res_np :=
  repeat match goal with
    | |- (_ ≫= _) ≠ Panic => apply res_bind_no_panic; [|intros ? _]
    | |- guard_err _ _ ≠ Panic => apply guard_err_np
    | |- ok_or _ _ ≠ Panic => apply ok_or_np
    | |- Wal.map_res _ _ ≠ Panic => apply map_res_np; intros ?
    | |- context [match ?x with _ => _ end] => destruct x
    | |- _ => done
    end.
Lemma plan_groups_np col gs bs lsn : Wal.plan_groups col bs lsn gs ≠ Panic.
Proof.
  assert (∀ f, encode_frame f ≠ Panic) as He by (intros f; unfold encode_frame; res_np).
  assert (∀ tid start g st, Wal.plan_updates col tid start st g ≠ Panic) as Hu.
  { intros tid start g. induction g as [|c g IH]; intros st; simpl; [done|].
    apply res_bind_no_panic; [unfold Wal.plan_update; res_np; apply He|].
    intros [st1 u] _. apply res_bind_no_panic; [done | by intros [? ?] _]. }
  revert bs lsn. induction gs as [|g gs IH]; intros bs lsn; simpl; [done|].
  apply res_bind_no_panic.
  - unfold Wal.plan_group. res_np; auto.
  - intros [[bs1 n1] pt] _. apply res_bind_no_panic; [done | by intros [[? ?] ?] _].
Qed.
Lemma receipts_of_np seg start pts : Wal.receipts_of seg start pts ≠ Panic.
Proof. unfold Wal.receipts_of, Wal.receipt, Wal.at_segment. res_np. Qed.

Lemma wrap64_add_l x y : wrap64 (wrap64 x + y) = wrap64 (x + y).
Proof. unfold wrap64. by rewrite Z.add_mod_idemp_l by word_lia. Qed.

(** The last step of an append: the bytes are written, or part of them. *)
Lemma append_write w segs0 fs recs gs :
  clean_state w segs0 fs recs → 1 <= Wal.next_lsn w →
  Wal.size w = wrap64 (len (seg_bytes fs)) →
  Forall (λ g, g ≠ []) gs → Forall frame_ok (groups_frames (Wal.next_lsn w) gs) →
  Wal.next_lsn w + groups_size gs <= u64_max →
  let bs := frames_bytes (groups_frames (Wal.next_lsn w) gs) in
  let next := Wal.next_lsn w + groups_size gs in
  (∀ n, ∃ j, recoverable (Wal.write_active w (take n bs))
               (recs ++ groups_records (Wal.next_lsn w) (take j gs))) ∧
  wal_inv (Wal.mk (Wal.dir (Wal.write_active w bs)) (Wal.segment_id w)
             (wrap64 (Wal.size w + len bs)) next false (Wal.sealed w)
             (Wal.checkpoint w) (Wal.max_segment_size w) (Wal.raw_writes w)
             (Wal.checkpoint_owner w) (Wal.checkpoint_owner_registered w)
             (Wal.checkpoint_token w))
    (recs ++ groups_records (Wal.next_lsn w) gs).
Proof.
  intros Hls Hn1 Hsize Hne Hok Hmax bs next. pose proof (groups_size_nonneg gs). split.
  - intros n. destruct (write_active_spec w segs0 fs recs gs n Hls Hne Hok Hmax)
      as (k & tail & _ & Htorn & _ & Hnew).
    exists (completed k gs). eexists _, _, _, _, _. split_and!; [exact Hnew | left; eauto |].
    pose proof (groups_frames_len (Wal.next_lsn w) gs). unfold len in *. rewrite length_take. lia.
  - split_and!; simpl; [done | lia | done |]. eexists _, _. split.
    + by apply write_active_all.
    + unfold seg_bytes. rewrite frames_bytes_app, (assoc_L (++)), len_app.
      rewrite Hsize, wrap64_add_l. done.
Qed.

(** The rotation before an append, when it takes place. *)
Lemma append_rotate w gs rf recs segs0 fs :
  clean_state w segs0 fs recs → Wal.next_lsn w <= u64_max →
  Wal.size w = wrap64 (len (seg_bytes fs)) →
  let w0 := Wal.set_poisoned w true in
  let bs := frames_bytes (groups_frames (Wal.next_lsn w) gs) in
  let '(r, w1) :=
    if (WAL_HEADER_SIZE <? Wal.size w0)
       && (Wal.max_segment_size w0 <? saturating_add (Wal.size w0) (len bs))
    then Wal.rotate_locked w0 rf else (Ok tt, w0) in
  Wal.checkpoint w1 = Wal.checkpoint w ∧ Wal.next_lsn w1 = Wal.next_lsn w ∧
  Wal.poisoned w1 = true ∧
  match r with
  | Ok _ => ∃ segs1 fs1, clean_state w1 segs1 fs1 recs ∧
              Wal.size w1 = wrap64 (len (seg_bytes fs1))
  | Err _ => recoverable w1 recs
  | Panic => False
  end.
Proof.
  intros Hls Hn Hsize w0 bs. destruct (_ && _); [|split_and!; try done; by exists segs0, fs].
  pose proof (rotate_locked_spec w0 rf segs0 fs recs Hls Hn) as Hr.
  destruct (Wal.rotate_locked w0 rf) as [r w1]. destruct Hr as (Hc & Hl & Hp & Hr).
  split_and!; try done. destruct r; [|done|done]. destruct Hr as (segs1 & Hls1 & ->).
  by exists segs1, [].
Qed.

(** Every outcome of an append: the whole batch is logged, or nothing was
    touched, or the directory holds the first [j] transactions. *)
Lemma append_spec w gs col rf wf recs :
  wal_inv w recs → Forall (Forall typed) gs →
  let '(r, w') := Wal.append_transactions w gs col rf wf in
  Wal.checkpoint w' = Wal.checkpoint w ∧
  match r with
  | Ok _ => wal_inv w' (recs ++ groups_records (Wal.next_lsn w) gs) ∧
            Wal.next_lsn w' = Wal.next_lsn w + groups_size gs
  | Err _ => w' = w ∨ Wal.poisoned w' = true ∧
             ∃ j, recoverable w' (recs ++ groups_records (Wal.next_lsn w) (take j gs))
  | Panic => False
  end.
Proof.
  intros Hinv Hgs. pose proof Hinv as (Hp & Hn & segs0 & fs & Hls & Hsize).
  unfold Wal.append_transactions. case_bool_decide as Hnil.
  { subst gs. simpl. rewrite app_nil_r, Z.add_0_r. done. }
  destruct (MAX_GROUP_COUNT <? len gs); [by auto|].
  unfold Wal.ensure_healthy. rewrite Hp. cbn [negb guard_err mbind res_bind].
  pose proof (plan_groups_np col gs [] (Wal.next_lsn w)) as Hnp.
  destruct (Wal.plan_groups col [] (Wal.next_lsn w) gs) as [[[bs next] pts]| |] eqn:Hplan; [|by auto|done].
  apply plan_groups_Ok in Hplan as (Hne & Hok & _ & -> & -> & Hmax & _); [|done..]. cbn [app].
  pose proof (append_rotate w gs rf recs segs0 fs Hls ltac:(lia) Hsize) as Hrot.
  cbv zeta in Hrot |- *.
  match type of Hrot with (let '(_, _) := ?x in _) => destruct x as [r w1] end. destruct Hrot as (Hc1 & Hn1 & Hp1 & Hr1).
  destruct r as [[]|e|]; [|split; [done|]|done].
  2: { right. split; [done|]. exists O. by rewrite take_0, app_nil_r. }
  destruct Hr1 as (segs1 & fs1 & Hls1 & Hsize1). cbn [mbind res_bind].
  rewrite <- Hn1 in *.
  destruct (append_write w1 segs1 fs1 recs gs Hls1 ltac:(lia) Hsize1 Hne Hok Hmax) as [Hfail Hinv'].
  pose proof (receipts_of_np (Wal.segment_id w1) (Wal.size w1) (if col then pts else [])) as Hrnp.
  destruct (Wal.receipts_of _ _ _) as [rs|e|]; [|split; [done|]|done].
  2: { right. split; [done|]. exists O. rewrite take_0, app_nil_r. destruct (Hfail O) as [j Hj].
       exists segs1, (Wal.segment_id w1), fs1, (seg_bytes fs1), (Wal.next_lsn w1).
       split_and!; [done | apply damaged_clean | lia]. }
  destruct wf as [[k n]|]; [|done]. split; [done|]. right. split; [done|]. apply Hfail.
Qed.
End crash.
