(* ===== verification/WalRefine.v ===== *)
(** * The write-ahead log refines an abstract log

    The abstract log is the list of commands recovery returns.  Appending
    extends it by every command of the batch or, when the process stops in
    the middle, by whole transactions from the front of the batch; rotation
    and reopening leave it alone; a checkpoint empties it.  The forward
    simulation holds for every interleaving of these operations and for every
    way a write can fail. *)

From S2P Require Import Prelude Bytes OrdMap Search Record WalFormat WalAnalysis Wal WalCrash.

Abbreviation clean_state w segs0 fs recs :=
  (log_state (Wal.checkpoint w) (Wal.dir w) segs0 (Wal.segment_id w) fs (seg_bytes fs)
     (Wal.next_lsn w) recs).

Section refine.
Context `{Crc32Spec}.
Implicit Types (w : Wal.t) (d : WalDir) (gs : list (list LogCommand.t))
  (log : list LogCommand.t) (c : RecoveryCheckpoint).

(** ** Checkpoints *)

Lemma check_foreign_mono fl fl' es :
  match fl with Some fl => fl <= fl' | None => True end →
  check_foreign fl es = Ok tt → check_foreign (Some fl') es = Ok tt.
Proof.
  intros Hle. induction es as [|e es IH]; simpl; [done|].
  destruct (fe_id e) as [id|]; [|done]. destruct fl as [fl|]; [|by destruct (fe_canonical e)].
  destruct (Z.ltb_spec id fl); [|by destruct (fe_canonical e)].
  rewrite (proj2 (Z.ltb_lt id fl')) by lia. done.
Qed.
Lemma check_foreign_filter fl p es :
  check_foreign fl es = Ok tt → check_foreign fl (List.filter p es) = Ok tt.
Proof.
  induction es as [|e es IH]; simpl; [done|]. intros He.
  assert (check_foreign fl es = Ok tt ∧
          (check_foreign fl (List.filter p es) = Ok tt →
           check_foreign fl (e :: List.filter p es) = Ok tt)) as [He' Hcons].
  { simpl. destruct (fe_id e) as [id|]; [|done].
    destruct (match fl with Some fl => id <? fl | None => false end); [done|].
    by destruct (fe_canonical e). }
  destruct (p e); auto.
Qed.

(** A directory from which a checkpoint [c] at the start of the active,
    empty segment may have been removing covered segments. *)
Definition checkpointed d c : Prop :=
  check_foreign (Some (replay_start_segment c)) (wd_foreign d) = Ok tt ∧
  om_wf (wd_segs d) ∧
  ∃ old, wd_segs d = old ++ [(replay_start_segment c, seg_bytes [])] ∧
         Forall (λ p, fst p < replay_start_segment c) old.

Lemma checkpointed_state d c :
  checkpointed d c → 1 <= next_physical_lsn c →
  log_state (Some c) d [] (replay_start_segment c) [] (seg_bytes []) (next_physical_lsn c) [].
Proof.
  intros (Hf & Hw & old & Hd & Hold) Hn. split; simpl; try done.
  - exists old. done.
  - repeat constructor. simpl. lia.
  - repeat constructor.
  - exists (next_physical_lsn c - 1). unfold checked_sub.
    rewrite (proj2 (Z.leb_le _ _)) by lia. split; [done|]. intros track.
    exists (Analysis.init (next_physical_lsn c - 1) track). split_and!; try done; simpl; [|lia].
    split; simpl; try done; [lia|]. intros u Hu. by apply elem_of_nil in Hu.
Qed.
Lemma clean_checkpointed w segs0 recs s :
  clean_state w segs0 [] recs →
  checkpointed (Wal.dir w) (mkRecoveryCheckpoint (Wal.segment_id w) (Wal.next_lsn w) s).
Proof.
  intros [Hf (old & Hd & Hold) Hwf Ha _ _ _ _]. split_and!; simpl; [|done|].
  - eapply check_foreign_mono; [| exact Hf]. apply Forall_app in Ha as [_ [Ha _]%Forall_cons_1].
    by destruct (Wal.checkpoint w).
  - exists (old ++ (seg_file <$> segs0)). rewrite <- (assoc_L (++)). split; [done|].
    rewrite Hd, (assoc_L (++)) in Hwf. apply om_wf_snoc in Hwf as [_ Hlt].
    eapply Forall_impl; [exact Hlt|]. intros p. unfold klt; simpl. apply Z.compare_lt_iff.
Qed.

Lemma filter_Forall {A} (P : A → Prop) (p : A → bool) l : Forall P l → Forall P (List.filter p l).
Proof. induction 1; simpl; [constructor|]. case_match; auto. Qed.
Lemma checkpointed_remove d c id :
  id < replay_start_segment c → checkpointed d c →
  checkpointed (set_segs d (om_remove id (wd_segs d))) c.
Proof.
  intros Hid (Hf & Hw & old & Hd & Hold). split_and!; simpl; [done | by apply om_remove_wf |].
  exists (om_remove id old). split; [|by apply filter_Forall].
  rewrite Hd. unfold om_remove. rewrite List.filter_app. f_equal. cbn [List.filter fst].
  destruct (kcmp id (replay_start_segment c)) eqn:E; [|done|done]. apply kcmp_eq in E. lia.
Qed.

Ltac use_IH IH cs :=
  match goal with |- context [Wal.remove_covered ?w1 cs] =>
    specialize (IH w1); destruct (Wal.remove_covered w1 cs) as [r w']; apply IH end.

(** Removal keeps the directory checkpointed wherever it stops. *)
Lemma remove_covered_spec cs w c :
  Forall (λ x, Wal.covered_id x < replay_start_segment c) cs → checkpointed (Wal.dir w) c →
  let '(r, w') := Wal.remove_covered w cs in
  r ≠ Panic ∧ checkpointed (Wal.dir w') c ∧
  Wal.segment_id w' = Wal.segment_id w ∧ Wal.next_lsn w' = Wal.next_lsn w ∧
  Wal.size w' = Wal.size w ∧ Wal.poisoned w' = Wal.poisoned w ∧
  Wal.checkpoint w' = Wal.checkpoint w.
Proof.
  intros Hcs. revert w. induction Hcs as [|x cs Hx _ IH]; intros w Hd; [done|].
  destruct x as [id|id e]; cbn [Wal.remove_covered].
  - use_IH IH cs. by apply checkpointed_remove.
  - destruct (fe_kind e); [|done|by apply IH|by apply IH].
    use_IH IH cs. destruct Hd as (Hf & Hw & Hold). split_and!; [|done|done].
    by apply check_foreign_filter.
Qed.

Lemma covered_entries_below d fl : Forall (λ x, Wal.covered_id x < fl) (Wal.covered_entries d fl).
Proof.
  unfold Wal.covered_entries. rewrite sort_by_perm. apply Forall_forall. intros x Hx.
  rewrite list_elem_of_In in Hx. apply filter_In in Hx as [_ Hx]. by apply Z.ltb_lt.
Qed.

(** A checkpoint at the current position of a writer whose active segment is
    empty: the log is empty afterwards, whether or not removing the covered
    segments succeeds. *)
Lemma reclaim_spec w segs0 recs s :
  wal_inv w recs → clean_state w segs0 [] recs → Wal.size w = WAL_HEADER_SIZE →
  Wal.checkpoint_owner w = true →
  let c := mkRecoveryCheckpoint (Wal.segment_id w) (Wal.next_lsn w) s in
  let '(r, w') := Wal.reclaim_checkpointed_segments w c in
  r ≠ Panic ∧ wal_inv w' [] ∧ Wal.checkpoint w' = Some c ∧ Wal.next_lsn w' = Wal.next_lsn w.
Proof.
  intros (Hp & Hn & _) Hls Hsize Hown c. unfold Wal.reclaim_checkpointed_segments, Wal.ensure_healthy.
  rewrite Hown, Hp. cbn [negb guard_err]. simpl replay_start_segment. simpl next_physical_lsn.
  rewrite !Z.ltb_irrefl. cbn [orb].
  pose proof (remove_covered_spec
    (Wal.covered_entries (Wal.dir (Wal.set_checkpoint w (Some c))) (Wal.segment_id w))
    (Wal.set_checkpoint w (Some c)) c (covered_entries_below _ _)
    (clean_checkpointed _ _ _ _ Hls)) as Hrem.
  destruct (Wal.remove_covered _ _) as [r w']. destruct Hrem as (Hr & Hd & Hid & Hl & Hsz & Hpo & Hc).
  simpl in *. split_and!; try done. split_and!; [congruence | lia | lia |].
  exists [], []. split.
  - rewrite Hc, Hid, Hl. apply (checkpointed_state _ c); [done | simpl; lia].
  - by rewrite Hsz, Hsize.
Qed.

(** ** The abstract log *)

Inductive event : Type :=
| EAppend (gs : list (list LogCommand.t)) (ok : bool)
| ESilent
| ECheckpoint.

Inductive log_step : list LogCommand.t → event → list LogCommand.t → Prop :=
| ls_append log gs : log_step log (EAppend gs true) (log ++ concat gs)
| ls_torn log gs j : log_step log (EAppend gs false) (log ++ concat (take j gs))
| ls_silent log : log_step log ESilent log
| ls_checkpoint log : log_step log ECheckpoint [].

Inductive log_steps : list LogCommand.t → list event → list LogCommand.t → Prop :=
| lss_nil log : log_steps log [] log
| lss_cons log e log1 es log2 :
    log_step log e log1 → log_steps log1 es log2 → log_steps log (e :: es) log2.

(** ** The concrete steps *)

(** Every operation of the manager that changes state.  A checkpoint is the
    sequence at the end of a flush: rotate, read the trusted position, then
    (after publishing it) reclaim; the process may also stop between
    publishing and reclaiming. *)
Inductive wal_step : Wal.t → event → Wal.t → Prop :=
| st_append w gs owner col rf wf r w' :
    Forall (Forall typed) gs →
    Wal.append_engine_transactions w gs owner col rf wf = (r, w') →
    wal_step w (EAppend gs (is_ok r)) w'
| st_write w cs rf wf r w' :
    Forall typed cs → Wal.write_transaction w cs rf wf = (r, w') →
    wal_step w (EAppend [cs] (is_ok r)) w'
| st_rotate w rf r w' :
    Wal.rotate_wal_file w rf = (r, w') → wal_step w ESilent w'
| st_reserve w id r w' :
    Wal.change_to_reserve w id = (r, w') → wal_step w ESilent w'
| st_register w token r w' :
    Wal.register_checkpoint_owner w token = (r, w') → wal_step w ESilent w'
| st_reopen w max own w' :
    Wal.new_inner (Wal.dir w) max (Wal.checkpoint w) own = Ok w' → wal_step w ESilent w'
| st_checkpoint w owner rf seg w1 s n seq r w' :
    Wal.rotate_wal_file w rf = (Ok seg, w1) →
    Wal.owns_recovery_checkpoints w1 owner = true →
    Wal.trusted_recovery_position w1 = Ok (Some (s, n)) →
    Wal.reclaim_checkpointed_segments w1 (mkRecoveryCheckpoint s n seq) = (r, w') →
    wal_step w ECheckpoint w'
| st_published w rf seg w1 s n seq max own w' :
    Wal.rotate_wal_file w rf = (Ok seg, w1) →
    Wal.trusted_recovery_position w1 = Ok (Some (s, n)) →
    Wal.new_inner (Wal.dir w1) max (Some (mkRecoveryCheckpoint s n seq)) own = Ok w' →
    wal_step w ECheckpoint w'.

Inductive wal_steps : Wal.t → list event → Wal.t → Prop :=
| wss_nil w : wal_steps w [] w
| wss_cons w e w1 es w2 : wal_step w e w1 → wal_steps w1 es w2 → wal_steps w (e :: es) w2.

(** ** The simulation relation *)

Definition cmds_of (recs : list WALRecord.t) log : Prop :=
  Forall2 (λ r cmd, ∃ ck, r = record_of_command cmd ck) recs log.
Definition good w log : Prop :=
  ∃ recs, cmds_of recs log ∧ recoverable w recs ∧ (Wal.poisoned w = false → wal_inv w recs).

Lemma cmds_of_groups lsn gs : cmds_of (groups_records lsn gs) (concat gs).
Proof.
  assert (∀ tid prev l g, cmds_of (update_records tid prev l g) g) as Hu.
  { intros tid prev l g. revert prev l. induction g as [|x g IH]; intros; simpl; constructor; eauto. apply IH. }
  revert lsn. induction gs as [|g gs IH]; intros lsn; simpl; [constructor|].
  apply Forall2_app; [apply Hu | apply IH].
Qed.
Lemma cmds_of_app r1 l1 lsn gs :
  cmds_of r1 l1 → cmds_of (r1 ++ groups_records lsn gs) (l1 ++ concat gs).
Proof. intros. apply Forall2_app; [done | apply cmds_of_groups]. Qed.

Lemma recover_commands_inv w recs log :
  wal_inv w recs → cmds_of recs log → Wal.recover_commands w = Ok log.
Proof.
  intros (Hp & _ & segs0 & fs & Hls & _) Hc.
  destruct (analyze_run w segs0 fs recs false Hp Hls) as (a & Ha & Hr & _).
  unfold Wal.recover_commands, Wal.recover_records. rewrite Ha. cbn [fmap res_fmap mbind res_bind].
  rewrite Hr. clear Hr Hls. induction Hc as [|r x recs log [ck ->] _ IH]; [done|].
  cbn [Wal.map_res]. rewrite IH. destruct x as [[] ? ? ?]; done.
Qed.

Lemma good_inv w recs log : wal_inv w recs → cmds_of recs log → good w log.
Proof. intros Hi Hc. exists recs. auto using wal_inv_recoverable. Qed.
Lemma good_reopen w log max own :
  good w log → ∃ w', Wal.new_inner (Wal.dir w) max (Wal.checkpoint w) own = Ok w' ∧
    good w' log ∧ Wal.recover_commands w' = Ok log.
Proof.
  intros (recs & Hc & (segs0 & id & fs & file & next & Hls & Hd & Hn) & _).
  destruct (open_ok _ _ _ _ _ _ _ _ max own Hls Hd Hn) as (w' & Ho & Hi & _).
  exists w'. split_and!; [done | by eapply good_inv | by eapply recover_commands_inv].
Qed.

(** Fields the log does not depend on. *)
Definition same_log w w' : Prop :=
  Wal.dir w' = Wal.dir w ∧ Wal.segment_id w' = Wal.segment_id w ∧ Wal.size w' = Wal.size w ∧
  Wal.next_lsn w' = Wal.next_lsn w ∧ Wal.poisoned w' = Wal.poisoned w ∧
  Wal.checkpoint w' = Wal.checkpoint w.
Lemma same_log_inv w w' recs : same_log w w' → wal_inv w recs → wal_inv w' recs.
Proof. intros (Hd & Hi & Hs & Hn & Hp & Hc). unfold wal_inv. rewrite Hd, Hi, Hs, Hn, Hp, Hc. done. Qed.
Lemma same_log_good w w' log : same_log w w' → good w log → good w' log.
Proof.
  intros Hs (recs & Hc & Hr & Hi). exists recs. pose proof Hs as (Hd & _ & _ & _ & Hp & Hk).
  split_and!; [done | | rewrite Hp; eauto using same_log_inv].
  unfold recoverable. by rewrite Hd, Hk.
Qed.

(** ** Simulation, operation by operation *)

Lemma torn_none log gs : log_step log (EAppend gs false) log.
Proof. pose proof (ls_torn log gs 0) as Hs. by rewrite take_0, app_nil_r in Hs. Qed.

Lemma append_poisoned w gs col rf wf :
  Wal.poisoned w = true → gs ≠ [] →
  ∃ e, Wal.append_transactions w gs col rf wf = (Err e, w).
Proof.
  intros Hp Hne. unfold Wal.append_transactions, Wal.ensure_healthy. rewrite bool_decide_false, Hp by done.
  destruct (MAX_GROUP_COUNT <? len gs); eexists; reflexivity.
Qed.

Lemma good_append w log gs col rf wf r w' :
  good w log → Forall (Forall typed) gs → Wal.append_transactions w gs col rf wf = (r, w') →
  ∃ log', log_step log (EAppend gs (is_ok r)) log' ∧ good w' log'.
Proof.
  intros Hg Hgs Happ. destruct (Wal.poisoned w) eqn:Hp.
  - destruct (decide (gs = [])) as [->|Hne].
    + injection Happ as <- <-. exists (log ++ concat []). split; [constructor | by rewrite app_nil_r].
    + destruct (append_poisoned w gs col rf wf Hp Hne) as [e He]. rewrite He in Happ.
      injection Happ as <- <-. exists log. split; [apply torn_none | done].
  - destruct Hg as (recs & Hc & Hr & Hi). specialize (Hi Hp).
    pose proof (append_spec w gs col rf wf recs Hi Hgs) as Hs. rewrite Happ in Hs.
    destruct Hs as [_ Hs]. destruct r as [rs|e|]; [| |done].
    + destruct Hs as [Hi' _]. exists (log ++ concat gs). split; [constructor|].
      eapply good_inv; [done|]. by apply cmds_of_app.
    + destruct Hs as [->|[Hp' [j Hj]]].
      * exists log. split; [apply torn_none | by exists recs].
      * exists (log ++ concat (take j gs)). split; [constructor|]. eexists. split_and!; [|exact Hj|congruence].
        by apply cmds_of_app.
Qed.

Lemma rotate_spec w rf recs :
  wal_inv w recs →
  let '(r, w') := Wal.rotate_wal_file w rf in
  match r with
  | Ok id => wal_inv w' recs ∧ id = Wal.segment_id w' ∧ Wal.next_lsn w' = Wal.next_lsn w ∧
             Wal.size w' = WAL_HEADER_SIZE ∧ ∃ segs0, clean_state w' segs0 [] recs
  | Err _ => Wal.poisoned w' = true ∧ recoverable w' recs
  | Panic => False
  end.
Proof.
  intros (Hp & Hn & segs0 & fs & Hls & Hsize). unfold Wal.rotate_wal_file, Wal.ensure_healthy.
  rewrite Hp. cbn [negb guard_err].
  pose proof (rotate_locked_spec (Wal.set_poisoned w true) rf segs0 fs recs Hls ltac:(simpl; lia)) as Hr.
  destruct (Wal.rotate_locked _ rf) as [[[]|e|] w1]; destruct Hr as (Hc & Hl & Hp1 & Hr); [|done|done].
  destruct Hr as (segs1 & Hls1 & Hs1). simpl in *. split_and!; try done.
  - split_and!; simpl; [done | lia | lia |]. exists segs1, []. split; [exact Hls1 | by rewrite Hs1].
  - by exists segs1.
Qed.
Lemma good_rotate w log rf r w' :
  good w log → Wal.rotate_wal_file w rf = (r, w') → good w' log.
Proof.
  intros Hg Hr. destruct (Wal.poisoned w) eqn:Hp.
  { unfold Wal.rotate_wal_file, Wal.ensure_healthy in Hr. rewrite Hp in Hr. by injection Hr as <- <-. }
  destruct Hg as (recs & Hc & _ & Hi). specialize (Hi Hp). pose proof (rotate_spec w rf recs Hi) as Hs.
  rewrite Hr in Hs. destruct r as [id|e|]; [| |done].
  - destruct Hs as [Hi' _]. by eapply good_inv.
  - destruct Hs as [Hp' Hrec]. exists recs. split_and!; [done | done | congruence].
Qed.

(** A successful rotation ends in a healthy writer with an empty segment. *)
Lemma rotated_ok w log rf id w1 s n :
  good w log → Wal.rotate_wal_file w rf = (Ok id, w1) →
  Wal.trusted_recovery_position w1 = Ok (Some (s, n)) →
  s = Wal.segment_id w1 ∧ n = Wal.next_lsn w1 ∧ 1 <= n <= u64_max ∧ Wal.size w1 = WAL_HEADER_SIZE ∧
  ∃ recs segs0, wal_inv w1 recs ∧ clean_state w1 segs0 [] recs.
Proof.
  intros (recs & _ & _ & Hi) Hrot Hpos. destruct (Wal.poisoned w) eqn:Hp.
  { unfold Wal.rotate_wal_file, Wal.ensure_healthy in Hrot. by rewrite Hp in Hrot. }
  pose proof (rotate_spec w rf recs (Hi eq_refl)) as Hs. rewrite Hrot in Hs.
  destruct Hs as (Hi1 & _ & _ & Hsz & segs0 & Hls). pose proof Hi1 as (_ & Hn & _).
  unfold Wal.trusted_recovery_position in Hpos.
  apply res_bind_Ok in Hpos as (_ & _ & [= Hpos]). destruct (Wal.raw_writes w1); [done|].
  injection Hpos as <- <-. split_and!; try done; try lia. by exists recs, segs0.
Qed.

Lemma good_step w e w' log :
  wal_step w e w' → good w log → ∃ log', log_step log e log' ∧ good w' log'.
Proof.
  intros Hstep Hg. destruct Hstep as
    [w gs owner col rf wf r w' Hty He | w cs rf wf r w' Hty He | w rf r w' He | w id r w' He
    | w tok r w' He | w mx own w' He | w owner rf seg w1 s n seq r w' Hrot How Hpos Hrec
    | w rf seg w1 s n seq mx own w' Hrot Hpos He].
  - eapply good_append; [|done|exact He]. destruct (Wal.owns_checkpoint w owner); [done|].
    by eapply same_log_good.
  - unfold Wal.write_transaction in He. destruct (Wal.append_transactions _ _ _ _ _) as [r1 w1] eqn:E.
    injection He as <- <-. replace (is_ok _) with (is_ok r1) by (by destruct r1).
    eapply good_append; [|by repeat constructor|exact E]. by eapply same_log_good.
  - exists log. split; [constructor | by eapply good_rotate].
  - exists log. split; [constructor|]. unfold Wal.change_to_reserve in He.
    destruct (Wal.ensure_healthy w); [|by injection He as <- <-..].
    case_bool_decide; injection He as <- <-; [done | by eapply same_log_good].
  - exists log. split; [constructor|]. unfold Wal.register_checkpoint_owner in He.
    destruct (_ || _); injection He as <- <-; [done | by eapply same_log_good].
  - exists log. split; [constructor|]. destruct (good_reopen w log mx own Hg) as (w2 & He2 & Hg2 & _).
    congruence.
  - destruct (rotated_ok _ _ _ _ _ _ _ Hg Hrot Hpos) as (-> & -> & Hn & Hsz & recs & segs0 & Hi & Hls).
    unfold Wal.owns_recovery_checkpoints in How. apply andb_true_iff in How as [How _].
    pose proof (reclaim_spec w1 segs0 recs seq Hi Hls Hsz How) as Hs. cbv zeta in Hs. rewrite Hrec in Hs.
    destruct Hs as (_ & Hi' & _). exists []. split; [constructor|]. eapply good_inv; [done | constructor].
  - destruct (rotated_ok _ _ _ _ _ _ _ Hg Hrot Hpos) as (-> & -> & Hn & Hsz & recs & segs0 & Hi & Hls).
    pose proof (checkpointed_state _ _ (clean_checkpointed w1 segs0 recs seq Hls) ltac:(simpl; lia)) as Hcs.
    destruct (open_ok _ _ _ _ _ _ _ _ mx own Hcs (damaged_clean _) ltac:(simpl; lia)) as (w2 & He2 & Hi2 & _).
    rewrite He in He2. injection He2 as <-. exists []. split; [constructor|]. eapply good_inv; [done | constructor].
Qed.

Lemma good_steps w es w' log :
  wal_steps w es w' → good w log → ∃ log', log_steps log es log' ∧ good w' log'.
Proof.
  intros Hs. revert log. induction Hs as [w|w e w1 es w2 Hstep _ IH]; intros log Hg.
  - exists log. split; [constructor | done].
  - destruct (good_step _ _ _ _ Hstep Hg) as (log1 & Hl1 & Hg1).
    destruct (IH log1 Hg1) as (log2 & Hl2 & Hg2). exists log2. split; [by econstructor | done].
Qed.

Lemma fresh_log_state max own w :
  Wal.new_inner empty_dir max None own = Ok w →
  log_state (Wal.checkpoint w) (Wal.dir w) [] (Wal.segment_id w) [] (seg_bytes []) (Wal.next_lsn w) [].
Proof.
  unfold Wal.new_inner. simpl. intros [= <-]. split; simpl; try done.
  - exists []. split; [|constructor]. unfold seg_bytes. by rewrite app_nil_r.
  - repeat constructor.
  - repeat constructor.
  - repeat constructor.
  - exists 0. split; [done|]. intros track. exists (Analysis.init 0 track). split_and!; try done.
    split; simpl; try done. intros u Hu. by apply elem_of_nil in Hu.
Qed.
Lemma fresh_good max own w : Wal.new_inner empty_dir max None own = Ok w → good w [].
Proof.
  intros Hw. pose proof (fresh_log_state _ _ _ Hw) as Hls. injection Hw as <-. apply (good_inv _ []); [|constructor].
  split_and!; [done | done | done |]. exists [], []. split; [exact Hls|]. unfold seg_bytes. rewrite app_nil_r. done.
Qed.
(** A new log has nothing to recover. *)
Lemma fresh_recovers max own w : Wal.new_inner empty_dir max None own = Ok w → Wal.recover_records_with_refs w = Ok [].
Proof.
  intros Hw. destruct (analyze_run w [] [] [] true) as (a & Ha & _ & l0 & Hl); [by injection Hw as <- | by eapply fresh_log_state|].
  injection Hl as <-. unfold Wal.recover_records_with_refs. by rewrite Ha.
Qed.

(** The states of a manager whose directory was created by it. *)
Definition reachable w : Prop :=
  ∃ max own w0 es, Wal.new_inner empty_dir max None own = Ok w0 ∧ wal_steps w0 es w.
Lemma reachable_good w : reachable w → ∃ log, good w log.
Proof.
  intros (max & own & w0 & es & Hopen & Hs). destruct (good_steps _ _ _ [] Hs) as (log & _ & Hg); [|eauto].
  by eapply fresh_good.
Qed.
Lemma recover_healthy w log : Wal.recover_commands w = Ok log → Wal.poisoned w = false.
Proof.
  unfold Wal.recover_commands, Wal.recover_records, Wal.analyze_committed, Wal.ensure_healthy.
  by destruct (Wal.poisoned w).
Qed.
Lemma reachable_inv w log :
  reachable w → Wal.recover_commands w = Ok log → ∃ recs, wal_inv w recs ∧ cmds_of recs log.
Proof.
  intros (log0 & recs & Hc & _ & Hi)%reachable_good Hr. specialize (Hi (recover_healthy _ _ Hr)).
  pose proof (recover_commands_inv _ _ _ Hi Hc) as Hr'. rewrite Hr in Hr'. injection Hr' as ->. eauto.
Qed.

(** ** Properties *)

(** C18.  The log refines its specification: whatever sequence of appends,
    raw writes, rotations, checkpoints and reopenings a manager has gone
    through, with every write allowed to fail after any number of bytes,
    recovery returns a list of commands the abstract log allows, and so does
    recovery after reopening the directory, which always succeeds. *)
Theorem wal_refines_log max own w0 es w :
  Wal.new_inner empty_dir max None own = Ok w0 → wal_steps w0 es w →
  ∃ log, log_steps [] es log ∧
    (Wal.poisoned w = false → Wal.recover_commands w = Ok log) ∧
    ∀ max' own', ∃ w', Wal.new_inner (Wal.dir w) max' (Wal.checkpoint w) own' = Ok w' ∧
      Wal.recover_commands w' = Ok log.
Proof.
  intros Hopen Hs. destruct (good_steps _ _ _ [] Hs (fresh_good _ _ _ Hopen)) as (log & Hl & Hg).
  exists log. split_and!; [done| |].
  - intros Hp. destruct Hg as (recs & Hc & _ & Hi). eapply recover_commands_inv; eauto.
  - intros max' own'. destruct (good_reopen w log max' own' Hg) as (w' & ? & _ & ?). eauto.
Qed.

(** C19.  An append is atomic and durable.  On success recovery returns every
    command of the batch after what was there; on failure, wherever the write
    or the rotation stopped, reopening succeeds and recovers the first [j]
    transactions of the batch, each of them whole. *)
Theorem wal_append_atomic w log gs col rf wf :
  reachable w → Wal.recover_commands w = Ok log → Forall (Forall typed) gs →
  let '(r, w') := Wal.append_transactions w gs col rf wf in
  match r with
  | Ok _ => Wal.recover_commands w' = Ok (log ++ concat gs)
  | Err _ => ∃ j, ∀ max own, ∃ w'',
      Wal.new_inner (Wal.dir w') max (Wal.checkpoint w') own = Ok w'' ∧
      Wal.recover_commands w'' = Ok (log ++ concat (take j gs))
  | Panic => False
  end.
Proof.
  intros Hreach Hrec Hty. destruct (reachable_inv _ _ Hreach Hrec) as (recs & Hi & Hc).
  pose proof (append_spec w gs col rf wf recs Hi Hty) as Hs.
  destruct (Wal.append_transactions w gs col rf wf) as [[rs|e|] w'] eqn:E;
    destruct Hs as [_ Hs]; [| |done].
  - destruct Hs as [Hi' _]. eapply recover_commands_inv; [done | by apply cmds_of_app].
  - destruct Hs as [->|[Hp [j Hj]]].
    + exists O. intros max own. rewrite take_0, app_nil_r.
      destruct (good_reopen w log max own (good_inv _ _ _ Hi Hc)) as (w'' & ? & _ & ?). eauto.
    + exists j. intros max own. destruct (good_reopen w' (log ++ concat (take j gs)) max own) as (w'' & ? & _ & ?); [|eauto].
      eexists. split_and!; [by apply cmds_of_app | exact Hj | congruence].
Qed.

(** A writer poisoned by a failed or interrupted write refuses every
    operation and changes nothing, until the directory is reopened. *)
Theorem wal_poisoned_refuses w gs col rf wf id c :
  Wal.poisoned w = true →
  (gs ≠ [] → ∃ e, Wal.append_transactions w gs col rf wf = (Err e, w)) ∧
  (∃ e, Wal.rotate_wal_file w rf = (Err e, w)) ∧
  (∃ e, Wal.change_to_reserve w id = (Err e, w)) ∧
  (∃ e, Wal.reclaim_checkpointed_segments w c = (Err e, w)) ∧
  is_Err (Wal.recover_commands w) ∧ is_Err (Wal.recover_records_with_refs w) ∧
  is_Err (Wal.recovery_position w) ∧ is_Err (Wal.trusted_recovery_position w).
Proof.
  intros Hp. split; [by intros; apply append_poisoned|].
  unfold Wal.rotate_wal_file, Wal.change_to_reserve, Wal.reclaim_checkpointed_segments,
    Wal.recover_commands, Wal.recover_records, Wal.recover_records_with_refs,
    Wal.analyze_committed, Wal.recovery_position, Wal.trusted_recovery_position, Wal.ensure_healthy.
  rewrite Hp. unfold is_Err. simpl. split_and!; eauto. destruct (Wal.checkpoint_owner w); simpl; eauto.
Qed.
End refine.

(** ** A concrete run *)

Definition cmd_a : LogCommand.t := LogCommand.mk Put [x61] [x31] 7.
Definition cmd_b : LogCommand.t := LogCommand.mk Put [x62] [x32] 8.
Definition cmd_del : LogCommand.t := LogCommand.mk Delete [x61] [] 9.
Definition sample_groups : list (list LogCommand.t) := [[cmd_a; cmd_b]; [cmd_del]].
Definition wal_after (r : res Wal.t) : Wal.t :=
  match r with
  | Ok w => w
  | _ => Wal.mk empty_dir 0 0 0 true [] None 0 false false false None
  end.
Definition sample_wal0 : Wal.t := wal_after (@Wal.new_inner ieee empty_dir 150 None true).
Definition sample_wal1 : Wal.t :=
  snd (@Wal.append_transactions ieee sample_wal0 sample_groups true None None).

Lemma sample_typed : Forall (Forall typed) sample_groups.
Proof. repeat constructor; simpl; done. Qed.
Lemma sample_open : @Wal.new_inner ieee empty_dir 150 None true = Ok sample_wal0.
Proof. vm_compute. reflexivity. Qed.
Definition sample_wal2 : Wal.t :=
  snd (@Wal.append_engine_transactions ieee sample_wal0 sample_groups None true None None).
Definition sample_wal3 : Wal.t :=
  snd (@Wal.append_engine_transactions ieee sample_wal2 sample_groups None true None (Some (OtherIo, 250%nat))).

(** An append step, from its computed outcome. *)
Lemma append_step w gs rf wf ok :
  Forall (Forall typed) gs →
  is_ok (fst (@Wal.append_engine_transactions ieee w gs None true rf wf)) = ok →
  @wal_step ieee w (EAppend gs ok)
    (snd (@Wal.append_engine_transactions ieee w gs None true rf wf)).
Proof. intros Hty <-. by eapply (st_append _ _ None true); [|apply surjective_pairing]. Qed.
Lemma sample_steps :
  @wal_steps ieee sample_wal0 [EAppend sample_groups true; EAppend sample_groups false] sample_wal3.
Proof.
  refine (wss_cons _ _ sample_wal2 _ _ (append_step sample_wal0 sample_groups None None true sample_typed _)
    (wss_cons _ _ sample_wal3 _ _
      (append_step sample_wal2 sample_groups None (Some (OtherIo, 250%nat)) false sample_typed _)
      (wss_nil _))); vm_compute; reflexivity.
Qed.
Definition sample_receipts : list (list WalValueRef.t) :=
  match fst (@Wal.append_transactions ieee sample_wal0 sample_groups true None None) with
  | Ok rs => rs | _ => [] end.
Lemma sample_empty : @Wal.recover_commands ieee sample_wal0 = Ok [].
Proof. vm_compute. reflexivity. Qed.
Lemma sample_append :
  @Wal.append_transactions ieee sample_wal0 sample_groups true None None =
  (Ok sample_receipts, sample_wal1).
Proof. vm_compute. reflexivity. Qed.
Lemma sample_poisoned : Wal.poisoned sample_wal3 = true.
Proof. vm_compute. reflexivity. Qed.
Lemma sample_reachable : @reachable ieee sample_wal0.
Proof. exists 150, true, sample_wal0, []. split; [apply sample_open | apply wss_nil]. Qed.

Lemma wal_refines_log_witness :
  ∃ log, log_steps [] [EAppend sample_groups true; EAppend sample_groups false] log ∧
    ∀ max own, ∃ w',
      @Wal.new_inner ieee (Wal.dir sample_wal3) max (Wal.checkpoint sample_wal3) own = Ok w' ∧
      @Wal.recover_commands ieee w' = Ok log.
Proof.
  destruct (@wal_refines_log ieee ieee_spec 150 true sample_wal0
    [EAppend sample_groups true; EAppend sample_groups false] sample_wal3 sample_open sample_steps)
    as (log & Hl & _ & Hr).
  exists log. split; [exact Hl | exact Hr].
Defined.

Lemma wal_append_atomic_witness :
  @Wal.recover_commands ieee sample_wal1 = Ok [cmd_a; cmd_b; cmd_del].
Proof.
  pose proof (@wal_append_atomic ieee ieee_spec sample_wal0 [] sample_groups true None None
    sample_reachable sample_empty sample_typed) as Hw.
  rewrite sample_append in Hw. exact Hw.
Defined.

Lemma wal_poisoned_refuses_witness :
  ∃ e, @Wal.rotate_wal_file ieee sample_wal3 None = (Err e, sample_wal3).
Proof.
  exact (proj1 (proj2 (@wal_poisoned_refuses ieee sample_wal3 [] true None None 0
    (mkRecoveryCheckpoint 0 0 0) sample_poisoned))).
Defined.

(** The torn second batch: its first transaction survives, the other does not. *)
Example sample_torn_recovery :
  (w ← @Wal.new_inner ieee (Wal.dir sample_wal3) 150 None true; @Wal.recover_commands ieee w) =
  Ok [cmd_a; cmd_b; cmd_del; cmd_a; cmd_b].
Proof. vm_compute. reflexivity. Qed.
