(* ===== verification/WalRead.v ===== *)
(** * Reading a value by reference: [WALManager::read_value]

    A reference carries the place of an update frame and of its transaction;
    [read_value] re-reads the whole transaction, checks every frame, the chain
    and the commit, and returns the value of the update it names. *)

From S2P Require Import Prelude Bytes OrdMap Search Record WalFormat WalAnalysis Wal WalCrash WalRefine.

(** [read_exact_at]: a seek past [i64::MAX] fails, then [read_exact]. *)
Definition read_exact_at (file : bytes) (offset length : Z) : res bytes :=
  if isize_max <? offset then Err (IO InvalidInput)
  else fst <$> read_vec length (drop (Z.to_nat offset) file).

Section read.
Context `{Crc32}.
Implicit Types (r : WalValueRef.t).

(** The loop variables of the walk over the transaction. *)
Record ReadState : Type := mkReadState {
  rs_cursor : Z;
  rs_previous_lsn : Z;
  rs_first_lsn : option Z;
  rs_selected : option LogCommand.t
}.

(** What one iteration checks of a decoded frame of [frame_length] bytes, and
    the loop variables it leaves; [total] is the length of the transaction. *)
Definition check_frame r (total : Z) (frame : Frame.t) (frame_length : Z) (st : ReadState)
    : res ReadState :=
  let frame_end := rs_cursor st + frame_length in
  _ ← guard_err (Frame.transaction_id frame =? WalValueRef.transaction_id r)
        (Corrupted "WAL transaction identity mismatch");
  _ ← match rs_first_lsn st with
      | Some _ =>
          expected_lsn ← ok_or (checked_add (rs_previous_lsn st) 1)
                           (Corrupted "WAL transaction LSN overflow");
          guard_err ((Frame.lsn frame =? expected_lsn)
                     && (Frame.previous_lsn frame =? rs_previous_lsn st))
            (Corrupted "Invalid WAL transaction chain")
      | None =>
          guard_err ((Frame.lsn frame =? WalValueRef.transaction_id r)
                     && (Frame.previous_lsn frame =? 0))
            (Corrupted "Invalid WAL transaction start")
      end;
  let first_lsn := match rs_first_lsn st with Some l => Some l | None => Some (Frame.lsn frame) end in
  frame_offset ← ok_or (checked_add (WalValueRef.transaction_start_offset r) (rs_cursor st))
                   (Corrupted "WAL offset overflow");
  selected ← match Frame.record frame with
    | Update command =>
        _ ← guard_err (negb (frame_end =? total)) (Corrupted "WAL transaction has no commit");
        if frame_offset =? WalValueRef.frame_offset r then
          _ ← guard_err (bool_decide (rs_selected st = None))
                (Corrupted "WAL value reference frame is duplicated");
          _ ← guard_err ((Frame.lsn frame =? WalValueRef.physical_lsn r)
                         && (frame_length =? WalValueRef.frame_length r))
                (Corrupted "WAL value reference frame mismatch");
          mret (Some command)
        else mret (rs_selected st)
    | Commit =>
        _ ← guard_err ((frame_offset =? WalValueRef.commit_offset r)
                       && (Frame.lsn frame =? WalValueRef.commit_lsn r)
                       && (frame_end =? total))
              (Corrupted "WAL value reference commit mismatch");
        mret (rs_selected st)
    end;
  mret (mkReadState frame_end (Frame.lsn frame) first_lsn selected).

(** One iteration, on the bytes from the cursor on. *)
Definition read_frame r (total : Z) (rest : bytes) (st : ReadState) : res ReadState :=
  _ ← guard_err (FRAME_HEADER_SIZE <=? len rest) (Corrupted "Incomplete WAL transaction frame");
  let frame_header := take (Z.to_nat FRAME_HEADER_SIZE) rest in
  '(frame_lsn, frame_body_length) ← decode_frame_header frame_header;
  _ ← guard_err ((17 <=? frame_body_length) && (frame_body_length <=? MAX_FRAME_SIZE))
        (Corrupted "Invalid WAL frame size");
  let frame_length := FRAME_HEADER_SIZE + frame_body_length in
  _ ← guard_err (rs_cursor st + frame_length <=? total)
        (Corrupted "Incomplete WAL transaction frame");
  let body := take (Z.to_nat frame_body_length) (drop (Z.to_nat FRAME_HEADER_SIZE) rest) in
  _ ← verify_frame_body frame_header body;
  frame ← decode_frame frame_lsn body;
  check_frame r total frame frame_length st.

(** [while cursor < transaction.len()]; every iteration moves the cursor by at
    least a frame header, so [length transaction] iterations are enough. *)
Fixpoint read_loop (fuel : nat) r (transaction : bytes) (st : ReadState) : res ReadState :=
  match fuel with
  | O => Ok st
  | S fuel =>
      if rs_cursor st <? len transaction then
        st ← read_frame r (len transaction) (drop (Z.to_nat (rs_cursor st)) transaction) st;
        read_loop fuel r transaction st
      else Ok st
  end.

(** The checks before the walk: the frame headers the reference points at, and
    the end of the commit frame. *)
Definition read_commit_end r (file : bytes) : res Z :=
  let file_length := len file in
  commit_header_end ← ok_or (checked_add (WalValueRef.commit_offset r) FRAME_HEADER_SIZE)
                        (Corrupted "WAL value reference commit overflow");
  _ ← guard_err (commit_header_end <=? file_length)
        (Corrupted "WAL value reference commit is outside the segment");
  commit_header ← read_exact_at file (WalValueRef.commit_offset r) FRAME_HEADER_SIZE;
  '(commit_lsn, commit_body_length) ← decode_frame_header commit_header;
  _ ← guard_err (commit_lsn =? WalValueRef.commit_lsn r)
        (Corrupted "WAL value reference commit LSN mismatch");
  _ ← guard_err ((17 <=? commit_body_length) && (commit_body_length <=? MAX_FRAME_SIZE))
        (Corrupted "Invalid WAL commit frame size");
  commit_end ← ok_or (e ← checked_add (WalValueRef.commit_offset r) FRAME_HEADER_SIZE;
                      checked_add e commit_body_length)
                 (Corrupted "WAL value reference commit overflow");
  _ ← guard_err (commit_end <=? file_length) (Corrupted "WAL value reference commit is truncated");
  mret commit_end.
Definition read_frame_header r (file : bytes) : res unit :=
  frame_header ← read_exact_at file (WalValueRef.frame_offset r) FRAME_HEADER_SIZE;
  '(frame_lsn, frame_body_length) ← decode_frame_header frame_header;
  _ ← guard_err ((17 <=? frame_body_length) && (frame_body_length <=? MAX_FRAME_SIZE))
        (Corrupted "Invalid WAL value reference frame size");
  guard_err ((frame_lsn =? WalValueRef.physical_lsn r)
             && (FRAME_HEADER_SIZE + frame_body_length =? WalValueRef.frame_length r))
    (Corrupted "WAL value reference frame mismatch").

(** The checks on the selected command. *)
Definition read_selected r (expected_key : bytes) (expected_sequence : Z) (command : LogCommand.t)
    : res bytes :=
  _ ← guard_err (bool_decide (LogCommand.record_type command = Put)
                 && bool_decide (WalValueRef.record_type r = Put))
        (Corrupted "WAL value reference is not a put");
  _ ← guard_err ((LogCommand.lsn command =? WalValueRef.application_sequence r)
                 && (LogCommand.lsn command =? expected_sequence))
        (Corrupted "WAL value reference application sequence mismatch");
  _ ← guard_err (bytes_eqb (LogCommand.key command) expected_key)
        (Corrupted "WAL value reference key mismatch");
  _ ← guard_err ((len (LogCommand.key command) =? WalValueRef.key_length r)
                 && (crc32 (LogCommand.key command) =? WalValueRef.key_checksum r))
        (Corrupted "WAL value reference key metadata mismatch");
  _ ← guard_err ((len (LogCommand.value command) =? WalValueRef.value_length r)
                 && (crc32 (LogCommand.value command) =? WalValueRef.value_checksum r))
        (Corrupted "WAL value reference value metadata mismatch");
  mret (LogCommand.value command).

(** The whole operation.  The segment is looked up among the canonically named
    regular files; a foreign entry under the same name is not modelled. *)
Definition read_value (w : Wal.t) r (expected_key : bytes) (expected_sequence : Z) : res bytes :=
  _ ← WalValueRef.validate r;
  file ← ok_or (om_get (WalValueRef.segment_id r) (wd_segs (Wal.dir w)))
           (Corrupted "WAL value reference segment is missing");
  _ ← guard_err (WAL_HEADER_SIZE <=? len file) (Corrupted "WAL segment is shorter than its header");
  header_bytes ← read_exact_at file 0 WAL_HEADER_SIZE;
  header ← WALHeader.decode header_bytes;
  _ ← guard_err (WALHeader.version header =? WAL_VERSION)
        (StorageError "Legacy WAL segments do not support value references");
  _ ← guard_err ((WALHeader.last_checkpoint header =? 0)
                 && (WALHeader.last_checkpoint_offset header =? 0))
        (Corrupted "Unsupported WAL checkpoint metadata");
  commit_end ← read_commit_end r file;
  _ ← read_frame_header r file;
  span ← ok_or (checked_sub commit_end (WalValueRef.transaction_start_offset r))
           (Corrupted "WAL value reference transaction order is invalid");
  _ ← guard_err (span <=? MAX_GROUP_ENCODED_SIZE)
        (Corrupted "WAL value reference transaction is too large");
  transaction ← read_exact_at file (WalValueRef.transaction_start_offset r) span;
  st ← read_loop (length transaction) r transaction (mkReadState 0 0 None None);
  _ ← guard_err ((rs_cursor st =? len transaction)
                 && bool_decide (rs_first_lsn st = Some (WalValueRef.transaction_id r)))
        (Corrupted "WAL transaction does not end at its commit");
  command ← ok_or (rs_selected st) (Corrupted "WAL value reference frame is missing");
  read_selected r expected_key expected_sequence command.
End read.

(** ** Walking a transaction *)

Section read_theory.
Context `{Crc32Spec}.
Implicit Types (r : WalValueRef.t) (f : Frame.t) (g : list LogCommand.t).

Lemma read_frame_run r total f rest st :
  frame_ok f → rs_cursor st + len (frame_bytes f) <= total →
  read_frame r total (frame_bytes f ++ rest) st = check_frame r total f (len (frame_bytes f)) st.
Proof.
  intros Hf Ht. pose proof (frame_body_bounds f Hf) as Hb. pose proof Hf as (Hl & _).
  unfold read_frame. rewrite take_header, drop_header, len_app. rewrite frame_bytes_len in *.
  pose proof (len_nonneg rest). unfold MAX_FRAME_SIZE in *.
  rewrite (proj2 (Z.leb_le FRAME_HEADER_SIZE _)) by lia. cbn [guard_err mbind res_bind].
  rewrite frame_header_run by (first [done | word_lia]). cbn [mbind res_bind].
  rewrite (proj2 (Z.leb_le 17 _)), (proj2 (Z.leb_le (len (frame_body f)) _)) by lia.
  cbn [andb guard_err mbind res_bind].
  rewrite (proj2 (Z.leb_le _ total)) by lia. cbn [guard_err mbind res_bind].
  assert (take (Z.to_nat (len (frame_body f))) (frame_body f ++ rest) = frame_body f) as ->.
  { unfold len. by rewrite Nat2Z.id, take_app_length. }
  rewrite verify_frame_body_run. cbn [mbind res_bind]. rewrite decode_frame_run by done. done.
Qed.

(** The chain condition of the walk before a frame of LSN [lsn]. *)
Definition chained r (prev lsn : Z) (first : option Z) : Prop :=
  match first with
  | Some l => l = WalValueRef.transaction_id r ∧ lsn = prev + 1
  | None => prev = 0 ∧ lsn = WalValueRef.transaction_id r
  end.

Lemma read_loop_step fuel r tx x f y prev first sel :
  tx = x ++ frame_bytes f ++ y → frame_ok f →
  read_loop (S fuel) r tx (mkReadState (len x) prev first sel) =
  (st ← check_frame r (len tx) f (len (frame_bytes f)) (mkReadState (len x) prev first sel);
   read_loop fuel r tx st).
Proof.
  intros Htx Hf. cbn [read_loop rs_cursor]. pose proof (frame_bytes_pos f). pose proof (len_nonneg y).
  rewrite (proj2 (Z.ltb_lt _ _)) by (rewrite Htx, !len_app; lia).
  assert (drop (Z.to_nat (len x)) tx = frame_bytes f ++ y) as ->.
  { rewrite Htx. unfold len. by rewrite Nat2Z.id, drop_app_length. }
  rewrite read_frame_run; [done | done |]. rewrite Htx, !len_app. simpl. lia.
Qed.

(** An update frame before the commit passes; it is selected when it is the
    one the reference points at. *)
Lemma check_update r total lsn prev cur first sel c n :
  chained r prev lsn first → lsn <= u64_max → cur + n < total →
  WalValueRef.transaction_start_offset r + cur <= u64_max →
  (WalValueRef.transaction_start_offset r + cur = WalValueRef.frame_offset r →
   sel = None ∧ lsn = WalValueRef.physical_lsn r ∧ n = WalValueRef.frame_length r) →
  check_frame r total (Frame.mk lsn (WalValueRef.transaction_id r) prev (Update c)) n
    (mkReadState cur prev first sel) =
  Ok (mkReadState (cur + n) lsn (Some (WalValueRef.transaction_id r))
        (if WalValueRef.transaction_start_offset r + cur =? WalValueRef.frame_offset r
         then Some c else sel)).
Proof.
  intros Hch Hmax Hn Hoff Hsel. unfold check_frame. simpl. rewrite Z.eqb_refl. cbn [guard_err mbind res_bind].
  unfold checked_add. rewrite (proj2 (Z.eqb_neq (cur + n) total)) by lia.
  rewrite (proj2 (Z.leb_le (_ + cur) _)) by done. cbn [negb guard_err mbind res_bind ok_or].
  destruct first as [l|]; destruct Hch as [-> ->].
  - rewrite (proj2 (Z.leb_le _ _)) by lia. cbn [ok_or mbind res_bind]. rewrite !Z.eqb_refl.
    cbn [andb guard_err mbind res_bind].
    destruct (Z.eqb_spec (WalValueRef.transaction_start_offset r + cur) (WalValueRef.frame_offset r)) as [E|E]; [|done].
    destruct (Hsel E) as (-> & -> & ->). by rewrite !Z.eqb_refl.
  - rewrite !Z.eqb_refl. cbn [andb guard_err mbind res_bind].
    destruct (Z.eqb_spec (WalValueRef.transaction_start_offset r + cur) (WalValueRef.frame_offset r)) as [E|E]; [|done].
    destruct (Hsel E) as (-> & -> & ->). by rewrite !Z.eqb_refl.
Qed.

Definition last_lsn (prev lsn : Z) g : Z := match g with [] => prev | _ => lsn + len g - 1 end.
Lemma last_lsn_cons prev lsn c g : last_lsn prev lsn (c :: g) = last_lsn lsn (lsn + 1) g.
Proof. unfold last_lsn. rewrite len_cons. destruct g; [rewrite len_nil|]; lia. Qed.
Lemma update_frames_app tid prev lsn g1 g2 :
  update_frames tid prev lsn (g1 ++ g2) =
  update_frames tid prev lsn g1 ++ update_frames tid (last_lsn prev lsn g1) (lsn + len g1) g2.
Proof.
  revert prev lsn. induction g1 as [|c g1 IH]; intros prev lsn; cbn [update_frames app].
  - by rewrite len_nil, Z.add_0_r.
  - rewrite IH, last_lsn_cons, len_cons. do 3 f_equal. lia.
Qed.

(** Update frames the reference does not point at are walked over. *)
Lemma read_loop_updates r tx g fuel x y prev lsn first sel :
  let tid := WalValueRef.transaction_id r in
  let start := WalValueRef.transaction_start_offset r in
  let bs := frames_bytes (update_frames tid prev lsn g) in
  tx = x ++ bs ++ y → Forall frame_ok (update_frames tid prev lsn g) →
  chained r prev lsn first → 1 <= len y → start + len tx <= u64_max → lsn + len g - 1 <= u64_max →
  (start + len x + len bs <= WalValueRef.frame_offset r ∨ WalValueRef.frame_offset r < start + len x) →
  let first' := match g with [] => first | _ => Some tid end in
  chained r (last_lsn prev lsn g) (lsn + len g) first' ∧
    read_loop (length g + fuel) r tx (mkReadState (len x) prev first sel) =
    read_loop fuel r tx (mkReadState (len x + len bs) (last_lsn prev lsn g) first' sel).
Proof.
  intros tid start bs. subst bs. revert fuel x prev lsn first.
  induction g as [|c g IH]; intros fuel x prev lsn first Htx Hok Hch Hy Hmax Hl Htgt.
  { unfold frames_bytes. simpl. rewrite !len_nil, !Z.add_0_r. done. }
  cbn [update_frames] in *. apply Forall_cons_1 in Hok as [Hf Hok].
  rewrite frames_bytes_cons in *. rewrite len_app in *.
  set (f := Frame.mk lsn tid prev (Update c)) in *. pose proof (frame_bytes_pos f).
  rewrite len_cons in *. pose proof (len_nonneg g).
  pose proof (len_nonneg (frames_bytes (update_frames tid lsn (lsn + 1) g))).
  pose proof (f_equal len Htx) as Hlen. rewrite !len_app in Hlen.
  assert (start + len x ≠ WalValueRef.frame_offset r) as Hne by lia.
  destruct (IH fuel (x ++ frame_bytes f) lsn (lsn + 1) (Some tid)) as (Hch' & Hloop).
  { by rewrite Htx, <- !(assoc_L (++)). } { done. } { done. } { done. } { done. } { lia. }
  { rewrite len_app. lia. }
  replace (match g with [] => Some tid | _ => Some tid end) with (Some tid) in * by (by destruct g).
  cbv zeta. rewrite last_lsn_cons. split.
  - by replace (lsn + (1 + len g)) with (lsn + 1 + len g) by lia.
  - cbn [length Nat.add]. rewrite (read_loop_step _ _ _ x f (frames_bytes (update_frames tid lsn (lsn + 1) g) ++ y))
      by (try done; by rewrite Htx, <- !(assoc_L (++))).
    assert (len x + len (frame_bytes f) < len tx) as Hend by lia.
    pose proof (check_update r (len tx) lsn prev (len x) first sel c (len (frame_bytes f)) Hch
      ltac:(lia) Hend ltac:(fold start; lia) (λ E, False_ind _ (Hne E))) as Hstep.
    fold tid in Hstep. fold f in Hstep. rewrite Hstep.
    fold start tid. rewrite (proj2 (Z.eqb_neq _ _)) by done. cbn [mbind res_bind].
    rewrite <- (len_app x), Hloop. rewrite !len_app, Z.add_assoc. done.
Qed.

(** The reference to command [c] of the transaction [g1 ++ c :: g2] that starts
    at offset [start] of segment [seg] with LSN [lsn]. *)
Definition ref_to (seg start lsn : Z) g1 (c : LogCommand.t) g2 : WalValueRef.t :=
  WalValueRef.mk seg lsn start
    (start + len (frames_bytes (update_frames lsn 0 lsn (g1 ++ c :: g2))))
    (lsn + len (g1 ++ c :: g2))
    (start + len (frames_bytes (update_frames lsn 0 lsn g1)))
    (len (frame_bytes (Frame.mk (lsn + len g1) lsn (last_lsn 0 lsn g1) (Update c))))
    (lsn + len g1) (LogCommand.lsn c) (LogCommand.record_type c)
    (len (LogCommand.key c)) (crc32 (LogCommand.key c))
    (len (LogCommand.value c)) (crc32 (LogCommand.value c)).

Lemma read_loop_end fuel r tx st : rs_cursor st = len tx → read_loop fuel r tx st = Ok st.
Proof. intros Hc. destruct fuel; simpl; [done|]. by rewrite Hc, Z.ltb_irrefl. Qed.

Lemma check_commit r total lsn prev cur n l sel :
  chained r prev lsn (Some l) → lsn <= u64_max → cur + n = total →
  WalValueRef.transaction_start_offset r + cur <= u64_max →
  WalValueRef.transaction_start_offset r + cur = WalValueRef.commit_offset r →
  lsn = WalValueRef.commit_lsn r →
  check_frame r total (Frame.mk lsn (WalValueRef.transaction_id r) prev Commit) n
    (mkReadState cur prev (Some l) sel) =
  Ok (mkReadState total lsn (Some (WalValueRef.transaction_id r)) sel).
Proof.
  intros [-> ->] Hmax <- Hoff Hco Hcl. unfold check_frame. simpl. rewrite !Z.eqb_refl. cbn [guard_err mbind res_bind].
  unfold checked_add. rewrite !(proj2 (Z.leb_le _ _)) by done. cbn [ok_or mbind res_bind].
  rewrite Hco, Hcl, !Z.eqb_refl. done.
Qed.

(** The frames of a transaction around one of its updates. *)
Lemma group_split lsn g1 c g2 :
  let g := g1 ++ c :: g2 in
  let fc := Frame.mk (lsn + len g1) lsn (last_lsn 0 lsn g1) (Update c) in
  group_frames lsn g =
  update_frames lsn 0 lsn g1 ++ [fc] ++ update_frames lsn (lsn + len g1) (lsn + len g1 + 1) g2
  ++ [Frame.mk (lsn + len g) lsn (lsn + len g - 1) Commit].
Proof. intros g fc. unfold group_frames, g. rewrite update_frames_app. simpl. by rewrite <- (assoc_L (++)). Qed.

Lemma last_lsn_snoc lsn g1 (c : LogCommand.t) g2 :
  last_lsn (lsn + len g1) (lsn + len g1 + 1) g2 = lsn + len (g1 ++ c :: g2) - 1.
Proof. unfold last_lsn. rewrite len_app, len_cons. destruct g2; [rewrite len_nil|]; lia. Qed.

Section walk.
Context (seg start lsn : Z) g1 (c : LogCommand.t) g2.
Let g := g1 ++ c :: g2.
Let tx := frames_bytes (group_frames lsn g).
Let r := ref_to seg start lsn g1 c g2.
Let fc := Frame.mk (lsn + len g1) lsn (last_lsn 0 lsn g1) (Update c).
Let cf := Frame.mk (lsn + len g) lsn (lsn + len g - 1) Commit.
Let b1 := frames_bytes (update_frames lsn 0 lsn g1).
Let b2 := frames_bytes (update_frames lsn (lsn + len g1) (lsn + len g1 + 1) g2).
Hypothesis Hok : Forall frame_ok (group_frames lsn g).
Hypothesis Hmax : start + len tx <= u64_max.
Hypothesis Hl : lsn + len g <= u64_max.

Lemma walk_bytes : tx = b1 ++ frame_bytes fc ++ b2 ++ frame_bytes cf.
Proof.
  unfold tx, g. rewrite group_split, !frames_bytes_app. unfold frames_bytes at 2 4. simpl.
  by rewrite !app_nil_r.
Qed.
Lemma walk_sizes :
  len tx = len b1 + len (frame_bytes fc) + len b2 + len (frame_bytes cf) ∧
  len g = len g1 + 1 + len g2 ∧ 0 <= len b1 ∧ 0 <= len b2 ∧ 0 <= len g1 ∧ 0 <= len g2 ∧
  37 <= len (frame_bytes fc) ∧ 37 <= len (frame_bytes cf) ∧
  len (frames_bytes (update_frames lsn 0 lsn g)) = len b1 + len (frame_bytes fc) + len b2.
Proof.
  pose proof (f_equal len walk_bytes) as Hlen. rewrite !len_app in Hlen.
  split_and!; try apply len_nonneg; try apply frame_bytes_pos; [lia | |].
  - unfold g. rewrite len_app, len_cons. lia.
  - unfold g. rewrite update_frames_app, frames_bytes_app. cbn [update_frames].
    rewrite frames_bytes_cons, !len_app. unfold b1, b2, fc. lia.
Qed.
Lemma walk_oks :
  Forall frame_ok (update_frames lsn 0 lsn g1) ∧ frame_ok fc ∧
  Forall frame_ok (update_frames lsn (lsn + len g1) (lsn + len g1 + 1) g2) ∧ frame_ok cf.
Proof.
  pose proof Hok as Hk. unfold g in Hk. rewrite group_split in Hk.
  by apply Forall_app in Hk as [? [? [? [? _]%Forall_cons_1]%Forall_app]%Forall_cons_1].
Qed.

Lemma walk_target fuel :
  read_loop (length g1 + S fuel) r tx (mkReadState 0 0 None None) =
  read_loop fuel r tx (mkReadState (len (b1 ++ frame_bytes fc)) (lsn + len g1) (Some lsn) (Some c)).
Proof.
  pose proof walk_bytes as Htx. destruct walk_sizes as (Hlen & Hg & ? & ? & ? & ? & ? & ? & ?).
  destruct walk_oks as (Hok1 & Hokc & Hok2 & Hokf).
  destruct (read_loop_updates r tx g1 (S fuel) [] (frame_bytes fc ++ b2 ++ frame_bytes cf) 0 lsn None None)
    as [Hch1 Hu1];
    [done | done | done | rewrite !len_app; lia | done | lia | left; rewrite len_nil; simpl; fold b1; lia |].
  rewrite len_nil in Hu1. change (WalValueRef.transaction_id r) with lsn in Hu1. fold b1 in Hu1.
  rewrite Hu1. change (0 + len b1) with (len b1).
  rewrite (read_loop_step _ _ _ b1 fc (b2 ++ frame_bytes cf)) by done.
  assert (len b1 + len (frame_bytes fc) < len tx) as Hend by lia.
  pose proof (check_update r (len tx) (lsn + len g1) (last_lsn 0 lsn g1) (len b1) _ None c
    (len (frame_bytes fc)) Hch1 ltac:(lia) Hend ltac:(simpl; lia) ltac:(done)) as Hstep.
  change (check_frame r (len tx) fc (len (frame_bytes fc)) (mkReadState (len b1) (last_lsn 0 lsn g1)
    (match g1 with [] => None | _ => Some lsn end) None) = Ok (mkReadState (len b1 + len (frame_bytes fc))
    (lsn + len g1) (Some lsn) (if start + len b1 =? start + len b1 then Some c else None))) in Hstep.
  rewrite Z.eqb_refl in Hstep. rewrite Hstep, len_app. done.
Qed.

Lemma walk_commit fuel :
  read_loop (length g2 + S fuel) r tx
    (mkReadState (len (b1 ++ frame_bytes fc)) (lsn + len g1) (Some lsn) (Some c)) =
  Ok (mkReadState (len tx) (lsn + len g) (Some lsn) (Some c)).
Proof.
  pose proof walk_bytes as Htx. destruct walk_sizes as (Hlen & Hg & ? & ? & ? & ? & ? & ? & Hco).
  destruct walk_oks as (Hok1 & Hokc & Hok2 & Hokf).
  destruct (read_loop_updates r tx g2 (S fuel) (b1 ++ frame_bytes fc) (frame_bytes cf)
    (lsn + len g1) (lsn + len g1 + 1) (Some lsn) (Some c)) as [Hch2 Hu2];
    [by rewrite Htx, <- !(assoc_L (++)) | done | done | lia | done | lia
    | right; rewrite len_app; simpl; fold b1; lia |].
  change (WalValueRef.transaction_id r) with lsn in Hu2, Hch2. fold b2 in Hu2. rewrite Hu2.
  replace (match g2 with [] => Some lsn | _ => Some lsn end) with (Some lsn) in * by (by destruct g2).
  rewrite <- len_app, (read_loop_step _ _ _ _ cf [])
    by (rewrite ?app_nil_r, ?Htx, <- ?(assoc_L (++)); done).
  rewrite (last_lsn_snoc lsn g1 c g2) in *. fold g in Hch2 |- *.
  replace (lsn + len g1 + 1 + len g2) with (lsn + len g) in Hch2 by lia.
  pose proof (check_commit r (len tx) (lsn + len g) (lsn + len g - 1)
    (len ((b1 ++ frame_bytes fc) ++ b2)) (len (frame_bytes cf)) lsn (Some c) Hch2 Hl) as Hstep.
  change (WalValueRef.transaction_id r) with lsn in Hstep. fold cf in Hstep.
  rewrite Hstep; [by apply read_loop_end | rewrite !len_app; lia | rewrite !len_app; simpl; lia | | done].
  simpl. fold g. rewrite Hco, !len_app. lia.
Qed.

(** The walk over the transaction ends at its end, having selected [c]. *)
Lemma read_loop_group fuel :
  (S (length g) <= fuel)%nat →
  read_loop fuel r tx (mkReadState 0 0 None None) =
  Ok (mkReadState (len tx) (lsn + len g) (Some lsn) (Some c)).
Proof.
  intros Hf. assert (length g = (length g1 + S (length g2))%nat) by (unfold g; by rewrite length_app).
  replace fuel with (length g1 + S (length g2 + S (fuel - length g - 1)))%nat by lia.
  rewrite walk_target. apply walk_commit.
Qed.
End walk.

(** ** The whole lookup *)

Lemma read_exact_at_run (x y z : bytes) off n :
  off = len x → n = len y → off <= isize_max → n <= isize_max →
  read_exact_at (x ++ y ++ z) off n = Ok y.
Proof.
  intros -> -> Hx Hy. unfold read_exact_at. rewrite (proj2 (Z.ltb_ge _ _)) by lia.
  assert (drop (Z.to_nat (len x)) (x ++ y ++ z) = y ++ z) as ->.
  { unfold len. by rewrite Nat2Z.id, drop_app_length. }
  by rewrite read_vec_run.
Qed.

Lemma frame_update_len lsn tid prev c :
  len (frame_bytes (Frame.mk lsn tid prev (Update c))) =
  FRAME_HEADER_SIZE + (42 + len (LogCommand.key c) + len (LogCommand.value c)).
Proof. by rewrite frame_bytes_len, frame_body_len. Qed.
Lemma frame_commit_len lsn tid prev :
  len (frame_bytes (Frame.mk lsn tid prev Commit)) = FRAME_HEADER_SIZE + 17.
Proof. by rewrite frame_bytes_len, frame_body_len. Qed.

(** Reading the header of a frame at its offset. *)
Lemma read_header_at (x : bytes) f (z : bytes) off :
  off = len x → off <= isize_max →
  read_exact_at (x ++ frame_bytes f ++ z) off FRAME_HEADER_SIZE = Ok (frame_header (Frame.lsn f) (frame_body f)).
Proof.
  intros Hx Hm. unfold frame_bytes. rewrite <- (assoc_L (++)).
  apply read_exact_at_run; [done | by rewrite frame_header_len | done | unfold FRAME_HEADER_SIZE; word_lia].
Qed.
Lemma header_at_run f :
  frame_ok f → decode_frame_header (frame_header (Frame.lsn f) (frame_body f)) =
    Ok (Frame.lsn f, record_body_len (Frame.record f)).
Proof.
  intros Hf. pose proof (frame_body_bounds f Hf) as Hb. destruct Hf as (Hl & _).
  rewrite frame_header_run, frame_body_len; [done | done |]. unfold MAX_FRAME_SIZE in Hb. word_lia.
Qed.

(** A frame takes at least a byte, so the fuel of the walk is enough. *)
Lemma frames_bytes_ge fs : (length fs <= length (frames_bytes fs))%nat.
Proof.
  induction fs as [|f fs IH]; [done|]. rewrite frames_bytes_cons, length_app.
  pose proof (frame_bytes_pos f). unfold len in *. simpl. lia.
Qed.

Section lookup.
Context (seg start lsn : Z) (fs : list Frame.t) g1 (c : LogCommand.t) g2 (suf : bytes).
Let g := g1 ++ c :: g2.
Let tx := frames_bytes (group_frames lsn g).
Let r := ref_to seg start lsn g1 c g2.
Let file := seg_bytes fs ++ tx ++ suf.
Let fc := Frame.mk (lsn + len g1) lsn (last_lsn 0 lsn g1) (Update c).
Let cf := Frame.mk (lsn + len g) lsn (lsn + len g - 1) Commit.
Let b1 := frames_bytes (update_frames lsn 0 lsn g1).
Let b2 := frames_bytes (update_frames lsn (lsn + len g1) (lsn + len g1 + 1) g2).
Hypothesis Hok : Forall frame_ok (group_frames lsn g).
Hypothesis Hstart : start = len (seg_bytes fs).
Hypothesis Hfile : len file <= isize_max.
Hypothesis Hlsn : 1 <= lsn.
Hypothesis Hl : lsn + len g <= u64_max.
Hypothesis Hgroup : len tx <= MAX_GROUP_ENCODED_SIZE.
Hypothesis Hput : LogCommand.record_type c = Put.

Lemma lookup_sizes :
  len file = start + len tx + len suf ∧ WAL_HEADER_SIZE <= start ∧ 0 <= len suf.
Proof.
  unfold file. rewrite !len_app, Hstart. split_and!; [lia | | apply len_nonneg].
  unfold seg_bytes. rewrite len_app. pose proof wal_header_len. pose proof (len_nonneg (frames_bytes fs)). lia.
Qed.

Lemma lookup_walk :
  len tx = len b1 + len (frame_bytes fc) + len b2 + len (frame_bytes cf) ∧
  len g = len g1 + 1 + len g2 ∧ 0 <= len b1 ∧ 0 <= len b2 ∧ 0 <= len g1 ∧ 0 <= len g2 ∧
  37 <= len (frame_bytes fc) ∧ 37 <= len (frame_bytes cf) ∧
  len (frames_bytes (update_frames lsn 0 lsn g)) = len b1 + len (frame_bytes fc) + len b2.
Proof. exact (walk_sizes lsn g1 c g2). Qed.

Lemma lookup_validate : WalValueRef.validate r = Ok tt.
Proof.
  destruct lookup_sizes as (Hf & Hs & Hn).
  destruct lookup_walk as (Hlen & Hg & ? & ? & ? & ? & ? & ? & Hco). unfold fc in *.
  destruct (walk_oks lsn g1 c g2 Hok) as (_ & (_ & _ & _ & Hc) & _). simpl in Hc.
  destruct Hc as (Hcl & Hsz & Hdel).
  rewrite frame_update_len in *. unfold WalValueRef.validate, r, ref_to. simpl. fold g b1.
  rewrite Hco, frame_update_len.
  pose proof (len_nonneg (LogCommand.key c)). pose proof (len_nonneg (LogCommand.value c)).
  unfold MIN_WAL_UPDATE_FRAME_SIZE, MAX_WAL_UPDATE_FRAME_SIZE, FRAME_HEADER_SIZE,
    WAL_HEADER_SIZE, MAX_FRAME_SIZE in *. unfold isize_max in *.
  assert (len file <= u64_max) by word_lia.
  do 4 check_run. rewrite (checked_add_run 42) by word_lia.
  cbn [mbind option_bind]. eapply ok_or_run; [apply checked_add_run; word_lia|]. cbv beta.
  do 2 check_run. by rewrite Hput.
Qed.

Lemma lookup_widths : is_u64 seg → ref_widths r.
Proof.
  intros Hseg. destruct lookup_sizes as (Hf & Hs & Hn). destruct lookup_walk as (Hlen & Hg & ? & ? & ? & ? & ? & ? & Hco).
  destruct (walk_oks lsn g1 c g2 Hok) as (_ & (_ & _ & _ & Hc) & _). simpl in Hc. destruct Hc as (Hcl & Hsz & _).
  pose proof (len_nonneg (LogCommand.key c)). pose proof (len_nonneg (LogCommand.value c)).
  unfold fc in *. rewrite frame_update_len in *. unfold ref_widths, r, ref_to. simpl. fold g b1. rewrite Hco, frame_update_len.
  unfold WAL_HEADER_SIZE, FRAME_HEADER_SIZE, MAX_FRAME_SIZE in *. unfold isize_max in *.
  split_and!; try apply crc32_u32; try apply Hcl; try apply Hseg; word_lia.
Qed.

Lemma lookup_bytes : file = (seg_bytes fs ++ b1) ++ frame_bytes fc ++ b2 ++ frame_bytes cf ++ suf.
Proof. unfold file, tx, g. rewrite (walk_bytes lsn g1 c g2), <- !(assoc_L (++)). done. Qed.

Lemma lookup_commit_end : read_commit_end r file = Ok (start + len tx).
Proof.
  destruct lookup_sizes as (Hf & Hs & Hn). destruct lookup_walk as (Hlen & Hg & ? & ? & ? & ? & ? & ? & Hco).
  destruct (walk_oks lsn g1 c g2 Hok) as (_ & _ & _ & Hcf). fold g cf in Hcf.
  pose proof (frame_commit_len (lsn + len g) lsn (lsn + len g - 1)) as Hcl. fold cf in Hcl.
  assert (WalValueRef.commit_offset r = start + (len b1 + len (frame_bytes fc) + len b2)) as Hcoff.
  { rewrite <- Hco. done. }
  unfold read_commit_end. rewrite Hcoff. unfold FRAME_HEADER_SIZE in *. unfold isize_max in *.
  assert (len file <= u64_max) by word_lia. do 2 check_run.
  eapply bind_run.
  { rewrite lookup_bytes, !(assoc_L (++)), <- (assoc_L (++) _ (frame_bytes cf)).
    apply (read_header_at _ cf suf); [rewrite !len_app; lia | word_lia]. }
  rewrite header_at_run by done. cbn [mbind res_bind]. simpl.
  fold g. check_run. rewrite (checked_add_run _ 20) by lia. cbn [mbind option_bind]. do 2 check_run.
  f_equal. lia.
Qed.

Lemma lookup_frame_header : read_frame_header r file = Ok tt.
Proof.
  destruct lookup_sizes as (Hf & Hs & Hn). destruct lookup_walk as (Hlen & Hg & ? & ? & ? & ? & ? & ? & Hco).
  destruct (walk_oks lsn g1 c g2 Hok) as (_ & Hfc & _ & _). fold fc in Hfc.
  pose proof (frame_body_bounds fc Hfc) as Hb. rewrite frame_body_len in Hb.
  unfold read_frame_header. eapply bind_run.
  { rewrite lookup_bytes. apply (read_header_at _ fc); [rewrite len_app; simpl; fold b1; lia|].
    simpl. fold b1. lia. }
  rewrite header_at_run by done. cbn [mbind res_bind]. check_run.
  assert (WalValueRef.frame_length r = FRAME_HEADER_SIZE + record_body_len (Frame.record fc)) as ->.
  { simpl. apply frame_update_len. }
  simpl. by rewrite !Z.eqb_refl.
Qed.

Lemma lookup_selected : read_selected r (LogCommand.key c) (LogCommand.lsn c) c = Ok (LogCommand.value c).
Proof.
  unfold read_selected, bytes_eqb. simpl. rewrite Hput, !Z.eqb_refl, !bool_decide_true by done. done.
Qed.

Lemma read_value_run w :
  om_get seg (wd_segs (Wal.dir w)) = Some file →
  read_value w r (LogCommand.key c) (LogCommand.lsn c) = Ok (LogCommand.value c).
Proof.
  intros Hget. destruct lookup_sizes as (Hf & Hs & Hn). destruct lookup_walk as (Hlen & Hg & ? & ? & ? & ? & ? & ? & Hco).
  unfold read_value. rewrite lookup_validate. cbn [mbind res_bind].
  eapply ok_or_run; [exact Hget|]. cbv beta. check_run.
  eapply bind_run.
  { unfold file, seg_bytes. rewrite <- !(assoc_L (++)).
    apply (read_exact_at_run [] wal_header); [done | symmetry; apply wal_header_len | |];
      unfold WAL_HEADER_SIZE; word_lia. }
  rewrite <- (app_nil_r wal_header), wal_header_run. cbn [mbind res_bind].
  apply guard_run; [done|]. cbv beta. apply guard_run; [done|]. cbv beta.
  rewrite lookup_commit_end. cbn [mbind res_bind]. rewrite lookup_frame_header. cbn [mbind res_bind].
  change (WalValueRef.transaction_start_offset r) with start. do 2 check_run.
  eapply bind_run.
  { apply (read_exact_at_run (seg_bytes fs) tx suf); [done | lia | lia |].
    unfold MAX_GROUP_ENCODED_SIZE in *. word_lia. }
  assert (start + len tx <= u64_max) as Hm by word_lia.
  unfold tx, r. rewrite read_loop_group; [|exact Hok|exact Hm|exact Hl|].
  - cbn [mbind res_bind rs_cursor rs_first_lsn rs_selected]. fold g r. simpl (WalValueRef.transaction_id r).
    rewrite Z.eqb_refl, bool_decide_true by done. cbn [andb guard_err ok_or mbind res_bind].
    apply lookup_selected.
  - fold g. rewrite <- (group_frames_length lsn). apply frames_bytes_ge.
Qed.
End lookup.

(** ** Receipts *)

Lemma append_receipts w gs rf wf recs rs w' :
  wal_inv w recs → Forall (Forall typed) gs → gs ≠ [] →
  Wal.append_transactions w gs true rf wf = (Ok rs, w') →
  let lsn := Wal.next_lsn w in
  1 <= lsn ∧ lsn + groups_size gs <= u64_max ∧ Forall frame_ok (groups_frames lsn gs) ∧
  Forall (λ g, ∀ lsn, len (frames_bytes (group_frames lsn g)) <= MAX_GROUP_ENCODED_SIZE) gs ∧
  ∃ fs, Wal.receipts_of (Wal.segment_id w') (wrap64 (len (seg_bytes fs)))
          (planned_groups true 0 lsn gs) = Ok rs ∧
    om_get (Wal.segment_id w') (wd_segs (Wal.dir w')) =
      Some (seg_bytes fs ++ frames_bytes (groups_frames lsn gs)).
Proof.
  intros (Hp & Hn & segs0 & fs & Hls & Hsize) Hty Hne. unfold Wal.append_transactions.
  rewrite bool_decide_false by done. destruct (MAX_GROUP_COUNT <? len gs); [done|].
  unfold Wal.ensure_healthy. rewrite Hp. cbn [negb guard_err mbind res_bind].
  destruct (Wal.plan_groups true [] (Wal.next_lsn w) gs) as [[[bs next] pts]| |] eqn:Hplan; [|done|done].
  apply plan_groups_Ok in Hplan as (Hnes & Hok & Hszs & -> & -> & Hmax & ->); [|done..].
  rewrite len_nil. cbn [app].
  pose proof (append_rotate w gs rf recs segs0 fs Hls ltac:(lia) Hsize) as Hrot. cbv zeta in Hrot |- *.
  match type of Hrot with (let '(_, _) := ?x in _) => destruct x as [r1 w1] end.
  destruct Hrot as (_ & Hn1 & _ & Hr1). destruct r1 as [[]|e|]; [|done|done].
  destruct Hr1 as (segs1 & fs1 & Hls1 & Hsize1). cbn [mbind res_bind].
  destruct (Wal.receipts_of _ _ _) as [rs1|e|] eqn:Hrs; [|done|done].
  destruct wf as [[k n]|]; [done|]. intros [= -> <-]. split_and!; try done; [lia|].
  exists fs1. rewrite <- Hsize1. split; [done|]. simpl.
  pose proof Hls1 as [_ (old & Hd & _) Hwf _ _ _ _ _].
  unfold Wal.write_active in *. simpl. by rewrite om_get_insert_eq, Hd, (assoc_L (++)), om_get_last
    by (rewrite Hd, (assoc_L (++)) in Hwf; by apply om_wf_snoc in Hwf as [_ ?]).
Qed.

Lemma map_res_lookup {A B} (f : A → res B) l ys i x :
  Wal.map_res f l = Ok ys → l !! i = Some x → ∃ y, ys !! i = Some y ∧ f x = Ok y.
Proof.
  revert l ys. induction i as [|i IH]; intros [|a l] ys; try done; cbn [Wal.map_res];
    intros (y & Hy & (ys' & Hys & [= <-])%res_bind_Ok)%res_bind_Ok.
  - intros [= ->]. eauto.
  - intros Hx. destruct (IH l ys' Hys Hx) as (y' & ? & ?). eauto.
Qed.
Lemma map_res_length {A B} (f : A → res B) l ys : Wal.map_res f l = Ok ys → length ys = length l.
Proof.
  revert ys. induction l as [|a l IH]; intros ys; [by intros [= <-]|]. cbn [Wal.map_res].
  intros (y & Hy & (ys' & Hys & [= <-])%res_bind_Ok)%res_bind_Ok. simpl. f_equal. by apply IH.
Qed.

Lemma planned_groups_lookup off lsn gs i g :
  gs !! i = Some g →
  let off' := off + len (frames_bytes (groups_frames lsn (take i gs))) in
  let lsn' := lsn + groups_size (take i gs) in
  planned_groups true off lsn gs !! i =
    Some (Wal.mkPlannedTransaction (planned_updates true lsn' off' off' 0 lsn' g)
            (off' + len (frames_bytes (update_frames lsn' 0 lsn' g))) (lsn' + len g)).
Proof.
  revert off lsn gs. induction i as [|i IH]; intros off lsn [|g0 gs]; try done; simpl.
  - intros [= ->]. change (frames_bytes []) with (@nil byte). rewrite !Z.add_0_r. done.
  - intros Hg. rewrite (IH _ _ _ Hg). rewrite frames_bytes_app, len_app.
    replace (lsn + (len g0 + 1 + groups_size (take i gs))) with (lsn + len g0 + 1 + groups_size (take i gs)) by lia.
    by rewrite Z.add_assoc.
Qed.
Lemma planned_updates_lookup tid start off prev lsn g1 c g2 :
  planned_updates true tid start off prev lsn (g1 ++ c :: g2) !! length g1 =
  Some (Wal.mkPlannedUpdate tid start (off + len (frames_bytes (update_frames tid prev lsn g1)))
          (len (frame_bytes (Frame.mk (lsn + len g1) tid (last_lsn prev lsn g1) (Update c))))
          (lsn + len g1) (LogCommand.lsn c) (LogCommand.record_type c)
          (len (LogCommand.key c)) (crc32 (LogCommand.key c))
          (len (LogCommand.value c)) (crc32 (LogCommand.value c))).
Proof.
  revert off prev lsn. induction g1 as [|x g1 IH]; intros off prev lsn.
  - simpl. unfold frames_bytes. simpl. by rewrite !len_nil, !Z.add_0_r.
  - cbn [app planned_updates length lookup list_lookup update_frames]. rewrite IH.
    rewrite last_lsn_cons, frames_bytes_cons, len_app, len_cons, Z.add_assoc.
    by replace (lsn + (1 + len g1)) with (lsn + 1 + len g1) by lia.
Qed.

Lemma receipt_is_ref seg start lsn gs rs i g1 c g2 :
  Wal.receipts_of seg start (planned_groups true 0 lsn gs) = Ok rs →
  gs !! i = Some (g1 ++ c :: g2) →
  ∃ rl r, rs !! i = Some rl ∧ rl !! length g1 = Some r ∧
    r = ref_to seg (start + len (frames_bytes (groups_frames lsn (take i gs))))
          (lsn + groups_size (take i gs)) g1 c g2.
Proof.
  unfold Wal.receipts_of. intros Hrs Hg. pose proof (planned_groups_lookup 0 lsn gs i _ Hg) as Hpt.
  cbv zeta in Hpt. rewrite Z.add_0_l in Hpt.
  destruct (map_res_lookup _ _ _ _ _ Hrs Hpt) as (rl & Hrl & Hmap). exists rl.
  apply res_bind_Ok in Hmap as (co & Hco & Hmap). cbn [Wal.pt_commit_offset Wal.pt_updates Wal.pt_commit_lsn] in *.
  destruct (map_res_lookup _ _ _ _ _ Hmap (planned_updates_lookup _ _ _ _ _ g1 c g2)) as (r & Hr & Hrec).
  exists r. split_and!; [done | done |]. unfold Wal.receipt, Wal.at_segment in *.
  apply ok_or_Ok, checked_add_Some in Hco as [-> _].
  apply res_bind_Ok in Hrec as (s1 & Hs1 & Hrec). apply ok_or_Ok, checked_add_Some in Hs1 as [-> _].
  apply res_bind_Ok in Hrec as (s2 & Hs2 & Hrec). apply ok_or_Ok, checked_add_Some in Hs2 as [-> _].
  injection Hrec as <-. unfold ref_to. simpl. f_equal; lia.
Qed.

Lemma groups_frames_app lsn gs1 gs2 :
  groups_frames lsn (gs1 ++ gs2) = groups_frames lsn gs1 ++ groups_frames (lsn + groups_size gs1) gs2.
Proof.
  revert lsn. induction gs1 as [|g gs1 IH]; intros lsn; simpl; [by rewrite Z.add_0_r|].
  rewrite IH, <- (assoc_L (++)). do 2 f_equal. f_equal. lia.
Qed.
Lemma groups_size_app gs1 gs2 : groups_size (gs1 ++ gs2) = groups_size gs1 + groups_size gs2.
Proof. induction gs1 as [|g gs1 IH]; simpl; [done|]. rewrite IH. lia. Qed.

(** Looking up the reference to a command of a batch in a segment holding it. *)
Lemma batch_read_value w2 seg fs lsn gs1 g1 c g2 gs2 suf :
  let gs := gs1 ++ (g1 ++ c :: g2) :: gs2 in
  let file := (seg_bytes fs ++ frames_bytes (groups_frames lsn gs)) ++ suf in
  1 <= lsn → lsn + groups_size gs <= u64_max → Forall frame_ok (groups_frames lsn gs) →
  (∀ lsn, len (frames_bytes (group_frames lsn (g1 ++ c :: g2))) <= MAX_GROUP_ENCODED_SIZE) →
  LogCommand.record_type c = Put → len file <= isize_max →
  om_get seg (wd_segs (Wal.dir w2)) = Some file →
  read_value w2 (ref_to seg (wrap64 (len (seg_bytes fs)) + len (frames_bytes (groups_frames lsn gs1)))
                   (lsn + groups_size gs1) g1 c g2)
    (LogCommand.key c) (LogCommand.lsn c) = Ok (LogCommand.value c).
Proof.
  intros gs file Hl1 Hmax Hok Hsz Hput Hlen Hget. set (lsn1 := lsn + groups_size gs1).
  set (rest := frames_bytes (groups_frames (lsn1 + len (g1 ++ c :: g2) + 1) gs2) ++ suf).
  assert (file = seg_bytes (fs ++ groups_frames lsn gs1) ++
                 frames_bytes (group_frames lsn1 (g1 ++ c :: g2)) ++ rest) as Hbytes.
  { unfold file, gs, rest, seg_bytes. rewrite groups_frames_app. cbn [groups_frames].
    by rewrite !frames_bytes_app, <- !(assoc_L (++)). }
  pose proof (groups_size_nonneg gs1). pose proof (groups_size_nonneg gs2).
  unfold gs in Hmax, Hok. rewrite groups_size_app in Hmax. simpl in Hmax.
  rewrite groups_frames_app in Hok. cbn [groups_frames] in Hok. fold lsn1 in Hok.
  assert (is_u64 (len (seg_bytes fs))) as Hu.
  { unfold file in Hlen. rewrite !len_app in Hlen. pose proof (len_nonneg (seg_bytes fs)).
    pose proof (len_nonneg (frames_bytes (groups_frames lsn gs))). pose proof (len_nonneg suf). word_lia. }
  rewrite wrap64_id by done.
  apply (read_value_run seg _ lsn1 (fs ++ groups_frames lsn gs1) g1 c g2 rest).
  - by apply Forall_app in Hok as [_ [? _]%Forall_app].
  - unfold seg_bytes. rewrite frames_bytes_app, !len_app. lia.
  - by rewrite <- Hbytes.
  - lia.
  - lia.
  - apply Hsz.
  - done.
  - by rewrite <- Hbytes.
Qed.

(** C20.  A receipt leads back to its value: every command of a batch whose
    append succeeded has a receipt at its position, and looking the receipt
    up returns exactly the value written, as long as the segment is there,
    whatever was appended to it since. *)
Theorem wal_receipt_read_back w log gs rf wf rs w' i g j c :
  reachable w → Wal.recover_commands w = Ok log → Forall (Forall typed) gs →
  Wal.append_transactions w gs true rf wf = (Ok rs, w') →
  gs !! i = Some g → g !! j = Some c →
  ∃ rl r, rs !! i = Some rl ∧ rl !! j = Some r ∧
    WalValueRef.record_type r = LogCommand.record_type c ∧
    WalValueRef.application_sequence r = LogCommand.lsn c ∧
    (LogCommand.record_type c = Put → ∀ w2 file suf,
       om_get (WalValueRef.segment_id r) (wd_segs (Wal.dir w')) = Some file →
       om_get (WalValueRef.segment_id r) (wd_segs (Wal.dir w2)) = Some (file ++ suf) →
       len (file ++ suf) <= isize_max →
       read_value w2 r (LogCommand.key c) (LogCommand.lsn c) = Ok (LogCommand.value c)).
Proof.
  intros Hreach Hrec Hty Happ Hi (g1 & g2 & -> & ->)%list_elem_of_split_length.
  destruct (reachable_inv _ _ Hreach Hrec) as (recs & Hinv & _).
  assert (gs ≠ []) as Hne by (by intros ->).
  destruct (append_receipts _ _ _ _ _ _ _ Hinv Hty Hne Happ) as (Hl1 & Hmax & Hok & Hsz & fs & Hrs & Hfile).
  destruct (receipt_is_ref _ _ _ _ _ _ _ _ _ Hrs Hi) as (rl & r & Hrl & Hr & ->).
  exists rl. eexists. split_and!; [done | exact Hr | done | done |]. intros Hput w2 file suf Hf Hf2 Hlen.
  simpl in Hf, Hf2. rewrite Hfile in Hf. injection Hf as <-.
  pose proof Hi as (gs1 & gs2 & -> & ->)%list_elem_of_split_length. rewrite take_app_length.
  apply (batch_read_value _ _ _ _ _ _ _ _ gs2 suf); try done.
  eapply Forall_lookup_1 in Hsz; [|exact Hi]. exact Hsz.
Qed.
End read_theory.


(** The value of the first command of the sample run, through its receipt. *)
Example sample_read_value :
  match sample_receipts with
  | (r :: _) :: _ => @read_value ieee sample_wal1 r [x61] 7
  | _ => Panic
  end = Ok [x31].
Proof. vm_compute. reflexivity. Qed.

Definition sample_segment : bytes := default [] (om_get 0 (wd_segs (Wal.dir sample_wal1))).
Definition sample_ref : WalValueRef.t :=
  match sample_receipts with
  | [_; r] :: _ => r
  | _ => WalValueRef.mk 0 0 0 0 0 0 0 0 0 Put 0 0 0 0
  end.
Lemma sample_ref_at rl r :
  sample_receipts !! 0%nat = Some rl → rl !! 1%nat = Some r → r = sample_ref.
Proof. vm_compute. intros [= <-] [= <-]. reflexivity. Qed.
Lemma sample_file_get :
  om_get (WalValueRef.segment_id sample_ref) (wd_segs (Wal.dir sample_wal1)) = Some sample_segment.
Proof. vm_compute. reflexivity. Qed.
Lemma sample_file_small : len (sample_segment ++ []) <= isize_max.
Proof. vm_compute. discriminate. Qed.

Lemma wal_receipt_read_back_witness : @read_value ieee sample_wal1 sample_ref [x62] 8 = Ok [x32].
Proof.
  destruct (@wal_receipt_read_back ieee ieee_spec sample_wal0 [] sample_groups None None
    sample_receipts sample_wal1 0%nat [cmd_a; cmd_b] 1%nat cmd_b
    sample_reachable sample_empty sample_typed sample_append eq_refl eq_refl)
    as (rl & r & Hrl & Hr & _ & _ & Hread).
  rewrite (sample_ref_at rl r Hrl Hr) in Hread.
  apply (Hread eq_refl sample_wal1 sample_segment []).
  - apply sample_file_get.
  - rewrite app_nil_r. apply sample_file_get.
  - apply sample_file_small.
Defined.
