(* ===== verification/WalProps.v ===== *)
(** * Codec and totality properties of the write-ahead log

    Exactness of the frame, header, reference and command codecs; opening,
    recovering and preflighting never panic, whatever bytes the directory
    holds; the segment scan terminates with the fuel it is given. *)

From S2P Require Import Prelude Bytes OrdMap Search Record WalFormat WalAnalysis Wal WalCrash.

(** ** Codecs *)

(** The frame codec is exact.  Encoding a well-formed frame succeeds with a
    20-byte header and a body; the header decodes to the frame's LSN and the
    body's length, the body passes verification and decodes to the frame.
    Conversely a body that decodes is the one the encoder writes. *)
Theorem wal_frame_codec_exact `{Crc32Spec} :
  (∀ f, frame_ok f → ∃ header body,
     encode_frame f = Ok (header ++ body) ∧ len header = FRAME_HEADER_SIZE ∧
     decode_frame_header header = Ok (Frame.lsn f, len body) ∧
     is_Ok (verify_frame_body header body) ∧ decode_frame (Frame.lsn f) body = Ok f) ∧
  (∀ lsn body f, is_u64 lsn → len body <= MAX_FRAME_SIZE → decode_frame lsn body = Ok f →
     ∃ header, encode_frame f = Ok (header ++ body) ∧ Frame.lsn f = lsn).
Proof.
  split.
  - intros f Hf. exists (frame_header (Frame.lsn f) (frame_body f)), (frame_body f).
    rewrite frame_header_len, decode_frame_run, encode_frame_ok, verify_frame_body_run by done.
    pose proof (frame_body_bounds f Hf). unfold MAX_FRAME_SIZE in *. destruct Hf as (Hl & _).
    rewrite frame_header_run by (done || word_lia). split_and!; eauto with cere.
  - intros lsn body f Hl Hb (-> & <- & Hf)%decode_frame_inv; [|done|done].
    exists (frame_header (Frame.lsn f) (frame_body f)). by rewrite encode_frame_ok.
Qed.

(** A value reference that passes validation survives encoding, and the
    encoding always has the documented 94 bytes. *)
Theorem wal_value_ref_roundtrip `{Crc32Spec} r :
  ref_widths r → WalValueRef.validate r = Ok tt →
  len (WalValueRef.encode r) = WAL_VALUE_REF_ENCODED_SIZE ∧
  WalValueRef.decode (WalValueRef.encode r) = Ok r.
Proof. intros Hw Hv. split; [apply ref_encode_len | by apply ref_run]. Qed.

(** A log command survives [serialize] and [deserialize]. *)
Theorem log_command_roundtrip c :
  is_u64 (LogCommand.lsn c) →
  25 + len (LogCommand.key c) + len (LogCommand.value c) <= isize_max →
  LogCommand.deserialize (LogCommand.serialize c) = Ok c.
Proof. apply command_roundtrip. Qed.

(** ** Totality *)

Section total.
Context `{Crc32Spec}.
Implicit Types (a : Analysis.t) (w : Wal.t) (d : WalDir).

Ltac slices_np :=
  repeat match goal with
    | |- (_ ≫= _) ≠ Panic => apply res_bind_no_panic; [|intros ? _]
    | |- guard_err _ _ ≠ Panic => apply guard_err_np
    | |- ok_or _ _ ≠ Panic => apply ok_or_np
    | |- (_ <$> _) ≠ Panic => apply res_fmap_np
    | |- slice _ _ _ ≠ Panic => apply slice_np; lia
    | |- _ => done
    end.

Lemma frame_header_np header : len header = FRAME_HEADER_SIZE → decode_frame_header header ≠ Panic.
Proof. unfold FRAME_HEADER_SIZE. intros Hh. unfold decode_frame_header, be_u32, be_u64. slices_np. Qed.
Lemma frame_body_np header body : len header = FRAME_HEADER_SIZE → verify_frame_body header body ≠ Panic.
Proof. unfold FRAME_HEADER_SIZE. intros Hh. unfold verify_frame_body, be_u32. slices_np. Qed.
Lemma decode_record_type_np b : decode_record_type b ≠ Panic.
Proof. unfold decode_record_type. by destruct b. Qed.
Hint Resolve decode_record_type_np : cere.
Lemma decode_frame_np lsn body : decode_frame lsn body ≠ Panic.
Proof.
  unfold decode_frame, Decoder.take1, Decoder.number, Decoder.payload, Decoder.take.
  apply res_bind_no_panic; [|intros [f rem] _; slices_np].
  do 3 (apply reader_bind_np; [auto with cere | intros ? ? _]).
  apply reader_bind_np; [|done]. case_match; try done; no_panic.
Qed.
Lemma decode_legacy_np bs : decode_legacy bs ≠ Panic.
Proof.
  unfold decode_legacy, Decoder.take1, Decoder.number, Decoder.payload, Decoder.take.
  apply res_bind_no_panic; [no_panic | by intros [? ?] _].
Qed.
Lemma header_decode_np bs : WALHeader.decode bs ≠ Panic.
Proof.
  unfold WALHeader.decode. apply res_bind_no_panic; [apply guard_err_np|].
  intros u Hu%guard_err_Ok%Z.leb_le. unfold WAL_HEADER_SIZE in Hu. slices_np.
Qed.
Lemma accept_np a f ck p : Analysis.accept a f ck p ≠ Panic.
Proof.
  unfold Analysis.accept. destruct (_ || _ : bool); [done|].
  apply res_bind_no_panic; [|done]. destruct (Frame.record f); [done|]. by destruct (_ =? _).
Qed.

Lemma scan_frame_np seg off rest a : scan_frame seg off rest a ≠ Panic.
Proof.
  unfold scan_frame. destruct (Z.ltb_spec (len rest) FRAME_HEADER_SIZE); [done|].
  assert (len (take (Z.to_nat FRAME_HEADER_SIZE) rest) = FRAME_HEADER_SIZE) as Hh.
  { apply len_take_drop. unfold FRAME_HEADER_SIZE in *. lia. }
  apply res_bind_no_panic; [by apply frame_header_np|]. intros [lsn n] _.
  apply res_bind_no_panic; [apply guard_err_np|]. intros _ _. destruct (_ <? n); [done|].
  apply res_bind_no_panic; [by apply frame_body_np|]. intros ck _.
  apply res_bind_no_panic.
  - match goal with |- context [decode_frame ?l ?b] => pose proof (decode_frame_np l b); by destruct (decode_frame l b) end.
  - intros f _. apply res_bind_no_panic; [apply accept_np | done].
Qed.
Lemma scan_legacy_np rest a : scan_legacy rest a ≠ Panic.
Proof.
  unfold scan_legacy. pose proof (decode_legacy_np rest) as Hn.
  destruct (decode_legacy rest) as [[r n]|e|]; [done | | done]. by destruct e as [[] | | | | |].
Qed.
Lemma scan_loop_np fuel v seg off rest a : scan_loop fuel v seg off rest a ≠ Panic.
Proof.
  revert off rest a. induction fuel as [|fuel IH]; intros off rest a; simpl; [done|].
  destruct rest as [|b rest]; [done|]. apply res_bind_no_panic.
  - destruct (_ =? _); [apply scan_legacy_np | apply scan_frame_np].
  - intros [[n a']|] _; [|done]. destruct (n =? 0); [done | apply IH].
Qed.
Lemma scan_segment_np id file th a : scan_segment_with_tail_handling id file th a ≠ Panic.
Proof.
  unfold scan_segment_with_tail_handling. apply res_bind_no_panic.
  { destruct (_ && _ : bool); [|done]. unfold complete_header. apply ok_or_np. }
  intros bs _. apply res_bind_no_panic; [apply header_decode_np|]. intros h _.
  do 2 (apply res_bind_no_panic; [apply guard_err_np|]; intros _ _).
  apply res_bind_no_panic; [apply scan_loop_np|]. intros [off a'] _.
  destruct (off =? len bs); [done|]. by destruct th.
Qed.
Lemma scan_paths_np th v paths a : Wal.scan_paths th v paths a ≠ Panic.
Proof.
  revert v a. induction paths as [|[id file] paths IH]; intros v a; simpl; [done|].
  apply res_bind_no_panic; [apply scan_segment_np|]. intros [[v' a'] file'] _.
  apply res_bind_no_panic; [apply IH | by intros [[? ?] ?] _].
Qed.
Lemma check_foreign_np fl es : check_foreign fl es ≠ Panic.
Proof.
  induction es as [|e es IH]; simpl; [done|]. destruct (fe_id e); [|done].
  destruct (match fl with Some _ => _ | None => _ end); [done|]. by destruct (fe_canonical e).
Qed.
Lemma segment_paths_np d fl : segment_paths d fl ≠ Panic.
Proof. unfold segment_paths. apply res_bind_no_panic; [apply check_foreign_np|]. intros _ _. slices_np. Qed.
Lemma initial_lsn_np c : Wal.initial_lsn c ≠ Panic.
Proof. destruct c; [apply ok_or_np | done]. Qed.
Lemma recover_all_np a us : Analysis.recover_all a us ≠ Panic.
Proof.
  induction us as [|u us IH]; simpl; [done|]. destruct (Analysis.is_committed _ _); [|done].
  apply res_bind_no_panic; [unfold Analysis.recover_one; slices_np|]. intros r _. slices_np.
Qed.
Lemma analyze_np w track : Wal.analyze_committed w track ≠ Panic.
Proof.
  unfold Wal.analyze_committed, Wal.ensure_healthy. apply res_bind_no_panic; [apply guard_err_np|].
  intros _ _. apply res_bind_no_panic; [apply initial_lsn_np|]. intros l _.
  apply res_bind_no_panic; [apply segment_paths_np|]. intros ps _.
  apply res_bind_no_panic; [apply scan_paths_np | by intros [[? ?] ?] _].
Qed.


(** ** Termination of the scan *)

Lemma legacy_progress bs r n : decode_legacy bs = Ok (r, n) → 0 < n.
Proof.
  unfold decode_legacy, Decoder.take1, Decoder.number, Decoder.payload, Decoder.take.
  intros ([r' rem] & Hd & [= -> <-])%res_bind_Ok. apply reader_bind_Ok in Hd as (b & bs1 & Hb & Hd).
  apply read_u8_inv in Hb as ->. rewrite len_cons.
  assert (len rem <= len bs1); [|lia].
  apply reader_bind_Ok in Hd as (t & x0 & Hd0 & Hd). apply lift_Ok in Hd0 as [_ <-].
  apply reader_bind_Ok in Hd as (lsn & x1 & Hd1 & Hd). apply read_u64_be_inv in Hd1 as [-> _].
  apply reader_bind_Ok in Hd as (kl & x2 & Hd2 & Hd). apply read_u64_be_inv in Hd2 as [-> Hkl].
  apply reader_bind_Ok in Hd as (k & x3 & Hd3 & Hd). apply read_exact_inv in Hd3 as [-> _]; [|word_lia].
  apply reader_bind_Ok in Hd as (vl & x4 & Hd4 & Hd). apply read_u64_be_inv in Hd4 as [-> Hvl].
  apply reader_bind_Ok in Hd as (v & x5 & Hd5 & Hd). apply read_exact_inv in Hd5 as [-> _]; [|word_lia].
  apply reader_bind_Ok in Hd as (p & x6 & Hd6 & Hd). injection Hd6 as <- <-.
  apply reader_bind_Ok in Hd as (ck & x7 & Hd7 & Hd). apply read_u32_be_inv in Hd7 as [-> _].
  apply reader_bind_Ok in Hd as (u & x8 & Hd8 & Hd). apply require_Ok in Hd8 as [_ <-].
  apply reader_ret_Ok in Hd as [_ <-]. rewrite !len_app.
  pose proof (len_nonneg k). pose proof (len_nonneg v). rewrite !len_to_be. lia.
Qed.
Lemma scan_step_progress v seg off rest a n a' :
  (if v =? LEGACY_WAL_VERSION then scan_legacy rest a else scan_frame seg off rest a) = Ok (Some (n, a')) →
  0 < n.
Proof.
  destruct (_ =? _).
  - unfold scan_legacy. destruct (decode_legacy rest) as [[r m]|e|] eqn:E; [|by destruct e as [[] | | | | |]|done].
    intros [= <- _]. by eapply legacy_progress.
  - unfold scan_frame. destruct (_ <? _); [done|]. intros ([lsn m] & _ & (_ & Hg%guard_err_Ok & Hs)%res_bind_Ok)%res_bind_Ok.
    apply andb_true_iff in Hg as [Hg%Z.leb_le _]. destruct (_ <? m); [done|].
    apply res_bind_Ok in Hs as (ck & _ & (f & _ & (a1 & _ & [= <- _])%res_bind_Ok)%res_bind_Ok).
    unfold FRAME_HEADER_SIZE. lia.
Qed.

(** C34.  The segment scan terminates by itself: with as many iterations as
    there are bytes, more fuel never changes the result, because every
    iteration that does not stop consumes at least a byte. *)
Theorem wal_scan_terminates fuel v seg off rest a :
  (length rest <= fuel)%nat →
  scan_loop fuel v seg off rest a = scan_loop (length rest) v seg off rest a.
Proof.
  revert off rest a. assert (∀ n fuel off rest a, (length rest <= n)%nat → (n <= fuel)%nat →
    scan_loop fuel v seg off rest a = scan_loop n v seg off rest a) as Hind;
    [|intros; by apply Hind].
  induction n as [|n IH]; intros fuel0 off rest a Hr Hf.
  { destruct rest; [|simpl in Hr; lia]. by destruct fuel0. }
  destruct fuel0 as [|fuel0]; [lia|]. cbn [scan_loop]. destruct rest as [|b rest]; [done|].
  destruct (if v =? LEGACY_WAL_VERSION then _ else _) as [[[m a']|]|e|] eqn:Hstep; try done.
  cbn [mbind res_bind]. pose proof (scan_step_progress _ _ _ _ _ _ _ Hstep) as Hm.
  rewrite (proj2 (Z.eqb_neq m 0)) by lia. apply IH; [|lia].
  rewrite length_drop. simpl in *. lia.
Qed.
End total.

(** ** Witnesses *)

Definition sample_frame : Frame.t :=
  Frame.mk 5 5 0 (Update (LogCommand.mk Put [x61] [x31; x32] 9)).
Lemma sample_frame_ok : frame_ok sample_frame.
Proof. unfold frame_ok, command_ok; simpl. repeat split; vm_compute; discriminate. Qed.

Lemma wal_frame_codec_exact_witness :
  ∃ header body, @encode_frame ieee sample_frame = Ok (header ++ body) ∧
    decode_frame 5 body = Ok sample_frame.
Proof.
  destruct (proj1 (@wal_frame_codec_exact ieee ieee_spec) sample_frame sample_frame_ok)
    as (header & body & He & _ & _ & _ & Hd).
  exists header, body. split; [exact He | exact Hd].
Defined.

Definition small_ref : WalValueRef.t := WalValueRef.mk 0 5 36 101 6 36 65 5 9 Put 1 0 2 0.
Lemma small_ref_widths : ref_widths small_ref.
Proof. vm_compute. repeat split; discriminate. Qed.
Lemma wal_value_ref_roundtrip_witness :
  @WalValueRef.decode ieee (@WalValueRef.encode ieee small_ref) = Ok small_ref.
Proof. exact (proj2 (@wal_value_ref_roundtrip ieee ieee_spec small_ref small_ref_widths eq_refl)). Defined.

Lemma log_command_roundtrip_witness :
  LogCommand.deserialize (LogCommand.serialize (LogCommand.mk Put [x61] [x31; x32] 9)) =
  Ok (LogCommand.mk Put [x61] [x31; x32] 9).
Proof.
  apply (log_command_roundtrip (LogCommand.mk Put [x61] [x31; x32] 9)); vm_compute; [split|]; discriminate.
Defined.

Lemma wal_scan_terminates_witness :
  @scan_loop ieee 100 WAL_VERSION 0 36 (@frame_bytes ieee sample_frame) (Analysis.init 4 false) =
  @scan_loop ieee (length (@frame_bytes ieee sample_frame)) WAL_VERSION 0 36
    (@frame_bytes ieee sample_frame) (Analysis.init 4 false).
Proof. apply (@wal_scan_terminates ieee). vm_compute. lia. Defined.
