(* ===== verification/Manifest.v ===== *)
(** * The manifest: [src/src/storage/manifest_codec.rs]

    The append-only file that says which tables make up the database: entry
    and payload codecs, replay, the manager's operations on the file and the
    in-memory state, and the cache of open table files. *)

From S2P Require Import Prelude Bytes OrdMap WalFormat Wal.

Definition ENTRY_KIND_ADD : byte := x01.
Definition ENTRY_KIND_REMOVE : byte := x02.
Definition ENTRY_KIND_CHECKPOINT : byte := x03.
Definition ENTRY_KIND_COMPACTION : byte := x04.
Definition ENTRY_KIND_RECOVERY_CHECKPOINT : byte := x05.
Definition ENTRY_KIND_COMPACTION_OUTPUTS : byte := x06.
Definition MANIFEST_VERSION : Z := 1.
Definition DEFAULT_FILE_CACHE_CAPACITY : Z := 64.

(** ** The cache of file handles

    [open] is [File::open], and [H] the type of handles. *)

Module LruFileCache.
Section cache.
Context {H : Type} (open : bytes → res H).

Record t : Type := mk {
  handles : ordmap bytes H;
  order : list bytes;
  capacity : Z
}.

Definition new (capacity : Z) : t := mk [] [] capacity.
Definition retain_not (path : bytes) (l : list bytes) : list bytes :=
  List.filter (λ p, negb (bytes_eqb p path)) l.
Definition touch (c : t) (path : bytes) : t :=
  mk (handles c) (retain_not path (order c) ++ [path]) (capacity c).
Definition evict_oldest (c : t) : t :=
  match order c with
  | [] => c
  | oldest :: rest => mk (om_remove oldest (handles c)) rest (capacity c)
  end.
Definition get_or_open (c : t) (path : bytes) : res H * t :=
  match om_get path (handles c) with
  | Some h => (Ok h, touch c path)
  | None =>
      match open path with
      | Ok h =>
          let c := if capacity c <=? len (handles c) then evict_oldest c else c in
          (Ok h, mk (om_insert path h (handles c)) (order c ++ [path]) (capacity c))
      | Err e => (Err e, c)
      | Panic => (Panic, c)
      end
  end.
Definition remove (c : t) (path : bytes) : t :=
  mk (om_remove path (handles c)) (retain_not path (order c)) (capacity c).
Definition clear (c : t) : t := mk [] [] (capacity c).
Definition cache_len (c : t) : Z := len (handles c).
Definition is_empty (c : t) : bool := bool_decide (handles c = []).
End cache.
End LruFileCache.
Arguments LruFileCache.t : clear implicits.

(** ** Table metadata *)

Module SSTableMeta.
Record t : Type := mk {
  file_id : Z;
  level : Z;
  path : bytes;
  record_count : Z;
  smallest_key : bytes;
  largest_key : bytes;
  bloom_offset : Z;
  bloom_size : Z
}.
End SSTableMeta.
#[export] Instance SSTableMeta_eq_dec : EqDecision SSTableMeta.t.
Proof. solve_decision. Defined.

(** [str::from_utf8]: whether a byte string is UTF-8. *)
Definition cont (b : byte) : bool := (128 <=? bz b) && (bz b <=? 191).
Fixpoint utf8_valid (bs : bytes) : bool :=
  match bs with
  | [] => true
  | a :: rest =>
      if bz a <=? 127 then utf8_valid rest
      else match rest with
      | [] => false
      | b :: rest =>
          if (194 <=? bz a) && (bz a <=? 223) then cont b && utf8_valid rest
          else match rest with
          | [] => false
          | c :: rest =>
              if (224 <=? bz a) && (bz a <=? 239) then
                cont b && cont c
                && negb ((bz a =? 224) && (bz b <? 160))
                && negb ((bz a =? 237) && (159 <? bz b))
                && utf8_valid rest
              else match rest with
              | [] => false
              | d :: rest =>
                  (240 <=? bz a) && (bz a <=? 244)
                  && cont b && cont c && cont d
                  && negb ((bz a =? 240) && (bz b <? 144))
                  && negb ((bz a =? 244) && (143 <? bz b))
                  && utf8_valid rest
              end
          end
      end
  end.

(** ** Codecs *)

Definition push_bytes (value : bytes) : res bytes :=
  _ ← guard_err (len value <=? u32_max) (StorageError "field length exceeds u32");
  mret (to_be 4 (len value) ++ value).

Definition encode_add_payload (meta : SSTableMeta.t) : res bytes :=
  path ← push_bytes (SSTableMeta.path meta);
  smallest ← push_bytes (SSTableMeta.smallest_key meta);
  largest ← push_bytes (SSTableMeta.largest_key meta);
  mret (to_be 4 (SSTableMeta.level meta) ++ to_be 8 (SSTableMeta.file_id meta)
        ++ to_be 8 (SSTableMeta.record_count meta) ++ path
        ++ to_be 8 (SSTableMeta.bloom_offset meta) ++ to_be 8 (SSTableMeta.bloom_size meta)
        ++ smallest ++ largest).

(** [read_vec] and [read_string] over a [Cursor]. *)
Definition read_field : reader bytes := n ← read_u32_be; read_vec n.
Definition read_string : reader bytes :=
  bs ← read_field;
  _ ← require (utf8_valid bs) (Corrupted "invalid UTF-8 in manifest path");
  mret bs.
(** What is left of the payload after the cursor. *)
Definition left : reader Z := λ bs, Ok (len bs, bs).

(** Old payloads end after the path, or after the key range is left out. *)
Definition decode_add_payload (payload : bytes) : res SSTableMeta.t :=
  fst <$>
    (level ← read_u32_be;
     file_id ← read_u64_be;
     record_count ← read_u64_be;
     path ← read_string;
     n ← left;
     '(bloom_offset, bloom_size) ←
       (if 16 <=? n then (a ← read_u64_be; b ← read_u64_be; mret (a, b)) else mret (0, 0));
     n ← left;
     '(smallest_key, largest_key) ←
       (if 0 <? n then (a ← read_field; b ← read_field; mret (a, b)) else mret ([], []));
     mret (SSTableMeta.mk file_id level path record_count smallest_key largest_key
             bloom_offset bloom_size)) payload.

Definition encode_remove_payload (level file_id : Z) : bytes := to_be 4 level ++ to_be 8 file_id.
Definition decode_remove_payload (payload : bytes) : res (Z * Z) :=
  _ ← guard_err (len payload =? 12) (Corrupted "remove payload length must be 12 bytes");
  level ← from_be <$> slice payload 0 4;
  file_id ← from_be <$> slice payload 4 12;
  mret (level, file_id).

Definition encode_checkpoint_payload (checkpoint_lsn active_wal_segment : Z) : bytes :=
  to_be 8 checkpoint_lsn ++ to_be 8 active_wal_segment.
Definition decode_checkpoint_payload (payload : bytes) : res (Z * Z) :=
  _ ← guard_err (len payload =? 16) (Corrupted "checkpoint payload length must be 16 bytes");
  checkpoint_lsn ← from_be <$> slice payload 0 8;
  active_wal_segment ← from_be <$> slice payload 8 16;
  mret (checkpoint_lsn, active_wal_segment).

Definition encode_recovery_payload (c : RecoveryCheckpoint) : bytes :=
  to_be 8 (replay_start_segment c) ++ to_be 8 (next_physical_lsn c)
  ++ to_be 8 (committed_sequence c).
Definition decode_recovery_payload (payload : bytes) : res RecoveryCheckpoint :=
  _ ← guard_err (len payload =? 24)
        (Corrupted "recovery checkpoint payload length must be 24 bytes");
  replay_start ← from_be <$> slice payload 0 8;
  next_lsn ← from_be <$> slice payload 8 16;
  committed ← from_be <$> slice payload 16 24;
  mret (mkRecoveryCheckpoint replay_start next_lsn committed).

Definition encode_compaction_payload (removals : list (Z * Z)) (output : option SSTableMeta.t)
    : res bytes :=
  _ ← guard_err (len removals <=? u32_max) (StorageError "too many compaction inputs");
  tail ← match output with Some meta => encode_add_payload meta | None => Ok [] end;
  mret (to_be 4 (len removals)
        ++ concat ((λ r, encode_remove_payload (fst r) (snd r)) <$> removals) ++ tail).

Definition read_removal : reader (Z * Z) := l ← read_u32_be; f ← read_u64_be; mret (l, f).
(** The remaining bytes, taken out of the cursor. *)
Definition read_rest : reader bytes := λ bs, Ok (bs, []).

Definition decode_compaction_payload (payload : bytes)
    : res (list (Z * Z) * option SSTableMeta.t) :=
  fst <$>
    (count ← read_u32_be;
     _ ← require (count <=? saturating_sub (len payload) 4 / 12)
           (Corrupted "invalid compaction input count");
     removals ← read_many read_removal (Z.to_nat count);
     remaining ← read_rest;
     output ← (match remaining with
               | [] => mret None
               | _ => lift (Some <$> decode_add_payload remaining)
               end);
     mret (removals, output)) payload.

(** One length-prefixed output. *)
Definition read_output : reader SSTableMeta.t :=
  n ← read_u32_be;
  avail ← left;
  _ ← require (n <=? avail) (Corrupted "truncated compaction output");
  bs ← read_exact n;
  lift (decode_add_payload bs).
Definition decode_compaction_outputs (payload : bytes)
    : res (list (Z * Z) * list SSTableMeta.t) :=
  fst <$>
    (count ← read_u32_be;
     _ ← require (count <=? saturating_sub (len payload) 8 / 12)
           (Corrupted "invalid compaction input count");
     removals ← read_many read_removal (Z.to_nat count);
     count ← read_u32_be;
     n ← left;
     _ ← require (count <=? n / 4) (Corrupted "invalid compaction output count");
     outputs ← read_many read_output (Z.to_nat count);
     n ← left;
     _ ← require (n =? 0) (Corrupted "trailing compaction output bytes");
     mret (removals, outputs)) payload.

Section entries.
Context `{Crc32}.

Definition encode_entry (kind : byte) (payload : bytes) : res bytes :=
  _ ← guard_err (len payload <=? u32_max) (StorageError "manifest entry payload too large");
  let bs := [kind] ++ to_be 4 (len payload) ++ payload in
  mret (bs ++ to_be 4 (crc32 bs)).

Definition decode_entry (data : bytes) (offset : Z) : res (byte * bytes * Z) :=
  header_end ← ok_or (checked_add offset 5) (Corrupted "manifest offset overflow");
  _ ← guard_err (header_end <=? len data) (Corrupted "truncated manifest entry header");
  kind ← byte_at data offset;
  n ← from_be <$> slice data (offset + 1) (offset + 5);
  payload_end ← ok_or (checked_add header_end n) (Corrupted "manifest payload overflow");
  checksum_end ← ok_or (checked_add payload_end 4) (Corrupted "manifest checksum overflow");
  _ ← guard_err (checksum_end <=? len data) (Corrupted "truncated manifest entry payload");
  stored ← from_be <$> slice data payload_end checksum_end;
  covered ← slice data offset payload_end;
  _ ← guard_err (stored =? crc32 covered) (Corrupted "manifest entry checksum mismatch");
  payload ← slice data header_end payload_end;
  mret (kind, payload, checksum_end).
End entries.

(** ** State and replay *)

Abbreviation levels_map := (ordmap Z (ordmap Z SSTableMeta.t)).

Module ManifestState.
Record t : Type := mk {
  version : Z;
  next_file_id : Z;
  checkpoint_lsn : Z;
  active_wal_segment : Z;
  recovery_checkpoint : option RecoveryCheckpoint;
  levels : levels_map
}.
Definition default_ : t := mk MANIFEST_VERSION 1 0 0 None [].
Definition set_levels (s : t) (l : levels_map) : t :=
  mk (version s) (next_file_id s) (checkpoint_lsn s) (active_wal_segment s)
     (recovery_checkpoint s) l.
Definition set_next_file_id (s : t) (n : Z) : t :=
  mk (version s) n (checkpoint_lsn s) (active_wal_segment s) (recovery_checkpoint s) (levels s).
Definition set_active (s : t) (n : Z) : t :=
  mk (version s) (next_file_id s) (checkpoint_lsn s) n (recovery_checkpoint s) (levels s).
Definition set_recovery (s : t) (c : RecoveryCheckpoint) : t :=
  mk (version s) (next_file_id s) (checkpoint_lsn s) (replay_start_segment c) (Some c) (levels s).
End ManifestState.

Module ManifestSnapshot.
Record t : Type := mk {
  version : Z;
  next_file_id : Z;
  active_wal_segment : Z;
  recovery_checkpoint : option RecoveryCheckpoint;
  levels : ordmap Z (list SSTableMeta.t)
}.
End ManifestSnapshot.

(** [state.levels.entry(level).or_default().insert(file_id, meta)]. *)
Definition insert_meta (l : levels_map) (meta : SSTableMeta.t) : levels_map :=
  let files := default [] (om_get (SSTableMeta.level meta) l) in
  om_insert (SSTableMeta.level meta) (om_insert (SSTableMeta.file_id meta) meta files) l.
(** A level that becomes empty is dropped. *)
Definition remove_file (l : levels_map) (level file_id : Z) : levels_map :=
  match om_get level l with
  | None => l
  | Some files =>
      match om_remove file_id files with
      | [] => om_remove level l
      | files => om_insert level files l
      end
  end.

Definition apply_compaction (s : ManifestState.t) (removals : list (Z * Z))
    (outputs : list SSTableMeta.t) : ManifestState.t :=
  let s := ManifestState.set_levels s
             (foldl (λ l r, remove_file l (fst r) (snd r)) (ManifestState.levels s) removals) in
  foldl (λ s meta,
    ManifestState.set_levels
      (ManifestState.set_next_file_id s
         (Z.max (ManifestState.next_file_id s) (wrap64 (SSTableMeta.file_id meta + 1))))
      (insert_meta (ManifestState.levels s) meta)) s outputs.

Definition snapshot_levels (l : levels_map) : ordmap Z (list SSTableMeta.t) :=
  (λ p : Z * ordmap Z SSTableMeta.t, (fst p, List.map snd (snd p))) <$> (l : list _).
Definition snapshot_from_state (s : ManifestState.t) : ManifestSnapshot.t :=
  ManifestSnapshot.mk (ManifestState.version s) (ManifestState.next_file_id s)
    (ManifestState.active_wal_segment s) (ManifestState.recovery_checkpoint s)
    (snapshot_levels (ManifestState.levels s)).

Section replay.
Context `{Crc32}.

Definition replay_add (s : ManifestState.t) (meta : SSTableMeta.t) : ManifestState.t :=
  let s := ManifestState.set_levels s (insert_meta (ManifestState.levels s) meta) in
  if ManifestState.next_file_id s <=? SSTableMeta.file_id meta
  then ManifestState.set_next_file_id s (wrap64 (SSTableMeta.file_id meta + 1)) else s.

(** One decoded entry. *)
Definition replay_entry (s : ManifestState.t) (kind : byte) (payload : bytes)
    : res ManifestState.t :=
  match kind with
  | x01 => meta ← decode_add_payload payload; mret (replay_add s meta)
  | x02 =>
      '(level, file_id) ← decode_remove_payload payload;
      mret (ManifestState.set_levels s (remove_file (ManifestState.levels s) level file_id))
  | x04 =>
      '(removals, output) ← decode_compaction_payload payload;
      mret (apply_compaction s removals (option_list output))
  | x06 =>
      '(removals, outputs) ← decode_compaction_outputs payload;
      mret (apply_compaction s removals outputs)
  | x03 =>
      '(_, active) ← decode_checkpoint_payload payload;
      mret (ManifestState.set_active s active)
  | x05 =>
      checkpoint ← decode_recovery_payload payload;
      mret (ManifestState.set_recovery s checkpoint)
  | _ => Err (Corrupted "unknown manifest entry kind")
  end.

(** [while offset < data.len()]; every entry takes at least nine bytes. *)
Fixpoint replay_loop (fuel : nat) (data : bytes) (offset : Z) (s : ManifestState.t)
    : res ManifestState.t :=
  match fuel with
  | O => Ok s
  | S fuel =>
      if offset <? len data then
        '(kind, payload, next_offset) ← decode_entry data offset;
        s ← replay_entry s kind payload;
        replay_loop fuel data next_offset s
      else Ok s
  end.
Definition replay_manifest (data : bytes) : res ManifestState.t :=
  replay_loop (length data) data 0 ManifestState.default_.
End replay.

(** ** The manager *)

Module ManifestManager.
Section manager.
Context `{Crc32}.

(** The manifest file, the state behind the lock, and the file cache, whose
    handles are the contents of the files opened. *)
Record t : Type := mk {
  file : bytes;
  state : ManifestState.t;
  file_cache : LruFileCache.t bytes
}.
Definition set_state (m : t) (s : ManifestState.t) : t := mk (file m) s (file_cache m).
Definition set_cache (m : t) (c : LruFileCache.t bytes) : t := mk (file m) (state m) c.

(** [None] is a missing file, which is created empty. *)
Definition load_or_create (content : option bytes) : res t :=
  let bs := default [] content in
  state ← replay_manifest bs;
  mret (mk bs state (LruFileCache.new DEFAULT_FILE_CACHE_CAPACITY)).

Definition read_existing_snapshot (kind : FileKind) (content : bytes) : res ManifestSnapshot.t :=
  _ ← guard_err (bool_decide (kind = RegularFile)) (Corrupted "manifest is not a regular file");
  snapshot_from_state <$> replay_manifest content.

Definition allocate_file_id (m : t) : res Z * t :=
  let file_id := ManifestState.next_file_id (state m) in
  match checked_add file_id 1 with
  | None => (Err (StorageError "manifest file id overflow"), m)
  | Some next => (Ok file_id, set_state m (ManifestState.set_next_file_id (state m) next))
  end.

(** A write that fails leaves a prefix of the entry in the file. *)
Definition append_manifest_entry (m : t) (entry : bytes) (fault : option Wal.WriteFault)
    : res unit * t :=
  match fault with
  | Some (k, n) => (Err (IO k), mk (file m ++ take n entry) (state m) (file_cache m))
  | None => (Ok tt, mk (file m ++ entry) (state m) (file_cache m))
  end.

(** Every operation that writes an entry: encode it, append it and, only when
    that succeeded, run the rest. *)
Definition with_entry {A} (m : t) (entry : res bytes) (fault : option Wal.WriteFault)
    (k : t → res A * t) : res A * t :=
  match entry with
  | Err e => (Err e, m)
  | Panic => (Panic, m)
  | Ok entry =>
      match append_manifest_entry m entry fault with
      | (Ok _, m) => k m
      | (Err e, m) => (Err e, m)
      | (Panic, m) => (Panic, m)
      end
  end.

Definition register_sstable (m : t) (meta : SSTableMeta.t) (fault : option Wal.WriteFault)
    : res unit * t :=
  with_entry m (payload ← encode_add_payload meta; encode_entry ENTRY_KIND_ADD payload) fault (λ m,
    let s := ManifestState.set_levels (state m) (insert_meta (ManifestState.levels (state m)) meta) in
    if ManifestState.next_file_id s <=? SSTableMeta.file_id meta then
      match checked_add (SSTableMeta.file_id meta) 1 with
      | None => (Err (StorageError "manifest file id overflow"), set_state m s)
      | Some next => (Ok tt, set_state m (ManifestState.set_next_file_id s next))
      end
    else (Ok tt, set_state m s)).

(** The payload of several outputs. *)
Fixpoint encode_outputs (outputs : list SSTableMeta.t) : res bytes :=
  match outputs with
  | [] => mret []
  | meta :: outputs =>
      add ← encode_add_payload meta;
      field ← push_bytes add;
      rest ← encode_outputs outputs;
      mret (field ++ rest)
  end.
Definition compaction_entry (removals : list (Z * Z)) (outputs : list SSTableMeta.t) : res bytes :=
  if len outputs <=? 1 then
    payload ← encode_compaction_payload removals (head outputs);
    encode_entry ENTRY_KIND_COMPACTION payload
  else
    payload ← encode_compaction_payload removals None;
    _ ← guard_err (len outputs <=? u32_max) (StorageError "too many compaction outputs");
    outs ← encode_outputs outputs;
    encode_entry ENTRY_KIND_COMPACTION_OUTPUTS (payload ++ to_be 4 (len outputs) ++ outs).

Definition publish_compaction (m : t) (expected : ManifestSnapshot.t)
    (inputs outputs : list SSTableMeta.t) (fault : option Wal.WriteFault) : res unit * t :=
  if negb (bool_decide (snapshot_levels (ManifestState.levels (state m)) =
                        ManifestSnapshot.levels expected))
  then (Err (StorageError "manifest changed during compaction"), m)
  else
    let removals := (λ meta, (SSTableMeta.level meta, SSTableMeta.file_id meta)) <$> inputs in
    with_entry m (compaction_entry removals outputs) fault (λ m,
      (Ok tt, set_state m (apply_compaction (state m) removals outputs))).

Definition evict_file (m : t) (path : bytes) : t :=
  set_cache m (LruFileCache.remove (file_cache m) path).

Definition remove_sstable (m : t) (level file_id : Z) (fault : option Wal.WriteFault)
    : res unit * t :=
  let path := SSTableMeta.path <$>
    (files ← om_get level (ManifestState.levels (state m)); om_get file_id files) in
  with_entry m (encode_entry ENTRY_KIND_REMOVE (encode_remove_payload level file_id)) fault (λ m,
    let m := set_state m (ManifestState.set_levels (state m)
               (remove_file (ManifestState.levels (state m)) level file_id)) in
    (Ok tt, match path with Some path => evict_file m path | None => m end)).

Definition mark_checkpoint (m : t) (checkpoint_lsn active : Z) (fault : option Wal.WriteFault)
    : res unit * t :=
  with_entry m (encode_entry ENTRY_KIND_CHECKPOINT (encode_checkpoint_payload checkpoint_lsn active))
    fault (λ m,
    let s := state m in
    (Ok tt, set_state m (ManifestState.mk (ManifestState.version s) (ManifestState.next_file_id s)
                           checkpoint_lsn active (ManifestState.recovery_checkpoint s)
                           (ManifestState.levels s)))).

Definition publish_recovery_checkpoint (m : t) (c : RecoveryCheckpoint)
    (fault : option Wal.WriteFault) : res unit * t :=
  with_entry m (encode_entry ENTRY_KIND_RECOVERY_CHECKPOINT (encode_recovery_payload c)) fault
    (λ m, (Ok tt, set_state m (ManifestState.set_recovery (state m) c))).

Definition snapshot (m : t) : ManifestSnapshot.t := snapshot_from_state (state m).

Definition get_or_open_file (open : bytes → res bytes) (m : t) (path : bytes) : res bytes * t :=
  let '(r, c) := LruFileCache.get_or_open open (file_cache m) path in (r, set_cache m c).
Definition clear_file_cache (m : t) : t := set_cache m (LruFileCache.clear (file_cache m)).
End manager.
End ManifestManager.
