(* ===== verification/Unicode.v ===== *)
(** * Characters of strings

    A [String] is its UTF-8 bytes and a [char] is the UTF-8 bytes of one
    character, so that [str::chars] splits a string and pushing characters
    concatenates.  The tables of the Unicode standard behind
    [char::is_alphanumeric], [char::is_whitespace] and the case mappings are a
    class; [ascii_unicode] is an instance that maps the ASCII letters. *)

From S2P Require Import Prelude Bytes OrdMap Manifest.

(** [str::chars]: the first byte says how many bytes a character has. *)
Fixpoint chars (s : bytes) : list bytes :=
  match s with
  | [] => []
  | a :: rest =>
      if bz a <=? 127 then [a] :: chars rest
      else match rest with
      | [] => [[a]]
      | b :: rest =>
          if bz a <=? 223 then [a; b] :: chars rest
          else match rest with
          | [] => [[a; b]]
          | c :: rest =>
              if bz a <=? 239 then [a; b; c] :: chars rest
              else match rest with
              | [] => [[a; b; c]]
              | d :: rest => [a; b; c; d] :: chars rest
              end
          end
      end
  end.

Class Unicode : Type := {
  is_alphanumeric : bytes → bool;
  is_whitespace : bytes → bool;
  char_to_lowercase : bytes → bytes;
  str_to_lowercase : bytes → bytes;
  str_to_uppercase : bytes → bytes
}.
(** What the tokenizers rely on: the lowercase of a character is a string that
    is not empty, and a string of lowercase characters is its own lowercase. *)
Class UnicodeSpec `{Unicode} : Prop := {
  lower_nonempty : ∀ c, is_alphanumeric c = true → char_to_lowercase c ≠ [];
  lower_utf8 : ∀ c, utf8_valid c = true → utf8_valid (char_to_lowercase c) = true;
  lower_stable : ∀ cs, Forall (λ c, is_alphanumeric c = true) cs →
    str_to_lowercase (cs ≫= char_to_lowercase) = cs ≫= char_to_lowercase
}.

(** ** Splitting *)

Lemma utf8_ind (P : bytes → Prop) :
  (∀ x, (∀ y, (length y < length x)%nat → P y) → P x) → ∀ x, P x.
Proof.
  intros Hstep x. remember (length x) as n eqn:Hn. revert x Hn.
  induction n as [n IH] using lt_wf_ind. intros x ->. apply Hstep. intros y Hy. by eapply IH.
Qed.
Lemma utf8_app x y : utf8_valid x = true → utf8_valid y = true → utf8_valid (x ++ y) = true.
Proof.
  intros Hx Hy. revert Hx. induction x as [x IH] using utf8_ind. intros Hx.
  destruct x as [|a x]; [done|]. cbn [utf8_valid app] in Hx |- *.
  destruct (bz a <=? 127); [apply IH; [simpl; lia | done]|].
  destruct x as [|b x]; [done|]. cbn [app]. destruct ((194 <=? bz a) && (bz a <=? 223)).
  { apply andb_true_iff in Hx as [-> Hx]. apply IH; [simpl; lia | done]. }
  destruct x as [|c x]; [done|]. cbn [app]. destruct ((224 <=? bz a) && (bz a <=? 239)).
  { apply andb_true_iff in Hx as [-> Hx]. apply IH; [simpl; lia | done]. }
  destruct x as [|e x]; [done|]. cbn [app].
  apply andb_true_iff in Hx as [-> Hx]. apply IH; [simpl; lia | done].
Qed.

Lemma chars_concat s : concat (chars s) = s.
Proof.
  induction s as [s IH] using utf8_ind. destruct s as [|a s]; [done|]. cbn [chars].
  destruct (bz a <=? 127); [cbn [concat app]; by rewrite IH by (simpl; lia)|].
  destruct s as [|b s]; [done|]. destruct (bz a <=? 223); [cbn [concat app]; by rewrite IH by (simpl; lia)|].
  destruct s as [|c s]; [done|]. destruct (bz a <=? 239); [cbn [concat app]; by rewrite IH by (simpl; lia)|].
  destruct s as [|d s]; [done|]. cbn [concat app]. by rewrite IH by (simpl; lia).
Qed.
Lemma chars_valid s : utf8_valid s = true → Forall (λ c, utf8_valid c = true ∧ c ≠ []) (chars s).
Proof.
  induction s as [s IH] using utf8_ind. intros Hs. destruct s as [|a s]; [constructor|]. cbn [chars utf8_valid] in *.
  destruct (bz a <=? 127) eqn:Ha; [constructor; [simpl; by rewrite Ha | apply IH; [simpl; lia | done]]|].
  destruct s as [|b s]; [done|]. destruct ((194 <=? bz a) && (bz a <=? 223)) eqn:H2.
  { pose proof H2 as [_ ->]%andb_true_iff. apply andb_true_iff in Hs as [Hb Hs].
    constructor; [cbn [utf8_valid]; by rewrite Ha, H2, Hb | apply IH; [simpl; lia | done]]. }
  destruct s as [|c s]; [done|]. destruct ((224 <=? bz a) && (bz a <=? 239)) eqn:H3.
  { pose proof H3 as [Hlo ->]%andb_true_iff. apply andb_true_iff in Hs as [Hb Hs].
    assert ((bz a <=? 223) = false) as -> by (apply Z.leb_le in Hlo; apply Z.leb_gt; lia).
    constructor; [cbn [utf8_valid]; by rewrite Ha, H2, H3, Hb | apply IH; [simpl; lia | done]]. }
  destruct s as [|d s]; [done|]. apply andb_true_iff in Hs as [Hb Hs].
  assert (240 <= bz a) as Hlo by (rewrite !andb_true_iff in Hb; apply Z.leb_le, Hb).
  assert ((bz a <=? 223) = false) as -> by (apply Z.leb_gt; lia).
  assert ((bz a <=? 239) = false) as -> by (apply Z.leb_gt; lia).
  constructor; [cbn [utf8_valid]; by rewrite Ha, H2, H3, Hb | apply IH; [simpl; lia | done]].
Qed.

(** ** Lossy decoding *)

(** [String::from_utf8_lossy]: a maximal prefix of a character that does not
    go on as one becomes U+FFFD. *)
Definition REPLACEMENT : bytes := [xef; xbf; xbd].
Definition second_of_3 (a b : byte) : bool :=
  cont b && negb ((bz a =? 224) && (bz b <? 160)) && negb ((bz a =? 237) && (159 <? bz b)).
Definition second_of_4 (a b : byte) : bool :=
  cont b && negb ((bz a =? 240) && (bz b <? 144)) && negb ((bz a =? 244) && (143 <? bz b)).
Fixpoint from_utf8_lossy (s : bytes) : bytes :=
  match s with
  | [] => []
  | a :: r1 =>
      if bz a <=? 127 then a :: from_utf8_lossy r1
      else if (194 <=? bz a) && (bz a <=? 223) then
        match r1 with
        | [] => REPLACEMENT
        | b :: r2 => if cont b then a :: b :: from_utf8_lossy r2 else REPLACEMENT ++ from_utf8_lossy r1
        end
      else if (224 <=? bz a) && (bz a <=? 239) then
        match r1 with
        | [] => REPLACEMENT
        | b :: r2 =>
            if second_of_3 a b then
              match r2 with
              | [] => REPLACEMENT
              | c :: r3 => if cont c then a :: b :: c :: from_utf8_lossy r3 else REPLACEMENT ++ from_utf8_lossy r2
              end
            else REPLACEMENT ++ from_utf8_lossy r1
        end
      else if (240 <=? bz a) && (bz a <=? 244) then
        match r1 with
        | [] => REPLACEMENT
        | b :: r2 =>
            if second_of_4 a b then
              match r2 with
              | [] => REPLACEMENT
              | c :: r3 =>
                  if cont c then
                    match r3 with
                    | [] => REPLACEMENT
                    | d :: r4 =>
                        if cont d then a :: b :: c :: d :: from_utf8_lossy r4 else REPLACEMENT ++ from_utf8_lossy r3
                    end
                  else REPLACEMENT ++ from_utf8_lossy r2
              end
            else REPLACEMENT ++ from_utf8_lossy r1
        end
      else REPLACEMENT ++ from_utf8_lossy r1
  end.
(** A string is kept as it is. *)
Lemma from_utf8_lossy_valid s : utf8_valid s = true → from_utf8_lossy s = s.
Proof.
  induction s as [s IH] using utf8_ind. intros Hs. destruct s as [|a s]; [done|]. cbn [utf8_valid from_utf8_lossy] in *.
  destruct (bz a <=? 127); [by rewrite IH by (done || simpl; lia)|].
  destruct s as [|b s]; [done|]. destruct ((194 <=? bz a) && (bz a <=? 223)).
  { apply andb_true_iff in Hs as [-> Hs]. by rewrite IH by (done || simpl; lia). }
  destruct s as [|c s]; [done|]. destruct ((224 <=? bz a) && (bz a <=? 239)).
  { rewrite !andb_true_iff in Hs. destruct Hs as [[[[Hb Hc] H1] H2] Hs]. unfold second_of_3. rewrite Hb, Hc, H1, H2. simpl.
    by rewrite IH by (done || simpl; lia). }
  destruct s as [|d s]; [done|]. rewrite !andb_true_iff in Hs. destruct Hs as [[[[[[[Ha Ha'] Hb] Hc] Hd] H1] H2] Hs].
  unfold second_of_4. rewrite Ha, Ha', Hb, Hc, Hd, H1, H2. simpl. by rewrite IH by (done || simpl; lia).
Qed.

(** ** Trimming *)

Fixpoint drop_while {A} (f : A → bool) (l : list A) : list A :=
  match l with [] => [] | x :: rest => if f x then drop_while f rest else l end.
(** The characters of [str::trim]. *)
Definition trim_chars `{Unicode} (s : bytes) : list bytes :=
  rev (drop_while is_whitespace (rev (drop_while is_whitespace (chars s)))).

(** ** ASCII *)

Definition is_upper (b : byte) : bool := (65 <=? bz b) && (bz b <=? 90).
Definition is_lower (b : byte) : bool := (97 <=? bz b) && (bz b <=? 122).
Definition is_digit (b : byte) : bool := (48 <=? bz b) && (bz b <=? 57).
Definition lower_byte (b : byte) : byte := if is_upper b then zb (bz b + 32) else b.
Definition upper_byte (b : byte) : byte := if is_lower b then zb (bz b - 32) else b.
Definition ascii_unicode : Unicode := {|
  is_alphanumeric := λ c, match c with [b] => is_upper b || is_lower b || is_digit b | _ => false end;
  is_whitespace := λ c, match c with [x20] | [x09] | [x0a] | [x0b] | [x0c] | [x0d] => true | _ => false end;
  char_to_lowercase := fmap lower_byte;
  str_to_lowercase := fmap lower_byte;
  str_to_uppercase := fmap upper_byte
|}.
Lemma lower_byte_idem b : lower_byte (lower_byte b) = lower_byte b.
Proof. by destruct b. Qed.
Lemma lower_byte_utf8 (s : bytes) : utf8_valid s = true → utf8_valid (lower_byte <$> s) = true.
Proof.
  assert (∀ b, bz b <= 127 → (bz (lower_byte b) <=? 127) = true) as Hlo by (intros b; by destruct b).
  assert (∀ b, 127 < bz b → lower_byte b = b) as Hhi by (intros b; by destruct b).
  induction s as [s IH] using utf8_ind. intros Hs. destruct s as [|a s]; [done|]. rewrite fmap_cons. cbn [utf8_valid] in *.
  destruct (Z.leb_spec (bz a) 127) as [Ha|Ha]; [rewrite Hlo by done; apply IH; [simpl; lia | done]|]. rewrite (Hhi a Ha).
  rewrite (proj2 (Z.leb_gt _ _)) by done.
  destruct s as [|b s]; [done|]. rewrite fmap_cons. assert (∀ b, cont b = true → lower_byte b = b) as Hc.
  { intros x Hx. apply Hhi. apply andb_true_iff in Hx as [Hx _]. apply Z.leb_le in Hx. lia. }
  destruct ((194 <=? bz a) && (bz a <=? 223)).
  { apply andb_true_iff in Hs as [Hb Hs]. rewrite Hc, Hb by done. apply IH; [simpl; lia | done]. }
  destruct s as [|c s]; [done|]. rewrite fmap_cons. destruct ((224 <=? bz a) && (bz a <=? 239)).
  { rewrite !andb_true_iff in Hs. destruct Hs as [[[[Hb Hc'] H1] H2] Hs]. rewrite !Hc by done.
    rewrite Hb, Hc', H1, H2. apply IH; [simpl; lia | done]. }
  destruct s as [|d s]; [done|]. rewrite fmap_cons. rewrite !andb_true_iff in Hs.
  destruct Hs as [[[[[[[H1 H2] Hb] Hc'] Hd] H3] H4] Hs]. rewrite !Hc by done.
  rewrite H1, H2, Hb, Hc', Hd, H3, H4. apply IH; [simpl; lia | done].
Qed.
Lemma ascii_unicode_spec : @UnicodeSpec ascii_unicode.
Proof.
  split; simpl.
  - by intros [|b [|]].
  - intros c. apply lower_byte_utf8.
  - intros cs _. induction cs as [|c cs IH]; [done|]. rewrite bind_cons, fmap_app, IH. f_equal.
    rewrite <- list_fmap_compose. apply list_fmap_ext. intros i b _. apply lower_byte_idem.
Qed.
