(* ===== verification/ManifestTheory.v ===== *)
(** * Correctness of the manifest

    Codec round trips, replay as the fold of the entries written, agreement of
    the in-memory state with what a restart replays, totality of replay on
    arbitrary bytes, and the invariant of the file cache. *)

From stdpp Require Import relations.
From S2P Require Import Prelude Bytes OrdMap WalFormat Wal Manifest.

(** ** Payloads *)

Definition meta_typed (m : SSTableMeta.t) : Prop :=
  is_u64 (SSTableMeta.file_id m) ∧ is_u32 (SSTableMeta.level m) ∧
  utf8_valid (SSTableMeta.path m) = true ∧ is_u64 (SSTableMeta.record_count m) ∧
  is_u64 (SSTableMeta.bloom_offset m) ∧ is_u64 (SSTableMeta.bloom_size m).

Lemma push_bytes_Ok v bs : push_bytes v = Ok bs ↔ bs = to_be 4 (len v) ++ v ∧ len v <= u32_max.
Proof.
  unfold push_bytes. destruct (Z.leb_spec (len v) u32_max); simpl; split.
  - by intros [= <-].
  - by intros [-> _].
  - done.
  - lia.
Qed.
Lemma read_field_run v r : len v <= u32_max → read_field (to_be 4 (len v) ++ v ++ r) = Ok (v, r).
Proof.
  intros Hv. pose proof (len_nonneg v). unfold read_field. step_reader. apply read_vec_run; word_lia.
Qed.
Lemma read_field_end v : len v <= u32_max → read_field (to_be 4 (len v) ++ v) = Ok (v, []).
Proof. intros Hv. pose proof (read_field_run v [] Hv) as Hr. by rewrite app_nil_r in Hr. Qed.
Lemma read_string_run v r :
  len v <= u32_max → utf8_valid v = true → read_string (to_be 4 (len v) ++ v ++ r) = Ok (v, r).
Proof.
  intros Hv Hu. unfold read_string. erewrite reader_bind_run by (by apply read_field_run); cbv beta.
  erewrite reader_bind_run by (by apply require_run); cbv beta. done.
Qed.

Lemma add_payload_run m payload :
  meta_typed m → encode_add_payload m = Ok payload → decode_add_payload payload = Ok m.
Proof.
  intros (Hid & Hl & Hu & Hrc & Hbo & Hbs). unfold encode_add_payload.
  intros (p & [-> Hp]%push_bytes_Ok & (s & [-> Hs]%push_bytes_Ok & (l & [-> Hlk]%push_bytes_Ok & [= <-])%res_bind_Ok)%res_bind_Ok)%res_bind_Ok.
  unfold decode_add_payload. norm_app. do 3 step_reader.
  erewrite reader_bind_run by (by apply read_string_run); cbv beta.
  erewrite reader_bind_run by done; cbv beta.
  pose proof (len_nonneg (SSTableMeta.smallest_key m)). pose proof (len_nonneg (SSTableMeta.largest_key m)).
  rewrite (proj2 (Z.leb_le _ _)) by (autorewrite with len; lia).
  erewrite reader_bind_run by (do 2 step_reader; done); cbv beta iota.
  erewrite reader_bind_run by done; cbv beta.
  rewrite (proj2 (Z.ltb_lt _ _)) by (autorewrite with len; lia).
  erewrite reader_bind_run.
  2: { erewrite reader_bind_run by (by apply read_field_run); cbv beta.
       by erewrite reader_bind_run by (by apply read_field_end). }
  by destruct m.
Qed.
Lemma add_payload_pos m payload : encode_add_payload m = Ok payload → 48 <= len payload.
Proof.
  unfold encode_add_payload.
  intros (p & [-> Hp]%push_bytes_Ok & (s & [-> Hs]%push_bytes_Ok & (l & [-> Hlk]%push_bytes_Ok & [= <-])%res_bind_Ok)%res_bind_Ok)%res_bind_Ok.
  autorewrite with len. pose proof (len_nonneg (SSTableMeta.path m)).
  pose proof (len_nonneg (SSTableMeta.smallest_key m)). pose proof (len_nonneg (SSTableMeta.largest_key m)). lia.
Qed.

Lemma remove_payload_run l f : is_u32 l → is_u64 f → decode_remove_payload (encode_remove_payload l f) = Ok (l, f).
Proof.
  intros Hl Hf. unfold decode_remove_payload, encode_remove_payload. autorewrite with len.
  change (Z.of_nat 4 + Z.of_nat 8 =? 12) with true. cbn [guard_err mbind res_bind].
  rewrite (slice_here (to_be 4 l)) by (by rewrite len_to_be).
  rewrite (slice_mid (to_be 4 l) (to_be 8 f) []); [| by rewrite app_nil_r | by rewrite len_to_be | by rewrite len_to_be].
  cbn [fmap res_fmap mbind res_bind]. by rewrite from_be_u32, from_be_u64.
Qed.
Lemma checkpoint_payload_run a b :
  is_u64 a → is_u64 b → decode_checkpoint_payload (encode_checkpoint_payload a b) = Ok (a, b).
Proof.
  intros Ha Hb. unfold decode_checkpoint_payload, encode_checkpoint_payload. autorewrite with len.
  change (Z.of_nat 8 + Z.of_nat 8 =? 16) with true. cbn [guard_err mbind res_bind].
  rewrite (slice_here (to_be 8 a)) by (by rewrite len_to_be).
  rewrite (slice_mid (to_be 8 a) (to_be 8 b) []); [| by rewrite app_nil_r | by rewrite len_to_be | by rewrite len_to_be].
  cbn [fmap res_fmap mbind res_bind]. by rewrite !from_be_u64.
Qed.
Definition checkpoint_typed (c : RecoveryCheckpoint) : Prop :=
  is_u64 (replay_start_segment c) ∧ is_u64 (next_physical_lsn c) ∧ is_u64 (committed_sequence c).
Lemma recovery_payload_run c :
  checkpoint_typed c → decode_recovery_payload (encode_recovery_payload c) = Ok c.
Proof.
  intros (Ha & Hb & Hc). unfold decode_recovery_payload, encode_recovery_payload. autorewrite with len.
  change (Z.of_nat 8 + (Z.of_nat 8 + Z.of_nat 8) =? 24) with true. cbn [guard_err mbind res_bind].
  set (a := to_be 8 _). set (b := to_be 8 (next_physical_lsn c)). set (d := to_be 8 _).
  assert (len a = 8 ∧ len b = 8 ∧ len d = 8) as (La & Lb & Ld) by (unfold a, b, d; by rewrite !len_to_be).
  rewrite (slice_here a) by done.
  rewrite (slice_mid a b d _ 8 16) by (done || lia).
  rewrite (slice_mid (a ++ b) d [] _ 16 24); [|by rewrite app_nil_r, (assoc_L (++))|rewrite len_app; lia|lia].
  cbn [fmap res_fmap mbind res_bind]. unfold a, b, d. rewrite !from_be_u64 by done. by destruct c.
Qed.

(** ** Compactions *)

Definition removal_typed (r : Z * Z) : Prop := is_u32 (fst r) ∧ is_u64 (snd r).

Lemma removals_run rs rest :
  Forall removal_typed rs →
  read_many read_removal (length rs)
    (concat ((λ r, encode_remove_payload (fst r) (snd r)) <$> rs) ++ rest) = Ok (rs, rest).
Proof.
  intros Hrs. rewrite (read_many_run _ _ id); [by rewrite list_fmap_id|].
  eapply Forall_impl; [exact Hrs|]. intros [l f] [Hl Hf] r. simpl in *.
  unfold read_removal, encode_remove_payload. norm_app. do 2 step_reader. done.
Qed.
Lemma removals_len rs :
  len (concat ((λ r, encode_remove_payload (fst r) (snd r)) <$> rs)) = 12 * len rs.
Proof.
  induction rs as [|r rs IH]; [done|]. rewrite fmap_cons. cbn [concat]. rewrite len_app, IH, len_cons.
  unfold encode_remove_payload. autorewrite with len. lia.
Qed.

Lemma compaction_payload_run rs out payload :
  Forall removal_typed rs → (∀ m, out = Some m → meta_typed m) →
  encode_compaction_payload rs out = Ok payload →
  decode_compaction_payload payload = Ok (rs, out).
Proof.
  intros Hrs Hout. unfold encode_compaction_payload.
  intros (_ & Hc%guard_err_Ok%Z.leb_le & (tail & Ht & [= <-])%res_bind_Ok)%res_bind_Ok.
  pose proof (len_nonneg rs). pose proof (len_nonneg tail).
  unfold decode_compaction_payload. step_reader.
  erewrite reader_bind_run.
  2: { apply require_run. apply Z.leb_le. unfold saturating_sub. autorewrite with len. rewrite removals_len.
       rewrite Z.max_l by lia. apply Z.div_le_lower_bound; lia. }
  unfold len at 1. rewrite Nat2Z.id. erewrite reader_bind_run by (by apply removals_run); cbv beta.
  erewrite reader_bind_run by done; cbv beta. destruct out as [m|].
  - pose proof (add_payload_pos _ _ Ht). destruct tail as [|b tail]; [rewrite len_nil in *; lia|].
    rewrite (add_payload_run m) by eauto. done.
  - injection Ht as <-. done.
Qed.

Lemma outputs_run outs bs rest :
  Forall meta_typed outs → ManifestManager.encode_outputs outs = Ok bs →
  read_many read_output (length outs) (bs ++ rest) = Ok (outs, rest) ∧ 4 * len outs <= len bs.
Proof.
  intros Ho. revert bs. induction Ho as [|m outs Hm Ho IH]; intros bs; cbn [ManifestManager.encode_outputs].
  { intros [= <-]. done. }
  intros (add & Hadd & (field & [-> Hf]%push_bytes_Ok & (bs' & Hbs & [= <-])%res_bind_Ok)%res_bind_Ok)%res_bind_Ok.
  destruct (IH bs' Hbs) as [Hr Hl]. pose proof (len_nonneg add). split.
  - cbn [length read_many]. rewrite <- !(assoc_L (++)). erewrite reader_bind_run.
    2: { unfold read_output. step_reader. erewrite reader_bind_run by done; cbv beta.
         erewrite reader_bind_run.
         2: { apply require_run, Z.leb_le. rewrite len_app. pose proof (len_nonneg (bs' ++ rest)). lia. }
         erewrite reader_bind_run by (by apply read_exact_run). apply lift_run. by apply add_payload_run. }
    erewrite reader_bind_run by exact Hr. done.
  - rewrite len_cons, !len_app, len_to_be. lia.
Qed.

Lemma compaction_outputs_run rs outs payload bs :
  Forall removal_typed rs → Forall meta_typed outs → len outs <= u32_max →
  encode_compaction_payload rs None = Ok payload → ManifestManager.encode_outputs outs = Ok bs →
  decode_compaction_outputs (payload ++ to_be 4 (len outs) ++ bs) = Ok (rs, outs).
Proof.
  intros Hrs Hm Hn. unfold encode_compaction_payload.
  intros (_ & Hc%guard_err_Ok%Z.leb_le & [= <-])%res_bind_Ok Hbs.
  destruct (outputs_run outs bs [] Hm Hbs) as [Hr Hl]. rewrite app_nil_r in Hr.
  pose proof (len_nonneg rs). pose proof (len_nonneg outs).
  unfold decode_compaction_outputs. rewrite app_nil_r, <- !(assoc_L (++)). step_reader.
  erewrite reader_bind_run.
  2: { apply require_run. apply Z.leb_le. unfold saturating_sub. autorewrite with len. rewrite removals_len.
       rewrite Z.max_l by lia. apply Z.div_le_lower_bound; lia. }
  unfold len at 1. rewrite Nat2Z.id. erewrite reader_bind_run by (by apply removals_run); cbv beta.
  step_reader. erewrite reader_bind_run by done; cbv beta.
  erewrite reader_bind_run by (apply require_run, Z.leb_le, Z.div_le_lower_bound; lia); cbv beta.
  unfold len at 1. rewrite Nat2Z.id. erewrite reader_bind_run by exact Hr; cbv beta.
  by erewrite reader_bind_run by done.
Qed.

(** ** Entries *)

Section entry_theory.
Context `{Crc32Spec}.

Lemma entry_len kind payload e : encode_entry kind payload = Ok e → len e = 9 + len payload.
Proof.
  unfold encode_entry. intros (_ & _ & [= <-])%res_bind_Ok. autorewrite with len. lia.
Qed.

Lemma decode_entry_run (x y : bytes) kind payload e :
  encode_entry kind payload = Ok e → len (x ++ e ++ y) <= u64_max →
  decode_entry (x ++ e ++ y) (len x) = Ok (kind, payload, len x + len e).
Proof.
  unfold encode_entry. intros (_ & Hp%guard_err_Ok%Z.leb_le & He)%res_bind_Ok Hmax.
  set (bs := [kind] ++ to_be 4 (len payload) ++ payload) in *.
  set (ck := to_be 4 (crc32 bs)) in *. assert (e = bs ++ ck) as -> by (by injection He).
  set (data := x ++ (bs ++ ck) ++ y) in *.
  pose proof (len_nonneg payload). pose proof (len_nonneg x). pose proof (len_nonneg y).
  assert (len bs = 5 + len payload) as Hbs by (unfold bs; autorewrite with len; lia).
  assert (len ck = 4) as Hck by (unfold ck; by rewrite len_to_be).
  assert (len data = len x + (9 + len payload) + len y) as Hd by (unfold data; rewrite !len_app; lia).
  rewrite (len_app bs ck).
  unfold decode_entry. check_run. check_run.
  eapply bind_run.
  { unfold byte_at, data, len. rewrite Nat2Z.id, lookup_app_r, Nat.sub_diag by lia. reflexivity. }
  eapply bind_run.
  { rewrite (slice_mid (x ++ [kind]) (to_be 4 (len payload)) (payload ++ ck ++ y)).
    - cbn [fmap res_fmap]. by rewrite from_be_u32 by word_lia.
    - unfold data, bs. by rewrite <- !(assoc_L (++)).
    - by rewrite len_app.
    - rewrite len_to_be. lia. }
  cbv beta. do 3 check_run.
  eapply bind_run.
  { rewrite (slice_mid (x ++ bs) ck y).
    - cbn [fmap res_fmap]. unfold ck. by rewrite from_be_u32 by apply crc32_u32.
    - unfold data. by rewrite <- !(assoc_L (++)).
    - rewrite len_app. lia.
    - lia. }
  cbv beta. eapply bind_run.
  { apply (slice_mid x bs (ck ++ y)); [unfold data; by rewrite <- !(assoc_L (++)) | done | lia]. }
  cbv beta. apply guard_run; [apply Z.eqb_refl|]. eapply bind_run.
  { apply (slice_mid (x ++ kind :: to_be 4 (len payload)) payload (ck ++ y)).
    - unfold data, bs. by rewrite <- !(assoc_L (++)).
    - rewrite len_app, len_cons, len_to_be. lia.
    - lia. }
  cbv beta. unfold mret, res_ret. do 2 f_equal. lia.
Qed.

(** Appending to the file leaves the entries already there as they are. *)
Lemma slice_app_l (x y : bytes) i j s :
  slice x i j = Ok s → 0 <= i → slice (x ++ y) i j = Ok s.
Proof.
  intros Hs Hi. unfold slice in *. destruct (Z.leb_spec i j), (Z.leb_spec j (len x)); try done. cbn [andb] in Hs.
  injection Hs as <-. rewrite len_app. pose proof (len_nonneg y).
  rewrite (proj2 (Z.leb_le _ _)) by lia. cbn [andb]. f_equal. unfold len in *.
  rewrite drop_app, take_app, length_drop.
  replace (Z.to_nat (j - i) - (length x - Z.to_nat i))%nat with O by lia. by rewrite take_0, app_nil_r.
Qed.
Lemma byte_at_app_l (x y : bytes) i b : byte_at x i = Ok b → byte_at (x ++ y) i = Ok b.
Proof.
  unfold byte_at. destruct (x !! Z.to_nat i) eqn:E; [|done]. intros [= ->]. by rewrite (lookup_app_l_Some _ _ _ _ E).
Qed.
Lemma decode_entry_app data e off k p n :
  0 <= off → decode_entry data off = Ok (k, p, n) →
  decode_entry (data ++ e) off = Ok (k, p, n) ∧ off + 9 <= n <= len data.
Proof.
  intros Hoff. unfold decode_entry.
  intros (he & Hhe & (_ & H1%guard_err_Ok%Z.leb_le & (kd & Hk & (m & Hm & (pe & Hpe & (ce & Hce & (_ & H2%guard_err_Ok%Z.leb_le & (st & Hst & (cv & Hcv & (_ & H3%guard_err_Ok & (pl & Hpl & [= <- <- <-])%res_bind_Ok)%res_bind_Ok)%res_bind_Ok)%res_bind_Ok)%res_bind_Ok)%res_bind_Ok)%res_bind_Ok)%res_bind_Ok)%res_bind_Ok)%res_bind_Ok)%res_bind_Ok.
  apply ok_or_Ok in Hhe, Hpe, Hce. pose proof (len_nonneg e).
  pose proof Hhe as [-> _]%checked_add_Some. pose proof Hpe as [-> _]%checked_add_Some. pose proof Hce as [-> _]%checked_add_Some.
  destruct (slice data (off + 1) (off + 5)) as [lb| |] eqn:Hlb; [|done|done]. injection Hm as <-.
  destruct (slice data (off + 5 + from_be lb) _) as [sb| |] eqn:Hsb; [|done|done]. injection Hst as <-.
  assert (0 <= from_be lb) by apply from_be_range.
  split; [|lia].
  rewrite Hhe. cbn [ok_or mbind res_bind]. rewrite len_app, (proj2 (Z.leb_le _ _)) by lia.
  cbn [guard_err mbind res_bind].
  rewrite (byte_at_app_l _ _ _ _ Hk), (slice_app_l _ _ _ _ _ Hlb ltac:(lia)). cbn [fmap res_fmap mbind res_bind].
  rewrite Hpe. cbn [ok_or mbind res_bind]. rewrite Hce. cbn [ok_or mbind res_bind].
  rewrite (proj2 (Z.leb_le _ _)) by lia. cbn [guard_err mbind res_bind].
  rewrite (slice_app_l _ _ _ _ _ Hsb ltac:(lia)), (slice_app_l _ _ _ _ _ Hcv ltac:(lia)),
    (slice_app_l _ _ _ _ _ Hpl ltac:(lia)).
  cbn [fmap res_fmap mbind res_bind]. by rewrite H3.
Qed.
End entry_theory.

(** ** Replay *)

Section replay_theory.
Context `{Crc32Spec}.
Implicit Types (s : ManifestState.t) (data e : bytes).

(** Replay as a relation, without fuel. *)
Inductive replays data : Z → ManifestState.t → ManifestState.t → Prop :=
| rp_end s : replays data (len data) s s
| rp_step off s k p n s1 s' :
    decode_entry data off = Ok (k, p, n) → 0 <= off → replay_entry s k p = Ok s1 →
    replays data n s1 s' → replays data off s s'.

Lemma replays_bound data off s s' : replays data off s s' → 0 <= off <= len data.
Proof.
  induction 1 as [s|off s k p n s1 s' Hd Ho _ _ IH]; [pose proof (len_nonneg data); lia|].
  destruct (decode_entry_app data [] off k p n Ho Hd) as [_ ?]. lia.
Qed.
Lemma replay_loop_sound fuel data off s s' :
  0 <= off <= len data → (Z.to_nat (len data - off) <= fuel)%nat →
  replay_loop fuel data off s = Ok s' → replays data off s s'.
Proof.
  revert off s. induction fuel as [|fuel IH]; intros off s Ho Hf; simpl.
  - intros [= <-]. replace off with (len data) by lia. constructor.
  - destruct (Z.ltb_spec off (len data)).
    + intros ([[k p] n] & Hd & (s1 & Hs1 & Hl)%res_bind_Ok)%res_bind_Ok.
      destruct (decode_entry_app data [] off k p n ltac:(lia) Hd) as [_ ?].
      econstructor; [done | lia | done | apply IH; [lia | lia | done]].
    + intros [= <-]. replace off with (len data) by lia. constructor.
Qed.
(** Running the loop up to the end of what replays, then on what follows. *)
Lemma replay_loop_app fuel data e off s s' :
  replays data off s s' → (Z.to_nat (len data - off) <= fuel)%nat →
  ∃ fuel', (fuel - Z.to_nat (len data - off) <= fuel')%nat ∧
    replay_loop fuel (data ++ e) off s = replay_loop fuel' (data ++ e) (len data) s'.
Proof.
  intros Hr. revert fuel. induction Hr as [s|off s k p n s1 s' Hd Ho Hs Hr IH]; intros fuel Hf.
  - exists fuel. split; [lia | done].
  - destruct (decode_entry_app data e off k p n Ho Hd) as [Hd' Hn].
    pose proof (replays_bound _ _ _ _ Hr). destruct fuel as [|fuel]; [lia|].
    destruct (IH fuel ltac:(lia)) as (fuel' & Hf' & Hl). exists fuel'. split; [lia|].
    cbn [replay_loop]. pose proof (len_nonneg e).
    rewrite (proj2 (Z.ltb_lt _ _)) by (rewrite len_app; lia). rewrite Hd'. cbn [mbind res_bind].
    rewrite Hs. exact Hl.
Qed.
Lemma replay_app data e s :
  replay_manifest data = Ok s →
  ∃ fuel, (length e <= fuel)%nat ∧
    replay_manifest (data ++ e) = replay_loop fuel (data ++ e) (len data) s.
Proof.
  intros Hr. apply replay_loop_sound in Hr; [|pose proof (len_nonneg data); lia | unfold len; lia].
  destruct (replay_loop_app (length (data ++ e)) data e 0 _ _ Hr) as (fuel & Hf & Hl).
  { rewrite length_app. unfold len. lia. }
  exists fuel. split; [|exact Hl]. rewrite length_app in Hf. unfold len in Hf. lia.
Qed.

Lemma replay_append data k p e s s' :
  replay_manifest data = Ok s → encode_entry k p = Ok e → len (data ++ e) <= u64_max →
  replay_entry s k p = Ok s' → replay_manifest (data ++ e) = Ok s'.
Proof.
  intros Hr He Hmax Hs. destruct (replay_app data e s Hr) as (fuel & Hf & ->).
  pose proof (entry_len _ _ _ He) as Hl. pose proof (len_nonneg p). pose proof (len_nonneg data).
  destruct fuel as [|fuel]; [unfold len in *; lia|]. cbn [replay_loop].
  rewrite (proj2 (Z.ltb_lt _ _)) by (rewrite len_app; lia).
  pose proof (decode_entry_run data [] k p e He) as Hd. rewrite app_nil_r in Hd. rewrite Hd by done.
  cbn [mbind res_bind]. rewrite Hs. cbn [mbind res_bind].
  destruct fuel as [|fuel]; [done|]. cbn [replay_loop].
  by rewrite len_app, Z.ltb_irrefl.
Qed.

(** A torn entry is not decoded. *)
Lemma decode_torn data k p e n :
  encode_entry k p = Ok e → (n < length e)%nat → len (data ++ e) <= u64_max →
  ∃ msg, decode_entry (data ++ take n e) (len data) = Err (Corrupted msg).
Proof.
  intros He Hn Hmax. pose proof (entry_len _ _ _ He) as Hl. unfold encode_entry in He.
  apply res_bind_Ok in He as (_ & Hp%guard_err_Ok%Z.leb_le & He).
  pose proof (len_nonneg p). pose proof (len_nonneg data). rewrite len_app in Hmax.
  assert (len (data ++ take n e) = len data + Z.of_nat n) as Hlen.
  { rewrite len_app. unfold len in *. rewrite length_take. lia. }
  unfold decode_entry. rewrite checked_add_run by lia. cbn [ok_or mbind res_bind]. rewrite Hlen.
  destruct (Z.leb_spec (len data + 5) (len data + Z.of_nat n)) as [H5|H5]; [|eexists; reflexivity].
  cbn [guard_err mbind res_bind].
  set (rest := take (n - 5) (p ++ to_be 4 (crc32 ([k] ++ to_be 4 (len p) ++ p)))).
  assert (take n e = [k] ++ to_be 4 (len p) ++ rest) as Ht.
  { injection He as <-. replace n with (S (4 + (n - 5)))%nat by lia. cbn [take app]. f_equal. }
  rewrite Ht. assert (byte_at (data ++ [k] ++ to_be 4 (len p) ++ rest) (len data) = Ok k) as ->.
  { unfold byte_at, len. by rewrite Nat2Z.id, lookup_app_r, Nat.sub_diag by lia. }
  cbn [mbind res_bind].
  rewrite (slice_mid (data ++ [k]) (to_be 4 (len p)) rest);
    [|by rewrite <- !(assoc_L (++)) | by rewrite len_app | rewrite len_to_be; lia].
  cbn [fmap res_fmap mbind res_bind]. rewrite from_be_u32 by word_lia.
  rewrite !checked_add_run by lia. cbn [ok_or mbind res_bind]. rewrite !checked_add_run by lia.
  cbn [ok_or mbind res_bind]. unfold len in Hl, Hn, H5 |- *.
  rewrite (proj2 (Z.leb_gt _ _)) by lia. eexists. reflexivity.
Qed.
Lemma replay_torn data k p e s n :
  replay_manifest data = Ok s → encode_entry k p = Ok e → len (data ++ e) <= u64_max →
  (0 < n < length e)%nat → ∃ msg, replay_manifest (data ++ take n e) = Err (Corrupted msg).
Proof.
  intros Hr He Hmax Hn. destruct (replay_app data (take n e) s Hr) as (fuel & Hf & ->).
  destruct (decode_torn data k p e n He ltac:(lia) Hmax) as [msg Hd]. exists msg.
  rewrite length_take in Hf. destruct fuel as [|fuel]; [lia|]. cbn [replay_loop].
  rewrite (proj2 (Z.ltb_lt _ _)) by (rewrite len_app; unfold len; rewrite length_take; lia).
  by rewrite Hd.
Qed.
End replay_theory.

(** ** Levels *)

(** Levels are maps without empty levels, keyed by level and file id, and every
    file id is below [next]. *)
Record levels_ok (l : levels_map) (next : Z) : Prop := {
  lv_wf : om_wf l;
  lv_files : ∀ level files, om_get level l = Some files → files ≠ [] ∧ om_wf files;
  lv_meta : ∀ level files id meta,
    om_get level l = Some files → om_get id files = Some meta →
    SSTableMeta.level meta = level ∧ SSTableMeta.file_id meta = id ∧ id < next
}.

Lemma levels_ok_nil next : levels_ok [] next.
Proof. split; [apply om_wf_nil | done | done]. Qed.
Lemma levels_ok_mono l n n' : n <= n' → levels_ok l n → levels_ok l n'.
Proof.
  intros Hn [Hw Hf Hm]. split; [done | done |]. intros level files id meta Hl Hi.
  destruct (Hm _ _ _ _ Hl Hi) as (? & ? & ?). split_and!; [done | done | lia].
Qed.
Lemma om_insert_not_nil (k : Z) (v : SSTableMeta.t) m : om_insert k v m ≠ [].
Proof. destruct m as [|[k' v'] m]; cbn [om_insert]; [done|]. by case_match. Qed.

Lemma insert_meta_ok l next meta :
  levels_ok l next → SSTableMeta.file_id meta < next → levels_ok (insert_meta l meta) next.
Proof.
  intros [Hw Hf Hm] Hid. unfold insert_meta. set (lv := SSTableMeta.level meta).
  set (old := default [] (om_get lv l)).
  assert (om_wf old ∧ ∀ id m, om_get id old = Some m →
            SSTableMeta.level m = lv ∧ SSTableMeta.file_id m = id ∧ id < next) as [Hwo Hmo].
  { unfold old. destruct (om_get lv l) as [files|] eqn:E; simpl; [|split; [apply om_wf_nil | done]].
    split; [by eapply Hf | intros id m Hi; by eapply Hm]. }
  split.
  - by apply om_insert_wf.
  - intros level files. rewrite om_get_insert. case_decide; [|apply Hf].
    intros [= <-]. split; [apply om_insert_not_nil | by apply om_insert_wf].
  - intros level files id m. rewrite om_get_insert. case_decide as Hlv; [|apply Hm].
    intros [= <-]. rewrite om_get_insert. case_decide as Hi; [|subst level; apply Hmo].
    intros [= ->]. subst. done.
Qed.
Lemma remove_file_ok l next level id : levels_ok l next → levels_ok (remove_file l level id) next.
Proof.
  intros [Hw Hf Hm]. unfold remove_file. destruct (om_get level l) as [files|] eqn:E; [|done].
  destruct (Hf _ _ E) as [_ Hwf]. destruct (om_remove id files) as [|x files'] eqn:Er.
  - split.
    + by apply om_remove_wf.
    + intros lv fs Hg. destruct (decide (lv = level)) as [->|Hne].
      * by rewrite om_get_remove_eq in Hg.
      * rewrite om_get_remove_ne in Hg by done. by eapply Hf.
    + intros lv fs i m Hg. destruct (decide (lv = level)) as [->|Hne].
      * by rewrite om_get_remove_eq in Hg.
      * rewrite om_get_remove_ne in Hg by done. by apply Hm.
  - rewrite <- Er. split.
    + by apply om_insert_wf.
    + intros lv fs. rewrite om_get_insert. case_decide; [|apply Hf]. intros [= <-].
      split; [by rewrite Er | by apply om_remove_wf].
    + intros lv fs i m. rewrite om_get_insert. case_decide as Hl; [|apply Hm]. intros [= <-] Hg.
      destruct (decide (i = id)) as [->|Hne]; [by rewrite om_get_remove_eq in Hg|].
      rewrite om_get_remove_ne in Hg by done. subst. by eapply Hm.
Qed.
Lemma remove_files_ok l next rs :
  levels_ok l next → levels_ok (foldl (λ l r, remove_file l (fst r) (snd r)) l rs) next.
Proof. revert l. induction rs as [|r rs IH]; intros l Hl; simpl; [done|]. by apply IH, remove_file_ok. Qed.

(** ** The replayed state and the one in memory *)

Section manager_theory.
Context `{Crc32Spec}.
Implicit Types (s : ManifestState.t) (m : ManifestManager.t) (meta : SSTableMeta.t).

(** Equal up to the file ids handed out but not registered. *)
Record agrees s s2 : Prop := {
  ag_version : ManifestState.version s = ManifestState.version s2;
  ag_active : ManifestState.active_wal_segment s = ManifestState.active_wal_segment s2;
  ag_recovery : ManifestState.recovery_checkpoint s = ManifestState.recovery_checkpoint s2;
  ag_levels : ManifestState.levels s = ManifestState.levels s2;
  ag_next : 0 <= ManifestState.next_file_id s <= ManifestState.next_file_id s2
}.
Definition id_ok meta : Prop := SSTableMeta.file_id meta < u64_max.

Lemma agrees_add s s2 meta :
  agrees s s2 → levels_ok (ManifestState.levels s) (ManifestState.next_file_id s) →
  meta_typed meta → id_ok meta →
  let s2' := ManifestState.set_levels s2 (insert_meta (ManifestState.levels s2) meta) in
  let s2'' := if ManifestState.next_file_id s2 <=? SSTableMeta.file_id meta
              then ManifestState.set_next_file_id s2' (SSTableMeta.file_id meta + 1) else s2' in
  agrees (replay_add s meta) s2'' ∧
  levels_ok (ManifestState.levels (replay_add s meta)) (ManifestState.next_file_id (replay_add s meta)).
Proof.
  intros [Hv Ha Hr Hl Hn] Hlv ([Hpos _] & _) Hid. unfold replay_add, id_ok in *. cbv zeta.
  rewrite wrap64_id by word_lia. simpl. split.
  - destruct (Z.leb_spec (ManifestState.next_file_id s) (SSTableMeta.file_id meta)),
      (Z.leb_spec (ManifestState.next_file_id s2) (SSTableMeta.file_id meta));
      split; simpl; rewrite ?Hl; try done; lia.
  - destruct (Z.leb_spec (ManifestState.next_file_id s) (SSTableMeta.file_id meta)); simpl.
    + apply insert_meta_ok; [|lia]. eapply levels_ok_mono; [|done]. lia.
    + apply insert_meta_ok; [done | lia].
Qed.

Lemma agrees_compaction s s2 rs outs :
  agrees s s2 → levels_ok (ManifestState.levels s) (ManifestState.next_file_id s) →
  Forall meta_typed outs → Forall id_ok outs →
  agrees (apply_compaction s rs outs) (apply_compaction s2 rs outs) ∧
  levels_ok (ManifestState.levels (apply_compaction s rs outs))
    (ManifestState.next_file_id (apply_compaction s rs outs)).
Proof.
  intros [Hv Ha Hr Hl Hn] Hlv Hty Hids. unfold apply_compaction. cbv zeta.
  set (r1 := ManifestState.set_levels s _). set (r2 := ManifestState.set_levels s2 _).
  assert (agrees r1 r2) as Hag by (split; unfold r1, r2; simpl; rewrite ?Hl; done).
  assert (levels_ok (ManifestState.levels r1) (ManifestState.next_file_id r1)) as Hok
    by (unfold r1; simpl; by apply remove_files_ok).
  clearbody r1 r2. clear Hv Ha Hr Hl Hn Hlv s s2. revert r1 r2 Hag Hok.
  induction Hty as [|o outs Ho Hty IH]; intros r1 r2 Hag Hok; [done|].
  apply Forall_cons_1 in Hids as [Hid Hids]. cbn [foldl]. apply (IH Hids).
  - destruct Hag as [Hv Ha Hr Hl Hn]. split; simpl; rewrite ?Hl; try done. lia.
  - simpl. destruct Ho as ([Hpos _] & _). unfold id_ok in Hid. rewrite wrap64_id by word_lia.
    apply insert_meta_ok; [|lia]. eapply levels_ok_mono; [|done]. lia.
Qed.

Definition mgood m : Prop :=
  ∃ s, replay_manifest (ManifestManager.file m) = Ok s ∧ agrees s (ManifestManager.state m) ∧
       levels_ok (ManifestState.levels s) (ManifestState.next_file_id s).

Lemma mgood_append m k p e st c :
  mgood m → encode_entry k p = Ok e → len (ManifestManager.file m ++ e) <= u64_max →
  (∀ s, agrees s (ManifestManager.state m) →
        levels_ok (ManifestState.levels s) (ManifestState.next_file_id s) →
        ∃ s', replay_entry s k p = Ok s' ∧ agrees s' st ∧
              levels_ok (ManifestState.levels s') (ManifestState.next_file_id s')) →
  mgood (ManifestManager.mk (ManifestManager.file m ++ e) st c).
Proof.
  intros (s & Hr & Ha & Hl) He Hmax Hk. destruct (Hk s Ha Hl) as (s' & Hs & Ha' & Hl').
  exists s'. split_and!; [|done|done]. by eapply replay_append.
Qed.
Lemma mgood_cache m c : mgood m → mgood (ManifestManager.set_cache m c).
Proof. done. Qed.

(** Every operation, as steps of the manager; writes do not fail. *)
Inductive man_step : ManifestManager.t → ManifestManager.t → Prop :=
| ms_allocate m r m' : ManifestManager.allocate_file_id m = (r, m') → man_step m m'
| ms_register m meta r m' :
    meta_typed meta → id_ok meta → ManifestManager.register_sstable m meta None = (r, m') →
    len (ManifestManager.file m') <= u64_max → man_step m m'
| ms_compact m expected inputs outputs r m' :
    Forall meta_typed inputs → Forall meta_typed outputs → Forall id_ok outputs →
    ManifestManager.publish_compaction m expected inputs outputs None = (r, m') →
    len (ManifestManager.file m') <= u64_max → man_step m m'
| ms_remove m level id r m' :
    is_u32 level → is_u64 id → ManifestManager.remove_sstable m level id None = (r, m') →
    len (ManifestManager.file m') <= u64_max → man_step m m'
| ms_checkpoint m lsn seg r m' :
    is_u64 lsn → is_u64 seg → ManifestManager.mark_checkpoint m lsn seg None = (r, m') →
    len (ManifestManager.file m') <= u64_max → man_step m m'
| ms_recovery m c r m' :
    checkpoint_typed c → ManifestManager.publish_recovery_checkpoint m c None = (r, m') →
    len (ManifestManager.file m') <= u64_max → man_step m m'
| ms_open open m path r m' : ManifestManager.get_or_open_file open m path = (r, m') → man_step m m'
| ms_clear m : man_step m (ManifestManager.clear_file_cache m)
| ms_evict m path : man_step m (ManifestManager.evict_file m path)
| ms_restart m m' : ManifestManager.load_or_create (Some (ManifestManager.file m)) = Ok m' → man_step m m'.

Lemma mgood_register m meta r m' :
  mgood m → meta_typed meta → id_ok meta → ManifestManager.register_sstable m meta None = (r, m') →
  len (ManifestManager.file m') <= u64_max → mgood m'.
Proof.
  intros Hg Hty Hid. unfold ManifestManager.register_sstable, ManifestManager.with_entry.
  destruct (encode_add_payload meta) as [p| |] eqn:Hp; cbn [mbind res_bind]; [|by intros [= <- <-]..].
  destruct (encode_entry ENTRY_KIND_ADD p) as [e| |] eqn:He; [|by intros [= <- <-]..].
  cbn [ManifestManager.append_manifest_entry]. unfold id_ok in Hid.
  assert (∀ s, agrees s (ManifestManager.state m) →
    levels_ok (ManifestState.levels s) (ManifestState.next_file_id s) → replay_entry s x01 p = Ok (replay_add s meta)) as Hrep.
  { intros s _ _. cbn [replay_entry]. by rewrite (add_payload_run meta). }
  rewrite checked_add_run by word_lia.
  simpl. destruct (ManifestState.next_file_id (ManifestManager.state m) <=? SSTableMeta.file_id meta) eqn:Hn;
    intros [= <- <-] Hlen; (eapply mgood_append; [done | exact He | exact Hlen|]);
    intros s Ha Hl; (exists (replay_add s meta); split; [by apply Hrep|]);
    pose proof (agrees_add s _ meta Ha Hl Hty Hid) as Hadd; cbv zeta in Hadd;
    rewrite Hn in Hadd; exact Hadd.
Qed.

Lemma mgood_compact m expected inputs outputs r m' :
  mgood m → Forall meta_typed inputs → Forall meta_typed outputs → Forall id_ok outputs →
  ManifestManager.publish_compaction m expected inputs outputs None = (r, m') →
  len (ManifestManager.file m') <= u64_max → mgood m'.
Proof.
  intros Hg Hin Hout Hid. unfold ManifestManager.publish_compaction.
  case_bool_decide as Hex; cbn [negb]; [|by intros [= <- <-]].
  set (rs := (λ x, _) <$> inputs). assert (Forall removal_typed rs) as Hrs.
  { unfold rs. apply Forall_fmap. eapply Forall_impl; [exact Hin|]. by intros x (? & ? & _). }
  unfold ManifestManager.with_entry. destruct (ManifestManager.compaction_entry rs outputs) as [e| |] eqn:He;
    [|by intros [= <- <-]..].
  cbn [ManifestManager.append_manifest_entry]. intros [= <- <-] Hlen. unfold ManifestManager.compaction_entry in He.
  destruct (Z.leb_spec (len outputs) 1) as [Hn|Hn].
  - apply res_bind_Ok in He as (p & Hp & He). eapply mgood_append; [done | exact He | exact Hlen|].
    intros s Ha Hl. eexists. split; [|by apply agrees_compaction]. unfold ENTRY_KIND_COMPACTION. cbn [replay_entry].
    rewrite (compaction_payload_run rs (head outputs)); [|done| |done].
    + cbn [mbind res_bind]. do 2 f_equal. destruct outputs as [|o [|o2 outputs]]; [done | done |].
      rewrite !len_cons in Hn. pose proof (len_nonneg outputs). lia.
    + intros x Hx. destruct outputs as [|o outputs]; [done|]. injection Hx as ->. by apply Forall_cons_1 in Hout as [? _].
  - apply res_bind_Ok in He as (p & Hp & (_ & Hc%guard_err_Ok%Z.leb_le & (bs & Hbs & He)%res_bind_Ok)%res_bind_Ok).
    eapply mgood_append; [done | exact He | exact Hlen|].
    intros s Ha Hl. eexists. split; [|by apply agrees_compaction]. unfold ENTRY_KIND_COMPACTION_OUTPUTS. cbn [replay_entry].
    by rewrite (compaction_outputs_run rs outputs).
Qed.

(** An operation that appends one entry and then changes the state to [st]. *)
Lemma mgood_simple m k p st (cache : ManifestManager.t → LruFileCache.t bytes) (r' : res unit) m' :
  mgood m → (∀ s, agrees s (ManifestManager.state m) →
    levels_ok (ManifestState.levels s) (ManifestState.next_file_id s) →
    ∃ s', replay_entry s k p = Ok s' ∧ agrees s' (st (ManifestManager.state m)) ∧
          levels_ok (ManifestState.levels s') (ManifestState.next_file_id s')) →
  ManifestManager.with_entry m (encode_entry k p) None
    (λ m, (Ok tt, ManifestManager.mk (ManifestManager.file m) (st (ManifestManager.state m)) (cache m)))
    = (r', m') →
  len (ManifestManager.file m') <= u64_max → mgood m'.
Proof.
  intros Hg Hk. unfold ManifestManager.with_entry. destruct (encode_entry k p) as [e| |] eqn:He;
    [|by intros [= <- <-]..].
  cbn [ManifestManager.append_manifest_entry]. intros [= <- <-] Hlen. by eapply mgood_append.
Qed.

Lemma mgood_remove m lv id r m' :
  mgood m → is_u32 lv → is_u64 id → ManifestManager.remove_sstable m lv id None = (r, m') →
  len (ManifestManager.file m') <= u64_max → mgood m'.
Proof.
  intros Hg Hlv Hid He Hlen.
  set (path := SSTableMeta.path <$> (files ← om_get lv (ManifestState.levels (ManifestManager.state m)); om_get id files)).
  eapply (mgood_simple m ENTRY_KIND_REMOVE (encode_remove_payload lv id)
    (λ st, ManifestState.set_levels st (remove_file (ManifestState.levels st) lv id))
    (λ m, match path with Some p => LruFileCache.remove (ManifestManager.file_cache m) p
          | None => ManifestManager.file_cache m end)); [exact Hg | | | exact Hlen].
  - intros s [Hv Ha Hrc Hl Hn] Hlok. eexists. split.
    { unfold ENTRY_KIND_REMOVE. cbn [replay_entry]. rewrite remove_payload_run by done. reflexivity. }
    split; [split; simpl; rewrite ?Hl; done | by apply remove_file_ok].
  - rewrite <- He. unfold ManifestManager.remove_sstable. fold path. unfold ManifestManager.with_entry.
    destruct (encode_entry _ _); [|done|done]. simpl. by destruct path.
Qed.

Lemma mgood_man_step m m' : man_step m m' → mgood m → mgood m'.
Proof.
  intros Hs Hg. destruct Hs as [m r m' He | m meta r m' Hty Hid He Hlen | m ex ins outs r m' Hi Ho Hid He Hlen
    | m lv id r m' Hlv Hid He Hlen | m lsn seg r m' Hl Hs He Hlen | m c r m' Hc He Hlen
    | open m path r m' He | m | m path | m m' He].
  - unfold ManifestManager.allocate_file_id in He. destruct (checked_add _ 1) as [n|] eqn:En; injection He as <- <-; [|done].
    apply checked_add_Some in En as [-> _]. destruct Hg as (s & Hr & [Hv Ha Hrc Hl Hn] & Hlv). exists s.
    split_and!; [done | | done]. split; simpl; try done. lia.
  - by eapply mgood_register.
  - exact (mgood_compact m ex ins outs r m' Hg Hi Ho Hid He Hlen).
  - exact (mgood_remove m lv id r m' Hg Hlv Hid He Hlen).
  - eapply (mgood_simple m ENTRY_KIND_CHECKPOINT (encode_checkpoint_payload lsn seg)
      (λ s, ManifestState.mk (ManifestState.version s) (ManifestState.next_file_id s) lsn seg
              (ManifestState.recovery_checkpoint s) (ManifestState.levels s))
      ManifestManager.file_cache); [exact Hg | | exact He | exact Hlen].
    intros s [Hv Ha Hrc Hle Hn] Hlok. eexists. split.
    { unfold ENTRY_KIND_CHECKPOINT. cbn [replay_entry]. rewrite checkpoint_payload_run by done. reflexivity. }
    split; [split; simpl; done | done].
  - eapply (mgood_simple m ENTRY_KIND_RECOVERY_CHECKPOINT (encode_recovery_payload c)
      (λ s, ManifestState.set_recovery s c) ManifestManager.file_cache); [exact Hg | | exact He | exact Hlen].
    intros s [Hv Ha Hrc Hle Hn] Hlok. eexists. split.
    { unfold ENTRY_KIND_RECOVERY_CHECKPOINT. cbn [replay_entry]. rewrite recovery_payload_run by done. reflexivity. }
    split; [split; simpl; done | done].
  - unfold ManifestManager.get_or_open_file in He. destruct (LruFileCache.get_or_open _ _ _). by injection He as <- <-.
  - done.
  - done.
  - unfold ManifestManager.load_or_create in He. apply res_bind_Ok in He as (s & Hr & [= <-]).
    destruct Hg as (s0 & Hr0 & Ha & Hl). simpl in Hr. rewrite Hr0 in Hr. injection Hr as ->. exists s.
    split_and!; [done | | done]. destruct Ha as [_ _ _ _ Hn]. split; simpl; try done. lia.
Qed.

Lemma mgood_fresh m : ManifestManager.load_or_create None = Ok m → mgood m.
Proof.
  intros [= <-]. exists ManifestState.default_. split_and!; [done | split; simpl; try done; lia | apply levels_ok_nil].
Qed.
Definition man_reachable m : Prop :=
  ∃ m0, ManifestManager.load_or_create None = Ok m0 ∧ rtc man_step m0 m.
Lemma man_reachable_good m : man_reachable m → mgood m.
Proof.
  intros (m0 & Hm0%mgood_fresh & Hs). revert Hm0. induction Hs as [m|x y z Hxy _ IH]; [done|].
  intros Hx. by eapply IH, mgood_man_step.
Qed.

(** ** Properties *)

(** C26.  What a restart replays is what was in memory: after any sequence of
    registrations, compactions, removals, checkpoints, cache operations and
    restarts, loading the manifest file succeeds and gives the same tables on
    the same levels, the same active log segment and the same recovery
    checkpoint; the next file id is at most the one in memory (ids handed out
    but never registered are not recorded). *)
Theorem manifest_restart_agrees m :
  man_reachable m →
  ∃ m', ManifestManager.load_or_create (Some (ManifestManager.file m)) = Ok m' ∧
    let old := ManifestManager.snapshot m in
    let new := ManifestManager.snapshot m' in
    ManifestSnapshot.version new = ManifestSnapshot.version old ∧
    ManifestSnapshot.levels new = ManifestSnapshot.levels old ∧
    ManifestSnapshot.active_wal_segment new = ManifestSnapshot.active_wal_segment old ∧
    ManifestSnapshot.recovery_checkpoint new = ManifestSnapshot.recovery_checkpoint old ∧
    ManifestSnapshot.next_file_id new <= ManifestSnapshot.next_file_id old.
Proof.
  intros (s & Hr & [Hv Ha Hrc Hl Hn] & _)%man_reachable_good. unfold ManifestManager.load_or_create.
  simpl. rewrite Hr. eexists. split; [reflexivity|]. simpl. rewrite Hl. split_and!; try done. lia.
Qed.

(** C27.  File ids are never reused while they are in the manifest: an id the
    manager hands out belongs to no registered table, and levels hold no
    empty level and no table under another table's level or id. *)
Theorem manifest_fresh_ids m id m' :
  man_reachable m → ManifestManager.allocate_file_id m = (Ok id, m') →
  ∀ level files k meta,
    om_get level (ManifestState.levels (ManifestManager.state m)) = Some files →
    om_get k files = Some meta →
    files ≠ [] ∧ SSTableMeta.level meta = level ∧ SSTableMeta.file_id meta = k ∧ k < id.
Proof.
  intros (s & _ & [_ _ _ Hl Hn] & [_ Hf Hm])%man_reachable_good Ha level files k meta Hg Hk.
  unfold ManifestManager.allocate_file_id in Ha. destruct (checked_add _ 1); [|done]. injection Ha as <- _.
  rewrite Hl in Hf, Hm. destruct (Hm _ _ _ _ Hg Hk) as (? & ? & ?). destruct (Hf _ _ Hg) as [? _].
  split_and!; try done. lia.
Qed.

(** C35.  An entry is replayed whole or not at all: when the write of a
    registration stops in the middle of the entry, the next start refuses the
    file as corrupted instead of replaying what was written of it. *)
Theorem manifest_torn_entry_fails m meta payload entry kind n :
  man_reachable m → encode_add_payload meta = Ok payload →
  encode_entry ENTRY_KIND_ADD payload = Ok entry →
  (0 < n < length entry)%nat → len (ManifestManager.file m ++ entry) <= u64_max →
  let m' := snd (ManifestManager.register_sstable m meta (Some (kind, n))) in
  ∃ msg, ManifestManager.load_or_create (Some (ManifestManager.file m')) = Err (Corrupted msg).
Proof.
  intros (s & Hr & _)%man_reachable_good Hp He Hn Hlen.
  destruct (replay_torn _ _ _ _ _ n Hr He Hlen Hn) as [msg Ht]. exists msg.
  unfold ManifestManager.register_sstable, ManifestManager.with_entry, ManifestManager.load_or_create.
  rewrite Hp. cbn [mbind res_bind]. rewrite He. simpl. by rewrite Ht.
Qed.
End manager_theory.

(** ** Totality *)

Section manifest_total.
Context `{Crc32Spec}.

Lemma read_field_np bs : read_field bs ≠ Panic.
Proof. unfold read_field. no_panic. Qed.
Lemma left_np bs : left bs ≠ Panic.
Proof. done. Qed.
Hint Resolve read_field_np left_np : cere.
Lemma read_string_np bs : read_string bs ≠ Panic.
Proof. unfold read_string. apply reader_bind_np; [auto with cere | intros x r _]. no_panic. Qed.
Hint Resolve read_string_np : cere.

Ltac go_np := repeat (apply reader_bind_np; [solve [auto with cere] | intros ? ? _]).
Lemma decode_add_np payload : decode_add_payload payload ≠ Panic.
Proof.
  unfold decode_add_payload. apply res_fmap_np. go_np.
  apply reader_bind_np; [case_match; go_np; done|]. intros [bo bs] ? _. go_np.
  apply reader_bind_np; [case_match; go_np; done|]. by intros [sk lk] ? _.
Qed.
Lemma read_removal_np bs : read_removal bs ≠ Panic.
Proof. unfold read_removal. go_np. done. Qed.
Lemma decode_compaction_np payload : decode_compaction_payload payload ≠ Panic.
Proof.
  unfold decode_compaction_payload. apply res_fmap_np. go_np.
  apply reader_bind_np; [apply read_many_np, read_removal_np|]. intros rs ? _.
  apply reader_bind_np; [done|]. intros rem ? _. apply reader_bind_np; [|done].
  destruct rem; [done|]. apply lift_np, res_fmap_np, decode_add_np.
Qed.
Lemma read_output_np bs : read_output bs ≠ Panic.
Proof. unfold read_output. go_np. apply lift_np, decode_add_np. Qed.
Lemma decode_outputs_np payload : decode_compaction_outputs payload ≠ Panic.
Proof.
  unfold decode_compaction_outputs. apply res_fmap_np. go_np.
  apply reader_bind_np; [apply read_many_np, read_removal_np|]. intros rs ? _. go_np.
  apply reader_bind_np; [apply read_many_np, read_output_np|]. intros outs ? _. go_np. done.
Qed.
Ltac fixed_np :=
  apply res_bind_no_panic; [apply guard_err_np|];
  intros ? Hg%guard_err_Ok%Z.eqb_eq;
  repeat (apply res_bind_no_panic; [apply res_fmap_np, slice_np; lia | intros ? _]); done.
Lemma replay_entry_np s k p : replay_entry s k p ≠ Panic.
Proof.
  unfold replay_entry. case_match; try done; apply res_bind_no_panic; try done; try (by intros [? ?] _).
  - apply decode_add_np.
  - unfold decode_remove_payload. fixed_np.
  - unfold decode_checkpoint_payload. fixed_np.
  - apply decode_compaction_np.
  - unfold decode_recovery_payload. fixed_np.
  - apply decode_outputs_np.
Qed.
Lemma decode_entry_np data off : 0 <= off → decode_entry data off ≠ Panic.
Proof.
  intros Ho. unfold decode_entry. apply res_bind_no_panic; [apply ok_or_np|].
  intros he [-> _]%ok_or_Ok%checked_add_Some. apply res_bind_no_panic; [apply guard_err_np|].
  intros _ Hh%guard_err_Ok%Z.leb_le. apply res_bind_no_panic.
  { unfold byte_at. destruct (data !! Z.to_nat off) eqn:E; [done|]. apply lookup_ge_None in E. unfold len in Hh. lia. }
  intros k _. apply res_bind_no_panic; [apply res_fmap_np, slice_np; lia|]. intros n Hn.
  assert (0 <= n) as Hn0.
  { destruct (slice data (off + 1) (off + 5)); [|done|done]. injection Hn as <-. apply from_be_range. }
  apply res_bind_no_panic; [apply ok_or_np|]. intros pe [-> _]%ok_or_Ok%checked_add_Some.
  apply res_bind_no_panic; [apply ok_or_np|]. intros ce [-> _]%ok_or_Ok%checked_add_Some.
  apply res_bind_no_panic; [apply guard_err_np|]. intros _ Hc%guard_err_Ok%Z.leb_le.
  apply res_bind_no_panic; [apply res_fmap_np, slice_np; lia|]. intros st _.
  apply res_bind_no_panic; [apply slice_np; lia|]. intros cv _.
  apply res_bind_no_panic; [apply guard_err_np|]. intros _ _.
  apply res_bind_no_panic; [apply slice_np; lia | done].
Qed.

Lemma replay_loop_np fuel data off s : 0 <= off → replay_loop fuel data off s ≠ Panic.
Proof.
  revert off s. induction fuel as [|fuel IH]; intros off s Ho; simpl; [done|].
  destruct (off <? len data); [|done].
  apply res_bind_no_panic; [by apply decode_entry_np|]. intros [[k p] n] Hd.
  apply res_bind_no_panic; [apply replay_entry_np|]. intros s' _. apply IH.
  destruct (decode_entry_app data [] off k p n Ho Hd) as [_ ?]. lia.
Qed.
(** Two runs with enough iterations for what is left of the file agree. *)
Lemma replay_loop_fuel fuel fuel' data off s :
  0 <= off → (Z.to_nat (len data - off) <= fuel)%nat → (Z.to_nat (len data - off) <= fuel')%nat →
  replay_loop fuel data off s = replay_loop fuel' data off s.
Proof.
  revert fuel' off s. induction fuel as [|fuel IH]; intros fuel' off s Ho Hf Hf'.
  - destruct fuel'; simpl; [done|]. by rewrite (proj2 (Z.ltb_ge _ _)) by lia.
  - destruct (Z.ltb_spec off (len data)) as [Hlt|Hge].
    2:{ simpl. rewrite (proj2 (Z.ltb_ge _ _)) by lia. destruct fuel'; simpl; [done|].
        by rewrite (proj2 (Z.ltb_ge _ _)) by lia. }
    destruct fuel' as [|fuel']; [lia|]. simpl. rewrite (proj2 (Z.ltb_lt _ _)) by lia.
    destruct (decode_entry data off) as [[[k p] n]| |] eqn:Hd; cbn [mbind res_bind]; [|done|done].
    destruct (decode_entry_app data [] off k p n Ho Hd) as [_ ?].
    destruct (replay_entry s k p); cbn [mbind res_bind]; [|done|done]. apply IH; lia.
Qed.

(** Replaying a manifest ends with a state or an error on every input: no
    content makes it panic, and the number of iterations it is given (the
    length of the file) always lets it reach the end of the file or an error,
    so that more iterations never change the result. *)
Theorem manifest_replay_total data :
  replay_manifest data ≠ Panic ∧
  ∀ fuel, (length data <= fuel)%nat →
    replay_loop fuel data 0 ManifestState.default_ = replay_manifest data.
Proof.
  split; [by apply replay_loop_np|]. intros fuel Hf. apply replay_loop_fuel; unfold len; lia.
Qed.
End manifest_total.

(** ** The file cache *)

Section lru.
Context {H : Type} (open : bytes → res H).
Implicit Types (c : LruFileCache.t H) (p : bytes).

(** The order lists exactly the cached paths, once each, and the cache holds
    no more handles than its capacity (one, for a capacity of zero). *)
Record lru_inv c : Prop := {
  lru_wf : om_wf (LruFileCache.handles c);
  lru_nodup : NoDup (LruFileCache.order c);
  lru_same : ∀ p, p ∈ LruFileCache.order c ↔ is_Some (om_get p (LruFileCache.handles c));
  lru_bound : len (LruFileCache.handles c) <= Z.max 1 (LruFileCache.capacity c)
}.

Lemma retain_not_spec p q l : q ∈ LruFileCache.retain_not p l ↔ q ∈ l ∧ q ≠ p.
Proof.
  unfold LruFileCache.retain_not. rewrite !list_elem_of_In, filter_In, negb_true_iff. unfold bytes_eqb.
  by rewrite bool_decide_eq_false.
Qed.
Lemma filter_sublist {A} (f : A → bool) (l : list A) : List.filter f l `sublist_of` l.
Proof. induction l as [|x l IH]; simpl; [done|]. destruct (f x); by constructor. Qed.
Lemma retain_not_nodup p l : NoDup l → NoDup (LruFileCache.retain_not p l).
Proof. intros. eapply sublist_NoDup; [done | apply filter_sublist]. Qed.
Lemma om_remove_len (k : bytes) (m : ordmap bytes H) : len (om_remove k m) <= len m.
Proof. unfold len, om_remove. pose proof (sublist_length _ _ (filter_sublist (λ kv, match kcmp k (fst kv) with Eq => false | _ => true end) m)). lia. Qed.
Lemma om_remove_len_lt (k : bytes) (m : ordmap bytes H) :
  is_Some (om_get k m) → len (om_remove k m) < len m.
Proof.
  induction m as [|[k' v] m IH]; [by intros [? ?]|]. pose proof (om_remove_len k m) as Hle.
  cbn [om_get]. unfold om_remove in *. cbn [List.filter fst].
  destruct (kcmp k k'); rewrite ?len_cons; intros Hs; [lia | specialize (IH Hs); lia | specialize (IH Hs); lia].
Qed.
Lemma om_insert_len (k : bytes) (v : H) m : len (om_insert k v m) <= 1 + len m.
Proof.
  induction m as [|[k' w] m IH]; cbn [om_insert]; [done|].
  destruct (kcmp k k'); rewrite ?len_cons; lia.
Qed.

Lemma lru_new n : 0 <= n → lru_inv (LruFileCache.new n).
Proof.
  intros Hn. split; simpl; [apply om_wf_nil | constructor | | rewrite len_nil; lia].
  intros p. rewrite elem_of_nil. split; [done | by intros [? ?]].
Qed.
Lemma lru_remove c p : lru_inv c → lru_inv (LruFileCache.remove c p).
Proof.
  intros [Hw Hn Hs Hb]. split; simpl; [by apply om_remove_wf | by apply retain_not_nodup | |].
  - intros q. rewrite retain_not_spec, Hs. destruct (decide (q = p)) as [->|Hne].
    + rewrite om_get_remove_eq. split; [by intros [_ ?] | by intros [? ?]].
    + rewrite om_get_remove_ne by done. naive_solver.
  - pose proof (om_remove_len p (LruFileCache.handles c)). lia.
Qed.
Lemma lru_evict c : lru_inv c → lru_inv (LruFileCache.evict_oldest c) ∧
  (LruFileCache.order c ≠ [] →
   len (LruFileCache.handles (LruFileCache.evict_oldest c)) < len (LruFileCache.handles c)).
Proof.
  intros [Hw Hn Hs Hb]. unfold LruFileCache.evict_oldest.
  destruct (LruFileCache.order c) as [|p l] eqn:E; [split; [by split; rewrite ?E | done]|].
  apply NoDup_cons in Hn as [Hp Hn]. assert (is_Some (om_get p (LruFileCache.handles c))) as Hpin
    by (apply Hs; by left).
  split; [|intros _; by apply om_remove_len_lt].
  split; simpl; [by apply om_remove_wf | done | |].
  - intros q. specialize (Hs q). rewrite elem_of_cons in Hs. destruct (decide (q = p)) as [->|Hne].
    + rewrite om_get_remove_eq. split; [done | by intros [? ?]].
    + rewrite om_get_remove_ne by done. rewrite <- Hs. naive_solver.
  - pose proof (om_remove_len p (LruFileCache.handles c)). lia.
Qed.
Lemma lru_nonempty c : lru_inv c → 0 < len (LruFileCache.handles c) → LruFileCache.order c ≠ [].
Proof.
  intros [_ _ Hs _] Hl. destruct (LruFileCache.handles c) as [|[k v] m] eqn:E; [by rewrite ?len_nil in Hl|].
  intros Ho. rewrite Ho in Hs. assert (k ∈ []) as []%not_elem_of_nil.
  apply Hs. cbn [om_get]. rewrite kcmp_refl. eauto.
Qed.

(** C36.  The file cache is a least-recently-used cache of bounded size.  A path
    asked for is served from the cache or opened, ends up cached and most
    recently used; every other cached path stays, except the least recently
    used one when the path is new and the cache is full; and the bookkeeping invariant holds. *)
Theorem lru_cache_correct c p r c' :
  lru_inv c → 0 <= LruFileCache.capacity c → LruFileCache.get_or_open open c p = (r, c') →
  lru_inv c' ∧ LruFileCache.capacity c' = LruFileCache.capacity c ∧
  match r with
  | Ok h =>
      om_get p (LruFileCache.handles c') = Some h ∧ last (LruFileCache.order c') = Some p ∧
      (om_get p (LruFileCache.handles c) = Some h ∨ open p = Ok h) ∧
      ∀ q, q ≠ p → om_get q (LruFileCache.handles c') = om_get q (LruFileCache.handles c) ∨
                   om_get p (LruFileCache.handles c) = None ∧ head (LruFileCache.order c) = Some q ∧
                   LruFileCache.capacity c <= len (LruFileCache.handles c)
  | _ => c' = c
  end.
Proof.
  intros Hi Hcap. unfold LruFileCache.get_or_open. destruct (om_get p (LruFileCache.handles c)) as [h|] eqn:Hg.
  { intros [= <- <-]. pose proof Hi as [Hw Hn Hs Hb]. split_and!; simpl; try done; auto.
    - split; simpl; [done | | |done].
      + apply NoDup_app. split_and!; [by apply retain_not_nodup | | apply NoDup_singleton].
        intros q [_ Hq]%retain_not_spec ->%list_elem_of_singleton. done.
      + intros q. rewrite elem_of_app, retain_not_spec, list_elem_of_singleton, Hs.
        destruct (decide (q = p)) as [->|]; [rewrite Hg; naive_solver | naive_solver].
    - by rewrite last_snoc. }
  destruct (open p) as [h|e|] eqn:Ho; [|by intros [= <- <-]..].
  set (c1 := if _ <=? _ then _ else c). intros [= <- <-].
  assert (lru_inv c1 ∧ LruFileCache.capacity c1 = LruFileCache.capacity c ∧
    (1 + len (LruFileCache.handles c1) <= Z.max 1 (LruFileCache.capacity c)) ∧
    om_get p (LruFileCache.handles c1) = None ∧
    ∀ q, om_get q (LruFileCache.handles c1) = om_get q (LruFileCache.handles c) ∨
         head (LruFileCache.order c) = Some q ∧ LruFileCache.capacity c <= len (LruFileCache.handles c))
    as (Hi1 & Hc1 & Hl1 & Hg1 & Hq1).
  { unfold c1. destruct (Z.leb_spec (LruFileCache.capacity c) (len (LruFileCache.handles c))) as [Hfull|Hfree];
      [|split_and!; auto; lia].
    destruct (lru_evict c Hi) as [Hi1 Hlt]. pose proof (lru_nonempty c Hi) as Hne. pose proof Hi as [_ _ _ Hb].
    split_and!; [done | by unfold LruFileCache.evict_oldest; destruct (LruFileCache.order c) | | |].
    - pose proof (len_nonneg (LruFileCache.handles c)).
      destruct (decide (len (LruFileCache.handles c) = 0)) as [Hz|Hz].
      + unfold LruFileCache.evict_oldest. destruct (LruFileCache.order c) as [|q l]; [lia|]. simpl.
        pose proof (om_remove_len q (LruFileCache.handles c)). lia.
      + specialize (Hlt (Hne ltac:(lia))). lia.
    - unfold LruFileCache.evict_oldest. destruct (LruFileCache.order c) as [|q l]; [done|]. simpl.
      destruct (decide (p = q)) as [->|]; [apply om_get_remove_eq | by rewrite om_get_remove_ne].
    - intros q. unfold LruFileCache.evict_oldest. destruct (LruFileCache.order c) as [|o l]; [auto|]. simpl.
      destruct (decide (q = o)) as [->|]; [auto | left; by apply om_get_remove_ne]. }
  pose proof Hi1 as [Hw Hn Hs Hb]. split_and!; simpl; auto.
  - split; simpl; [by apply om_insert_wf | | |].
    + apply NoDup_app. split_and!; [done | | apply NoDup_singleton].
      intros q Hq ->%list_elem_of_singleton. apply Hs in Hq as [? Hq]. congruence.
    + intros q. rewrite elem_of_app, list_elem_of_singleton, om_get_insert, Hs.
      case_decide; subst; [split; [by eauto | auto] | naive_solver].
    + pose proof (om_insert_len p h (LruFileCache.handles c1)). lia.
  - apply om_get_insert_eq.
  - by rewrite last_snoc.
  - intros q Hq. rewrite om_get_insert_ne by done. destruct (Hq1 q); auto.
Qed.
End lru.

(** ** Witnesses

    A manager that allocates an id, registers a table and marks a recovery
    checkpoint, with the checksum of the IEEE polynomial. *)

Definition man_sample_meta : SSTableMeta.t :=
  SSTableMeta.mk 1 0 [x61; x62] 3 [x61] [x7a] 40 16.
Definition man_sample_checkpoint : RecoveryCheckpoint := mkRecoveryCheckpoint 1 8 3.
Definition man_sample0 : ManifestManager.t :=
  ManifestManager.mk [] ManifestState.default_ (LruFileCache.new DEFAULT_FILE_CACHE_CAPACITY).
Definition man_sample1 : ManifestManager.t :=
  Eval vm_compute in snd (@ManifestManager.register_sstable ieee man_sample0 man_sample_meta None).
Definition man_sample2 : ManifestManager.t :=
  Eval vm_compute in
    snd (@ManifestManager.publish_recovery_checkpoint ieee man_sample1 man_sample_checkpoint None).
Definition man_sample_payload : bytes :=
  Eval vm_compute in match encode_add_payload man_sample_meta with Ok p => p | _ => [] end.
Definition man_sample_entry : bytes :=
  Eval vm_compute in
    match @encode_entry ieee ENTRY_KIND_ADD man_sample_payload with Ok p => p | _ => [] end.

Lemma man_sample_meta_typed : meta_typed man_sample_meta.
Proof. unfold meta_typed. repeat split; try (vm_compute; congruence). Qed.
Lemma man_sample_step1 :
  @ManifestManager.register_sstable ieee man_sample0 man_sample_meta None = (Ok tt, man_sample1).
Proof. vm_compute. reflexivity. Qed.
Lemma man_sample_step2 :
  @ManifestManager.publish_recovery_checkpoint ieee man_sample1 man_sample_checkpoint None
  = (Ok tt, man_sample2).
Proof. vm_compute. reflexivity. Qed.
Lemma man_sample_reachable : @man_reachable ieee man_sample2.
Proof.
  exists man_sample0. split; [reflexivity|].
  eapply rtc_l; [eapply ms_register; [exact man_sample_meta_typed | by vm_compute | exact man_sample_step1 | by vm_compute]|].
  eapply rtc_l; [eapply ms_recovery; [| exact man_sample_step2 | by vm_compute]|constructor].
  repeat split; vm_compute; congruence.
Qed.

Lemma manifest_restart_agrees_witness :
  ∃ m', @ManifestManager.load_or_create ieee (Some (ManifestManager.file man_sample2)) = Ok m' ∧
    ManifestSnapshot.levels (ManifestManager.snapshot m') = [(0, [man_sample_meta])] ∧
    ManifestSnapshot.recovery_checkpoint (ManifestManager.snapshot m') = Some man_sample_checkpoint.
Proof.
  destruct (@manifest_restart_agrees ieee ieee_spec man_sample2 man_sample_reachable)
    as (m' & Hm' & _ & Hl & _ & Hr & _).
  exists m'. split_and!; [exact Hm' | rewrite Hl; reflexivity | rewrite Hr; reflexivity].
Defined.

Lemma manifest_fresh_ids_witness :
  fst (ManifestManager.allocate_file_id man_sample2) = Ok 2 ∧ SSTableMeta.file_id man_sample_meta < 2.
Proof.
  split; [reflexivity|].
  apply (@manifest_fresh_ids ieee ieee_spec man_sample2 2
    (snd (ManifestManager.allocate_file_id man_sample2)) man_sample_reachable)
    with (level := 0) (files := [(1, man_sample_meta)]) (k := 1) (meta := man_sample_meta);
    reflexivity.
Defined.

Lemma manifest_torn_entry_fails_witness :
  ∃ msg, @ManifestManager.load_or_create ieee
    (Some (ManifestManager.file
      (snd (@ManifestManager.register_sstable ieee man_sample2 man_sample_meta (Some (OtherIo, 6%nat))))))
    = Err (Corrupted msg).
Proof.
  apply (@manifest_torn_entry_fails ieee ieee_spec man_sample2 man_sample_meta man_sample_payload
    man_sample_entry OtherIo 6 man_sample_reachable);
    [vm_compute; reflexivity | vm_compute; reflexivity | vm_compute; lia | vm_compute; congruence].
Defined.

(** A full cache of one handle: opening another path evicts the first. *)
Definition lru_sample : LruFileCache.t bytes := LruFileCache.mk [([x61], [x01])] [[x61]] 1.
Lemma lru_sample_inv : lru_inv lru_sample.
Proof.
  split; simpl; [repeat constructor | apply NoDup_singleton | | vm_compute; congruence].
  intros p. rewrite list_elem_of_singleton. unfold kcmp. simpl.
  destruct (bytes_cmp p [x61]) eqn:E; [apply bytes_cmp_eq in E; naive_solver|..];
    (split; [intros ->; discriminate | by intros [? ?]]).
Qed.
Lemma lru_cache_correct_witness :
  let c' := LruFileCache.mk [([x62], [x62])] [[x62]] 1 in
  LruFileCache.get_or_open Ok lru_sample [x62] = (Ok [x62], c') ∧ lru_inv c'.
Proof.
  split; [reflexivity|].
  apply (lru_cache_correct Ok lru_sample [x62] (Ok [x62])); [exact lru_sample_inv | vm_compute; congruence | reflexivity].
Defined.
