(* ===== verification/Admission.v ===== *)
(** * Write admission: [src/src/storage/writemanager/admission.rs]

    The bounded queue in front of the writer.  A caller takes a slot and some
    of the byte budget (two semaphores), then, under the lock, a ticket and a
    place in the queue; a single runner drains the queue in batches and
    completes the requests in ticket order.  The operations are definitions on
    the state behind the lock; the interleavings of callers, cancellations and
    the runner are the steps of [adm_step]. *)

From stdpp Require Import relations numbers list.
From S2P Require Import Prelude Bytes.

(** ** The queue *)

Definition MAX_ADMITTED_REQUESTS : Z := 64.
Definition ADMITTED_BYTE_BUDGET : Z := 16 * 1024 * 1024.
Definition MAX_DRAIN_REQUESTS : Z := 64.
Definition MAX_DRAIN_BYTES : Z := ADMITTED_BYTE_BUDGET.

(** [api::BatchOperation]. *)
Inductive BatchOperation : Type :=
| BatchPut (key value : bytes)
| BatchDelete (key : bytes).

(** The permits a request owns are released when it is dropped. *)
Module Request.
Record t : Type := mk {
  operations : list BatchOperation;
  ticket : Z;
  slot_permits : Z;
  byte_permits : Z;
  byte_weight : Z
}.
End Request.

Module Enqueued.
Record t : Type := mk { ticket : Z; should_start_runner : bool }.
End Enqueued.

Module AdmissionQueue.
(** [State] together with the two semaphores, by the permits they have left. *)
Record t : Type := mk {
  requests : list Request.t;
  running : bool;
  next_ticket : Z;
  completed_ticket : Z;
  slots : Z;
  bytes : Z
}.

Definition new : t := mk [] false 0 0 MAX_ADMITTED_REQUESTS ADMITTED_BYTE_BUDGET.

Definition set_slots (q : t) (n : Z) : t :=
  mk (requests q) (running q) (next_ticket q) (completed_ticket q) n (bytes q).
Definition set_bytes (q : t) (n : Z) : t :=
  mk (requests q) (running q) (next_ticket q) (completed_ticket q) (slots q) n.

(** [enqueue] suspends twice; its three parts run between the suspensions. *)
Definition byte_permits (estimated_bytes : Z) : Z :=
  Z.max (Z.min estimated_bytes ADMITTED_BYTE_BUDGET) 1.
(** The semaphores hand out permits only when there are enough. *)
Definition acquire_slot (q : t) : option t :=
  if 1 <=? slots q then Some (set_slots q (slots q - 1)) else None.
Definition acquire_bytes (q : t) (estimated_bytes : Z) : option t :=
  if byte_permits estimated_bytes <=? bytes q
  then Some (set_bytes q (bytes q - byte_permits estimated_bytes)) else None.
Definition release (q : t) (slot_permits byte_permits : Z) : t :=
  set_bytes (set_slots q (slots q + slot_permits)) (bytes q + byte_permits).
(** Under the lock; a failure drops the request's permits. *)
Definition enqueue_locked (q : t) (operations : list BatchOperation) (estimated_bytes : Z)
    : res Enqueued.t * t :=
  match checked_add (next_ticket q) 1 with
  | None => (Err (StorageError "write admission ticket exhausted"),
             release q 1 (byte_permits estimated_bytes))
  | Some ticket =>
      let request := Request.mk operations ticket 1 (byte_permits estimated_bytes) estimated_bytes in
      (Ok (Enqueued.mk ticket (negb (running q))),
       mk (requests q ++ [request]) true ticket (completed_ticket q) (slots q) (bytes q))
  end.

(** The drain loop: what is taken so far and its weight, what is left. *)
Fixpoint drain_loop (max_requests max_bytes : Z) (waiting taken : list Request.t) (weight : Z)
    : list Request.t * list Request.t :=
  match waiting with
  | [] => (taken, [])
  | next :: rest =>
      if len taken <? max_requests then
        if negb (len taken =? 0)
           && ((saturating_sub max_bytes weight <? Request.byte_weight next)
               || existsb (λ r, max_bytes <? Request.byte_weight r) taken)
        then (taken, waiting)
        else
          let weight := saturating_add weight (Request.byte_weight next) in
          if max_bytes <? Request.byte_weight next then (taken ++ [next], rest)
          else drain_loop max_requests max_bytes rest (taken ++ [next]) weight
      else (taken, waiting)
  end.
Definition drain_ready (q : t) (max_requests max_bytes : Z) : option (list Request.t) * t :=
  if len (requests q) =? 0 then
    (None, mk (requests q) false (next_ticket q) (completed_ticket q) (slots q) (bytes q))
  else
    let '(taken, rest) := drain_loop max_requests max_bytes (requests q) [] 0 in
    (Some taken, mk rest (running q) (next_ticket q) (completed_ticket q) (slots q) (bytes q)).

(** The request is dropped at the end, whatever the outcome; its caller
    receives [result] when the outcome is [Ok]. *)
Definition complete (q : t) (request : Request.t) : res unit * t :=
  let ticket := Request.ticket request in
  let released := release q (Request.slot_permits request) (Request.byte_permits request) in
  if negb (ticket =? wrap64 (completed_ticket q + 1)) || (next_ticket q <? ticket) then
    (Err (StorageError "out-of-order write completion"), released)
  else
    (Ok tt, mk (requests released) (running released) (next_ticket released) ticket
              (slots released) (bytes released)).

Definition last_admitted_ticket (q : t) : Z := next_ticket q.
(** What [await_completed_through] waits for. *)
Definition completed_through (q : t) (ticket : Z) : bool := ticket <=? completed_ticket q.
End AdmissionQueue.

(** ** Interleavings *)

(** A caller inside [enqueue]: it has its slot, or its bytes as well. *)
Inductive Caller : Type :=
| HasSlot (ops : list BatchOperation) (estimated : Z)
| HasBytes (ops : list BatchOperation) (estimated : Z).

(** The queue, the callers inside [enqueue], the batches of the runners, and
    two histories: what was admitted, by ticket, and what was completed, with
    the outcome of [complete]. *)
Record adm_system : Type := mkSys {
  queue : AdmissionQueue.t;
  callers : list Caller;
  runners : list (list Request.t);
  admitted : list (Z * list BatchOperation);
  executed : list (Z * list BatchOperation * res unit)
}.
Definition adm_initial : adm_system := mkSys AdmissionQueue.new [] [] [] [].

Definition started (r : res Enqueued.t) (runners : list (list Request.t)) : list (list Request.t) :=
  match r with
  | Ok e => if Enqueued.should_start_runner e then runners ++ [[]] else runners
  | _ => runners
  end.
Definition recorded (r : res Enqueued.t) (ops : list BatchOperation)
    : list (Z * list BatchOperation) :=
  match r with Ok e => [(Enqueued.ticket e, ops)] | _ => [] end.

(** A new caller gets a slot; a caller is cancelled while it waits for bytes. *)
Inductive outside_step : adm_system → adm_system → Prop :=
| as_slot q q' cs rs ad ex ops est :
    is_u64 est → AdmissionQueue.acquire_slot q = Some q' →
    outside_step (mkSys q cs rs ad ex) (mkSys q' (cs ++ [HasSlot ops est]) rs ad ex)
| as_cancel q l ops est r rs ad ex :
    outside_step (mkSys q (l ++ HasSlot ops est :: r) rs ad ex)
                 (mkSys (AdmissionQueue.release q 1 0) (l ++ r) rs ad ex).

(** What happens without new callers: an admitted caller goes on, a runner
    drains the queue or completes the next request of its batch. *)
Inductive inside_step : adm_system → adm_system → Prop :=
| as_bytes q q' l ops est r rs ad ex :
    AdmissionQueue.acquire_bytes q est = Some q' →
    inside_step (mkSys q (l ++ HasSlot ops est :: r) rs ad ex)
                (mkSys q' (l ++ HasBytes ops est :: r) rs ad ex)
| as_enqueue q q' l ops est r rs ad ex o :
    AdmissionQueue.enqueue_locked q ops est = (o, q') →
    inside_step (mkSys q (l ++ HasBytes ops est :: r) rs ad ex)
                (mkSys q' (l ++ r) (started o rs) (ad ++ recorded o ops) ex)
| as_drain q q' cs l taken r ad ex :
    AdmissionQueue.drain_ready q MAX_DRAIN_REQUESTS MAX_DRAIN_BYTES = (Some taken, q') →
    inside_step (mkSys q cs (l ++ [] :: r) ad ex) (mkSys q' cs (l ++ taken :: r) ad ex)
| as_stop q q' cs l r ad ex :
    AdmissionQueue.drain_ready q MAX_DRAIN_REQUESTS MAX_DRAIN_BYTES = (None, q') →
    inside_step (mkSys q cs (l ++ [] :: r) ad ex) (mkSys q' cs (l ++ r) ad ex)
| as_complete q q' cs l req batch r ad ex o :
    AdmissionQueue.complete q req = (o, q') →
    inside_step (mkSys q cs (l ++ (req :: batch) :: r) ad ex)
                (mkSys q' cs (l ++ batch :: r) ad
                   (ex ++ [(Request.ticket req, Request.operations req, o)])).

Definition adm_step (s s' : adm_system) : Prop := outside_step s s' ∨ inside_step s s'.
Definition adm_reachable (s : adm_system) : Prop := rtc adm_step adm_initial s.

(** ** Draining *)

Definition total {A} (f : A → Z) (l : list A) : Z := foldr (λ x acc, f x + acc) 0 l.
Lemma total_nil {A} (f : A → Z) : total f [] = 0.
Proof. done. Qed.
Lemma total_cons {A} (f : A → Z) x l : total f (x :: l) = f x + total f l.
Proof. done. Qed.
Arguments total : simpl never.
Lemma total_app {A} (f : A → Z) l1 l2 : total f (l1 ++ l2) = total f l1 + total f l2.
Proof. induction l1 as [|x l1 IH]; [done|]. cbn [app]. rewrite !total_cons. lia. Qed.

Section drain.
Import AdmissionQueue.
Context (max_requests max_bytes : Z).

Lemma drain_loop_split waiting taken weight batch rest :
  drain_loop max_requests max_bytes waiting taken weight = (batch, rest) →
  batch ++ rest = taken ++ waiting ∧ ∃ more, batch = taken ++ more.
Proof.
  revert taken weight. induction waiting as [|next waiting IH]; intros taken weight; simpl.
  - intros [= <- <-]. split; [done | exists []; by rewrite app_nil_r].
  - destruct (len taken <? max_requests); [|intros [= <- <-]; split; [done | exists []; by rewrite app_nil_r]].
    case_match; [intros [= <- <-]; split; [done | exists []; by rewrite app_nil_r]|].
    case_match; [intros [= <- <-]; split; [by rewrite <- (assoc_L (++)) | by eexists]|].
    intros [-> [more ->]]%IH. split; [by rewrite <- (assoc_L (++))|].
    exists (next :: more). by rewrite <- (assoc_L (++)).
Qed.

(** A batch that started within the limits stays within them, or is one
    request that is larger than the limit on its own. *)
Definition batch_ok (batch : list Request.t) : Prop :=
  len batch <= max_requests ∧
  (total Request.byte_weight batch <= max_bytes ∨
   ∃ r, batch = [r] ∧ max_bytes < Request.byte_weight r).
Lemma drain_loop_bounds waiting taken weight batch rest :
  0 <= max_bytes <= u64_max →
  Forall (λ r, 0 <= Request.byte_weight r) (taken ++ waiting) →
  len taken <= max_requests → weight = total Request.byte_weight taken → weight <= max_bytes →
  drain_loop max_requests max_bytes waiting taken weight = (batch, rest) → batch_ok batch.
Proof.
  intros Hmax. revert taken weight. induction waiting as [|next waiting IH]; intros taken weight Hf Hl -> Hw; simpl.
  { intros [= <- <-]. split; auto. }
  destruct (Z.ltb_spec (len taken) max_requests) as [Hlt|]; [|intros [= <- <-]; split; auto].
  pose proof Hf as [Hft [Hn _]%Forall_cons_1]%Forall_app.
  destruct (negb (len taken =? 0) && _) eqn:Ex; [intros [= <- <-]; split; auto|].
  destruct (Z.ltb_spec max_bytes (Request.byte_weight next)) as [Hbig|Hsmall].
  - intros [= <- <-]. split; [rewrite len_app, len_cons, len_nil; lia|].
    destruct taken as [|r taken]; [right; by exists next|].
    exfalso. rewrite len_cons in Ex. pose proof (len_nonneg taken).
    rewrite (proj2 (Z.eqb_neq _ _)) in Ex by lia. simpl negb in Ex.
    apply andb_false_iff in Ex as [?|[Hs%Z.ltb_ge _]%orb_false_iff]; [done|].
    unfold saturating_sub in Hs.
    assert (0 <= total Request.byte_weight (r :: taken)).
    { clear -Hft. induction Hft; rewrite ?total_cons; [done | lia]. }
    lia.
  - assert (total Request.byte_weight taken + Request.byte_weight next <= max_bytes) as Hsum.
    { destruct taken as [|r taken]; [rewrite total_nil; lia|].
      rewrite len_cons in Ex. pose proof (len_nonneg taken).
      rewrite (proj2 (Z.eqb_neq _ _)) in Ex by lia. simpl negb in Ex.
      apply andb_false_iff in Ex as [?|[Hs%Z.ltb_ge _]%orb_false_iff]; [done|].
      unfold saturating_sub in Hs. lia. }
    apply IH.
    + by rewrite <- (assoc_L (++)).
    + rewrite len_app, len_cons, len_nil. lia.
    + rewrite total_app, total_cons, total_nil. unfold saturating_add. lia.
    + unfold saturating_add. lia.
Qed.
Lemma drain_loop_nonempty next waiting batch rest :
  0 < max_requests → drain_loop max_requests max_bytes (next :: waiting) [] 0 = (batch, rest) →
  batch ≠ [].
Proof.
  intros Hm. cbn [drain_loop]. rewrite len_nil, (proj2 (Z.ltb_lt _ _)) by lia. cbn [Z.eqb negb andb].
  case_match; [by intros [= <- <-]|]. by intros [_ [more ->]]%drain_loop_split.
Qed.
End drain.

(** ** The invariant *)

Definition caller_bytes (c : Caller) : Z :=
  match c with HasSlot _ _ => 0 | HasBytes _ est => AdmissionQueue.byte_permits est end.
(** Requests admitted and not completed, in the order of their tickets. *)
Definition live (s : adm_system) : list Request.t :=
  concat (runners s) ++ AdmissionQueue.requests (queue s).
Definition entry_of (r : Request.t) : Z * list BatchOperation :=
  (Request.ticket r, Request.operations r).

Record adm_inv (s : adm_system) : Prop := {
  ai_runner : if AdmissionQueue.running (queue s) then ∃ b, runners s = [b]
              else runners s = [] ∧ AdmissionQueue.requests (queue s) = [];
  ai_range : 0 <= AdmissionQueue.completed_ticket (queue s)
             <= AdmissionQueue.next_ticket (queue s) ∧
             AdmissionQueue.next_ticket (queue s) <= u64_max;
  ai_tickets : Request.ticket <$> live s =
               seqZ (AdmissionQueue.completed_ticket (queue s) + 1)
                    (AdmissionQueue.next_ticket (queue s) - AdmissionQueue.completed_ticket (queue s));
  ai_slots : AdmissionQueue.slots (queue s) + len (callers s) + len (live s) = MAX_ADMITTED_REQUESTS;
  ai_slots_nonneg : 0 <= AdmissionQueue.slots (queue s);
  ai_bytes : AdmissionQueue.bytes (queue s) + total caller_bytes (callers s)
             + total Request.byte_permits (live s) = ADMITTED_BYTE_BUDGET;
  ai_bytes_nonneg : 0 <= AdmissionQueue.bytes (queue s);
  ai_permits : Forall (λ r, Request.slot_permits r = 1 ∧ 1 <= Request.byte_permits r) (live s);
  ai_admitted : admitted s = (fst <$> executed s) ++ (entry_of <$> live s);
  ai_executed : (λ e, fst (fst e)) <$> executed s = seqZ 1 (AdmissionQueue.completed_ticket (queue s));
  ai_ok : Forall (λ e, snd e = Ok tt) (executed s)
}.

Lemma byte_permits_range est : 1 <= AdmissionQueue.byte_permits est <= ADMITTED_BYTE_BUDGET.
Proof. unfold AdmissionQueue.byte_permits, ADMITTED_BYTE_BUDGET. lia. Qed.

Lemma seqZ_S m n : 0 <= n → seqZ m (n + 1) = seqZ m n ++ [m + n].
Proof. intros. rewrite seqZ_app by lia. done. Qed.

Ltac adm_sums :=
  rewrite ?len_app, ?len_cons, ?len_nil, ?total_app, ?total_cons, ?total_nil in *; cbn [caller_bytes Request.byte_permits] in *.

Lemma adm_outside s s' : outside_step s s' → adm_inv s → adm_inv s'.
Proof.
  intros Hs Hi. destruct Hs as [q q' cs rs ad ex ops est Hest Hq | q l ops est r rs ad ex];
    destruct Hi as [Hr Hrg Ht Hsl Hsn Hb Hbn Hp Ha He Ho].
  - unfold AdmissionQueue.acquire_slot in Hq. destruct (Z.leb_spec 1 (AdmissionQueue.slots q)); [|done].
    injection Hq as <-. unfold live in *. simpl in *.
    split; unfold live; simpl; try done; adm_sums; lia.
  - unfold live in *. simpl in *. split; unfold live; simpl; try done; adm_sums; lia.
Qed.

Lemma adm_enqueue q q' l ops est r rs ad ex o :
  AdmissionQueue.enqueue_locked q ops est = (o, q') →
  adm_inv (mkSys q (l ++ HasBytes ops est :: r) rs ad ex) →
  adm_inv (mkSys q' (l ++ r) (started o rs) (ad ++ recorded o ops) ex).
Proof.
  intros Hq [Hr Hrg Ht Hsl Hsn Hb Hbn Hp Ha He Ho]. unfold live in *. simpl in *.
  pose proof (byte_permits_range est).
  unfold AdmissionQueue.enqueue_locked in Hq. destruct (checked_add _ 1) as [t|] eqn:Et.
  - apply checked_add_Some in Et as [-> Hu]. injection Hq as <- <-. simpl.
    assert (concat (if negb (AdmissionQueue.running q) then rs ++ [[]] else rs) = concat rs) as Hc.
    { destruct (AdmissionQueue.running q); [done|]. simpl. by rewrite concat_app, app_nil_r. }
    split; unfold live; simpl; rewrite ?Hc; try done; try (adm_sums; lia).
    + destruct (AdmissionQueue.running q); [done|]. destruct Hr as [-> _]. by exists [].
    + rewrite fmap_app in Ht. rewrite (assoc_L (++)), fmap_app, fmap_app, Ht. simpl.
      replace (AdmissionQueue.next_ticket q + 1 - AdmissionQueue.completed_ticket q)
        with (AdmissionQueue.next_ticket q - AdmissionQueue.completed_ticket q + 1) by lia.
      rewrite seqZ_S by lia. do 2 f_equal. lia.
    + rewrite (assoc_L (++)). apply Forall_app. split; [done|]. repeat constructor; simpl; lia.
    + rewrite Ha, (assoc_L (++)), !fmap_app. by rewrite <- !(assoc_L (++)).
  - injection Hq as <- <-. rewrite app_nil_r. split; unfold live; simpl; try done; adm_sums; lia.
Qed.

Lemma adm_drain q q' cs l taken r ad ex :
  AdmissionQueue.drain_ready q MAX_DRAIN_REQUESTS MAX_DRAIN_BYTES = (Some taken, q') →
  adm_inv (mkSys q cs (l ++ [] :: r) ad ex) → adm_inv (mkSys q' cs (l ++ taken :: r) ad ex).
Proof.
  intros Hq Hi. unfold AdmissionQueue.drain_ready in Hq. case_match; [done|].
  destruct (AdmissionQueue.drain_loop _ _ _ _ _) as [b rest] eqn:Hd. injection Hq as <- <-.
  apply drain_loop_split in Hd as [Hd _]. simpl in Hd.
  destruct Hi as [Hr Hrg Ht Hsl Hsn Hb Hbn Hp Ha He Ho]. simpl in *.
  destruct (AdmissionQueue.running q) eqn:Hrun.
  2:{ destruct Hr as [Hr _]. by destruct l. }
  destruct Hr as [b0 Hb0]. assert (l = [] ∧ r = []) as [-> ->].
  { destruct l as [|x [|y l]]; simpl in Hb0; [injection Hb0 as _ ->; done | done | done]. }
  assert (∀ ad' ex' cs', live (mkSys (AdmissionQueue.mk rest true (AdmissionQueue.next_ticket q)
    (AdmissionQueue.completed_ticket q) (AdmissionQueue.slots q) (AdmissionQueue.bytes q)) cs' ([] ++ [b]) ad' ex')
    = live (mkSys q cs ([] ++ [[]]) ad ex)) as Hl.
  { intros. unfold live. simpl. by rewrite app_nil_r, Hd. }
  split; rewrite ?Hl; simpl; try done. by exists b.
Qed.
Lemma adm_stop q q' cs l r ad ex :
  AdmissionQueue.drain_ready q MAX_DRAIN_REQUESTS MAX_DRAIN_BYTES = (None, q') →
  adm_inv (mkSys q cs (l ++ [] :: r) ad ex) → adm_inv (mkSys q' cs (l ++ r) ad ex).
Proof.
  intros Hq Hi. unfold AdmissionQueue.drain_ready in Hq.
  destruct (Z.eqb_spec (len (AdmissionQueue.requests q)) 0) as [Hz|]; [|by case_match].
  apply len_0_nil in Hz. injection Hq as <-.
  destruct Hi as [Hr Hrg Ht Hsl Hsn Hb Hbn Hp Ha He Ho]. simpl in *.
  assert (l = [] ∧ r = []) as [-> ->].
  { destruct (AdmissionQueue.running q); [destruct Hr as [b0 Hr]|destruct Hr as [Hr _]].
    - destruct l as [|x [|y l]]; simpl in Hr; [injection Hr as _ ->; done | done | done].
    - by destruct l. }
  unfold live in *. simpl in *. rewrite Hz in *. split; unfold live; simpl; rewrite ?Hz; try done.
Qed.

Lemma adm_complete q q' cs l req batch r ad ex o :
  AdmissionQueue.complete q req = (o, q') →
  adm_inv (mkSys q cs (l ++ (req :: batch) :: r) ad ex) →
  adm_inv (mkSys q' cs (l ++ batch :: r) ad
             (ex ++ [(Request.ticket req, Request.operations req, o)])).
Proof.
  intros Hq Hi. destruct Hi as [Hr Hrg Ht Hsl Hsn Hb Hbn Hp Ha He Ho]. simpl in *.
  destruct (AdmissionQueue.running q) eqn:Hrun.
  2:{ destruct Hr as [Hr _]. by destruct l. }
  destruct Hr as [b0 Hb0]. assert (l = [] ∧ r = []) as [-> ->].
  { destruct l as [|x [|y l]]; simpl in Hb0; [injection Hb0 as _ ->; done | done | done]. }
  unfold live in *. simpl in *. rewrite !app_nil_r in *.
  set (n := AdmissionQueue.next_ticket q - AdmissionQueue.completed_ticket q) in *.
  assert (0 < n) as Hn.
  { destruct (Z.le_gt_cases n 0); [|done]. rewrite seqZ_nil in Ht by lia. done. }
  rewrite seqZ_cons in Ht by lia. injection Ht as Ht1 Ht.
  apply Forall_cons_1 in Hp as [[Hp1 Hp2] Hp].
  unfold AdmissionQueue.complete in Hq. rewrite Ht1, wrap64_id, Z.eqb_refl in Hq by word_lia.
  rewrite (proj2 (Z.ltb_ge _ _)) in Hq by (unfold n in Hn; lia). simpl in Hq. injection Hq as <- <-.
  rewrite len_cons in Hsl. rewrite total_cons in Hb.
  split; unfold live; simpl; rewrite ?app_nil_r; try done; try lia.
  - rewrite Hrun. by exists batch.
  - etransitivity; [exact Ht|]. unfold n. f_equal; lia.
  - by rewrite Ha, (fmap_app fst), <- (assoc_L (++)).
  - rewrite fmap_app, He. simpl. rewrite seqZ_S by lia. do 2 f_equal. lia.
  - apply Forall_app. split; [done | by repeat constructor].
Qed.

Lemma adm_inside s s' : inside_step s s' → adm_inv s → adm_inv s'.
Proof.
  intros Hs Hi. destruct Hs as [q q' l ops est r rs ad ex Hq | | | |].
  - destruct Hi as [Hr Hrg Ht Hsl Hsn Hb Hbn Hp Ha He Ho].
    unfold AdmissionQueue.acquire_bytes in Hq. destruct (Z.leb_spec (AdmissionQueue.byte_permits est) (AdmissionQueue.bytes q)); [|done].
    injection Hq as <-. unfold live in *. simpl in *.
    split; unfold live; simpl; try done; adm_sums; lia.
  - by eapply adm_enqueue.
  - by eapply adm_drain.
  - by eapply adm_stop.
  - by eapply adm_complete.
Qed.
Lemma adm_initial_inv : adm_inv adm_initial.
Proof. split; simpl; try done; unfold MAX_ADMITTED_REQUESTS, ADMITTED_BYTE_BUDGET; word_lia. Qed.
Lemma adm_reachable_inv s : adm_reachable s → adm_inv s.
Proof.
  unfold adm_reachable. generalize adm_initial_inv. generalize adm_initial as s0.
  intros s0 H0 Hs. revert H0. induction Hs as [|x y z [Hs|Hs] _ IH]; [done|..]; intros Hx; apply IH.
  - by eapply adm_outside.
  - by eapply adm_inside.
Qed.

(** ** Progress *)

(** Every step inside the system brings the requests closer to completion. *)
Definition caller_work (c : Caller) : Z := match c with HasSlot _ _ => 5 | HasBytes _ _ => 4 end.
Definition adm_work (s : adm_system) : Z :=
  total caller_work (callers s) + 2 * len (AdmissionQueue.requests (queue s))
  + len (concat (runners s)) + len (runners s).
Lemma adm_work_nonneg s : 0 <= adm_work s.
Proof.
  unfold adm_work. pose proof (len_nonneg (AdmissionQueue.requests (queue s))).
  pose proof (len_nonneg (concat (runners s))). pose proof (len_nonneg (runners s)).
  assert (0 <= total caller_work (callers s)).
  { induction (callers s) as [|c cs IH]; rewrite ?total_cons; [done|]. destruct c; simpl; lia. }
  lia.
Qed.
Lemma inside_step_work s s' : inside_step s s' → adm_work s' < adm_work s.
Proof.
  assert (∀ (b : list Request.t) l r, concat (l ++ b :: r) = concat l ++ b ++ concat r) as Hc.
  { intros. by rewrite concat_app. }
  intros [q q' l ops est r rs ad ex Hq | q q' l ops est r rs ad ex o Hq | q q' cs l taken r ad ex Hq
    | q q' cs l r ad ex Hq | q q' cs l req batch r ad ex o Hq]; unfold adm_work; cbn [callers queue runners].
  - unfold AdmissionQueue.acquire_bytes in Hq. case_match; [|done]. injection Hq as <-. simpl.
    rewrite !total_app, !total_cons. simpl. lia.
  - unfold AdmissionQueue.enqueue_locked in Hq. rewrite !total_app, total_cons.
    destruct (checked_add _ _); injection Hq as <- <-; simpl; [|lia].
    rewrite len_app, len_cons, len_nil.
    destruct (AdmissionQueue.running q); simpl; [lia|].
    unfold len. rewrite concat_app, !length_app. simpl. lia.
  - unfold AdmissionQueue.drain_ready in Hq. destruct (Z.eqb_spec (len (AdmissionQueue.requests q)) 0) as [|Hne]; [done|].
    destruct (AdmissionQueue.drain_loop _ _ _ _ _) as [b rest] eqn:Hd. injection Hq as <- <-. simpl.
    pose proof (drain_loop_split _ _ _ _ _ _ _ Hd) as [Happ _].
    destruct (AdmissionQueue.requests q) as [|x l0]; [done|].
    apply drain_loop_nonempty in Hd; [|done].
    apply (f_equal len) in Happ. rewrite len_app in Happ. cbn [app] in Happ.
    rewrite !Hc, !len_app. destruct b as [|x0 b]; [done|]. rewrite !len_cons, ?len_nil in *.
    pose proof (len_nonneg b). lia.
  - unfold AdmissionQueue.drain_ready in Hq. case_match; [|by case_match]. injection Hq as <-. simpl.
    rewrite Hc, concat_app, !len_app, !len_cons, len_nil. lia.
  - assert (len (AdmissionQueue.requests q') = len (AdmissionQueue.requests q)) as ->.
    { unfold AdmissionQueue.complete in Hq. by case_match; injection Hq as <- <-. }
    rewrite !Hc, !len_app, !len_cons. lia.
Qed.

Lemma callers_split cs :
  (∃ l ops est r, cs = l ++ HasBytes ops est :: r) ∨ total caller_bytes cs = 0.
Proof.
  induction cs as [|c cs IH]; [by right|]. destruct c as [ops est|ops est].
  - destruct IH as [(l & ops' & est' & r & ->)|IH]; [left; by exists (HasSlot ops est :: l), ops', est', r|].
    right. rewrite total_cons. simpl. lia.
  - left. by exists [], ops, est, cs.
Qed.
(** As long as someone waits, some step is possible. *)
Lemma adm_enabled s :
  adm_inv s → callers s ≠ [] ∨ live s ≠ [] ∨ runners s ≠ [] → ∃ s', inside_step s s'.
Proof.
  intros [Hr _ _ Hsl _ Hb _ _ _ _ _] Hne. destruct s as [q cs rs ad ex]. unfold live in *. simpl in *.
  destruct (callers_split cs) as [(l & ops & est & r & ->)|Hz].
  { destruct (AdmissionQueue.enqueue_locked q ops est) eqn:E. eexists. by eapply as_enqueue. }
  destruct rs as [|[|req b] rs].
  - simpl in *. assert (AdmissionQueue.requests q = []) as Hq0.
    { destruct (AdmissionQueue.running q); [by destruct Hr | by destruct Hr as [_ ?]]. }
    rewrite Hq0, total_nil in *. destruct cs as [|[ops est|ops est] cs]; [naive_solver| |].
    + eexists. eapply (as_bytes q _ [] ops est cs). unfold AdmissionQueue.acquire_bytes.
      pose proof (byte_permits_range est). rewrite (proj2 (Z.leb_le _ _)) by lia. done.
    + eexists. eapply (as_enqueue q _ [] ops est cs). apply surjective_pairing.
  - destruct (AdmissionQueue.drain_ready q MAX_DRAIN_REQUESTS MAX_DRAIN_BYTES) as [[taken|] q'] eqn:E;
      eexists; [by apply (as_drain q q' cs [] taken rs) | by apply (as_stop q q' cs [] rs)].
  - destruct (AdmissionQueue.complete q req) as [o q'] eqn:E. eexists.
    by apply (as_complete q q' cs [] req b rs).
Qed.

Lemma adm_inside_steps s s' : rtc inside_step s s' → adm_inv s → adm_inv s'.
Proof. induction 1 as [|x y z Hs _ IH]; [done|]. intros Hx. by eapply IH, adm_inside. Qed.

(** ** Properties *)

(** C28.  Admission serves callers first come, first served, with one runner.
    In every interleaving of callers, cancellations and runners: at most one
    runner is active, and one is whenever requests are queued; tickets are
    1, 2, 3, ... in the order of admission; the requests completed are exactly
    the first ones admitted, each once and in order, and no completion is
    refused as out of order; callers, queued and running requests together
    never hold more than the 64 slots and the 16 MiB budget. *)
Theorem admission_fifo s :
  adm_reachable s →
  (length (runners s) <= 1)%nat ∧
  (AdmissionQueue.requests (queue s) ≠ [] → runners s ≠ []) ∧
  fst <$> admitted s = seqZ 1 (AdmissionQueue.last_admitted_ticket (queue s)) ∧
  (fst <$> executed s) `prefix_of` admitted s ∧
  len (executed s) = AdmissionQueue.completed_ticket (queue s) ∧
  Forall (λ e, snd e = Ok tt) (executed s) ∧
  len (callers s) + len (live s) <= MAX_ADMITTED_REQUESTS ∧
  total caller_bytes (callers s) + total Request.byte_permits (live s) <= ADMITTED_BYTE_BUDGET.
Proof.
  intros [Hr Hrg Ht Hsl Hsn Hb Hbn Hp Ha He Ho]%adm_reachable_inv.
  split_and!.
  - destruct (AdmissionQueue.running (queue s)); [by destruct Hr as [? ->] | destruct Hr as [-> _]; simpl; lia].
  - destruct (AdmissionQueue.running (queue s)); [by destruct Hr as [? ->] | by destruct Hr as [_ ->]].
  - rewrite Ha, fmap_app, <- !list_fmap_compose.
    replace (fst ∘ entry_of <$> live s) with (Request.ticket <$> live s) by done.
    rewrite Ht. etransitivity; [apply (f_equal (.++ _) He)|]. unfold AdmissionQueue.last_admitted_ticket.
    rewrite (Z.add_comm _ 1), <- seqZ_app by lia. f_equal. lia.
  - rewrite Ha. by eexists.
  - apply (f_equal length) in He. rewrite length_fmap, length_seqZ in He. unfold len. lia.
  - done.
  - lia.
  - lia.
Qed.

(** C29.  Admission never deadlocks and loses no request.  From every reachable
    state, without new arrivals, the callers and the runner take only finitely
    many steps, in any order; and where no step is left, nobody waits, every
    admitted request has been completed and all permits are back. *)
Theorem admission_progress s :
  adm_reachable s →
  sn inside_step s ∧
  ∀ s', rtc inside_step s s' → nf inside_step s' →
    callers s' = [] ∧ runners s' = [] ∧ AdmissionQueue.requests (queue s') = [] ∧
    fst <$> executed s' = admitted s' ∧
    AdmissionQueue.completed_through (queue s') (AdmissionQueue.last_admitted_ticket (queue s')) = true ∧
    AdmissionQueue.slots (queue s') = MAX_ADMITTED_REQUESTS ∧
    AdmissionQueue.bytes (queue s') = ADMITTED_BYTE_BUDGET.
Proof.
  intros Hi%adm_reachable_inv. split.
  { clear Hi. remember (Z.to_nat (adm_work s)) as n eqn:Hn. revert s Hn.
    induction (lt_wf n) as [n _ IH]. intros s ->. constructor. intros s' Hs%inside_step_work.
    pose proof (adm_work_nonneg s'). eapply IH; [|done]. lia. }
  intros s' Hs Hnf. pose proof (adm_inside_steps _ _ Hs Hi) as Hi'.
  assert (callers s' = [] ∧ live s' = [] ∧ runners s' = []) as (Hc & Hl & Hr).
  { destruct (decide (len (callers s') = 0 ∧ len (live s') = 0 ∧ len (runners s') = 0)) as [(?&?&?)|Hne];
      [split_and!; by apply len_0_nil|].
    exfalso. apply Hnf. unfold red. apply adm_enabled; [done|].
    destruct (callers s'); [|by left]. destruct (live s'); [|by right; left].
    destruct (runners s'); [|by right; right]. by destruct Hne. }
  destruct Hi' as [_ Hrg Ht Hsl _ Hb _ _ Ha _ _]. rewrite Hl, Hc in *.
  rewrite !total_nil in Hb. unfold len in Hsl. simpl in Hsl. rewrite app_nil_r in Ha. unfold live in Hl.
  apply app_nil in Hl as [_ Hq]. simpl in Ht.
  split_and!; try done; try lia. unfold AdmissionQueue.completed_through, AdmissionQueue.last_admitted_ticket.
  apply Z.leb_le. destruct (Z.le_gt_cases (AdmissionQueue.next_ticket (queue s')) (AdmissionQueue.completed_ticket (queue s'))); [done|].
  symmetry in Ht. apply (f_equal length) in Ht. rewrite length_seqZ in Ht. simpl in Ht. lia.
Qed.

(** C37.  A drain takes a non-empty prefix of the queue, of at most the given
    number of requests, and within the byte limit unless it is a single
    request larger than the limit; on an empty queue it stops the runner. *)
Theorem drain_ready_correct q max_requests max_bytes r q' :
  0 < max_requests → 0 <= max_bytes <= u64_max →
  Forall (λ r, 0 <= Request.byte_weight r) (AdmissionQueue.requests q) →
  AdmissionQueue.drain_ready q max_requests max_bytes = (r, q') →
  match r with
  | None => AdmissionQueue.requests q = [] ∧ AdmissionQueue.running q' = false
  | Some batch =>
      batch ≠ [] ∧ batch_ok max_requests max_bytes batch ∧
      AdmissionQueue.running q' = AdmissionQueue.running q ∧
      batch ++ AdmissionQueue.requests q' = AdmissionQueue.requests q
  end.
Proof.
  intros Hm Hb Hf Hd. unfold AdmissionQueue.drain_ready in Hd.
  destruct (Z.eqb_spec (len (AdmissionQueue.requests q)) 0) as [Hz|Hz].
  { injection Hd as <- <-. by apply len_0_nil in Hz. }
  destruct (AdmissionQueue.drain_loop _ _ _ _ _) as [b rest] eqn:Hl. injection Hd as <- <-.
  pose proof (drain_loop_split _ _ _ _ _ _ _ Hl) as [Happ _]. simpl. split_and!; try done.
  - destruct (AdmissionQueue.requests q); [done|]. by eapply drain_loop_nonempty.
  - eapply drain_loop_bounds; [done| | | | |exact Hl]; [done | rewrite len_nil; lia | done | lia].
Qed.

(** ** Witnesses

    A caller gets a slot and bytes, is admitted and starts the runner; a
    second one gets a slot.  The first request is drained. *)

Definition adm_ops : list BatchOperation := [BatchPut [x61] [x62]].
Definition adm_req : Request.t := Request.mk adm_ops 1 1 100 100.
Definition adm_q (reqs : list Request.t) (run : bool) (next slots bytes : Z) : AdmissionQueue.t :=
  AdmissionQueue.mk reqs run next 0 slots bytes.
Definition adm_sample : adm_system :=
  mkSys (adm_q [] true 1 62 16777116) [HasSlot adm_ops 7] [[adm_req]] [(1, adm_ops)] [].
Lemma adm_sample_reachable : adm_reachable adm_sample.
Proof.
  eapply rtc_l; [left; by apply (as_slot _ (adm_q [] false 0 63 16777216) [] _ _ _ adm_ops 100)|].
  eapply rtc_l; [right; by apply (as_bytes _ (adm_q [] false 0 63 16777116) [] adm_ops 100 [])|].
  eapply rtc_l; [right; by apply (as_enqueue _ (adm_q [adm_req] true 1 63 16777116) [] adm_ops 100 []
    _ _ _ (Ok (Enqueued.mk 1 true)))|].
  eapply rtc_l; [left; by apply (as_slot _ (adm_q [adm_req] true 1 62 16777116) [] _ _ _ adm_ops 7)|].
  eapply rtc_l; [right; by apply (as_drain _ (adm_q [] true 1 62 16777116) _ [] [adm_req] [])|].
  apply rtc_refl.
Qed.

Lemma admission_fifo_witness :
  (length (runners adm_sample) <= 1)%nat ∧ fst <$> admitted adm_sample = [1].
Proof.
  pose proof (admission_fifo adm_sample adm_sample_reachable) as (H1 & _ & H3 & _).
  split; [exact H1 | exact H3].
Defined.
Lemma admission_progress_witness : sn inside_step adm_sample.
Proof. exact (proj1 (admission_progress adm_sample adm_sample_reachable)). Defined.
Lemma drain_ready_correct_witness :
  batch_ok 64 1000 [adm_req] ∧ fst (AdmissionQueue.drain_ready (adm_q [adm_req] true 1 63 0) 64 1000) = Some [adm_req].
Proof.
  split; [|reflexivity].
  apply (drain_ready_correct (adm_q [adm_req] true 1 63 0) 64 1000 (Some [adm_req]) (adm_q [] true 1 63 0));
    [lia | word_lia | repeat constructor; simpl; lia | reflexivity].
Defined.
