(* ===== verification/Config.v ===== *)
(** * Configuration: [src/src/storage/config.rs] and [src/src/config.rs]

    The tunables of the engine with their validation, the builder, and the
    translation of the command-line flags.  An [f64] is the IEEE-754 value it
    denotes, compared as Rust compares it: every comparison with a NaN fails. *)

From Stdlib Require Import SpecFloat.
From S2P Require Import Prelude Bytes Bloom Unicode.

Definition f64_leb (x y : f64) : bool := SFleb x y.
Definition f64_zero : f64 := S754_zero false.
Definition f64_one : f64 := S754_finite false 4503599627370496 (-52).
(** The double nearest to 0.01. *)
Definition f64_001 : f64 := S754_finite false 5764607523034235 (-59).

Module StorageConfig.
Record t : Type := mk {
  memtable_size_threshold : Z;
  sstable_block_size : Z;
  max_level0_files : Z;
  target_sstable_bytes : Z;
  level_base_bytes : Z;
  level_size_multiplier : Z;
  wal_segment_size : Z;
  bloom_false_positive_rate : f64;
  max_sstable_file_handles : Z
}.
Definition default_ : t :=
  mk (4 * 1024 * 1024) 4096 2 (2 * 1024 * 1024) (16 * 1024 * 1024) 10 (1024 * 1024) f64_001 64.

Definition validate (c : t) : res unit :=
  _ ← guard_err (negb (memtable_size_threshold c <? 1024 * 1024))
        (StorageError "memtable_size_threshold must be >= 1 MB");
  _ ← guard_err (negb (64 * 1024 * 1024 <? memtable_size_threshold c))
        (StorageError "memtable_size_threshold must be <= 64 MB");
  _ ← guard_err (negb (sstable_block_size c <? 1024))
        (StorageError "sstable_block_size must be >= 1 KB");
  _ ← guard_err (negb (64 * 1024 <? sstable_block_size c))
        (StorageError "sstable_block_size must be <= 64 KB");
  _ ← guard_err (negb ((max_level0_files c <? 1) || (10 <? max_level0_files c)))
        (StorageError "max_level0_files must be between 1 and 10");
  _ ← guard_err (negb ((target_sstable_bytes c =? 0) || (level_base_bytes c =? 0)
                       || (level_size_multiplier c <? 2)))
        (StorageError "compaction byte targets must be positive and level_size_multiplier >= 2");
  _ ← guard_err (negb (wal_segment_size c <? 256 * 1024))
        (StorageError "wal_segment_size must be >= 256 KB");
  _ ← guard_err (negb (10 * 1024 * 1024 <? wal_segment_size c))
        (StorageError "wal_segment_size must be <= 10 MB");
  _ ← guard_err (negb (f64_leb (bloom_false_positive_rate c) f64_zero
                       || f64_leb f64_one (bloom_false_positive_rate c)))
        (StorageError "bloom_false_positive_rate must be between 0.0 and 1.0 (exclusive)");
  guard_err (negb ((max_sstable_file_handles c <? 8) || (512 <? max_sstable_file_handles c)))
    (StorageError "max_sstable_file_handles must be between 8 and 512").
End StorageConfig.

Module StorageConfigBuilder.
Record t : Type := mk {
  memtable_size_threshold : option Z;
  sstable_block_size : option Z;
  max_level0_files : option Z;
  target_sstable_bytes : option Z;
  level_base_bytes : option Z;
  level_size_multiplier : option Z;
  wal_segment_size : option Z;
  bloom_false_positive_rate : option f64;
  max_sstable_file_handles : option Z
}.
Definition new : t := mk None None None None None None None None None.

Definition set_memtable_size_threshold (b : t) (n : Z) : t :=
  mk (Some n) (sstable_block_size b) (max_level0_files b) (target_sstable_bytes b) (level_base_bytes b)
     (level_size_multiplier b) (wal_segment_size b) (bloom_false_positive_rate b) (max_sstable_file_handles b).
Definition set_sstable_block_size (b : t) (n : Z) : t :=
  mk (memtable_size_threshold b) (Some n) (max_level0_files b) (target_sstable_bytes b) (level_base_bytes b)
     (level_size_multiplier b) (wal_segment_size b) (bloom_false_positive_rate b) (max_sstable_file_handles b).
Definition set_max_level0_files (b : t) (n : Z) : t :=
  mk (memtable_size_threshold b) (sstable_block_size b) (Some n) (target_sstable_bytes b) (level_base_bytes b)
     (level_size_multiplier b) (wal_segment_size b) (bloom_false_positive_rate b) (max_sstable_file_handles b).
Definition set_target_sstable_bytes (b : t) (n : Z) : t :=
  mk (memtable_size_threshold b) (sstable_block_size b) (max_level0_files b) (Some n) (level_base_bytes b)
     (level_size_multiplier b) (wal_segment_size b) (bloom_false_positive_rate b) (max_sstable_file_handles b).
Definition set_level_base_bytes (b : t) (n : Z) : t :=
  mk (memtable_size_threshold b) (sstable_block_size b) (max_level0_files b) (target_sstable_bytes b) (Some n)
     (level_size_multiplier b) (wal_segment_size b) (bloom_false_positive_rate b) (max_sstable_file_handles b).
Definition set_level_size_multiplier (b : t) (n : Z) : t :=
  mk (memtable_size_threshold b) (sstable_block_size b) (max_level0_files b) (target_sstable_bytes b)
     (level_base_bytes b) (Some n) (wal_segment_size b) (bloom_false_positive_rate b) (max_sstable_file_handles b).
Definition set_wal_segment_size (b : t) (n : Z) : t :=
  mk (memtable_size_threshold b) (sstable_block_size b) (max_level0_files b) (target_sstable_bytes b)
     (level_base_bytes b) (level_size_multiplier b) (Some n) (bloom_false_positive_rate b)
     (max_sstable_file_handles b).
Definition set_bloom_false_positive_rate (b : t) (r : f64) : t :=
  mk (memtable_size_threshold b) (sstable_block_size b) (max_level0_files b) (target_sstable_bytes b)
     (level_base_bytes b) (level_size_multiplier b) (wal_segment_size b) (Some r) (max_sstable_file_handles b).
Definition set_max_sstable_file_handles (b : t) (n : Z) : t :=
  mk (memtable_size_threshold b) (sstable_block_size b) (max_level0_files b) (target_sstable_bytes b)
     (level_base_bytes b) (level_size_multiplier b) (wal_segment_size b) (bloom_false_positive_rate b) (Some n).

Definition build (b : t) : res StorageConfig.t :=
  let d := StorageConfig.default_ in
  let config := StorageConfig.mk
    (default (StorageConfig.memtable_size_threshold d) (memtable_size_threshold b))
    (default (StorageConfig.sstable_block_size d) (sstable_block_size b))
    (default (StorageConfig.max_level0_files d) (max_level0_files b))
    (default (StorageConfig.target_sstable_bytes d) (target_sstable_bytes b))
    (default (StorageConfig.level_base_bytes d) (level_base_bytes b))
    (default (StorageConfig.level_size_multiplier d) (level_size_multiplier b))
    (default (StorageConfig.wal_segment_size d) (wal_segment_size b))
    (default (StorageConfig.bloom_false_positive_rate d) (bloom_false_positive_rate b))
    (default (StorageConfig.max_sstable_file_handles d) (max_sstable_file_handles b)) in
  _ ← StorageConfig.validate config;
  mret config.
End StorageConfigBuilder.

(** [log::LevelFilter]. *)
Module LevelFilter.
Inductive t : Type := Off | Error | Warn | Info | Debug | Trace.
End LevelFilter.

(** The flags of the command line, in the units of the flags. *)
Module Config.
Record t : Type := mk {
  log_level : bytes;
  verbose : bool;
  data_dir : bytes;
  memtable_size_mb : Z;
  block_size_kb : Z;
  max_level0_files : Z;
  wal_segment_size_mb : Z;
  bloom_fp_rate : f64;
  raft_mode : bool;
  raft_node_id : Z;
  raft_peers : bytes;
  raft_http_bind : bytes
}.
(** The flags without arguments, with the storage flags given. *)
Definition storage_flags (memtable_size_mb block_size_kb max_level0_files wal_segment_size_mb : Z) (bloom_fp_rate : f64) : t :=
  mk (bytes_of_string "info") false (bytes_of_string ".") memtable_size_mb block_size_kb max_level0_files
     wal_segment_size_mb bloom_fp_rate false 1 [] (bytes_of_string "127.0.0.1:21001").

(** An unknown level is reported on the error output and taken as [Info]. *)
Definition get_log_level `{Unicode} (c : t) : LevelFilter.t :=
  if verbose c then LevelFilter.Debug
  else
    let level := str_to_lowercase (log_level c) in
    if bytes_eqb level (bytes_of_string "off") then LevelFilter.Off
    else if bytes_eqb level (bytes_of_string "error") then LevelFilter.Error
    else if bytes_eqb level (bytes_of_string "warn") then LevelFilter.Warn
    else if bytes_eqb level (bytes_of_string "info") then LevelFilter.Info
    else if bytes_eqb level (bytes_of_string "debug") then LevelFilter.Debug
    else if bytes_eqb level (bytes_of_string "trace") then LevelFilter.Trace
    else LevelFilter.Info.
(** The products are unchecked. *)
Definition to_storage_config (c : t) : res StorageConfig.t :=
  StorageConfigBuilder.build
    (StorageConfigBuilder.set_bloom_false_positive_rate
      (StorageConfigBuilder.set_wal_segment_size
        (StorageConfigBuilder.set_max_level0_files
          (StorageConfigBuilder.set_sstable_block_size
            (StorageConfigBuilder.set_memtable_size_threshold StorageConfigBuilder.new
              (wrap64 (wrap64 (memtable_size_mb c * 1024) * 1024)))
            (wrap64 (block_size_kb c * 1024)))
          (max_level0_files c))
        (wrap64 (wrap64 (wal_segment_size_mb c * 1024) * 1024)))
      (bloom_fp_rate c)).
End Config.

(** ** Properties *)

(** What validation promises: every bound the fields document, the byte
    targets the compaction loop divides the work by, and a rate that is not
    below or at zero nor at or above one. *)
Record config_valid (c : StorageConfig.t) : Prop := {
  cv_memtable : 1048576 <= StorageConfig.memtable_size_threshold c <= 67108864;
  cv_block : 1024 <= StorageConfig.sstable_block_size c <= 65536;
  cv_level0 : 1 <= StorageConfig.max_level0_files c <= 10;
  cv_target : StorageConfig.target_sstable_bytes c ≠ 0;
  cv_base : StorageConfig.level_base_bytes c ≠ 0;
  cv_multiplier : 2 <= StorageConfig.level_size_multiplier c;
  cv_wal : 262144 <= StorageConfig.wal_segment_size c <= 10485760;
  cv_rate : f64_leb (StorageConfig.bloom_false_positive_rate c) f64_zero = false ∧
            f64_leb f64_one (StorageConfig.bloom_false_positive_rate c) = false;
  cv_handles : 8 <= StorageConfig.max_sstable_file_handles c <= 512
}.

Lemma guard_bind {A} b e (k : unit → res A) a :
  (guard_err b e ≫= k) = Ok a ↔ b = true ∧ k tt = Ok a.
Proof. destruct b; simpl; naive_solver. Qed.
Lemma validate_Ok c : StorageConfig.validate c = Ok tt ↔ config_valid c.
Proof.
  unfold StorageConfig.validate. rewrite !guard_bind, guard_err_Ok, !negb_true_iff, !orb_false_iff.
  rewrite !Z.ltb_ge, !Z.eqb_neq. split.
  - intros (?&?&?&?&[? ?]&[[? ?] ?]&?&?&[? ?]&[? ?]). by split.
  - intros [[] [] [] ? ? ? [] [] []]. done.
Qed.
Lemma validate_np c : StorageConfig.validate c ≠ Panic.
Proof. unfold StorageConfig.validate. repeat (apply res_bind_no_panic; [apply guard_err_np | intros _ _]). apply guard_err_np. Qed.


