(* ===== verification/Store.v ===== *)
(** * Stores of records, and effects on a shared state

    What the readers and writers of tables have in common: the small monad of
    operations that update a shared state and may fail, and the theory of the
    newest record of a key in a collection of records, which is what every
    read of the engine is about. *)

From stdpp Require Import sets.
From S2P Require Import Prelude Bytes OrdMap Record.

(** ** Operations on a shared state

    The state survives an error: what an operation changed before it failed
    stays changed. *)

Definition eff (S A : Type) : Type := S → res A * S.

#[export] Instance eff_ret S : MRet (eff S) := λ A a s, (Ok a, s).
#[export] Instance eff_bind S : MBind (eff S) := λ A B f p s,
  match p s with
  | (Ok a, s) => f a s
  | (Err e, s) => (Err e, s)
  | (Panic, s) => (Panic, s)
  end.
(** A computation that does not touch the state. *)
Definition pure_eff {S A} (m : res A) : eff S A := λ s, (m, s).
Lemma eff_bind_Ok {S A B} (p : eff S A) (f : A → eff S B) s b s' :
  (p ≫= f) s = (Ok b, s') → ∃ a s1, p s = (Ok a, s1) ∧ f a s1 = (Ok b, s').
Proof. unfold mbind, eff_bind. destruct (p s) as [[a|e|] s1]; [|done|done]. intros Hf. by exists a, s1. Qed.

(** [p] run from [s] ends with [a] in a state related to [s] by [R]. *)
Definition runs {S A} (R : S → S → Prop) (p : eff S A) (a : A) (s : S) : Prop :=
  ∃ s', p s = (Ok a, s') ∧ R s s'.

Section runs.
Context {S : Type} (R : S → S → Prop) `{!PreOrder R}.

Lemma runs_ret {A} (a : A) s : runs R (mret a) a s.
Proof. by exists s. Qed.
Lemma runs_pure {A} (m : res A) a s : m = Ok a → runs R (pure_eff m) a s.
Proof. intros ->. by exists s. Qed.
Lemma runs_bind {A B} (p : eff S A) (f : A → eff S B) a b s :
  runs R p a s → (∀ s', R s s' → runs R (f a) b s') → runs R (p ≫= f) b s.
Proof.
  intros (s1 & Hp & H1) Hf. destruct (Hf s1 H1) as (s2 & Hf2 & H2). exists s2.
  split; [|by etrans]. unfold mbind, eff_bind. by rewrite Hp.
Qed.
End runs.
Ltac run_bind := eapply runs_bind; [typeclasses eauto | | ].
Ltac run_pure := eapply runs_pure; [typeclasses eauto|].
Ltac run_ret := apply runs_ret; typeclasses eauto.

(** ** The newest record of a key *)

Implicit Types (k : bytes) (r : MemtableRecord.t) (rs : list MemtableRecord.t).

(** The record with the highest sequence number, the first of equals. *)
Definition newer (k : bytes) (best : option MemtableRecord.t) (r : MemtableRecord.t)
    : option MemtableRecord.t :=
  if bool_decide (MemtableRecord.key r = k) then
    match best with
    | None => Some r
    | Some b => if MemtableRecord.lsn b <? MemtableRecord.lsn r then Some r else Some b
    end
  else best.
Definition newest (k : bytes) (rs : list MemtableRecord.t) : option MemtableRecord.t :=
  foldl (newer k) None rs.

(** What a reader gets to see of a record: a tombstone hides the key. *)
Definition visible (o : option MemtableRecord.t) : option bytes :=
  match o with
  | Some r => match MemtableRecord.record_type r with
              | Put => Some (MemtableRecord.value r) | Delete => None end
  | None => None
  end.

Definition is_newest k rs r : Prop :=
  r ∈ rs ∧ MemtableRecord.key r = k ∧
  ∀ r', r' ∈ rs → MemtableRecord.key r' = k → MemtableRecord.lsn r' <= MemtableRecord.lsn r.
(** A key and a sequence number identify a record. *)
Definition lsn_unique rs : Prop :=
  ∀ r r', r ∈ rs → r' ∈ rs → MemtableRecord.key r = MemtableRecord.key r' →
    MemtableRecord.lsn r = MemtableRecord.lsn r' → r = r'.

Lemma newest_spec k rs :
  match newest k rs with
  | Some r => is_newest k rs r
  | None => ∀ r, r ∈ rs → MemtableRecord.key r ≠ k
  end.
Proof.
  unfold newest. induction rs as [|r rs IH] using rev_ind; [by intros r ?%elem_of_nil|].
  rewrite foldl_snoc. unfold newer at 1. case_bool_decide as Hk.
  - destruct (foldl (newer k) None rs) as [b|].
    + destruct IH as (Hb & Hkb & Hmax). destruct (Z.ltb_spec (MemtableRecord.lsn b) (MemtableRecord.lsn r)).
      * split_and!; [set_solver | done|]. intros r' [Hr'| ->%list_elem_of_singleton]%elem_of_app Hk'; [|lia].
        specialize (Hmax r' Hr' Hk'). lia.
      * split_and!; [set_solver | done|].
        intros r' [Hr'| ->%list_elem_of_singleton]%elem_of_app Hk'; [by apply Hmax | done].
    + split_and!; [set_solver | done|]. intros r' [Hr'| ->%list_elem_of_singleton]%elem_of_app Hk'; [|lia].
      by destruct (IH r' Hr').
  - destruct (foldl (newer k) None rs) as [b|].
    + destruct IH as (Hb & Hkb & Hmax). split_and!; [set_solver | done|].
      intros r' [Hr'| ->%list_elem_of_singleton]%elem_of_app Hk'; [by apply Hmax | done].
    + intros r' [Hr'| ->%list_elem_of_singleton]%elem_of_app; auto.
Qed.
Lemma newest_Some k rs r : lsn_unique rs → newest k rs = Some r ↔ is_newest k rs r.
Proof.
  intros Hu. pose proof (newest_spec k rs) as Hs. split; [intros Hr; by rewrite Hr in Hs|].
  intros (Hr & Hk & Hmax). destruct (newest k rs) as [b|]; [|by destruct (Hs r Hr)].
  destruct Hs as (Hb & Hkb & Hmaxb). f_equal. apply Hu; [done | done | congruence |].
  specialize (Hmax b Hb Hkb). specialize (Hmaxb r Hr Hk). lia.
Qed.
Lemma newest_None k rs : newest k rs = None ↔ ∀ r, r ∈ rs → MemtableRecord.key r ≠ k.
Proof.
  pose proof (newest_spec k rs) as Hs. split; [intros Hn; by rewrite Hn in Hs|].
  intros Hn. destruct (newest k rs) as [b|]; [|done]. destruct Hs as (Hb & Hk & _). by destruct (Hn b Hb).
Qed.
Lemma lsn_unique_subset rs rs' : rs ⊆ rs' → lsn_unique rs' → lsn_unique rs.
Proof. intros Hs Hu r r' Hr Hr'. apply Hu; by apply Hs. Qed.

(** The newest record of a key is the same in two collections that agree on
    the key's newest records; in particular in two that have the same ones. *)
Lemma newest_dominated k rs rs' :
  lsn_unique rs' → rs ⊆ rs' →
  (∀ r, r ∈ rs' → MemtableRecord.key r = k →
    ∃ r', r' ∈ rs ∧ MemtableRecord.key r' = k ∧ MemtableRecord.lsn r <= MemtableRecord.lsn r') →
  newest k rs = newest k rs'.
Proof.
  intros Hu Hsub Hdom. destruct (newest k rs) as [b|] eqn:E.
  - symmetry. apply newest_Some; [done|]. pose proof (newest_spec k rs) as Hs. rewrite E in Hs.
    destruct Hs as (Hb & Hk & Hmax). split_and!; [by apply Hsub | done|].
    intros r Hr Hkr. destruct (Hdom r Hr Hkr) as (r' & Hr' & Hk' & Hle). specialize (Hmax r' Hr' Hk'). lia.
  - symmetry. apply newest_None. intros r Hr Hkr. destruct (Hdom r Hr Hkr) as (r' & Hr' & Hk' & _).
    by apply (proj1 (newest_None k rs) E r').
Qed.
Lemma newest_ext k rs rs' :
  lsn_unique rs' → (∀ r, MemtableRecord.key r = k → r ∈ rs ↔ r ∈ rs') → newest k rs = newest k rs'.
Proof.
  intros Hu Hiff. destruct (newest k rs) as [b|] eqn:E; symmetry.
  - apply newest_Some; [done|]. pose proof (newest_spec k rs) as Hs. rewrite E in Hs.
    destruct Hs as (Hb & Hk & Hmax). split_and!; [by apply Hiff | done|].
    intros r Hr Hkr. apply Hmax; [by apply Hiff | done].
  - apply newest_None. intros r Hr Hkr. apply (proj1 (newest_None k rs) E r); [by apply Hiff | done].
Qed.

(** The better of two records, the first of equals. *)
Definition join (o1 o2 : option MemtableRecord.t) : option MemtableRecord.t :=
  match o1, o2 with
  | Some b, Some r => if MemtableRecord.lsn b <? MemtableRecord.lsn r then Some r else Some b
  | None, o => o
  | o, None => o
  end.
Lemma newer_fold k o rs : foldl (newer k) o rs = join o (newest k rs).
Proof.
  unfold newest. induction rs as [|x rs IH] using rev_ind; [by destruct o|].
  rewrite !foldl_snoc, IH. generalize (foldl (newer k) None rs) as n. intros n.
  unfold newer. case_bool_decide; [|done]. destruct o as [b|], n as [y|]; simpl; try done.
  repeat (match goal with |- context [?a <? ?b] => destruct (Z.ltb_spec a b) end; simpl); done || lia.
Qed.
Lemma newest_app k rs1 rs2 : newest k (rs1 ++ rs2) = join (newest k rs1) (newest k rs2).
Proof. unfold newest at 1. by rewrite foldl_app, newer_fold. Qed.
Lemma newest_snoc k rs r : newest k (rs ++ [r]) = newer k (newest k rs) r.
Proof. unfold newest. by rewrite foldl_snoc. Qed.
Lemma newest_cons k r rs : newest k (r :: rs) = join (newest k [r]) (newest k rs).
Proof. apply (newest_app k [r] rs). Qed.
Lemma join_None_r o : join o None = o.
Proof. by destruct o. Qed.
Lemma join_left k r rs :
  (∀ r', r' ∈ rs → MemtableRecord.key r' = k → MemtableRecord.lsn r' <= MemtableRecord.lsn r) →
  join (Some r) (newest k rs) = Some r.
Proof.
  intros Hle. pose proof (newest_spec k rs) as Hs. destruct (newest k rs) as [b|]; [|done]. simpl.
  destruct Hs as (Hb & Hk & _). by rewrite (proj2 (Z.ltb_ge _ _)) by (by apply Hle).
Qed.

(** ** Operations that keep an invariant

    [ends I Q p s]: run from [s], [p] does not panic, and however it ends the
    state satisfies [I]; when it succeeds, [Q] holds of the result as well. *)
Definition ends {S A} (I : S → Prop) (Q : A → S → Prop) (p : eff S A) (s : S) : Prop :=
  match p s with
  | (Ok a, s') => I s' ∧ Q a s'
  | (Err _, s') => I s'
  | (Panic, _) => False
  end.

Section ends.
Context {S : Type} (I : S → Prop).
Implicit Types (s : S).

Lemma ends_ret {A} (Q : A → S → Prop) a s : I s → Q a s → ends I Q (mret a) s.
Proof. by split. Qed.
Lemma ends_pure {A} (Q : A → S → Prop) m s :
  I s → m ≠ Panic → (∀ a, m = Ok a → Q a s) → ends I Q (pure_eff m) s.
Proof. intros Hi Hm Hq. unfold ends, pure_eff. destruct m; auto. Qed.
Lemma ends_bind {A B} (P : A → S → Prop) (Q : B → S → Prop) (p : eff S A) (f : A → eff S B) s :
  ends I P p s → (∀ a s', I s' → P a s' → ends I Q (f a) s') → ends I Q (p ≫= f) s.
Proof.
  unfold ends, mbind, eff_bind. destruct (p s) as [[a|e|] s'] eqn:Ep; [|done|done].
  intros [Hi Hp] Hf. by apply Hf.
Qed.
Lemma ends_weaken {A} (J : S → Prop) (P Q : A → S → Prop) (p : eff S A) s :
  ends J P p s → (∀ s', J s' → I s') → (∀ a s', J s' → P a s' → Q a s') → ends I Q p s.
Proof. unfold ends. destruct (p s) as [[a|e|] s']; naive_solver. Qed.
Lemma ends_post {A} (P Q : A → S → Prop) (p : eff S A) s :
  ends I P p s → (∀ a s', I s' → P a s' → Q a s') → ends I Q p s.
Proof. intros Hp Hpq. by apply (ends_weaken I P). Qed.
End ends.
Ltac ends_bind Q := eapply (ends_bind _ Q).
