(* ===== verification/Read.v ===== *)
(** * The read manager: [src/src/storage/readmanager/read.rs]

    Point lookups and range scans over the memtable and the tables of the
    manifest.  Files are read through the manifest's cache of handles, so an
    operation is an effect on the manifest manager; [open] is [File::open].
    The read lease excludes publications for the whole operation, which is why
    an operation sees one manifest. *)

From S2P Require Import Prelude Bytes OrdMap Search Record Block Bloom Index Footer LegacyBlock SSTable.
From S2P Require Import Wal Manifest Store.

(** A memtable: records by key and sequence number ([SkipMap]). *)
Abbreviation memtable := (ordmap (bytes * Z) MemtableRecord.t).

(** ** Ranges *)

(** [std::ops::Bound], and the pair of bounds of a [RangeBounds]. *)
Inductive Bound (A : Type) : Type :=
| Included (a : A)
| Excluded (a : A)
| Unbounded.
Arguments Included {A} a.
Arguments Excluded {A} a.
Arguments Unbounded {A}.
Abbreviation key_range := (Bound bytes * Bound bytes)%type.

(** Whether [SkipMap::range] yields an entry. *)
Definition above {K} `{OrdKey K} (lo : Bound K) (k : K) : bool :=
  match lo with Included a => kleb a k | Excluded a => kltb a k | Unbounded => true end.
Definition below {K} `{OrdKey K} (hi : Bound K) (k : K) : bool :=
  match hi with Included a => kleb k a | Excluded a => kltb k a | Unbounded => true end.
Definition om_range {K V} `{OrdKey K} (lo hi : Bound K) (m : ordmap K V) : list (K * V) :=
  List.filter (λ e, above lo (fst e) && below hi (fst e)) m.

Definition collect_range_bounds (range : key_range) : Bound (bytes * Z) * Bound (bytes * Z) :=
  (match fst range with
   | Included key => Included (key, 0)
   | Excluded key => Excluded (key, u64_max)
   | Unbounded => Unbounded
   end,
   match snd range with
   | Included key => Included (key, u64_max)
   | Excluded key => Excluded (key, 0)
   | Unbounded => Unbounded
   end).

Definition bound_key {A} (b : Bound A) : option A :=
  match b with Included a | Excluded a => Some a | Unbounded => None end.
Definition ranges_overlap (range : key_range) (sst_start sst_end : bytes) : bool :=
  if match bound_key (snd range) with Some e => bytes_ltb e sst_start | None => false end then false
  else if match bound_key (fst range) with Some s => bytes_ltb sst_end s | None => false end then false
  else true.

Definition key_in_range (key : bytes) (range : key_range) : bool :=
  if match fst range with
     | Included start => bytes_ltb key start
     | Excluded start => bytes_leb key start
     | Unbounded => false
     end then false
  else if match snd range with
     | Included end_ => bytes_ltb end_ key
     | Excluded end_ => bytes_leb end_ key
     | Unbounded => false
     end then false
  else true.

Definition is_delete (t : RecordType) : bool := match t with Delete => true | Put => false end.
Definition is_newer_record (candidate current : MemtableRecord.t) : bool :=
  (MemtableRecord.lsn current <? MemtableRecord.lsn candidate)
  || ((MemtableRecord.lsn candidate =? MemtableRecord.lsn current)
      && is_delete (MemtableRecord.record_type candidate)
      && negb (is_delete (MemtableRecord.record_type current))).

(** The map of the best record per key a scan fills. *)
Definition merge_record (merged : ordmap bytes MemtableRecord.t) (key : bytes)
    (candidate : MemtableRecord.t) : ordmap bytes MemtableRecord.t :=
  match om_get key merged with
  | Some current => if is_newer_record candidate current then om_insert key candidate merged else merged
  | None => om_insert key candidate merged
  end.

(** ** The manager *)

Module ReadManager.
Section read.
Context `{Crc32, FastBloom} (open : bytes → res bytes).
Abbreviation mgr := (eff ManifestManager.t).

Definition open_file (path : bytes) : mgr bytes :=
  λ m, ManifestManager.get_or_open_file open m path.

(** [levels.iter().collect()] sorted by level. *)
Definition sorted_levels (snapshot : ManifestSnapshot.t) : list (Z * list SSTableMeta.t) :=
  sort_by (λ x y, Z.compare (fst x) (fst y)) (ManifestSnapshot.levels snapshot).

(** *** Point lookups *)

(** The loop over the sparse index. *)
Fixpoint search_index (file : bytes) (footer : SSTableFooter.t) (index es : list SparseIndexEntry.t)
    (key : bytes) : res (option MemtableRecord.t) :=
  match es with
  | [] => mret None
  | entry :: es =>
      if bytes_ltb key (SparseIndexEntry.first_key entry)
         || bytes_ltb (SparseIndexEntry.last_key entry) key
      then search_index file footer index es key
      else
        block ← SSTableCodec.get_block file footer index (SparseIndexEntry.first_key entry);
        match List.find (λ r, bytes_eqb (MemtableRecord.key r) key) (default [] (Block.data block)) with
        | Some record => mret (Some record)
        | None => search_index file footer index es key
        end
  end.

Definition get_from_single_sstable (sstable : SSTableMeta.t) (key : bytes)
    : mgr (option MemtableRecord.t) :=
  file ← open_file (SSTableMeta.path sstable);
  '(footer, index, bloom) ← pure_eff (SSTableCodec.deserialize_sections file);
  if negb (BloomFilterWrapper.contains bloom key) then mret None
  else pure_eff (search_index file footer index index key).

(** Level 0: the best of all files. *)
Fixpoint best_of (files : list SSTableMeta.t) (key : bytes) (best : option MemtableRecord.t)
    : mgr (option MemtableRecord.t) :=
  match files with
  | [] => mret best
  | sstable :: files =>
      found ← get_from_single_sstable sstable key;
      best_of files key
        (match found, best with
         | Some record, Some current =>
             if MemtableRecord.lsn current <? MemtableRecord.lsn record then Some record else best
         | Some record, None => Some record
         | None, _ => best
         end)
  end.
(** Deeper levels: the first match. *)
Fixpoint first_of_files (files : list SSTableMeta.t) (key : bytes) : mgr (option MemtableRecord.t) :=
  match files with
  | [] => mret None
  | sstable :: files =>
      found ← get_from_single_sstable sstable key;
      match found with Some record => mret (Some record) | None => first_of_files files key end
  end.

Definition live_record (r : MemtableRecord.t) : option MemtableRecord.t :=
  match MemtableRecord.record_type r with Delete => None | Put => Some r end.
Fixpoint search_levels (levels : list (Z * list SSTableMeta.t)) (key : bytes)
    : mgr (option MemtableRecord.t) :=
  match levels with
  | [] => mret None
  | (level, files) :: levels =>
      found ← (if level =? 0 then best_of files key None else first_of_files (rev files) key);
      match found with
      | Some record => mret (live_record record)
      | None => search_levels levels key
      end
  end.
Definition get_from_sstable (snapshot : ManifestSnapshot.t) (key : bytes)
    : mgr (option MemtableRecord.t) :=
  search_levels (sorted_levels snapshot) key.

(** The newest version at or below the sequence number. *)
Definition get_from_memtable (mem : memtable) (key : bytes) (sequence_number : Z)
    : option MemtableRecord.t :=
  snd <$> last (om_range (Included (key, 0)) (Included (key, sequence_number)) mem).
Definition get (mem : memtable) (key : bytes) (sequence_number : Z)
    : mgr (option MemtableRecord.t) :=
  match get_from_memtable mem key sequence_number with
  | Some record => mret (Some record)
  | None =>
      snapshot ← (λ m, (Ok (ManifestManager.snapshot m), m));
      get_from_sstable snapshot key
  end.

(** *** Scans *)

Definition scan_memtable (mem : memtable) (range : key_range) (sequence_number : Z)
    : ordmap bytes MemtableRecord.t :=
  let '(lo, hi) := collect_range_bounds range in
  foldl (λ merged e,
    let '(key, lsn, record) := e in
    if sequence_number <? lsn then merged else merge_record merged key record)
    [] (om_range lo hi mem).

Definition scan_block (range : key_range) (sequence_number : Z)
    (merged : ordmap bytes MemtableRecord.t) (record : MemtableRecord.t)
    : ordmap bytes MemtableRecord.t :=
  if sequence_number <? MemtableRecord.lsn record then merged
  else if negb (key_in_range (MemtableRecord.key record) range) then merged
  else merge_record merged (MemtableRecord.key record) record.
Fixpoint scan_index (file : bytes) (footer : SSTableFooter.t) (index es : list SparseIndexEntry.t)
    (range : key_range) (sequence_number : Z) (merged : ordmap bytes MemtableRecord.t)
    : res (ordmap bytes MemtableRecord.t) :=
  match es with
  | [] => mret merged
  | entry :: es =>
      if negb (ranges_overlap range (SparseIndexEntry.first_key entry) (SparseIndexEntry.last_key entry))
      then scan_index file footer index es range sequence_number merged
      else
        block ← SSTableCodec.get_block file footer index (SparseIndexEntry.first_key entry);
        scan_index file footer index es range sequence_number
          (foldl (scan_block range sequence_number) merged (default [] (Block.data block)))
  end.
Definition scan_single_sstable (sstable : SSTableMeta.t) (range : key_range) (sequence_number : Z)
    (merged : ordmap bytes MemtableRecord.t) : mgr (ordmap bytes MemtableRecord.t) :=
  if negb (ranges_overlap range (SSTableMeta.smallest_key sstable) (SSTableMeta.largest_key sstable))
  then mret merged
  else
    file ← open_file (SSTableMeta.path sstable);
    '(footer, index, _) ← pure_eff (SSTableCodec.deserialize_sections file);
    pure_eff (scan_index file footer index index range sequence_number merged).
Fixpoint scan_files (files : list SSTableMeta.t) (range : key_range) (sequence_number : Z)
    (merged : ordmap bytes MemtableRecord.t) : mgr (ordmap bytes MemtableRecord.t) :=
  match files with
  | [] => mret merged
  | sstable :: files =>
      merged ← scan_single_sstable sstable range sequence_number merged;
      scan_files files range sequence_number merged
  end.
(** The two nested loops visit the files level by level. *)
Definition scan_sstables (snapshot : ManifestSnapshot.t) (range : key_range) (sequence_number : Z)
    (merged : ordmap bytes MemtableRecord.t) : mgr (ordmap bytes MemtableRecord.t) :=
  scan_files (sorted_levels snapshot ≫= snd) range sequence_number merged.

Definition scan_records_range (mem : memtable) (range : key_range) (sequence_number : Z)
    : mgr (list (bytes * MemtableRecord.t)) :=
  snapshot ← (λ m, (Ok (ManifestManager.snapshot m), m));
  merged ← scan_sstables snapshot range sequence_number (scan_memtable mem range sequence_number);
  mret (sort_by (λ x y, bytes_cmp (fst x) (fst y))
          (List.filter (λ e, negb (is_delete (MemtableRecord.record_type (snd e)))) merged)).
Definition scan_range (mem : memtable) (range : key_range) (sequence_number : Z)
    : mgr (list (bytes * bytes)) :=
  results ← scan_records_range mem range sequence_number;
  mret ((λ e, (fst e, MemtableRecord.value (snd e))) <$> results).
End read.
End ReadManager.
