(* ===== verification/ReadTheory.v ===== *)
(** * Reads return the newest version

    The store a reader sees (a memtable and the tables of the manifest) as a
    collection of records, the invariant the writers keep, and the theorems:
    a point lookup returns what the newest record of the key says, and a scan
    returns the newest live version of every key in the range, in order. *)

From stdpp Require Import sets.
From Stdlib Require Import Sorted.
From S2P Require Import Prelude Bytes OrdMap Search Record Block Bloom Index Footer LegacyBlock SSTable.
From S2P Require Import Wal Manifest Store Read.

(** ** The files behind the cache *)

Section cache.
Context (open : bytes → res bytes).

(** A cached handle reads the file its path names. *)
Definition cache_ok (m : ManifestManager.t) : Prop :=
  ∀ p h, om_get p (LruFileCache.handles (ManifestManager.file_cache m)) = Some h → open p = Ok h.
(** What a read leaves unchanged. *)
Definition same_manifest (m m' : ManifestManager.t) : Prop :=
  ManifestManager.state m' = ManifestManager.state m ∧
  ManifestManager.file m' = ManifestManager.file m ∧ (cache_ok m → cache_ok m').
#[global] Instance same_manifest_preorder : PreOrder same_manifest.
Proof.
  split; [done|]. intros x y z (Hs1 & Hf1 & Hc1) (Hs2 & Hf2 & Hc2).
  split_and!; [by rewrite Hs2 | by rewrite Hf2 | auto].
Qed.

Lemma open_file_runs m p h :
  cache_ok m → open p = Ok h → runs same_manifest (ReadManager.open_file open p) h m.
Proof.
  intros Hc Ho. unfold runs, ReadManager.open_file, ManifestManager.get_or_open_file, LruFileCache.get_or_open.
  destruct (om_get p (LruFileCache.handles (ManifestManager.file_cache m))) as [h'|] eqn:E.
  { pose proof (Hc _ _ E) as Ho'. rewrite Ho in Ho'. injection Ho' as <-. eexists. split; [done|].
    split_and!; [done | done|]. intros _ q x Hq. by apply Hc. }
  rewrite Ho. eexists. split; [done|]. split_and!; [done | done|]. intros _ q x. simpl.
  rewrite om_get_insert. case_decide as Hq; [subst; by intros [= <-]|].
  case_match; [|apply Hc]. unfold LruFileCache.evict_oldest. case_match; [apply Hc|]. simpl.
  intros Hx. destruct (decide (q = l)) as [->|Hne]; [by rewrite om_get_remove_eq in Hx|].
  rewrite om_get_remove_ne in Hx by done. by apply Hc.
Qed.
End cache.

(** ** One table *)

Section table.
Context `{Crc32Spec, FastBloomSpec} (open : bytes → res bytes).
Implicit Types (rs : list MemtableRecord.t) (k key : bytes).

(** The content of a table file: what the codec writes for sorted records,
    with a filter that knows all of them. *)
Definition table_file (bs : bytes) (rs : list MemtableRecord.t) : Prop :=
  ∃ c, bs = (SSTableCodec.serialize c).1 ∧ (table_wf c ∧ bloom_shape (SSTableCodec.bloom c)) ∧
       table_records c = rs ∧ rs ≠ [] ∧
       ∀ r, r ∈ rs → BloomFilterWrapper.contains (SSTableCodec.bloom c) (MemtableRecord.key r) = true.
(** The manifest's metadata with the records of the file it names. *)
Definition holds (t : SSTableMeta.t * list MemtableRecord.t) : Prop :=
  ∃ bs, open (SSTableMeta.path t.1) = Ok bs ∧ table_file bs t.2 ∧
        SSTableMeta.smallest_key t.1 = first_of t.2 ∧ SSTableMeta.largest_key t.1 = last_of t.2.

Definition find_key (k : bytes) (rs : list MemtableRecord.t) : option MemtableRecord.t :=
  List.find (λ r, bytes_eqb (MemtableRecord.key r) k) rs.
Lemma find_key_app k rs1 rs2 :
  find_key k (rs1 ++ rs2) = match find_key k rs1 with Some r => Some r | None => find_key k rs2 end.
Proof.
  unfold find_key. induction rs1 as [|r rs1 IH]; simpl; [done|].
  by destruct (bytes_eqb (MemtableRecord.key r) k).
Qed.
Lemma find_key_None k rs : (∀ r, r ∈ rs → MemtableRecord.key r ≠ k) → find_key k rs = None.
Proof.
  intros Hn. unfold find_key. destruct (List.find _ rs) as [r|] eqn:E; [|done].
  apply List.find_some in E as [Hin%list_elem_of_In He%bool_decide_eq_true_1]. by destruct (Hn r).
Qed.
(** In a sorted table every key occurs once. *)
Lemma find_key_newest k rs : keys_sorted rs → find_key k rs = newest k rs.
Proof.
  unfold keys_sorted. induction 1 as [|r rs Hs IH Hf]; [done|]. rewrite newest_cons. unfold newest at 1.
  simpl. unfold newer. unfold bytes_eqb. case_bool_decide as Hk; [|done].
  rewrite (proj2 (newest_None k rs)); [done|]. intros r' Hr' Hk'. rewrite Forall_forall in Hf.
  specialize (Hf r' Hr'). rewrite Hk, Hk' in Hf. by apply klt_irrefl in Hf.
Qed.
Lemma keys_sorted_unique rs : keys_sorted rs → lsn_unique rs.
Proof.
  unfold keys_sorted, lsn_unique. induction 1 as [|x rs Hs IH Hf]; [by intros ?? ?%elem_of_nil|].
  rewrite Forall_forall in Hf. intros r r' [->|Hr]%elem_of_cons [->|Hr']%elem_of_cons Hk Hl; auto.
  - specialize (Hf r' Hr'). rewrite Hk in Hf. by apply klt_irrefl in Hf.
  - specialize (Hf r Hr). rewrite Hk in Hf. by apply klt_irrefl in Hf.
Qed.

Lemma search_index_serialized c off bs key :
  table_wf c → (∀ b, b ∈ bs → b ∈ SSTableCodec.blocks c) →
  ReadManager.search_index (SSTableCodec.serialize c).1 (footer_of c) (table_index c)
    (index_from off bs) key = Ok (find_key key (blocks_records bs)).
Proof.
  intros Hc. revert off. induction bs as [|b bs IH]; intros off Hin; [done|].
  cbn [index_from ReadManager.search_index SparseIndexEntry.first_key SparseIndexEntry.last_key].
  pose proof (Hin b (list_elem_of_here _ _)) as [i Hi]%list_elem_of_lookup_1.
  assert (block_wf b) as Hb by (pose proof (tw_blocks c Hc) as Hw; rewrite Forall_lookup in Hw; eauto).
  change (blocks_records (b :: bs)) with (block_records b ++ blocks_records bs). rewrite find_key_app.
  assert (∀ off, ReadManager.search_index (SSTableCodec.serialize c).1 (footer_of c) (table_index c)
    (index_from off bs) key = Ok (find_key key (blocks_records bs))) as IH'.
  { intros. apply IH. intros b' Hb'. apply Hin. by right. }
  rewrite (bytes_ltb_kltb key), (bytes_ltb_kltb _ key).
  destruct (kltb key (Block.first_key b) || kltb (Block.last_key b) key) eqn:E.
  - rewrite find_key_None; [apply IH'|]. intros r Hr Hk.
    destruct (block_range b r Hb Hr) as [Hr1 Hr2]. rewrite Hk in *.
    apply orb_true_iff in E as [E%kltb_lt|E%kltb_lt]; by apply klt_not_le in E.
  - rewrite (get_block_serialized c i b) by (auto using kle_refl, block_first_le_last).
    cbn [mbind res_bind at_offset Block.data]. fold (block_records b). fold (find_key key (block_records b)).
    destruct (find_key key (block_records b)); [done | apply IH'].
Qed.

Lemma get_single_runs m t k :
  cache_ok open m → holds t →
  runs (same_manifest open) (ReadManager.get_from_single_sstable open t.1 k) (newest k t.2) m.
Proof.
  intros Hm (bs & Ho & (c & -> & (Hc & _) & Hrs & Hne & Hbl) & _).
  destruct (deserialize_serialize c Hc) as (bloom & Hd & Hk). unfold ReadManager.get_from_single_sstable.
  run_bind; [by apply open_file_runs | intros m1 Hs1].
  run_bind; [run_pure; exact Hd | intros m2 Hs2]. cbv beta iota.
  rewrite Hk. destruct (BloomFilterWrapper.contains _ k) eqn:E; simpl negb; cbv iota.
  - run_pure. unfold table_index at 2. rewrite search_index_serialized by done.
    f_equal. rewrite <- Hrs. apply find_key_newest, (tw_sorted c Hc).
  - rewrite (proj2 (newest_None k t.2)); [run_ret|]. intros r Hr <-. by rewrite Hbl in E.
Qed.
End table.

(** ** Levels *)

(** The manifest's levels, each table with its records. *)
Abbreviation tables := (list (SSTableMeta.t * list MemtableRecord.t)).
Abbreviation level_tables := (list (Z * tables)).
Definition recs (ts : tables) : list MemtableRecord.t := ts ≫= snd.
Definition all_recs (ls : level_tables) : list MemtableRecord.t := ls ≫= (λ l, recs l.2).
Definition erase (ls : level_tables) : list (Z * list SSTableMeta.t) :=
  List.map (λ l : Z * tables, (l.1, List.map fst l.2)) ls.

Lemma elem_of_recs r ts : r ∈ recs ts ↔ ∃ t, t ∈ ts ∧ r ∈ t.2.
Proof. unfold recs. rewrite list_elem_of_bind. naive_solver. Qed.
Lemma elem_of_all_recs r ls : r ∈ all_recs ls ↔ ∃ l, l ∈ ls ∧ r ∈ recs l.2.
Proof. unfold all_recs. rewrite list_elem_of_bind. naive_solver. Qed.

(** Two tables that share no key. *)
Definition keys_disjoint (t1 t2 : SSTableMeta.t * list MemtableRecord.t) : Prop :=
  ∀ r1 r2, r1 ∈ t1.2 → r2 ∈ t2.2 → MemtableRecord.key r1 ≠ MemtableRecord.key r2.
(** Records of one level are at least as new as those of a deeper one. *)
Definition not_older (l1 l2 : Z * tables) : Prop :=
  l1.1 < l2.1 ∧
  ∀ r1 r2, r1 ∈ recs l1.2 → r2 ∈ recs l2.2 → MemtableRecord.key r1 = MemtableRecord.key r2 →
    MemtableRecord.lsn r2 <= MemtableRecord.lsn r1.

(** The invariant of the levels: deeper levels are partitioned by key and
    hold older versions. *)
Record levels_inv (ls : level_tables) : Prop := {
  li_order : StronglySorted not_older ls;
  li_disjoint : ∀ l, l ∈ ls → l.1 ≠ 0 → ForallOrdPairs keys_disjoint l.2;
  li_nonneg : ∀ l, l ∈ ls → 0 <= l.1;
  li_unique : lsn_unique (all_recs ls)
}.

Section levels.
Context `{Crc32Spec, FastBloomSpec} (open : bytes → res bytes).
Abbreviation same := (same_manifest open).

Lemma same_cache m m' : cache_ok open m → same m m' → cache_ok open m'.
Proof. intros Hm (_ & _ & Hc). auto. Qed.

Lemma best_of_runs ts m k best :
  cache_ok open m → Forall (holds open) ts →
  runs same (ReadManager.best_of open (fst <$> ts) k best) (join best (newest k (recs ts))) m.
Proof.
  intros Hm Ht. revert m Hm best. induction Ht as [|t ts Ht Hts IH]; intros m Hm best.
  { simpl. rewrite join_None_r. run_ret. }
  cbn [ReadManager.best_of fmap list_fmap]. run_bind; [by apply get_single_runs | intros m1 Hs].
  change (recs (t :: ts)) with (t.2 ++ recs ts). rewrite newest_app.
  assert (join best (join (newest k t.2) (newest k (recs ts))) =
    join (match newest k t.2 with
          | Some record => match best with
              | Some current => if MemtableRecord.lsn current <? MemtableRecord.lsn record then Some record else best
              | None => Some record end
          | None => best end) (newest k (recs ts))) as ->.
  { destruct best as [b|], (newest k t.2) as [x|], (newest k (recs ts)) as [y|]; simpl; try done;
    repeat (match goal with |- context [?a <? ?b] => destruct (Z.ltb_spec a b) end; simpl); done || lia. }
  apply IH. by eapply same_cache.
Qed.

Lemma first_of_files_runs ts m k :
  cache_ok open m → Forall (holds open) ts → ForallOrdPairs keys_disjoint ts →
  runs same (ReadManager.first_of_files open (fst <$> ts) k) (newest k (recs ts)) m.
Proof.
  intros Hm Ht Hd. revert m Hm Ht. induction Hd as [|t ts Hdt Hd IH]; intros m Hm Ht; [run_ret|].
  apply Forall_cons_1 in Ht as [Ht Hts].
  cbn [ReadManager.first_of_files fmap list_fmap]. run_bind; [by apply get_single_runs | intros m1 Hs].
  change (recs (t :: ts)) with (t.2 ++ recs ts). rewrite newest_app.
  pose proof (newest_spec k t.2) as Hn. destruct (newest k t.2) as [r|].
  - destruct Hn as (Hr & Hk & _). rewrite join_left; [run_ret|].
    intros r' (t' & Ht' & Hr')%elem_of_recs Hk'. rewrite Forall_forall in Hdt.
    by destruct (Hdt t' Ht' r r'); [..|congruence].
  - apply IH; [by eapply same_cache | done].
Qed.

Lemma ForallOrdPairs_rev {A} (R : A → A → Prop) l :
  Symmetric R → ForallOrdPairs R l → ForallOrdPairs R (rev l).
Proof.
  intros Hsym. induction 1 as [|x l Hx Hl IH]; [constructor|]. simpl.
  assert (Forall (R x) (rev l)) as Hx' by (rewrite Forall_forall in *; intros y Hy; apply Hx;
    by rewrite list_elem_of_In, <- in_rev, <- list_elem_of_In in Hy).
  revert IH Hx'. generalize (rev l) as l'. induction l' as [|y l' IH]; intros Hp Hf; simpl.
  { repeat constructor. }
  inversion Hp as [|? ? Hy Hp']; subst. apply Forall_cons_1 in Hf as [Hxy Hf].
  constructor; [|by apply IH]. apply Forall_app. split; [done|]. constructor; [by apply Hsym | constructor].
Qed.
Lemma keys_disjoint_sym : Symmetric keys_disjoint.
Proof. intros x y Hd r1 r2 Hr1 Hr2 Hk. by apply (Hd r2 r1). Qed.

Lemma level_runs l m k :
  cache_ok open m → Forall (holds open) l.2 → lsn_unique (recs l.2) →
  (l.1 ≠ 0 → ForallOrdPairs keys_disjoint l.2) →
  runs same (if l.1 =? 0 then ReadManager.best_of open (fst <$> l.2) k None
             else ReadManager.first_of_files open (rev (fst <$> l.2)) k) (newest k (recs l.2)) m.
Proof.
  intros Hm Ht Hu Hd. destruct (Z.eqb_spec l.1 0) as [Hz|Hz]; [by apply best_of_runs|].
  assert (rev (fst <$> l.2) = fst <$> rev l.2) as -> by (symmetry; apply map_rev).
  assert (∀ t, t ∈ rev l.2 ↔ t ∈ l.2) as Hrev.
  { intros t. by rewrite !list_elem_of_In, <- in_rev. }
  rewrite <- (newest_ext k (recs (rev l.2)) (recs l.2)).
  - apply first_of_files_runs; [done | | apply ForallOrdPairs_rev; [apply keys_disjoint_sym | by apply Hd]].
    rewrite Forall_forall in *. intros t Ht'. by apply Ht, Hrev.
  - done.
  - intros r _. rewrite !elem_of_recs. by setoid_rewrite Hrev.
Qed.

Lemma search_levels_runs ls m k :
  cache_ok open m → (∀ l, l ∈ ls → Forall (holds open) l.2) → levels_inv ls →
  runs same (ReadManager.search_levels open (erase ls) k)
    (newest k (all_recs ls) ≫= ReadManager.live_record) m.
Proof.
  intros Hm Ht [Ho Hd _ Hu]. revert m Hm Ht Hd Hu. induction Ho as [|l ls Hls IH Hl]; intros m Hm Ht Hd Hu; [run_ret|].
  cbn [erase fmap list_fmap ReadManager.search_levels].
  change (all_recs (l :: ls)) with (recs l.2 ++ all_recs ls) in *. rewrite newest_app.
  run_bind.
  { apply level_runs; [done | apply Ht; by left | | intros; apply Hd; [by left | done]].
    eapply lsn_unique_subset; [|exact Hu]. set_solver. }
  intros m1 Hs. pose proof (newest_spec k (recs l.2)) as Hn. destruct (newest k (recs l.2)) as [r|].
  - destruct Hn as (Hr & Hk & _). rewrite join_left; [run_ret|].
    intros r' (l' & Hl' & Hr')%elem_of_all_recs Hk'. rewrite Forall_forall in Hl.
    destruct (Hl l' Hl') as [_ Hle]. apply Hle; [done | done | congruence].
  - apply IH; [by eapply same_cache | intros; apply Ht; by right | intros; apply Hd; [by right | done] |].
    eapply lsn_unique_subset; [|exact Hu]. set_solver.
Qed.
End levels.

(** ** The memtable *)

Definition mem_record (e : bytes * Z * MemtableRecord.t) : MemtableRecord.t :=
  MemtableRecord.with_key (snd e) (fst (fst e)).
Definition mem_records (mem : memtable) : list MemtableRecord.t := List.map mem_record mem.
(** Entries are filed under their own sequence number. *)
Record mem_ok (mem : memtable) : Prop := {
  mo_wf : om_wf mem;
  mo_lsn : Forall (λ e, MemtableRecord.lsn (snd e) = snd (fst e) ∧ is_u64 (snd (fst e))) mem
}.
Definition upto (seq : Z) (rs : list MemtableRecord.t) : list MemtableRecord.t :=
  List.filter (λ r, MemtableRecord.lsn r <=? seq) rs.
Lemma elem_of_upto seq rs r : r ∈ upto seq rs ↔ r ∈ rs ∧ MemtableRecord.lsn r <= seq.
Proof. unfold upto. by rewrite !list_elem_of_In, filter_In, Z.leb_le. Qed.
Lemma elem_of_mem_records mem r : r ∈ mem_records mem ↔ ∃ e, e ∈ mem ∧ r = mem_record e.
Proof.
  unfold mem_records. rewrite list_elem_of_In, in_map_iff. setoid_rewrite <- list_elem_of_In. naive_solver.
Qed.
Lemma mem_record_fields e :
  MemtableRecord.key (mem_record e) = e.1.1 ∧ MemtableRecord.lsn (mem_record e) = MemtableRecord.lsn e.2 ∧
  MemtableRecord.value (mem_record e) = MemtableRecord.value e.2 ∧
  MemtableRecord.record_type (mem_record e) = MemtableRecord.record_type e.2.
Proof. done. Qed.

Lemma pair_klt {A B} `{OrdKey A, OrdKey B} (a c : A) (b d : B) :
  klt (a, b) (c, d) ↔ klt a c ∨ a = c ∧ klt b d.
Proof.
  unfold klt. cbn [kcmp pair_ordkey]. unfold pair_cmp. simpl. destruct (kcmp a c) eqn:E.
  - apply kcmp_eq in E as ->. naive_solver.
  - naive_solver.
  - split; [done|]. intros [?|[-> _]]; [done|]. by rewrite kcmp_refl in E.
Qed.
Lemma pair_kle {A B} `{OrdKey A, OrdKey B} (a c : A) (b d : B) :
  kle (a, b) (c, d) ↔ klt a c ∨ a = c ∧ kle b d.
Proof. rewrite kle_lt_eq, pair_klt, (kle_lt_eq b d). naive_solver. Qed.
Lemma Z_klt (a b : Z) : klt a b ↔ a < b.
Proof. done. Qed.
Lemma Z_kle (a b : Z) : kle a b ↔ a <= b.
Proof. done. Qed.

Lemma mem_lookup mem e : mem_ok mem → e ∈ mem → om_get (fst e) mem = Some (snd e).
Proof. intros [Hw _] He. apply om_get_Some; [done|]. by destruct e. Qed.
Lemma mem_unique mem : mem_ok mem → lsn_unique (mem_records mem).
Proof.
  intros Hm r r' (e & He & ->)%elem_of_mem_records (e' & He' & ->)%elem_of_mem_records Hk Hl. simpl in *.
  pose proof (mo_lsn mem Hm) as Hf. rewrite Forall_forall in Hf.
  destruct (Hf e He) as [Hn _], (Hf e' He') as [Hn' _].
  assert (fst e = fst e') as Hfst by (rewrite (surjective_pairing (fst e)), (surjective_pairing (fst e')); f_equal; [done|congruence]).
  pose proof (mem_lookup mem e Hm He) as H1'. pose proof (mem_lookup mem e' Hm He') as H2'.
  rewrite Hfst in H1'. rewrite H1' in H2'. injection H2' as H2'. unfold mem_record. by rewrite H2', Hfst.
Qed.

Lemma elem_of_range {K V} `{OrdKey K} lo hi (m : list (K * V)) e :
  e ∈ om_range lo hi m ↔ e ∈ m ∧ above lo (fst e) = true ∧ below hi (fst e) = true.
Proof. unfold om_range. by rewrite !list_elem_of_In, filter_In, andb_true_iff. Qed.
Lemma filter_om_wf {K V} `{OrdKey K} f (m : list (K * V)) : om_wf m → om_wf (List.filter f m).
Proof.
  unfold om_wf. induction 1 as [|x m Hs IH Hf]; simpl; [constructor|]. destruct (f x); [|done].
  constructor; [done|]. rewrite Forall_forall in *. intros y. rewrite list_elem_of_In, filter_In, <- list_elem_of_In.
  intros [Hy _]. auto.
Qed.

Lemma get_from_memtable_newest mem k seq :
  mem_ok mem →
  (λ r, MemtableRecord.with_key r k) <$> ReadManager.get_from_memtable mem k seq =
  newest k (upto seq (mem_records mem)).
Proof.
  intros Hm. unfold ReadManager.get_from_memtable.
  assert (∀ e, e ∈ om_range (Included (k, 0)) (Included (k, seq)) mem ↔
               e ∈ mem ∧ fst (fst e) = k ∧ snd (fst e) <= seq) as Hrange.
  { intros [[k' n] r]. rewrite elem_of_range. simpl. rewrite !kleb_le, !pair_kle, !Z_kle.
    pose proof (mo_lsn mem Hm) as Hf. rewrite Forall_forall in Hf. split.
    - intros (He & [Hlt|[<- _]] & Hhi); [|destruct Hhi as [?%klt_irrefl|[_ ?]]; [done|done]].
      destruct Hhi as [Hlt'|[-> _]]; [|by apply klt_irrefl in Hlt].
      by apply (klt_trans _ _ _ Hlt), klt_irrefl in Hlt'.
    - intros (He & -> & Hn). destruct (Hf _ He) as [_ Hu]. simpl in Hu. split_and!; [done|right; split; [done|word_lia] |auto]. }
  assert (om_wf (om_range (Included (k, 0)) (Included (k, seq)) mem)) as Hw by apply filter_om_wf, Hm.
  revert Hrange Hw. generalize (om_range (Included (k, 0)) (Included (k, seq)) mem) as R. intros R HR Hw.
  pose proof (mo_lsn mem Hm) as Hf. rewrite Forall_forall in Hf.
  assert (∀ r, r ∈ upto seq (mem_records mem) → MemtableRecord.key r = k → ∃ e, e ∈ R ∧ r = mem_record e) as Hin.
  { intros r [(e & He & ->)%elem_of_mem_records Hl]%elem_of_upto Hk. exists e. split; [|done].
    apply HR. split_and!; [done | done |]. destruct (Hf e He) as [<- _]. done. }
  destruct (last R) as [e|] eqn:El.
  - apply last_Some in El as [l ->]. simpl. symmetry. apply newest_Some.
    { eapply lsn_unique_subset; [|by apply mem_unique]. by intros r [? _]%elem_of_upto. }
    destruct (proj1 (HR e)) as (He & Hk & Hs); [set_solver|]. destruct (Hf e He) as [Hl _].
    assert (MemtableRecord.with_key e.2 k = mem_record e) as -> by (unfold mem_record; by rewrite Hk).
    split_and!; [| done |].
    + apply elem_of_upto. split; [apply elem_of_mem_records; eauto|]. simpl. by rewrite Hl.
    + intros r Hr Hkr. destruct (Hin r Hr Hkr) as (e' & [He'| ->%list_elem_of_singleton]%elem_of_app & ->); [|done].
      destruct (proj1 (HR e')) as (Hem & Hk' & _); [set_solver|]. simpl. destruct (Hf e' Hem) as [-> _]. rewrite Hl.
      assert (klt (fst e') (fst e)) as Hlt.
      { clear -Hw He'. unfold om_wf in Hw. induction l as [|x l IH]; [by apply elem_of_nil in He'|].
        simpl in Hw. apply StronglySorted_inv in Hw as [Hw Hfx]. apply elem_of_cons in He' as [->|He']; [|auto].
        rewrite Forall_forall in Hfx. apply Hfx. set_solver. }
      destruct (fst e') as [a b] eqn:Ea, (fst e) as [c d]. simpl in *. subst.
      apply pair_klt in Hlt as [?%klt_irrefl|[_ Hlt]]; [done|]. apply (proj1 (Z_klt _ _)) in Hlt. lia.
  - apply last_None in El as ->. simpl. symmetry. apply newest_None. intros r Hr Hk.
    destruct (Hin r Hr Hk) as (e & ?%elem_of_nil & _). done.
Qed.

(** ** The store a reader sees *)

(** Where the newer collection has a key at all, it has its newest version. *)
Definition dominates (rs rs' : list MemtableRecord.t) : Prop :=
  ∀ r r', r ∈ rs → r' ∈ rs' → MemtableRecord.key r = MemtableRecord.key r' →
    ∃ r'', r'' ∈ rs ∧ MemtableRecord.key r'' = MemtableRecord.key r' ∧
           MemtableRecord.lsn r' <= MemtableRecord.lsn r''.

Section store.
Context `{Crc32Spec, FastBloomSpec} (open : bytes → res bytes).

(** The manifest lists the tables [ls], which are on disk; the memtable has
    the newest version of every key it has; [seq] is not behind the tables. *)
Record store_at (m : ManifestManager.t) (mem : memtable) (ls : level_tables) (seq : Z) : Prop := {
  sa_cache : cache_ok open m;
  sa_levels : snapshot_levels (ManifestState.levels (ManifestManager.state m)) = erase ls;
  sa_holds : ∀ l, l ∈ ls → Forall (holds open) l.2;
  sa_inv : levels_inv ls;
  sa_mem : mem_ok mem;
  sa_unique : lsn_unique (mem_records mem ++ all_recs ls);
  sa_dominates : dominates (upto seq (mem_records mem)) (all_recs ls);
  sa_seq : ∀ r, r ∈ all_recs ls → MemtableRecord.lsn r <= seq
}.
(** All the records, up to a sequence number. *)
Definition store_records (mem : memtable) (ls : level_tables) (seq : Z) : list MemtableRecord.t :=
  upto seq (mem_records mem ++ all_recs ls).

Lemma upto_app seq rs1 rs2 : upto seq (rs1 ++ rs2) = upto seq rs1 ++ upto seq rs2.
Proof. unfold upto. by rewrite List.filter_app. Qed.
Lemma upto_all seq rs : (∀ r, r ∈ rs → MemtableRecord.lsn r <= seq) → upto seq rs = rs.
Proof.
  intros Hle. unfold upto. induction rs as [|r rs IH]; [done|]. simpl.
  rewrite (proj2 (Z.leb_le _ _)) by (apply Hle; by left). f_equal. apply IH. intros; apply Hle; by right.
Qed.

Lemma sorted_levels_erase m ls :
  StronglySorted not_older ls → snapshot_levels (ManifestState.levels (ManifestManager.state m)) = erase ls →
  ReadManager.sorted_levels (ManifestManager.snapshot m) = erase ls.
Proof.
  intros Hs He. unfold ReadManager.sorted_levels. simpl. rewrite He. apply sort_by_id.
  clear He. unfold erase. induction Hs as [|l ls Hs IH Hf]; simpl; [constructor|]. constructor; [done|].
  rewrite Forall_forall in Hf. apply Forall_forall. intros x (l' & <- & Hl'%list_elem_of_In)%list_elem_of_In%in_map_iff. simpl.
  destruct (Hf l' Hl') as [Hlt _]. rewrite (proj2 (Z.compare_lt_iff _ _)); done.
Qed.

(** What a read returns of the newest record of a key: all but the key field,
    which memtable records leave empty; a tombstone may be hidden. *)
Definition same_content (k : bytes) (a b : MemtableRecord.t) : Prop := MemtableRecord.with_key a k = b.
Definition answers (k : bytes) (o n : option MemtableRecord.t) : Prop :=
  match o, n with
  | Some a, Some b => same_content k a b
  | None, Some b => MemtableRecord.record_type b = Delete
  | None, None => True
  | Some _, None => False
  end.
Lemma answers_visible k o n : answers k o n → visible o = visible n.
Proof. destruct o as [a|], n as [b|]; simpl; try done; [by intros <- | by intros ->]. Qed.

Lemma get_answers m mem ls seq k :
  store_at m mem ls seq →
  ∃ o, runs (same_manifest open) (ReadManager.get open mem k seq) o m ∧
       answers k o (newest k (store_records mem ls seq)).
Proof.
  intros [Hc Hl Ht Hi Hm Hu Hd Hs]. unfold ReadManager.get, store_records.
  rewrite upto_app, (upto_all seq (all_recs ls)), newest_app by done.
  pose proof (get_from_memtable_newest mem k seq Hm) as Hg.
  destruct (ReadManager.get_from_memtable mem k seq) as [r|]; simpl in Hg.
  - exists (Some r). split; [run_ret|]. pose proof (newest_spec k (upto seq (mem_records mem))) as Hn.
    rewrite <- Hg in *. rewrite join_left; [done|]. destruct Hn as (Hin & Hk & Hmax).
    intros r' Hr' Hk'. destruct (Hd _ r' Hin Hr') as (r'' & Hr'' & Hk'' & Hle); [congruence|].
    specialize (Hmax r'' Hr'' ltac:(congruence)). lia.
  - rewrite <- Hg. simpl. exists (newest k (all_recs ls) ≫= ReadManager.live_record). split.
    + eapply runs_bind; [apply _ | by exists m | intros m1 Hs1].
      unfold ReadManager.get_from_sstable.
      rewrite (sorted_levels_erase m ls) by (destruct Hi; done).
      apply search_levels_runs; [by eapply same_cache | done | done].
    + pose proof (newest_spec k (all_recs ls)) as Hn.
      destruct (newest k (all_recs ls)) as [[ty lsn key v]|]; [|done]. destruct Hn as (_ & Hk & _). simpl in Hk. subst key.
      by destruct ty.
Qed.
Lemma get_runs m mem ls seq k :
  store_at m mem ls seq →
  ∃ o, runs (same_manifest open) (ReadManager.get open mem k seq) o m ∧
       visible o = visible (newest k (store_records mem ls seq)).
Proof. intros Hst. destruct (get_answers m mem ls seq k Hst) as (o & Hr & Ha). exists o. split; [done|]. by eapply answers_visible. Qed.

(** ** Scans *)

(** The map of a scan holds the newest record of every key, up to the key
    field. *)
Definition merged_of (merged : ordmap bytes MemtableRecord.t) (rs : list MemtableRecord.t) : Prop :=
  om_wf merged ∧
  ∀ k, match om_get k merged, newest k rs with
       | Some a, Some b => same_content k a b
       | None, None => True
       | _, _ => False
       end.
Definition in_scan (range : key_range) (seq : Z) (r : MemtableRecord.t) : bool :=
  (MemtableRecord.lsn r <=? seq) && key_in_range (MemtableRecord.key r) range.

Lemma merge_record_step merged rs cand r :
  merged_of merged rs → lsn_unique (rs ++ [r]) → same_content (MemtableRecord.key r) cand r →
  merged_of (merge_record merged (MemtableRecord.key r) cand) (rs ++ [r]).
Proof.
  intros [Hw Hm] Hu Hc. assert (MemtableRecord.lsn cand = MemtableRecord.lsn r) as Hl by (by rewrite <- Hc).
  assert (MemtableRecord.record_type cand = MemtableRecord.record_type r) as Hty by (by rewrite <- Hc).
  unfold merge_record. pose proof (Hm (MemtableRecord.key r)) as Hmk.
  pose proof (newest_spec (MemtableRecord.key r) rs) as Hn.
  assert (∀ merged', om_wf merged' → (∀ k, k ≠ MemtableRecord.key r → om_get k merged' = om_get k merged) →
    match om_get (MemtableRecord.key r) merged', newer (MemtableRecord.key r) (newest (MemtableRecord.key r) rs) r with
    | Some a, Some b => same_content (MemtableRecord.key r) a b | None, None => True | _, _ => False end →
    merged_of merged' (rs ++ [r])) as Hgoal.
  { intros m' Hw' Hne Hk. split; [done|]. intros k. rewrite newest_snoc.
    destruct (decide (k = MemtableRecord.key r)) as [->|Hkr]; [done|].
    rewrite Hne by done. unfold newer. rewrite bool_decide_false by done. apply Hm. }
  destruct (om_get (MemtableRecord.key r) merged) as [a|] eqn:Ea;
    destruct (newest (MemtableRecord.key r) rs) as [b|]; try done.
  - assert (MemtableRecord.lsn a = MemtableRecord.lsn b) as Hab by (by rewrite <- Hmk).
    assert (MemtableRecord.record_type a = MemtableRecord.record_type b) as Htab by (by rewrite <- Hmk).
    unfold is_newer_record. rewrite Hl, Hab, Hty, Htab.
    destruct (Z.ltb_spec (MemtableRecord.lsn b) (MemtableRecord.lsn r)) as [Hlt|Hge]; simpl.
    + apply Hgoal; [by apply om_insert_wf | intros; by rewrite om_get_insert_ne|].
      rewrite om_get_insert_eq. unfold newer. rewrite bool_decide_true by done. by rewrite (proj2 (Z.ltb_lt _ _)).
    + assert (((MemtableRecord.lsn r =? MemtableRecord.lsn b) && is_delete (MemtableRecord.record_type r) &&
        negb (is_delete (MemtableRecord.record_type b))) = false) as ->.
      { destruct (Z.eqb_spec (MemtableRecord.lsn r) (MemtableRecord.lsn b)) as [He|]; [|done].
        destruct Hn as (Hb & Hkb & _). rewrite (Hu r b); [by destruct (MemtableRecord.record_type b) | set_solver..|done|done]. }
      apply Hgoal; [done | done|]. rewrite Ea. unfold newer. rewrite bool_decide_true by done.
      by rewrite (proj2 (Z.ltb_ge _ _)).
  - apply Hgoal; [by apply om_insert_wf | intros; by rewrite om_get_insert_ne|].
    rewrite om_get_insert_eq. unfold newer. by rewrite bool_decide_true by done.
Qed.

Lemma merged_nil : merged_of [] [].
Proof. split; [apply om_wf_nil | done]. Qed.

(** Scanning records one after the other. *)
Lemma scan_block_fold range seq rs acc merged :
  merged_of merged acc → lsn_unique (acc ++ rs) →
  merged_of (foldl (ReadManager.scan_block range seq) merged rs) (acc ++ List.filter (in_scan range seq) rs).
Proof.
  revert acc merged. induction rs as [|r rs IH]; intros acc merged Hm Hu; simpl; [by rewrite app_nil_r|].
  unfold ReadManager.scan_block at 2, in_scan at 1. rewrite Z.leb_antisym.
  destruct (seq <? MemtableRecord.lsn r); simpl.
  { apply IH; [done|]. eapply lsn_unique_subset; [|exact Hu]. set_solver. }
  destruct (key_in_range (MemtableRecord.key r) range); simpl.
  - rewrite (cons_middle r acc), (assoc_L (++)). apply IH.
    + apply merge_record_step; [done | | by destruct r]. eapply lsn_unique_subset; [|exact Hu]. set_solver.
    + by rewrite <- (assoc_L (++)).
  - apply IH; [done|]. eapply lsn_unique_subset; [|exact Hu]. set_solver.
Qed.

Lemma overlap_false range s e k :
  ranges_overlap range s e = false → kle s k → kle k e → key_in_range k range = false.
Proof.
  unfold ranges_overlap, key_in_range, bytes_leb. destruct range as [lo hi]. simpl.
  assert (∀ a b, bytes_ltb a b = true → klt a b) as Hlt.
  { intros a b. rewrite bytes_ltb_kltb. apply kltb_lt. }
  assert (∀ a b : bytes, klt a b → bytes_ltb a b = true ∧ match bytes_cmp a b with Gt => false | _ => true end = true) as Hgt.
  { intros a b Hab. unfold bytes_ltb. unfold klt in Hab. cbn [kcmp bytes_ord] in Hab. by rewrite Hab. }
  destruct (match bound_key hi with Some e => bytes_ltb e s | None => false end) eqn:E1.
  - intros _ Hs _. assert ((match hi with Included e => bytes_ltb e k
      | Excluded e => match bytes_cmp e k with Gt => false | _ => true end | Unbounded => false end) = true) as ->
      by (destruct hi as [h|h|]; [..|done]; simpl in E1; apply Hlt in E1;
          by destruct (Hgt h k (klt_le_trans _ _ _ E1 Hs))).
    by destruct lo as [l|l|]; [destruct (bytes_ltb k l)|destruct (bytes_cmp k l)|].
  - destruct (match bound_key lo with Some s => bytes_ltb e s | None => false end) eqn:E2; [|done].
    intros _ _ He. assert ((match lo with Included s => bytes_ltb k s
      | Excluded s => match bytes_cmp k s with Gt => false | _ => true end | Unbounded => false end) = true) as ->; [|done].
    destruct lo as [h|h|]; [..|done]; simpl in E2; apply Hlt in E2;
      by destruct (Hgt k h (kle_lt_trans _ _ _ He E2)).
Qed.
Lemma filter_out range seq s e rs :
  ranges_overlap range s e = false →
  (∀ r, r ∈ rs → kle s (MemtableRecord.key r) ∧ kle (MemtableRecord.key r) e) →
  List.filter (in_scan range seq) rs = [].
Proof.
  intros Ho Hin. induction rs as [|r rs IH]; [done|]. simpl. unfold in_scan at 1.
  destruct (Hin r (list_elem_of_here _ _)) as [Hs He].
  rewrite (overlap_false range s e) by done. rewrite andb_false_r. apply IH. intros; apply Hin; by right.
Qed.

Lemma scan_index_serialized c range seq off bs acc merged :
  table_wf c → (∀ b, b ∈ bs → b ∈ SSTableCodec.blocks c) →
  merged_of merged acc → lsn_unique (acc ++ blocks_records bs) →
  ∃ merged', ReadManager.scan_index (SSTableCodec.serialize c).1 (footer_of c) (table_index c)
      (index_from off bs) range seq merged = Ok merged' ∧
    merged_of merged' (acc ++ List.filter (in_scan range seq) (blocks_records bs)).
Proof.
  intros Hc. revert off acc merged. induction bs as [|b bs IH]; intros off acc merged Hin Hm Hu.
  { exists merged. split; [done|]. simpl. by rewrite app_nil_r. }
  cbn [index_from ReadManager.scan_index SparseIndexEntry.first_key SparseIndexEntry.last_key].
  pose proof (Hin b (list_elem_of_here _ _)) as [i Hi]%list_elem_of_lookup_1.
  assert (block_wf b) as Hb by (pose proof (tw_blocks c Hc) as Hw; rewrite Forall_lookup in Hw; eauto).
  change (blocks_records (b :: bs)) with (block_records b ++ blocks_records bs) in *.
  rewrite List.filter_app.
  assert (∀ b', b' ∈ bs → b' ∈ SSTableCodec.blocks c) as Hin' by (intros b' Hb'; apply Hin; by right).
  destruct (ranges_overlap range (Block.first_key b) (Block.last_key b)) eqn:Eo; simpl negb; cbv iota.
  - rewrite (get_block_serialized c i b) by (auto using kle_refl, block_first_le_last).
    cbn [mbind res_bind at_offset Block.data]. fold (block_records b). rewrite (assoc_L (++)). apply IH; [done | |].
    + apply scan_block_fold; [done|]. eapply lsn_unique_subset; [|exact Hu]. set_solver.
    + eapply lsn_unique_subset; [|exact Hu].
      intros r. rewrite !elem_of_app, !list_elem_of_In, filter_In. tauto.
  - rewrite (filter_out range seq _ _ (block_records b) Eo) by (intros r Hr; by apply block_range).
    apply IH; [done | done |]. eapply lsn_unique_subset; [|exact Hu]. set_solver.
Qed.

Lemma scan_single_runs m t range seq acc merged :
  cache_ok open m → holds open t → merged_of merged acc → lsn_unique (acc ++ t.2) →
  ∃ merged', runs (same_manifest open) (ReadManager.scan_single_sstable open t.1 range seq merged) merged' m ∧
    merged_of merged' (acc ++ List.filter (in_scan range seq) t.2).
Proof.
  intros Hm (bs & Ho & (c & -> & (Hc & _) & Hrs & Hne & Hbl) & Hsm & Hlg) Hmg Hu.
  assert (keys_sorted t.2) as Hks by (rewrite <- Hrs; apply (tw_sorted c Hc)).
  unfold ReadManager.scan_single_sstable. rewrite Hsm, Hlg.
  destruct (ranges_overlap range (first_of t.2) (last_of t.2)) eqn:Eo; simpl negb; cbv iota.
  - destruct (deserialize_serialize c Hc) as (bloom & Hd & _). rewrite <- Hrs in *.
    destruct (scan_index_serialized c range seq 0 (SSTableCodec.blocks c) acc merged Hc) as (merged' & Hsc & Hm');
      [done | done | done|].
    exists merged'. split; [|exact Hm'].
    run_bind; [by apply open_file_runs | intros m1 Hs1].
    run_bind; [run_pure; exact Hd | intros m2 Hs2]. run_pure. exact Hsc.
  - exists merged. split; [run_ret|]. rewrite (filter_out range seq _ _ t.2 Eo), app_nil_r; [done|].
    intros r Hr. split; [by apply keys_sorted_first | by apply keys_sorted_last].
Qed.

Lemma scan_files_runs m ts range seq acc merged :
  cache_ok open m → Forall (holds open) ts → merged_of merged acc → lsn_unique (acc ++ recs ts) →
  ∃ merged', runs (same_manifest open) (ReadManager.scan_files open (List.map fst ts) range seq merged) merged' m ∧
    merged_of merged' (acc ++ List.filter (in_scan range seq) (recs ts)).
Proof.
  intros Hm Ht. revert m Hm acc merged. induction Ht as [|t ts Ht Hts IH]; intros m Hm acc merged Hmg Hu.
  { exists merged. split; [run_ret|]. simpl. by rewrite app_nil_r. }
  change (recs (t :: ts)) with (t.2 ++ recs ts) in *. rewrite List.filter_app, (assoc_L (++)).
  destruct (scan_single_runs m t range seq acc merged) as (mg & (m1 & Hr & Hs) & Hmg1); [done | done | done | |].
  { eapply lsn_unique_subset; [|exact Hu]. set_solver. }
  destruct (IH m1 (same_cache open m m1 Hm Hs) (acc ++ List.filter (in_scan range seq) t.2) mg) as (mg' & (m2 & Hr2 & Hs2) & Hmg2).
  { done. }
  { eapply lsn_unique_subset; [|exact Hu]. intros r. rewrite !elem_of_app, !list_elem_of_In, filter_In. tauto. }
  exists mg'. split; [|done]. exists m2. cbn [List.map ReadManager.scan_files]. unfold mbind, eff_bind. rewrite Hr.
  split; [done | by etrans].
Qed.

(** The bounds on keys and sequence numbers select the keys of the range. *)
Lemma collect_range_bounds_spec range k n :
  is_u64 n →
  above (fst (collect_range_bounds range)) (k, n) && below (snd (collect_range_bounds range)) (k, n)
  = key_in_range k range.
Proof.
  intros Hn. destruct range as [lo hi]. unfold key_in_range. simpl.
  assert (above (match lo with Included key => Included (key, 0) | Excluded key => Excluded (key, u64_max) | Unbounded => Unbounded end) (k, n)
    = negb (match lo with Included a => bytes_ltb k a | Excluded a => bytes_leb k a | Unbounded => false end)) as ->.
  { destruct lo as [a|a|]; simpl; [| |done]; apply eq_bool_prop_intro;
      rewrite !Is_true_true, negb_true_iff.
    - rewrite bytes_ltb_kltb, kleb_le, kltb_ge, pair_kle, (kle_lt_eq a k), Z_kle. split; [naive_solver|].
      intros [?| ->]; [by left | right; split; [done | word_lia]].
    - change (bytes_leb k a) with (kleb k a). rewrite kltb_lt, kleb_gt, pair_klt. split; [|by left].
      intros [?|[_ Hlt]]; [done|]. apply (proj1 (Z_klt _ _)) in Hlt. word_lia. }
  assert (below (match hi with Included key => Included (key, u64_max) | Excluded key => Excluded (key, 0) | Unbounded => Unbounded end) (k, n)
    = negb (match hi with Included a => bytes_ltb a k | Excluded a => bytes_leb a k | Unbounded => false end)) as ->.
  { destruct hi as [a|a|]; simpl; [| |done]; apply eq_bool_prop_intro;
      rewrite !Is_true_true, negb_true_iff.
    - rewrite bytes_ltb_kltb, kleb_le, kltb_ge, pair_kle, (kle_lt_eq k a), Z_kle. split; [naive_solver|].
      intros [?| ->]; [by left | right; split; [done | word_lia]].
    - change (bytes_leb a k) with (kleb a k). rewrite kltb_lt, kleb_gt, pair_klt. split; [|by left].
      intros [?|[_ Hlt]]; [done|]. apply (proj1 (Z_klt _ _)) in Hlt. word_lia. }
  by repeat case_match.
Qed.

Lemma scan_memtable_merged mem range seq :
  mem_ok mem →
  merged_of (ReadManager.scan_memtable mem range seq) (List.filter (in_scan range seq) (mem_records mem)).
Proof.
  intros Hm. pose proof (mem_unique mem Hm) as Hu. destruct Hm as [_ Hf].
  unfold ReadManager.scan_memtable. destruct (collect_range_bounds range) as [lo hi] eqn:Hb.
  assert (∀ k n, is_u64 n → above lo (k, n) && below hi (k, n) = key_in_range k range) as Hrange.
  { intros k n Hn. rewrite <- (collect_range_bounds_spec range k n Hn). by rewrite Hb. }
  pose proof merged_nil as Hmg. change (List.filter (in_scan range seq) (mem_records mem))
    with ([] ++ List.filter (in_scan range seq) (mem_records mem)).
  change (mem_records mem) with ([] ++ mem_records mem) in Hu. revert Hmg Hu.
  generalize (@nil MemtableRecord.t) as acc. generalize (@nil (bytes * MemtableRecord.t)) as merged.
  induction Hf as [|[[k n] r] mem [Hl Hn] Hf IH]; intros merged acc Hmg Hu; [by rewrite app_nil_r|].
  simpl in Hl, Hn. unfold om_range. cbn [List.filter fst mem_records List.map]. rewrite Hrange by done.
  set (x := mem_record (k, n, r)) in *. assert (in_scan range seq x = negb (seq <? n) && key_in_range k range) as Hx.
  { unfold in_scan, x. simpl. by rewrite Hl, Z.leb_antisym. }
  fold (om_range lo hi mem). fold (mem_records mem). rewrite Hx.
  destruct (key_in_range k range); [|rewrite andb_false_r; apply IH; [done|];
    eapply lsn_unique_subset; [|exact Hu]; simpl; set_solver].
  cbn [foldl]. destruct (seq <? n); simpl.
  { apply IH; [done|]. eapply lsn_unique_subset; [|exact Hu]. simpl. set_solver. }
  rewrite (cons_middle x acc), (assoc_L (++)). apply IH.
  - apply (merge_record_step merged acc r x); [done | | done].
    eapply lsn_unique_subset; [|exact Hu]. simpl. set_solver.
  - by rewrite <- (assoc_L (++)).
Qed.

Lemma om_filter_get {K V} `{OrdKey K} f (m : list (K * V)) k v :
  om_wf m → (k, v) ∈ List.filter f m ↔ om_get k m = Some v ∧ f (k, v) = true.
Proof. intros Hw. by rewrite list_elem_of_In, filter_In, <- list_elem_of_In, om_get_Some. Qed.

(** The records a scan selects are those of the range up to the sequence. *)
Lemma newest_in_scan range seq k rs :
  newest k (List.filter (in_scan range seq) rs) =
  if key_in_range k range then newest k (upto seq rs) else None.
Proof.
  induction rs as [|r rs IH] using rev_ind; [by case_match|].
  unfold upto in *. rewrite !List.filter_app, !newest_app, IH. simpl. unfold in_scan.
  destruct (MemtableRecord.lsn r <=? seq); simpl.
  - assert (newest k [r] = if bool_decide (MemtableRecord.key r = k) then Some r else None) as Hr by done.
    destruct (decide (MemtableRecord.key r = k)) as [<-|Hne].
    + destruct (key_in_range (MemtableRecord.key r) range); by rewrite ?join_None_r.
    + rewrite bool_decide_false in Hr by done.
      destruct (key_in_range (MemtableRecord.key r) range), (key_in_range k range); rewrite ?Hr; by rewrite ?join_None_r.
  - destruct (key_in_range k range); by rewrite ?join_None_r.
Qed.

Lemma scan_records_runs m mem ls seq range :
  store_at m mem ls seq →
  ∃ merged, merged_of merged (List.filter (in_scan range seq) (mem_records mem ++ all_recs ls)) ∧
    runs (same_manifest open) (ReadManager.scan_records_range open mem range seq)
      (List.filter (λ e, negb (is_delete (MemtableRecord.record_type (snd e)))) merged) m.
Proof.
  intros [Hc Hl Ht Hi Hm Hu Hd Hs].
  destruct (scan_files_runs m (ls ≫= snd) range seq (List.filter (in_scan range seq) (mem_records mem))
    (ReadManager.scan_memtable mem range seq)) as (merged & Hr & Hmg); [done | | by apply scan_memtable_merged | |].
  { apply Forall_forall. intros t (l & Hin & Hl')%list_elem_of_bind. specialize (Ht l Hl').
    rewrite Forall_forall in Ht. auto. }
  { eapply lsn_unique_subset; [|exact Hu]. intros r [Hr|Hr]%elem_of_app; apply elem_of_app.
    - left. rewrite list_elem_of_In, filter_In, <- list_elem_of_In in Hr. tauto.
    - right. apply elem_of_recs in Hr as (t & (l & Ht' & Hl')%list_elem_of_bind & Hr).
      apply elem_of_all_recs. exists l. split; [done|]. apply elem_of_recs. eauto. }
  assert (recs (ls ≫= snd) = all_recs ls) as Hrecs.
  { clear. unfold recs, all_recs. induction ls as [|l ls IH]; [done|]. rewrite !bind_cons, bind_app. by f_equal. }
  rewrite Hrecs, <- List.filter_app in Hmg. exists merged. split; [done|].
  destruct Hr as (m1 & Hr & Hs1). exists m1. split; [|done].
  assert (ReadManager.sorted_levels (ManifestManager.snapshot m) ≫= snd = List.map fst (ls ≫= snd)) as Hsl.
  { rewrite (sorted_levels_erase m ls) by (destruct Hi; done). clear. unfold erase.
    induction ls as [|l ls IH]; [done|]. cbn [List.map]. rewrite !bind_cons, map_app. by f_equal. }
  assert (ReadManager.scan_sstables open (ManifestManager.snapshot m) range seq
    (ReadManager.scan_memtable mem range seq) m = (Ok merged, m1)) as Hsc
    by (unfold ReadManager.scan_sstables; by rewrite Hsl).
  unfold ReadManager.scan_records_range, mbind, eff_bind, mret, eff_ret.
  rewrite Hsc. do 2 f_equal. apply sort_by_id.
  destruct Hmg as [Hw _]. pose proof (filter_om_wf (λ e, negb (is_delete (MemtableRecord.record_type (snd e)))) merged Hw) as Hf.
  clear -Hf. unfold om_wf in Hf. induction Hf as [|x l Hl IH Hx]; constructor; [done|].
  eapply Forall_impl; [exact Hx|]. intros y Hy. simpl in Hy. unfold klt in Hy. cbn [kcmp bytes_ord] in Hy. by rewrite Hy.
Qed.

Lemma scan_runs m mem ls seq range :
  store_at m mem ls seq →
  ∃ merged, merged_of merged (List.filter (in_scan range seq) (mem_records mem ++ all_recs ls)) ∧
    runs (same_manifest open) (ReadManager.scan_range open mem range seq)
      ((λ e, (fst e, MemtableRecord.value (snd e))) <$>
        List.filter (λ e, negb (is_delete (MemtableRecord.record_type (snd e)))) merged) m.
Proof.
  intros Hst. destruct (scan_records_runs m mem ls seq range Hst) as (merged & Hm & m' & Hr & Hs). exists merged.
  split; [done|]. exists m'. split; [|done]. unfold ReadManager.scan_range, mbind, eff_bind. by rewrite Hr.
Qed.
Lemma live_sorted (merged : ordmap bytes MemtableRecord.t) :
  om_wf merged →
  StronglySorted klt (fst <$> List.filter (λ e, negb (is_delete (MemtableRecord.record_type (snd e)))) (merged : list _)).
Proof.
  intros Hw. pose proof (filter_om_wf (λ e, negb (is_delete (MemtableRecord.record_type (snd e)))) merged Hw) as Hf.
  clear -Hf. unfold om_wf in Hf. induction Hf as [|x l Hl IH Hx]; constructor; [done|].
  rewrite Forall_forall in Hx. apply Forall_forall. intros y (w & -> & Hw)%list_elem_of_fmap. by apply Hx.
Qed.
(** A scan of records: the newest live record of every key of the range. *)
Lemma scan_records_spec m mem ls seq range :
  store_at m mem ls seq →
  ∃ l m', ReadManager.scan_records_range open mem range seq m = (Ok l, m') ∧ same_manifest open m m' ∧
    StronglySorted klt (fst <$> l) ∧
    (∀ k r, (k, r) ∈ l → key_in_range k range = true ∧ MemtableRecord.record_type r = Put ∧
                         newest k (store_records mem ls seq) = Some (MemtableRecord.with_key r k)) ∧
    ∀ k b, key_in_range k range = true → newest k (store_records mem ls seq) = Some b → MemtableRecord.record_type b = Put →
      ∃ r, (k, r) ∈ l ∧ same_content k r b.
Proof.
  intros Hst. destruct (scan_records_runs m mem ls seq range Hst) as (merged & [Hw Hm] & m' & Hr & Hs).
  eexists _, m'. split_and!; [exact Hr | done | by apply live_sorted | |].
  - intros k r [Hg Hd]%om_filter_get; [|done]. simpl in *. specialize (Hm k). rewrite newest_in_scan in Hm.
    fold (store_records mem ls seq) in Hm. rewrite Hg in Hm. destruct (key_in_range k range); [|done].
    destruct (newest k (store_records mem ls seq)) as [b|]; [|done]. split_and!; [done | by destruct (MemtableRecord.record_type r) | by rewrite Hm].
  - intros k b Hk Hn Hp. specialize (Hm k). rewrite newest_in_scan, Hk in Hm. fold (store_records mem ls seq) in Hm.
    rewrite Hn in Hm. destruct (om_get k merged) as [r|] eqn:Hg; [|done]. exists r. split; [|done].
    apply om_filter_get; [done|]. split; [done|]. simpl. rewrite <- Hm in Hp. simpl in Hp. by rewrite Hp.
Qed.
Lemma scan_spec m mem ls seq range :
  store_at m mem ls seq →
  ∃ l m', ReadManager.scan_range open mem range seq m = (Ok l, m') ∧ same_manifest open m m' ∧
    StronglySorted klt (fst <$> l) ∧
    ∀ k v, (k, v) ∈ l ↔ key_in_range k range = true ∧
                        visible (newest k (store_records mem ls seq)) = Some v.
Proof.
  intros Hst. destruct (scan_runs m mem ls seq range Hst) as (merged & [Hw Hm] & m' & Hr & Hs).
  eexists _, m'. split_and!; [exact Hr | done | |].
  - rewrite <- list_fmap_compose. exact (live_sorted merged Hw).
  - intros k v. specialize (Hm k). rewrite newest_in_scan in Hm. fold (store_records mem ls seq) in Hm.
    rewrite list_elem_of_fmap. split.
    + intros ([k' r] & [= -> ->] & [Hg Hd]%om_filter_get); [|done]. simpl in *. rewrite Hg in Hm.
      destruct (key_in_range k' range); [|done]. split; [done|].
      destruct (newest k' (store_records mem ls seq)) as [b|]; [|done]. rewrite <- Hm. simpl.
      by destruct (MemtableRecord.record_type r).
    + intros [Hk Hv]. rewrite Hk in Hm. destruct (newest k (store_records mem ls seq)) as [b|]; [|done].
      destruct (om_get k merged) as [r|] eqn:Hg; [|done]. exists (k, r). rewrite <- Hm in Hv. simpl in Hv.
      destruct (MemtableRecord.record_type r) eqn:Ht; [|done]. injection Hv as <-. split; [done|].
      apply om_filter_get; [done|]. split; [done|]. simpl. by rewrite Ht.
Qed.

(** ** Properties *)

(** C16.  A point lookup returns the newest version of its key.  On every store
    the writers can produce (an overlapping level 0, deeper levels partitioned
    by key with older versions, a memtable that has the newest version of its
    keys), [get] succeeds without changing anything but the file cache, and
    shows the value of the record with the highest sequence number, or nothing
    when that record is a tombstone or there is none. *)
Theorem get_returns_newest m mem ls seq k :
  store_at m mem ls seq →
  ∃ o m', ReadManager.get open mem k seq m = (Ok o, m') ∧ same_manifest open m m' ∧
          visible o = visible (newest k (store_records mem ls seq)).
Proof.
  intros Hst. destruct (get_runs m mem ls seq k Hst) as (o & (m' & Hg & Hs) & Hv). eauto 10.
Qed.

(** C17.  A scan returns exactly the live keys of its range: the result is
    sorted by key without repetition, and contains a key with a value exactly
    when the key lies in the range and the newest version of it, up to the
    sequence number of the snapshot, is that value. *)
Theorem scan_returns_newest m mem ls seq range :
  store_at m mem ls seq →
  ∃ l m', ReadManager.scan_range open mem range seq m = (Ok l, m') ∧ same_manifest open m m' ∧
    StronglySorted klt (fst <$> l) ∧
    ∀ k v, (k, v) ∈ l ↔ key_in_range k range = true ∧
                        visible (newest k (store_records mem ls seq)) = Some v.
Proof. apply scan_spec. Qed.
End store.

(** ** Witnesses

    A level-0 table with two keys, and a memtable that deletes one of them. *)

Definition read_open (p : bytes) : res bytes :=
  Ok (@SSTableCodec.serialize ieee toy_fastbloom sample_table).1.
Definition read_recs : list MemtableRecord.t := Eval vm_compute in @table_records toy_fastbloom sample_table.
Definition read_meta : SSTableMeta.t := SSTableMeta.mk 1 0 [x74] 2 [x61] [x62] 0 0.
Definition read_levels : level_tables := [(0, [(read_meta, read_recs)])].
Definition read_manifest : ManifestManager.t :=
  ManifestManager.mk [] (ManifestState.set_levels ManifestState.default_ [(0, [(1, read_meta)])])
    (LruFileCache.new 64).
Definition read_mem : memtable := [(([x61], 9), MemtableRecord.new [] Delete 9)].

Lemma read_store : @store_at ieee toy_fastbloom toy_fastbloom_spec read_open read_manifest read_mem read_levels 9.
Proof.
  assert (all_recs read_levels = read_recs) as Hall by reflexivity.
  assert (∀ r, r ∈ read_recs → MemtableRecord.lsn r <= 8) as Hle.
  { apply Forall_forall. unfold read_recs. repeat constructor; simpl; lia. }
  assert (keys_sorted read_recs) as Hks by (unfold keys_sorted, read_recs; repeat constructor).
  split.
  - intros p h Hp. done.
  - reflexivity.
  - intros l ->%list_elem_of_singleton. constructor; [|constructor]. eexists. split; [reflexivity|].
    split; [|split; reflexivity]. exists sample_table. split_and!; [done | exact sample_table_wf | apply toy_fastbloom_shape; lia.. | reflexivity | done |].
    apply Forall_forall. simpl. unfold read_recs. repeat (constructor; [vm_compute; reflexivity|]). constructor.
  - split.
    + repeat constructor.
    + by intros l ->%list_elem_of_singleton.
    + by intros l ->%list_elem_of_singleton.
    + rewrite Hall. by apply keys_sorted_unique.
  - split; [repeat constructor|]. repeat constructor; simpl; word_lia.
  - rewrite Hall. intros r r' [->%list_elem_of_singleton|Hr]%elem_of_app [->%list_elem_of_singleton|Hr']%elem_of_app Hk Hl.
    + done.
    + specialize (Hle r' Hr'). simpl in Hl. lia.
    + specialize (Hle r Hr). simpl in Hl. lia.
    + by apply (keys_sorted_unique _ Hks).
  - rewrite Hall. intros r r' ->%list_elem_of_singleton Hr' Hk. eexists. split; [by left|]. split; [done|].
    specialize (Hle r' Hr'). simpl. lia.
  - rewrite Hall. intros r Hr. specialize (Hle r Hr). lia.
Qed.

Lemma get_returns_newest_witness :
  ∃ o m', @ReadManager.get ieee toy_fastbloom read_open read_mem [x61] 9 read_manifest = (Ok o, m') ∧
          visible o = None.
Proof.
  destruct (@get_returns_newest ieee ieee_spec toy_fastbloom toy_fastbloom_spec read_open read_manifest read_mem
    read_levels 9 [x61] read_store) as (o & m' & Hg & _ & Hv).
  exists o, m'. split; [exact Hg|]. rewrite Hv. reflexivity.
Defined.
Lemma scan_returns_newest_witness :
  ∃ l m', @ReadManager.scan_range ieee toy_fastbloom read_open read_mem (Unbounded, Unbounded) 9 read_manifest
            = (Ok l, m') ∧ (∀ v, ([x61], v) ∉ l).
Proof.
  destruct (@scan_returns_newest ieee ieee_spec toy_fastbloom toy_fastbloom_spec read_open read_manifest read_mem
    read_levels 9 (Unbounded, Unbounded) read_store) as (l & m' & Hg & _ & _ & Hv).
  exists l, m'. split; [exact Hg|]. intros v [_ Hin]%Hv. discriminate.
Defined.
