(* ===== verification/Tables.v ===== *)
(** * Tables on disk and the catalogue of the manifest

    What flushes and compactions share: a table built from sorted records
    reads back as those records; the tables a manifest lists with the files
    that hold them form a catalogue, whose invariant is what reads rely on. *)

From stdpp Require Import sets.
From Stdlib Require Import Sorted.
From S2P Require Import Prelude Bytes OrdMap Search Record Block Bloom Index Footer LegacyBlock SSTable.
From S2P Require Import Wal Manifest ManifestTheory Store Read ReadTheory.

(** [File::open] on a directory of files. *)
Definition open_of (files : ordmap bytes bytes) (path : bytes) : res bytes :=
  match om_get path files with Some bs => Ok bs | None => Err (IO NotFoundKind) end.

(** ** Tables built from sorted records *)

Section build.
Context `{Crc32Spec, FastBloomSpec}.
Implicit Types (rs : list MemtableRecord.t) (bs : list Block.t).

Lemma blocks_bytes_bound bs :
  Forall block_wf bs → len (blocks_bytes bs) <= packed_bound (blocks_records bs).
Proof.
  induction 1 as [|b bs Hb Hbs IH]; [done|]. rewrite blocks_bytes_cons, len_app.
  change (blocks_records (b :: bs)) with (block_records b ++ blocks_records bs). rewrite packed_bound_app.
  pose proof (block_encode_bound b Hb). lia.
Qed.
Lemma index_bytes_bound off bs :
  Forall block_wf bs →
  len (concat (SparseIndexEntry.encode <$> index_from off bs)) <= packed_bound (blocks_records bs).
Proof.
  intros Hbs. revert off. induction Hbs as [|b bs Hb Hbs IH]; intros off; [done|].
  cbn [index_from]. rewrite fmap_cons. cbn [concat]. rewrite len_app, sparse_entry_len.
  change (blocks_records (b :: bs)) with (block_records b ++ blocks_records bs).
  rewrite packed_bound_app, <- (packed_bound_size (block_records b)). specialize (IH (off + len (Block.encode b))).
  cbn [SparseIndexEntry.first_key SparseIndexEntry.last_key].
  rewrite (bwf_first b Hb), (bwf_last b Hb).
  pose proof (first_of_size (block_records b)). pose proof (last_of_size (block_records b)).
  pose proof (records_size_len (block_records b)). pose proof (bwf_nonempty b Hb) as Hne.
  assert (1 <= len (block_records b)) as Hl by
    (destruct (block_records b); [done|rewrite len_cons; pose proof (len_nonneg l); lia]).
  lia.
Qed.

(** The file of a table with these records and this filter fits in memory. *)
Definition table_fits (bloom : BloomFilterWrapper.t) rs : Prop :=
  2 * packed_bound rs + 72 + len (BloomFilterWrapper.encode bloom) <= isize_max.

Lemma serialized_bound c :
  Forall block_wf (SSTableCodec.blocks c) →
  len (SSTableCodec.serialize c).1 <=
  2 * packed_bound (table_records c) + 72 + len (BloomFilterWrapper.encode (SSTableCodec.bloom c)).
Proof.
  intros Hb. rewrite serialize_layout. cbn [fst]. unfold encode_index. rewrite !len_app, len_to_be, footer_encode_len.
  pose proof (blocks_bytes_bound _ Hb). pose proof (index_bytes_bound 0 _ Hb). unfold table_records, FOOTER_SIZE. lia.
Qed.

(** Packed blocks with a filter that has all the keys make a table file. *)
Lemma packed_table c rs :
  packed rs (SSTableCodec.blocks c) → keys_sorted rs → rs ≠ [] →
  table_fits (SSTableCodec.bloom c) rs → bloom_wf (SSTableCodec.bloom c) → bloom_shape (SSTableCodec.bloom c) →
  (∀ r, r ∈ rs → BloomFilterWrapper.contains (SSTableCodec.bloom c) (MemtableRecord.key r) = true) →
  table_wf c ∧ table_file (SSTableCodec.serialize c).1 rs.
Proof.
  intros [Hw Hr _] Hs Hne Hf Hb Hsh Hc. assert (table_wf c) as Htw.
  { split; [done | by rewrite Hr | done|]. pose proof (serialized_bound c Hw) as Hle.
    unfold table_records in Hle. rewrite Hr in Hle. unfold table_fits in Hf. lia. }
  split; [done|]. by exists c.
Qed.
End build.

(** ** The records of a file *)

Abbreviation place x := (SSTableMeta.level x, SSTableMeta.file_id x).
Abbreviation lvls m := (ManifestState.levels (ManifestManager.state m)).
Abbreviation next_id m := (ManifestState.next_file_id (ManifestManager.state m)).

Section files.
Context `{Crc32Spec, FastBloomSpec}.
Implicit Types (files : ordmap bytes bytes) (x y meta : SSTableMeta.t) (l : levels_map).

Definition file_records (bs : bytes) : list MemtableRecord.t :=
  match '(footer, index, _) ← SSTableCodec.deserialize_sections bs;
        SSTableCodec.get_all_blocks bs footer index with
  | Ok blocks => blocks_records blocks
  | _ => []
  end.
Definition records_at files meta : list MemtableRecord.t :=
  default [] (file_records <$> om_get (SSTableMeta.path meta) files).

Lemma at_offset_records bs : blocks_records (at_offset 0 <$> bs) = blocks_records bs.
Proof. induction bs as [|b bs IH]; [done|]. rewrite fmap_cons. unfold blocks_records in *. rewrite !bind_cons. by f_equal. Qed.
Lemma table_file_records bs rs : table_file bs rs → file_records bs = rs.
Proof.
  intros (c & -> & (Hc & _) & <- & _). unfold file_records.
  destruct (deserialize_serialize c Hc) as (bloom & -> & _). cbn [mbind res_bind].
  rewrite (get_all_blocks_serialized c Hc). apply at_offset_records.
Qed.
Lemma holds_records files t : holds (open_of files) t → records_at files t.1 = t.2.
Proof.
  intros (bs & Ho & Ht & _). unfold open_of in Ho. unfold records_at.
  destruct (om_get (SSTableMeta.path t.1) files) as [bs'|]; [|done]. injection Ho as ->.
  simpl. by apply table_file_records.
Qed.

(** ** Listed tables *)

(** The manifest lists a table under its level and file id. *)
Definition listed l x : Prop :=
  ∃ fs, om_get (SSTableMeta.level x) l = Some fs ∧ om_get (SSTableMeta.file_id x) fs = Some x.

Lemma listed_below l next x : levels_ok l next → listed l x → SSTableMeta.file_id x < next.
Proof. intros Hl (fs & Hfs & Hx). by destruct (lv_meta l next Hl _ _ _ _ Hfs Hx) as (_ & _ & ?). Qed.
Lemma listed_insert l meta x :
  listed (insert_meta l meta) x ↔ x = meta ∨ listed l x ∧ place x ≠ place meta.
Proof.
  unfold listed, insert_meta. setoid_rewrite om_get_insert. split.
  - intros (fs & Hfs & Hx). case_decide as Hlv.
    + injection Hfs as <-. rewrite om_get_insert in Hx. case_decide as Hid; [left; congruence|]. right.
      rewrite Hlv. destruct (om_get (SSTableMeta.level meta) l) as [fs|] eqn:E; [|done]. split; [eauto | congruence].
    + right. split; [eauto | congruence].
  - intros [->|[(fs & Hfs & Hx) Hne]].
    + eexists. rewrite decide_True by done. split; [done|]. by rewrite om_get_insert_eq.
    + case_decide as Hlv; [|eauto]. eexists. split; [done|].
      rewrite om_get_insert_ne; [by rewrite <- Hlv, Hfs | congruence].
Qed.
Lemma listed_remove l lv id x : listed (remove_file l lv id) x ↔ listed l x ∧ place x ≠ (lv, id).
Proof.
  unfold listed, remove_file. destruct (om_get lv l) as [files|] eqn:E.
  2:{ split; [|tauto]. intros (fs & Hfs & Hx). split; [eauto|]. intros [= Hlv _]; congruence. }
  assert (∀ l', (∀ lv', lv' ≠ lv → om_get lv' l' = om_get lv' l) →
    (match om_get lv l' with Some fs => fs = om_remove id files | None => om_remove id files = [] end) →
    (∃ fs, om_get (SSTableMeta.level x) l' = Some fs ∧ om_get (SSTableMeta.file_id x) fs = Some x) ↔
    (∃ fs, om_get (SSTableMeta.level x) l = Some fs ∧ om_get (SSTableMeta.file_id x) fs = Some x) ∧
    place x ≠ (lv, id)) as Hgoal.
  { intros l' Hne Hlv. destruct (decide (SSTableMeta.level x = lv)) as [<-|Hx].
    - rewrite E. split.
      + intros (fs & Hfs & Hx). rewrite Hfs in Hlv. subst fs.
        destruct (decide (SSTableMeta.file_id x = id)) as [<-|Hid]; [by rewrite om_get_remove_eq in Hx|].
        rewrite om_get_remove_ne in Hx by done. split; [eauto | congruence].
      + intros [(fs & [= <-] & Hx) Hid]. rewrite <- (om_get_remove_ne _ id) in Hx by congruence.
        destruct (om_get (SSTableMeta.level x) l') as [fs|]; [subst; eauto|]. by rewrite Hlv in Hx.
    - rewrite Hne by done. split; [|tauto]. intros Hl. split; [done | congruence]. }
  destruct (om_remove id files) as [|p fs] eqn:Er; apply Hgoal.
  - intros. by rewrite om_get_remove_ne.
  - by rewrite om_get_remove_eq.
  - intros. by rewrite om_get_insert_ne.
  - by rewrite om_get_insert_eq.
Qed.
Lemma listed_removes l rs x :
  listed (foldl (λ l r, remove_file l r.1 r.2) l rs) x ↔ listed l x ∧ place x ∉ rs.
Proof.
  revert l. induction rs as [|[lv id] rs IH]; intros l; simpl; [set_solver|].
  rewrite IH, listed_remove, not_elem_of_cons. tauto.
Qed.
Lemma listed_apply s rs outs x :
  NoDup (SSTableMeta.file_id <$> outs) →
  (∀ o y, o ∈ outs → listed (ManifestState.levels s) y → SSTableMeta.file_id y ≠ SSTableMeta.file_id o) →
  listed (ManifestState.levels (apply_compaction s rs outs)) x ↔
  x ∈ outs ∨ listed (ManifestState.levels s) x ∧ place x ∉ rs.
Proof.
  unfold apply_compaction. cbv zeta. intros Hnd Hfresh.
  assert (∀ y, listed (ManifestState.levels (ManifestState.set_levels s
      (foldl (λ l r, remove_file l r.1 r.2) (ManifestState.levels s) rs))) y ↔
    listed (ManifestState.levels s) y ∧ place y ∉ rs) as Hrm by (intros y; apply listed_removes).
  assert (∀ o y, o ∈ outs → listed (ManifestState.levels (ManifestState.set_levels s
      (foldl (λ l r, remove_file l r.1 r.2) (ManifestState.levels s) rs))) y →
      SSTableMeta.file_id y ≠ SSTableMeta.file_id o) as Hfresh' by (intros o y Ho [Hy _]%Hrm; eauto).
  rewrite <- Hrm. clear Hrm Hfresh. revert Hfresh'. generalize (ManifestState.set_levels s
      (foldl (λ l r, remove_file l r.1 r.2) (ManifestState.levels s) rs)) as s'. clear s rs.
  induction outs as [|o outs IH]; intros s Hfresh; cbn [foldl]; [set_solver|].
  apply NoDup_cons in Hnd as [Ho Hnd].
  rewrite IH; [|done|]; simpl.
  - rewrite listed_insert, elem_of_cons. split; [naive_solver|].
    intros [[->|?]|Hx]; [tauto | tauto|]. right. right. split; [done|].
    intros [= _ Hid]. by apply (Hfresh o x (list_elem_of_here _ _) Hx).
  - intros o' y Ho' [->|[Hy _]]%listed_insert; [|apply Hfresh; [by right | done]].
    intros Hid. apply Ho. rewrite Hid. by apply list_elem_of_fmap_2.
Qed.
End files.

(** ** The invariant of a set of tables *)

Section tables.
Context `{Crc32Spec, FastBloomSpec}.
Implicit Types (files : ordmap bytes bytes) (x y o : SSTableMeta.t) (T : SSTableMeta.t → Prop) (l : levels_map).

Definition stored files T (r : MemtableRecord.t) : Prop := ∃ x, T x ∧ r ∈ records_at files x.

(** Tables are on disk under paths of their own; below level 0 the tables of a
    level share no key; a deeper level holds older versions; a key and a
    sequence number identify a record. *)
Record tables_inv files T : Prop := {
  ti_holds : ∀ x, T x → holds (open_of files) (x, records_at files x);
  ti_count : ∀ x, T x → SSTableMeta.record_count x = len (records_at files x);
  ti_typed : ∀ x, T x → meta_typed x;
  ti_ids : ∀ x y, T x → T y → SSTableMeta.file_id x = SSTableMeta.file_id y → x = y;
  ti_paths : ∀ x y, T x → T y → SSTableMeta.path x = SSTableMeta.path y → x = y;
  ti_disjoint : ∀ x y, T x → T y → SSTableMeta.level x = SSTableMeta.level y →
    SSTableMeta.level x ≠ 0 → x ≠ y → keys_disjoint (x, records_at files x) (y, records_at files y);
  ti_order : ∀ x y r1 r2, T x → T y → SSTableMeta.level x < SSTableMeta.level y →
    r1 ∈ records_at files x → r2 ∈ records_at files y → MemtableRecord.key r1 = MemtableRecord.key r2 →
    MemtableRecord.lsn r2 <= MemtableRecord.lsn r1;
  ti_unique : ∀ r1 r2, stored files T r1 → stored files T r2 →
    MemtableRecord.key r1 = MemtableRecord.key r2 → MemtableRecord.lsn r1 = MemtableRecord.lsn r2 → r1 = r2;
  ti_keys : ∀ r, stored files T r → MemtableRecord.key r ≠ []
}.

(** The manifest's levels with the records of their files. *)
Definition tables_of files l : level_tables :=
  List.map (λ p, (p.1, List.map (λ e, (e.2, records_at files e.2)) p.2)) l.

Lemma erase_tables_of files l : erase (tables_of files l) = snapshot_levels l.
Proof.
  unfold erase, tables_of, snapshot_levels. rewrite map_map. apply map_ext. intros [lv fs]. simpl. f_equal.
  rewrite map_map. by apply map_ext.
Qed.
Lemma elem_of_tables_of files l next lv ts t :
  levels_ok l next → (lv, ts) ∈ tables_of files l →
  t ∈ ts ↔ listed l t.1 ∧ SSTableMeta.level t.1 = lv ∧ t.2 = records_at files t.1.
Proof.
  intros Hl ([lv' fs] & [= <- <-] & Hin)%list_elem_of_In%in_map_iff. apply list_elem_of_In in Hin.
  apply (om_get_Some _ _ _ (lv_wf _ _ Hl)) in Hin. destruct (lv_files _ _ Hl _ _ Hin) as [_ Hw].
  rewrite list_elem_of_In, in_map_iff. split.
  - intros ([id x] & <- & He%list_elem_of_In). simpl. apply (om_get_Some _ _ _ Hw) in He.
    destruct (lv_meta _ _ Hl _ _ _ _ Hin He) as (Hlv & Hid & _). split_and!; [|done|done].
    exists fs. by rewrite Hlv, Hid.
  - intros ((fs' & Hfs & Hx) & Hlv & Hr). exists (SSTableMeta.file_id t.1, t.1). split; [by destruct t; simpl in *; subst|].
    apply list_elem_of_In, (om_get_Some _ _ _ Hw). rewrite Hlv, Hin in Hfs. by injection Hfs as ->.
Qed.
Lemma elem_of_all_tables files l next r :
  levels_ok l next → r ∈ all_recs (tables_of files l) ↔ stored files (listed l) r.
Proof.
  intros Hl. rewrite elem_of_all_recs. setoid_rewrite elem_of_recs. split.
  - intros ([lv ts] & Hin & t & Ht & Hr). apply (elem_of_tables_of _ _ _ _ _ _ Hl Hin) in Ht as (Hx & _ & Hrec).
    exists t.1. split; [done|]. by rewrite <- Hrec.
  - intros (x & (fs & Hfs & Hx) & Hr).
    exists (SSTableMeta.level x, List.map (λ e, (e.2, records_at files e.2)) fs). split.
    + apply list_elem_of_In, in_map_iff. exists (SSTableMeta.level x, fs). split; [done|].
      apply list_elem_of_In. by apply (om_get_Some _ _ _ (lv_wf _ _ Hl)).
    + exists (x, records_at files x). split; [|done]. apply list_elem_of_In, in_map_iff.
      exists (SSTableMeta.file_id x, x). split; [done|]. apply list_elem_of_In.
      destruct (lv_files _ _ Hl _ _ Hfs) as [_ Hw]. by apply (om_get_Some _ _ _ Hw).
Qed.

Lemma StronglySorted_in {A} (R R' : A → A → Prop) (xs : list A) :
  StronglySorted R xs → (∀ a b, a ∈ xs → b ∈ xs → R a b → R' a b) → StronglySorted R' xs.
Proof.
  induction 1 as [|a xs Hs IH Hf]; intros Himp; constructor.
  - apply IH. intros b c Hb Hc. apply Himp; by right.
  - rewrite Forall_forall in Hf. apply Forall_forall. intros b Hb. apply Himp; [by left | by right | auto].
Qed.
Lemma sorted_pairs {A} (R : A → A → Prop) (xs : list A) : StronglySorted R xs → ForallOrdPairs R xs.
Proof. induction 1; by constructor. Qed.
Lemma tables_of_sorted files l next :
  levels_ok l next → StronglySorted (λ p q : Z * tables, p.1 < q.1) (tables_of files l).
Proof.
  intros Hl. pose proof (lv_wf _ _ Hl) as Hw. unfold om_wf in Hw. unfold tables_of.
  clear Hl. induction Hw as [|p l Hw IH Hf]; simpl; constructor; [done|].
  apply Forall_forall. intros q (q' & <- & Hq%list_elem_of_In)%list_elem_of_In%in_map_iff.
  rewrite Forall_forall in Hf. by apply Hf.
Qed.
Lemma level_sorted files l next lv ts :
  levels_ok l next → (lv, ts) ∈ tables_of files l →
  ts ≠ [] ∧ StronglySorted (λ t u, SSTableMeta.file_id t.1 < SSTableMeta.file_id u.1) ts.
Proof.
  intros Hl ([lv' fs] & [= <- <-] & Hin)%list_elem_of_In%in_map_iff. apply list_elem_of_In in Hin.
  apply (om_get_Some _ _ _ (lv_wf _ _ Hl)) in Hin. destruct (lv_files _ _ Hl _ _ Hin) as [Hne Hw].
  split; [by destruct fs|].
  assert (Forall (λ e : Z * SSTableMeta.t, SSTableMeta.file_id e.2 = e.1) fs) as Hids.
  { apply Forall_forall. intros [id x] He. apply (om_get_Some _ _ _ Hw) in He.
    by destruct (lv_meta _ _ Hl _ _ _ _ Hin He) as (_ & ? & _). }
  clear Hin Hne Hl. unfold om_wf in Hw. induction Hw as [|e fs Hw IH Hf]; simpl; [constructor|].
  apply Forall_cons_1 in Hids as [He Hids]. constructor; [by apply IH|].
  apply Forall_forall. intros t (e' & <- & He'%list_elem_of_In)%list_elem_of_In%in_map_iff. simpl.
  rewrite Forall_forall in Hf, Hids. rewrite He, (Hids e') by done. by apply Hf.
Qed.

Lemma tables_levels_inv files l next :
  levels_ok l next → tables_inv files (listed l) → levels_inv (tables_of files l).
Proof.
  intros Hl Hi. split.
  - eapply StronglySorted_in; [by eapply tables_of_sorted|].
    intros [lv ts] [lv' ts'] Hin Hin' Hlt. split; [done|]. simpl in *. intros r1 r2.
    intros (t & Ht & Hr1)%elem_of_recs (u & Hu & Hr2)%elem_of_recs.
    apply (elem_of_tables_of _ _ _ _ _ _ Hl Hin) in Ht as (Ht & Hlv & Hrt).
    apply (elem_of_tables_of _ _ _ _ _ _ Hl Hin') in Hu as (Hu & Hlv' & Hru).
    rewrite Hrt in Hr1. rewrite Hru in Hr2. apply (ti_order _ _ Hi t.1 u.1); [done | done | lia | done | done].
  - intros [lv ts] Hin Hlv. simpl in *. destruct (level_sorted _ _ _ _ _ Hl Hin) as [_ Hs].
    apply sorted_pairs. eapply StronglySorted_in; [exact Hs|]. intros t u Ht Hu Hlt. simpl in Hlt.
    apply (elem_of_tables_of _ _ _ _ _ _ Hl Hin) in Ht as (Ht & Hlv1 & Hrt).
    apply (elem_of_tables_of _ _ _ _ _ _ Hl Hin) in Hu as (Hu & Hlv2 & Hru).
    assert (keys_disjoint (t.1, records_at files t.1) (u.1, records_at files u.1)) as Hd.
    { apply (ti_disjoint _ _ Hi); [done | done | congruence | congruence |]. intros He. rewrite He in Hlt. lia. }
    destruct t, u. simpl in *. by subst.
  - intros [lv ts] Hin. destruct (level_sorted _ _ _ _ _ Hl Hin) as [Hne _]. simpl.
    destruct ts as [|t ts]; [done|].
    destruct (proj1 (elem_of_tables_of _ _ _ _ _ t Hl Hin)) as (Ht & <- & _); [by left|].
    destruct (ti_typed _ _ Hi _ Ht) as (_ & [? _] & _). done.
  - intros r1 r2 Hr1 Hr2. apply (ti_unique _ _ Hi); by eapply elem_of_all_tables.
Qed.
Lemma tables_holds files l next :
  levels_ok l next → tables_inv files (listed l) →
  ∀ p, p ∈ tables_of files l → Forall (holds (open_of files)) p.2.
Proof.
  intros Hl Hi [lv ts] Hin. apply Forall_forall. intros t Ht.
  apply (elem_of_tables_of _ _ _ _ _ _ Hl Hin) in Ht as (Ht & _ & Hr).
  destruct t as [x rs]. simpl in *. subst. by apply (ti_holds _ _ Hi).
Qed.

(** ** Changing the files and the set *)

(** Files under the paths of the tables are left alone. *)
Definition same_files T files files' : Prop :=
  ∀ x, T x → om_get (SSTableMeta.path x) files' = om_get (SSTableMeta.path x) files.
Lemma same_records T files files' x : same_files T files files' → T x → records_at files' x = records_at files x.
Proof. intros Hs Hx. unfold records_at. by rewrite Hs. Qed.
Lemma same_stored T files files' r : same_files T files files' → stored files' T r ↔ stored files T r.
Proof.
  intros Hs. unfold stored. split; intros (x & Hx & Hr); exists x; split; try done;
    [rewrite <- (same_records T files files') | rewrite (same_records T files files')]; done.
Qed.
Lemma same_holds T files files' x rs :
  same_files T files files' → T x → holds (open_of files) (x, rs) → holds (open_of files') (x, rs).
Proof. intros Hs Hx. unfold holds, open_of. simpl. by rewrite Hs. Qed.
Lemma tables_inv_files T files files' :
  same_files T files files' → tables_inv files T → tables_inv files' T.
Proof.
  intros Hs [Hh Hc Ht Hid Hp Hd Ho Hu Hk].
  assert (∀ x, T x → records_at files' x = records_at files x) as Hr by (intros; by apply (same_records T)).
  split.
  - intros x Hx. rewrite Hr by done. apply (same_holds T files); auto.
  - intros x Hx. rewrite Hr by done. auto.
  - done.
  - done.
  - done.
  - intros x y Hx Hy. rewrite !Hr by done. auto.
  - intros x y r1 r2 Hx Hy. rewrite !Hr by done. by apply Ho.
  - intros r1 r2. rewrite !(same_stored T files files') by done. apply Hu.
  - intros r. rewrite (same_stored T files files') by done. apply Hk.
Qed.
Lemma tables_inv_iff files T T' : (∀ x, T x ↔ T' x) → tables_inv files T → tables_inv files T'.
Proof.
  intros Hiff [Hh Hc Ht Hid Hp Hd Ho Hu Hk].
  assert (∀ r, stored files T' r → stored files T r) as Hst.
  { intros r (x & Hx & Hr). exists x. split; [by apply Hiff | done]. }
  split; intros; rewrite <- ?Hiff in *; eauto.
Qed.

(** *** Replacing tables

    [outs] of one level take the place of some tables; [kept] are the others. *)
Record replaces files (kept : SSTableMeta.t → Prop) (outs : list SSTableMeta.t) (level : Z)
    (U : MemtableRecord.t → Prop) : Prop := {
  rp_kept : tables_inv files kept;
  rp_holds : ∀ o, o ∈ outs → holds (open_of files) (o, records_at files o) ∧
    SSTableMeta.record_count o = len (records_at files o) ∧ meta_typed o ∧ SSTableMeta.level o = level;
  rp_ids : NoDup (SSTableMeta.file_id <$> outs);
  rp_paths : NoDup (SSTableMeta.path <$> outs);
  rp_fresh : ∀ o x, o ∈ outs → kept x → SSTableMeta.file_id x ≠ SSTableMeta.file_id o ∧
    SSTableMeta.path x ≠ SSTableMeta.path o;
  rp_outs_disjoint : level ≠ 0 → ∀ o o', o ∈ outs → o' ∈ outs → o ≠ o' →
    keys_disjoint (o, records_at files o) (o', records_at files o');
  rp_kept_disjoint : level ≠ 0 → ∀ o x, o ∈ outs → kept x → SSTableMeta.level x = level →
    keys_disjoint (o, records_at files o) (x, records_at files x);
  rp_above : ∀ o x r1 r2, o ∈ outs → kept x → SSTableMeta.level x < level →
    r1 ∈ records_at files x → r2 ∈ records_at files o → MemtableRecord.key r1 = MemtableRecord.key r2 →
    MemtableRecord.lsn r2 <= MemtableRecord.lsn r1;
  rp_below : ∀ o x r1 r2, o ∈ outs → kept x → level < SSTableMeta.level x →
    r1 ∈ records_at files o → r2 ∈ records_at files x → MemtableRecord.key r1 = MemtableRecord.key r2 →
    MemtableRecord.lsn r2 <= MemtableRecord.lsn r1;
  rp_unique : ∀ r1 r2, U r1 → U r2 → MemtableRecord.key r1 = MemtableRecord.key r2 →
    MemtableRecord.lsn r1 = MemtableRecord.lsn r2 → r1 = r2;
  rp_all : ∀ r, stored files (λ x, x ∈ outs ∨ kept x) r → U r;
  rp_keys : ∀ r, U r → MemtableRecord.key r ≠ []
}.

Lemma NoDup_fmap_inj_in {A B} (f : A → B) (xs : list A) a b :
  NoDup (f <$> xs) → a ∈ xs → b ∈ xs → f a = f b → a = b.
Proof.
  induction xs as [|c xs IH]; [by intros _ ?%elem_of_nil|]. rewrite fmap_cons, NoDup_cons.
  intros [Hc Hn] [->|Ha]%elem_of_cons [->|Hb]%elem_of_cons Hab; auto.
  - destruct Hc. rewrite Hab. by apply list_elem_of_fmap_2.
  - destruct Hc. rewrite <- Hab. by apply list_elem_of_fmap_2.
Qed.

Lemma replace_tables files kept outs level U :
  replaces files kept outs level U → tables_inv files (λ x, x ∈ outs ∨ kept x).
Proof.
  intros [Hk Hh Hid Hp Hf Hod Hkd Hab Hbe Hun Hall Hkey]. split.
  - intros x [Hx|Hx]; [by apply Hh | by apply (ti_holds _ _ Hk)].
  - intros x [Hx|Hx]; [by apply Hh | by apply (ti_count _ _ Hk)].
  - intros x [Hx|Hx]; [by apply Hh | by apply (ti_typed _ _ Hk)].
  - intros x y [Hx|Hx] [Hy|Hy] He.
    + by apply (NoDup_fmap_inj_in SSTableMeta.file_id outs).
    + by destruct (Hf x y Hx Hy).
    + by destruct (Hf y x Hy Hx).
    + by apply (ti_ids _ _ Hk).
  - intros x y [Hx|Hx] [Hy|Hy] He.
    + by apply (NoDup_fmap_inj_in SSTableMeta.path outs).
    + by destruct (Hf x y Hx Hy).
    + by destruct (Hf y x Hy Hx).
    + by apply (ti_paths _ _ Hk).
  - intros x y [Hx|Hx] [Hy|Hy] Hl Hz Hne.
    + destruct (Hh x Hx) as (_ & _ & _ & Hlx). apply Hod; [congruence | done..].
    + destruct (Hh x Hx) as (_ & _ & _ & Hlx). apply Hkd; [congruence | done | done | congruence].
    + destruct (Hh y Hy) as (_ & _ & _ & Hly). apply keys_disjoint_sym, Hkd; [congruence | done | done | congruence].
    + by apply (ti_disjoint _ _ Hk).
  - intros x y r1 r2 [Hx|Hx] [Hy|Hy] Hl Hr1 Hr2 Hkey'.
    + destruct (Hh x Hx) as (_ & _ & _ & Hlx), (Hh y Hy) as (_ & _ & _ & Hly). lia.
    + destruct (Hh x Hx) as (_ & _ & _ & Hlx). apply (Hbe x y); [done | done | lia | done..].
    + destruct (Hh y Hy) as (_ & _ & _ & Hly). apply (Hab y x); [done | done | lia | done..].
    + by apply (ti_order _ _ Hk x y).
  - intros r1 r2 Hr1%Hall Hr2%Hall. by apply Hun.
  - intros r Hr%Hall. by apply Hkey.
Qed.
(** A part of the tables keeps the invariant. *)
Lemma tables_inv_subset files T T' : (∀ x, T' x → T x) → tables_inv files T → tables_inv files T'.
Proof.
  intros Hsub [Hh Hc Ht Hid Hp Hd Ho Hu Hk].
  assert (∀ r, stored files T' r → stored files T r) as Hst by (intros r (x & Hx & Hr); exists x; auto).
  split; eauto 7.
Qed.

(** ** The catalogue: manifest, files and cache *)

Record catalogue (m : ManifestManager.t) files : Prop := {
  ca_levels : levels_ok (lvls m) (next_id m);
  ca_next : 0 <= next_id m;
  ca_good : len (ManifestManager.file m) <= u64_max → mgood m;
  ca_files : om_wf files;
  ca_cache : cache_ok (open_of files) m;
  ca_tables : tables_inv files (listed (lvls m))
}.

(** What a reader gets to see of the tables. *)
Definition catalogue_records (m : ManifestManager.t) files : list MemtableRecord.t :=
  all_recs (tables_of files (lvls m)).
Lemma elem_of_catalogue m files r :
  catalogue m files → r ∈ catalogue_records m files ↔ stored files (listed (lvls m)) r.
Proof. intros Hc. eapply elem_of_all_tables, (ca_levels _ _ Hc). Qed.
Lemma catalogue_unique m files : catalogue m files → lsn_unique (catalogue_records m files).
Proof.
  intros Hc r1 r2 Hr1 Hr2. apply (ti_unique _ _ (ca_tables _ _ Hc)); by apply elem_of_catalogue.
Qed.

(** *** Operations that list the same tables *)

(** The same tables and the same recovery checkpoint. *)
Definition same_tables (m m' : ManifestManager.t) : Prop :=
  lvls m' = lvls m ∧ ManifestState.recovery_checkpoint (ManifestManager.state m') =
                     ManifestState.recovery_checkpoint (ManifestManager.state m) ∧ next_id m <= next_id m'.
#[export] Instance same_tables_preorder : PreOrder same_tables.
Proof.
  split; [done|]. intros m1 m2 m3 (Hl & Hr & Hn) (Hl' & Hr' & Hn'). split_and!; [congruence | congruence | lia].
Qed.
Lemma catalogue_allocate m files r m' :
  catalogue m files → ManifestManager.allocate_file_id m = (r, m') →
  catalogue m' files ∧ same_tables m m' ∧
  match r with Ok id => id = next_id m ∧ next_id m' = id + 1 ∧ is_u64 (id + 1)
  | Err _ => m' = m | Panic => False end.
Proof.
  intros [Hl Hn Hg Hf Hc Ht] Ha. pose proof Ha as Ha'. unfold ManifestManager.allocate_file_id in Ha.
  destruct (checked_add (next_id m) 1) as [n|] eqn:En; injection Ha as <- <-.
  - apply checked_add_Some in En as [-> Hmax].
    split; [|split; [split_and!; simpl; [done | done | lia] | split_and!; [done | done | word_lia]]].
    split; simpl; try done; [eapply levels_ok_mono; [|done]; lia | lia |].
    intros Hlen. eapply mgood_man_step; [by eapply ms_allocate | by apply Hg].
  - split; [by split | done].
Qed.

(** A path no table and no cached handle uses. *)
Definition unused (m : ManifestManager.t) (p : bytes) : Prop :=
  (∀ x, listed (lvls m) x → SSTableMeta.path x ≠ p) ∧
  om_get p (LruFileCache.handles (ManifestManager.file_cache m)) = None.
Lemma listed_on_disk m files x :
  catalogue m files → listed (lvls m) x → is_Some (om_get (SSTableMeta.path x) files).
Proof.
  intros Hc Hx. destruct (ti_holds _ _ (ca_tables _ _ Hc) x Hx) as (bs & Ho & _).
  unfold open_of in Ho. simpl in Ho. destruct (om_get _ files); [eauto | done].
Qed.
Lemma absent_unused m files p : catalogue m files → om_get p files = None → unused m p.
Proof.
  intros Hc Hp. split.
  - intros x Hx <-. destruct (listed_on_disk _ _ _ Hc Hx) as [bs Hb]. congruence.
  - destruct (om_get p (LruFileCache.handles _)) as [h|] eqn:E; [|done].
    apply (ca_cache _ _ Hc) in E. unfold open_of in E. by rewrite Hp in E.
Qed.
Lemma catalogue_write m files p bs :
  catalogue m files → unused m p → catalogue m (om_insert p bs files).
Proof.
  intros [Hl Hn Hg Hf Hc Ht] [Hx Hh]. split; try done; [by apply om_insert_wf | |].
  - intros q h Hq. pose proof (Hc q h Hq) as Ho. unfold open_of in *. rewrite om_get_insert_ne; [done|].
    intros ->. congruence.
  - eapply tables_inv_files; [|exact Ht]. intros x Hlx. rewrite om_get_insert_ne; [done|]. by apply Hx.
Qed.
Lemma tables_of_files l next files files' :
  levels_ok l next → same_files (listed l) files files' → tables_of files' l = tables_of files l.
Proof.
  intros Hl Hs. unfold tables_of. apply map_ext_in. intros [lv fs] Hin%list_elem_of_In. simpl. f_equal.
  apply map_ext_in. intros [id x] He%list_elem_of_In. simpl. f_equal. apply (same_records (listed l)); [done|].
  apply (om_get_Some _ _ _ (lv_wf _ _ Hl)) in Hin. destruct (lv_files _ _ Hl _ _ Hin) as [_ Hw].
  apply (om_get_Some _ _ _ Hw) in He. destruct (lv_meta _ _ Hl _ _ _ _ Hin He) as (Hlv & Hid & _).
  exists fs. by rewrite Hlv, Hid.
Qed.
(** Evicting and deleting the file of a table that is not listed. *)
Lemma catalogue_delete m files p :
  catalogue m files → (∀ x, listed (lvls m) x → SSTableMeta.path x ≠ p) →
  catalogue (ManifestManager.evict_file m p) (om_remove p files).
Proof.
  intros [Hl Hn Hg Hf Hc Ht] Hx. split; try done; [by apply om_remove_wf | |].
  - intros q h. simpl. destruct (decide (q = p)) as [->|Hq]; [by rewrite om_get_remove_eq|].
    rewrite om_get_remove_ne by done. intros Hh%Hc. unfold open_of in *. by rewrite om_get_remove_ne.
  - eapply tables_inv_files; [|exact Ht]. intros x Hlx. rewrite om_get_remove_ne; [done|]. by apply Hx.
Qed.

(** *** Operations that write a manifest entry

    A write that fails is one that stopped before the first byte; an entry cut
    in the middle makes the next start fail and is a matter of [ManifestTheory]. *)
Definition clean (fault : option Wal.WriteFault) : Prop :=
  match fault with Some (_, n) => n = 0%nat | None => True end.

Lemma with_entry_clean {A} m entry fault (k : ManifestManager.t → res A * ManifestManager.t) r m' :
  clean fault → entry ≠ Panic → ManifestManager.with_entry m entry fault k = (r, m') →
  (∃ e, r = Err e ∧ m' = m) ∨
  fault = None ∧ ∃ e, entry = Ok e ∧
    k (ManifestManager.mk (ManifestManager.file m ++ e) (ManifestManager.state m) (ManifestManager.file_cache m)) = (r, m').
Proof.
  intros Hf Hp. unfold ManifestManager.with_entry. destruct entry as [e|e|]; [|intros [= <- <-]; eauto|done].
  destruct fault as [[kd n]|]; simpl.
  - simpl in Hf. subst n. rewrite take_0, app_nil_r. intros [= <- <-]. left. destruct m; eauto.
  - eauto 6.
Qed.
Lemma encode_entry_np kind payload : encode_entry kind payload ≠ Panic.
Proof. unfold encode_entry, guard_err. by case_match. Qed.
Lemma encode_add_np meta : encode_add_payload meta ≠ Panic.
Proof. unfold encode_add_payload, push_bytes, guard_err. by repeat (case_match; simpl; try done). Qed.
Lemma encode_compaction_np rs (out : option SSTableMeta.t) : encode_compaction_payload rs out ≠ Panic.
Proof.
  unfold encode_compaction_payload. apply res_bind_no_panic; [auto with cere|]. intros _ _.
  apply res_bind_no_panic; [destruct out; [apply encode_add_np | done] | by intros].
Qed.
Lemma encode_outputs_np outs : ManifestManager.encode_outputs outs ≠ Panic.
Proof.
  induction outs as [|o outs IH]; [done|]. simpl. apply res_bind_no_panic; [apply encode_add_np|]. intros add _.
  apply res_bind_no_panic; [|intros; by apply res_bind_no_panic].
  unfold push_bytes. by apply res_bind_no_panic; [auto with cere|].
Qed.
Lemma compaction_entry_np rs outs : ManifestManager.compaction_entry rs outs ≠ Panic.
Proof.
  unfold ManifestManager.compaction_entry. case_match; (apply res_bind_no_panic; [apply encode_compaction_np|]; intros).
  - apply encode_entry_np.
  - apply res_bind_no_panic; [auto with cere|]. intros. apply res_bind_no_panic; [apply encode_outputs_np|].
    intros. apply encode_entry_np.
Qed.
Lemma file_grows m e : len (ManifestManager.file m ++ e) <= u64_max → len (ManifestManager.file m) <= u64_max.
Proof. rewrite len_app. pose proof (len_nonneg e). lia. Qed.

Lemma register_catalogue m files meta fault r m' U :
  catalogue m files → clean fault → SSTableMeta.file_id meta < next_id m → id_ok meta →
  replaces files (listed (lvls m)) [meta] 0 U →
  ManifestManager.register_sstable m meta fault = (r, m') →
  match r with
  | Ok _ => catalogue m' files ∧ (∀ x, listed (lvls m') x ↔ x = meta ∨ listed (lvls m) x)
      ∧ ManifestState.recovery_checkpoint (ManifestManager.state m') = ManifestState.recovery_checkpoint (ManifestManager.state m)
  | Err _ => m' = m
  | Panic => False
  end.
Proof.
  intros Hc Hf Hid Hmax Hrp Hr. pose proof Hr as Hr0. unfold ManifestManager.register_sstable in Hr.
  apply with_entry_clean in Hr as [(e & -> & ->)|(-> & e & He & Hr)]; [done | | done | ].
  2:{ destruct (encode_add_payload meta) eqn:Ep; [apply encode_entry_np | done | by apply encode_add_np in Ep]. }
  simpl in Hr. rewrite (proj2 (Z.leb_gt _ _)) in Hr by lia. injection Hr as <- <-.
  assert (∀ x, listed (insert_meta (lvls m) meta) x ↔ x = meta ∨ listed (lvls m) x) as Hli.
  { intros x. rewrite listed_insert. split; [naive_solver|]. intros [->|Hx]; [by left|]. right. split; [done|].
    destruct (rp_fresh _ _ _ _ _ Hrp meta x) as [Hne _]; [by left | done|]. congruence. }
  pose proof (rp_holds _ _ _ _ _ Hrp meta (list_elem_of_here _ _)) as (_ & _ & Hty & _).
  split; [|done]. destruct Hc as [Hl Hn Hg Hfi Hca Ht]. split; simpl; try done.
  - by apply insert_meta_ok.
  - intros Hlen. eapply mgood_register; [by apply Hg, (file_grows _ e) | exact Hty | done | exact Hr0 | done].
  - eapply tables_inv_iff; [|exact (replace_tables _ _ _ _ _ Hrp)]. intros x. rewrite Hli. set_solver.
Qed.

Lemma apply_compaction_recovery s rs outs :
  ManifestState.recovery_checkpoint (apply_compaction s rs outs) = ManifestState.recovery_checkpoint s.
Proof.
  unfold apply_compaction. cbv zeta.
  transitivity (ManifestState.recovery_checkpoint (ManifestState.set_levels s
    (foldl (λ l r, remove_file l r.1 r.2) (ManifestState.levels s) rs))); [|done].
  generalize (ManifestState.set_levels s (foldl (λ l r, remove_file l r.1 r.2) (ManifestState.levels s) rs)) as s'.
  induction outs as [|o outs IH]; intros s'; [done|]. cbn [foldl]. by rewrite IH.
Qed.
Lemma apply_compaction_next s rs outs :
  ManifestState.next_file_id s <= ManifestState.next_file_id (apply_compaction s rs outs).
Proof.
  unfold apply_compaction. cbv zeta.
  transitivity (ManifestState.next_file_id (ManifestState.set_levels s
    (foldl (λ l r, remove_file l r.1 r.2) (ManifestState.levels s) rs))); [done|].
  generalize (ManifestState.set_levels s (foldl (λ l r, remove_file l r.1 r.2) (ManifestState.levels s) rs)) as s'.
  induction outs as [|o outs IH]; intros s'; [done|]. cbn [foldl]. etrans; [|apply IH]. simpl. lia.
Qed.
Lemma publish_catalogue m files expected inputs outputs fault r m' level U :
  catalogue m files → clean fault →
  (∀ x, x ∈ inputs → listed (lvls m) x) → Forall id_ok outputs →
  (∀ o x, o ∈ outputs → listed (lvls m) x → SSTableMeta.file_id x ≠ SSTableMeta.file_id o) →
  replaces files (λ x, listed (lvls m) x ∧ x ∉ inputs) outputs level U →
  ManifestManager.publish_compaction m expected inputs outputs fault = (r, m') →
  match r with
  | Ok _ => catalogue m' files ∧ (∀ x, listed (lvls m') x ↔ x ∈ outputs ∨ listed (lvls m) x ∧ x ∉ inputs)
      ∧ ManifestState.recovery_checkpoint (ManifestManager.state m') = ManifestState.recovery_checkpoint (ManifestManager.state m)
      ∧ next_id m <= next_id m'
  | Err _ => m' = m
  | Panic => False
  end.
Proof.
  intros Hc Hf Hin Hido Hfresh Hrp Hr. pose proof Hr as Hr0. unfold ManifestManager.publish_compaction in Hr.
  destruct (negb _); [by injection Hr as <- <-|].
  apply with_entry_clean in Hr as [(e & -> & ->)|(-> & e & He & Hr)]; [done | | done | ].
  2: apply compaction_entry_np.
  injection Hr as <- <-. simpl.
  set (rs := (λ meta, (SSTableMeta.level meta, SSTableMeta.file_id meta)) <$> inputs).
  assert (∀ x, listed (lvls m) x → place x ∈ rs ↔ x ∈ inputs) as Hpl.
  { intros x Hx. unfold rs. rewrite list_elem_of_fmap. split; [|naive_solver]. intros (y & [= Hl Hi] & Hy).
    by rewrite (ti_ids _ _ (ca_tables _ _ Hc) x y Hx (Hin y Hy) Hi). }
  assert (∀ x, listed (ManifestState.levels (apply_compaction (ManifestManager.state m) rs outputs)) x ↔
    x ∈ outputs ∨ listed (lvls m) x ∧ x ∉ inputs) as Hli.
  { intros x. rewrite listed_apply; [|by apply (rp_ids _ _ _ _ _ Hrp) | done]. split; intros [?|[Hx Hn]]; auto;
      right; split; auto; by rewrite ?Hpl in * by done. }
  assert (Forall meta_typed outputs) as Hty.
  { apply Forall_forall. intros o Ho. by destruct (rp_holds _ _ _ _ _ Hrp o Ho) as (_ & _ & ? & _). }
  destruct Hc as [Hl Hn Hg Hfi Hca Ht].
  destruct (agrees_compaction (ManifestManager.state m) (ManifestManager.state m) rs outputs) as [[_ _ Hrc _ [Hn' _]] Hlok];
    [by split | done..|].
  split; [|split_and!; [done | apply apply_compaction_recovery | apply apply_compaction_next]].
  split; simpl; try done.
  - intros Hlen. eapply mgood_compact; [by apply Hg, (file_grows _ e) | | exact Hty | exact Hido | exact Hr0 | done].
    apply Forall_forall. intros x Hx. by apply (ti_typed _ _ Ht), Hin.
  - eapply tables_inv_iff; [|exact (replace_tables _ _ _ _ _ Hrp)]. intros x. symmetry. apply Hli.
Qed.

Lemma mark_catalogue m files lsn seg fault r m' :
  catalogue m files → clean fault → is_u64 lsn → is_u64 seg →
  ManifestManager.mark_checkpoint m lsn seg fault = (r, m') →
  r ≠ Panic ∧ catalogue m' files ∧ same_tables m m'.
Proof.
  intros Hc Hf Hl Hs Hr. pose proof Hr as Hr0. unfold ManifestManager.mark_checkpoint in Hr.
  apply with_entry_clean in Hr as [(e & -> & ->)|(-> & e & He & Hr)]; [by split | | done | apply encode_entry_np].
  injection Hr as <- <-. destruct Hc as [Hlv Hn Hg Hfi Hca Ht]. split; [done|].
  split; [|split_and!; simpl; [done | done | lia]]. split; simpl; try done.
  intros Hlen. eapply mgood_man_step; [eapply ms_checkpoint; [exact Hl | exact Hs | exact Hr0 | done] | by apply Hg, (file_grows _ e)].
Qed.
Lemma recovery_catalogue m files c fault r m' :
  catalogue m files → clean fault → checkpoint_typed c →
  ManifestManager.publish_recovery_checkpoint m c fault = (r, m') →
  match r with
  | Ok _ => catalogue m' files ∧ lvls m' = lvls m ∧
      ManifestState.recovery_checkpoint (ManifestManager.state m') = Some c
  | Err _ => m' = m
  | Panic => False
  end.
Proof.
  intros Hc Hf Hty Hr. pose proof Hr as Hr0. unfold ManifestManager.publish_recovery_checkpoint in Hr.
  apply with_entry_clean in Hr as [(e & -> & ->)|(-> & e & He & Hr)]; [done | | done | apply encode_entry_np].
  injection Hr as <- <-. destruct Hc as [Hlv Hn Hg Hfi Hca Ht]. split; [|done]. split; simpl; try done.
  intros Hlen. eapply mgood_man_step; [eapply ms_recovery; [exact Hty | exact Hr0 | done] | by apply Hg, (file_grows _ e)].
Qed.
End tables.
