(* ===== verification/Write.v ===== *)
(** * The write component: [src/src/storage/writemanager/write.rs]

    Batches: validation, the runner that gives every operation a sequence
    number, logs the batch and applies it to the memtable.  Flushes: the
    memtable packed into a level-0 table, registered in the manifest, followed
    by a rotation of the log and a checkpoint.  The admission queue in front of
    the runner is [Admission]; the writer lock makes a run and a flush atomic
    with respect to each other.  Disk failures are arguments. *)

From stdpp Require Import pretty.
From S2P Require Import Prelude Bytes OrdMap Search Record Block Bloom Index Footer LegacyBlock SSTable.
From S2P Require Import WalFormat WalAnalysis Wal Manifest Store Admission Read.

Definition MAX_WAL_FRAME_BYTES : Z := 64 * 1024 * 1024.
Definition MAX_WAL_TRANSACTION_BYTES : Z := 256 * 1024 * 1024.

Module CheckpointResult.
Record t : Type := mk {
  sstable_path : bytes;
  record_count : Z;
  level : Z;
  file_id : Z;
  data : bytes
}.
End CheckpointResult.

(** ** Batches *)

Definition op_key (o : BatchOperation) : bytes :=
  match o with BatchPut key _ => key | BatchDelete key => key end.
Definition op_value (o : BatchOperation) : bytes :=
  match o with BatchPut _ value => value | BatchDelete _ => [] end.

Definition validate_operation (transaction_bytes : Z) (o : BatchOperation) : res Z :=
  size ← ok_or (checked_add 42 (len (op_key o))) (StorageError "WAL frame size overflow");
  frame_payload ← ok_or (checked_add size (len (op_value o))) (StorageError "WAL frame size overflow");
  _ ← guard_err (frame_payload <=? MAX_WAL_FRAME_BYTES) (StorageError "WAL frame exceeds 64 MiB");
  frame_bytes ← ok_or (checked_add 20 frame_payload) (StorageError "WAL frame size overflow");
  transaction_bytes ← ok_or (checked_add transaction_bytes frame_bytes)
    (StorageError "WAL transaction size overflow");
  _ ← guard_err (transaction_bytes <=? MAX_WAL_TRANSACTION_BYTES)
    (StorageError "WAL transaction exceeds group limit");
  mret transaction_bytes.
Fixpoint validate_operations (transaction_bytes : Z) (os : list BatchOperation) : res Z :=
  match os with
  | [] => mret transaction_bytes
  | o :: os => n ← validate_operation transaction_bytes o; validate_operations n os
  end.
Definition validate_batch (operations : list BatchOperation) : res Z :=
  validate_operations 37 operations.

(** The commands of the admitted requests, with consecutive sequence numbers. *)
Definition command_of (o : BatchOperation) (lsn : Z) : LogCommand.t :=
  match o with
  | BatchPut key value => LogCommand.mk Put key value lsn
  | BatchDelete key => LogCommand.mk Delete key [] lsn
  end.
Fixpoint build_commands (next_lsn : Z) (os : list BatchOperation) : option (list LogCommand.t * Z) :=
  match os with
  | [] => Some ([], next_lsn)
  | o :: os =>
      lsn ← checked_add next_lsn 1;
      '(commands, next) ← build_commands lsn os;
      Some (command_of o lsn :: commands, next)
  end.
Fixpoint build_groups (next_lsn : Z) (requests : list (list BatchOperation))
    : option (list (list LogCommand.t) * Z) :=
  match requests with
  | [] => Some ([], next_lsn)
  | os :: requests =>
      '(commands, next_lsn) ← build_commands next_lsn os;
      '(groups, next) ← build_groups next_lsn requests;
      Some (commands :: groups, next)
  end.

(** ** References to logged values ([ReferenceValue] of [experimental.rs]) *)

Definition REFERENCE_VALUE_VERSION : byte := x01.
Definition REFERENCE_VALUE_ENCODED_SIZE : Z := 1 + 8 + WAL_VALUE_REF_ENCODED_SIZE + 4.

Module ReferenceValue.
Section codec.
Context `{Crc32}.
Record t : Type := mk { generation : Z; reference : WalValueRef.t }.
Definition new (generation : Z) (reference : WalValueRef.t) : t := mk generation reference.
Definition encode (v : t) : bytes :=
  let body := [REFERENCE_VALUE_VERSION] ++ to_be 8 (generation v) ++ WalValueRef.encode (reference v) in
  body ++ to_be 4 (crc32 body).
Definition validate (v : t) : res unit :=
  _ ← guard_err (negb (generation v =? 0)) (Corrupted "Invalid reference value generation");
  guard_err (negb (is_delete (WalValueRef.record_type (reference v))))
    (Corrupted "Reference value does not reference a put").
Definition decode (bs : bytes) : res t :=
  _ ← guard_err (len bs =? REFERENCE_VALUE_ENCODED_SIZE) (Corrupted "Invalid reference value length");
  version ← byte_at bs 0;
  _ ← guard_err (bool_decide (version = REFERENCE_VALUE_VERSION))
        (Corrupted "Unsupported reference value version");
  checksum ← from_be <$> slice bs (REFERENCE_VALUE_ENCODED_SIZE - 4) (len bs);
  body ← slice bs 0 (REFERENCE_VALUE_ENCODED_SIZE - 4);
  _ ← guard_err (crc32 body =? checksum) (Corrupted "Reference value checksum mismatch");
  generation ← from_be <$> slice bs 1 9;
  raw ← slice bs 9 (9 + WAL_VALUE_REF_ENCODED_SIZE);
  reference ← WalValueRef.decode raw;
  _ ← validate (mk generation reference);
  mret (mk generation reference).
End codec.
End ReferenceValue.

(** ** Writes to the memtable *)

Record MemtableWrite : Type := mkMemtableWrite {
  mw_key : bytes; mw_value : bytes; mw_type : RecordType; mw_lsn : Z
}.
Definition write_of_command (c : LogCommand.t) : MemtableWrite :=
  mkMemtableWrite (LogCommand.key c) (LogCommand.value c) (LogCommand.record_type c) (LogCommand.lsn c).

Section reference_writes.
Context `{Crc32}.
Fixpoint zip_writes (generation : Z) (commands : list LogCommand.t) (references : list WalValueRef.t)
    : res (list MemtableWrite) :=
  match commands, references with
  | command :: commands, reference :: references =>
      _ ← guard_err (bool_decide (WalValueRef.record_type reference = LogCommand.record_type command)
                     && (WalValueRef.application_sequence reference =? LogCommand.lsn command))
            (StorageError "WAL receipt does not match its command");
      rest ← zip_writes generation commands references;
      mret (mkMemtableWrite (LogCommand.key command)
              (match LogCommand.record_type command with
               | Put => ReferenceValue.encode (ReferenceValue.new generation reference)
               | Delete => []
               end)
              (LogCommand.record_type command) (LogCommand.lsn command) :: rest)
  | _, _ => mret []
  end.
Fixpoint zip_groups (generation : Z) (groups : list (list LogCommand.t))
    (receipts : list (list WalValueRef.t)) : res (list MemtableWrite) :=
  match groups, receipts with
  | commands :: groups, references :: receipts =>
      _ ← guard_err (len commands =? len references)
            (StorageError "WAL receipts do not match admitted commands");
      ws ← zip_writes generation commands references;
      rest ← zip_groups generation groups receipts;
      mret (ws ++ rest)
  | _, _ => mret []
  end.
Definition encode_reference_writes (generation : Z) (groups : list (list LogCommand.t))
    (receipts : list (list WalValueRef.t)) : res (list MemtableWrite) :=
  _ ← guard_err (len groups =? len receipts) (StorageError "WAL receipts do not match admitted groups");
  zip_groups generation groups receipts.
End reference_writes.

(** ** The component *)

Inductive PayloadMode : Type := Inline | WalReference (generation : Z).

(** Paths: [dir.join("level-{level}")] and [level_dir.join("sstable-{id}.dat")]. *)
Definition decimal (n : Z) : bytes := bytes_of_string (pretty (Z.to_N n)).
Definition path_join (dir name : bytes) : bytes :=
  match dir with [] => name | _ => dir ++ bytes_of_string "/" ++ name end.
Definition level_dir (dir : bytes) (level : Z) : bytes :=
  path_join dir (bytes_of_string "level-" ++ decimal level).
Definition table_path (dir : bytes) (file_id : Z) : bytes :=
  path_join dir (bytes_of_string "sstable-" ++ decimal file_id ++ bytes_of_string ".dat").

(** What a flush can run into: creating the table file, writing it, the three
    manifest entries and the rotation of the log. *)
Record FlushFaults : Type := mkFlushFaults {
  ff_create : option io_kind;
  ff_write : option Wal.WriteFault;
  ff_register : option Wal.WriteFault;
  ff_rotate : option Wal.RotateFault;
  ff_mark : option Wal.WriteFault;
  ff_publish : option Wal.WriteFault
}.
Definition no_faults : FlushFaults := mkFlushFaults None None None None None None.

Module WriteComponent.
Section component.
Context `{Crc32, FastBloom}.

(** The component with what it shares: the log, the manifest and the files. *)
Record t : Type := mk {
  mem : memtable;
  memtable_size : Z;
  sequence_number : Z;
  checkpoint_owner : option Z;
  payload_mode : PayloadMode;
  sstable_dir : bytes;
  bloom_false_positive_rate : f64;
  wal : Wal.t;
  manifest : ManifestManager.t;
  files : ordmap bytes bytes
}.
Definition set_mem (s : t) (m : memtable) (size : Z) : t :=
  mk m size (sequence_number s) (checkpoint_owner s) (payload_mode s) (sstable_dir s)
     (bloom_false_positive_rate s) (wal s) (manifest s) (files s).
Definition set_sequence (s : t) (n : Z) : t :=
  mk (mem s) (memtable_size s) n (checkpoint_owner s) (payload_mode s) (sstable_dir s)
     (bloom_false_positive_rate s) (wal s) (manifest s) (files s).
Definition set_wal (s : t) (w : Wal.t) : t :=
  mk (mem s) (memtable_size s) (sequence_number s) (checkpoint_owner s) (payload_mode s) (sstable_dir s)
     (bloom_false_positive_rate s) w (manifest s) (files s).
Definition set_manifest (s : t) (m : ManifestManager.t) : t :=
  mk (mem s) (memtable_size s) (sequence_number s) (checkpoint_owner s) (payload_mode s) (sstable_dir s)
     (bloom_false_positive_rate s) (wal s) m (files s).
Definition set_files (s : t) (f : ordmap bytes bytes) : t :=
  mk (mem s) (memtable_size s) (sequence_number s) (checkpoint_owner s) (payload_mode s) (sstable_dir s)
     (bloom_false_positive_rate s) (wal s) (manifest s) f.

Definition on_wal {A} (f : Wal.t → res A * Wal.t) : eff t A :=
  λ s, let '(r, w) := f (wal s) in (r, set_wal s w).
Definition on_manifest {A} (f : ManifestManager.t → res A * ManifestManager.t) : eff t A :=
  λ s, let '(r, m) := f (manifest s) in (r, set_manifest s m).
Definition modify (f : t → t) : eff t unit := λ s, (Ok tt, f s).

(** *** Memtable *)

Definition append_to_memtable (s : t) (w : MemtableWrite) : t :=
  let added := if is_delete (mw_type w) then len (mw_key w) else len (mw_key w) + len (mw_value w) in
  set_mem s (om_insert (mw_key w, mw_lsn w) (MemtableRecord.new (mw_value w) (mw_type w) (mw_lsn w)) (mem s))
    (wrap64 (memtable_size s + added)).
Definition append_all (ws : list MemtableWrite) (s : t) : t := foldl append_to_memtable s ws.
Definition current_sequence_number (s : t) : Z := sequence_number s.
Definition restore_memtable (s : t) (recovered : memtable) (size : Z) : t := set_mem s recovered size.

(** [with_payload_mode]; [token] is the identity of a new checkpoint owner. *)
Definition with_payload_mode (dir : bytes) (w : Wal.t) (m : ManifestManager.t) (fs : ordmap bytes bytes)
    (sequence : Z) (rate : f64) (mode : PayloadMode) (token : Z) : t :=
  let '(owner, w) := Wal.register_checkpoint_owner w token in
  mk [] 0 sequence owner mode dir rate w m fs.

(** *** Runs of the admission queue *)

(** One iteration of [run_write_admission]: the drained requests as one group
    append; the result every request is completed with. *)
Definition run_requests (requests : list (list BatchOperation))
    (rf : option Wal.RotateFault) (wf : option Wal.WriteFault) : eff t unit := λ s,
  match build_groups (sequence_number s) requests with
  | None => (Err (StorageError "batch sequence exhausted"), s)
  | Some (groups, next_lsn) =>
      (match payload_mode s with
       | Inline =>
           _ ← on_wal (λ w, Wal.append_engine_transactions w groups (checkpoint_owner s) false rf wf);
           modify (λ s, set_sequence (append_all (write_of_command <$> concat groups) s) next_lsn)
       | WalReference generation =>
           receipts ← on_wal (λ w, Wal.append_engine_transactions w groups (checkpoint_owner s) true rf wf);
           writes ← pure_eff (encode_reference_writes generation groups receipts);
           modify (λ s, set_sequence (append_all writes s) next_lsn)
       end) s
  end.

(** A batch that passed the queue alone. *)
Definition write_batch (operations : list BatchOperation)
    (rf : option Wal.RotateFault) (wf : option Wal.WriteFault) : eff t unit :=
  match operations with
  | [] => mret tt
  | _ => _ ← pure_eff (validate_batch operations); run_requests [operations] rf wf
  end.
Definition put (key value : bytes) := write_batch [BatchPut key value].
Definition delete (key : bytes) := write_batch [BatchDelete key].

Definition apply_replicated_command (s : t) (cmd : LogCommand.t) : t :=
  let s := set_wal s (Wal.mark_untracked_mutation (wal s)) in
  let value := if is_delete (LogCommand.record_type cmd) then [] else LogCommand.value cmd in
  let s := append_to_memtable s
             (mkMemtableWrite (LogCommand.key cmd) value (LogCommand.record_type cmd) (LogCommand.lsn cmd)) in
  set_sequence s (Z.max (sequence_number s) (LogCommand.lsn cmd)).

(** Returns the memtable and leaves an empty one. *)
Definition lock_memtable (s : t) : memtable * t :=
  let s := set_wal s (Wal.mark_untracked_mutation (wal s)) in
  (mem s, set_mem s [] 0).

(** *** Flushing *)

(** The newest record of every key. *)
Definition insert_valid (valid : ordmap bytes MemtableRecord.t) (e : bytes * Z * MemtableRecord.t)
    : ordmap bytes MemtableRecord.t :=
  let '(key, _, record) := e in
  match om_get key valid with
  | Some existing =>
      if MemtableRecord.lsn existing <? MemtableRecord.lsn record then om_insert key record valid else valid
  | None => om_insert key record valid
  end.
Definition valid_records (m : memtable) : ordmap bytes MemtableRecord.t := foldl insert_valid [] m.

(** The sparse index the flush builds for its key range; [serialize] computes
    the offsets that are written. *)
Fixpoint flush_index (encoded_offset : Z) (blocks : list Block.t) : list SparseIndexEntry.t :=
  match blocks with
  | [] => []
  | block :: blocks =>
      SparseIndexEntry.mk (Block.first_key block) encoded_offset (Block.last_key block)
        (Block.record_count block)
      :: flush_index (wrap64 (encoded_offset + Block.data_size block)) blocks
  end.

(** The self-check: the blocks hold exactly the snapshot. *)
Fixpoint check_records (valid : ordmap bytes MemtableRecord.t) (seen : ordmap bytes unit)
    (rs : list MemtableRecord.t) : res (ordmap bytes unit) :=
  match rs with
  | [] => mret seen
  | record :: rs =>
      match om_get (MemtableRecord.key record) valid with
      | None => Err (Corrupted "SSTable block contains a record outside the flush snapshot")
      | Some expected =>
          if negb (bool_decide (om_get (MemtableRecord.key record) seen = None))
             || negb (MemtableRecord.lsn expected =? MemtableRecord.lsn record)
             || negb (bool_decide (MemtableRecord.record_type expected = MemtableRecord.record_type record))
             || negb (bytes_eqb (MemtableRecord.value expected) (MemtableRecord.value record))
          then Err (Corrupted "SSTable block records do not cover the flush snapshot")
          else check_records valid (om_insert (MemtableRecord.key record) tt seen) rs
      end
  end.

(** The table of a memtable: its codec and its key range. *)
Definition build_table (rate : f64) (m : memtable)
    : res (SSTableCodec.t * (bytes * bytes) * ordmap bytes MemtableRecord.t) :=
  let valid := valid_records m in
  let bloom := insert_all (BloomFilterWrapper.with_rate (len valid + 10) rate) (fst <$> (valid : list _)) in
  blocks ← pack valid;
  let sparse_index := flush_index 0 blocks in
  seen ← check_records valid [] (blocks_records blocks);
  _ ← guard_err (len seen =? len valid)
        (Corrupted "SSTable blocks omit records from the flush snapshot");
  range ← ok_or (SSTableCodec.range_from_index sparse_index)
        (Corrupted "cannot register SSTable without sparse index range");
  mret (SSTableCodec.mk blocks sparse_index bloom, range, valid).

(** [create_new] under fresh ids until one is free; every attempt that fails
    meets another existing file, so one more than there are files is enough. *)
Fixpoint create_table_file (fuel : nat) (fault : option io_kind) : eff t (Z * bytes) :=
  match fuel with
  | O => pure_eff Panic
  | S fuel =>
      file_id ← on_manifest ManifestManager.allocate_file_id;
      ((λ s,
        let path := table_path (level_dir (sstable_dir s) 0) file_id in
        match fault with
        | Some k => (Err (IO k), s)
        | None =>
            match om_get path (files s) with
            | Some _ => create_table_file fuel fault s
            | None => (Ok (file_id, path), set_files s (om_insert path [] (files s)))
            end
        end) : eff t (Z * bytes))
  end.
Definition write_table_file (path data : bytes) (fault : option Wal.WriteFault) : eff t unit := λ s,
  match fault with
  | Some (k, n) => (Err (IO k), set_files s (om_insert path (take n data) (files s)))
  | None => (Ok tt, set_files s (om_insert path data (files s)))
  end.

(** The recovery checkpoint at the end of a flush of the active memtable. *)
Definition publish_checkpoint (trusted_sequence : option Z) (fault : option Wal.WriteFault)
    : eff t unit := λ s,
  match trusted_sequence with
  | Some committed =>
      if Wal.owns_recovery_checkpoints (wal s) (checkpoint_owner s) then
        (position ← pure_eff (Wal.trusted_recovery_position (wal s));
         match position with
         | Some (segment, lsn) =>
             let checkpoint := mkRecoveryCheckpoint segment lsn committed in
             _ ← on_manifest (λ m, ManifestManager.publish_recovery_checkpoint m checkpoint fault);
             (* a failed reclamation is logged and retried later *)
             modify (λ s, set_wal s (snd (Wal.reclaim_checkpointed_segments (wal s) checkpoint)))
         | None => mret tt
         end) s
      else (Ok tt, s)
  | None => (Ok tt, s)
  end.

Definition flush_inner (m : memtable) (trusted_sequence : option Z) (ff : FlushFaults)
    : eff t CheckpointResult.t := λ s,
  ('(codec, (smallest, largest), valid) ← pure_eff (build_table (bloom_false_positive_rate s) m);
   let '(encoded, footer) := SSTableCodec.serialize codec in
   '(file_id, path) ← create_table_file (S (length (files s))) (ff_create ff);
   _ ← write_table_file path encoded (ff_write ff);
   _ ← on_manifest (λ m, ManifestManager.register_sstable m
         (SSTableMeta.mk file_id 0 path (len valid) smallest largest
            (SSTableFooter.bloom_block_start footer)
            (SSTableFooter.bloom_block_end footer - SSTableFooter.bloom_block_start footer))
         (ff_register ff));
   active_segment ← on_wal (λ w, Wal.rotate_wal_file w (ff_rotate ff));
   let checkpoint_lsn := foldr (λ e n, Z.max (MemtableRecord.lsn (snd e)) n) 0 (valid : list _) in
   _ ← on_manifest (λ m, ManifestManager.mark_checkpoint m checkpoint_lsn active_segment (ff_mark ff));
   _ ← publish_checkpoint trusted_sequence (ff_publish ff);
   mret (CheckpointResult.mk path (len valid) 0 file_id encoded)) s.

Definition flush (m : memtable) (ff : FlushFaults) : eff t CheckpointResult.t := flush_inner m None ff.

(** Removes the flushed entries, which are still in the memtable. *)
Definition remove_flushed (snapshot : memtable) (s : t) : t :=
  let '(m, removed) :=
    foldl (λ acc e,
      match om_get (fst e) (fst acc) with
      | Some r => (om_remove (fst e) (fst acc),
                   wrap64 (snd acc + (len (fst (fst e)) + len (MemtableRecord.value r))))
      | None => acc
      end) (mem s, 0) snapshot in
  set_mem s m (wrap64 (memtable_size s - removed)).
Definition flush_active_memtable (ff : FlushFaults) : eff t CheckpointResult.t := λ s,
  let snapshot := mem s in
  (result ← flush_inner snapshot (Some (sequence_number s)) ff;
   _ ← modify (remove_flushed snapshot);
   mret result) s.
End component.
End WriteComponent.
