(* ===== verification/WriteTheory.v ===== *)
(** * What a flush writes, and what a batch may contain

    The table a flush builds holds the newest record of every key of the
    memtable; creating its file ends and never touches an existing file; a
    batch that passes validation fits into the log. *)

From stdpp Require Import sets pretty.
From Stdlib Require Import Sorted.
From S2P Require Import Unicode.
From S2P Require Import Prelude Bytes OrdMap Search Record Block Bloom Index Footer LegacyBlock SSTable.
From S2P Require Import WalFormat WalAnalysis Wal Manifest Store Admission Read ReadTheory Tables Write.

(** ** Validation *)

Lemma validate_operation_np n o : validate_operation n o ≠ Panic.
Proof. unfold validate_operation. repeat (apply res_bind_no_panic; [auto with cere|]; intros). done. Qed.
Lemma validate_batch_np os : validate_batch os ≠ Panic.
Proof.
  unfold validate_batch. generalize 37 as n. induction os as [|o os IH]; intros n; [done|]. simpl.
  apply res_bind_no_panic; [apply validate_operation_np|]. intros m _. apply IH.
Qed.

(** ** The records of a flush *)

Abbreviation keyed kr := (MemtableRecord.with_key kr.2 kr.1).
Definition flush_records (m : memtable) : list MemtableRecord.t :=
  (λ kr, keyed kr) <$> (WriteComponent.valid_records m : list _).

(** The map built so far has the newest record of every key seen. *)
Definition valid_of (valid : ordmap bytes MemtableRecord.t) (rs : list MemtableRecord.t) : Prop :=
  om_wf valid ∧ ∀ k, (λ r, MemtableRecord.with_key r k) <$> om_get k valid = newest k rs.
Lemma insert_valid_step valid rs e :
  valid_of valid rs → valid_of (WriteComponent.insert_valid valid e) (rs ++ [mem_record e]).
Proof.
  intros [Hw Hv]. destruct e as [[key n] r]. unfold WriteComponent.insert_valid.
  pose proof (Hv key) as Hk.
  assert (∀ valid', om_wf valid' → (∀ k, k ≠ key → om_get k valid' = om_get k valid) →
    (λ r, MemtableRecord.with_key r key) <$> om_get key valid' =
      newer key (newest key rs) (mem_record (key, n, r)) →
    valid_of valid' (rs ++ [mem_record (key, n, r)])) as Hgoal.
  { intros v' Hw' Hne Hkey. split; [done|]. intros k. rewrite newest_snoc.
    destruct (decide (k = key)) as [->|Hkk]; [done|]. rewrite Hne, Hv by done.
    unfold newer. rewrite bool_decide_false by (simpl; congruence). done. }
  unfold newer in Hgoal. simpl in Hgoal. rewrite bool_decide_true in Hgoal by done.
  destruct (om_get key valid) as [ex|] eqn:Ee; simpl in Hk; rewrite <- Hk in Hgoal; simpl in Hgoal.
  - destruct (MemtableRecord.lsn ex <? MemtableRecord.lsn r).
    + apply Hgoal; [by apply om_insert_wf | intros; by rewrite om_get_insert_ne | by rewrite om_get_insert_eq].
    + apply Hgoal; [done | done | by rewrite Ee].
  - apply Hgoal; [by apply om_insert_wf | intros; by rewrite om_get_insert_ne | by rewrite om_get_insert_eq].
Qed.
Lemma valid_records_spec m : valid_of (WriteComponent.valid_records m) (mem_records m).
Proof.
  unfold WriteComponent.valid_records, mem_records.
  assert (valid_of [] []) as H0 by (split; [apply om_wf_nil | done]).
  revert H0. change (map mem_record m) with ([] ++ map mem_record m).
  generalize (@nil (bytes * MemtableRecord.t)) as valid. generalize (@nil MemtableRecord.t) as acc.
  induction m as [|e m IH]; intros acc valid Hv; simpl; [by rewrite app_nil_r|].
  rewrite (cons_middle _ acc), (assoc_L (++)). by apply IH, insert_valid_step.
Qed.

Lemma elem_of_flush_records m r :
  r ∈ flush_records m ↔ newest (MemtableRecord.key r) (mem_records m) = Some r.
Proof.
  destruct (valid_records_spec m) as [Hw Hv]. unfold flush_records. rewrite list_elem_of_fmap. split.
  - intros ([k x] & -> & He). simpl. rewrite <- Hv. apply om_get_Some in He; [|done]. by rewrite He.
  - intros Hn. rewrite <- Hv in Hn. apply fmap_Some in Hn as (x & Hx & ->). simpl in *.
    exists (MemtableRecord.key r, x). split; [|by apply om_get_Some]. simpl.
    done.
Qed.

Lemma flush_records_sorted m : keys_sorted (flush_records m).
Proof.
  destruct (valid_records_spec m) as [Hw _]. unfold keys_sorted, flush_records. unfold om_wf in Hw.
  induction Hw as [|e v Hw IH Hf]; [constructor|]. rewrite fmap_cons. constructor; [done|].
  rewrite Forall_forall in Hf. apply Forall_forall. intros r (e' & -> & He')%list_elem_of_fmap. by apply Hf.
Qed.
Lemma flush_records_subset m : flush_records m ⊆ mem_records m.
Proof.
  intros r Hr%elem_of_flush_records. pose proof (newest_spec (MemtableRecord.key r) (mem_records m)) as Hs.
  rewrite Hr in Hs. by destruct Hs.
Qed.
Lemma flush_records_keys m : MemtableRecord.key <$> flush_records m = fst <$> (WriteComponent.valid_records m : list _).
Proof. unfold flush_records. rewrite <- list_fmap_compose. by apply list_fmap_ext. Qed.
Lemma flush_records_nil m : flush_records m = [] → mem_records m = [].
Proof.
  intros Hn. destruct (mem_records m) as [|r rs] eqn:E; [done|]. exfalso.
  assert (r ∈ mem_records m) as Hr by (rewrite E; by left).
  pose proof (newest_spec (MemtableRecord.key r) (mem_records m)) as Hs.
  destruct (newest _ _) as [b|] eqn:Eb; [|by apply (Hs r)]. destruct Hs as (_ & Hk & _). rewrite <- Hk in Eb.
  apply elem_of_flush_records in Eb. rewrite Hn in Eb. by apply elem_of_nil in Eb.
Qed.

(** *** The self-check of a flush *)

Lemma check_records_pass valid seen rs :
  keys_sorted rs → (∀ r, r ∈ rs → om_get (MemtableRecord.key r) seen = None) →
  (∀ r, r ∈ rs → (λ v, MemtableRecord.with_key v (MemtableRecord.key r)) <$> om_get (MemtableRecord.key r) valid = Some r) →
  ∃ seen', WriteComponent.check_records valid seen rs = Ok seen' ∧ len seen' = len seen + len rs.
Proof.
  intros Hs. revert seen. unfold keys_sorted in Hs.
  induction Hs as [|r rs Hs IH Hf]; intros seen Hseen Hv; [exists seen; split; [done|rewrite len_nil; lia]|].
  cbn [WriteComponent.check_records]. pose proof (Hv r (list_elem_of_here _ _)) as Hr.
  apply fmap_Some in Hr as (v & -> & ->). cbn [MemtableRecord.key MemtableRecord.with_key MemtableRecord.lsn
    MemtableRecord.record_type MemtableRecord.value] in *.
  rewrite (Hseen _ (list_elem_of_here _ _)). simpl.
  rewrite !bool_decide_true, Z.eqb_refl by done. unfold bytes_eqb. rewrite bool_decide_true by done. simpl.
  rewrite Forall_forall in Hf. destruct (IH (om_insert (MemtableRecord.key r) tt seen)) as (seen' & He & Hl).
  - intros x Hx. rewrite om_get_insert_ne; [apply Hseen; by right|]. intros Heq. specialize (Hf x Hx).
    simpl in Hf. rewrite Heq in Hf. by apply klt_irrefl in Hf.
  - intros x Hx. apply Hv. by right.
  - exists seen'. split; [done|]. rewrite Hl, len_cons.
    pose proof (Permutation_length (om_insert_perm _ tt seen (Hseen _ (list_elem_of_here _ _)))) as Hp.
    unfold len. rewrite Hp. simpl. lia.
Qed.

(** ** The key range of packed blocks *)

Lemma first_of_app x y : x ≠ [] → first_of (x ++ y) = first_of x.
Proof. by destruct x. Qed.
Lemma last_of_app x y : y ≠ [] → last_of (x ++ y) = last_of y.
Proof. intros Hy. unfold last_of. rewrite last_app. destruct (last y) eqn:E; [done|]. by apply last_None in E. Qed.
Lemma blocks_first b bs : block_wf b → Block.first_key b = first_of (blocks_records (b :: bs)).
Proof.
  intros Hb. change (blocks_records (b :: bs)) with (block_records b ++ blocks_records bs).
  rewrite first_of_app by apply (bwf_nonempty b Hb). apply (bwf_first b Hb).
Qed.
Lemma blocks_last bs b : block_wf b → Block.last_key b = last_of (blocks_records (bs ++ [b])).
Proof.
  intros Hb. rewrite blocks_records_app. change (blocks_records [b]) with (block_records b ++ []).
  rewrite app_nil_r, last_of_app by apply (bwf_nonempty b Hb). apply (bwf_last b Hb).
Qed.
Lemma flush_index_length off bs : length (WriteComponent.flush_index off bs) = length bs.
Proof. revert off. induction bs as [|b bs IH]; intros off; simpl; [done|]. by rewrite IH. Qed.
Lemma flush_index_snoc off bs b :
  ∃ off', WriteComponent.flush_index off (bs ++ [b]) = WriteComponent.flush_index off bs ++
    [SparseIndexEntry.mk (Block.first_key b) off' (Block.last_key b) (Block.record_count b)].
Proof.
  revert off. induction bs as [|b' bs IH]; intros off; simpl; [eauto|].
  destruct (IH (wrap64 (off + Block.data_size b'))) as [off' ->]. eauto.
Qed.
Lemma flush_index_range bs :
  Forall block_wf bs → bs ≠ [] →
  SSTableCodec.range_from_index (WriteComponent.flush_index 0 bs) =
  Some (first_of (blocks_records bs), last_of (blocks_records bs)).
Proof.
  intros Hw Hne. destruct bs as [|b bs] using rev_ind; [done|]. clear IHbs.
  apply Forall_app in Hw as [Hbs [Hb _]%Forall_cons_1]. rewrite <- (blocks_last bs b Hb).
  destruct (flush_index_snoc 0 bs b) as [off He]. unfold SSTableCodec.range_from_index. rewrite He, last_snoc.
  assert (SparseIndexEntry.first_key <$> head (WriteComponent.flush_index 0 bs ++
    [SparseIndexEntry.mk (Block.first_key b) off (Block.last_key b) (Block.record_count b)])
    = Some (first_of (blocks_records (bs ++ [b])))) as Hf.
  { destruct bs as [|b' bs]; simpl; [by rewrite (blocks_first b []) |].
    apply Forall_cons_1 in Hbs as [Hb' _]. by rewrite (blocks_first b' (bs ++ [b])). }
  destruct (head _) as [e|]; [|done]. simpl in *. by injection Hf as ->.
Qed.

(** ** The table of a flush *)

Section build_table.
Context `{Crc32Spec, FastBloomSpec, Hshape : !FastBloomShape}.
Implicit Types (m : memtable) (rate : f64).

(** The filter sized for [n] keys and filled with those of [rs]. *)
Definition bloom_for (n : Z) rate (rs : list MemtableRecord.t) : BloomFilterWrapper.t :=
  insert_all (BloomFilterWrapper.with_rate n rate) (MemtableRecord.key <$> rs).
Lemma bloom_for_wf n rate rs : bloom_wf (bloom_for n rate rs).
Proof. apply insert_all_wf, bloom_with_rate_wf. Qed.
Lemma bloom_for_contains n rate rs r :
  r ∈ rs → BloomFilterWrapper.contains (bloom_for n rate rs) (MemtableRecord.key r) = true.
Proof. intros Hr. apply insert_all_contains. by apply list_elem_of_fmap_2. Qed.

Lemma bloom_for_shape n rate rs : 1 <= n → bloom_shape (bloom_for n rate rs).
Proof. apply bf_shape. Qed.

(** Records a table can hold: encodable, with keys that are not empty. *)
Definition recordable (r : MemtableRecord.t) : Prop := rec_ok r ∧ MemtableRecord.key r ≠ [].
Definition builds n rate (rs : list MemtableRecord.t) : Prop :=
  Forall recordable rs ∧ keys_sorted rs ∧ rs ≠ [] ∧ table_fits (bloom_for n rate rs) rs.

Lemma fits_packed bloom rs : table_fits bloom rs → packed_bound rs <= isize_max.
Proof.
  unfold table_fits. pose proof (packed_bound_nonneg rs). pose proof (len_nonneg (BloomFilterWrapper.encode bloom)). lia.
Qed.
Lemma pack_builds (krs : list (bytes * MemtableRecord.t)) rs :
  Forall recordable rs → keys_sorted rs → packed_bound rs <= isize_max →
  (λ kr : bytes * MemtableRecord.t, MemtableRecord.with_key kr.2 kr.1) <$> krs = rs →
  ∃ blocks, pack krs = Ok blocks ∧ packed rs blocks.
Proof.
  intros Hr Hs Hb <-. apply pack_spec; [|done|done|].
  - eapply Forall_impl; [exact Hr|]. by intros r [? _].
  - intros r He. rewrite He in Hr. by apply Forall_cons_1 in Hr as [[_ ?] _].
Qed.
Lemma packed_not_nil rs blocks : packed rs blocks → rs ≠ [] → blocks ≠ [].
Proof. intros [_ Hr _] Hne ->. by subst. Qed.

Lemma build_table_ok rate m :
  builds (len (WriteComponent.valid_records m) + 10) rate (flush_records m) →
  ∃ c, WriteComponent.build_table rate m =
         Ok (c, (first_of (flush_records m), last_of (flush_records m)), WriteComponent.valid_records m) ∧
       table_wf c ∧ table_file (SSTableCodec.serialize c).1 (flush_records m).
Proof.
  set (rs := flush_records m). intros (Hr & Hs & Hne & Hf). destruct (valid_records_spec m) as [Hw Hv].
  destruct (pack_builds (WriteComponent.valid_records m) rs Hr Hs (fits_packed _ _ Hf) eq_refl) as (blocks & Hp & Hpk).
  pose proof Hpk as [Hbw Hbr _].
  destruct (check_records_pass (WriteComponent.valid_records m) [] rs) as (seen & Hc & Hl); [done | done | |].
  { intros r Hin. rewrite Hv. by apply elem_of_flush_records. }
  eexists (SSTableCodec.mk blocks (WriteComponent.flush_index 0 blocks) (bloom_for _ rate rs)). split.
  - unfold WriteComponent.build_table. cbv zeta. rewrite Hp. cbn [mbind res_bind].
    rewrite Hbr, Hc. cbn [mbind res_bind].
    assert ((len seen =? len (WriteComponent.valid_records m)) = true) as ->.
    { rewrite Hl. apply Z.eqb_eq. unfold rs, flush_records, len. rewrite length_fmap. simpl. lia. }
    cbn [guard_err mbind res_bind].
    rewrite (flush_index_range blocks Hbw (packed_not_nil _ _ Hpk Hne)), Hbr. cbn [ok_or mbind res_bind].
    unfold bloom_for, rs. rewrite flush_records_keys. done.
  - apply packed_table; [done | done | done | exact Hf | apply bloom_for_wf | apply bloom_for_shape | intros; by apply bloom_for_contains].
    pose proof (len_nonneg (WriteComponent.valid_records m)). lia.
Qed.
End build_table.

(** ** Fresh file names *)

Lemma list_byte_of_string_inj s1 s2 : bytes_of_string s1 = bytes_of_string s2 → s1 = s2.
Proof.
  unfold bytes_of_string. intros He. rewrite <- (String.string_of_list_byte_of_string s1), He.
  apply String.string_of_list_byte_of_string.
Qed.
Lemma decimal_inj a b : 0 <= a → 0 <= b → decimal a = decimal b → a = b.
Proof.
  intros Ha Hb He%list_byte_of_string_inj%(inj pretty). apply (f_equal Z.of_N) in He.
  by rewrite !Z2N.id in He by done.
Qed.
Lemma path_join_inj dir n1 n2 : path_join dir n1 = path_join dir n2 → n1 = n2.
Proof. unfold path_join. destruct dir; [done|]. intros He%(inj (app _))%(inj (app _)). done. Qed.
Lemma table_path_inj dir a b : 0 <= a → 0 <= b → table_path dir a = table_path dir b → a = b.
Proof.
  intros Ha Hb He%path_join_inj%(inj (app _)). apply (inj (λ x, x ++ _)) in He. by apply decimal_inj.
Qed.

(** One of the first [S (length files)] ids from [n] on names no file. *)
Lemma free_name (path : Z → bytes) (files : ordmap bytes bytes) n :
  0 <= n → (∀ a b, 0 <= a → 0 <= b → path a = path b → a = b) →
  ∃ i, (i < S (length files))%nat ∧ om_get (path (n + Z.of_nat i)) files = None.
Proof.
  intros Hn Hinj. destruct (decide (Exists (λ i, om_get (path (n + Z.of_nat i)) files = None)
    (seq 0 (S (length files))))) as [He|He].
  { apply Exists_exists in He as (i & Hi%elem_of_seq & Hx). exists i. split; [lia | done]. }
  exfalso. apply not_Exists_Forall in He; [|intros ?; apply _]. rewrite Forall_forall in He.
  set (ps := (λ i, path (n + Z.of_nat i)) <$> seq 0 (S (length files))).
  assert (NoDup ps) as Hnd.
  { apply NoDup_fmap_2_strong; [|apply NoDup_seq]. intros a b _ _ Hab%Hinj; lia. }
  assert (ps ⊆ (fst <$> (files : list _))) as Hsub.
  { intros p (i & -> & Hi)%list_elem_of_fmap. specialize (He i Hi).
    destruct (om_get (path (n + Z.of_nat i)) files) as [bs|] eqn:Eg; [|done].
    clear -Eg. induction files as [|[k v] files IH]; [done|]. cbn [om_get] in Eg. rewrite fmap_cons.
    destruct (kcmp (path (n + Z.of_nat i)) k) eqn:Ek; [|right; by apply IH..].
    apply kcmp_eq in Ek as ->. by left. }
  pose proof (NoDup_submseteq _ _ Hnd Hsub) as Hlen%submseteq_length.
  unfold ps in Hlen. rewrite !length_fmap, length_seq in Hlen. lia.
Qed.

(** ** Steps of a flush *)

Section steps.
Context `{Crc32Spec, FastBloomSpec}.
Import WriteComponent.
Implicit Types (s : t).

Lemma create_table_spec fuel fault s :
  catalogue (manifest s) (files s) →
  (∃ i, (i < fuel)%nat ∧ om_get (table_path (level_dir (sstable_dir s) 0) (next_id (manifest s) + Z.of_nat i)) (files s) = None) →
  match create_table_file fuel fault s with
  | (Ok (id, p), s') => ∃ m', s' = set_files (set_manifest s m') (om_insert p [] (files s)) ∧
      catalogue m' (files s) ∧ same_tables (manifest s) m' ∧ om_get p (files s) = None ∧
      p = table_path (level_dir (sstable_dir s) 0) id ∧
      next_id (manifest s) <= id < next_id m' ∧ next_id m' <= u64_max
  | (Err _, s') => ∃ m', s' = set_manifest s m' ∧ catalogue m' (files s) ∧ same_tables (manifest s) m'
  | (Panic, _) => False
  end.
Proof.
  revert s. induction fuel as [|fuel IH]; intros s Hc (i & Hi & Hfree); [lia|].
  cbn [create_table_file]. unfold mbind, eff_bind, on_manifest.
  destruct (ManifestManager.allocate_file_id (manifest s)) as [r m1] eqn:Ea.
  destruct (catalogue_allocate _ _ _ _ Hc Ea) as (Hc1 & Hs1 & Hr). destruct r as [id|e|]; [|by exists m1|done].
  destruct Hr as (-> & Hn1 & Hmax). destruct fault as [k|]; [by exists m1|]. simpl.
  destruct (om_get (table_path (level_dir (sstable_dir s) 0) (next_id (manifest s))) (files s)) as [bs|] eqn:Eg.
  - destruct i as [|i]; [rewrite Z.add_0_r in Hfree; congruence|].
    assert (∃ i, (i < fuel)%nat ∧ om_get (table_path (level_dir (sstable_dir (set_manifest s m1)) 0)
      (next_id (manifest (set_manifest s m1)) + Z.of_nat i)) (files (set_manifest s m1)) = None) as Hex.
    { exists i. split; [lia|]. simpl. rewrite Hn1, <- Hfree. do 2 f_equal. lia. }
    specialize (IH (set_manifest s m1) Hc1 Hex).
    destruct (create_table_file fuel None (set_manifest s m1)) as [[[id p]|e|] s'].
    + destruct IH as (m' & -> & Hc' & Hs' & Hp & Hpath & Hid & Hm). exists m'. simpl in *.
      split_and!; try done; [by etrans | lia | lia].
    + destruct IH as (m' & -> & Hc' & Hs'). exists m'. split_and!; [done | done | by etrans].
    + done.
  - exists m1. split_and!; try done; word_lia.
Qed.
Lemma create_table_runs fault s :
  catalogue (manifest s) (files s) →
  match create_table_file (S (length (files s))) fault s with
  | (Ok (id, p), s') => ∃ m', s' = set_files (set_manifest s m') (om_insert p [] (files s)) ∧
      catalogue m' (files s) ∧ same_tables (manifest s) m' ∧ om_get p (files s) = None ∧
      p = table_path (level_dir (sstable_dir s) 0) id ∧
      next_id (manifest s) <= id < next_id m' ∧ next_id m' <= u64_max
  | (Err _, s') => ∃ m', s' = set_manifest s m' ∧ catalogue m' (files s) ∧ same_tables (manifest s) m'
  | (Panic, _) => False
  end.
Proof.
  intros Hc. apply create_table_spec; [done|]. apply free_name; [apply (ca_next _ _ Hc)|]. apply table_path_inj.
Qed.
End steps.

(** ** Paths are UTF-8 *)

(** What precedes a separator is valid on its own. *)
Lemma utf8_prefix x y : utf8_valid (x ++ x2f :: y) = true → utf8_valid x = true.
Proof.
  induction x as [x IH] using utf8_ind. intros Hx.
  destruct x as [|a x]; [done|]. cbn [utf8_valid app] in Hx |- *.
  destruct (bz a <=? 127); [apply IH; [simpl; lia | done]|].
  destruct x as [|b x]; cbn [app] in Hx.
  { destruct ((194 <=? bz a) && (bz a <=? 223)); [done|]. destruct y as [|c y]; [done|].
    destruct ((224 <=? bz a) && (bz a <=? 239)); [done|]. destruct y; [done|].
    by destruct (240 <=? bz a), (bz a <=? 244). }
  destruct ((194 <=? bz a) && (bz a <=? 223)).
  { apply andb_true_iff in Hx as [-> Hx]. apply IH; [simpl; lia | done]. }
  destruct x as [|c x]; cbn [app] in Hx.
  { destruct ((224 <=? bz a) && (bz a <=? 239)); [by destruct (cont b)|]. destruct y; [done|].
    by destruct (240 <=? bz a), (bz a <=? 244), (cont b). }
  destruct ((224 <=? bz a) && (bz a <=? 239)).
  { apply andb_true_iff in Hx as [-> Hx]. apply IH; [simpl; lia | done]. }
  destruct x as [|e x]; cbn [app] in Hx.
  { by destruct (240 <=? bz a), (bz a <=? 244), (cont b), (cont c). }
  apply andb_true_iff in Hx as [-> Hx]. apply IH; [simpl; lia | done].
Qed.

Lemma pretty_char_ascii n s :
  utf8_valid (bytes_of_string s) = true → utf8_valid (bytes_of_string (String (pretty_N_char n) s)) = true.
Proof.
  intros Hs. change (utf8_valid (Ascii.byte_of_ascii (pretty_N_char n) :: bytes_of_string s) = true).
  cbn [utf8_valid]. assert ((bz (Ascii.byte_of_ascii (pretty_N_char n)) <=? 127) = true) as ->; [|done].
  destruct n as [|p]; [done|]. do 4 (destruct p as [p|p|]; try done).
Qed.
Lemma utf8_decimal n : utf8_valid (decimal n) = true.
Proof.
  unfold decimal. generalize (Z.to_N n) as x. intros x. unfold pretty, pretty_N.
  case_decide; [done|]. assert (utf8_valid (bytes_of_string "") = true) as He by done. revert He.
  generalize ""%string as s. induction x as [x IH] using (well_founded_induction N.lt_wf_0). intros s Hs.
  destruct (decide (0 < x)%N) as [Hx|Hx].
  - rewrite pretty_N_go_step by done. destruct (decide (0 < x `div` 10)%N) as [Hd|Hd].
    + apply IH; [apply N.div_lt; lia | lia | by apply pretty_char_ascii].
    + replace (x `div` 10)%N with 0%N by (generalize (x `div` 10)%N Hd; lia). rewrite pretty_N_go_0. by apply pretty_char_ascii.
  - lia.
Qed.
Lemma utf8_path_join dir name :
  utf8_valid dir = true → utf8_valid name = true → utf8_valid (path_join dir name) = true.
Proof. intros Hd Hn. unfold path_join. destruct dir; [done|]. apply utf8_app; [done|]. by apply utf8_app. Qed.
Lemma utf8_table_path dir id : utf8_valid dir = true → utf8_valid (table_path dir id) = true.
Proof.
  intros Hd. apply utf8_path_join; [done|]. apply utf8_app; [done|]. apply utf8_app; [apply utf8_decimal | done].
Qed.
Lemma utf8_level_dir dir level : utf8_valid dir = true → utf8_valid (level_dir dir level) = true.
Proof. intros Hd. apply utf8_path_join; [done|]. apply utf8_app; [done | apply utf8_decimal]. Qed.
