(* ===== verification/Compaction.v ===== *)
(** * Compaction: [src/src/storage/compactionmanager/compaction.rs]

    Merging tables of one level with the overlapping tables of the next.  An
    operation is an effect on the manifest and the files; the compaction lease
    keeps a second compaction out, and the publication refuses a manifest that
    changed since the snapshot.  A cancellation token is the number of checks
    that still pass. *)

From S2P Require Import Prelude Bytes OrdMap Search Record Block Bloom Index Footer LegacyBlock SSTable.
From S2P Require Import Wal Manifest Store Read Write Config.

Abbreviation byte_range := (bytes * bytes)%type.

(** What an output can run into: the output it happens at, and a failure to
    create or to write the file; and the failure of the manifest entry. *)
Record CompactionFaults : Type := mkCompactionFaults {
  cf_output : option (nat * (io_kind + Wal.WriteFault));
  cf_publish : option Wal.WriteFault
}.

Record disk : Type := mkDisk {
  d_manifest : ManifestManager.t;
  d_files : ordmap bytes bytes;
  d_checks : option nat
}.
Definition set_d_files (d : disk) (f : ordmap bytes bytes) : disk := mkDisk (d_manifest d) f (d_checks d).
Definition on_d_manifest {A} (f : ManifestManager.t → res A * ManifestManager.t) : eff disk A :=
  λ d, let '(r, m) := f (d_manifest d) in (r, mkDisk m (d_files d) (d_checks d)).

(** [if cancel.is_cancelled() { return Err(..) }]. *)
Definition check_cancel : eff disk unit := λ d,
  match d_checks d with
  | None => (Ok tt, d)
  | Some O => (Err (StorageError "compaction cancelled"), d)
  | Some (S n) => (Ok tt, mkDisk (d_manifest d) (d_files d) (Some n))
  end.
Fixpoint check_cancels (n : nat) : eff disk unit :=
  match n with O => mret tt | S n => _ ← check_cancel; check_cancels n end.

(** [File::open], and the length of a file. *)
Definition open_path (path : bytes) : eff disk bytes := λ d,
  match om_get path (d_files d) with Some bs => (Ok bs, d) | None => (Err (IO NotFoundKind), d) end.
Definition file_len (path : bytes) : eff disk Z := bs ← open_path path; mret (len bs).

(** ** Ranges *)

Definition overlapping (left right : byte_range) : bool :=
  bytes_leb (fst left) (snd right) && bytes_leb (fst right) (snd left).
Definition bytes_min (x y : bytes) : bytes := if bytes_ltb y x then y else x.
Definition bytes_max (x y : bytes) : bytes := if bytes_ltb y x then x else y.
Definition widen (r1 r2 : byte_range) : byte_range :=
  (bytes_min (fst r1) (fst r2), bytes_max (snd r1) (snd r2)).

Definition range_from_blocks (blocks : list Block.t) : option byte_range :=
  first ← head blocks;
  last ← last blocks;
  Some (Block.first_key first, Block.last_key last).

Section compaction.
Context `{Crc32, FastBloom}.

Definition compute_meta_range (meta : SSTableMeta.t) : eff disk (option byte_range) :=
  _ ← check_cancel;
  match SSTableMeta.smallest_key meta, SSTableMeta.largest_key meta with
  | (_ :: _) as smallest, (_ :: _) as largest => mret (Some (smallest, largest))
  | _, _ =>
      file ← open_path (SSTableMeta.path meta);
      '(_, index, _) ← pure_eff (SSTableCodec.deserialize_sections file);
      mret (SSTableCodec.range_from_index index)
  end.
Fixpoint level_range_loop (metas : list SSTableMeta.t) (range : option byte_range)
    : eff disk (option byte_range) :=
  match metas with
  | [] => mret range
  | meta :: metas =>
      _ ← check_cancel;
      found ← compute_meta_range meta;
      level_range_loop metas
        (match found, range with
         | Some r, Some cur => Some (widen cur r)
         | Some r, None => Some r
         | None, _ => range
         end)
  end.
Definition compute_level_range (metas : list SSTableMeta.t) : eff disk (option byte_range) :=
  level_range_loop metas None.
(** A range the code insists on. *)
Definition meta_range (meta : SSTableMeta.t) : eff disk byte_range :=
  range ← compute_meta_range meta;
  pure_eff (ok_or range (Corrupted "SSTable has no key range")).

(** ** Choosing the inputs *)

(** Oldest files first: one file, or at level 0 files up to the target size. *)
Fixpoint initial_candidates (level target : Z) (files chosen : list SSTableMeta.t) (input_bytes : Z)
    : eff disk (list SSTableMeta.t) :=
  match files with
  | [] => mret chosen
  | meta :: files =>
      if negb (len chosen =? 0) && (negb (level =? 0) || (target <=? input_bytes))
      then mret chosen
      else
        n ← file_len (SSTableMeta.path meta);
        initial_candidates level target files (chosen ++ [meta]) (saturating_add input_bytes n)
  end.

Definition chosen_id (chosen : list SSTableMeta.t) (id : Z) : bool :=
  existsb (λ meta, SSTableMeta.file_id meta =? id) chosen.
(** One pass over both levels. *)
Fixpoint closure_pass (candidates chosen : list SSTableMeta.t) (range : byte_range)
    : eff disk (list SSTableMeta.t * byte_range) :=
  match candidates with
  | [] => mret (chosen, range)
  | candidate :: candidates =>
      if chosen_id chosen (SSTableMeta.file_id candidate) then closure_pass candidates chosen range
      else
        r ← meta_range candidate;
        if overlapping range r
        then closure_pass candidates (chosen ++ [candidate]) (widen range r)
        else closure_pass candidates chosen range
  end.
(** Passes until nothing is added; every other pass adds a candidate. *)
Fixpoint closure_loop (fuel : nat) (candidates chosen : list SSTableMeta.t) (range : byte_range)
    : eff disk (list SSTableMeta.t * byte_range) :=
  match fuel with
  | O => pure_eff Panic
  | S fuel =>
      '(chosen', range') ← closure_pass candidates chosen range;
      if len chosen =? len chosen' then mret (chosen', range')
      else closure_loop fuel candidates chosen' range'
  end.

(** ** Merging *)

Definition choose_winner (current candidate : MemtableRecord.t) : MemtableRecord.t :=
  if MemtableRecord.lsn current <? MemtableRecord.lsn candidate then candidate
  else if MemtableRecord.lsn candidate <? MemtableRecord.lsn current then current
  else match MemtableRecord.record_type current, MemtableRecord.record_type candidate with
       | Delete, _ => current
       | _, Delete => candidate
       | _, _ => current
       end.
Definition merge_winner (merged : ordmap bytes MemtableRecord.t) (record : MemtableRecord.t)
    : ordmap bytes MemtableRecord.t :=
  om_insert (MemtableRecord.key record)
    (match om_get (MemtableRecord.key record) merged with
     | Some existing => choose_winner existing record
     | None => record
     end) merged.
(** A tombstone outside every protected range is dropped. *)
Definition reclaimed (protected_ranges : option (list byte_range)) (winner : MemtableRecord.t) : bool :=
  is_delete (MemtableRecord.record_type winner)
  && match protected_ranges with
     | None => false
     | Some ranges =>
         negb (existsb (λ r, bytes_leb (fst r) (MemtableRecord.key winner)
                             && bytes_leb (MemtableRecord.key winner) (snd r)) ranges)
     end.

(** [flush_winner] for every record, and the last block: blocks and filter. *)
Definition pack_table (bloom : BloomFilterWrapper.t) (records : list MemtableRecord.t)
    : res SSTableCodec.t :=
  blocks ← pack ((λ r, (MemtableRecord.key r, r)) <$> records);
  mret (SSTableCodec.mk blocks [] (insert_all bloom (MemtableRecord.key <$> records))).

(** The checks for cancellation happen once per table and once per record. *)
Definition merge_files_with_reclamation (sstables : list SSTableCodec.t) (config : StorageConfig.t)
    (protected_ranges : option (list byte_range)) : eff disk SSTableCodec.t :=
  _ ← check_cancels (length sstables);
  let records := sstables ≫= (λ c, blocks_records (SSTableCodec.blocks c)) in
  let winners := snd <$> (foldl merge_winner [] records : list _) in
  _ ← check_cancels (length winners);
  pure_eff (pack_table
    (BloomFilterWrapper.with_rate 1000000 (StorageConfig.bloom_false_positive_rate config))
    (List.filter (λ w, negb (reclaimed protected_ranges w)) winners)).

(** ** Outputs *)

Fixpoint partition_records (target : Z) (rs acc : list MemtableRecord.t) (size : Z)
    : list (list MemtableRecord.t) :=
  match rs with
  | [] => match acc with [] => [] | _ => [acc] end
  | r :: rs =>
      let n := MemtableRecord.record_length r (MemtableRecord.key r) in
      if negb (len acc =? 0) && (target <? saturating_add size n)
      then acc :: partition_records target rs [r] (saturating_add 0 n)
      else partition_records target rs (acc ++ [r]) (saturating_add size n)
  end.
Definition build_output (records : list MemtableRecord.t) (config : StorageConfig.t)
    : res SSTableCodec.t :=
  pack_table (BloomFilterWrapper.with_rate (len records) (StorageConfig.bloom_false_positive_rate config))
    records.
Definition partition_output (merged : SSTableCodec.t) (config : StorageConfig.t)
    : res (list SSTableCodec.t) :=
  Wal.map_res (λ rs, build_output rs config)
    (partition_records (StorageConfig.target_sstable_bytes config)
       (blocks_records (SSTableCodec.blocks merged)) [] 0).

(** [Path::parent]: what precedes the last separator, or nothing. *)
Fixpoint drop_name (rev_path : bytes) : bytes :=
  match rev_path with
  | [] => []
  | b :: rest => if bool_decide (b = x2f) then rest else drop_name rest
  end.
Definition parent (path : bytes) : bytes := rev (drop_name (rev path)).
Definition build_compaction_output_path (base_file_path : bytes) (level file_id : Z) : bytes :=
  table_path (level_dir (parent (parent base_file_path)) level) file_id.

(** [create_new] under fresh ids. *)
Fixpoint create_output_file (fuel : nat) (source : bytes) (level : Z) (fault : option io_kind)
    : eff disk (Z * bytes) :=
  match fuel with
  | O => pure_eff Panic
  | S fuel =>
      file_id ← on_d_manifest ManifestManager.allocate_file_id;
      ((λ d,
        let path := build_compaction_output_path source level file_id in
        match fault with
        | Some k => (Err (IO k), d)
        | None =>
            match om_get path (d_files d) with
            | Some _ => create_output_file fuel source level fault d
            | None => (Ok (file_id, path), set_d_files d (om_insert path [] (d_files d)))
            end
        end) : eff disk (Z * bytes))
  end.
Definition write_output_file (path data : bytes) (fault : option Wal.WriteFault) : eff disk unit := λ d,
  match fault with
  | Some (k, n) => (Err (IO k), set_d_files d (om_insert path (take n data) (d_files d)))
  | None => (Ok tt, set_d_files d (om_insert path data (d_files d)))
  end.

Definition write_compaction_output (source : bytes) (level : Z) (table : SSTableCodec.t)
    (fault : option (io_kind + Wal.WriteFault)) : eff disk SSTableMeta.t := λ d,
  ('(file_id, path) ← create_output_file (S (length (d_files d))) source level
                        (match fault with Some (inl k) => Some k | _ => None end);
   let '(encoded, footer) := SSTableCodec.serialize table in
   _ ← write_output_file path encoded (match fault with Some (inr f) => Some f | _ => None end);
   '(smallest, largest) ← pure_eff (ok_or (range_from_blocks (SSTableCodec.blocks table))
                            (Corrupted "compaction output has no key range"));
   mret (SSTableMeta.mk file_id level path
           (foldr (λ b n, Block.record_count b + n) 0 (SSTableCodec.blocks table))
           smallest largest (SSTableFooter.bloom_block_start footer)
           (SSTableFooter.bloom_block_end footer - SSTableFooter.bloom_block_start footer))) d.

Fixpoint write_outputs (source : bytes) (level : Z) (i : nat) (tables : list SSTableCodec.t)
    (fault : option (nat * (io_kind + Wal.WriteFault))) : eff disk (list SSTableMeta.t) :=
  match tables with
  | [] => mret []
  | table :: tables =>
      _ ← check_cancel;
      meta ← write_compaction_output source level table
               (match fault with Some (j, f) => if bool_decide (i = j) then Some f else None | None => None end);
      metas ← write_outputs source level (S i) tables fault;
      mret (meta :: metas)
  end.

(** ** A compaction *)

Fixpoint read_tables (metas : list SSTableMeta.t) : eff disk (list SSTableCodec.t) :=
  match metas with
  | [] => mret []
  | meta :: metas =>
      _ ← check_cancel;
      file ← open_path (SSTableMeta.path meta);
      '(footer, index, bloom) ← pure_eff (SSTableCodec.deserialize_sections file);
      blocks ← pure_eff (SSTableCodec.get_all_blocks file footer index);
      rest ← read_tables metas;
      mret (SSTableCodec.mk blocks index bloom :: rest)
  end.
(** The key ranges of all tables that are not inputs. *)
Fixpoint protected_ranges (metas inputs : list SSTableMeta.t) : eff disk (list byte_range) :=
  match metas with
  | [] => mret []
  | meta :: metas =>
      if chosen_id inputs (SSTableMeta.file_id meta) then protected_ranges metas inputs
      else
        r ← meta_range meta;
        rest ← protected_ranges metas inputs;
        mret (r :: rest)
  end.

(** Evicted from the cache and deleted; a failure to delete is only logged. *)
Definition remove_compacted_files (inputs : list SSTableMeta.t) (d : disk) : disk :=
  foldl (λ d input,
    mkDisk (ManifestManager.evict_file (d_manifest d) (SSTableMeta.path input))
      (om_remove (SSTableMeta.path input) (d_files d)) (d_checks d)) d inputs.

Definition select_inputs (level : Z) (config : StorageConfig.t) (current next : list SSTableMeta.t)
    : eff disk (list SSTableMeta.t) :=
  initial ← initial_candidates level (StorageConfig.target_sstable_bytes config) current [] 0;
  range ← compute_level_range initial;
  range ← pure_eff (ok_or range (Corrupted "Level has no valid key range"));
  '(inputs, _) ← closure_loop (S (length current + length next)) (current ++ next) initial range;
  mret inputs.

(** Everything after the choice of the inputs: merge them into tables of the
    next level, publish those in their place and delete the inputs. *)
Definition replace_inputs (snapshot : ManifestSnapshot.t) (source : bytes) (next_level : Z)
    (inputs : list SSTableMeta.t) (config : StorageConfig.t) (cf : CompactionFaults)
    : eff disk SSTableCodec.t :=
  sstables ← read_tables inputs;
  protected ← protected_ranges ((ManifestSnapshot.levels snapshot : list _) ≫= snd) inputs;
  merged ← merge_files_with_reclamation sstables config (Some protected);
  _ ← check_cancel;
  tables ← pure_eff (partition_output merged config);
  outputs ← write_outputs source next_level 0 tables (cf_output cf);
  _ ← check_cancel;
  _ ← on_d_manifest (λ m, ManifestManager.publish_compaction m snapshot inputs outputs (cf_publish cf));
  _ ← ((λ d, (Ok tt, remove_compacted_files inputs d)) : eff disk unit);
  mret merged.

Definition compaction (level : Z) (config : StorageConfig.t) (cf : CompactionFaults)
    : eff disk SSTableCodec.t := λ d,
  let snapshot := ManifestManager.snapshot (d_manifest d) in
  let levels := ManifestSnapshot.levels snapshot in
  (_ ← check_cancel;
   match om_get level levels with
   | None => pure_eff (Err (StorageError "Level not found in manifest"))
   | Some files =>
       let current := sort_by (λ x y, Z.compare (SSTableMeta.file_id x) (SSTableMeta.file_id y)) files in
       next_level ← pure_eff (ok_or (if level + 1 <=? u32_max then Some (level + 1) else None)
                                (StorageError "compaction level overflow"));
       inputs ← select_inputs level config current (default [] (om_get next_level levels));
       replace_inputs snapshot (default [] (SSTableMeta.path <$> head current)) next_level inputs config cf
   end) d.

(** ** Draining the levels *)

(** [multiplier.saturating_pow(level - 1)]. *)
Fixpoint saturating_pow (b : Z) (n : nat) : Z :=
  match n with O => 1 | S n => saturating_mul b (saturating_pow b n) end.
Definition level_target (config : StorageConfig.t) (level : Z) : Z :=
  saturating_mul (StorageConfig.level_base_bytes config)
    (saturating_pow (StorageConfig.level_size_multiplier config) (Z.to_nat (level - 1))).
Fixpoint total_len (files : list SSTableMeta.t) (n : Z) : eff disk Z :=
  match files with
  | [] => mret n
  | f :: files => m ← file_len (SSTableMeta.path f); total_len files (saturating_add n m)
  end.
(** The deepest level over its target. *)
Fixpoint deepest_debt (config : StorageConfig.t) (levels : list (Z * list SSTableMeta.t))
    : eff disk (option Z) :=
  match levels with
  | [] => mret None
  | (level, files) :: levels =>
      n ← total_len files 0;
      if level_target config level <? n then mret (Some level) else deepest_debt config levels
  end.
Definition pending_level (config : StorageConfig.t) (requested : option Z)
    (levels : ordmap Z (list SSTableMeta.t)) : eff disk (option Z) :=
  let full0 := match om_get 0 levels with
               | Some files => StorageConfig.max_level0_files config <=? len files
               | None => false end in
  let asked := l ← requested;
               files ← om_get l levels;
               if negb (len files =? 0) && (negb (l =? 0) || (StorageConfig.max_level0_files config <=? len files))
               then Some l else None in
  match asked with
  | Some l => mret (Some l)
  | None =>
      debt ← deepest_debt config (rev (List.filter (λ l, 0 <? fst l) levels));
      mret (match debt with Some l => Some l | None => if full0 then Some 0 else None end)
  end.

(** At most [fuel] compactions; [None] when the loop would go on. *)
Fixpoint compact_loop (fuel : nat) (requested : option Z) (config : StorageConfig.t)
    (cf : CompactionFaults) : eff disk (option unit) :=
  match fuel with
  | O => mret None
  | S fuel =>
      _ ← check_cancel;
      ((λ d,
        (level ← pending_level config requested
                   (ManifestSnapshot.levels (ManifestManager.snapshot (d_manifest d)));
         match level with
         | None => mret (Some tt)
         | Some level => _ ← compaction level config cf; compact_loop fuel None config cf
         end) d) : eff disk (option unit))
  end.
Definition compact_levels (fuel : nat) (requested_level : Z) (config : StorageConfig.t)
    (cf : CompactionFaults) : eff disk (option unit) :=
  if (StorageConfig.target_sstable_bytes config =? 0) || (StorageConfig.level_base_bytes config =? 0)
     || (StorageConfig.level_size_multiplier config <? 2) || (StorageConfig.max_level0_files config =? 0)
  then pure_eff (Err (StorageError "invalid compaction targets"))
  else compact_loop fuel (Some requested_level) config cf.
End compaction.
