(* ===== verification/CompactionTheory.v ===== *)
(** * Compaction keeps what readers see

    The choice of the inputs reaches a fixed point, so that no other table of
    the two levels overlaps them; the merge keeps the newest version of every
    key and drops a tombstone only where no other table may hold the key; the
    outputs replace the inputs in the manifest.  However a compaction ends, the
    tables satisfy their invariant and show the same values. *)

From stdpp Require Import sets.
From Stdlib Require Import Sorted.
From S2P Require Import Prelude Bytes OrdMap Search Record Block Bloom Index Footer LegacyBlock SSTable.
From S2P Require Import Wal Manifest ManifestTheory Store Read ReadTheory Tables Write WriteTheory Config Compaction.

(** ** Ranges *)

Implicit Types (x y : SSTableMeta.t) (d : disk).

Definition range_of x : byte_range := (SSTableMeta.smallest_key x, SSTableMeta.largest_key x).
(** A range that contains another. *)
Definition covering (r r' : byte_range) : Prop := kle r.1 r'.1 ∧ kle r'.2 r.2.
#[export] Instance covering_preorder : PreOrder covering.
Proof.
  split; [intros r; split; apply kle_refl|]. intros r1 r2 r3 [H1 H2] [H3 H4]. split; by eapply kle_trans.
Qed.
Lemma bytes_min_le a b : kle (bytes_min a b) a ∧ kle (bytes_min a b) b.
Proof.
  unfold bytes_min. rewrite bytes_ltb_kltb. destruct (kltb b a) eqn:E.
  - apply kltb_lt in E. split; [by apply klt_le | apply kle_refl].
  - apply kltb_ge in E. split; [apply kle_refl | done].
Qed.
Lemma bytes_max_le a b : kle a (bytes_max a b) ∧ kle b (bytes_max a b).
Proof.
  unfold bytes_max. rewrite bytes_ltb_kltb. destruct (kltb b a) eqn:E.
  - apply kltb_lt in E. split; [apply kle_refl | by apply klt_le].
  - apply kltb_ge in E. split; [done | apply kle_refl].
Qed.
Lemma widen_covering r1 r2 : covering (widen r1 r2) r1 ∧ covering (widen r1 r2) r2.
Proof.
  unfold widen, covering. simpl. pose proof (bytes_min_le r1.1 r2.1). pose proof (bytes_max_le r1.2 r2.2). naive_solver.
Qed.
Lemma overlapping_common r1 r2 k :
  kle r1.1 k → kle k r1.2 → kle r2.1 k → kle k r2.2 → overlapping r1 r2 = true.
Proof.
  intros H1 H2 H3 H4. unfold overlapping. apply andb_true_iff.
  change (kleb r1.1 r2.2 = true ∧ kleb r2.1 r1.2 = true). rewrite !kleb_le. split; by eapply kle_trans.
Qed.

(** ** Reading *)

Definition same_disk d d' : Prop := d_manifest d' = d_manifest d ∧ d_files d' = d_files d.
#[export] Instance same_disk_preorder : PreOrder same_disk.
Proof. split; [done|]. intros d1 d2 d3 [H1 H2] [H3 H4]. split; congruence. Qed.

Section reading.
Context `{Crc32Spec, FastBloomSpec}.
Variable d0 : disk.
Hypothesis Hcat : catalogue (d_manifest d0) (d_files d0).
Abbreviation reads := (ends (same_disk d0)).
Abbreviation table := (listed (lvls (d_manifest d0))).
Abbreviation recs_of := (records_at (d_files d0)).

Lemma check_cancel_reads d : same_disk d0 d → reads (λ _ _, True) check_cancel d.
Proof.
  intros Hd. unfold ends, check_cancel. destruct (d_checks d) as [[|n]|]; [done | | done].
  split; [|done]. etrans; [exact Hd | by split].
Qed.
Lemma check_cancels_reads n d : same_disk d0 d → reads (λ _ _, True) (check_cancels n) d.
Proof.
  revert d. induction n as [|n IH]; intros d Hd; [by apply ends_ret|]. cbn [check_cancels].
  ends_bind (λ (_ : unit) (_ : disk), True); [by apply check_cancel_reads|]. intros _ d' Hd' _. by apply IH.
Qed.
Lemma file_len_reads p d : same_disk d0 d → reads (λ _ _, True) (file_len p) d.
Proof.
  intros Hd. unfold file_len. ends_bind (λ (_ : bytes) (_ : disk), True); [|intros; by apply ends_ret].
  unfold ends, open_path. destruct (om_get p (d_files d)); [by split | done].
Qed.
Lemma table_open x : table x →
  ∃ bs, om_get (SSTableMeta.path x) (d_files d0) = Some bs ∧ table_file bs (recs_of x) ∧
    SSTableMeta.smallest_key x = first_of (recs_of x) ∧ SSTableMeta.largest_key x = last_of (recs_of x).
Proof.
  intros Hx. destruct (ti_holds _ _ (ca_tables _ _ Hcat) x Hx) as (bs & Ho & Hr). unfold open_of in Ho. simpl in *.
  destruct (om_get (SSTableMeta.path x) (d_files d0)); [|done]. injection Ho as ->. eauto.
Qed.
(** The range of a table is that of its records, and is not empty. *)
Lemma table_range x r : table x → r ∈ recs_of x →
  kle (range_of x).1 (MemtableRecord.key r) ∧ kle (MemtableRecord.key r) (range_of x).2.
Proof.
  intros Hx Hr. destruct (table_open x Hx) as (bs & _ & (c & _ & (Hc & _) & Hrs & _) & Hs & Hl).
  unfold range_of. simpl. rewrite Hs, Hl.
  assert (keys_sorted (recs_of x)) as Hks by (rewrite <- Hrs; apply (tw_sorted c Hc)).
  split; [by apply keys_sorted_first | by apply keys_sorted_last].
Qed.
Lemma table_range_keys x : table x →
  ∃ r1 r2, r1 ∈ recs_of x ∧ r2 ∈ recs_of x ∧ SSTableMeta.smallest_key x = MemtableRecord.key r1 ∧
    SSTableMeta.largest_key x = MemtableRecord.key r2 ∧ MemtableRecord.key r1 ≠ [] ∧ MemtableRecord.key r2 ≠ [].
Proof.
  intros Hx. destruct (table_open x Hx) as (bs & _ & (c & _ & _ & _ & Hne & _) & -> & ->).
  destruct (first_of_elem _ Hne) as (r1 & Hr1 & ->), (last_of_elem _ Hne) as (r2 & Hr2 & ->).
  exists r1, r2. split_and!; try done; apply (ti_keys _ _ (ca_tables _ _ Hcat)); by exists x.
Qed.
Lemma compute_range_reads x d :
  table x → same_disk d0 d → reads (λ r _, r = Some (range_of x)) (compute_meta_range x) d.
Proof.
  intros Hx Hd. unfold compute_meta_range.
  ends_bind (λ (_ : unit) (_ : disk), True); [by apply check_cancel_reads|]. intros _ d' Hd' _.
  destruct (table_range_keys x Hx) as (r1 & r2 & _ & _ & Hk1 & Hk2 & Hn1 & Hn2). unfold range_of.
  destruct (SSTableMeta.smallest_key x) as [|a s]; [congruence|].
  destruct (SSTableMeta.largest_key x) as [|b l]; [congruence|]. by apply ends_ret.
Qed.
Lemma meta_range_reads x d :
  table x → same_disk d0 d → reads (λ r _, r = range_of x) (meta_range x) d.
Proof.
  intros Hx Hd. unfold meta_range. eapply ends_bind; [by apply compute_range_reads|].
  intros r d' Hd' ->. apply ends_pure; [done | done|]. by intros a [= <-].
Qed.

(** ** Choosing the inputs *)

Abbreviation all_tables xs := (∀ x, x ∈ (xs : list SSTableMeta.t) → table x).

Lemma level_range_reads xs range d :
  all_tables xs → same_disk d0 d →
  reads (λ r _, match range with Some a => ∃ b, r = Some b ∧ covering b a | None => xs = [] → r = None end ∧
                ∀ b, r = Some b → ∀ x, x ∈ xs → covering b (range_of x)) (level_range_loop xs range) d.
Proof.
  revert range d. induction xs as [|x xs IH]; intros range d Hxs Hd; cbn [level_range_loop].
  { apply ends_ret; [done|]. split; [destruct range; [by eexists | done] |]. by intros b _ y ?%elem_of_nil. }
  ends_bind (λ (_ : unit) (_ : disk), True); [by apply check_cancel_reads|]. intros _ d1 Hd1 _.
  eapply ends_bind; [apply compute_range_reads; [apply Hxs; by left | done]|].
  intros r d2 Hd2 ->.
  eapply ends_post; [apply IH; [intros y Hy; apply Hxs; by right | done]|]. intros r d3 _ [Hr Hall].
  destruct range as [a|]; simpl in Hr; destruct Hr as (b & -> & Hb).
  - destruct (widen_covering a (range_of x)) as [Hwa Hwx]. split; [exists b; split; [done | by etrans]|].
    intros ? [= <-] y [->|Hy]%elem_of_cons; [by etrans | by apply Hall].
  - split; [done|]. intros ? [= <-] y [->|Hy]%elem_of_cons; [done | by apply Hall].
Qed.

Lemma initial_reads level target xs chosen n d :
  same_disk d0 d →
  reads (λ r _, ∃ ys, r = chosen ++ ys ∧ ys `prefix_of` xs ∧ (xs ≠ [] → r ≠ []))
    (initial_candidates level target xs chosen n) d.
Proof.
  revert chosen n d. induction xs as [|x xs IH]; intros chosen n d Hd; cbn [initial_candidates].
  { apply ends_ret; [done|]. exists []. by rewrite app_nil_r. }
  case_match eqn:E.
  - apply ends_ret; [done|]. exists []. rewrite app_nil_r. split_and!; [done | apply prefix_nil|].
    intros _ ->. by rewrite len_nil in E.
  - ends_bind (λ (_ : Z) (_ : disk), True); [by apply file_len_reads|]. intros m d1 Hd1 _.
    eapply ends_post; [by apply IH|]. intros r d2 _ (ys & -> & Hys & _). exists (x :: ys).
    rewrite <- (assoc_L (++)). split_and!; [done | by apply prefix_cons|]. intros _. by destruct chosen.
Qed.

Lemma chosen_id_spec chosen id : chosen_id chosen id = true ↔ ∃ x, x ∈ chosen ∧ SSTableMeta.file_id x = id.
Proof.
  unfold chosen_id. rewrite existsb_exists. setoid_rewrite <- list_elem_of_In. setoid_rewrite Z.eqb_eq. naive_solver.
Qed.
Lemma chosen_table chosen x :
  all_tables chosen → table x → chosen_id chosen (SSTableMeta.file_id x) = true ↔ x ∈ chosen.
Proof.
  intros Hch Hx. rewrite chosen_id_spec. split; [|eauto]. intros (y & Hy & Hid).
  rewrite (ti_ids _ _ (ca_tables _ _ Hcat) x y); auto.
Qed.

(** What the closure keeps: distinct tables, covered by the range. *)
Record closing (cands chosen : list SSTableMeta.t) (range : byte_range) : Prop := {
  cl_nodup : NoDup chosen;
  cl_tables : all_tables chosen;
  cl_cands : ∀ x, x ∈ chosen → x ∈ cands;
  cl_range : ∀ x, x ∈ chosen → covering range (range_of x)
}.
(** The fixed point: no other candidate overlaps. *)
Definition closed (cands chosen : list SSTableMeta.t) (range : byte_range) : Prop :=
  ∀ x, x ∈ cands → x ∉ chosen → overlapping range (range_of x) = false.

Lemma closure_pass_reads all cands chosen range d :
  all_tables all → (∀ x, x ∈ cands → x ∈ all) → closing all chosen range → same_disk d0 d →
  reads (λ r _, closing all r.1 r.2 ∧ (∃ ys, r.1 = chosen ++ ys) ∧
                (r.1 = chosen → r.2 = range ∧ closed cands chosen range))
    (closure_pass cands chosen range) d.
Proof.
  intros Hall. revert chosen range d. induction cands as [|c cands IH]; intros chosen range d Hsub Hcl Hd; cbn [closure_pass].
  { apply ends_ret; [done|]. split_and!; [done | exists []; by rewrite app_nil_r |]. intros _. split; [done|].
    by intros x ?%elem_of_nil. }
  assert (table c) as Htc by (apply Hall, Hsub; by left).
  assert (∀ x, x ∈ cands → x ∈ all) as Hsub' by (intros x Hx; apply Hsub; by right).
  destruct (chosen_id chosen (SSTableMeta.file_id c)) eqn:Ec.
  - apply chosen_table in Ec; [|apply (cl_tables _ _ _ Hcl) | done]. eapply ends_post; [by apply IH|].
    intros [ch r] d1 _ (Hcl1 & Hpre & Hfix). split_and!; [done | done|]. intros He. destruct (Hfix He) as [-> Hc].
    split; [done|]. intros x [->|Hx]%elem_of_cons; [done | by apply Hc].
  - assert (c ∉ chosen) as Hnc.
    { intros Hin. rewrite (proj2 (chosen_table chosen c (cl_tables _ _ _ Hcl) Htc)) in Ec; done. }
    ends_bind (λ (r : byte_range) (_ : disk), r = range_of c); [by apply meta_range_reads|]. intros r d1 Hd1 ->.
    destruct (overlapping range (range_of c)) eqn:Eo.
    + destruct (widen_covering range (range_of c)) as [Hw1 Hw2].
      eapply ends_post; [apply IH; [done | | done]|].
      { destruct Hcl as [Hnd Ht Hca Hr]. split.
        - apply NoDup_app. split_and!; [done | set_solver | apply NoDup_singleton].
        - intros x [Hx| ->%list_elem_of_singleton]%elem_of_app; auto.
        - intros x [Hx| ->%list_elem_of_singleton]%elem_of_app; [auto | apply Hsub; by left].
        - intros x [Hx| ->%list_elem_of_singleton]%elem_of_app; [|done]. etrans; [exact Hw1 | auto]. }
      intros [ch r] d2 _ (Hcl1 & (ys & Hys) & _). simpl in *. split_and!; [done | |].
      * exists (c :: ys). by rewrite Hys, <- (assoc_L (++)).
      * intros He. exfalso. rewrite Hys in He. apply (f_equal length) in He. rewrite !length_app in He. simpl in He. lia.
    + eapply ends_post; [by apply IH|]. intros [ch r] d2 _ (Hcl1 & Hpre & Hfix). split_and!; [done | done|].
      intros He. destruct (Hfix He) as [-> Hc]. split; [done|]. intros x [->|Hx]%elem_of_cons; [done | by apply Hc].
Qed.

Lemma closing_length cands chosen range : closing cands chosen range → (length chosen <= length cands)%nat.
Proof. intros [Hnd _ Hc _]. by apply submseteq_length, NoDup_submseteq. Qed.
Lemma closure_loop_reads fuel cands chosen range d :
  all_tables cands → closing cands chosen range → (length cands < fuel + length chosen)%nat → same_disk d0 d →
  reads (λ r _, closing cands r.1 r.2 ∧ closed cands r.1 r.2 ∧ ∃ ys, r.1 = chosen ++ ys)
    (closure_loop fuel cands chosen range) d.
Proof.
  intros Hall. revert chosen range d. induction fuel as [|fuel IH]; intros chosen range d Hcl Hfuel Hd; cbn [closure_loop].
  { pose proof (closing_length _ _ _ Hcl). lia. }
  eapply ends_bind; [apply (closure_pass_reads cands); [done | done | exact Hcl | done]|].
  intros [ch r] d1 Hd1 (Hcl1 & (ys & Hys) & Hfix). simpl in *. case_match eqn:El.
  - assert (ch = chosen) as ->.
    { apply Z.eqb_eq in El. subst ch. destruct ys as [|y ys]; [by rewrite app_nil_r|].
      rewrite len_app, len_cons in El. pose proof (len_nonneg ys). lia. }
    destruct (Hfix eq_refl) as [-> Hc]. apply ends_ret; [done|]. split_and!; [done | done | eauto].
  - eapply ends_post; [apply IH; [done | | done]|].
    + assert (length chosen < length ch)%nat; [|lia]. subst ch. rewrite length_app.
      destruct ys; [rewrite app_nil_r, Z.eqb_refl in El; done | simpl; lia].
    + intros [ch' r'] d2 _ (Hcl2 & Hc2 & (zs & Hzs)). simpl in *. split_and!; [done | done|].
      exists (ys ++ zs). by rewrite Hzs, Hys, <- (assoc_L (++)).
Qed.

Lemma select_reads level config current next d :
  all_tables (current ++ next) → NoDup current → same_disk d0 d →
  reads (λ inputs _, ∃ range, closing (current ++ next) inputs range ∧ closed (current ++ next) inputs range ∧
                              inputs ≠ [])
    (select_inputs level config current next) d.
Proof.
  intros Hall Hnd Hd. unfold select_inputs. eapply ends_bind; [by apply initial_reads|].
  intros initial d1 Hd1 (ys & -> & Hpre & _). cbn [app].
  assert (∀ x, x ∈ ys → x ∈ current) as Hsub.
  { destruct Hpre as [zs ->]. set_solver. }
  eapply ends_bind; [apply level_range_reads; [|done]|].
  { intros x Hx. apply Hall, elem_of_app. left. auto. }
  intros o d2 Hd2 [Hemp Hcov]. ends_bind (λ (r : byte_range) (_ : disk), o = Some r).
  { apply ends_pure; [done | by destruct o|]. by intros a; destruct o; intros [= ->]. }
  intros range d3 Hd3 ->.
  assert (closing (current ++ next) ys range) as Hcl.
  { split.
    - destruct Hpre as [zs ->]. by apply NoDup_app in Hnd as [? _].
    - intros x Hx. apply Hall, elem_of_app. left. auto.
    - intros x Hx. apply elem_of_app. left. auto.
    - by apply Hcov. }
  eapply ends_bind; [apply closure_loop_reads; [done | exact Hcl | rewrite length_app; lia | done]|].
  intros [inputs r] d4 Hd4 (Hcl1 & Hc1 & (zs & Hzs)). simpl in *. apply ends_ret; [done|]. exists r.
  split_and!; [done | done|]. rewrite Hzs. intros [-> ->]%app_nil. by specialize (Hemp eq_refl).
Qed.

(** ** Reading the inputs *)

Lemma open_path_reads x d :
  table x → same_disk d0 d → reads (λ bs _, table_file bs (recs_of x)) (open_path (SSTableMeta.path x)) d.
Proof.
  intros Hx Hd. destruct (table_open x Hx) as (bs & Hbs & Ht & _). unfold ends, open_path.
  by rewrite (proj2 Hd), Hbs.
Qed.
Definition codec_records (cs : list SSTableCodec.t) : list MemtableRecord.t :=
  cs ≫= (λ c, blocks_records (SSTableCodec.blocks c)).
Lemma read_tables_reads xs d :
  all_tables xs → same_disk d0 d → reads (λ cs _, codec_records cs = xs ≫= recs_of) (read_tables xs) d.
Proof.
  revert d. induction xs as [|x xs IH]; intros d Hxs Hd; cbn [read_tables]; [by apply ends_ret|].
  ends_bind (λ (_ : unit) (_ : disk), True); [by apply check_cancel_reads|]. intros _ d1 Hd1 _.
  eapply ends_bind; [apply open_path_reads; [apply Hxs; by left | done]|]. intros bs d2 Hd2 (c & -> & (Hc & _) & Hr & _).
  destruct (deserialize_serialize c Hc) as (bloom & Hds & _).
  ends_bind (λ (a : SSTableFooter.t * list SparseIndexEntry.t * BloomFilterWrapper.t) (_ : disk),
    a = (footer_of c, table_index c, bloom)).
  { rewrite Hds. apply ends_pure; [done | done|]. by intros a [= <-]. }
  intros [[footer index] b] d3 Hd3 [= -> -> ->].
  ends_bind (λ (a : list Block.t) (_ : disk), a = at_offset 0 <$> SSTableCodec.blocks c).
  { rewrite (get_all_blocks_serialized c Hc). apply ends_pure; [done | done|]. by intros a [= <-]. }
  intros blocks d4 Hd4 ->.
  eapply ends_bind; [apply IH; [intros y Hy; apply Hxs; by right | done]|]. intros rest d5 Hd5 Hrest.
  apply ends_ret; [done|]. unfold codec_records in *. rewrite !bind_cons, Hrest. f_equal. simpl.
  rewrite at_offset_records. exact Hr.
Qed.
Lemma protected_reads xs inputs d :
  all_tables xs → all_tables inputs → same_disk d0 d →
  reads (λ rs _, ∀ x, x ∈ xs → x ∉ inputs → range_of x ∈ rs) (protected_ranges xs inputs) d.
Proof.
  intros Hxs Hin. revert d. induction xs as [|x xs IH]; intros d Hd; cbn [protected_ranges].
  { apply ends_ret; [done|]. by intros x ?%elem_of_nil. }
  assert (table x) as Hx by (apply Hxs; by left).
  assert (all_tables xs) as Hxs' by (intros y Hy; apply Hxs; by right).
  destruct (chosen_id inputs (SSTableMeta.file_id x)) eqn:Ec.
  - apply chosen_table in Ec; [|done|done]. eapply ends_post; [by apply IH|].
    intros rs d1 _ Hrs y [->|Hy]%elem_of_cons Hn; [done | by apply Hrs].
  - eapply ends_bind; [by apply meta_range_reads|]. intros r d1 Hd1 ->.
    eapply ends_bind; [by apply IH|]. intros rs d2 Hd2 Hrs. apply ends_ret; [done|].
    intros y [->|Hy]%elem_of_cons Hn; [by left | right; by apply Hrs].
Qed.
End reading.

(** ** Merging *)

Section merging.
Implicit Types (r : MemtableRecord.t) (rs : list MemtableRecord.t).

Definition merged_newest (merged : ordmap bytes MemtableRecord.t) rs : Prop :=
  om_wf merged ∧ ∀ k, om_get k merged = newest k rs.

Lemma choose_winner_newer k b r :
  MemtableRecord.key r = k → (MemtableRecord.lsn b = MemtableRecord.lsn r → b = r) →
  Some (choose_winner b r) = newer k (Some b) r.
Proof.
  intros Hk Hu. unfold choose_winner, newer. rewrite bool_decide_true by done.
  destruct (Z.ltb_spec (MemtableRecord.lsn b) (MemtableRecord.lsn r)); [done|].
  destruct (Z.ltb_spec (MemtableRecord.lsn r) (MemtableRecord.lsn b)); [done|].
  rewrite <- (Hu ltac:(lia)). by destruct (MemtableRecord.record_type b).
Qed.
Lemma merge_winner_step merged rs r :
  merged_newest merged rs → lsn_unique (rs ++ [r]) → merged_newest (merge_winner merged r) (rs ++ [r]).
Proof.
  intros [Hw Hm] Hu. split; [by apply om_insert_wf|]. intros k. rewrite newest_snoc. unfold merge_winner.
  destruct (decide (k = MemtableRecord.key r)) as [->|Hne].
  - rewrite om_get_insert_eq, Hm. pose proof (newest_spec (MemtableRecord.key r) rs) as Hs.
    destruct (newest (MemtableRecord.key r) rs) as [b|].
    + apply choose_winner_newer; [done|]. destruct Hs as (Hb & Hk & _). intros Hl. apply Hu; [set_solver..|done|done].
    + unfold newer. by rewrite bool_decide_true.
  - rewrite om_get_insert_ne, Hm by done. unfold newer. by rewrite bool_decide_false.
Qed.
Lemma merge_fold rs acc merged :
  merged_newest merged acc → lsn_unique (acc ++ rs) → merged_newest (foldl merge_winner merged rs) (acc ++ rs).
Proof.
  revert acc merged. induction rs as [|r rs IH]; intros acc merged Hm Hu; simpl; [by rewrite app_nil_r|].
  rewrite (cons_middle r acc), (assoc_L (++)) in Hu |- *. apply IH; [|done]. apply merge_winner_step; [done|].
  eapply lsn_unique_subset; [|exact Hu]. set_solver.
Qed.
Lemma merge_all_newest rs : lsn_unique rs → merged_newest (foldl merge_winner [] rs) rs.
Proof. intros Hu. apply (merge_fold rs [] []); [split; [apply om_wf_nil | done] | done]. Qed.

(** The winners: sorted, one per key, the newest. *)
Definition winners rs : list MemtableRecord.t := snd <$> (foldl merge_winner [] rs : list _).
Lemma elem_of_winners rs r : lsn_unique rs → r ∈ winners rs ↔ newest (MemtableRecord.key r) rs = Some r.
Proof.
  intros Hu. destruct (merge_all_newest rs Hu) as [Hw Hm]. unfold winners. rewrite list_elem_of_fmap. split.
  - intros ([k x] & -> & He). simpl. apply om_get_Some in He; [|done]. rewrite Hm in He.
    pose proof (newest_spec k rs) as Hs. rewrite He in Hs. destruct Hs as (_ & Hk & _). by rewrite Hk.
  - intros Hn. exists (MemtableRecord.key r, r). split; [done|]. apply om_get_Some; [done|]. by rewrite Hm.
Qed.
Lemma winners_sorted rs : lsn_unique rs → keys_sorted (winners rs).
Proof.
  intros Hu. destruct (merge_all_newest rs Hu) as [Hw Hm]. unfold winners, keys_sorted.
  assert (∀ e, e ∈ (foldl merge_winner [] rs : list (bytes * MemtableRecord.t)) → MemtableRecord.key e.2 = e.1) as Hk.
  { intros [k x] He. apply om_get_Some in He; [|done]. rewrite Hm in He.
    pose proof (newest_spec k rs) as Hs. rewrite He in Hs. by destruct Hs as (_ & ? & _). }
  unfold om_wf in Hw. clear Hm Hu. revert Hk. induction Hw as [|e es Hes IH Hf]; intros Hk; [constructor|].
  rewrite fmap_cons. constructor; [apply IH; intros e' He'; apply Hk; by right|].
  rewrite Forall_forall in Hf. apply Forall_forall. intros r (e' & -> & He')%list_elem_of_fmap.
  rewrite !Hk by set_solver. by apply Hf.
Qed.

(** ** Reclaiming tombstones *)

Definition surviving (ranges : list byte_range) rs : list MemtableRecord.t :=
  List.filter (λ w, negb (reclaimed (Some ranges) w)) (winners rs).
Lemma elem_of_surviving ranges rs r :
  lsn_unique rs → r ∈ surviving ranges rs ↔
  newest (MemtableRecord.key r) rs = Some r ∧ reclaimed (Some ranges) r = false.
Proof.
  intros Hu. unfold surviving. rewrite list_elem_of_In, filter_In, <- list_elem_of_In, negb_true_iff.
  by rewrite elem_of_winners.
Qed.
Lemma sorted_filter (f : MemtableRecord.t → bool) rs : keys_sorted rs → keys_sorted (List.filter f rs).
Proof.
  unfold keys_sorted. induction 1 as [|r rs Hs IH Hf]; simpl; [constructor|]. destruct (f r); [|done].
  constructor; [done|]. rewrite Forall_forall in Hf. apply Forall_forall. intros x.
  rewrite list_elem_of_In, filter_In, <- list_elem_of_In. intros [Hx _]. auto.
Qed.
Lemma surviving_sorted ranges rs : lsn_unique rs → keys_sorted (surviving ranges rs).
Proof. intros Hu. by apply sorted_filter, winners_sorted. Qed.
Lemma surviving_subset ranges rs : lsn_unique rs → surviving ranges rs ⊆ rs.
Proof.
  intros Hu r [Hn _]%elem_of_surviving; [|done]. pose proof (newest_spec (MemtableRecord.key r) rs) as Hs.
  rewrite Hn in Hs. by destruct Hs.
Qed.
Lemma newest_surviving k ranges rs :
  lsn_unique rs →
  newest k (surviving ranges rs) =
  match newest k rs with
  | Some w => if reclaimed (Some ranges) w then None else Some w
  | None => None
  end.
Proof.
  intros Hu. pose proof (newest_spec k rs) as Hs.
  assert (∀ r, r ∈ surviving ranges rs → MemtableRecord.key r = k →
    newest k rs = Some r ∧ reclaimed (Some ranges) r = false) as Hin.
  { intros r [Hn Hr]%elem_of_surviving <-; [|done]. by split. }
  destruct (newest k rs) as [w|]; [destruct (reclaimed (Some ranges) w) eqn:Er|].
  - apply newest_None. intros r Hr Hk. destruct (Hin r Hr Hk) as [[= <-] ?]. congruence.
  - apply newest_Some; [by apply keys_sorted_unique, surviving_sorted|]. destruct Hs as (Hw & Hk & Hmax).
    split_and!; [|done|].
    + apply elem_of_surviving; [done|]. split; [|done]. rewrite Hk. apply newest_Some; [done|]. by split_and!.
    + intros r Hr Hkr. destruct (Hin r Hr Hkr) as [[= <-] _]. lia.
  - apply newest_None. intros r Hr Hk. by destruct (Hin r Hr Hk).
Qed.

(** Replacing the inputs by the surviving winners shows the same values, when
    every other record lies in a protected range. *)
Definition protects (ranges : list byte_range) (rest : list MemtableRecord.t) : Prop :=
  ∀ r, r ∈ rest → ∃ range, range ∈ ranges ∧ kle range.1 (MemtableRecord.key r) ∧ kle (MemtableRecord.key r) range.2.
Lemma surviving_view ranges ins rest k :
  lsn_unique ins → protects ranges rest →
  visible (newest k (surviving ranges ins ++ rest)) = visible (newest k (ins ++ rest)).
Proof.
  intros Hu Hp. rewrite !newest_app, newest_surviving by done. pose proof (newest_spec k ins) as Hs.
  destruct (newest k ins) as [w|]; [|done]. destruct (reclaimed (Some ranges) w) eqn:Er; [|done].
  destruct Hs as (_ & <- & _). unfold reclaimed in Er. apply andb_true_iff in Er as [Hd Hn%negb_true_iff].
  rewrite (proj2 (newest_None (MemtableRecord.key w) rest)).
  - simpl. unfold visible. by destruct (MemtableRecord.record_type w).
  - intros r Hr Hk. destruct (Hp r Hr) as (range & Hin & Hlo & Hhi). rewrite Hk in *.
    apply eq_true_false_abs in Hn; [done|]. apply existsb_exists. exists range. split; [by apply list_elem_of_In|].
    change (kleb range.1 (MemtableRecord.key w) && kleb (MemtableRecord.key w) range.2 = true).
    by rewrite andb_true_iff, !kleb_le.
Qed.
End merging.

(** ** Building the outputs *)

Lemma utf8_parent p : utf8_valid p = true → utf8_valid (parent p) = true.
Proof.
  assert (parent p = [] ∨ ∃ name, p = parent p ++ x2f :: name) as [->|[name Hn]]; [|done|].
  - unfold parent. assert (∀ q, drop_name q = [] ∨ ∃ name, q = name ++ x2f :: drop_name q) as Hd.
    { induction q as [|b q IH]; [by left|]. cbn [drop_name]. case_bool_decide as Hb.
      - right. exists []. by subst.
      - destruct IH as [IH|[name IH]]; [by left|]. right. exists (b :: name). simpl. by rewrite <- IH. }
    destruct (Hd (rev p)) as [->|[name Hn]]; [by left|]. right. exists (rev name).
    apply (f_equal (@rev byte)) in Hn. rewrite rev_involutive in Hn. rewrite Hn at 1.
    rewrite rev_app_distr. simpl. by rewrite <- (assoc_L (++)).
  - intros Hp. rewrite Hn in Hp. by apply utf8_prefix in Hp.
Qed.

Lemma partition_concat target rs acc size :
  concat (partition_records target rs acc size) = acc ++ rs ∧
  Forall (λ xs, xs ≠ []) (partition_records target rs acc size).
Proof.
  revert acc size. induction rs as [|r rs IH]; intros acc size; cbn [partition_records].
  { destruct acc as [|a acc]; simpl; [done|]. rewrite !app_nil_r. by repeat constructor. }
  case_match eqn:E.
  - destruct (IH [r] (saturating_add 0 (MemtableRecord.record_length r (MemtableRecord.key r)))) as [IH1 IH2].
    split; [simpl; by rewrite IH1|]. constructor; [|done]. intros ->. by rewrite len_nil in E.
  - destruct (IH (acc ++ [r]) (saturating_add size (MemtableRecord.record_length r (MemtableRecord.key r)))) as [IH1 IH2].
    split; [by rewrite IH1, <- (assoc_L (++)) | done].
Qed.
Lemma keys_sorted_sub xs ys zs : keys_sorted (xs ++ ys ++ zs) → keys_sorted ys.
Proof. intros (_ & (Hs & _)%keys_sorted_app & _)%keys_sorted_app. done. Qed.

Section building.
Context `{Crc32Spec, FastBloomSpec, Hshape : !FastBloomShape}.
Implicit Types (rs : list MemtableRecord.t) (config : StorageConfig.t).

Lemma pack_table_ok bloom rs :
  Forall recordable rs → keys_sorted rs → packed_bound rs <= isize_max →
  ∃ blocks, pack_table bloom rs = Ok (SSTableCodec.mk blocks [] (insert_all bloom (MemtableRecord.key <$> rs))) ∧
    packed rs blocks.
Proof.
  intros Hr Hs Hb. destruct (pack_builds ((λ r, (MemtableRecord.key r, r)) <$> rs) rs Hr Hs Hb) as (blocks & Hp & Hpk).
  - rewrite <- list_fmap_compose. rewrite <- (list_fmap_id rs) at 2. apply list_fmap_ext. by intros i [].
  - exists blocks. split; [|done]. unfold pack_table. by rewrite Hp.
Qed.
Lemma build_output_ok config rs :
  builds (len rs) (StorageConfig.bloom_false_positive_rate config) rs →
  ∃ c, build_output rs config = Ok c ∧ packed rs (SSTableCodec.blocks c) ∧ table_wf c ∧
    table_file (SSTableCodec.serialize c).1 rs.
Proof.
  intros (Hr & Hs & Hne & Hf). destruct (pack_table_ok (BloomFilterWrapper.with_rate (len rs)
    (StorageConfig.bloom_false_positive_rate config)) rs Hr Hs (fits_packed _ _ Hf)) as (blocks & Hp & Hpk).
  eexists. split; [exact Hp|]. split; [done|].
  apply packed_table; [done | done | done | exact Hf | apply bloom_for_wf | apply bloom_for_shape |].
  { destruct rs; [done|]. rewrite len_cons. pose proof (len_nonneg rs). lia. }
  intros r Hin. by apply (bloom_for_contains _ _ rs).
Qed.

(** Every table that can be built of records of [U] fits. *)
Definition roomy rate (U : MemtableRecord.t → Prop) : Prop :=
  ∀ n rs, (∀ r, r ∈ rs → U r) → keys_sorted rs → len rs <= n <= len rs + 10 → table_fits (bloom_for n rate rs) rs.

(** A codec ready to be written as the table of [xs]. *)
Definition output_of (c : SSTableCodec.t) (xs : list MemtableRecord.t) : Prop :=
  packed xs (SSTableCodec.blocks c) ∧ table_wf c ∧ table_file (SSTableCodec.serialize c).1 xs ∧
  xs ≠ [] ∧ packed_bound xs <= isize_max.

Lemma partition_output_ok config merged rs U :
  roomy (StorageConfig.bloom_false_positive_rate config) U → (∀ r, r ∈ rs → U r) →
  blocks_records (SSTableCodec.blocks merged) = rs → Forall recordable rs → keys_sorted rs →
  ∃ tables rss, partition_output merged config = Ok tables ∧ concat rss = rs ∧ Forall (λ xs, xs ≠ []) rss ∧
    Forall2 output_of tables rss.
Proof.
  intros Hroom HU Hm Hr Hs. unfold partition_output. rewrite Hm.
  destruct (partition_concat (StorageConfig.target_sstable_bytes config) rs [] 0) as [Hc Hne].
  revert Hc Hne. generalize (partition_records (StorageConfig.target_sstable_bytes config) rs [] 0) as rss. simpl.
  intros rss Hc Hne.
  assert (∀ xs, xs ∈ rss → builds (len xs) (StorageConfig.bloom_false_positive_rate config) xs) as Hb.
  { intros xs Hxs. pose proof Hxs as Hxs'. apply list_elem_of_split in Hxs' as (l1 & l2 & ->).
    rewrite concat_app in Hc. simpl in Hc. clear Hm. subst rs.
    assert (∀ r, r ∈ xs → r ∈ concat l1 ++ xs ++ concat l2) as Hin by set_solver.
    split_and!.
    - rewrite Forall_forall in Hr. apply Forall_forall. intros r Hin'. by apply Hr, Hin.
    - by eapply keys_sorted_sub.
    - rewrite Forall_forall in Hne. by apply Hne.
    - apply Hroom; [intros r Hin'; by apply HU, Hin | by eapply keys_sorted_sub | lia]. }
  assert (∃ tables, Wal.map_res (λ rs, build_output rs config) rss = Ok tables ∧
    Forall2 output_of tables rss)
    as (tables & Ht & Hf).
  { clear -Hb Hshape. induction rss as [|xs rss IH]; [exists []; by split|]. cbn [Wal.map_res].
    pose proof (Hb xs (list_elem_of_here _ _)) as Hbx. destruct (build_output_ok config xs Hbx) as (c & -> & Hp & Hc & Ht).
    destruct IH as (tables & -> & Hf); [intros ys Hys; apply Hb; by right|].
    exists (c :: tables). split; [done|]. constructor; [|done]. destruct Hbx as (_ & _ & Hne & Hf2).
    split_and!; [done..|]. by eapply fits_packed. }
  exists tables, rss. by split_and!.
Qed.

(** ** Writing the outputs *)

(** New files and file ids, the same tables. *)
Definition grows d d' : Prop :=
  same_tables (d_manifest d) (d_manifest d') ∧ catalogue (d_manifest d') (d_files d') ∧
  ∀ p bs, om_get p (d_files d) = Some bs → om_get p (d_files d') = Some bs.
Lemma grows_trans d1 d2 d3 : grows d1 d2 → grows d2 d3 → grows d1 d3.
Proof. intros (Ht & _ & Hf) (Ht' & Hc & Hf'). split_and!; [by etrans | done | auto]. Qed.

Record written (level : Z) d d' (o : SSTableMeta.t) (xs : list MemtableRecord.t) : Prop := {
  wr_absent : om_get (SSTableMeta.path o) (d_files d) = None;
  wr_file : ∃ bs, om_get (SSTableMeta.path o) (d_files d') = Some bs ∧ table_file bs xs;
  wr_smallest : SSTableMeta.smallest_key o = first_of xs;
  wr_largest : SSTableMeta.largest_key o = last_of xs;
  wr_count : SSTableMeta.record_count o = len xs;
  wr_typed : meta_typed o;
  wr_level : SSTableMeta.level o = level;
  wr_id_ok : id_ok o;
  wr_id : next_id (d_manifest d) <= SSTableMeta.file_id o < next_id (d_manifest d')
}.

Lemma create_output_spec fuel source level fault d :
  catalogue (d_manifest d) (d_files d) →
  (∃ i, (i < fuel)%nat ∧
    om_get (build_compaction_output_path source level (next_id (d_manifest d) + Z.of_nat i)) (d_files d) = None) →
  match create_output_file fuel source level fault d with
  | (Ok (id, p), d') => ∃ m', d' = mkDisk m' (om_insert p [] (d_files d)) (d_checks d) ∧
      catalogue m' (d_files d) ∧ same_tables (d_manifest d) m' ∧ om_get p (d_files d) = None ∧
      p = build_compaction_output_path source level id ∧
      next_id (d_manifest d) <= id < next_id m' ∧ next_id m' <= u64_max
  | (Err _, d') => ∃ m', d' = mkDisk m' (d_files d) (d_checks d) ∧ catalogue m' (d_files d) ∧ same_tables (d_manifest d) m'
  | (Panic, _) => False
  end.
Proof.
  revert d. induction fuel as [|fuel IH]; intros d Hc (i & Hi & Hfree); [lia|].
  cbn [create_output_file]. unfold mbind, eff_bind, on_d_manifest.
  destruct (ManifestManager.allocate_file_id (d_manifest d)) as [r m1] eqn:Ea.
  destruct (catalogue_allocate _ _ _ _ Hc Ea) as (Hc1 & Hs1 & Hr). destruct r as [id|e|]; [|by exists m1|done].
  destruct Hr as (-> & Hn1 & Hmax). destruct fault as [k|]; [by exists m1|]. simpl.
  destruct (om_get (build_compaction_output_path source level (next_id (d_manifest d))) (d_files d)) as [bs|] eqn:Eg.
  - destruct i as [|i]; [rewrite Z.add_0_r in Hfree; congruence|].
    set (d1 := mkDisk m1 (d_files d) (d_checks d)).
    assert (∃ i, (i < fuel)%nat ∧ om_get (build_compaction_output_path source level
      (next_id (d_manifest d1) + Z.of_nat i)) (d_files d1) = None) as Hex.
    { exists i. split; [lia|]. simpl. rewrite Hn1, <- Hfree. do 2 f_equal. lia. }
    specialize (IH d1 Hc1 Hex). destruct (create_output_file fuel source level None d1) as [[[id p]|e|] d'].
    + destruct IH as (m' & -> & Hc' & Hs' & Hp & Hpath & Hid & Hm). exists m'. simpl in *.
      split_and!; try done; [by etrans | lia | lia].
    + destruct IH as (m' & -> & Hc' & Hs'). exists m'. split_and!; [done | done | by etrans].
    + done.
  - exists m1. split_and!; try done; word_lia.
Qed.

Lemma blocks_count bs :
  Forall block_wf bs → foldr (λ b n, Block.record_count b + n) 0 bs = len (blocks_records bs).
Proof.
  induction 1 as [|b bs Hb Hbs IH]; [done|]. cbn [foldr]. rewrite IH, (bwf_count b Hb).
  change (blocks_records (b :: bs)) with (block_records b ++ blocks_records bs). by rewrite len_app.
Qed.
Lemma blocks_range bs :
  Forall block_wf bs → bs ≠ [] → range_from_blocks bs = Some (first_of (blocks_records bs), last_of (blocks_records bs)).
Proof.
  intros Hw Hne. unfold range_from_blocks. destruct bs as [|b' l] using rev_ind; [done|]. clear IHl.
  apply Forall_app in Hw as [Hl [Hb' _]%Forall_cons_1]. rewrite last_snoc, <- (blocks_last l b' Hb').
  destruct l as [|b l]; simpl; [by rewrite (blocks_first b' [] Hb')|].
  apply Forall_cons_1 in Hl as [Hb _]. by rewrite (blocks_first b (l ++ [b']) Hb).
Qed.

Lemma output_typed c xs file_id level path :
  output_of c xs → is_u64 file_id → is_u32 level → utf8_valid path = true →
  meta_typed (SSTableMeta.mk file_id level path (len xs) (first_of xs) (last_of xs)
    (SSTableFooter.bloom_block_start (footer_of c))
    (SSTableFooter.bloom_block_end (footer_of c) - SSTableFooter.bloom_block_start (footer_of c))).
Proof.
  intros (_ & Hc & _ & _ & Hb) Hid Hlv Hp. pose proof (footer_of_ok c Hc) as (_ & _ & _ & _ & _ & Hs & He & _).
  pose proof (packed_bound_size xs). pose proof (records_size_len xs). pose proof (len_nonneg xs).
  pose proof (len_nonneg (BloomFilterWrapper.encode (SSTableCodec.bloom c))) as Hbl.
  unfold meta_typed. simpl in *. split_and!; try done; word_lia.
Qed.

Lemma write_output_ends source level c xs fault d :
  catalogue (d_manifest d) (d_files d) → output_of c xs → utf8_valid source = true → is_u32 level →
  ends (grows d) (λ o d', written level d d' o xs)
    (write_compaction_output source level c fault) d.
Proof.
  intros Hcat Hout Hu Hlv. unfold write_compaction_output, ends. unfold mbind, eff_bind.
  set (cf := match fault with Some (inl k) => Some k | _ => None end).
  assert (∃ i, (i < S (length (d_files d)))%nat ∧ om_get (build_compaction_output_path source level
    (next_id (d_manifest d) + Z.of_nat i)) (d_files d) = None) as Hfree.
  { apply free_name; [apply (ca_next _ _ Hcat)|]. intros a b. apply table_path_inj. }
  pose proof (create_output_spec _ source level cf d Hcat Hfree) as Hcr.
  destruct (create_output_file _ source level cf d) as [[[id p]|e|] d1]; [| |done].
  2:{ destruct Hcr as (m' & -> & Hc' & Hs'). by split_and!. }
  destruct Hcr as (m' & -> & Hc' & Hs' & Habs & Hp & Hid & Hmax).
  pose proof (absent_unused _ _ _ Hc' Habs) as Hun.
  assert (∀ bs, grows d (mkDisk m' (om_insert p bs (d_files d)) (d_checks d))) as Hgr.
  { intros bs. split_and!; [done | by apply catalogue_write|]. simpl. intros q b Hq. rewrite om_get_insert_ne; [done|congruence]. }
  assert (∀ bs bs', om_insert p bs' (om_insert p bs (d_files d)) = om_insert p bs' (d_files d)) as Hins.
  { intros bs bs'. apply om_ext; [by repeat apply om_insert_wf; apply (ca_files _ _ Hcat)|
      apply om_insert_wf, (ca_files _ _ Hcat)|].
    intros q. destruct (decide (q = p)) as [->|]; [by rewrite !om_get_insert_eq | by rewrite !om_get_insert_ne]. }
  pose proof Hout as (Hpk & Hwf & Htf & Hne & Hb). destruct (SSTableCodec.serialize c) as [encoded footer] eqn:Es.
  assert (footer = footer_of c) as -> by (rewrite serialize_layout in Es; by injection Es as _ <-).
  unfold write_output_file, set_d_files. simpl.
  destruct fault as [[k|[k n]]|]; simpl; rewrite ?Hins; [|apply Hgr|].
  all: rewrite (blocks_range _ (pk_wf _ _ Hpk) (packed_not_nil _ _ Hpk Hne)), (pk_records _ _ Hpk); simpl.
  all: rewrite (blocks_count _ (pk_wf _ _ Hpk)), (pk_records _ _ Hpk).
  all: split; [apply Hgr|]; simpl in Htf.
  all: split; simpl; try done; [exists encoded; by rewrite om_get_insert_eq | | unfold id_ok; simpl; lia].
  all: apply (output_typed c xs id level p); [done | pose proof (ca_next _ _ Hcat); word_lia | done|].
  all: rewrite Hp; by apply utf8_table_path, utf8_level_dir, utf8_parent, utf8_parent.
Qed.

Lemma same_disk_grows d d' : catalogue (d_manifest d) (d_files d) → same_disk d d' → grows d d'.
Proof. intros Hc [Hm Hf]. unfold grows. rewrite Hm, Hf. by split_and!. Qed.
Lemma written_grows level d d1 d2 d3 o xs :
  grows d d1 → written level d1 d2 o xs → grows d2 d3 → written level d d3 o xs.
Proof.
  intros ((_ & _ & Hn) & _ & Hf) [Ha (bs & Hbs & Ht) Hs Hl Hc Hty Hlv Hok Hid] ((_ & _ & Hn') & _ & Hf').
  split; try done; [|eauto|lia].
  destruct (om_get (SSTableMeta.path o) (d_files d)) eqn:E; [|done]. apply Hf in E. congruence.
Qed.
Lemma write_outputs_ends source level i tables rss fault d :
  catalogue (d_manifest d) (d_files d) → Forall2 output_of tables rss → utf8_valid source = true → is_u32 level →
  ends (grows d) (λ outs d', Forall2 (written level d d') outs rss ∧
      NoDup (SSTableMeta.file_id <$> outs) ∧ NoDup (SSTableMeta.path <$> outs))
    (write_outputs source level i tables fault) d.
Proof.
  intros Hcat Hout Hu Hlv. revert i d Hcat. induction Hout as [|c xs tables rss Hc Hout IH]; intros i d Hcat; cbn [write_outputs].
  { apply ends_ret; [by split_and!|]. simpl. split_and!; [constructor | apply NoDup_nil_2 | apply NoDup_nil_2]. }
  ends_bind (λ (_ : unit) (_ : disk), True).
  { eapply ends_weaken; [by apply (check_cancel_reads d) | intros; by apply same_disk_grows | done]. }
  intros _ d1 Hg1 _. ends_bind (λ o d2, grows d1 d2 ∧ written level d1 d2 o xs).
  { pose proof (write_output_ends source level c xs (match fault with Some (j, f) => if bool_decide (i = j) then Some f else None | None => None end)
      d1 (proj1 (proj2 Hg1)) Hc Hu Hlv) as He. unfold ends in *.
    destruct (write_compaction_output _ _ _ _ d1) as [[o|e|] d2]; [| by eapply grows_trans | done].
    destruct He as [Hg2 Hw]. split; [by eapply grows_trans | done]. }
  intros o d2 _ [Hg2 Hw]. ends_bind (λ outs d3, grows d2 d3 ∧ Forall2 (written level d2 d3) outs rss ∧
    NoDup (SSTableMeta.file_id <$> outs) ∧ NoDup (SSTableMeta.path <$> outs)).
  { pose proof (IH (S i) d2 (proj1 (proj2 Hg2))) as He. unfold ends in *.
    destruct (write_outputs _ _ _ tables _ d2) as [[outs|e|] d3]; [|do 2 (eapply grows_trans; [done|]); done | done].
    destruct He as [Hg3 Ho]. split; [do 2 (eapply grows_trans; [done|]); done | done]. }
  intros outs d3 Hg (Hg3 & Ho & Hi & Hp). apply ends_ret; [done|].
  assert (∀ o', o' ∈ outs → SSTableMeta.file_id o < SSTableMeta.file_id o' ∧ SSTableMeta.path o' ≠ SSTableMeta.path o) as Hnew.
  { intros o' Ho'. apply list_elem_of_lookup_1 in Ho' as [j Hj]. destruct (Forall2_lookup_l _ _ _ _ _ Ho Hj) as (ys & _ & Hw').
    destruct (wr_id _ _ _ _ _ Hw) as [_ Hlt], (wr_id _ _ _ _ _ Hw') as [Hle _]. split; [lia|].
    pose proof (wr_absent _ _ _ _ _ Hw') as Ha. destruct (wr_file _ _ _ _ _ Hw) as (bs & Hbs & _). congruence. }
  split_and!.
  - constructor; [eapply written_grows; [exact Hg1 | exact Hw | exact Hg3]|].
    eapply Forall2_impl; [exact Ho|]. intros o' ys Hw'. eapply written_grows; [|exact Hw'|].
    + exact (grows_trans _ _ _ Hg1 Hg2).
    + split_and!; [done | apply Hg | done].
  - rewrite fmap_cons. apply NoDup_cons. split; [|done]. intros (o' & He & Ho')%list_elem_of_fmap.
    destruct (Hnew o' Ho') as [Hlt _]. lia.
  - rewrite fmap_cons. apply NoDup_cons. split; [|done]. intros (o' & He & Ho')%list_elem_of_fmap.
    by destruct (Hnew o' Ho') as [_ Hne].
Qed.
End building.

(** ** The outputs take the place of the inputs *)

Lemma elem_of_concat {A} (a : A) (ls : list (list A)) : a ∈ concat ls ↔ ∃ l, l ∈ ls ∧ a ∈ l.
Proof. rewrite list_elem_of_In, in_concat. by setoid_rewrite list_elem_of_In. Qed.

Section replacing.
Context `{Crc32Spec, FastBloomSpec}.
Variables (d0 d : disk) (level : Z) (cands inputs : list SSTableMeta.t) (range : byte_range) (ranges : list byte_range)
  (outs : list SSTableMeta.t) (rss : list (list MemtableRecord.t)).
Abbreviation table := (listed (lvls (d_manifest d0))).
Abbreviation recs_of := (records_at (d_files d0)).
Abbreviation ins := (inputs ≫= recs_of).
Hypothesis Hcat : catalogue (d_manifest d0) (d_files d0).
Hypothesis Hcands : ∀ x, x ∈ cands ↔ table x ∧ (SSTableMeta.level x = level ∨ SSTableMeta.level x = level + 1).
Hypothesis Hcl : closing d0 cands inputs range.
Hypothesis Hclosed : closed cands inputs range.
Hypothesis Hrss : concat rss = surviving ranges ins.
Hypothesis Hgrows : grows d0 d.
Hypothesis Hwritten : Forall2 (written (level + 1) d0 d) outs rss.
Hypothesis Hids : NoDup (SSTableMeta.file_id <$> outs).
Hypothesis Hpaths : NoDup (SSTableMeta.path <$> outs).

Lemma ins_unique : lsn_unique ins.
Proof.
  intros r1 r2 (x & Hr1 & Hx)%list_elem_of_bind (y & Hr2 & Hy)%list_elem_of_bind.
  apply (ti_unique _ _ (ca_tables _ _ Hcat)); [exists x | exists y]; (split; [by apply (cl_tables _ _ _ _ Hcl)|done]).
Qed.
Lemma out_at o :
  o ∈ outs → ∃ i xs, outs !! i = Some o ∧ rss !! i = Some xs ∧ records_at (d_files d) o = xs.
Proof.
  intros [i Hi]%list_elem_of_lookup_1. destruct (Forall2_lookup_l _ _ _ _ _ Hwritten Hi) as (xs & Hxs & Hw).
  exists i, xs. split_and!; [done | done|]. destruct (wr_file _ _ _ _ _ Hw) as (bs & Hbs & Htf).
  unfold records_at. rewrite Hbs. simpl. by apply table_file_records.
Qed.
Lemma out_records o :
  o ∈ outs → ∃ xs, xs ∈ rss ∧ written (level + 1) d0 d o xs ∧ records_at (d_files d) o = xs.
Proof.
  intros Ho. destruct (out_at o Ho) as (i & xs & Hi & Hxs & He).
  destruct (Forall2_lookup_lr _ _ _ _ _ _ Hwritten Hi Hxs). exists xs. split_and!; [by eapply list_elem_of_lookup_2 | by split | done].
Qed.
Lemma out_record o r : o ∈ outs → r ∈ records_at (d_files d) o →
  r ∈ surviving ranges ins ∧ ∃ y, y ∈ inputs ∧ r ∈ recs_of y.
Proof.
  intros Ho Hr. destruct (out_records o Ho) as (xs & Hxs & _ & He). rewrite He in Hr.
  assert (r ∈ surviving ranges ins) as Hs by (rewrite <- Hrss; apply elem_of_concat; eauto).
  split; [done|]. apply (surviving_subset _ _ ins_unique) in Hs. apply list_elem_of_bind in Hs. naive_solver.
Qed.
Lemma kept_records x : table x → records_at (d_files d) x = recs_of x.
Proof.
  intros Hx. destruct (listed_on_disk _ _ _ Hcat Hx) as [bs Hb]. unfold records_at.
  destruct Hgrows as (_ & _ & Hf). by rewrite Hb, (Hf _ _ Hb).
Qed.
(** No other table of the two levels has a key of the inputs. *)
Lemma kept_apart x y r r' :
  table x → x ∉ inputs → SSTableMeta.level x = level ∨ SSTableMeta.level x = level + 1 → y ∈ inputs →
  r ∈ recs_of x → r' ∈ recs_of y → MemtableRecord.key r ≠ MemtableRecord.key r'.
Proof.
  intros Hx Hnx Hlv Hy Hr Hr' Hk. pose proof (Hclosed x (proj2 (Hcands x) (conj Hx Hlv)) Hnx) as Ho.
  destruct (table_range d0 Hcat x r Hx Hr) as [H1' H2']. pose proof (cl_tables _ _ _ _ Hcl y Hy) as Hty.
  destruct (table_range d0 Hcat y r' Hty Hr') as [H3' H4']. destruct (cl_range _ _ _ _ Hcl y Hy) as [H5' H6'].
  rewrite (overlapping_common range (range_of x) (MemtableRecord.key r)) in Ho; [done | | | done | done];
    rewrite Hk; [by eapply kle_trans | by eapply kle_trans].
Qed.
Lemma concat_apart (yss : list (list MemtableRecord.t)) i j xs ys r r' :
  keys_sorted (concat yss) → yss !! i = Some xs → yss !! j = Some ys → i ≠ j → r ∈ xs → r' ∈ ys →
  MemtableRecord.key r ≠ MemtableRecord.key r'.
Proof.
  intros Hs. revert i j. induction yss as [|zs yss IH]; intros i j Hi Hj Hij Hr Hr' Hk; [done|].
  simpl in Hs. apply keys_sorted_app in Hs as (Hz & Hs & Hlt). destruct i as [|i], j as [|j]; simpl in *; [done | | |].
  - injection Hi as ->. assert (r' ∈ concat yss) as Hin by (apply elem_of_concat; eauto using list_elem_of_lookup_2).
    specialize (Hlt r r' Hr Hin). rewrite Hk in Hlt. by apply klt_irrefl in Hlt.
  - injection Hj as ->. assert (r ∈ concat yss) as Hin by (apply elem_of_concat; eauto using list_elem_of_lookup_2).
    specialize (Hlt r' r Hr' Hin). rewrite Hk in Hlt. by apply klt_irrefl in Hlt.
  - by apply (IH Hs i j); [..|congruence|done|done|].
Qed.

Lemma outputs_replace :
  replaces (d_files d) (λ x, table x ∧ x ∉ inputs) outs (level + 1) (stored (d_files d0) table).
Proof.
  pose proof (ca_tables _ _ Hcat) as Ht.
  assert (same_files table (d_files d0) (d_files d)) as Hsf.
  { intros x Hx. destruct (listed_on_disk _ _ _ Hcat Hx) as [bs Hb]. destruct Hgrows as (_ & _ & Hf). by rewrite Hb, (Hf _ _ Hb). }
  assert (∀ y, y ∈ inputs → SSTableMeta.level y = level ∨ SSTableMeta.level y = level + 1) as Hin.
  { intros y Hy. by apply (cl_cands _ _ _ _ Hcl), Hcands in Hy as [_ ?]. }
  split.
  - eapply tables_inv_subset; [|by eapply tables_inv_files]. by intros x [? _].
  - intros o Ho. destruct (out_records o Ho) as (xs & _ & Hw & ->). destruct Hw as [_ (bs & Hbs & Htf) Hs Hl Hc Hty Hlv _ _].
    split_and!; try done. exists bs. split_and!; try done. simpl. unfold open_of. by rewrite Hbs.
  - done.
  - done.
  - intros o x Ho [Hx _]. destruct (out_records o Ho) as (xs & _ & Hw & _). split.
    + pose proof (listed_below _ _ _ (ca_levels _ _ Hcat) Hx). destruct (wr_id _ _ _ _ _ Hw). lia.
    + pose proof (wr_absent _ _ _ _ _ Hw). destruct (listed_on_disk _ _ _ Hcat Hx). congruence.
  - intros _ o o' Ho Ho' Hne r r' Hr Hr'. simpl in *.
    destruct (out_at o Ho) as (i & xs & Hi & Hxs & He), (out_at o' Ho') as (j & ys & Hj & Hys & He').
    rewrite He in Hr. rewrite He' in Hr'. apply (concat_apart rss i j xs ys); try done; [|congruence].
    rewrite Hrss. apply surviving_sorted, ins_unique.
  - intros _ o x Ho [Hx Hnx] Hlv r r' Hr Hr' Hk. simpl in *. rewrite kept_records in Hr' by done.
    destruct (out_record o r Ho Hr) as (_ & y & Hy & Hry). by apply (kept_apart x y r' r Hx Hnx (or_intror Hlv) Hy Hr' Hry).
  - intros o x r1 r2 Ho [Hx Hnx] Hlt Hr1 Hr2 Hk. rewrite kept_records in Hr1 by done.
    destruct (out_record o r2 Ho Hr2) as (_ & y & Hy & Hry). pose proof (cl_tables _ _ _ _ Hcl y Hy) as Hty.
    destruct (decide (SSTableMeta.level x = level)) as [Hl|Hl].
    { by destruct (kept_apart x y r1 r2 Hx Hnx (or_introl Hl) Hy Hr1 Hry). }
    apply (ti_order _ _ Ht x y); try done. destruct (Hin y Hy); lia.
  - intros o x r1 r2 Ho [Hx Hnx] Hlt Hr1 Hr2 Hk. rewrite kept_records in Hr2 by done.
    destruct (out_record o r1 Ho Hr1) as (_ & y & Hy & Hry). pose proof (cl_tables _ _ _ _ Hcl y Hy) as Hty.
    apply (ti_order _ _ Ht y x); try done. destruct (Hin y Hy); lia.
  - apply (ti_unique _ _ Ht).
  - intros r (x & [Ho|[Hx _]] & Hr).
    + destruct (out_record x r Ho Hr) as (_ & y & Hy & Hry). exists y. split; [by apply (cl_tables _ _ _ _ Hcl)|done].
    + exists x. split; [done|]. by rewrite <- kept_records.
  - apply (ti_keys _ _ Ht).
Qed.

(** *** The view *)

Abbreviation kept_list metas := (List.filter (λ x, negb (bool_decide (x ∈ inputs))) metas).
Lemma elem_of_kept metas x :
  x ∈ kept_list metas ↔ x ∈ metas ∧ x ∉ inputs.
Proof. rewrite list_elem_of_In, filter_In, <- list_elem_of_In, negb_true_iff, bool_decide_eq_false. done. Qed.

Lemma replaced_view m' (metas : list SSTableMeta.t) k :
  (∀ x, x ∈ metas ↔ table x) → (∀ x, x ∈ metas → x ∉ inputs → range_of x ∈ ranges) →
  catalogue m' (d_files d) → (∀ x, listed (lvls m') x ↔ x ∈ outs ∨ table x ∧ x ∉ inputs) →
  visible (newest k (catalogue_records m' (d_files d))) =
  visible (newest k (catalogue_records (d_manifest d0) (d_files d0))).
Proof.
  intros Hmetas Hprot Hc' Hl'. set (rest := (kept_list metas) ≫= recs_of).
  assert (∀ r, r ∈ rest ↔ ∃ x, table x ∧ (x ∉ inputs) ∧ r ∈ recs_of x) as Hrest.
  { intros r. unfold rest. rewrite list_elem_of_bind. setoid_rewrite elem_of_kept. setoid_rewrite Hmetas. naive_solver. }
  assert (∀ r, r ∈ ins ↔ ∃ x, table x ∧ x ∈ inputs ∧ r ∈ recs_of x) as Hins.
  { intros r. rewrite list_elem_of_bind. split; [|naive_solver]. intros (x & Hr & Hx). exists x.
    split_and!; [by apply (cl_tables _ _ _ _ Hcl) | done | done]. }
  rewrite <- (newest_ext k (surviving ranges ins ++ rest) (catalogue_records m' (d_files d))); [| by apply catalogue_unique |].
  - rewrite surviving_view; [| apply ins_unique |].
    + f_equal. apply newest_ext; [by apply catalogue_unique|]. intros r _.
      rewrite elem_of_app, elem_of_catalogue, Hins, Hrest by done. split.
      * intros [(x & ? & _ & ?)|(x & ? & _ & ?)]; by exists x.
      * intros (x & Hx & Hr). destruct (decide (x ∈ inputs)); [left | right]; eauto.
    + intros r (x & Hx & Hnx & Hr)%Hrest. exists (range_of x). split; [by apply Hprot; [apply Hmetas|]|].
      by apply (table_range d0 Hcat x r).
  - intros r _. rewrite elem_of_app, elem_of_catalogue by done. split.
    + intros [Hr|Hr].
      * rewrite <- Hrss in Hr. apply elem_of_concat in Hr as (xs & [i Hi]%list_elem_of_lookup_1 & Hr).
        destruct (Forall2_lookup_r _ _ _ _ _ Hwritten Hi) as (o & Ho & _). exists o.
        assert (o ∈ outs) as Hoo by (by eapply list_elem_of_lookup_2). split; [apply Hl'; by left|].
        destruct (out_at o Hoo) as (j & ys & Hj & Hys & ->).
        assert (i = j) as <-; [|congruence]. eapply NoDup_lookup; [exact Hids | |]; by rewrite list_lookup_fmap, ?Ho, ?Hj.
      * apply Hrest in Hr as (x & Hx & Hnx & Hr). exists x. split; [apply Hl'; by right|]. by rewrite kept_records.
    + intros (x & [Ho|[Hx Hnx]]%Hl' & Hr); [left; by destruct (out_record x r Ho Hr)|].
      right. apply Hrest. rewrite kept_records in Hr by done. eauto.
Qed.
Lemma replaced_subset m' r :
  catalogue m' (d_files d) → (∀ x, listed (lvls m') x ↔ x ∈ outs ∨ table x ∧ x ∉ inputs) →
  r ∈ catalogue_records m' (d_files d) → r ∈ catalogue_records (d_manifest d0) (d_files d0).
Proof.
  intros Hc' Hl'. rewrite !elem_of_catalogue by done. intros (x & [Ho|[Hx Hnx]]%Hl' & Hr).
  - destruct (out_record x r Ho Hr) as (_ & y & Hy & Hry). exists y. split; [by apply (cl_tables _ _ _ _ Hcl) | done].
  - exists x. by rewrite kept_records in Hr.
Qed.
End replacing.

(** ** A whole compaction *)

Section snapshot.
Implicit Types (l : levels_map).

Lemma snapshot_get lv l : om_get lv (snapshot_levels l) = List.map snd <$> om_get lv l.
Proof.
  unfold snapshot_levels. induction l as [|[lv' fs] l IH]; [done|]. rewrite fmap_cons. cbn [om_get fst snd].
  destruct (kcmp lv lv'); done.
Qed.
Lemma level_files l next lv fs :
  levels_ok l next → om_get lv l = Some fs →
  (∀ x, x ∈ List.map snd fs ↔ listed l x ∧ SSTableMeta.level x = lv) ∧ NoDup (List.map snd fs).
Proof.
  intros Hl Hg. destruct (lv_files _ _ Hl _ _ Hg) as [_ Hw]. split.
  - intros x. rewrite list_elem_of_In, in_map_iff. split.
    + intros ([id y] & <- & He%list_elem_of_In). apply (om_get_Some _ _ _ Hw) in He. simpl.
      destruct (lv_meta _ _ Hl _ _ _ _ Hg He) as (Hlv & Hid & _). split; [|done]. exists fs. by rewrite Hlv, Hid.
    + intros [(fs' & Hfs & Hx) Hlv]. rewrite Hlv, Hg in Hfs. injection Hfs as <-. exists (SSTableMeta.file_id x, x).
      split; [done|]. apply list_elem_of_In. by apply (om_get_Some _ _ _ Hw).
  - assert (∀ e, e ∈ fs → SSTableMeta.file_id e.2 = e.1) as Hid.
    { intros [id x] He. apply (om_get_Some _ _ _ Hw) in He. by destruct (lv_meta _ _ Hl _ _ _ _ Hg He) as (_ & ? & _). }
    clear Hg Hl. unfold om_wf in Hw. revert Hid. induction Hw as [|e fs Hw IH Hf]; intros Hid; [apply NoDup_nil_2|].
    simpl. apply NoDup_cons. split; [|apply IH; intros; apply Hid; by right].
    intros (e' & He & He'%list_elem_of_In)%list_elem_of_In%in_map_iff. rewrite Forall_forall in Hf.
    specialize (Hf e' He'). rewrite <- (Hid e (list_elem_of_here _ _)), <- He, (Hid e') in Hf by (by right).
    by apply klt_irrefl in Hf.
Qed.
Lemma all_files l next x : levels_ok l next → x ∈ (snapshot_levels l ≫= snd) ↔ listed l x.
Proof.
  intros Hl. rewrite list_elem_of_bind. unfold snapshot_levels. setoid_rewrite list_elem_of_fmap. split.
  - intros (p & Hx & [lv fs] & -> & Hin). apply (om_get_Some _ _ _ (lv_wf _ _ Hl)) in Hin. simpl in Hx.
    by apply (level_files _ _ _ _ Hl Hin) in Hx as [? _].
  - intros Hx. pose proof Hx as (fs & Hfs & _). eexists. split; [|eexists (_, fs); split; [done|]].
    + simpl. apply (level_files _ _ _ _ Hl Hfs). done.
    + by apply (om_get_Some _ _ _ (lv_wf _ _ Hl)).
Qed.
End snapshot.

Section compaction.
Context `{Crc32Spec, FastBloomSpec, Hshape : !FastBloomShape}.
Implicit Types (config : StorageConfig.t).

(** What a compaction may change, however it ends. *)
Record view_kept d d' : Prop := {
  vk_catalogue : catalogue (d_manifest d') (d_files d');
  vk_view : ∀ k, visible (newest k (catalogue_records (d_manifest d') (d_files d'))) =
                 visible (newest k (catalogue_records (d_manifest d) (d_files d)));
  vk_subset : catalogue_records (d_manifest d') (d_files d') ⊆ catalogue_records (d_manifest d) (d_files d);
  vk_recovery : ManifestState.recovery_checkpoint (ManifestManager.state (d_manifest d')) =
                ManifestState.recovery_checkpoint (ManifestManager.state (d_manifest d))
}.
Lemma grows_view d d' : catalogue (d_manifest d) (d_files d) → grows d d' → view_kept d d'.
Proof.
  intros Hc ((Hl & Hr & _) & Hc' & Hf).
  assert (catalogue_records (d_manifest d') (d_files d') = catalogue_records (d_manifest d) (d_files d)) as He.
  { unfold catalogue_records. rewrite Hl. erewrite tables_of_files; [done | apply (ca_levels _ _ Hc)|].
    intros x Hx. destruct (listed_on_disk _ _ _ Hc Hx) as [bs Hb]. by rewrite Hb, (Hf _ _ Hb). }
  split; [done | by rewrite He | by rewrite He | done].
Qed.

(** Deleting the files of tables that are no longer listed. *)
Lemma remove_files_view d xs :
  catalogue (d_manifest d) (d_files d) →
  (∀ x y, x ∈ xs → listed (lvls (d_manifest d)) y → SSTableMeta.path y ≠ SSTableMeta.path x) →
  view_kept d (remove_compacted_files xs d).
Proof.
  revert d. induction xs as [|x xs IH]; intros d Hc Hx; [by split|].
  set (d1 := mkDisk (ManifestManager.evict_file (d_manifest d) (SSTableMeta.path x))
    (om_remove (SSTableMeta.path x) (d_files d)) (d_checks d)).
  change (remove_compacted_files (x :: xs) d) with (remove_compacted_files xs d1).
  assert (catalogue (d_manifest d1) (d_files d1)) as Hc1.
  { apply catalogue_delete; [done|]. intros y Hy. by apply Hx; [left|]. }
  assert (catalogue_records (d_manifest d1) (d_files d1) = catalogue_records (d_manifest d) (d_files d)) as He.
  { unfold catalogue_records. simpl. erewrite tables_of_files; [done | apply (ca_levels _ _ Hc)|].
    intros y Hy. rewrite om_get_remove_ne; [done|]. by apply Hx; [left|]. }
  destruct (IH d1 Hc1) as [Hc2 Hv Hs Hr]; [intros y z Hy; apply Hx; by right|].
  split; [done | by rewrite <- He | by rewrite <- He | by rewrite Hr].
Qed.

Lemma ends_run {S A} (I : S → Prop) (Q : A → S → Prop) p p' (s : S) : p s = p' s → ends I Q p' s → ends I Q p s.
Proof. unfold ends. by intros ->. Qed.

Lemma merge_ends d0 d config sstables ranges rs U :
  same_disk d0 d → codec_records sstables = rs → lsn_unique rs → Forall recordable rs →
  roomy (StorageConfig.bloom_false_positive_rate config) U → (∀ r, r ∈ rs → U r) →
  ends (same_disk d0) (λ c _, blocks_records (SSTableCodec.blocks c) = surviving ranges rs)
    (merge_files_with_reclamation sstables config (Some ranges)) d.
Proof.
  intros Hd Hrs Hu Hr Hroom HU. unfold merge_files_with_reclamation.
  ends_bind (λ (_ : unit) (_ : disk), True); [by apply check_cancels_reads|]. intros _ d1 Hd1 _. cbv zeta.
  ends_bind (λ (_ : unit) (_ : disk), True); [by apply check_cancels_reads|]. intros _ d2 Hd2 _.
  fold (codec_records sstables). rewrite Hrs. fold (winners rs) (surviving ranges rs).
  pose proof (surviving_subset ranges rs Hu) as Hsub. pose proof (surviving_sorted ranges rs Hu) as Hs.
  edestruct (pack_table_ok (BloomFilterWrapper.with_rate 1000000 (StorageConfig.bloom_false_positive_rate config))
    (surviving ranges rs)) as (blocks & Hp & Hpk).
  - rewrite Forall_forall in Hr. apply Forall_forall. intros r Hin. by apply Hr, Hsub.
  - done.
  - eapply fits_packed, (Hroom (len (surviving ranges rs))); [|done|lia]. intros r Hin. by apply HU, Hsub.
  - rewrite Hp. apply ends_pure; [done | done|]. intros c [= <-]. apply (pk_records _ _ Hpk).
Qed.

(** Publishing outputs that were written, and deleting the inputs. *)
Lemma publish_ends d0 d cf level cands inputs range ranges outs rss (merged : SSTableCodec.t) :
  catalogue (d_manifest d0) (d_files d0) → clean (cf_publish cf) →
  (∀ x, x ∈ cands ↔ listed (lvls (d_manifest d0)) x ∧ (SSTableMeta.level x = level ∨ SSTableMeta.level x = level + 1)) →
  closing d0 cands inputs range → closed cands inputs range →
  (∀ x, listed (lvls (d_manifest d0)) x → x ∉ inputs → range_of x ∈ ranges) →
  concat rss = surviving ranges (inputs ≫= records_at (d_files d0)) →
  grows d0 d → Forall2 (written (level + 1) d0 d) outs rss →
  NoDup (SSTableMeta.file_id <$> outs) → NoDup (SSTableMeta.path <$> outs) →
  ends (view_kept d0) (λ _ _, True)
    (_ ← on_d_manifest (λ m, ManifestManager.publish_compaction m (ManifestManager.snapshot (d_manifest d0))
           inputs outs (cf_publish cf));
     _ ← ((λ d, (Ok tt, remove_compacted_files inputs d)) : eff disk unit); mret merged) d.
Proof.
  intros Hcat Hclean Hcands Hcl Hclosed Hprot Hrss Hgr Hw Hids Hpaths.
  pose proof (outputs_replace d0 d level cands inputs range ranges outs rss Hcat Hcands Hcl Hclosed Hrss Hgr Hw Hids Hpaths) as Hrp.
  pose proof Hgr as ((Hl & Hrc & _) & Hc & _). unfold ends, mbind, eff_bind, on_d_manifest.
  destruct (ManifestManager.publish_compaction _ _ _ _ _) as [r m'] eqn:Hp.
  apply (publish_catalogue _ (d_files d) _ _ _ _ _ _ (level + 1) (stored (d_files d0) (listed (lvls (d_manifest d0))))) in Hp;
    [|done|done|..].
  - destruct r as [[]|e|]; [|by subst m'; destruct d; apply grows_view|done].
    destruct Hp as (Hc' & Hl' & Hrc' & _). rewrite Hl in Hl'. set (d' := mkDisk m' (d_files d) (d_checks d)).
    assert (view_kept d' (remove_compacted_files inputs d')) as [Hc2 Hv2 Hs2 Hr2].
    { apply remove_files_view; [done|]. intros x y Hx [Hy|[Hy Hn]]%Hl'.
      - destruct (out_records d0 d level outs rss Hw y Hy) as (xs & _ & Hwy & _).
        pose proof (wr_absent _ _ _ _ _ Hwy). destruct (listed_on_disk _ _ x Hcat (cl_tables _ _ _ _ Hcl x Hx)). congruence.
      - intros He. apply Hn. rewrite (ti_paths _ _ (ca_tables _ _ Hcat) y x); try done. by apply (cl_tables _ _ _ _ Hcl). }
    split; [|done]. split; [done | | | by rewrite Hr2; simpl; rewrite Hrc'].
    + intros k. rewrite Hv2. simpl. eapply (replaced_view d0 d level cands inputs range ranges outs rss) with
        (metas := snapshot_levels (lvls (d_manifest d0)) ≫= snd); try done.
      * intros x. eapply all_files, (ca_levels _ _ Hcat).
      * intros x Hx. apply Hprot. by eapply all_files, Hx; apply (ca_levels _ _ Hcat).
    + intros r Hr%Hs2. by eapply (replaced_subset d0 d level cands inputs range ranges outs rss) in Hr.
  - intros x Hx. rewrite Hl. by apply (cl_tables _ _ _ _ Hcl).
  - apply Forall_forall. intros o Ho. destruct (out_records d0 d level outs rss Hw o Ho) as (xs & _ & Hwo & _). apply (wr_id_ok _ _ _ _ _ Hwo).
  - intros o x Ho Hx. rewrite Hl in Hx. destruct (out_records d0 d level outs rss Hw o Ho) as (xs & _ & Hwo & _).
    pose proof (listed_below _ _ _ (ca_levels _ _ Hcat) Hx). destruct (wr_id _ _ _ _ _ Hwo). lia.
  - by rewrite Hl.
Qed.

(** Outside a read: the same disk, hence the same view. *)
Lemma reads_view {A} d d1 (Q : A → disk → Prop) (p : eff disk A) :
  catalogue (d_manifest d) (d_files d) → ends (same_disk d) Q p d1 →
  ends (view_kept d) (λ a d', same_disk d d' ∧ Q a d') p d1.
Proof.
  intros Hc Hp. eapply ends_weaken; [exact Hp | intros; by apply grows_view, same_disk_grows | done].
Qed.
Lemma grows_ends {A} d (Q : A → disk → Prop) (p : eff disk A) :
  catalogue (d_manifest d) (d_files d) → ends (grows d) Q p d → ends (view_kept d) (λ a d', grows d d' ∧ Q a d') p d.
Proof. intros Hc Hp. eapply ends_weaken; [exact Hp | intros; by apply grows_view | done]. Qed.

Section inputs.
Variables (d : disk) (config : StorageConfig.t) (cf : CompactionFaults).
Hypothesis Hcat : catalogue (d_manifest d) (d_files d).
Hypothesis Hrec : Forall recordable (catalogue_records (d_manifest d) (d_files d)).
Hypothesis Hroom :
  roomy (StorageConfig.bloom_false_positive_rate config) (λ r, r ∈ catalogue_records (d_manifest d) (d_files d)).
Hypothesis Hclean : clean (cf_publish cf).
Abbreviation T := (listed (lvls (d_manifest d))).

Lemma input_records inputs r :
  (∀ x, x ∈ inputs → T x) → r ∈ (inputs ≫= records_at (d_files d)) → r ∈ catalogue_records (d_manifest d) (d_files d).
Proof.
  intros Hin (x & Hr & Hx)%list_elem_of_bind. apply elem_of_catalogue; [done|]. exists x. auto.
Qed.

Lemma replace_inputs_ends level cands inputs range source d1 :
  (∀ x, x ∈ cands ↔ T x ∧ (SSTableMeta.level x = level ∨ SSTableMeta.level x = level + 1)) →
  closing d cands inputs range → closed cands inputs range → utf8_valid source = true → is_u32 (level + 1) →
  same_disk d d1 →
  ends (view_kept d) (λ _ _, True)
    (replace_inputs (ManifestManager.snapshot (d_manifest d)) source (level + 1) inputs config cf) d1.
Proof.
  intros Hcands Hcl Hclosed Hsrc Hu32 Hd1. unfold replace_inputs. pose proof (ca_levels _ _ Hcat) as Hlv.
  set (rs := inputs ≫= records_at (d_files d)). set (metas := (ManifestSnapshot.levels _ : list _) ≫= snd).
  assert (∀ x, x ∈ metas ↔ T x) as Hmetas by (intros x; by eapply all_files).
  pose proof (cl_tables _ _ _ _ Hcl) as Hin.
  assert (∀ r, r ∈ rs → r ∈ catalogue_records (d_manifest d) (d_files d)) as Hrs by (intros r; by apply input_records).
  assert (lsn_unique rs) as Hu by (eapply lsn_unique_subset; [exact Hrs | by apply catalogue_unique]).
  eapply ends_bind; [apply reads_view; [done|]; by apply (read_tables_reads d Hcat)|]. intros cs d2 _ [Hd2 Hcs].
  eapply ends_bind; [apply reads_view; [done|]; apply (protected_reads d Hcat metas inputs); [by intros x ?%Hmetas | done..]|].
  intros ranges d3 _ [Hd3 Hprot].
  assert (Forall recordable rs) as Hrr.
  { pose proof Hrec as Hr. rewrite Forall_forall in Hr. apply Forall_forall. auto. }
  eapply ends_bind; [apply reads_view; [done|]; eapply (merge_ends d d3 config cs ranges rs); done|].
  intros merged d4 _ [Hd4 Hm]. eapply ends_bind; [apply reads_view; [done|]; by apply check_cancel_reads|].
  intros _ d5 _ [Hd5 _].
  destruct (partition_output_ok config merged (surviving ranges rs) _ Hroom) as (tables & rss & Hpo & Hrss & _ & Hout);
    [intros r Hr; by apply Hrs, (surviving_subset ranges rs Hu) | done | | by apply surviving_sorted|].
  { rewrite Forall_forall in Hrr. apply Forall_forall. intros r Hr. by apply Hrr, (surviving_subset ranges rs Hu). }
  ends_bind (λ ts d', same_disk d d' ∧ ts = tables).
  { rewrite Hpo. apply ends_pure; [by apply grows_view, same_disk_grows | done|]. by intros ts [= <-]. }
  intros ? d6 _ [Hd6 ->]. pose proof (same_disk_grows _ _ Hcat Hd6) as Hg6. pose proof Hg6 as (_ & Hc6 & _).
  ends_bind (λ outs d', grows d d' ∧ Forall2 (written (level + 1) d d') outs rss ∧
    NoDup (SSTableMeta.file_id <$> outs) ∧ NoDup (SSTableMeta.path <$> outs)).
  { eapply ends_weaken; [by apply (write_outputs_ends source (level + 1) 0 tables rss) | |].
    - intros d' Hg. apply grows_view; [done | by eapply grows_trans].
    - intros outs d' Hg (Hw & Hi & Hp). split_and!; [by eapply grows_trans | | done | done].
      eapply Forall2_impl; [exact Hw|]. intros o xs Ho. eapply written_grows; [exact Hg6 | exact Ho|].
      split_and!; [done | apply Hg | done]. }
  intros outs d7 _ (Hg7 & Hw & Hi & Hp). pose proof Hg7 as (_ & Hc7 & _).
  ends_bind (λ (_ : unit) d', grows d7 d').
  { eapply ends_weaken; [by apply (check_cancel_reads d7) | |].
    - intros d' Hs. apply grows_view; [done | eapply grows_trans; [done | by apply same_disk_grows]].
    - intros _ d' Hs _. by apply same_disk_grows. }
  intros _ d8 _ Hg8. eapply publish_ends; try done.
  - intros x Hx. apply Hprot. by apply Hmetas.
  - by eapply grows_trans.
  - eapply Forall2_impl; [exact Hw|]. intros o xs Ho. eapply written_grows; [| exact Ho | exact Hg8].
    by apply same_disk_grows.
Qed.

Lemma compaction_ends level : ends (view_kept d) (λ _ _, True) (compaction level config cf) d.
Proof.
  pose proof (ca_levels _ _ Hcat) as Hlv. eapply ends_run; [unfold compaction; cbv zeta; reflexivity|].
  eapply ends_bind; [apply reads_view; [done|]; by apply check_cancel_reads|]. intros _ d1 _ [Hd1 _].
  assert (view_kept d d1) as Hvk by (by apply grows_view, same_disk_grows).
  change (ManifestSnapshot.levels (ManifestManager.snapshot (d_manifest d))) with (snapshot_levels (lvls (d_manifest d))).
  rewrite (snapshot_get level). destruct (om_get level (lvls (d_manifest d))) as [fs|] eqn:Hfs; simpl;
    [|by apply ends_pure].
  destruct (level_files _ _ _ _ Hlv Hfs) as [Hcur Hnd]. set (current := sort_by _ _).
  assert (current ≡ₚ List.map snd fs) as Hperm by apply sort_by_perm.
  ends_bind (λ n d', d' = d1 ∧ n = level + 1 ∧ level + 1 <= u32_max).
  { apply ends_pure; [done | by case_match|]. intros n. case_match eqn:E; [|done]. intros [= <-].
    by apply Z.leb_le in E. }
  intros n ? _ (-> & -> & Hmax). set (next := default [] (om_get (level + 1) _)).
  assert (∀ x, x ∈ current ++ next ↔ T x ∧ (SSTableMeta.level x = level ∨ SSTableMeta.level x = level + 1)) as Hcands.
  { intros x. rewrite elem_of_app, Hperm, Hcur. unfold next. rewrite snapshot_get.
    destruct (om_get (level + 1) (lvls (d_manifest d))) as [fs'|] eqn:Hfs'; simpl.
    - destruct (level_files _ _ _ _ Hlv Hfs') as [Hnx _]. rewrite Hnx. tauto.
    - split; [intros [?|?%elem_of_nil]; tauto|]. intros [Hx [?|Hl]]; [tauto|]. destruct Hx as (fs' & Hx & _). congruence. }
  eapply ends_bind; [apply reads_view; [done|]; apply (select_reads d Hcat); [by intros x [? _]%Hcands | by rewrite Hperm | done]|].
  intros inputs d3 _ (Hd3 & range & Hcl & Hclosed & _).
  assert (∃ x, head current = Some x ∧ T x ∧ SSTableMeta.level x = level) as (x & Hx & Htx & Hlx).
  { destruct (lv_files _ _ Hlv _ _ Hfs) as [Hne _]. destruct current as [|x cur] eqn:Ec.
    - apply Permutation_nil in Hperm. by destruct fs.
    - exists x. split; [done|]. apply Hcur. rewrite <- Hperm. by left. }
  rewrite Hx. destruct (ti_typed _ _ (ca_tables _ _ Hcat) x Htx) as (_ & Hu32 & Hutf & _).
  apply (replace_inputs_ends level (current ++ next) inputs range); try done. rewrite Hlx in Hu32. word_lia.
Qed.
End inputs.

(** ** The loop over levels *)

(** Operations that only look. *)
Definition quiet {A} (p : eff disk A) : Prop := ∀ d, (p d).2 = d ∧ (p d).1 ≠ Panic.
Lemma quiet_ret {A} (a : A) : quiet (mret a).
Proof. done. Qed.
Lemma quiet_bind {A B} (p : eff disk A) (f : A → eff disk B) : quiet p → (∀ a, quiet (f a)) → quiet (p ≫= f).
Proof.
  intros Hp Hf d. unfold mbind, eff_bind. destruct (Hp d) as [Hd Hn]. destruct (p d) as [[a|e|] d']; simpl in *; subst; [apply Hf | done | done].
Qed.
Lemma quiet_file_len path : quiet (file_len path).
Proof. apply quiet_bind; [|done]. intros d. unfold open_path. by case_match. Qed.
Lemma quiet_total_len xs n : quiet (total_len xs n).
Proof. revert n. induction xs as [|x xs IH]; intros n; [done|]. apply quiet_bind; [apply quiet_file_len | intros; apply IH]. Qed.
Lemma quiet_debt config ls : quiet (deepest_debt config ls).
Proof.
  induction ls as [|[lv fs] ls IH]; [done|]. apply quiet_bind; [apply quiet_total_len|]. intros n. by case_match.
Qed.
Lemma quiet_pending config requested ls : quiet (pending_level config requested ls).
Proof. unfold pending_level. case_match; [done|]. apply quiet_bind; [apply quiet_debt | done]. Qed.
Lemma quiet_ends {A} (I : disk → Prop) (p : eff disk A) d : quiet p → I d → ends I (λ _ d', d' = d) p d.
Proof. intros Hp Hi. unfold ends. destruct (Hp d) as [Hd Hn]. destruct (p d) as [[a|e|] d']; simpl in *; subst; done. Qed.

Lemma view_kept_refl d : catalogue (d_manifest d) (d_files d) → view_kept d d.
Proof. by split. Qed.
Lemma view_kept_trans d1 d2 d3 : view_kept d1 d2 → view_kept d2 d3 → view_kept d1 d3.
Proof.
  intros [Hc1 Hv1 Hs1 Hr1] [Hc2 Hv2 Hs2 Hr2]. split; [done | | by etrans | congruence]. intros k. by rewrite Hv2.
Qed.

Section levels.
Variables (d0 : disk) (config : StorageConfig.t) (cf : CompactionFaults).
Hypothesis Hcat : catalogue (d_manifest d0) (d_files d0).
Hypothesis Hrec : Forall recordable (catalogue_records (d_manifest d0) (d_files d0)).
Hypothesis Hroom : roomy (StorageConfig.bloom_false_positive_rate config)
  (λ r, r ∈ catalogue_records (d_manifest d0) (d_files d0)).
Hypothesis Hclean : clean (cf_publish cf).

Lemma compaction_step level d : view_kept d0 d → ends (view_kept d0) (λ _ _, True) (compaction level config cf) d.
Proof.
  intros [Hc Hv Hs Hr]. eapply ends_weaken; [apply compaction_ends; [done | | | done] | | done].
  - rewrite Forall_forall in Hrec. apply Forall_forall. intros r Hin. by apply Hrec, Hs.
  - intros n rs Hin. apply Hroom. intros r Hr'. by apply Hs, Hin.
  - intros d'. by apply view_kept_trans.
Qed.
Lemma compact_loop_ends fuel requested d :
  view_kept d0 d → ends (view_kept d0) (λ _ _, True) (compact_loop fuel requested config cf) d.
Proof.
  revert requested d. induction fuel as [|fuel IH]; intros requested d Hd; [by apply ends_ret|].
  cbn [compact_loop]. ends_bind (λ (_ : unit) d', view_kept d0 d').
  { unfold check_cancel, ends. destruct (d_checks d) as [[|i]|]; [done | | done].
    split; destruct Hd; by split. }
  intros _ d1 _ Hd1. unfold ends.
  match goal with |- match ?p d1 with _ => _ end => change (ends (view_kept d0) (λ _ _, True) p d1) end.
  eapply ends_bind; [apply (quiet_ends (view_kept d0) _ d1); [apply quiet_pending | done]|].
  intros level d2 _ ->. destruct level as [level|]; [|by apply ends_ret].
  eapply ends_bind; [by apply compaction_step|]. intros _ d3 Hd3 _. by apply IH.
Qed.
Lemma compact_levels_ends fuel level d :
  view_kept d0 d → ends (view_kept d0) (λ _ _, True) (compact_levels fuel level config cf) d.
Proof. intros Hd. unfold compact_levels. case_match; [by apply ends_pure | by apply compact_loop_ends]. Qed.
End levels.
End compaction.
