(* ===== verification/Root.v ===== *)
(** * Storage roots: [src/src/storage/experimental.rs]

    How a directory is told to be a KV2 store or an experimental store, and
    the small checksummed files at the root of the latter: [CURRENT], the root
    marker, the generation reservation and the seal of a generation. *)

From S2P Require Import Prelude Bytes OrdMap Search.

(** ** Artifacts *)

Definition ROOT_MARKER_FILE : bytes := bytes_of_string "EXPERIMENTAL-WAL-VALUES".
Definition CURRENT_FILE : bytes := bytes_of_string "CURRENT".
Definition CURRENT_TEMP_FILE : bytes := bytes_of_string "CURRENT.tmp".
Definition ROOT_MARKER_TEMP_FILE : bytes := bytes_of_string "EXPERIMENTAL-WAL-VALUES.tmp".
Definition NEXT_GENERATION_FILE : bytes := bytes_of_string "NEXT-GENERATION".
Definition NEXT_GENERATION_TEMP_FILE : bytes := bytes_of_string "NEXT-GENERATION.tmp".
Definition GENERATION_SEAL_FILE : bytes := bytes_of_string "SEAL".
Definition GENERATION_SEAL_TEMP_FILE : bytes := bytes_of_string "SEAL.tmp".
Definition LOCK_FILE : bytes := bytes_of_string "LOCK".
Definition WAL_DIR : bytes := bytes_of_string "wal".
Definition MANIFEST_FILE : bytes := bytes_of_string "MANIFEST".
Definition GENERATIONS_DIR : bytes := bytes_of_string "generations".
Definition SSTABLE_DIR : bytes := bytes_of_string "sstable".

Definition EXPERIMENTAL_BOOTSTRAP_ARTIFACTS : list bytes :=
  [ROOT_MARKER_FILE; ROOT_MARKER_TEMP_FILE; CURRENT_FILE; CURRENT_TEMP_FILE; NEXT_GENERATION_FILE;
   NEXT_GENERATION_TEMP_FILE; GENERATION_SEAL_FILE; GENERATION_SEAL_TEMP_FILE; LOCK_FILE; GENERATIONS_DIR].
Definition ROOT_FILE_ARTIFACTS : list bytes :=
  [ROOT_MARKER_FILE; ROOT_MARKER_TEMP_FILE; CURRENT_FILE; CURRENT_TEMP_FILE; NEXT_GENERATION_FILE;
   NEXT_GENERATION_TEMP_FILE; GENERATION_SEAL_FILE; GENERATION_SEAL_TEMP_FILE; LOCK_FILE; MANIFEST_FILE].
Definition ROOT_DIRECTORY_ARTIFACTS : list bytes := [GENERATIONS_DIR; WAL_DIR; SSTABLE_DIR].

Inductive StorageKind : Type := Experimental | Kv2.
Module RootEntryKind.
Inductive t : Type := File | Directory | Other.
End RootEntryKind.
Module ExpectedEntryKind.
Inductive t : Type := File | Directory.
End ExpectedEntryKind.
#[export] Instance StorageKind_eq_dec : EqDecision StorageKind.
Proof. solve_decision. Defined.
#[export] Instance RootEntryKind_eq_dec : EqDecision RootEntryKind.t.
Proof. solve_decision. Defined.

Abbreviation root_entries := (ordmap bytes RootEntryKind.t).
Definition contains_key (name : bytes) (entries : root_entries) : bool :=
  match om_get name entries with Some _ => true | None => false end.

(** [exists_] is [Path::exists] of an entry of the root. *)
Definition ensure_not_experimental_storage (exists_ : bytes → bool) : res unit :=
  match List.find exists_ EXPERIMENTAL_BOOTSTRAP_ARTIFACTS with
  | Some _ => Err (StorageError "reserved by an experimental WAL value store")
  | None => mret tt
  end.

Definition validate_entry_type (entries : root_entries) (name : bytes) (expected : ExpectedEntryKind.t)
    : res unit :=
  match om_get name entries with
  | None => mret tt
  | Some actual =>
      match actual, expected with
      | RootEntryKind.File, ExpectedEntryKind.File
      | RootEntryKind.Directory, ExpectedEntryKind.Directory => mret tt
      | _, _ => Err (StorageError "unsafe storage artifact type")
      end
  end.
Fixpoint validate_names (entries : root_entries) (names : list bytes) (expected : ExpectedEntryKind.t)
    : res unit :=
  match names with
  | [] => mret tt
  | name :: names => _ ← validate_entry_type entries name expected; validate_names entries names expected
  end.
Definition validate_root_entry_types (entries : root_entries) : res unit :=
  _ ← validate_names entries ROOT_FILE_ARTIFACTS ExpectedEntryKind.File;
  validate_names entries ROOT_DIRECTORY_ARTIFACTS ExpectedEntryKind.Directory.

(** What the root path leads to, after following links. *)
Inductive RootPath : Type := Missing | NotADirectory | Dir (entries : root_entries).
Definition read_root_entries (root : RootPath) : res root_entries :=
  match root with
  | Missing => mret []
  | NotADirectory => Err (StorageError "storage root is not a directory")
  | Dir entries => _ ← validate_root_entry_types entries; mret entries
  end.

Definition classify_root (entries : root_entries) : res StorageKind :=
  if len entries =? 0 then mret Experimental
  else
    let has_kv2_artifact := existsb (λ n, contains_key n entries) [MANIFEST_FILE; WAL_DIR; SSTABLE_DIR] in
    let has_experimental_artifact := existsb (λ n, contains_key n entries) EXPERIMENTAL_BOOTSTRAP_ARTIFACTS in
    if has_kv2_artifact && has_experimental_artifact
    then Err (StorageError "mixed KV2 and experimental storage artifacts")
    else if has_kv2_artifact then
      if bool_decide (om_get MANIFEST_FILE entries = Some RootEntryKind.File)
         && bool_decide (om_get WAL_DIR entries = Some RootEntryKind.Directory)
         && bool_decide (om_get SSTABLE_DIR entries = Some RootEntryKind.Directory)
      then mret Kv2
      else Err (StorageError "incomplete KV2 storage layout")
    else if has_experimental_artifact then
      if contains_key ROOT_MARKER_FILE entries || contains_key CURRENT_FILE entries
      then mret Experimental
      else if (len entries =? 1) && contains_key LOCK_FILE entries
      then Err (StorageError "unknown non-empty storage root")
      else Err (StorageError "incomplete experimental bootstrap artifacts")
    else Err (StorageError "unknown non-empty storage root").
Definition classify_storage_root (root : RootPath) : res StorageKind :=
  entries ← read_root_entries root;
  classify_root entries.

(** ** Checksummed records *)

Definition NEXT_GENERATION_VERSION : byte := x01.
Definition NEXT_GENERATION_ENCODED_SIZE : Z := 1 + 8 + 4.
Definition GENERATION_SEAL_VERSION : byte := x02.
Definition GENERATION_SEAL_HEADER_SIZE : Z := 1 + 8 * 4 + 4.
Definition GENERATION_SEAL_ENTRY_SIZE : Z := 8 + 8 + 4.
(** [CEREDB-EXP-WAL] and two zero bytes. *)
Definition ROOT_MARKER_MAGIC : bytes := bytes_of_string "CEREDB-EXP-WAL" ++ [x00; x00].
Definition ROOT_MARKER_VERSION : Z := 1.
Definition ROOT_MARKER_ENCODED_SIZE : Z := 16 + 8 + 4.
Definition CURRENT_VERSION : byte := x01.
Definition CURRENT_ENCODED_SIZE : Z := 1 + 8 + 8 + 4.

(** [u64::from_be_bytes(bytes[i..i + 8])], and four bytes. *)
Definition u64_at (bs : bytes) (i : Z) : res Z := from_be <$> slice bs i (i + 8).
Definition u32_at (bs : bytes) (i : Z) : res Z := from_be <$> slice bs i (i + 4).

Module CurrentState.
Section codec.
Context `{Crc32}.
Record t : Type := mk { generation : Z; application_sequence_floor : Z }.
Definition encode (c : t) : bytes :=
  let body := [CURRENT_VERSION] ++ to_be 8 (generation c) ++ to_be 8 (application_sequence_floor c) in
  body ++ to_be 4 (crc32 body).
Definition decode (bs : bytes) : res t :=
  _ ← guard_err (len bs =? CURRENT_ENCODED_SIZE) (Corrupted "Invalid CURRENT length");
  version ← byte_at bs 0;
  _ ← guard_err (bool_decide (version = CURRENT_VERSION)) (Corrupted "Unsupported CURRENT version");
  checksum ← u32_at bs (CURRENT_ENCODED_SIZE - 4);
  body ← slice bs 0 (CURRENT_ENCODED_SIZE - 4);
  _ ← guard_err (crc32 body =? checksum) (Corrupted "CURRENT checksum mismatch");
  generation ← u64_at bs 1;
  _ ← guard_err (negb (generation =? 0)) (Corrupted "Invalid CURRENT generation");
  floor ← u64_at bs 9;
  mret (mk generation floor).
End codec.
End CurrentState.

Module RootMarker.
Section codec.
Context `{Crc32}.
Definition encode : bytes :=
  let body := ROOT_MARKER_MAGIC ++ to_be 8 ROOT_MARKER_VERSION in
  body ++ to_be 4 (crc32 body).
Definition decode (bs : bytes) : res unit :=
  _ ← guard_err (len bs =? ROOT_MARKER_ENCODED_SIZE) (Corrupted "Invalid experimental root marker length");
  magic ← slice bs 0 16;
  _ ← guard_err (bytes_eqb magic ROOT_MARKER_MAGIC) (Corrupted "Invalid experimental root marker magic");
  version ← u64_at bs 16;
  _ ← guard_err (version =? ROOT_MARKER_VERSION) (Corrupted "Unsupported experimental root marker version");
  checksum ← u32_at bs (ROOT_MARKER_ENCODED_SIZE - 4);
  body ← slice bs 0 (ROOT_MARKER_ENCODED_SIZE - 4);
  guard_err (crc32 body =? checksum) (Corrupted "Root marker checksum mismatch").
End codec.
End RootMarker.

Module GenerationReservation.
Section codec.
Context `{Crc32}.
Record t : Type := mk { next_generation : Z }.
Definition encode (g : t) : bytes :=
  let body := [NEXT_GENERATION_VERSION] ++ to_be 8 (next_generation g) in
  body ++ to_be 4 (crc32 body).
Definition decode (bs : bytes) : res t :=
  _ ← guard_err (len bs =? NEXT_GENERATION_ENCODED_SIZE) (Corrupted "Invalid generation reservation length");
  version ← byte_at bs 0;
  _ ← guard_err (bool_decide (version = NEXT_GENERATION_VERSION))
        (Corrupted "Unsupported generation reservation version");
  checksum ← u32_at bs (NEXT_GENERATION_ENCODED_SIZE - 4);
  body ← slice bs 0 (NEXT_GENERATION_ENCODED_SIZE - 4);
  _ ← guard_err (crc32 body =? checksum) (Corrupted "Generation reservation checksum mismatch");
  next_generation ← u64_at bs 1;
  _ ← guard_err (negb (next_generation =? 0)) (Corrupted "Invalid reserved generation");
  mret (mk next_generation).
End codec.
End GenerationReservation.

Module WalSegmentFingerprint.
Record t : Type := mk { segment_id : Z; length : Z; checksum : Z }.
End WalSegmentFingerprint.

Module GenerationSeal.
Section codec.
Context `{Crc32}.
Record t : Type := mk {
  generation : Z;
  application_sequence_floor : Z;
  max_live_application_sequence : Z;
  next_physical_lsn : Z;
  wal_segments : list WalSegmentFingerprint.t
}.
Definition encode_segment (s : WalSegmentFingerprint.t) : bytes :=
  to_be 8 (WalSegmentFingerprint.segment_id s) ++ to_be 8 (WalSegmentFingerprint.length s)
  ++ to_be 4 (WalSegmentFingerprint.checksum s).
Definition encode (g : t) : bytes :=
  let body := [GENERATION_SEAL_VERSION] ++ to_be 8 (generation g) ++ to_be 8 (application_sequence_floor g)
    ++ to_be 8 (max_live_application_sequence g) ++ to_be 8 (next_physical_lsn g)
    ++ to_be 4 (wrap32 (len (wal_segments g))) ++ concat (encode_segment <$> wal_segments g) in
  body ++ to_be 4 (crc32 body).

(** The loop over the entries; [previous] is the last one pushed. *)
Fixpoint decode_segments (bs : bytes) (offset : Z) (n : nat) (previous : option WalSegmentFingerprint.t)
    : res (list WalSegmentFingerprint.t) :=
  match n with
  | O => mret []
  | S n =>
      id ← u64_at bs offset;
      length ← u64_at bs (offset + 8);
      checksum ← u32_at bs (offset + 16);
      let segment := WalSegmentFingerprint.mk id length checksum in
      _ ← guard_err (match previous with
                     | Some p => negb (WalSegmentFingerprint.segment_id segment
                                       <=? WalSegmentFingerprint.segment_id p)
                     | None => true end)
            (Corrupted "Generation seal WAL segments are not ordered");
      rest ← decode_segments bs (offset + GENERATION_SEAL_ENTRY_SIZE) n (Some segment);
      mret (segment :: rest)
  end.
Definition decode (bs : bytes) : res t :=
  _ ← guard_err (negb (len bs <? GENERATION_SEAL_HEADER_SIZE + 4)) (Corrupted "Invalid generation seal length");
  version ← byte_at bs 0;
  _ ← guard_err (bool_decide (version = GENERATION_SEAL_VERSION))
        (Corrupted "Unsupported generation seal version");
  segment_count ← u32_at bs 33;
  expected_length ← ok_or (n ← checked_add GENERATION_SEAL_HEADER_SIZE
                                 (wrap64 (segment_count * GENERATION_SEAL_ENTRY_SIZE)); checked_add n 4)
                      (Corrupted "Generation seal length overflow");
  _ ← guard_err (len bs =? expected_length) (Corrupted "Invalid generation seal length");
  checksum ← u32_at bs (expected_length - 4);
  body ← slice bs 0 (expected_length - 4);
  _ ← guard_err (crc32 body =? checksum) (Corrupted "Generation seal checksum mismatch");
  generation ← u64_at bs 1;
  _ ← guard_err (negb (generation =? 0)) (Corrupted "Invalid generation seal generation");
  wal_segments ← decode_segments bs GENERATION_SEAL_HEADER_SIZE (Z.to_nat segment_count) None;
  floor ← u64_at bs 9;
  max_live ← u64_at bs 17;
  next_lsn ← u64_at bs 25;
  mret (mk generation floor max_live next_lsn wal_segments).
End codec.
End GenerationSeal.
