(* ===== verification/RootTheory.v ===== *)
(** * Theory of storage roots

    The checksummed files at the root decode exactly what they encode, and no
    directory is taken for both kinds of store. *)

From S2P Require Import Prelude Bytes OrdMap Search WalFormat Footer Root.

(** ** Fields of a byte string, read at offsets *)

(** The bytes before an offset. *)
Definition before (bs : bytes) (n : Z) : bytes := take (Z.to_nat n) bs.

Lemma slice_before bs i j x : 0 <= i → slice bs i j = Ok x → before bs j = before bs i ++ x ∧ len x = j - i ∧ j <= len bs.
Proof.
  intros Hi Hs. pose proof Hs as Hs'. apply slice_Ok in Hs' as [Hr Hl]. split; [|by split; [auto|lia]].
  unfold slice in Hs. destruct (_ && _); [|done]. injection Hs as <-. unfold before.
  replace (Z.to_nat j) with (Z.to_nat i + Z.to_nat (j - i))%nat by lia. by rewrite take_take_drop.
Qed.
Lemma before_all bs : before bs (len bs) = bs.
Proof. unfold before, len. by rewrite Nat2Z.id, firstn_all. Qed.
Lemma byte_before bs b : byte_at bs 0 = Ok b → before bs 1 = [b].
Proof. unfold byte_at, before. destruct bs as [|b' bs]; [done|]. simpl. by intros [= ->]. Qed.
Lemma u64_before bs i z : 0 <= i → u64_at bs i = Ok z → before bs (i + 8) = before bs i ++ to_be 8 z ∧ is_u64 z.
Proof.
  intros Hi (x & Hx & ->)%res_fmap_Ok. apply slice_before in Hx as (Hu & Hl & _); [|done].
  assert (length x = 8%nat) as Hn by (unfold len in Hl; lia). split.
  - rewrite Hu. by rewrite <- Hn, to_from_be.
  - apply u64_bound. rewrite <- Hn. apply from_be_range.
Qed.
Lemma u32_before bs i z : 0 <= i → u32_at bs i = Ok z → before bs (i + 4) = before bs i ++ to_be 4 z ∧ is_u32 z.
Proof.
  intros Hi (x & Hx & ->)%res_fmap_Ok. apply slice_before in Hx as (Hu & Hl & _); [|done].
  assert (length x = 4%nat) as Hn by (unfold len in Hl; lia). split.
  - rewrite Hu. by rewrite <- Hn, to_from_be.
  - apply u32_bound. rewrite <- Hn. apply from_be_range.
Qed.
Lemma slice0_before bs j x : slice bs 0 j = Ok x → before bs j = x.
Proof. intros (Hu & _)%slice_before; [|done]. by rewrite Hu. Qed.

(** Reading a field back. *)
Lemma u64_at_run (x y : bytes) z i : len x = i → is_u64 z → u64_at (x ++ to_be 8 z ++ y) i = Ok z.
Proof.
  intros Hx Hz. unfold u64_at. rewrite (slice_mid x (to_be 8 z) y) by (try done; by rewrite len_to_be).
  cbn [fmap res_fmap]. by rewrite from_be_u64.
Qed.
Lemma u32_at_run (x y : bytes) z i : len x = i → is_u32 z → u32_at (x ++ to_be 4 z ++ y) i = Ok z.
Proof.
  intros Hx Hz. unfold u32_at. rewrite (slice_mid x (to_be 4 z) y) by (try done; by rewrite len_to_be).
  cbn [fmap res_fmap]. by rewrite from_be_u32.
Qed.

(** [chk] takes a decoder's success apart, one step at a time; [fields] puts
    the byte string together from the fields found. *)
Ltac const z := let z' := eval vm_compute in z in change z with z' in *.
Ltac sizes :=
  unfold CURRENT_ENCODED_SIZE, ROOT_MARKER_ENCODED_SIZE, NEXT_GENERATION_ENCODED_SIZE, GENERATION_SEAL_HEADER_SIZE in *;
  repeat match goal with
    | Hd : len _ = ?z |- _ => progress const z
    | Hd : context [before _ ?z] |- _ => progress const z
    | Hd : slice _ ?i ?j = _ |- _ => progress (const i; const j)
    end.
Ltac chk :=
  repeat match goal with
    | Hd : (_ ≫= _) = Ok _ |- _ => apply res_bind_Ok in Hd as (? & ? & Hd)
    | Hd : guard_err _ _ = Ok _ |- _ => apply guard_err_Ok in Hd
    | Hd : (_ =? _) = true |- _ => apply Z.eqb_eq in Hd
    | Hd : negb (_ =? _) = true |- _ => apply negb_true_iff, Z.eqb_neq in Hd
    | Hd : bool_decide _ = true |- _ => apply bool_decide_eq_true in Hd
    | Hd : bytes_eqb _ _ = true |- _ => apply bytes_eqb_eq in Hd
    | Hd : byte_at _ _ = Ok _ |- _ => apply byte_before in Hd
    | Hd : u64_at _ _ = Ok _ |- _ => apply u64_before in Hd as [? ?]; [|done]
    | Hd : u32_at _ _ = Ok _ |- _ => apply u32_before in Hd as [? ?]; [|done]
    | Hd : slice _ 0 _ = Ok _ |- _ => apply slice0_before in Hd
    end; sizes.
Ltac fields :=
  subst; repeat match goal with Hd : before ?bs ?n = _ |- context [before ?bs ?n] => rewrite Hd end;
  rewrite <- ?(assoc_L (++)); try done.

Section codecs.
Context `{Crc32Spec}.

(** A body followed by its checksum. *)
Lemma sealed_len body n : len body = n → (len (body ++ to_be 4 (crc32 body)) =? n + 4) = true.
Proof. intros <-. rewrite len_app, len_to_be. apply Z.eqb_refl. Qed.
Lemma sealed_sum body n : len body = n → u32_at (body ++ to_be 4 (crc32 body)) n = Ok (crc32 body).
Proof. intros <-. rewrite <- (app_nil_r (to_be 4 _)). apply u32_at_run; [done | apply crc32_u32]. Qed.
Lemma sealed_body body n : len body = n → slice (body ++ to_be 4 (crc32 body)) 0 n = Ok body.
Proof. apply slice_here. Qed.

(** ** [CURRENT] *)

Definition current_ok (c : CurrentState.t) : Prop :=
  is_u64 (CurrentState.generation c) ∧ CurrentState.generation c ≠ 0 ∧
  is_u64 (CurrentState.application_sequence_floor c).
Lemma current_exact bs c : CurrentState.decode bs = Ok c ↔ current_ok c ∧ bs = CurrentState.encode c.
Proof.
  split.
  - unfold CurrentState.decode. intros Hd. chk. injection Hd as <-.
    split; [by split_and!|]. unfold CurrentState.encode. cbn [CurrentState.generation CurrentState.application_sequence_floor].
    rewrite <- (before_all bs). replace (len bs) with 21 by done. fields.
  - intros [(Hg & Hg0 & Hf) ->]. destruct c as [g f]. simpl in *. unfold CurrentState.decode, CurrentState.encode.
    cbn [CurrentState.generation CurrentState.application_sequence_floor].
    set (body := [CURRENT_VERSION] ++ to_be 8 g ++ to_be 8 f).
    assert (len body = 17) as Hb by (unfold body; by rewrite !len_app, !len_to_be).
    change CURRENT_ENCODED_SIZE with (17 + 4). rewrite (sealed_len body 17) by done. cbn [guard_err mbind res_bind].
    change (byte_at _ 0) with (Ok CURRENT_VERSION). cbn [mbind res_bind]. rewrite bool_decide_true by done.
    cbn [guard_err mbind res_bind]. change (17 + 4 - 4) with 17.
    rewrite (sealed_sum body 17), (sealed_body body 17) by done. cbn [mbind res_bind]. rewrite Z.eqb_refl.
    cbn [guard_err mbind res_bind]. unfold body. rewrite <- !(assoc_L (++)).
    rewrite (u64_at_run [CURRENT_VERSION] _ g 1) by done. cbn [mbind res_bind]. rewrite (proj2 (Z.eqb_neq g 0)) by done.
    cbn [negb guard_err mbind res_bind].
    rewrite (app_assoc [CURRENT_VERSION]). rewrite u64_at_run by (try done; by rewrite len_app, len_to_be). done.
Qed.

(** ** The root marker *)

Lemma marker_exact bs : RootMarker.decode bs = Ok tt ↔ bs = RootMarker.encode.
Proof.
  split.
  - unfold RootMarker.decode. intros Hd. chk. unfold RootMarker.encode.
    rewrite <- (before_all bs). replace (len bs) with 28 by done. fields.
  - intros ->. unfold RootMarker.decode, RootMarker.encode. set (body := ROOT_MARKER_MAGIC ++ _).
    assert (len body = 24) as Hb by (unfold body; by rewrite len_app, len_to_be).
    change ROOT_MARKER_ENCODED_SIZE with (24 + 4). rewrite (sealed_len body 24) by done. cbn [guard_err mbind res_bind].
    change (24 + 4 - 4) with 24. rewrite (sealed_sum body 24), (sealed_body body 24) by done.
    assert (slice (body ++ to_be 4 (crc32 body)) 0 16 = Ok ROOT_MARKER_MAGIC) as ->
      by (unfold body at 1; rewrite <- !(assoc_L (++)); by apply slice_here).
    assert (u64_at (body ++ to_be 4 (crc32 body)) 16 = Ok ROOT_MARKER_VERSION) as ->
      by (unfold body at 1; rewrite <- !(assoc_L (++)); by apply u64_at_run).
    cbn [mbind res_bind]. change (bytes_eqb ROOT_MARKER_MAGIC ROOT_MARKER_MAGIC) with true. simpl. by rewrite Z.eqb_refl.
Qed.

(** ** The generation reservation *)

Definition reservation_ok (g : GenerationReservation.t) : Prop :=
  is_u64 (GenerationReservation.next_generation g) ∧ GenerationReservation.next_generation g ≠ 0.
Lemma reservation_exact bs g :
  GenerationReservation.decode bs = Ok g ↔ reservation_ok g ∧ bs = GenerationReservation.encode g.
Proof.
  split.
  - unfold GenerationReservation.decode. intros Hd. chk. injection Hd as <-.
    split; [by split_and!|]. unfold GenerationReservation.encode. cbn [GenerationReservation.next_generation].
    rewrite <- (before_all bs). replace (len bs) with 13 by done. fields.
  - intros [[Hg Hg0] ->]. destruct g as [g]. simpl in *.
    unfold GenerationReservation.decode, GenerationReservation.encode. cbn [GenerationReservation.next_generation].
    set (body := [NEXT_GENERATION_VERSION] ++ to_be 8 g).
    assert (len body = 9) as Hb by (unfold body; by rewrite !len_app, !len_to_be).
    change NEXT_GENERATION_ENCODED_SIZE with (9 + 4). rewrite (sealed_len body 9) by done. cbn [guard_err mbind res_bind].
    change (byte_at _ 0) with (Ok NEXT_GENERATION_VERSION). cbn [mbind res_bind]. rewrite bool_decide_true by done.
    cbn [guard_err mbind res_bind]. change (9 + 4 - 4) with 9.
    rewrite (sealed_sum body 9), (sealed_body body 9) by done. cbn [mbind res_bind]. rewrite Z.eqb_refl.
    cbn [guard_err mbind res_bind]. unfold body. rewrite <- !(assoc_L (++)).
    rewrite (u64_at_run [NEXT_GENERATION_VERSION] _ g 1) by done. cbn [mbind res_bind].
    by rewrite (proj2 (Z.eqb_neq g 0)) by done.
Qed.

(** ** The seal of a generation *)

Definition segment_ok (s : WalSegmentFingerprint.t) : Prop :=
  is_u64 (WalSegmentFingerprint.segment_id s) ∧ is_u64 (WalSegmentFingerprint.length s) ∧
  is_u32 (WalSegmentFingerprint.checksum s).
(** Ids go up, starting above [previous]. *)
Fixpoint ordered (previous : option WalSegmentFingerprint.t) (segs : list WalSegmentFingerprint.t) : Prop :=
  match segs with
  | [] => True
  | s :: segs =>
      match previous with
      | Some p => WalSegmentFingerprint.segment_id p < WalSegmentFingerprint.segment_id s
      | None => True end ∧ ordered (Some s) segs
  end.
Definition segments_bytes (segs : list WalSegmentFingerprint.t) : bytes :=
  concat (GenerationSeal.encode_segment <$> segs).
Lemma segments_bytes_len segs : len (segments_bytes segs) = 20 * len segs.
Proof.
  unfold segments_bytes. induction segs as [|s segs IH]; [done|]. rewrite fmap_cons. cbn [concat].
  rewrite len_app, IH, len_cons. unfold GenerationSeal.encode_segment. rewrite !len_app, !len_to_be. lia.
Qed.
Lemma decode_segments_inv bs n off previous segs :
  0 <= off → GenerationSeal.decode_segments bs off n previous = Ok segs →
  len segs = Z.of_nat n ∧ Forall segment_ok segs ∧ ordered previous segs ∧
  before bs (off + 20 * Z.of_nat n) = before bs off ++ segments_bytes segs.
Proof.
  revert off previous segs. induction n as [|n IH]; intros off previous segs Hoff; cbn [GenerationSeal.decode_segments].
  { intros [= <-]. split_and!; try done. by rewrite app_nil_r, Z.add_0_r. }
  intros (id & Hid & Hd)%res_bind_Ok. apply res_bind_Ok in Hd as (l & Hl & Hd). apply res_bind_Ok in Hd as (c & Hc & Hd).
  apply res_bind_Ok in Hd as (? & Hg%guard_err_Ok & Hd). apply res_bind_Ok in Hd as (rest & Hr & [= <-]).
  apply u64_before in Hid as [Hid ?]; [|done]. apply u64_before in Hl as [Hl ?]; [|lia]. apply u32_before in Hc as [Hc ?]; [|lia].
  apply IH in Hr as (Hn & Hs & Ho & Hu); [|unfold GENERATION_SEAL_ENTRY_SIZE; lia].
  rewrite len_cons, Hn. split_and!; [lia | by constructor | |].
  - destruct previous as [p|]; [|done]. split; [|done]. apply negb_true_iff, Z.leb_gt in Hg. done.
  - replace (off + 20 * Z.of_nat (S n)) with (off + GENERATION_SEAL_ENTRY_SIZE + 20 * Z.of_nat n)
      by (unfold GENERATION_SEAL_ENTRY_SIZE; lia).
    rewrite Hu. unfold segments_bytes. rewrite fmap_cons. cbn [concat]. unfold GenerationSeal.encode_segment at 2.
    cbn [WalSegmentFingerprint.segment_id WalSegmentFingerprint.length WalSegmentFingerprint.checksum].
    change (off + GENERATION_SEAL_ENTRY_SIZE) with (off + 20). replace (off + 20) with (off + 16 + 4) by lia.
    rewrite Hc. replace (off + 16) with (off + 8 + 8) by lia. rewrite Hl, Hid. by rewrite <- !(assoc_L (++)).
Qed.
Lemma decode_segments_run segs x y off previous :
  len x = off → Forall segment_ok segs → ordered previous segs →
  GenerationSeal.decode_segments (x ++ segments_bytes segs ++ y) off (length segs) previous = Ok segs.
Proof.
  revert x off previous. induction segs as [|[id l c] segs IH]; intros x off previous Hx Hs Ho; [done|].
  apply Forall_cons_1 in Hs as [(Hid & Hl & Hc) Hs]. destruct Ho as [Hp Ho]. simpl in Hid, Hl, Hc, Hp.
  unfold segments_bytes. rewrite fmap_cons. cbn [concat length GenerationSeal.decode_segments].
  unfold GenerationSeal.encode_segment at 1 3 5 7.
  cbn [WalSegmentFingerprint.segment_id WalSegmentFingerprint.length WalSegmentFingerprint.checksum].
  fold (segments_bytes segs). set (bs := x ++ _).
  assert (u64_at bs off = Ok id) as -> by (unfold bs; rewrite <- !(assoc_L (++)); by apply u64_at_run).
  assert (u64_at bs (off + 8) = Ok l) as ->.
  { unfold bs. rewrite <- !(assoc_L (++)), (app_assoc x). apply u64_at_run; [|done]. rewrite len_app, len_to_be. lia. }
  assert (u32_at bs (off + 16) = Ok c) as ->.
  { unfold bs. rewrite <- !(assoc_L (++)), (app_assoc x), (app_assoc (x ++ _)). apply u32_at_run; [|done].
    rewrite !len_app, !len_to_be. lia. }
  cbn [mbind res_bind].
  assert (match previous with Some p => negb (id <=? WalSegmentFingerprint.segment_id p) | None => true end = true) as ->.
  { destruct previous as [p|]; [|done]. apply negb_true_iff, Z.leb_gt. lia. }
  cbn [guard_err mbind res_bind].
  assert (bs = (x ++ to_be 8 id ++ to_be 8 l ++ to_be 4 c) ++ segments_bytes segs ++ y) as ->
    by (unfold bs; by rewrite <- !(assoc_L (++))).
  rewrite IH; [done | | done | done]. rewrite !len_app, !len_to_be. unfold GENERATION_SEAL_ENTRY_SIZE. lia.
Qed.

Definition seal_ok (g : GenerationSeal.t) : Prop :=
  is_u64 (GenerationSeal.generation g) ∧ GenerationSeal.generation g ≠ 0 ∧
  is_u64 (GenerationSeal.application_sequence_floor g) ∧ is_u64 (GenerationSeal.max_live_application_sequence g) ∧
  is_u64 (GenerationSeal.next_physical_lsn g) ∧ len (GenerationSeal.wal_segments g) <= u32_max ∧
  Forall segment_ok (GenerationSeal.wal_segments g) ∧ ordered None (GenerationSeal.wal_segments g).

Lemma seal_expected n : is_u32 n →
  (m ← checked_add GENERATION_SEAL_HEADER_SIZE (wrap64 (n * GENERATION_SEAL_ENTRY_SIZE)); checked_add m 4)
  = Some (37 + 20 * n + 4).
Proof.
  intros Hn. unfold GENERATION_SEAL_ENTRY_SIZE. rewrite wrap64_id by word_lia. unfold GENERATION_SEAL_HEADER_SIZE.
  rewrite checked_add_run by word_lia. cbn [mbind option_bind]. rewrite checked_add_run by word_lia. f_equal. lia.
Qed.
Lemma seal_decoded bs g : GenerationSeal.decode bs = Ok g → seal_ok g ∧ bs = GenerationSeal.encode g.
Proof.
  unfold GenerationSeal.decode. intros (? & _ & Hd)%res_bind_Ok. apply res_bind_Ok in Hd as (v & Hv%byte_before & Hd).
  apply res_bind_Ok in Hd as (? & Hv'%guard_err_Ok%bool_decide_eq_true & Hd).
  apply res_bind_Ok in Hd as (n & Hn%u32_before & Hd); [|done]. destruct Hn as [Hn Hn32].
  rewrite (seal_expected n Hn32) in Hd. cbn [ok_or mbind res_bind] in Hd.
  apply res_bind_Ok in Hd as (? & Hl%guard_err_Ok%Z.eqb_eq & Hd).
  replace (37 + 20 * n + 4 - 4) with (37 + 20 * n) in Hd by lia.
  apply res_bind_Ok in Hd as (c & Hc%u32_before & Hd); [|word_lia]. destruct Hc as [Hc _].
  apply res_bind_Ok in Hd as (body & Hb%slice0_before & Hd). apply res_bind_Ok in Hd as (? & Hcs%guard_err_Ok%Z.eqb_eq & Hd).
  apply res_bind_Ok in Hd as (gen & Hg%u64_before & Hd); [|done]. apply res_bind_Ok in Hd as (? & Hg0%guard_err_Ok & Hd).
  apply negb_true_iff, Z.eqb_neq in Hg0.
  apply res_bind_Ok in Hd as (segs & Hs & Hd). apply decode_segments_inv in Hs as (Hsn & Hso & Hord & Hsu); [|done].
  apply res_bind_Ok in Hd as (f & Hf%u64_before & Hd); [|done]. apply res_bind_Ok in Hd as (ml & Hm%u64_before & Hd); [|done].
  apply res_bind_Ok in Hd as (nl & Hnl%u64_before & [= <-]); [|done].
  destruct Hg as [Hg ?], Hf as [Hf ?], Hm as [Hm ?], Hnl as [Hnl ?].
  rewrite Z2Nat.id in Hsn, Hsu by word_lia.
  split; [split_and!; simpl; try done; word_lia|]. unfold GenerationSeal.encode.
  cbn [GenerationSeal.generation GenerationSeal.application_sequence_floor GenerationSeal.max_live_application_sequence
       GenerationSeal.next_physical_lsn GenerationSeal.wal_segments].
  fold (segments_bytes segs). rewrite Hsn, wrap32_id by done.
  rewrite <- (before_all bs), Hl, Hc, <- Hcs, <- Hb. change (GENERATION_SEAL_HEADER_SIZE) with 37 in Hsu. rewrite Hsu.
  sizes. rewrite Hn, Hnl, Hm, Hf, Hg, Hv, Hv'. by rewrite <- !(assoc_L (++)).
Qed.
Lemma seal_run g : seal_ok g → GenerationSeal.decode (GenerationSeal.encode g) = Ok g.
Proof.
  destruct g as [gen f ml nl segs]. unfold seal_ok. simpl. intros (Hg & Hg0 & Hf & Hm & Hnl & Hlen & Hso & Hord).
  unfold GenerationSeal.decode, GenerationSeal.encode.
  cbn [GenerationSeal.generation GenerationSeal.application_sequence_floor GenerationSeal.max_live_application_sequence
       GenerationSeal.next_physical_lsn GenerationSeal.wal_segments].
  fold (segments_bytes segs). pose proof (len_nonneg segs). rewrite wrap32_id by word_lia.
  set (body := [GENERATION_SEAL_VERSION] ++ _).
  assert (len body = 37 + 20 * len segs) as Hb.
  { unfold body. rewrite !len_app, !len_to_be, segments_bytes_len. change (len [GENERATION_SEAL_VERSION]) with 1. lia. }
  set (bs := body ++ to_be 4 (crc32 body)).
  assert (len bs = 37 + 20 * len segs + 4) as Hl by (unfold bs; rewrite len_app, len_to_be; lia).
  assert (∀ x z y i, body = x ++ to_be 8 z ++ y → len x = i → is_u64 z → u64_at bs i = Ok z) as H8.
  { intros x z y i He Hx Hz. unfold bs. rewrite He at 1. rewrite <- !(assoc_L (++)). by apply u64_at_run. }
  set (v := [GENERATION_SEAL_VERSION]) in body.
  assert (len v = 1) as Hv by done.
  rewrite (proj2 (Z.ltb_ge (len bs) _)) by (unfold GENERATION_SEAL_HEADER_SIZE; lia). cbn [negb guard_err mbind res_bind].
  change (byte_at bs 0) with (Ok GENERATION_SEAL_VERSION). cbn [mbind res_bind]. rewrite bool_decide_true by done.
  cbn [guard_err mbind res_bind].
  assert (u32_at bs 33 = Ok (len segs)) as ->.
  { unfold bs, body. rewrite <- !(assoc_L (++)), (app_assoc v), (app_assoc (v ++ _)), !(app_assoc (_ ++ to_be 8 f)),
      (app_assoc (_ ++ to_be 8 ml)). apply u32_at_run; [|word_lia]. rewrite !len_app, !len_to_be, Hv. done. }
  cbn [mbind res_bind]. rewrite seal_expected by word_lia. cbn [ok_or mbind res_bind].
  rewrite (proj2 (Z.eqb_eq (len bs) _)) by done. cbn [guard_err mbind res_bind].
  replace (37 + 20 * len segs + 4 - 4) with (37 + 20 * len segs) by lia.
  assert (u32_at bs (37 + 20 * len segs) = Ok (crc32 body)) as -> by (by apply sealed_sum). cbn [mbind res_bind].
  assert (slice bs 0 (37 + 20 * len segs) = Ok body) as -> by (by apply sealed_body). cbn [mbind res_bind]. rewrite Z.eqb_refl. cbn [guard_err mbind res_bind].
  rewrite (H8 v gen _ 1 eq_refl Hv Hg). cbn [mbind res_bind]. rewrite (proj2 (Z.eqb_neq gen 0)) by done.
  cbn [negb guard_err mbind res_bind].
  assert (GenerationSeal.decode_segments bs GENERATION_SEAL_HEADER_SIZE (Z.to_nat (len segs)) None = Ok segs) as ->.
  { unfold len at 1. rewrite Nat2Z.id. assert (bs = (v ++ to_be 8 gen ++ to_be 8 f ++ to_be 8 ml ++ to_be 8 nl ++ to_be 4 (len segs))
      ++ segments_bytes segs ++ to_be 4 (crc32 body)) as -> by (unfold bs; unfold body at 1; by rewrite <- !(assoc_L (++))).
    apply decode_segments_run; [|done|done]. by rewrite !len_app, !len_to_be, Hv. }
  cbn [mbind res_bind].
  rewrite (H8 (v ++ to_be 8 gen) f (to_be 8 ml ++ to_be 8 nl ++ to_be 4 (len segs) ++ segments_bytes segs) 9),
    (H8 (v ++ to_be 8 gen ++ to_be 8 f) ml (to_be 8 nl ++ to_be 4 (len segs) ++ segments_bytes segs) 17),
    (H8 (v ++ to_be 8 gen ++ to_be 8 f ++ to_be 8 ml) nl (to_be 4 (len segs) ++ segments_bytes segs) 25);
    try done; try (by rewrite !len_app, !len_to_be, Hv); unfold body; by rewrite <- !(assoc_L (++)).
Qed.
End codecs.

(** ** Properties *)

(** C40.  Each small file at the root of an experimental store decodes exactly
    what its encoder writes: [CURRENT], the root marker, the generation
    reservation and the seal with its list of segments.  A decoder accepts a
    byte string if and only if it is the encoding of a well-formed value. *)
Theorem root_files_exact `{Crc32Spec} bs :
  (∀ c, CurrentState.decode bs = Ok c ↔ current_ok c ∧ bs = CurrentState.encode c) ∧
  (RootMarker.decode bs = Ok tt ↔ bs = RootMarker.encode) ∧
  (∀ g, GenerationReservation.decode bs = Ok g ↔ reservation_ok g ∧ bs = GenerationReservation.encode g) ∧
  (∀ g, GenerationSeal.decode bs = Ok g ↔ seal_ok g ∧ bs = GenerationSeal.encode g).
Proof.
  split_and!; [apply current_exact | apply marker_exact | apply reservation_exact|].
  intros g. split; [apply seal_decoded|]. intros [Hg ->]. by apply seal_run.
Qed.

Definition sample_seal : GenerationSeal.t :=
  GenerationSeal.mk 2 9 8 41 [WalSegmentFingerprint.mk 0 160 77; WalSegmentFingerprint.mk 1 96 5].
Lemma sample_seal_ok : seal_ok sample_seal.
Proof.
  assert (Forall segment_ok (GenerationSeal.wal_segments sample_seal)) as Hs.
  { apply Forall_cons. split; [|apply Forall_singleton]; split_and!; simpl; word_lia. }
  split_and!; [..|exact Hs|]; simpl; try word_lia; done.
Qed.
Lemma root_files_exact_witness :
  @CurrentState.decode ieee (@CurrentState.encode ieee (CurrentState.mk 1 7)) = Ok (CurrentState.mk 1 7) ∧
  @GenerationSeal.decode ieee (@GenerationSeal.encode ieee sample_seal) = Ok sample_seal.
Proof.
  split.
  - apply (root_files_exact (H0 := ieee_spec) _). split; [|done]. split_and!; simpl; word_lia.
  - apply (root_files_exact (H0 := ieee_spec) _). split; [exact sample_seal_ok | done].
Defined.

Lemma find_existsb {A} (p : A → bool) xs : existsb p xs = match List.find p xs with Some _ => true | None => false end.
Proof. induction xs as [|x xs IH]; [done|]. simpl. by destruct (p x). Qed.

(** No directory is taken for both kinds of store: a root classified as
    KV2 passes the check [KV2::open] starts with, a non-empty root classified
    as experimental is refused by it, and so is one with artifacts of both,
    which the classification rejects. *)
Theorem root_kinds_exclusive (entries : root_entries) :
  match classify_root entries with
  | Ok Kv2 => ensure_not_experimental_storage (λ n, contains_key n entries) = Ok tt
  | Ok Experimental => entries = [] ∨ is_Err (ensure_not_experimental_storage (λ n, contains_key n entries))
  | Err _ => entries ≠ []
  | Panic => False
  end.
Proof.
  unfold classify_root, ensure_not_experimental_storage.
  rewrite (find_existsb _ EXPERIMENTAL_BOOTSTRAP_ARTIFACTS).
  destruct (Z.eqb_spec (len entries) 0) as [Hz|Hz].
  { left. destruct entries; [done|]. rewrite len_cons in Hz. pose proof (len_nonneg entries). lia. }
  assert (entries ≠ []) as Hne by (intros ->; done).
  destruct (List.find _ EXPERIMENTAL_BOOTSTRAP_ARTIFACTS); cbv zeta.
  - rewrite andb_true_r. destruct (existsb _ [_; _; _]); [done|].
    destruct (_ || _); [right; by eexists|]. by destruct (_ && _).
  - rewrite andb_false_r. destruct (existsb _ [_; _; _]); [by destruct (_ && _) | done].
Qed.
