(* ===== verification/Engine.v ===== *)
(** * The storage engine: [src/src/storage/kv2.rs]

    [KV2] puts the managers together: opening a root directory with recovery,
    reads and writes, the maintenance that follows a commit, and the worker
    that runs compactions.  The memtable handle of the read manager is the
    write component's own.  A trigger sent to the worker waits in a channel;
    the sender waits while the channel is full, which only delays it. *)

From S2P Require Import Prelude Bytes OrdMap Search Record Block Bloom Index Footer LegacyBlock SSTable Preflight.
From S2P Require Import WalFormat WalAnalysis Wal Manifest Admission Config Store Read Write Compaction Root.

(** What is found under a root when it is opened: entries that exist, the
    manifest file, the log directory, regular files by path, and what other
    paths lead to. *)
Record RootDisk : Type := mkRootDisk {
  rd_exists : bytes → bool;
  rd_manifest : option bytes;
  rd_wal : WalDir;
  rd_files : ordmap bytes bytes;
  rd_special : ordmap bytes FileKind
}.

(** ** Validation of a listed table *)

Section validation.
Context `{Crc32, FastBloom}.

Fixpoint sum_counts (count : Z) (es : list SparseIndexEntry.t) : option Z :=
  match es with
  | [] => Some count
  | e :: es => count ← checked_add count (SparseIndexEntry.record_count e); sum_counts count es
  end.
(** The loop over index entries and blocks. *)
Fixpoint check_table_blocks (actual_count : Z) (index : list SparseIndexEntry.t) (blocks : list Block.t)
    : res Z :=
  match index, blocks with
  | entry :: index, block :: blocks =>
      records ← ok_or (Block.data block) (Corrupted "SSTable block has no records");
      _ ← guard_err (negb ((len records =? 0)
            || negb (len records =? SparseIndexEntry.record_count entry)
            || negb (bool_decide (MemtableRecord.key <$> head records = Some (SparseIndexEntry.first_key entry)))
            || negb (bool_decide (MemtableRecord.key <$> last records = Some (SparseIndexEntry.last_key entry)))
            || negb (bytes_eqb (Block.first_key block) (SparseIndexEntry.first_key entry))
            || negb (bytes_eqb (Block.last_key block) (SparseIndexEntry.last_key entry))))
          (Corrupted "SSTable block does not match sparse index");
      actual_count ← ok_or (checked_add actual_count (len records)) (Corrupted "SSTable record count overflow");
      check_table_blocks actual_count index blocks
  | _, _ => mret actual_count
  end.
Definition section_offsets_ok (footer : SSTableFooter.t) (file_len : Z) : bool :=
  negb (negb (SSTableFooter.data_block_start footer =? 0)
        || negb (SSTableFooter.data_block_end footer =? SSTableFooter.index_block_start footer)
        || (SSTableFooter.index_block_end footer <? SSTableFooter.index_block_start footer)
        || negb (SSTableFooter.index_block_end footer =? SSTableFooter.bloom_block_start footer)
        || (SSTableFooter.bloom_block_end footer <? SSTableFooter.bloom_block_start footer)
        || negb (bool_decide (checked_add (SSTableFooter.bloom_block_end footer) FOOTER_SIZE = Some file_len))).
(** The checks on the contents of the file. *)
Definition validate_table_file (table : SSTableMeta.t) (file : bytes) : res unit :=
  _ ← guard_err (negb (len file <? FOOTER_SIZE)) (Corrupted "manifest SSTable is shorter than its footer");
  footer ← SSTableCodec.deserialize_footer file;
  _ ← guard_err (section_offsets_ok footer (len file)) (Corrupted "invalid SSTable section offsets");
  _ ← validate file footer;
  checked_index ← read_sstable_sparse_index file footer;
  _ ← read_sstable_bloom file footer;
  '(decoded_footer, index, _) ← SSTableCodec.deserialize_sections file;
  index_records ← ok_or (sum_counts 0 index) (Corrupted "SSTable record count overflow");
  _ ← guard_err (negb ((len index =? 0)
        || negb (len checked_index =? len index)
        || negb (index_records =? SSTableMeta.record_count table)
        || negb (bool_decide (SparseIndexEntry.first_key <$> head index = Some (SSTableMeta.smallest_key table)))
        || negb (bool_decide (SparseIndexEntry.last_key <$> last index = Some (SSTableMeta.largest_key table)))))
      (Corrupted "SSTable index does not match manifest metadata");
  blocks ← SSTableCodec.get_all_blocks file decoded_footer index;
  actual_count ← check_table_blocks 0 index blocks;
  guard_err (actual_count =? SSTableMeta.record_count table)
    (Corrupted "SSTable record count does not match manifest").
Definition validate_manifest_sstable (files : ordmap bytes bytes) (special : ordmap bytes FileKind)
    (table : SSTableMeta.t) : res unit :=
  match om_get (SSTableMeta.path table) special with
  | Some _ => Err (Corrupted "manifest SSTable is not a regular file")
  | None =>
      match om_get (SSTableMeta.path table) files with
      | None => Err (Corrupted "cannot inspect manifest SSTable")
      | Some file => validate_table_file table file
      end
  end.
Fixpoint validate_tables (files : ordmap bytes bytes) (special : ordmap bytes FileKind)
    (tables : list SSTableMeta.t) : res unit :=
  match tables with
  | [] => mret tt
  | table :: tables => _ ← validate_manifest_sstable files special table; validate_tables files special tables
  end.
End validation.

(** ** Recovery *)

(** One recovered record: its entry, the largest sequence number, the size. *)
Definition recover_record (acc : memtable * Z * Z) (record : WALRecord.t) : memtable * Z * Z :=
  let '(recovered, max_lsn, total_size) := acc in
  match WALRecord.record_type record with
  | x01 =>
      let lsn := WALRecord.lsn record in
      (om_insert (WALRecord.key record, lsn) (MemtableRecord.new (WALRecord.value record) Put lsn) recovered,
       Z.max max_lsn lsn,
       wrap64 (total_size + (len (WALRecord.key record) + len (WALRecord.value record))))
  | x02 =>
      let lsn := WALRecord.lsn record in
      (om_insert (WALRecord.key record, lsn) (MemtableRecord.new [] Delete lsn) recovered,
       Z.max max_lsn lsn,
       wrap64 (total_size + len (WALRecord.key record)))
  | _ => acc
  end.
Definition build_recovered_memtable (records : list WALRecord.t) : memtable * Z * Z :=
  foldl recover_record ([], 0, 0) records.

(** ** The engine *)

Module KV2.
Section engine.
Context `{Crc32, FastBloom}.

Record t : Type := mk {
  config : StorageConfig.t;
  write_component : WriteComponent.t;
  triggers : list Z
}.
Definition set_write (s : t) (w : WriteComponent.t) : t := mk (config s) w (triggers s).
Definition on_write {A} (p : eff WriteComponent.t A) : eff t A := λ s,
  let '(r, w) := p (write_component s) in (r, set_write s w).
(** A read goes through the manifest's file cache. *)
Definition on_read {A} (p : (bytes → res bytes) → eff ManifestManager.t A) : eff t A := λ s,
  let w := write_component s in
  let files := WriteComponent.files w in
  let open path := match om_get path files with Some bs => Ok bs | None => Err (IO NotFoundKind) end in
  let '(r, m) := p open (WriteComponent.manifest w) in
  (r, set_write s (WriteComponent.set_manifest w m)).

(** *** Opening *)

Definition open (base_dir : bytes) (root : RootDisk) (config : StorageConfig.t) (token : Z) : res t :=
  _ ← ensure_not_experimental_storage (rd_exists root);
  manifest ← ManifestManager.load_or_create (rd_manifest root);
  let snapshot := ManifestManager.snapshot manifest in
  _ ← validate_tables (rd_files root) (rd_special root) ((ManifestSnapshot.levels snapshot : list _) ≫= snd);
  wal ← Wal.new_inner (rd_wal root) (StorageConfig.wal_segment_size config)
          (ManifestSnapshot.recovery_checkpoint snapshot) true;
  recovered_wal_records ← Wal.recover_records wal;
  (* a failed reclamation is logged and retried later *)
  let wal := match ManifestSnapshot.recovery_checkpoint snapshot with
             | Some checkpoint => snd (Wal.reclaim_checkpointed_segments wal checkpoint)
             | None => wal
             end in
  let '(recovered_memtable, recovered_wal_sequence, recovered_memtable_size) :=
    build_recovered_memtable recovered_wal_records in
  let recovered_sequence := Z.max recovered_wal_sequence
    (match ManifestSnapshot.recovery_checkpoint snapshot with
     | Some checkpoint => committed_sequence checkpoint | None => 0 end) in
  let w := WriteComponent.with_payload_mode (path_join base_dir SSTABLE_DIR) wal manifest (rd_files root)
             recovered_sequence (StorageConfig.bloom_false_positive_rate config) Inline token in
  mret (mk config (WriteComponent.restore_memtable w recovered_memtable recovered_memtable_size) []).

(** The index of an experimental generation: the log is opened by the caller. *)
Definition open_reference_index (index_dir : bytes) (manifest_file : option bytes)
    (files : ordmap bytes bytes) (special : ordmap bytes FileKind) (wal : Wal.t)
    (recovered_memtable : memtable) (recovered_memtable_size recovered_sequence generation : Z)
    (config : StorageConfig.t) (token : Z) : res t :=
  _ ← StorageConfig.validate config;
  manifest ← ManifestManager.load_or_create manifest_file;
  _ ← validate_tables files special
        ((ManifestSnapshot.levels (ManifestManager.snapshot manifest) : list _) ≫= snd);
  let w := WriteComponent.with_payload_mode (path_join index_dir SSTABLE_DIR) wal manifest files
             recovered_sequence (StorageConfig.bloom_false_positive_rate config) (WalReference generation) token in
  mret (mk config (WriteComponent.restore_memtable w recovered_memtable recovered_memtable_size) []).

(** *** Reading *)

Definition current_sequence_number (s : t) : Z :=
  WriteComponent.current_sequence_number (write_component s).
Definition get_record (key : bytes) : eff t (option MemtableRecord.t) := λ s,
  on_read (λ open, ReadManager.get open (WriteComponent.mem (write_component s)) key
                     (current_sequence_number s)) s.
Definition get (key : bytes) : eff t (option bytes) :=
  record ← get_record key;
  mret (match record with
        | Some rec => if is_delete (MemtableRecord.record_type rec) then None else Some (MemtableRecord.value rec)
        | None => None
        end).
Definition scan_records (range : key_range) : eff t (list (bytes * MemtableRecord.t)) := λ s,
  on_read (λ open, ReadManager.scan_records_range open (WriteComponent.mem (write_component s)) range
                     (current_sequence_number s)) s.
Definition scan (range : key_range) : eff t (list (bytes * bytes)) := λ s,
  on_read (λ open, ReadManager.scan_range open (WriteComponent.mem (write_component s)) range
                     (current_sequence_number s)) s.

(** *** Writing *)

Definition maybe_flush_and_compact (ff : FlushFaults) : eff t unit := λ s,
  if WriteComponent.memtable_size (write_component s) <? StorageConfig.memtable_size_threshold (config s)
  then (Ok tt, s)
  else
    (_ ← on_write (WriteComponent.flush_active_memtable ff);
     ((λ s,
       let snapshot := ManifestManager.snapshot (WriteComponent.manifest (write_component s)) in
       let level0_count := match om_get 0 (ManifestSnapshot.levels snapshot) with
                           | Some files => len files | None => 0 end in
       if StorageConfig.max_level0_files (config s) <=? level0_count
       then (Ok tt, mk (config s) (write_component s) (triggers s ++ [0]))
       else (Ok tt, s)) : eff t unit)) s.
(** An error of the maintenance is logged; a panic is one of the whole call. *)
Definition maintain_after_commit (ff : FlushFaults) : eff t unit := λ s,
  match maybe_flush_and_compact ff s with
  | (Panic, s) => (Panic, s)
  | (_, s) => (Ok tt, s)
  end.

(** What a write can run into: the log, and the flush that may follow. *)
Record WriteFaults : Type := mkWriteFaults {
  wf_rotate : option Wal.RotateFault;
  wf_write : option Wal.WriteFault;
  wf_flush : FlushFaults
}.
Definition put (key value : bytes) (f : WriteFaults) : eff t unit :=
  _ ← on_write (WriteComponent.put key value (wf_rotate f) (wf_write f));
  maintain_after_commit (wf_flush f).
Definition delete (key : bytes) (f : WriteFaults) : eff t unit :=
  _ ← on_write (WriteComponent.delete key (wf_rotate f) (wf_write f));
  maintain_after_commit (wf_flush f).
Definition write_batch (operations : list BatchOperation) (f : WriteFaults) : eff t unit :=
  match operations with
  | [] => mret tt
  | _ =>
      _ ← on_write (WriteComponent.write_batch operations (wf_rotate f) (wf_write f));
      maintain_after_commit (wf_flush f)
  end.
Definition flush_reference_memtable (ff : FlushFaults) : eff t Z :=
  result ← on_write (WriteComponent.flush_active_memtable ff);
  mret (CheckpointResult.record_count result).

(** *** The compaction worker *)

(** One trigger: up to [fuel] compactions, cancelled after [checks] checks.
    The result is only logged. *)
Definition run_trigger (fuel : nat) (level : Z) (cf : CompactionFaults) (checks : option nat) : eff t unit := λ s,
  let w := write_component s in
  let '(r, d) := compact_levels fuel level (config s) cf
                   (mkDisk (WriteComponent.manifest w) (WriteComponent.files w) checks) in
  (match r with Panic => Panic | _ => Ok tt end,
   set_write s (WriteComponent.set_files (WriteComponent.set_manifest w (d_manifest d)) (d_files d))).
Definition run_compaction_worker (fuel : nat) (cf : CompactionFaults) (checks : option nat) : eff t unit := λ s,
  match triggers s with
  | [] => (Ok tt, s)
  | level :: rest => run_trigger fuel level cf checks (mk (config s) (write_component s) rest)
  end.
(** [shutdown]: the worker drains the channel before it stops. *)
Fixpoint drain_triggers (fuel : nat) (ls : list Z) (cf : CompactionFaults) (checks : option nat) : eff t unit :=
  match ls with
  | [] => mret tt
  | level :: ls => _ ← run_trigger fuel level cf checks; drain_triggers fuel ls cf checks
  end.
Definition shutdown (fuel : nat) (cf : CompactionFaults) (checks : option nat) : eff t unit := λ s,
  drain_triggers fuel (triggers s) cf checks (mk (config s) (write_component s) []).
End engine.
End KV2.
