(* ===== verification/OpenTheory.v ===== *)
(** * What opening a root checks and rebuilds

    Every table the writers list passes the validation of [KV2::open]; the
    memtable recovery rebuilds holds the records of the log; reclaiming the
    segments below a checkpoint leaves the log as it is. *)

From stdpp Require Import sets sorting.
From Stdlib Require Import Sorted.
From S2P Require Import Prelude Bytes OrdMap Search Record Block Bloom Index Footer LegacyBlock SSTable Preflight.
From S2P Require Import WalFormat WalAnalysis Wal WalCrash WalRefine Manifest ManifestTheory Config Store Read ReadTheory.
From S2P Require Import Tables Write WriteTheory Compaction Root Engine.

(** ** Validation *)

Section validation.
Context `{Crc32Spec, FastBloomSpec}.
Implicit Types (c : SSTableCodec.t) (bs : list Block.t).

Lemma index_section_read c :
  table_wf c → read_sstable_sparse_index (SSTableCodec.serialize c).1 (footer_of c) = Ok (table_index c).
Proof.
  intros Hc. pose proof (index_from_entries_ok c Hc) as Hok. pose proof (index_len_ok c Hc) as Hl.
  pose proof (tw_size c Hc) as Hs. rewrite serialize_layout in Hs |- *. cbn [fst] in *. rewrite !len_app in Hs.
  set (db := blocks_bytes _) in *. set (ib := encode_index _) in *. set (bb := BloomFilterWrapper.encode _) in *.
  pose proof (len_nonneg db). pose proof (len_nonneg ib). pose proof (len_nonneg bb).
  pose proof (len_nonneg (SSTableFooter.encode (footer_of c))). unfold read_sstable_sparse_index, footer_of.
  cbn [SSTableFooter.index_block_start SSTableFooter.index_block_end SSTableFooter.index_checksum]. fold db ib.
  rewrite (read_section_app db ib) by (try done; lia). cbn [mbind res_bind]. unfold verify_index_checksum.
  rewrite Z.eqb_refl. cbn [mbind res_bind]. pose proof (read_index_run (table_index c) [] Hok Hl) as Hr.
  rewrite app_nil_r in Hr. change SparseIndexEntry.async_decode with SparseIndexEntry.decode in Hr.
  unfold ib. fold (table_index c). by rewrite Hr.
Qed.
Lemma bloom_section_read c :
  table_wf c → ∃ w, read_sstable_bloom (SSTableCodec.serialize c).1 (footer_of c) = Ok w.
Proof.
  intros Hc. pose proof (tw_size c Hc) as Hs. rewrite serialize_layout in Hs |- *. cbn [fst] in *. rewrite !len_app in Hs.
  set (db := blocks_bytes _) in *. set (ib := encode_index _) in *. set (bb := BloomFilterWrapper.encode _) in *.
  pose proof (len_nonneg db). pose proof (len_nonneg ib). pose proof (len_nonneg bb).
  pose proof (len_nonneg (SSTableFooter.encode (footer_of c))). unfold read_sstable_bloom, footer_of.
  cbn [SSTableFooter.bloom_block_start SSTableFooter.bloom_block_end SSTableFooter.bloom_checksum]. fold db ib bb.
  rewrite (assoc_L (++) db ib), (read_section_app (db ++ ib) bb) by (rewrite ?len_app; try done; lia).
  cbn [mbind res_bind]. unfold verify_bloom_checksum. rewrite Z.eqb_refl. cbn [mbind res_bind].
  destruct (bloom_decode_encode (SSTableCodec.bloom c) [] (tw_bloom c Hc)) as (w & Hw & _).
  rewrite app_nil_r in Hw. exists w. unfold bb. by rewrite Hw.
Qed.
Lemma footer_section_read c :
  table_wf c → SSTableCodec.deserialize_footer (SSTableCodec.serialize c).1 = Ok (footer_of c) ∧
  section_offsets_ok (footer_of c) (len (SSTableCodec.serialize c).1) = true ∧
  FOOTER_SIZE <= len (SSTableCodec.serialize c).1.
Proof.
  intros Hc. pose proof (footer_of_ok c Hc) as Hok. pose proof (tw_size c Hc) as Hs.
  rewrite serialize_layout in Hs |- *. cbn [fst] in *.
  split; [unfold SSTableCodec.deserialize_footer; rewrite !(assoc_L (++)); by apply async_footer_run|].
  rewrite !len_app, footer_encode_len in Hs |- *. unfold section_offsets_ok, footer_of.
  cbn [SSTableFooter.data_block_start SSTableFooter.data_block_end SSTableFooter.index_block_start
       SSTableFooter.index_block_end SSTableFooter.bloom_block_start SSTableFooter.bloom_block_end].
  set (db := blocks_bytes _) in *. set (ib := encode_index _) in *. set (bb := BloomFilterWrapper.encode _) in *.
  pose proof (len_nonneg db). pose proof (len_nonneg ib). pose proof (len_nonneg bb). split; [|lia].
  rewrite !Z.eqb_refl. cbn [negb orb]. rewrite !(proj2 (Z.ltb_ge _ _)) by lia. cbn [negb orb].
  rewrite bool_decide_true; [done|]. unfold FOOTER_SIZE in *. rewrite checked_add_run by word_lia. f_equal. lia.
Qed.

Lemma sum_counts_blocks bs off n :
  Forall block_wf bs → 0 <= n → n + len (blocks_records bs) <= u64_max →
  sum_counts n (index_from off bs) = Some (n + len (blocks_records bs)).
Proof.
  intros Hbs. revert off n. induction Hbs as [|b bs Hb Hbs IH]; intros off n Hn Hmax; cbn [index_from sum_counts].
  { change (len (blocks_records [])) with 0. by rewrite Z.add_0_r. }
  change (blocks_records (b :: bs)) with (block_records b ++ blocks_records bs) in *. rewrite len_app in Hmax |- *.
  pose proof (len_nonneg (block_records b)). pose proof (len_nonneg (blocks_records bs)).
  cbn [SparseIndexEntry.record_count]. rewrite (bwf_count b Hb), checked_add_run by lia. cbn [mbind option_bind].
  rewrite IH by lia. f_equal. lia.
Qed.
Lemma check_blocks_pass bs off n :
  Forall block_wf bs → 0 <= n → n + len (blocks_records bs) <= u64_max →
  check_table_blocks n (index_from off bs) (at_offset 0 <$> bs) = Ok (n + len (blocks_records bs)).
Proof.
  intros Hbs. revert off n. induction Hbs as [|b bs Hb Hbs IH]; intros off n Hn Hmax.
  { change (len (blocks_records [])) with 0. by rewrite Z.add_0_r. }
  change (blocks_records (b :: bs)) with (block_records b ++ blocks_records bs) in *. rewrite len_app in Hmax |- *.
  pose proof (len_nonneg (block_records b)) as Hlb. pose proof (len_nonneg (blocks_records bs)).
  cbn [index_from]. rewrite fmap_cons. cbn [check_table_blocks]. change (Block.data (at_offset 0 b)) with (Block.data b).
  change (Block.first_key (at_offset 0 b)) with (Block.first_key b). change (Block.last_key (at_offset 0 b)) with (Block.last_key b).
  cbn [Block.data Block.first_key Block.last_key SparseIndexEntry.first_key SparseIndexEntry.last_key SparseIndexEntry.record_count].
  rewrite (bwf_data b Hb). cbn [ok_or mbind res_bind]. rewrite (bwf_count b Hb), Z.eqb_refl.
  rewrite (bwf_first b Hb), (bwf_last b Hb). pose proof (bwf_nonempty b Hb) as Hne.
  destruct (Z.eqb_spec (len (block_records b)) 0) as [Hz|_].
  { destruct Hne. destruct (block_records b); [done|]. rewrite len_cons in Hz. pose proof (len_nonneg l). lia. }
  cbn [negb orb].
  assert (MemtableRecord.key <$> head (block_records b) = Some (first_of (block_records b))) as Hf
    by (unfold first_of; by destruct (block_records b)).
  assert (MemtableRecord.key <$> last (block_records b) = Some (last_of (block_records b))) as Hl.
  { unfold last_of. destruct (last (block_records b)) eqn:E; [done|]. by apply last_None in E. }
  rewrite !bool_decide_true by done. rewrite !(proj2 (bytes_eqb_eq _ _)) by done. cbn [negb orb guard_err mbind res_bind].
  rewrite checked_add_run by lia. cbn [ok_or mbind res_bind]. rewrite IH by lia. f_equal. lia.
Qed.

Lemma blocks_records_len bs : Forall block_wf bs → len (blocks_records bs) <= len (blocks_bytes bs).
Proof.
  induction 1 as [|b bs Hb _ IH]; [done|].
  change (blocks_records (b :: bs)) with (block_records b ++ blocks_records bs).
  rewrite blocks_bytes_cons, !len_app, (block_encode_len b (bwf_data b Hb)). pose proof (records_size_len (block_records b)).
  pose proof (len_nonneg (block_records b)).
  pose proof (len_nonneg (Block.first_key b)). pose proof (len_nonneg (Block.last_key b)). lia.
Qed.

Lemma table_file_len file rs : table_file file rs → len rs <= isize_max.
Proof.
  intros (c & _ & [Hc _] & <- & _). pose proof (blocks_records_len _ (tw_blocks c Hc)) as Hle. pose proof (tw_size c Hc) as Hs.
  rewrite serialize_layout in Hs. cbn [fst] in Hs. rewrite len_app in Hs. unfold table_records.
  match type of Hs with _ + len ?y <= _ => pose proof (len_nonneg y) end. lia.
Qed.
Lemma index_from_snoc off bs b :
  index_from off (bs ++ [b]) = index_from off bs ++
    [SparseIndexEntry.mk (Block.first_key b) (off + len (blocks_bytes bs)) (Block.last_key b) (Block.record_count b)].
Proof.
  revert off. induction bs as [|b' bs IH]; intros off; cbn [index_from app].
  - change (blocks_bytes []) with (@nil byte). by rewrite len_nil, Z.add_0_r.
  - rewrite IH, blocks_bytes_cons, len_app. by rewrite Z.add_assoc.
Qed.
Lemma index_from_ends bs off :
  Forall block_wf bs → bs ≠ [] →
  SparseIndexEntry.first_key <$> head (index_from off bs) = Some (first_of (blocks_records bs)) ∧
  SparseIndexEntry.last_key <$> last (index_from off bs) = Some (last_of (blocks_records bs)).
Proof.
  intros Hw Hne. split.
  - destruct bs as [|b bs]; [done|]. apply Forall_cons_1 in Hw as [Hb _]. simpl. by rewrite (blocks_first b bs Hb).
  - destruct bs as [|b bs] using rev_ind; [done|]. apply Forall_app in Hw as [_ [Hb _]%Forall_cons_1].
    rewrite index_from_snoc, last_snoc. simpl. by rewrite <- (blocks_last bs b Hb).
Qed.

(** A table file with metadata that agrees with its records passes. *)
Lemma validate_table_ok x file rs :
  table_file file rs → SSTableMeta.smallest_key x = first_of rs → SSTableMeta.largest_key x = last_of rs →
  SSTableMeta.record_count x = len rs → validate_table_file x file = Ok tt.
Proof.
  intros Htf. pose proof Htf as (c & -> & [Hc Hsh] & Hr & Hne & _). intros Hsm Hla Hcnt. unfold validate_table_file.
  destruct (footer_section_read c Hc) as (Hf & Hso & Hmin).
  rewrite (proj2 (Z.ltb_ge _ _)) by done. cbn [negb guard_err mbind res_bind]. rewrite Hf. cbn [mbind res_bind].
  rewrite Hso. cbn [guard_err mbind res_bind].
  pose proof (validate_serialized c Hc Hsh) as Hv.
  replace (SSTableCodec.serialize c).2 with (footer_of c) in Hv by (by rewrite serialize_layout).
  rewrite Hv. cbn [mbind res_bind]. rewrite (index_section_read c Hc). cbn [mbind res_bind].
  destruct (bloom_section_read c Hc) as (w & ->). cbn [mbind res_bind].
  destruct (deserialize_serialize c Hc) as (bloom & -> & _). cbn [mbind res_bind].
  pose proof (tw_blocks c Hc) as Hb. unfold table_records in Hr.
  assert (len rs <= u64_max) as Hmax by (pose proof (table_file_len _ _ Htf); word_lia).
  unfold table_index. rewrite (sum_counts_blocks _ 0 0 Hb) by (rewrite ?Hr; lia). rewrite Hr, Z.add_0_l.
  cbn [ok_or mbind res_bind]. rewrite Z.eqb_refl, Hcnt, Z.eqb_refl, Hsm, Hla.
  assert (SSTableCodec.blocks c ≠ []) as Hnb by (intros He; rewrite He in Hr; by subst rs).
  destruct (index_from_ends (SSTableCodec.blocks c) 0 Hb Hnb) as [Hh Hla']. rewrite Hr in Hh, Hla'.
  rewrite !bool_decide_true by done.
  destruct (Z.eqb_spec (len (index_from 0 (SSTableCodec.blocks c))) 0) as [Hz|_].
  { unfold len in Hz. rewrite index_from_length in Hz. by destruct (SSTableCodec.blocks c). }
  cbn [negb orb guard_err mbind res_bind]. fold (table_index c). rewrite (get_all_blocks_serialized c Hc).
  cbn [mbind res_bind]. unfold table_index. rewrite (check_blocks_pass _ 0 0 Hb) by (rewrite ?Hr; lia).
  rewrite Hr, Z.add_0_l. cbn [mbind res_bind]. by rewrite Z.eqb_refl.
Qed.
Lemma validate_tables_ok files xs :
  tables_inv files (λ x, x ∈ xs) → validate_tables files [] xs = Ok tt.
Proof.
  intros Ht. assert (∀ x, x ∈ xs → validate_manifest_sstable files [] x = Ok tt) as Hv.
  { intros x Hx. destruct (ti_holds _ _ Ht x Hx) as (bs & Ho & Hf & Hs & Hl). simpl in *. unfold validate_manifest_sstable.
    simpl. unfold open_of in Ho. destruct (om_get (SSTableMeta.path x) files); [|done]. injection Ho as ->.
    eapply validate_table_ok; [exact Hf | done | done | by apply (ti_count _ _ Ht)]. }
  clear Ht. induction xs as [|x xs IH]; [done|]. simpl. rewrite Hv by (by left). simpl. apply IH. intros y Hy. apply Hv. by right.
Qed.
End validation.

(** ** Reclaiming below a checkpoint *)

Section reclaim.
Context `{Crc32Spec}.
Implicit Types (w : Wal.t) (d : WalDir) (c : RecoveryCheckpoint).

Lemma om_remove_above (id : Z) (m : ordmap Z bytes) : Forall (λ p, id < fst p) m → om_remove id m = m.
Proof.
  intros Hm. unfold om_remove. induction Hm as [|p m Hp _ IH]; [done|]. cbn [List.filter].
  destruct (kcmp id (fst p)) eqn:E; [apply kcmp_eq in E; lia | by rewrite IH..].
Qed.
Lemma log_state_remove c d segs0 n fs file next recs id :
  id < replay_start_segment c → log_state (Some c) d segs0 n fs file next recs →
  log_state (Some c) (set_segs d (om_remove id (wd_segs d))) segs0 n fs file next recs.
Proof.
  intros Hid [Hf (old & Hd & Hold) Hw Ha Hfst Hg Hok Hlog]. split; simpl; try done; [|by apply om_remove_wf].
  exists (om_remove id old). split; [|by apply filter_Forall].
  rewrite Hd. unfold om_remove at 1. rewrite List.filter_app. f_equal. apply om_remove_above.
  apply Forall_forall. intros p Hp. assert (above_floor (Some c) (fst p)) as Hfl; [|simpl in Hfl; lia].
  rewrite Forall_forall in Ha. apply Ha. apply elem_of_app in Hp as [(s & -> & Hs)%list_elem_of_fmap| ->%list_elem_of_singleton].
  - apply elem_of_app. left. simpl. by apply list_elem_of_fmap_2.
  - apply elem_of_app. right. by left.
Qed.
Lemma remove_keeps cs w c recs :
  Forall (λ x, Wal.covered_id x < replay_start_segment c) cs → wal_inv w recs → Wal.checkpoint w = Some c →
  let w' := (Wal.remove_covered w cs).2 in
  (Wal.remove_covered w cs).1 ≠ Panic ∧ wal_inv w' recs ∧ Wal.checkpoint w' = Some c.
Proof.
  intros Hcs. revert w. induction Hcs as [|x cs Hx _ IH]; intros w Hi Hc; [done|].
  destruct Hi as (Hp & Hn & segs0 & fs & Hls & Hs). rewrite Hc in Hls.
  destruct x as [id|id e]; cbn [Wal.remove_covered].
  - apply IH; [|done]. split_and!; [done | apply Hn | apply Hn |]. exists segs0, fs. simpl. rewrite Hc. split; [|done].
    by apply log_state_remove.
  - destruct (fe_kind e); simpl.
    + apply IH; [|done]. split_and!; [done | apply Hn | apply Hn |]. exists segs0, fs. simpl. rewrite Hc. split; [|done].
      destruct Hls. split; simpl; try done. by apply check_foreign_filter.
    + split; [done|]. split; [|done]. split_and!; [done | apply Hn | apply Hn |]. exists segs0, fs. by rewrite Hc.
    + apply IH; [|done]. split_and!; [done | apply Hn | apply Hn |]. exists segs0, fs. by rewrite Hc.
    + apply IH; [|done]. split_and!; [done | apply Hn | apply Hn |]. exists segs0, fs. by rewrite Hc.
Qed.
(** Reclaiming again below the checkpoint a log was opened with. *)
Lemma reclaim_keeps w c recs :
  wal_inv w recs → Wal.checkpoint w = Some c →
  let w' := (Wal.reclaim_checkpointed_segments w c).2 in wal_inv w' recs ∧ Wal.checkpoint w' = Some c.
Proof.
  intros Hi Hc. unfold Wal.reclaim_checkpointed_segments. destruct (negb (Wal.checkpoint_owner w)); [done|].
  unfold Wal.ensure_healthy. rewrite (proj1 Hi). cbn [negb guard_err]. destruct (_ || _); [done|].
  destruct (remove_keeps (Wal.covered_entries (Wal.dir (Wal.set_checkpoint w (Some c))) (replay_start_segment c))
    (Wal.set_checkpoint w (Some c)) c recs) as (_ & ? & ?); [apply covered_entries_below | | done | done].
  destruct Hi as (Hp & Hn & segs0 & fs & Hls & Hs). split_and!; [done | apply Hn | apply Hn |].
  exists segs0, fs. simpl. by rewrite <- Hc.
Qed.
End reclaim.

(** ** Segment numbers are unsigned *)

Section typed.
Context `{Crc32}.
Implicit Types (w : Wal.t) (d : WalDir).

Definition dir_typed d : Prop := Forall (λ p, 0 <= fst p) (wd_segs d).
Definition wal_typed w : Prop := 0 <= Wal.segment_id w ∧ dir_typed (Wal.dir w).

Lemma dir_typed_insert d id file : 0 <= id → dir_typed d → dir_typed (set_segs d (om_insert id file (wd_segs d))).
Proof. intros Hid Hd. by apply (om_insert_Forall (λ k, 0 <= k)). Qed.
Lemma dir_typed_remove d id : dir_typed d → dir_typed (set_segs d (om_remove id (wd_segs d))).
Proof. apply filter_Forall. Qed.
Lemma write_active_typed w bs : wal_typed w → wal_typed (Wal.write_active w bs).
Proof. intros [Hi Hd]. split; [done|]. by apply dir_typed_insert. Qed.
Lemma create_segment_typed d id fault : 0 <= id → dir_typed d → dir_typed (Wal.create_segment d id fault).2.
Proof.
  intros Hid Hd. unfold Wal.create_segment. repeat case_match; simpl; try done; by apply dir_typed_insert.
Qed.
(** A rotation changes the segment, and at most poisons. *)
Lemma rotate_locked_frame w fault :
  wal_typed w → let w' := (Wal.rotate_locked w fault).2 in
  wal_typed w' ∧ Wal.checkpoint w' = Wal.checkpoint w ∧ Wal.checkpoint_owner w' = Wal.checkpoint_owner w ∧
  Wal.poisoned w' = Wal.poisoned w ∧ (is_Ok (Wal.rotate_locked w fault).1 → Wal.segment_id w' <= u64_max).
Proof.
  intros [Hi Hd]. unfold Wal.rotate_locked.
  assert (∀ f, let x := match checked_add (Wal.segment_id w) 1 with
      | None => (Err (StorageError "WAL segment ID exhausted"), w)
      | Some next_id =>
          match Wal.create_segment (Wal.dir w) next_id f with
          | (Ok _, d) => (Ok tt, Wal.mk d next_id WAL_HEADER_SIZE (Wal.next_lsn w) (Wal.poisoned w)
              (om_insert (Wal.segment_id w) tt (Wal.sealed w)) (Wal.checkpoint w) (Wal.max_segment_size w) (Wal.raw_writes w)
              (Wal.checkpoint_owner w) (Wal.checkpoint_owner_registered w) (Wal.checkpoint_token w))
          | (r, d) => (r, Wal.set_dir w d)
          end
      end in
    wal_typed x.2 ∧ Wal.checkpoint x.2 = Wal.checkpoint w ∧ Wal.checkpoint_owner x.2 = Wal.checkpoint_owner w ∧
    Wal.poisoned x.2 = Wal.poisoned w ∧ (is_Ok x.1 → Wal.segment_id x.2 <= u64_max)) as Hall.
  { intros f. destruct (checked_add (Wal.segment_id w) 1) as [j|] eqn:E; [|split_and!; try done; by intros []].
    apply checked_add_Some in E as [-> Hmax].
    pose proof (create_segment_typed (Wal.dir w) (Wal.segment_id w + 1) f ltac:(lia) Hd) as Hc.
    destruct (Wal.create_segment _ _ _) as [[u|e|] d]; cbn [fst snd] in Hc |- *;
      (split; [split|]); try done; [simpl; lia | split_and!; try done; by intros [] ..]. }
  destruct fault as [[k [i|]]|]; [apply Hall | split_and!; try done; by intros [] | apply Hall].
Qed.
Lemma rotate_frame w fault r w' :
  wal_typed w → Wal.rotate_wal_file w fault = (r, w') →
  wal_typed w' ∧ Wal.checkpoint w' = Wal.checkpoint w ∧ Wal.checkpoint_owner w' = Wal.checkpoint_owner w ∧
  (Wal.poisoned w = true → w' = w ∧ is_Err r) ∧ (∀ id, r = Ok id → id = Wal.segment_id w' ∧ is_u64 id ∧ Wal.poisoned w = false).
Proof.
  intros Ht. unfold Wal.rotate_wal_file, Wal.ensure_healthy. destruct (Wal.poisoned w) eqn:Hp; cbn [negb guard_err].
  { intros [= <- <-]. split_and!; try done. intros _. split; [done | by eexists]. }
  pose proof (rotate_locked_frame (Wal.set_poisoned w true) fault Ht) as Hr.
  destruct (Wal.rotate_locked _ fault) as [[u|e|] w1]; intros [= <- <-]; simpl in *;
    destruct Hr as (Hty & Hck & Hown & Hpo & Hmax); (split; [done|]);
    (split; [done|]); (split; [done|]); (split; [intros; congruence|]); try (intros; congruence).
  intros id [= <-]. split_and!; [done | split; [apply Hty | apply Hmax; by eexists] | done].
Qed.
Lemma append_typed w gs col rf wf : wal_typed w → wal_typed (Wal.append_transactions w gs col rf wf).2.
Proof.
  intros Ht. unfold Wal.append_transactions. case_bool_decide; [done|]. destruct (MAX_GROUP_COUNT <? len gs); [done|].
  match goal with |- context [match ?x with Ok _ => _ | Err _ => _ | Panic => _ end] => destruct x as [[[bs next] pts]|e|] end;
    [|done|done]. cbv zeta.
  pose proof (rotate_locked_frame (Wal.set_poisoned w true) rf Ht) as (Hr & _).
  match goal with |- context [if ?c then Wal.rotate_locked ?a ?f else ?y] =>
    set (x := if c then Wal.rotate_locked a f else y); assert (wal_typed x.2) as Hx by (unfold x; by destruct c) end.
  destruct x as [r w1]. simpl in Hx.
  match goal with |- context [match ?x with Ok _ => _ | Err _ => _ | Panic => _ end] => destruct x end; [|done|done].
  destruct wf as [[k i]|]; simpl; by apply write_active_typed.
Qed.
Lemma remove_typed cs w : wal_typed w → wal_typed (Wal.remove_covered w cs).2.
Proof.
  revert w. induction cs as [|[id|id e] cs IH]; intros w Ht; cbn [Wal.remove_covered]; [done| |].
  - apply IH. destruct Ht. split; [done|]. by apply dir_typed_remove.
  - destruct (fe_kind e); [by apply IH | done | by apply IH | by apply IH].
Qed.
Lemma reclaim_typed w c : wal_typed w → wal_typed (Wal.reclaim_checkpointed_segments w c).2.
Proof.
  intros Ht. unfold Wal.reclaim_checkpointed_segments. destruct (negb _); [done|].
  destruct (Wal.ensure_healthy w); [|done|done]. destruct (_ || _); [done|]. by apply remove_typed.
Qed.
Lemma append_engine_typed w gs owner col rf wf :
  wal_typed w → wal_typed (Wal.append_engine_transactions w gs owner col rf wf).2.
Proof. intros Ht. unfold Wal.append_engine_transactions. apply append_typed. by destruct (Wal.owns_checkpoint w owner). Qed.
Lemma dir_typed_ids d d' : fst <$> (wd_segs d' : list _) = fst <$> (wd_segs d : list _) → dir_typed d → dir_typed d'.
Proof.
  unfold dir_typed. rewrite !Forall_forall. intros He Hd p Hp. apply (list_elem_of_fmap_2 fst) in Hp.
  rewrite He in Hp. apply list_elem_of_fmap in Hp as (q & -> & Hq). by apply Hd.
Qed.
End typed.

(** ** The recovered memtable *)

(** The record a logged command stands for. *)
Definition rec_of (c : LogCommand.t) : MemtableRecord.t :=
  MemtableRecord.mk (LogCommand.record_type c) (LogCommand.lsn c) (LogCommand.key c)
    (match LogCommand.record_type c with Put => LogCommand.value c | Delete => [] end).

Lemma mem_insert (m : memtable) k n r :
  mem_ok m → MemtableRecord.lsn r = n → is_u64 n →
  (∀ x, x ∈ mem_records m → MemtableRecord.lsn x ≠ n) →
  mem_ok (om_insert (k, n) r m) ∧
  ∀ x, x ∈ mem_records (om_insert (k, n) r m) ↔ x = MemtableRecord.with_key r k ∨ x ∈ mem_records m.
Proof.
  intros Hm Hl Hn Hfresh. pose proof Hm as [Hw Hf].
  assert (om_get (k, n) m = None) as Hnone.
  { destruct (om_get (k, n) m) as [x|] eqn:E; [|done]. apply om_get_Some in E; [|done].
    destruct (Hfresh (mem_record ((k, n), x))); [apply elem_of_mem_records; eauto|].
    rewrite Forall_forall in Hf. by destruct (Hf _ E). }
  pose proof (om_insert_perm (k, n) r m Hnone) as Hp. split.
  - split; [by apply om_insert_wf|]. rewrite Hp. by constructor.
  - intros x. rewrite !elem_of_mem_records. setoid_rewrite Hp. setoid_rewrite elem_of_cons. split.
    + intros (e & [->|He] & ->); [by left | right; eauto].
    + intros [->|(e & He & ->)]; [exists ((k, n), r); auto | eauto].
Qed.

Definition increasing (rs : list MemtableRecord.t) : Prop :=
  StronglySorted (λ r r', MemtableRecord.lsn r < MemtableRecord.lsn r') rs.
Lemma increasing_app xs ys :
  increasing (xs ++ ys) ↔ increasing xs ∧ increasing ys ∧
    ∀ x y, x ∈ xs → y ∈ ys → MemtableRecord.lsn x < MemtableRecord.lsn y.
Proof. unfold increasing. rewrite StronglySorted_app. naive_solver. Qed.

Lemma recovered_records recs log :
  cmds_of recs log → increasing (rec_of <$> log) → Forall typed log →
  ∃ mem mx size, build_recovered_memtable recs = (mem, mx, size) ∧ mem_ok mem ∧ is_u64 mx ∧
    (∀ r, r ∈ mem_records mem ↔ r ∈ rec_of <$> log) ∧
    ∀ r, r ∈ rec_of <$> log → MemtableRecord.lsn r <= mx.
Proof.
  intros Hc Hi Ht. unfold build_recovered_memtable.
  induction recs as [|r recs IH] using rev_ind in log, Hc, Hi, Ht |- *.
  { apply Forall2_nil_inv_l in Hc as ->. exists [], 0, 0. split_and!; [done | split; [apply om_wf_nil | constructor] | word_lia | done | set_solver]. }
  apply Forall2_app_inv_l in Hc as (log1 & log2 & Hc1 & Hc2 & ->).
  apply Forall2_cons_inv_l in Hc2 as (c & log3 & [ck ->] & ->%Forall2_nil_inv_l & ->).
  rewrite fmap_app in Hi |- *. apply increasing_app in Hi as (Hi1 & _ & Hlt).
  apply Forall_app in Ht as [Ht1 [Hty _]%Forall_cons_1].
  destruct (IH log1 Hc1 Hi1 Ht1) as (mem & mx & size & Hf & Hm & Hmx & Hrs & Hle). rewrite foldl_snoc, Hf.
  destruct (mem_insert mem (LogCommand.key c) (LogCommand.lsn c)
    (MemtableRecord.new (MemtableRecord.value (rec_of c)) (LogCommand.record_type c) (LogCommand.lsn c))) as [Hm' Hrs'];
    [done | done | done | |].
  { intros x Hx%Hrs. specialize (Hlt x (rec_of c) Hx ltac:(by left)). simpl in Hlt. lia. }
  assert (∃ size', recover_record (mem, mx, size) (record_of_command c ck) =
    (om_insert (LogCommand.key c, LogCommand.lsn c)
       (MemtableRecord.new (MemtableRecord.value (rec_of c)) (LogCommand.record_type c) (LogCommand.lsn c)) mem,
     Z.max mx (LogCommand.lsn c), size')) as (size' & ->) by (destruct c as [[] ? ? ?]; eexists; reflexivity).
  eexists _, _, size'. split; [done|]. split_and!; [done | unfold typed in Hty; word_lia | |].
  - intros x. rewrite Hrs', Hrs, elem_of_app. simpl. rewrite list_elem_of_singleton. unfold rec_of, MemtableRecord.with_key. simpl. tauto.
  - intros x [Hx| ->%list_elem_of_singleton]%elem_of_app; [specialize (Hle x Hx); lia | simpl; lia].
Qed.
