(* ===== verification/EngineTheory.v ===== *)
(** * The engine keeps its history

    The engine is a history of committed records: whatever its memtable, its
    tables, its log and its manifest look like, a read shows the newest record
    of every key of the history, and a restart finds the history again. *)

From stdpp Require Import sets sorting.
From Stdlib Require Import Sorted.
From S2P Require Import Prelude Bytes OrdMap Search Record Block Bloom Index Footer LegacyBlock SSTable Preflight.
From S2P Require Import WalFormat WalAnalysis Wal WalCrash WalRefine Manifest ManifestTheory Admission Config Store Read.
From S2P Require Import ReadTheory Tables Write WriteTheory Compaction CompactionTheory Root Engine OpenTheory.

Abbreviation recovery m := (ManifestState.recovery_checkpoint (ManifestManager.state m)).

(** ** Histories *)

Lemma increasing_inj rs r r' :
  increasing rs → r ∈ rs → r' ∈ rs → MemtableRecord.lsn r = MemtableRecord.lsn r' → r = r'.
Proof.
  intros Hs. revert r r'. induction Hs as [|x rs Hs IH Hf]; [by intros r r' ?%elem_of_nil|]. rewrite Forall_forall in Hf.
  intros r r' [->|Hr]%elem_of_cons [->|Hr']%elem_of_cons Hl; [done | | |by apply IH].
  - specialize (Hf r' Hr'). lia.
  - specialize (Hf r Hr). lia.
Qed.
Lemma increasing_unique rs : increasing rs → lsn_unique rs.
Proof. intros Hs r r' Hr Hr' _. by apply (increasing_inj rs). Qed.
(** A record of a suffix is newer than any record outside it. *)
Lemma increasing_split n rs r r' :
  increasing rs → r ∈ drop n rs → r' ∈ rs → r' ∈ drop n rs ∨ MemtableRecord.lsn r' < MemtableRecord.lsn r.
Proof.
  intros Hi Hr Hr'. rewrite <- (take_drop n rs) in Hi, Hr'. apply increasing_app in Hi as (_ & _ & Hlt).
  apply elem_of_app in Hr' as [?|?]; [right; auto | by left].
Qed.
Lemma elem_of_drop {A} n (xs : list A) x : x ∈ drop n xs → x ∈ xs.
Proof. intros Hx. rewrite <- (take_drop n xs). apply elem_of_app. by right. Qed.
Lemma drop_mono {A} a b (xs : list A) x : (a <= b)%nat → x ∈ drop b xs → x ∈ drop a xs.
Proof. intros Hab Hx. replace b with (a + (b - a))%nat in Hx by lia. rewrite <- drop_drop in Hx. by eapply elem_of_drop. Qed.
Lemma newest_suffix n k rs r :
  increasing rs → newest k (drop n rs) = Some r → newest k rs = Some r.
Proof.
  intros Hi Hn. pose proof (newest_spec k (drop n rs)) as Hs. rewrite Hn in Hs. destruct Hs as (Hr & Hk & Hmax).
  apply newest_Some; [by apply increasing_unique|]. split_and!; [by eapply elem_of_drop | done|].
  intros r' Hr' Hk'. destruct (increasing_split n rs r r' Hi Hr Hr') as [Hd|?]; [by apply Hmax | lia].
Qed.

(** What an engine does with its log: it logs payloads or keeps the payloads
    its index refers to, or it applies what was replicated elsewhere. *)
Inductive Logging : Type := Keeps (p : PayloadMode) | Unlogged.
Coercion Keeps : PayloadMode >-> Logging.
Definition payload_of (l : Logging) : PayloadMode := match l with Keeps p => p | Unlogged => Inline end.

Section engine.
Context `{Crc32Spec, FastBloomSpec, Hshape : !FastBloomShape}.
Variables (U : MemtableRecord.t → Prop) (rate : f64) (mode : Logging).
Hypothesis HU : ∀ r, U r → recordable r.
Hypothesis Hroom : roomy rate U.
Implicit Types (w : WriteComponent.t) (hist pend : list MemtableRecord.t) (n b : nat)
  (m : ManifestManager.t) (files : ordmap bytes bytes).
Import WriteComponent.

(** ** The invariant *)

(** The tables hold records of the history, and show it for the keys the
    memtable does not have. *)
Definition shows m files hist n : Prop :=
  (∀ r, r ∈ catalogue_records m files → r ∈ hist) ∧
  ∀ k, (∀ r, r ∈ drop n hist → MemtableRecord.key r ≠ k) →
    visible (newest k (catalogue_records m files)) = visible (newest k hist).

(** How the log covers the history: inline, it has the records from [b] on and
    what is pending; the others have nothing pending, and an index of
    references keeps its whole log. *)
Definition logged (log : list LogCommand.t) hist pend b : Prop :=
  match mode with
  | Keeps Inline => rec_of <$> log = drop b hist ++ pend
  | _ => pend = [] ∧ b = O
  end.

(** [hist] is what was committed, [pend] what a failed append may have left in
    the log; the memtable has the history from [n] on, the log from [b] on. *)
Record engine_at w hist pend n b : Prop := {
  ea_mode : payload_mode w = payload_of mode;
  ea_rate : bloom_false_positive_rate w = rate;
  ea_dir : utf8_valid (sstable_dir w) = true;
  ea_lsn : increasing (hist ++ pend);
  ea_u : ∀ r, r ∈ hist ++ pend → U r;
  ea_seq : is_u64 (sequence_number w);
  ea_le : ∀ r, r ∈ hist → MemtableRecord.lsn r <= sequence_number w;
  ea_cat : catalogue (manifest w) (files w);
  ea_shows : shows (manifest w) (files w) hist n;
  ea_shown : shows (manifest w) (files w) hist b;
  ea_mem : mem_ok (mem w);
  ea_memrec : ∀ r, r ∈ mem_records (mem w) ↔ r ∈ drop n hist;
  ea_bounds : (n <= length hist ∧ b <= length hist)%nat;
  ea_wal : wal_typed (wal w);
  ea_log : ∃ log, good (wal w) log ∧ Forall typed log ∧ logged log hist pend b;
  ea_owner : mode ≠ Inline → Wal.checkpoint_owner (wal w) = false;
  ea_pend : pend ≠ [] → Wal.poisoned (wal w) = true;
  ea_ckpt : Wal.checkpoint (wal w) = recovery (manifest w);
  ea_floor : match recovery (manifest w) with
    | None => b = O
    | Some c => is_u64 (committed_sequence c) ∧ ∀ r, r ∈ take b hist → MemtableRecord.lsn r <= committed_sequence c
    end
}.
Lemma inline_or_not : mode = Inline ∨ mode ≠ Inline.
Proof. destruct mode as [[]|]; [by left | by right | by right]. Qed.
Definition engine_inv w hist pend : Prop := ∃ n b, engine_at w hist pend n b.

Lemma ea_hist w hist pend n b : engine_at w hist pend n b → increasing hist.
Proof. intros He. by destruct (proj1 (increasing_app _ _) (ea_lsn _ _ _ _ _ He)) as (? & _). Qed.

(** ** Reads *)

Lemma engine_store w hist pend n b :
  engine_at w hist pend n b →
  store_at (open_of (files w)) (manifest w) (mem w) (tables_of (files w) (lvls (manifest w))) (sequence_number w).
Proof.
  intros He. pose proof (ea_hist _ _ _ _ _ He) as Hi. destruct He. destruct ea_cat0 as [Hl Hn Hg Hf Hc Ht].
  destruct ea_shows0 as [Hsub _]. fold (catalogue_records (manifest w) (files w)).
  split.
  - done.
  - by rewrite erase_tables_of.
  - by eapply tables_holds.
  - by eapply tables_levels_inv.
  - done.
  - fold (catalogue_records (manifest w) (files w)). eapply lsn_unique_subset; [|by apply increasing_unique].
    intros r [Hr|Hr]%elem_of_app; [by eapply elem_of_drop, ea_memrec0 | by apply Hsub].
  - fold (catalogue_records (manifest w) (files w)). intros r r' [Hr%ea_memrec0 Hle]%elem_of_upto Hr'%Hsub Hk.
    destruct (increasing_split n hist r r' Hi Hr Hr') as [Hd|Hlt].
    + exists r'. split; [|split; [done | lia]]. apply elem_of_upto. split; [by apply ea_memrec0 | by apply ea_le0].
    + exists r. split; [by apply elem_of_upto; split; [apply ea_memrec0|] | split; [done | lia]].
  - intros r Hr. by apply ea_le0, Hsub.
Qed.
Lemma engine_view w hist pend n b k :
  engine_at w hist pend n b →
  visible (newest k (store_records (mem w) (tables_of (files w) (lvls (manifest w))) (sequence_number w))) =
  visible (newest k hist).
Proof.
  intros He. pose proof (ea_hist _ _ _ _ _ He) as Hi. destruct He. destruct ea_shows0 as [Hsub Hv]. unfold store_records.
  assert (∀ r, r ∈ mem_records (mem w) ++ catalogue_records (manifest w) (files w) → r ∈ hist) as Hin.
  { intros r [Hr|Hr]%elem_of_app; [by eapply elem_of_drop, ea_memrec0 | by apply Hsub]. }
  fold (catalogue_records (manifest w) (files w)). rewrite upto_all by (intros r Hr; by apply ea_le0, Hin).
  destruct (newest k (drop n hist)) as [r|] eqn:E.
  - rewrite (newest_suffix n k hist r Hi E). f_equal. apply newest_Some; [eapply lsn_unique_subset; [exact Hin | by apply increasing_unique]|].
    pose proof (newest_spec k (drop n hist)) as Hs. rewrite E in Hs. destruct Hs as (Hr & Hk & Hmax).
    split_and!; [apply elem_of_app; left; by apply ea_memrec0 | done|]. intros r' Hr' Hk'.
    destruct (increasing_split n hist r r' Hi Hr (Hin r' Hr')) as [?|?]; [by apply Hmax | lia].
  - rewrite newest_None in E. rewrite <- (Hv k E), newest_app.
    assert (newest k (mem_records (mem w)) = None) as ->; [|done].
    apply newest_None. intros r Hr%ea_memrec0. auto.
Qed.

(** ** Appending to the log *)

Lemma engine_append (l : Wal.t) log cmds owner col rf wf r l' :
  good l log → Forall typed cmds → cmds ≠ [] →
  Wal.append_engine_transactions l [cmds] owner col rf wf = (r, l') →
  Wal.checkpoint l' = Wal.checkpoint l ∧ (wal_typed l → wal_typed l') ∧
  match r with
  | Ok _ => good l' (log ++ cmds) ∧ Wal.poisoned l = false ∧ Wal.poisoned l' = false
  | Err _ => good l' log ∧ (Wal.poisoned l = true → Wal.poisoned l' = true) ∨
             Wal.poisoned l = false ∧ Wal.poisoned l' = true ∧ good l' (log ++ cmds)
  | Panic => False
  end.
Proof.
  intros Hg Ht Hne Ha. assert (wal_typed l → wal_typed l') as Hwt.
  { intros Hl. pose proof (append_engine_typed l [cmds] owner col rf wf Hl) as Hty. by rewrite Ha in Hty. }
  revert Ha. unfold Wal.append_engine_transactions. set (l0 := if Wal.owns_checkpoint l owner then l else _).
  assert (same_log l l0) as Hs by (unfold l0; by destruct (Wal.owns_checkpoint l owner)).
  pose proof (same_log_good _ _ _ Hs Hg) as Hg0. destruct Hs as (_ & _ & _ & _ & Hpl & Hcl). rewrite <- Hpl, <- Hcl.
  clearbody l0. destruct (Wal.poisoned l0) eqn:Hp.
  { destruct (append_poisoned l0 [cmds] col rf wf Hp) as [e ->]; [done|]. intros [= <- <-]. auto. }
  intros Ha. destruct Hg0 as (recs & Hc & Hrec & Hi). specialize (Hi Hp).
  pose proof (append_spec l0 [cmds] col rf wf recs Hi (proj2 (Forall_singleton _ _) Ht)) as Hsp. rewrite Ha in Hsp.
  destruct Hsp as [Hck Hsp]. split_and!; [done | done|]. pose proof (cmds_of_groups (Wal.next_lsn l0)) as Hcg.
  destruct r as [rs|e|]; [| |done].
  - destruct Hsp as [Hi' _]. split_and!; [|done | apply Hi']. eapply good_inv; [exact Hi'|].
    apply Forall2_app; [done|]. specialize (Hcg [cmds]). simpl in Hcg. by rewrite (app_nil_r cmds) in Hcg.
  - destruct Hsp as [->|(Hp' & j & Hj)]; [left; split; [by exists recs | congruence]|].
    destruct j as [|j]; simpl in Hj.
    + left. split; [|done]. exists recs. rewrite app_nil_r in Hj. split_and!; [done | done | congruence].
    + right. split_and!; [done | done |]. eexists. split_and!; [|exact Hj | congruence]. apply Forall2_app; [done|].
      specialize (Hcg (cmds :: take j [])). rewrite take_nil in *. simpl in Hcg. by rewrite (app_nil_r cmds) in Hcg.
Qed.

(** ** The commands of a batch *)

(** The records of a batch that starts after sequence number [n]. *)
Fixpoint ops_records (n : Z) (os : list BatchOperation) : list MemtableRecord.t :=
  match os with [] => [] | o :: os => rec_of (command_of o (n + 1)) :: ops_records (n + 1) os end.

Lemma build_commands_spec os i cmds next :
  is_u64 i → build_commands i os = Some (cmds, next) →
  rec_of <$> cmds = ops_records i os ∧ next = i + len os ∧ is_u64 next ∧ Forall typed cmds ∧
  Forall (λ c, LogCommand.record_type c = Delete → LogCommand.value c = []) cmds.
Proof.
  revert i cmds next. induction os as [|o os IH]; intros i cmds next Hi; simpl.
  { intros [= <- <-]. split_and!; [done | by rewrite Z.add_0_r | done | constructor | constructor]. }
  destruct (checked_add i 1) as [j|] eqn:Ej; [|done]. apply checked_add_Some in Ej as [-> Hj]. simpl.
  destruct (build_commands (i + 1) os) as [[cs nx]|] eqn:Eb; [|done]. simpl. intros [= <- <-].
  assert (typed (command_of o (i + 1))) as Ht by (destruct o; unfold typed; simpl; word_lia).
  rewrite len_cons. apply IH in Eb as (Hr & -> & Hm & Hty & Hd); [|word_lia].
  split_and!; [by rewrite fmap_cons, Hr | lia | done | by constructor|]. constructor; [by destruct o | done].
Qed.
Lemma ops_records_lsn i os r : r ∈ ops_records i os → i < MemtableRecord.lsn r <= i + len os.
Proof.
  revert i. induction os as [|o os IH]; intros i; simpl; [by intros ?%elem_of_nil|]. rewrite len_cons.
  pose proof (len_nonneg os). intros [->|Hr]%elem_of_cons; [destruct o; simpl; lia|]. specialize (IH (i + 1) Hr). lia.
Qed.
Lemma ops_records_increasing i os : increasing (ops_records i os).
Proof.
  revert i. induction os as [|o os IH]; intros i; simpl; constructor; [apply IH|].
  apply Forall_forall. intros r Hr%ops_records_lsn. destruct o; simpl; lia.
Qed.
Lemma elem_of_ops_records i os r :
  0 <= i → r ∈ ops_records i os → ∃ o lsn, o ∈ os ∧ 0 < lsn <= i + len os ∧ r = rec_of (command_of o lsn).
Proof.
  revert i. induction os as [|o os IH]; intros i Hi; simpl; [by intros ?%elem_of_nil|]. rewrite len_cons.
  pose proof (len_nonneg os). intros [->|Hr]%elem_of_cons.
  - exists o, (i + 1). split_and!; [by left | lia | lia | done].
  - destruct (IH (i + 1) ltac:(lia) Hr) as (o' & lsn & Ho & Hl & ->). exists o', lsn. split_and!; [by right | lia | lia | done].
Qed.

(** Applying commands to the memtable. *)
Lemma append_all_spec cmds w :
  mem_ok (mem w) → Forall typed cmds → increasing (rec_of <$> cmds) →
  Forall (λ c, LogCommand.record_type c = Delete → LogCommand.value c = []) cmds →
  (∀ r c, r ∈ mem_records (mem w) → c ∈ cmds → MemtableRecord.lsn r < LogCommand.lsn c) →
  ∃ tab size, append_all (write_of_command <$> cmds) w = set_mem w tab size ∧ mem_ok tab ∧
    ∀ r, r ∈ mem_records tab ↔ r ∈ mem_records (mem w) ∨ r ∈ rec_of <$> cmds.
Proof.
  unfold append_all. revert w. induction cmds as [|c cmds IH]; intros w Hm Ht Hi Hd Hlt.
  { exists (mem w), (memtable_size w). split_and!; [by destruct w | done | set_solver]. }
  apply Forall_cons_1 in Ht as [Htc Ht], Hd as [Hdc Hd]. apply StronglySorted_inv in Hi as [Hi Hf].
  rewrite fmap_cons. cbn [foldl]. set (w1 := append_to_memtable w (write_of_command c)).
  destruct (mem_insert (mem w) (LogCommand.key c) (LogCommand.lsn c)
    (MemtableRecord.new (LogCommand.value c) (LogCommand.record_type c) (LogCommand.lsn c)) Hm) as [Hm1 Hr1];
    [done | done | intros x Hx; specialize (Hlt x c Hx ltac:(by left)); lia |].
  assert (∀ r, r ∈ mem_records (mem w1) ↔ r = rec_of c ∨ r ∈ mem_records (mem w)) as Hr1'.
  { intros r. unfold w1. simpl. rewrite Hr1. unfold rec_of, MemtableRecord.with_key. simpl.
    destruct (LogCommand.record_type c); [done|]. by rewrite Hdc. }
  destruct (IH w1) as (tab & size & He & Hm' & Hr'); [done | done | done | done | |].
  { intros r c' [->|Hr]%Hr1' Hc'; [|apply Hlt; [done | by right]]. rewrite Forall_forall in Hf.
    apply (Hf (rec_of c')). by apply list_elem_of_fmap_2. }
  exists tab, size. split_and!; [by rewrite He | done|]. intros r. rewrite Hr', Hr1'. set_solver.
Qed.

(** ** Writes *)

Lemma shows_more m files hist n new :
  (n <= length hist)%nat → shows m files hist n → shows m files (hist ++ new) n.
Proof.
  clear HU Hroom U rate. intros Hn [Hsub Hv]. split; [intros r Hr; apply elem_of_app; auto|]. intros k Hk.
  rewrite drop_app_le in Hk by done. rewrite newest_app.
  assert (newest k new = None) as ->; [|rewrite join_None_r; apply Hv; set_solver].
  apply newest_None. set_solver.
Qed.
(** The log changes and nothing else does. *)
Lemma engine_wal w hist pend n b (l : Wal.t) log pend' :
  engine_at w hist pend n b → wal_typed l → good l log → Forall typed log → logged log hist pend' b →
  increasing (hist ++ pend') → (∀ r, r ∈ pend' → U r) → (pend' ≠ [] → Wal.poisoned l = true) →
  Wal.checkpoint l = Wal.checkpoint (wal w) → (mode ≠ Inline → Wal.checkpoint_owner l = false) →
  engine_at (set_wal w l) hist pend' n b.
Proof.
  intros [] Hwt Hg Ht Hlog Hi Hu Hp Hc Ho. split; simpl; try done; [|by exists log | congruence].
  intros r [Hr|Hr]%elem_of_app; [|by apply Hu]. apply ea_u0, elem_of_app. by left.
Qed.
(** A batch that was logged is committed: [cmds] is what goes to the memtable. *)
Lemma engine_commit w hist n b (l : Wal.t) log cmds next :
  engine_at w hist [] n b → Forall typed cmds → increasing (rec_of <$> cmds) →
  Forall (λ c, LogCommand.record_type c = Delete → LogCommand.value c = []) cmds →
  (∀ r, r ∈ rec_of <$> cmds → U r ∧ sequence_number w < MemtableRecord.lsn r <= next) →
  is_u64 next → sequence_number w <= next →
  wal_typed l → good l log → Forall typed log → logged log (hist ++ (rec_of <$> cmds)) [] b →
  Wal.checkpoint l = Wal.checkpoint (wal w) → (mode ≠ Inline → Wal.checkpoint_owner l = false) →
  engine_at (set_sequence (append_all (write_of_command <$> cmds) (set_wal w l)) next) (hist ++ (rec_of <$> cmds)) [] n b.
Proof.
  intros [] Htc Hinc Hd Hnew Hnext Hle Hwt Hg Ht Hlog Hck Hown. set (new := rec_of <$> cmds) in *.
  rewrite app_nil_r in ea_lsn0.
  assert (∀ x y, x ∈ hist → y ∈ new → MemtableRecord.lsn x < MemtableRecord.lsn y) as Hlt.
  { intros x y Hx%ea_le0 Hy%Hnew. lia. }
  destruct (append_all_spec cmds (set_wal w l)) as (tab & size & -> & Hm & Hrs); [done | done | done | done | |].
  { intros r c Hc%ea_memrec0 Hin. apply (Hlt r (rec_of c)); [by eapply elem_of_drop|]. by apply list_elem_of_fmap_2. }
  split; simpl; try done.
  - rewrite app_nil_r. by apply increasing_app.
  - intros r. rewrite app_nil_r. intros [?|?]%elem_of_app; [apply ea_u0, elem_of_app; by left | by apply Hnew].
  - intros r [Hin|Hin]%elem_of_app; [apply ea_le0 in Hin; lia | apply Hnew in Hin; lia].
  - apply shows_more; [lia | done].
  - apply shows_more; [lia | done].
  - intros r. by rewrite Hrs, ea_memrec0, drop_app_le, elem_of_app by lia.
  - rewrite length_app. lia.
  - by exists log.
  - congruence.
  - destruct (recovery (manifest w)); [|done]. by rewrite take_app_le by lia.
Qed.

(** A batch: on success the history grows by its records; on failure the
    history is what it was, and the batch may be left in the log whole. *)
Lemma engine_write w hist pend os rf wf :
  mode = Inline → engine_inv w hist pend → os ≠ [] → (∀ o lsn, o ∈ os → is_u64 lsn → U (rec_of (command_of o lsn))) →
  match write_batch os rf wf w with
  | (Ok _, w') => pend = [] ∧ engine_inv w' (hist ++ ops_records (sequence_number w) os) []
  | (Err _, w') => engine_inv w' hist pend ∨ pend = [] ∧ engine_inv w' hist (ops_records (sequence_number w) os)
  | (Panic, _) => False
  end.
Proof.
  intros Hmode (n & b & He) Hne HUo. unfold write_batch.
  replace (match os with [] => mret tt | _ => _ end) with (pure_eff (validate_batch os) ≫= λ _, run_requests [os] rf wf)
    by (by destruct os).
  unfold mbind, eff_bind, pure_eff.
  assert (validate_batch os ≠ Panic) as Hv by apply validate_batch_np.
  destruct (validate_batch os) as [sz|e|]; [|left; by exists n, b | done].
  unfold run_requests. cbn [build_groups]. pose proof He as [].
  destruct (build_commands (sequence_number w) os) as [[cmds next]|] eqn:Hb; [|left; by exists n, b].
  cbn [mbind option_bind build_groups]. rewrite ea_mode0, Hmode. cbn [concat payload_of]. rewrite app_nil_r.
  pose proof (build_commands_spec _ _ _ _ ea_seq0 Hb) as (Hr & Hnext & Hn64 & Htc & Hd).
  destruct ea_log0 as (log & Hg & Ht & Hlog). unfold logged in Hlog. rewrite Hmode in Hlog.
  unfold mbind, eff_bind, on_wal, modify.
  destruct (Wal.append_engine_transactions _ _ _ _ _ _) as [r l'] eqn:Ha.
  assert (cmds ≠ []) as Hcne by (intros ->; by destruct os).
  destruct (engine_append _ _ _ _ _ _ _ _ _ Hg Htc Hcne Ha) as (Hck & Hwt & Hres). specialize (Hwt ea_wal0).
  destruct r as [rs|e|]; [| |done].
  - destruct Hres as (Hg' & Hp & Hp'). assert (pend = []) as ->.
    { destruct pend; [done|]. specialize (ea_pend0 ltac:(done)). congruence. }
    split; [done|]. rewrite app_nil_r in Hlog. exists n, b. rewrite <- Hr. pose proof (len_nonneg os).
    eapply (engine_commit w hist n b l' (log ++ cmds)); try done; rewrite ?Hr.
    + apply ops_records_increasing.
    + intros r Hin. split; [|apply ops_records_lsn in Hin; lia].
      apply elem_of_ops_records in Hin as (o & lsn & Ho & Hl & ->); [|word_lia]. apply HUo; [done | word_lia].
    + lia.
    + by apply Forall_app.
    + unfold logged. by rewrite Hmode, fmap_app, Hlog, Hr, drop_app_le, app_nil_r by lia.
  - destruct Hres as [[Hg' Hp]|(Hp & Hp' & Hg')].
    + left. exists n, b. eapply engine_wal; try done; [by unfold logged; rewrite Hmode | | auto].
      intros r Hin. apply ea_u0, elem_of_app. by right.
    + right. assert (pend = []) as ->.
      { destruct pend; [done|]. specialize (ea_pend0 ltac:(done)). congruence. }
      split; [done|]. exists n, b. rewrite app_nil_r in Hlog. eapply (engine_wal _ _ _ _ _ _ (log ++ cmds)); try done.
      * by apply Forall_app.
      * unfold logged. by rewrite Hmode, fmap_app, Hlog, Hr.
      * rewrite app_nil_r in ea_lsn0. apply increasing_app. split_and!; [done | apply ops_records_increasing|].
        intros x y Hx%ea_le0 Hy%ops_records_lsn. lia.
      * intros r (o & lsn & Ho & Hl & ->)%elem_of_ops_records; [|word_lia]. apply HUo; [done | word_lia].
Qed.

(** ** Flushes *)

Abbreviation with_disk w m f := (set_files (set_manifest w m) f).

(** Manifest and files change, what they show does not. *)
Lemma engine_tables w hist pend n b m' f' :
  engine_at w hist pend n b → catalogue m' f' →
  (∀ k, visible (newest k (catalogue_records m' f')) = visible (newest k (catalogue_records (manifest w) (files w)))) →
  (∀ r, r ∈ catalogue_records m' f' → r ∈ catalogue_records (manifest w) (files w)) →
  recovery m' = recovery (manifest w) → engine_at (with_disk w m' f') hist pend n b.
Proof.
  intros [] Hc Hv Hsub Hrec.
  assert (∀ i, shows (manifest w) (files w) hist i → shows m' f' hist i) as Hs.
  { intros i [Hs1 Hs2]. split; [auto|]. intros k Hk. rewrite Hv. auto. }
  split; simpl; try done; [by apply Hs | by apply Hs | |].
  - congruence.
  - by rewrite Hrec.
Qed.
Lemma records_unchanged m m' f f' :
  catalogue m f → same_tables m m' → (∀ x, listed (lvls m) x → om_get (SSTableMeta.path x) f' = om_get (SSTableMeta.path x) f) →
  catalogue_records m' f' = catalogue_records m f.
Proof.
  intros Hc (Hl & _ & _) Hf. unfold catalogue_records. rewrite Hl. erewrite tables_of_files; [done | apply (ca_levels _ _ Hc) | done].
Qed.

(** The table of a flush can be listed. *)
Lemma flush_replaces w hist pend n b m' f' (meta : SSTableMeta.t) file :
  engine_at w hist pend n b → catalogue m' f' → same_tables (manifest w) m' →
  catalogue_records m' f' = catalogue_records (manifest w) (files w) →
  mem_records (mem w) ≠ [] → om_get (SSTableMeta.path meta) f' = Some file → table_file file (flush_records (mem w)) →
  SSTableMeta.smallest_key meta = first_of (flush_records (mem w)) →
  SSTableMeta.largest_key meta = last_of (flush_records (mem w)) →
  SSTableMeta.record_count meta = len (flush_records (mem w)) → SSTableMeta.level meta = 0 → meta_typed meta →
  next_id (manifest w) <= SSTableMeta.file_id meta →
  (∀ x, listed (lvls (manifest w)) x → SSTableMeta.path x ≠ SSTableMeta.path meta) →
  replaces f' (listed (lvls m')) [meta] 0 (λ r, r ∈ hist).
Proof.
  intros He Hc (Hl & _ & _) Hrs Hne Hf Htf Hsm Hla Hcnt Hlv Hty Hid Hp. pose proof (ea_hist _ _ _ _ _ He) as Hi.
  destruct He. destruct ea_shows0 as [Hsub _].
  assert (records_at f' meta = flush_records (mem w)) as Hra
    by (unfold records_at; rewrite Hf; simpl; by apply table_file_records).
  assert (∀ r, r ∈ flush_records (mem w) → r ∈ drop n hist) as Hfl by (intros r Hr; by apply ea_memrec0, flush_records_subset).
  assert (∀ r, stored f' (listed (lvls m')) r → r ∈ hist) as Hst.
  { intros r Hr. apply Hsub. rewrite <- Hrs. by apply elem_of_catalogue. }
  assert (∀ o, o ∈ [meta] → o = meta) as Hone by (intros o; apply list_elem_of_singleton).
  split.
  - apply Hc.
  - intros o ->%Hone. rewrite Hra. split_and!; try done. exists file. simpl. unfold open_of. by rewrite Hf.
  - simpl. apply NoDup_singleton.
  - simpl. apply NoDup_singleton.
  - intros o x ->%Hone Hx. rewrite Hl in Hx. split; [|by apply Hp].
    pose proof (listed_below _ _ _ (ca_levels _ _ ea_cat0) Hx). lia.
  - done.
  - done.
  - intros o x r1 r2 _ Hx Hneg. destruct (ti_typed _ _ (ca_tables _ _ Hc) x Hx) as (_ & [? _] & _). lia.
  - intros o x r1 r2 ->%Hone Hx _ Hr1 Hr2 Hk. rewrite Hra in Hr1. pose proof (Hfl r1 Hr1) as Hd.
    destruct (increasing_split n hist r1 r2 Hi Hd) as [Hd2|?]; [apply Hst; by exists x | | lia].
    apply elem_of_flush_records in Hr1. pose proof (newest_spec (MemtableRecord.key r1) (mem_records (mem w))) as Hs.
    rewrite Hr1 in Hs. destruct Hs as (_ & _ & Hmax). apply Hmax; [by apply ea_memrec0 | done].
  - intros r1 r2 Hr1 Hr2 Hk Hlsn. by apply (increasing_unique _ Hi).
  - intros r (x & [->%Hone|Hx] & Hr); [rewrite Hra in Hr; by eapply elem_of_drop, Hfl | apply Hst; by exists x].
  - intros r Hr. apply HU, ea_u0, elem_of_app. by left.
Qed.
(** With the table listed, the tables show the whole history. *)
Lemma flush_shows w hist pend n b m' f' :
  engine_at w hist pend n b →
  (∀ r, r ∈ catalogue_records m' f' ↔ r ∈ flush_records (mem w) ∨ r ∈ catalogue_records (manifest w) (files w)) →
  ∀ i, shows m' f' hist i.
Proof.
  intros He Hrs i. pose proof (ea_hist _ _ _ _ _ He) as Hi. destruct He. destruct ea_shows0 as [Hsub Hv].
  assert (∀ r, r ∈ flush_records (mem w) → r ∈ drop n hist) as Hfl by (intros r Hr; by apply ea_memrec0, flush_records_subset).
  assert (∀ r, r ∈ catalogue_records m' f' → r ∈ hist) as Hin.
  { intros r [Hr|Hr]%Hrs; [by eapply elem_of_drop, Hfl | by apply Hsub]. }
  split; [done|]. intros k _. destruct (newest k (drop n hist)) as [r|] eqn:E.
  - rewrite (newest_suffix n k hist r Hi E). f_equal.
    apply newest_Some; [eapply lsn_unique_subset; [exact Hin | by apply increasing_unique]|].
    pose proof (newest_spec k (drop n hist)) as Hs. rewrite E in Hs. destruct Hs as (Hr & Hk & Hmax). split_and!; [|done|].
    + apply Hrs. left. apply elem_of_flush_records. rewrite Hk, <- E. apply newest_ext; [|intros; apply ea_memrec0].
      eapply lsn_unique_subset; [|by apply increasing_unique]. intros x. apply elem_of_drop.
    + intros r' Hr' Hk'. destruct (increasing_split n hist r r' Hi Hr (Hin r' Hr')) as [?|?]; [by apply Hmax | lia].
  - rewrite newest_None in E. rewrite <- (Hv k E). f_equal. apply newest_ext; [by apply catalogue_unique|].
    intros r Hk. rewrite Hrs. split; [|by right]. intros [Hr|?]; [|done]. by destruct (E r (Hfl r Hr)).
Qed.
Lemma engine_listed w hist pend n b m' f' :
  engine_at w hist pend n b → catalogue m' f' →
  (∀ r, r ∈ catalogue_records m' f' ↔ r ∈ flush_records (mem w) ∨ r ∈ catalogue_records (manifest w) (files w)) →
  recovery m' = recovery (manifest w) →
  engine_at (with_disk w m' f') hist pend n b ∧ shows m' f' hist (length hist).
Proof.
  intros He Hc Hrs Hrec. pose proof (flush_shows _ _ _ _ _ _ _ He Hrs) as Hsh. destruct He.
  split; [|apply Hsh]. split; simpl; try done; [congruence | by rewrite Hrec].
Qed.

(** Once the tables show everything, the memtable may be dropped, and so may
    the log once a checkpoint that covers it is published. *)
Lemma engine_drop_mem w hist pend n b size :
  engine_at w hist pend n b → shows (manifest w) (files w) hist (length hist) →
  engine_at (set_mem w [] size) hist pend (length hist) b.
Proof.
  intros [] Hs. split; simpl; try done; [split; [apply om_wf_nil | constructor] | | lia].
  intros r. by rewrite drop_all.
Qed.
Lemma engine_drop_log w hist n b m' (l : Wal.t) c :
  mode = Inline → engine_at w hist [] n b → shows (manifest w) (files w) hist (length hist) →
  catalogue m' (files w) → lvls m' = lvls (manifest w) → recovery m' = Some c → Wal.checkpoint l = Some c →
  wal_typed l → good l [] → is_u64 (committed_sequence c) → (∀ r, r ∈ hist → MemtableRecord.lsn r <= committed_sequence c) →
  engine_at (set_wal (set_manifest w m') l) hist [] n (length hist).
Proof.
  intros Hmode [] Hs Hc Hl Hrec Hck Hwt Hg Hc64 Hle.
  assert (∀ i, shows (manifest w) (files w) hist i → shows m' (files w) hist i) as Hsh.
  { intros i. unfold shows, catalogue_records. by rewrite Hl. }
  split; simpl; try done; [by apply Hsh | by apply Hsh | lia | | congruence|].
  - exists []. split_and!; [done | constructor|]. unfold logged. by rewrite Hmode, drop_all.
  - rewrite Hrec. split; [done|]. intros r Hr. rewrite firstn_all in Hr. auto.
Qed.

(** A file of [data] at a path of its own; what the tables show is unchanged. *)
Record table_at w0 (data : bytes) (id : Z) (p : bytes) w' m' f' : Prop := {
  ta_state : w' = with_disk w0 m' f';
  ta_cat : catalogue m' f';
  ta_same : same_tables (manifest w0) m';
  ta_records : catalogue_records m' f' = catalogue_records (manifest w0) (files w0);
  ta_file : om_get p f' = Some data;
  ta_path : p = table_path (level_dir (sstable_dir w0) 0) id;
  ta_id : next_id (manifest w0) <= id < next_id m';
  ta_max : next_id m' <= u64_max;
  ta_fresh : unused m' p
}.
Lemma table_at_engine w0 data id p w' m' f' hist pend n b :
  engine_at w0 hist pend n b → table_at w0 data id p w' m' f' → engine_at w' hist pend n b.
Proof.
  intros He [-> Hc (Hl & Hr & _) Hrs _ _ _ _ _]. apply engine_tables; try done; intros; by rewrite ?Hrs in *.
Qed.
Lemma create_file_ends w hist pend n b fault :
  engine_at w hist pend n b →
  ends (λ w', engine_at w' hist pend n b) (λ a w', ∃ m' f', table_at w [] a.1 a.2 w' m' f')
    (create_table_file (S (length (files w))) fault) w.
Proof.
  intros He. pose proof (ea_cat _ _ _ _ _ He) as Hc. pose proof (create_table_runs fault w Hc) as Hr. unfold ends.
  assert (∀ m', catalogue m' (files w) → same_tables (manifest w) m' →
    catalogue_records m' (files w) = catalogue_records (manifest w) (files w)) as Hrs
    by (intros m' _ Hs; by apply records_unchanged).
  destruct (create_table_file _ fault w) as [[[id p]|e|] w']; [| |done].
  - destruct Hr as (m' & -> & Hc' & Hs & Hp & Hpath & Hid & Hmax).
    pose proof (absent_unused _ _ _ Hc' Hp) as Hun.
    assert (table_at w [] id p (with_disk w m' (om_insert p [] (files w))) m' (om_insert p [] (files w))) as Hta.
    { split; try done; [by apply catalogue_write | | by rewrite om_get_insert_eq].
      apply records_unchanged; [done | done|]. intros x Hx. rewrite om_get_insert_ne; [done|].
      destruct Hs as (Hl & _). apply Hun. by rewrite Hl. }
    split; [by eapply table_at_engine | by eexists _, _].
  - destruct Hr as (m' & -> & Hc' & Hs). change (set_manifest w m') with (with_disk w m' (files w)).
    apply engine_tables; try done; [intros k | intros r | apply Hs]; by rewrite Hrs.
Qed.
Lemma table_at_write w0 data data' id p w' m' f' :
  table_at w0 data id p w' m' f' → table_at w0 data' id p (with_disk w0 m' (om_insert p data' f')) m' (om_insert p data' f').
Proof.
  intros [-> Hc Hs Hrs Hf Hp Hid Hm Hu]. split; try done; [by apply catalogue_write | | by rewrite om_get_insert_eq].
  rewrite <- Hrs. apply records_unchanged; [done | done|]. intros x Hx. rewrite om_get_insert_ne; [done|]. by apply Hu.
Qed.
Lemma write_file_ends w0 w1 hist pend n b data id p m1 f1 fault :
  engine_at w0 hist pend n b → table_at w0 [] id p w1 m1 f1 →
  ends (λ w', engine_at w' hist pend n b) (λ _ w', ∃ m' f', table_at w0 data id p w' m' f')
    (write_table_file p data fault) w1.
Proof.
  intros He Ht. unfold write_table_file, ends. pose proof (ta_state _ _ _ _ _ _ _ Ht) as ->. destruct fault as [[k i]|].
  - apply (table_at_engine w0 (take i data) id p _ m1 (om_insert p (take i data) f1) hist pend n b He).
    by apply (table_at_write _ _ _ _ _ _ _ _ Ht).
  - pose proof (table_at_write _ _ data _ _ _ _ _ Ht) as Ht'.
    split; [by apply (table_at_engine _ _ _ _ _ _ _ _ _ _ _ He Ht') | by eexists _, _].
Qed.
Lemma same_tables_self m : same_tables m m.
Proof. done. Qed.

(** Registering the table of the memtable. *)
Lemma register_ends w0 w1 hist pend n b c id p m1 f1 fault :
  engine_at w0 hist pend n b → mem_records (mem w0) ≠ [] → table_wf c → table_file (SSTableCodec.serialize c).1 (flush_records (mem w0)) →
  table_at w0 (SSTableCodec.serialize c).1 id p w1 m1 f1 → clean fault →
  ends (λ w', engine_at w' hist pend n b)
    (λ _ w', shows (manifest w') (files w') hist (length hist) ∧ wal w' = wal w0 ∧ mem w' = mem w0 ∧
             sequence_number w' = sequence_number w0 ∧ checkpoint_owner w' = checkpoint_owner w0)
    (on_manifest (λ m, ManifestManager.register_sstable m
       (SSTableMeta.mk id 0 p (len (valid_records (mem w0))) (first_of (flush_records (mem w0))) (last_of (flush_records (mem w0)))
          (SSTableFooter.bloom_block_start (SSTableCodec.serialize c).2)
          (SSTableFooter.bloom_block_end (SSTableCodec.serialize c).2 - SSTableFooter.bloom_block_start (SSTableCodec.serialize c).2))
       fault)) w1.
Proof.
  intros He Hne Hc Htf Hta Hcl. pose proof (table_at_engine _ _ _ _ _ _ _ _ _ _ _ He Hta) as He1.
  destruct Hta as [-> Hcat Hs Hrs Hf Hp Hid Hmax Hun]. set (meta := SSTableMeta.mk _ _ _ _ _ _ _ _).
  pose proof (footer_of_ok c Hc) as (_ & _ & _ & _ & _ & Hb1 & Hb2 & _).
  assert ((SSTableCodec.serialize c).2 = footer_of c) as Hft by (by rewrite serialize_layout).
  assert (len (valid_records (mem w0)) = len (flush_records (mem w0))) as Hlen.
  { unfold flush_records, len. by rewrite length_fmap. }
  assert (meta_typed meta) as Hty.
  { unfold meta. rewrite Hft. unfold meta_typed. simpl. pose proof (ca_next _ _ (ea_cat _ _ _ _ _ He)).
    split_and!; [word_lia | word_lia | | | apply Hb1 | ].
    - rewrite Hp. by apply utf8_table_path, utf8_level_dir, He.
    - rewrite Hlen. pose proof (table_file_len _ _ Htf). pose proof (len_nonneg (flush_records (mem w0))). word_lia.
    - unfold footer_of in *. simpl in *.
      match goal with |- is_u64 (?x + ?y - ?x) => replace (x + y - x) with y by lia end.
      pose proof (len_nonneg (BloomFilterWrapper.encode (SSTableCodec.bloom c))). word_lia. }
  assert (replaces f1 (listed (lvls m1)) [meta] 0 (λ r, r ∈ hist)) as Hrp.
  { apply (flush_replaces w0 hist pend n b m1 f1 meta (SSTableCodec.serialize c).1); try done; [simpl; lia|].
    intros x Hx. destruct Hs as (Hl & _). apply Hun. by rewrite Hl. }
  unfold ends, on_manifest. simpl.
  destruct (ManifestManager.register_sstable m1 meta fault) as [r m'] eqn:Hr.
  pose proof (register_catalogue m1 f1 meta fault r m' (λ r, r ∈ hist) Hcat Hcl ltac:(simpl; lia)
    ltac:(unfold id_ok; simpl; lia) Hrp Hr) as Hreg.
  destruct r as [u|e|]; [| by subst m' | done]. destruct Hreg as (Hc' & Hli & Hrec).
  assert (∀ r, r ∈ catalogue_records m' f1 ↔ r ∈ flush_records (mem w0) ∨ r ∈ catalogue_records m1 f1) as Hin.
  { intros r. rewrite !elem_of_catalogue by done. unfold stored. setoid_rewrite Hli.
    assert (records_at f1 meta = flush_records (mem w0)) as Hra
      by (unfold records_at; simpl; rewrite Hf; simpl; by apply table_file_records).
    split; [intros (x & [->|Hx] & Hr'); [left; congruence | right; eauto]|].
    intros [Hr'|(x & Hx & Hr')]; [exists meta; rewrite Hra; auto | eauto]. }
  destruct (engine_listed (with_disk w0 m1 f1) hist pend n b m' f1 He1 Hc' Hin Hrec) as [He2 Hsh].
  split; [exact He2|]. done.
Qed.

(** The fields a flush does not touch before it drops the memtable. *)
Definition same_front w w' : Prop :=
  mem w' = mem w ∧ sequence_number w' = sequence_number w ∧ checkpoint_owner w' = checkpoint_owner w.
(** A log just rotated: healthy, with an empty active segment. *)
Definition rotated (l : Wal.t) : Prop :=
  Wal.size l = WAL_HEADER_SIZE ∧ ∃ recs segs0, wal_inv l recs ∧ clean_state l segs0 [] recs.

Lemma rotate_ends w hist pend n b rf :
  engine_at w hist pend n b →
  ends (λ w', engine_at w' hist pend n b)
    (λ id w', is_u64 id ∧ pend = [] ∧ rotated (wal w') ∧ is_u64 (Wal.segment_id (wal w')) ∧ same_front w w' ∧
              manifest w' = manifest w ∧ files w' = files w)
    (on_wal (λ l, Wal.rotate_wal_file l rf)) w.
Proof.
  intros He. pose proof He as []. destruct ea_log0 as (log & Hg & Ht & Hlog). unfold ends, on_wal.
  destruct (Wal.rotate_wal_file (wal w) rf) as [r l'] eqn:Hr.
  destruct (rotate_frame _ _ _ _ ea_wal0 Hr) as (Hwt & Hck & Hown & Hpo & Hok).
  assert (engine_at (set_wal w l') hist pend n b) as He'.
  { eapply engine_wal; try done; [by eapply good_rotate | | |].
    - intros x Hx. apply ea_u0, elem_of_app. by right.
    - intros Hp%ea_pend0. destruct (Hpo Hp) as [-> _]. done.
    - intros Hm. rewrite Hown. auto. }
  destruct r as [id|e|]; [| done | exfalso].
  - destruct (Hok id eq_refl) as (-> & Hid & Hp). split; [done|]. split_and!; try done.
    + destruct pend; [done|]. specialize (ea_pend0 ltac:(done)). congruence.
    + destruct Hg as (recs & _ & _ & Hi). specialize (Hi Hp). pose proof (rotate_spec _ rf _ Hi) as Hs.
      rewrite Hr in Hs. destruct Hs as (Hi' & _ & _ & Hsz & segs0 & Hcs). split; [done|]. by exists recs, segs0.
  - destruct (Wal.poisoned (wal w)) eqn:Hp; [by destruct (Hpo eq_refl) as [_ [e ?]]|].
    destruct Hg as (recs & _ & _ & Hi). specialize (Hi Hp). pose proof (rotate_spec _ rf _ Hi) as Hs. by rewrite Hr in Hs.
Qed.
Lemma mark_ends w hist pend n b lsn seg fault :
  engine_at w hist pend n b → shows (manifest w) (files w) hist (length hist) → clean fault → is_u64 lsn → is_u64 seg →
  ends (λ w', engine_at w' hist pend n b)
    (λ _ w', shows (manifest w') (files w') hist (length hist) ∧ same_front w w' ∧ wal w' = wal w)
    (on_manifest (λ m, ManifestManager.mark_checkpoint m lsn seg fault)) w.
Proof.
  intros He Hsh Hcl Hl Hs. unfold ends, on_manifest.
  destruct (ManifestManager.mark_checkpoint (manifest w) lsn seg fault) as [r m'] eqn:Hm.
  destruct (mark_catalogue _ _ _ _ _ _ _ (ea_cat _ _ _ _ _ He) Hcl Hl Hs Hm) as (Hnp & Hc & Hst).
  pose proof (records_unchanged _ _ _ (files w) (ea_cat _ _ _ _ _ He) Hst (λ _ _, eq_refl)) as Hrs.
  assert (engine_at (set_manifest w m') hist pend n b) as He'.
  { change (set_manifest w m') with (with_disk w m' (files w)). apply engine_tables; try done; [intros k | intros x | apply Hst];
      by rewrite Hrs. }
  assert (shows m' (files w) hist (length hist)) as Hsh' by (unfold shows; by rewrite Hrs).
  by destruct r.
Qed.
Lemma checkpoint_ends w hist n b fault :
  engine_at w hist [] n b → shows (manifest w) (files w) hist (length hist) → clean fault → rotated (wal w) →
  is_u64 (Wal.segment_id (wal w)) →
  ends (λ w', engine_inv w' hist [])
    (λ _ w', ∃ b', engine_at w' hist [] n b' ∧ shows (manifest w') (files w') hist (length hist) ∧ same_front w w')
    (publish_checkpoint (Some (sequence_number w)) fault) w.
Proof.
  intros He Hsh Hcl (Hsz & recs & segs0 & Hi & Hcs) Hseg. unfold publish_checkpoint.
  assert (ends (λ w', engine_inv w' hist [])
    (λ (_ : unit) w', ∃ b', engine_at w' hist [] n b' ∧ shows (manifest w') (files w') hist (length hist) ∧ same_front w w')
    (mret tt) w) as Hstay by (apply ends_ret; [by exists n, b | by exists b]).
  unfold ends. destruct (Wal.owns_recovery_checkpoints (wal w) (checkpoint_owner w)) eqn:Hown; [|exact Hstay].
  apply andb_true_iff in Hown as [Hown _]. unfold Wal.trusted_recovery_position, Wal.ensure_healthy.
  pose proof Hi as (Hp & Hn & _). rewrite Hp. cbn [negb guard_err mbind res_bind].
  unfold mbind at 1, eff_bind at 1, pure_eff, mret at 1, res_ret. destruct (Wal.raw_writes (wal w)); [exact Hstay|].
  set (c := mkRecoveryCheckpoint _ _ _). unfold mbind, eff_bind, on_manifest, modify.
  destruct (ManifestManager.publish_recovery_checkpoint (manifest w) c fault) as [r m'] eqn:Hm.
  pose proof He as []. assert (mode = Inline) as Hmode.
  { destruct inline_or_not as [?|Hni]; [done|]. by rewrite ea_owner0 in Hown. }
  assert (checkpoint_typed c) as Hct by (unfold checkpoint_typed, c; simpl; split_and!; try done; word_lia).
  pose proof (recovery_catalogue _ _ _ _ _ _ ea_cat0 Hcl Hct Hm) as Hrc.
  destruct r as [u|e|]; [| |done].
  - destruct Hrc as (Hc & Hl & Hrec). simpl.
    pose proof (reclaim_spec (wal w) segs0 recs (sequence_number w) Hi Hcs Hsz Hown) as Hrs. cbv zeta in Hrs. fold c in Hrs.
    pose proof (reclaim_typed (wal w) c ea_wal0) as Hwt.
    destruct (Wal.reclaim_checkpointed_segments (wal w) c) as [r' l']. destruct Hrs as (_ & Hi' & Hck & _).
    assert (engine_at (set_wal (set_manifest w m') l') hist [] n (length hist)) as He'.
    { apply (engine_drop_log w hist n b m' l' c); try done. eapply good_inv; [done | constructor]. }
    split; [by eexists _, _|]. exists (length hist). split_and!; try done. simpl. unfold shows, catalogue_records. by rewrite Hl.
  - subst m'. exists n, b. by destruct w.
Qed.

Lemma remove_flushed_all w : om_wf (mem w) → ∃ size, remove_flushed (mem w) w = set_mem w [] size.
Proof.
  intros Hw. unfold remove_flushed.
  match goal with |- context [foldl ?g _ _] => set (f := g) end. assert (∀ (l : memtable) x, om_wf l → ∃ y, foldl f (l, x) l = ([], y)) as Hf.
  { intros l x Hl. revert x. induction l as [|[k r] l IH]; intros x; [by exists x|].
    apply om_wf_cons in Hl as [Hl Hlt]. cbn [foldl]. unfold f at 2. cbn [fst snd om_get]. rewrite kcmp_refl.
    assert (om_remove k ((k, r) :: l) = l) as ->; [|by apply IH].
    unfold om_remove. cbn [List.filter fst]. rewrite kcmp_refl. apply filter_all.
    eapply Forall_impl; [exact Hlt|]. intros e He. unfold klt in He. by rewrite He. }
  destruct (Hf (mem w) 0 Hw) as [y Hy]. rewrite Hy. by eexists.
Qed.
Lemma empty_table rate' : ∃ e, build_table rate' [] = Err e.
Proof. eexists. reflexivity. Qed.
Lemma max_lsn_u64 (valid : ordmap bytes MemtableRecord.t) :
  (∀ e, e ∈ valid → is_u64 (MemtableRecord.lsn (snd e))) →
  is_u64 (foldr (λ e x, Z.max (MemtableRecord.lsn (snd e)) x) 0 (valid : list (bytes * MemtableRecord.t))).
Proof.
  intros Hv. induction valid as [|e valid IH]; simpl; [word_lia|].
  pose proof (Hv e ltac:(by left)). specialize (IH ltac:(intros; apply Hv; by right)). word_lia.
Qed.

Lemma flush_inner_ends w hist pend n b ff :
  engine_at w hist pend n b → clean (ff_register ff) → clean (ff_mark ff) → clean (ff_publish ff) →
  ends (λ w', engine_inv w' hist pend)
    (λ _ w', ∃ b', engine_at w' hist pend n b' ∧ shows (manifest w') (files w') hist (length hist) ∧ same_front w w')
    (flush_inner (mem w) (Some (sequence_number w)) ff) w.
Proof.
  intros He Hcr Hcm Hcp. pose proof He as [].
  destruct (decide (mem w = [])) as [Hnil|Hnil].
  { unfold flush_inner, ends, mbind, eff_bind, pure_eff. rewrite Hnil.
    destruct (empty_table (bloom_false_positive_rate w)) as [e ->]. by exists n, b. }
  assert (mem_records (mem w) ≠ []) as Hne by (by destruct (mem w)).
  assert (∀ r, r ∈ flush_records (mem w) → U r) as Hfu.
  { intros r Hr%flush_records_subset%ea_memrec0. apply ea_u0, elem_of_app. left. by eapply elem_of_drop. }
  assert (len (valid_records (mem w)) = len (flush_records (mem w))) as Hlen by (unfold flush_records, len; by rewrite length_fmap).
  destruct (build_table_ok rate (mem w)) as (c & Hb & Hwf & Htf).
  { split_and!; [apply Forall_forall; auto | apply flush_records_sorted | intros Hf%flush_records_nil; done|].
    apply Hroom; [done | apply flush_records_sorted | lia]. }
  assert (∀ e, e ∈ (valid_records (mem w) : list _) → is_u64 (MemtableRecord.lsn (snd e))) as Hv64.
  { intros e He'. apply (list_elem_of_fmap_2 (λ kr, keyed kr)) in He'. fold (flush_records (mem w)) in He'.
    destruct (HU _ (Hfu _ He')) as [Hok _]. apply Hok. }
  assert (∀ w', engine_at w' hist pend n b → engine_inv w' hist pend) as Hinv by (intros w' ?; by exists n, b).
  unfold ends, flush_inner. rewrite ea_rate0, Hb. unfold mbind at 1, eff_bind at 1, pure_eff at 1.
  destruct (SSTableCodec.serialize c) as [encoded footer] eqn:Hser. cbn [fst] in Htf.
  match goal with |- match ?p w with _ => _ end => change (ends (λ w', engine_inv w' hist pend)
    (λ _ w', ∃ b', engine_at w' hist pend n b' ∧ shows (manifest w') (files w') hist (length hist) ∧ same_front w w') p w) end.
  eapply ends_bind; [eapply ends_weaken; [by apply (create_file_ends w hist pend n b) | exact Hinv | intros a w' _ Ha; exact Ha]|].
  intros [id p] w1 _ (m1 & f1 & Hta). simpl in Hta.
  eapply ends_bind; [eapply ends_weaken; [by eapply (write_file_ends w w1 hist pend n b encoded) | exact Hinv | intros a w' _ Ha; exact Ha]|].
  intros _ w2 _ (m2 & f2 & Hta2).
  eapply ends_bind.
  { eapply ends_weaken; [|exact Hinv | intros a w' Hw' Ha; exact (conj Hw' Ha)].
    pose proof (register_ends w w2 hist pend n b c id p m2 f2 (ff_register ff) He Hne Hwf) as Hreg. rewrite Hser in Hreg.
    cbn [fst snd] in Hreg. exact (Hreg Htf Hta2 Hcr). }
  intros _ w3 _ (He3 & Hsh3 & Hwal & Hmem & Hseq & Hown).
  eapply ends_bind; [eapply ends_weaken; [by apply (rotate_ends w3 hist pend n b) | exact Hinv | intros a w' Hw' Ha; exact (conj Hw' Ha)]|].
  intros seg w4 _ (He4 & Hid & Hpend & Hrot & Hseg & (Hm4 & Hs4 & Ho4) & Hman4 & Hfil4). subst pend.
  rewrite <- Hman4, <- Hfil4 in Hsh3.
  eapply ends_bind.
  { eapply ends_weaken; [apply (mark_ends w4 hist [] n b) | exact Hinv | intros a w' Hw' Ha; exact (conj Hw' Ha)]; try done.
    by apply max_lsn_u64. }
  intros _ w5 _ (He5 & Hsh5 & (Hm5 & Hs5 & Ho5) & Hwal5).
  eapply ends_bind.
  { rewrite <- Hwal5 in Hrot, Hseg. pose proof (checkpoint_ends w5 hist n b (ff_publish ff) He5 Hsh5 Hcp Hrot Hseg) as Hpub.
    replace (sequence_number w5) with (sequence_number w) in Hpub by congruence. exact Hpub. }
  intros _ w6 Hi6 (b' & He6 & Hsh6 & (Hm6 & Hs6 & Ho6)).
  apply ends_ret; [done|]. exists b'. split_and!; [done | done|]. split_and!; congruence.
Qed.

(** A flush keeps the history, wherever it fails; when it succeeds the
    memtable is empty. *)
Lemma flush_ends w hist pend ff :
  engine_inv w hist pend → clean (ff_register ff) → clean (ff_mark ff) → clean (ff_publish ff) →
  ends (λ w', engine_inv w' hist pend) (λ _ w', mem w' = []) (flush_active_memtable ff) w.
Proof.
  intros (n & b & He) Hcr Hcm Hcp. unfold ends, flush_active_memtable. cbv zeta.
  match goal with |- match ?p w with _ => _ end => change (ends (λ w', engine_inv w' hist pend) (λ _ w', mem w' = []) p w) end.
  eapply ends_bind; [by apply (flush_inner_ends w hist pend n b)|].
  intros r w1 _ (b' & He1 & Hsh & (Hm & _)). unfold ends, mbind, eff_bind, modify. rewrite <- Hm.
  destruct (remove_flushed_all w1) as [size Hrf]; [apply (ea_mem _ _ _ _ _ He1)|]. rewrite Hrf.
  split; [|done]. exists (length hist), b'. by eapply engine_drop_mem.
Qed.
End engine.
