(* ===== verification/KVTheory.v ===== *)
(** * The engine as a map

    Every operation of the engine, seen from outside, is one of a map from
    keys to values: a read returns what the map has, a write that succeeds
    changes it, flushes and compactions do not, and a restart gives it back.
    A write that fails leaves the map as it is, and may come back as a whole
    at the next restart. *)

From stdpp Require Import sets sorting.
From Stdlib Require Import Sorted.
From S2P Require Import Prelude Bytes OrdMap Search Record Block Bloom Index Footer LegacyBlock SSTable Preflight.
From S2P Require Import WalFormat WalAnalysis Wal WalCrash WalRefine Manifest ManifestTheory Admission Config Store Read.
From S2P Require Import ReadTheory Tables Write WriteTheory Compaction CompactionTheory Root Engine OpenTheory EngineTheory.

Section kv.
Context `{Crc32Spec, FastBloomSpec, Hshape : !FastBloomShape}.
Variables (U : MemtableRecord.t → Prop) (rate : f64) (mode : Logging).
Hypothesis HU : ∀ r, U r → recordable r.
Hypothesis Hroom : roomy rate U.
Implicit Types (s : KV2.t) (w : WriteComponent.t) (hist pend : list MemtableRecord.t).

Definition kv_inv s hist pend : Prop :=
  engine_inv U rate mode (KV2.write_component s) hist pend ∧
  StorageConfig.bloom_false_positive_rate (KV2.config s) = rate.

(** ** Reads *)

Lemma read_keeps s m' hist pend :
  kv_inv s hist pend → same_manifest (open_of (WriteComponent.files (KV2.write_component s)))
    (WriteComponent.manifest (KV2.write_component s)) m' →
  kv_inv (KV2.set_write s (WriteComponent.set_manifest (KV2.write_component s) m')) hist pend.
Proof.
  intros [(n & b & He) Hr] (Hs & Hf & Hc). split; [|done]. exists n, b. simpl.
  set (w := KV2.write_component s) in *. change (WriteComponent.set_manifest w m')
    with (WriteComponent.set_files (WriteComponent.set_manifest w m') (WriteComponent.files w)).
  pose proof (ea_cat _ _ _ _ _ _ _ _ He) as [Hl Hn Hg Hfs Hca Ht].
  assert (catalogue_records m' (WriteComponent.files w) = catalogue_records (WriteComponent.manifest w) (WriteComponent.files w)) as Hcr
    by (unfold catalogue_records; by rewrite Hs).
  apply engine_tables; try done.
  - split; rewrite ?Hs; try done; [|by apply Hc]. intros Hlen. rewrite Hf in Hlen.
    destruct (Hg Hlen) as (x & Hx). exists x. by rewrite Hf, Hs.
  - intros k. by rewrite Hcr.
  - intros r. by rewrite Hcr.
  - by rewrite Hs.
Qed.
Lemma get_ends key s hist pend :
  kv_inv s hist pend →
  ∃ s', KV2.get key s = (Ok (visible (newest key hist)), s') ∧ kv_inv s' hist pend.
Proof.
  intros Hi. pose proof Hi as [(n & b & He) _]. pose proof (engine_store _ _ _ _ _ _ _ _ He) as Hst.
  destruct (get_runs _ _ _ _ _ key Hst) as (o & (m' & Hg & Hs) & Hv). rewrite (engine_view _ _ _ _ _ _ _ _ key He) in Hv.
  eexists. split; [|by eapply read_keeps]. rewrite <- Hv. unfold KV2.get, KV2.get_record, KV2.on_read, mbind, eff_bind.
  change (KV2.current_sequence_number s) with (WriteComponent.sequence_number (KV2.write_component s)).
  unfold open_of in Hg. rewrite Hg. destruct o as [r|]; [|done]. unfold mret, eff_ret. simpl.
  by destruct (MemtableRecord.record_type r).
Qed.
Lemma scan_ends range s hist pend :
  kv_inv s hist pend →
  ∃ l s', KV2.scan range s = (Ok l, s') ∧ kv_inv s' hist pend ∧ StronglySorted klt (fst <$> l) ∧
    ∀ k v, (k, v) ∈ l ↔ key_in_range k range = true ∧ visible (newest k hist) = Some v.
Proof.
  intros Hi. pose proof Hi as [(n & b & He) _]. pose proof (engine_store _ _ _ _ _ _ _ _ He) as Hst.
  destruct (scan_spec _ _ _ _ _ range Hst) as (l & m' & Hg & Hs & Hso & Hv).
  exists l. eexists. split; [|split; [by eapply read_keeps|split; [done|]]].
  - unfold KV2.scan, KV2.on_read. change (KV2.current_sequence_number s) with (WriteComponent.sequence_number (KV2.write_component s)).
    unfold open_of in Hg. by rewrite Hg.
  - intros k v. by rewrite Hv, (engine_view _ _ _ _ _ _ _ _ k He).
Qed.

(** ** Maintenance *)

Definition flush_clean (ff : FlushFaults) : Prop := clean (ff_register ff) ∧ clean (ff_mark ff) ∧ clean (ff_publish ff).

Lemma on_write_ends {A} (p : eff WriteComponent.t A) s hist pend (Q : A → WriteComponent.t → Prop) :
  ends (λ w, engine_inv U rate mode w hist pend) Q p (KV2.write_component s) →
  StorageConfig.bloom_false_positive_rate (KV2.config s) = rate →
  ends (λ s', kv_inv s' hist pend) (λ a s', Q a (KV2.write_component s')) (KV2.on_write p) s.
Proof.
  intros Hp Hr. unfold ends, KV2.on_write in *. destruct (p (KV2.write_component s)) as [[a|e|] w']; [|done|done].
  by destruct Hp.
Qed.
Lemma maintain_ends ff s hist pend :
  kv_inv s hist pend → flush_clean ff →
  ends (λ s', kv_inv s' hist pend) (λ _ _, True) (KV2.maintain_after_commit ff) s.
Proof.
  intros Hi (Hcr & Hcm & Hcp).
  assert (ends (λ s', kv_inv s' hist pend) (λ _ _, True) (KV2.maybe_flush_and_compact ff) s) as Hm.
  { unfold ends, KV2.maybe_flush_and_compact. destruct (_ <? _); [done|].
    match goal with |- match ?p s with _ => _ end => change (ends (λ s', kv_inv s' hist pend) (λ _ _, True) p s) end.
    destruct Hi as [Hi Hr]. eapply ends_bind; [apply on_write_ends; [by apply flush_ends | done]|].
    intros x s1 [Hi1 Hr1] _. unfold ends. by destruct (_ <=? _). }
  unfold ends, KV2.maintain_after_commit in *. destruct (KV2.maybe_flush_and_compact ff s) as [[]]; [split; [apply Hm | done] | done | done].
Qed.
Lemma trigger_ends fuel level cf checks s hist pend :
  kv_inv s hist pend → clean (cf_publish cf) →
  ends (λ s', kv_inv s' hist pend) (λ _ _, True) (KV2.run_trigger fuel level cf checks) s.
Proof.
  intros [(n & b & He) Hr] Hcl. unfold ends, KV2.run_trigger. set (w := KV2.write_component s) in *.
  set (d := mkDisk _ _ _). pose proof (ea_cat _ _ _ _ _ _ _ _ He) as Hc.
  assert (∀ r, r ∈ catalogue_records (d_manifest d) (d_files d) → U r) as Hcu.
  { intros r Hin. eapply ea_u; [done|]. apply elem_of_app. left. by apply (ea_shows _ _ _ _ _ _ _ _ He). }
  pose proof (compact_levels_ends d (KV2.config s) cf) as Hce. unfold ends in Hce.
  specialize (Hce ltac:(apply Forall_forall; auto)
    ltac:(rewrite Hr; intros i rs Hin; apply Hroom; intros r Hrs; by apply Hcu, Hin) Hcl fuel level d (view_kept_refl d Hc)).
  destruct (compact_levels fuel level (KV2.config s) cf d) as [r d'].
  assert (view_kept d d' → kv_inv (KV2.set_write s (WriteComponent.set_files (WriteComponent.set_manifest w (d_manifest d'))
    (d_files d'))) hist pend) as Hk.
  { intros [Hc' Hv Hs Hre]. split; [|done]. exists n, b. by apply engine_tables. }
  destruct r; [split; [by apply Hk, Hce | done] | split; [by apply Hk | done] | done].
Qed.
Lemma worker_ends fuel cf checks s hist pend :
  kv_inv s hist pend → clean (cf_publish cf) →
  ends (λ s', kv_inv s' hist pend) (λ _ _, True) (KV2.run_compaction_worker fuel cf checks) s.
Proof.
  intros Hi Hcl. unfold ends, KV2.run_compaction_worker. destruct (KV2.triggers s) as [|l ls]; [done|].
  by apply (trigger_ends fuel l cf checks (KV2.mk _ _ ls)).
Qed.
Lemma shutdown_ends fuel cf checks s hist pend :
  kv_inv s hist pend → clean (cf_publish cf) →
  ends (λ s', kv_inv s' hist pend) (λ _ _, True) (KV2.shutdown fuel cf checks) s.
Proof.
  intros Hi Hcl. unfold ends, KV2.shutdown. generalize (KV2.triggers s) as ls.
  assert (∀ ls s, kv_inv s hist pend → ends (λ s', kv_inv s' hist pend) (λ _ _, True) (KV2.drain_triggers fuel ls cf checks) s) as Hd.
  { intros ls. induction ls as [|l ls IH]; intros s' Hs'; [by apply ends_ret|]. cbn [KV2.drain_triggers].
    eapply ends_bind; [by apply trigger_ends|]. intros _ s1 Hs1 _. by apply IH. }
  intros ls. by apply (Hd ls (KV2.mk _ _ [])).
Qed.

End kv.

(** ** Writes *)

Section inline.
Context `{Crc32Spec, FastBloomSpec, Hshape : !FastBloomShape}.
Variables (U : MemtableRecord.t → Prop) (rate : f64).
Hypothesis HU : ∀ r, U r → recordable r.
Hypothesis Hroom : roomy rate U.
Implicit Types (s : KV2.t) (w : WriteComponent.t) (hist pend : list MemtableRecord.t).
Abbreviation inline_inv := (kv_inv U rate Inline).


(** The operations a universe of records has room for. *)
Definition ops_ok (os : list BatchOperation) : Prop :=
  ∀ o lsn, o ∈ os → is_u64 lsn → U (rec_of (command_of o lsn)).

Lemma write_ends os f s hist pend :
  inline_inv s hist pend → ops_ok os → os ≠ [] → flush_clean (KV2.wf_flush f) →
  match KV2.write_batch os f s with
  | (Ok _, s') => pend = [] ∧ inline_inv s' (hist ++ ops_records (KV2.current_sequence_number s) os) []
  | (Err _, s') => inline_inv s' hist pend ∨ pend = [] ∧ inline_inv s' hist (ops_records (KV2.current_sequence_number s) os)
  | (Panic, _) => False
  end.
Proof.
  intros Hi Hok Hne Hfc. pose proof Hi as [He Hr]. unfold KV2.write_batch.
  replace (match os with [] => mret tt | _ => _ end) with
    (KV2.on_write (WriteComponent.write_batch os (KV2.wf_rotate f) (KV2.wf_write f)) ≫= λ _, KV2.maintain_after_commit (KV2.wf_flush f))
    by (by destruct os).
  unfold mbind, eff_bind, KV2.on_write.
  pose proof (engine_write U rate Inline HU Hroom _ _ _ os (KV2.wf_rotate f) (KV2.wf_write f) eq_refl He Hne Hok) as Hw.
  fold (KV2.current_sequence_number s) in Hw.
  destruct (WriteComponent.write_batch os (KV2.wf_rotate f) (KV2.wf_write f) (KV2.write_component s)) as [[u|e|] w'] eqn:Ew; [| |done].
  - destruct Hw as [Hp Hw].
    pose proof (maintain_ends U rate Inline HU Hroom (KV2.wf_flush f) (KV2.set_write s w') _ [] (conj Hw Hr) Hfc) as Hm. unfold ends in Hm.
    destruct (KV2.maintain_after_commit (KV2.wf_flush f) (KV2.set_write s w')) as [[]] eqn:Em; [split; [done | apply Hm] | | done].
    exfalso. unfold KV2.maintain_after_commit in Em. by destruct (KV2.maybe_flush_and_compact _ _) as [[]].
  - destruct Hw as [Hw|[-> Hw]]; [by left | by right].
Qed.

(** ** Restarts *)

(** The manifest as a restart reads it. *)
Lemma reload_catalogue m files :
  catalogue m files → len (ManifestManager.file m) <= u64_max →
  ∃ m', ManifestManager.load_or_create (Some (ManifestManager.file m)) = Ok m' ∧ catalogue m' files ∧
    lvls m' = lvls m ∧ recovery m' = recovery m.
Proof.
  intros [Hl Hn Hg Hf Hc Ht] Hlen. destruct (Hg Hlen) as (s & Hr & Ha & Hlv). pose proof Ha as [Hv Hac Hre Hle Hne].
  unfold ManifestManager.load_or_create. simpl. rewrite Hr. cbn [mbind res_bind mret res_ret].
  eexists. split; [done|]. simpl. split_and!; [|done | done]. split; simpl; try done; [lia | | by rewrite Hle].
  intros _. exists s. split_and!; [done | | done]. split; simpl; done || lia.
Qed.
(** The log as a restart finds it. *)
Lemma reopen_log (l : Wal.t) log max :
  good l log → wal_typed l →
  ∃ l' recs, Wal.new_inner (Wal.dir l) max (Wal.checkpoint l) true = Ok l' ∧ Wal.recover_records l' = Ok recs ∧
    cmds_of recs log ∧ wal_inv l' recs ∧ Wal.checkpoint l' = Wal.checkpoint l ∧ wal_typed l'.
Proof.
  intros (recs & Hc & (segs0 & id & fs & file & next & Hls & Hd & Hn) & _) Ht.
  destruct (open_ok _ _ _ _ _ _ _ _ max true Hls Hd Hn) as (l' & Ho & Hi & _ & Hck & Hid & Hids).
  exists l', recs. split; [done|]. split; [|split; [done|]; split; [done|]; split; [done|]; split].
  - destruct Hi as (Hp & _ & segs0' & fs' & Hls' & _). destruct (analyze_run l' segs0' fs' recs false Hp Hls') as (a & Ha & Hr & _).
    unfold Wal.recover_records. by rewrite Ha, <- Hr.
  - rewrite Hid. destruct Hls as [_ (old & Hdir & _) _ _ _ _ _ _]. destruct Ht as [_ Ht]. unfold dir_typed in Ht.
    rewrite Forall_forall in Ht. apply (Ht (id, file)). rewrite Hdir. apply elem_of_app. right. apply elem_of_app. right. by left.
  - eapply dir_typed_ids; [exact Hids | apply Ht].
Qed.
Lemma elem_of_snapshot (l : levels_map) next x :
  levels_ok l next → x ∈ (snapshot_levels l : list _) ≫= snd → listed l x.
Proof.
  intros Hl ([lv xs] & Hx & ([lv' fs] & [= -> ->] & Hin)%list_elem_of_fmap)%list_elem_of_bind. simpl in Hx.
  apply list_elem_of_In, in_map_iff in Hx as ([id x'] & Hx' & He). simpl in Hx'. subst x'. apply list_elem_of_In in He.
  apply om_get_Some in Hin; [|apply (lv_wf _ _ Hl)].
  apply om_get_Some in He; [|by eapply (lv_files _ _ Hl)].
  destruct (lv_meta _ _ Hl _ _ _ _ Hin He) as (<- & <- & _). by exists fs.
Qed.

(** What is under the root of an engine that stopped. *)
Definition root_of (ex : bytes → bool) s : RootDisk :=
  let w := KV2.write_component s in
  mkRootDisk ex (Some (ManifestManager.file (WriteComponent.manifest w))) (Wal.dir (WriteComponent.wal w))
    (WriteComponent.files w) [].
(** No entry reserves the root for the experimental engine. *)
Definition plain_root (ex : bytes → bool) : Prop := Forall (λ a, ex a = false) EXPERIMENTAL_BOOTSTRAP_ARTIFACTS.

Lemma plain_root_ok ex : plain_root ex → ensure_not_experimental_storage ex = Ok tt.
Proof.
  intros Hp. unfold ensure_not_experimental_storage. replace (List.find ex _) with (@None bytes); [done|].
  induction Hp as [|a l Ha _ IH]; [done|]. simpl. by rewrite Ha.
Qed.
Lemma engine_restart w hist pend n b m' (l' : Wal.t) recs dir seq token :
  engine_at U rate Inline w hist pend n b → utf8_valid dir = true → catalogue m' (WriteComponent.files w) →
  lvls m' = lvls (WriteComponent.manifest w) → recovery m' = recovery (WriteComponent.manifest w) →
  wal_inv l' recs → wal_typed l' → Wal.checkpoint l' = recovery (WriteComponent.manifest w) →
  (∃ log, cmds_of recs log ∧ Forall typed log ∧ rec_of <$> log = drop b hist ++ pend) →
  ∀ tab mx size, build_recovered_memtable recs = (tab, mx, size) →
  seq = Z.max mx (match recovery m' with Some c => committed_sequence c | None => 0 end) →
  engine_at U rate Inline (WriteComponent.restore_memtable
    (WriteComponent.with_payload_mode dir l' m' (WriteComponent.files w) seq rate Inline token) tab size) (hist ++ pend) [] b b.
Proof.
  intros [] Hdir Hc Hl Hrec Hi Hty Hck (log & Hcm & Ht & Hlog) tab mx size Hb Hseq.
  pose proof (proj1 (increasing_app _ _) ea_lsn) as (_ & _ & Hlt).
  assert (drop b (hist ++ pend) = drop b hist ++ pend) as Hd by (rewrite drop_app_le; [done | lia]).
  destruct (recovered_records recs log Hcm) as (tab' & mx' & size' & Hb' & Hm & Hmx & Hrs & Hle); [|done|].
  { rewrite Hlog, <- Hd. pose proof ea_lsn as Hinc. rewrite <- (take_drop b (hist ++ pend)) in Hinc. by apply increasing_app in Hinc as (_ & ? & _). }
  rewrite Hb in Hb'. injection Hb' as <- <- <-. rewrite Hlog, <- Hd in Hrs, Hle.
  assert (shows m' (WriteComponent.files w) (hist ++ pend) b) as Hsh.
  { apply shows_more; [lia|]. unfold shows, catalogue_records. rewrite Hl. apply ea_shown. }
  unfold WriteComponent.with_payload_mode.
  destruct (Wal.register_checkpoint_owner l' token) as [owner l2] eqn:Hreg.
  assert (same_log l' l2) as Hsl.
  { unfold Wal.register_checkpoint_owner in Hreg. destruct (_ || _); by injection Hreg as <- <-. }
  pose proof (same_log_inv _ _ _ Hsl Hi) as Hi2. destruct Hsl as (Hsd & Hsi & _ & _ & _ & Hsc).
  split; simpl; try done.
  - by rewrite app_nil_r.
  - by rewrite app_nil_r.
  - subst seq. destruct (recovery m') as [c|] eqn:Ec; [|word_lia].
    rewrite <- Hrec in ea_floor. destruct ea_floor as [? _]. word_lia.
  - intros r Hr. subst seq. rewrite <- (take_drop b (hist ++ pend)) in Hr. apply elem_of_app in Hr as [Hr|Hr%Hle]; [|lia].
    rewrite take_app_le in Hr by lia. rewrite <- Hrec in ea_floor. destruct (recovery m') as [c|].
    + destruct ea_floor as [_ Hf]. specialize (Hf r Hr). lia.
    + subst b. by rewrite take_0 in Hr; apply elem_of_nil in Hr.
  - rewrite length_app. lia.
  - unfold wal_typed. by rewrite Hsi, Hsd.
  - exists log. split_and!; [by eapply good_inv | done|]. by rewrite app_nil_r, Hd.
  - congruence.
  - rewrite Hrec. destruct (recovery (WriteComponent.manifest w)); [|done]. by rewrite take_app_le by lia.
Qed.
Lemma reopen_ok base ex config token s hist pend :
  inline_inv s hist pend → plain_root ex → utf8_valid (path_join base SSTABLE_DIR) = true →
  StorageConfig.bloom_false_positive_rate config = rate →
  len (ManifestManager.file (WriteComponent.manifest (KV2.write_component s))) <= u64_max →
  ∃ s', KV2.open base (root_of ex s) config token = Ok s' ∧ inline_inv s' (hist ++ pend) [].
Proof.
  intros [(n & b & He) Hr] Hex Hdir Hrate Hlen. set (w := KV2.write_component s) in *.
  destruct (reload_catalogue _ _ (ea_cat _ _ _ _ _ _ _ _ He) Hlen) as (m' & Hm' & Hc' & Hl & Hrec).
  destruct (ea_log _ _ _ _ _ _ _ _ He) as (log & Hg & Ht & Hlog).
  destruct (reopen_log _ _ (StorageConfig.wal_segment_size config) Hg (ea_wal _ _ _ _ _ _ _ _ He))
    as (l' & recs & Ho & Hrr & Hcm & Hi & Hck & Hty).
  pose proof (ea_ckpt _ _ _ _ _ _ _ _ He) as Hckpt. rewrite Hckpt in Ho, Hck.
  unfold KV2.open, root_of. fold w. cbn [rd_exists rd_manifest rd_wal rd_files rd_special].
  rewrite (plain_root_ok ex Hex), Hm'. cbn [mbind res_bind].
  rewrite validate_tables_ok.
  2: { eapply tables_inv_subset; [|apply (ca_tables _ _ Hc')]. intros x. apply (elem_of_snapshot _ _ _ (ca_levels _ _ Hc')). }
  cbn [mbind res_bind]. change (ManifestSnapshot.recovery_checkpoint (ManifestManager.snapshot m')) with (recovery m').
  rewrite Hrec, Ho. cbn [mbind res_bind]. rewrite Hrr. cbn [mbind res_bind].
  destruct (build_recovered_memtable recs) as [[tab mx] size] eqn:Hb.
  set (l2 := match recovery _ with Some c => _ | None => l' end).
  assert (wal_inv l2 recs ∧ wal_typed l2 ∧ Wal.checkpoint l2 = recovery (WriteComponent.manifest w)) as (Hi2 & Hty2 & Hck2).
  { unfold l2. destruct (recovery (WriteComponent.manifest w)) as [c|]; [|done].
    destruct (reclaim_keeps l' c recs Hi Hck) as [? ?]. split_and!; try done; by apply reclaim_typed. }
  eexists. split; [done|]. split; [|done]. exists b, b. simpl. rewrite Hrate.
  eapply (engine_restart w hist pend n b m' l2 recs); try done; [by exists log | by rewrite Hrec].
Qed.

(** A new root. *)
Definition fresh_root (ex : bytes → bool) : RootDisk := mkRootDisk ex None empty_dir [] [].
Lemma fresh_catalogue m : ManifestManager.load_or_create None = Ok m → catalogue m [] ∧ lvls m = [] ∧ recovery m = None.
Proof.
  intros Hm. pose proof (mgood_fresh m Hm) as Hg. injection Hm as <-. split_and!; [|done | done].
  split; simpl; try done; [apply levels_ok_nil | apply om_wf_nil|].
  assert (∀ x, ~ listed [] x) as Hno by (by intros x (fs & Hx & _)).
  assert (∀ r, ~ stored [] (listed []) r) as Hns by (intros r (x & Hx & _); by apply (Hno x)).
  split; intros; exfalso; naive_solver.
Qed.
Lemma fresh_log max l :
  Wal.new_inner empty_dir max None true = Ok l →
  Wal.recover_records l = Ok [] ∧ good l [] ∧ wal_typed l ∧ Wal.checkpoint l = None.
Proof.
  intros Hl. pose proof (fresh_good _ _ _ Hl) as Hg. split; [|split; [done|]].
  - destruct Hg as (recs & Hc & _ & Hi). apply Forall2_nil_inv_r in Hc as ->.
    destruct Hi as (Hp & _ & segs0 & fs & Hls & _); [by injection Hl as <-|].
    destruct (analyze_run l segs0 fs [] false Hp Hls) as (a & Ha & Hr & _). unfold Wal.recover_records. by rewrite Ha, <- Hr.
  - injection Hl as <-. split; [|done]. split; [done|]. by repeat constructor.
Qed.
Lemma fresh_ok base ex config token :
  plain_root ex → utf8_valid (path_join base SSTABLE_DIR) = true → StorageConfig.bloom_false_positive_rate config = rate →
  ∃ s, KV2.open base (fresh_root ex) config token = Ok s ∧ inline_inv s [] [].
Proof.
  intros Hex Hdir Hrate. unfold KV2.open, fresh_root. cbn [rd_exists rd_manifest rd_wal rd_files rd_special].
  rewrite (plain_root_ok ex Hex). cbn [mbind res_bind].
  destruct (ManifestManager.load_or_create None) as [m|e|] eqn:Hm; [| done | done]. cbn [mbind res_bind].
  destruct (fresh_catalogue m Hm) as (Hc & Hl & Hr). unfold ManifestManager.snapshot, snapshot_from_state.
  cbn [ManifestSnapshot.levels ManifestSnapshot.recovery_checkpoint]. rewrite Hl, Hr. cbn [snapshot_levels fmap list_fmap mbind list_bind validate_tables res_bind].
  destruct (Wal.new_inner empty_dir (StorageConfig.wal_segment_size config) None true) as [l|e|] eqn:Hw; [|done|done].
  destruct (fresh_log _ _ Hw) as (Hrr & Hg & Hty & Hck). cbn [mbind res_bind mret]. change (mret tt) with (Ok tt). cbn [mbind res_bind].
  rewrite Hrr. cbn [mbind res_bind build_recovered_memtable foldl].
  eexists. split; [done|]. split; [|done]. exists O, O. simpl. unfold WriteComponent.with_payload_mode.
  destruct (Wal.register_checkpoint_owner l token) as [owner l2] eqn:Hreg.
  assert (same_log l l2) as Hsl.
  { unfold Wal.register_checkpoint_owner in Hreg. destruct (_ || _); by injection Hreg as <- <-. }
  pose proof (same_log_good _ _ _ Hsl Hg) as Hg2. destruct Hsl as (Hsd & Hsi & _ & _ & _ & Hsc).
  assert (shows m [] [] 0) as Hsh by (unfold shows, catalogue_records; rewrite Hl; split; [by intros r ?%elem_of_nil | done]).
  split; simpl; try done.
  - constructor.
  - by intros r ?%elem_of_nil.
  - by intros r ?%elem_of_nil.
  - split; [apply om_wf_nil | constructor].
  - unfold wal_typed. by rewrite Hsi, Hsd.
  - exists []. split_and!; [done | constructor | done].
  - congruence.
  - by rewrite Hr.
Qed.
End inline.
