(* ===== verification/Api.v ===== *)
(** * The engine interface: [src/src/api/api.rs]

    [AsyncKVEngine] is what a key-value engine offers to the layers above it.
    The class has its methods, with an argument for what the disk does to a
    write; [AsyncKVEngineSpec] has its contract, in terms of the ordered map an
    engine holds: reads return what the map has and leave it alone, a write
    that succeeds applies its operations in order, one that fails applies
    none. *)

From S2P Require Import Prelude Bytes OrdMap Store Read Admission.

(** ** The map *)

Definition apply_op (m : ordmap bytes bytes) (o : BatchOperation) : ordmap bytes bytes :=
  match o with
  | BatchPut key value => om_insert key value m
  | BatchDelete key => om_remove key m
  end.
Definition apply_ops (os : list BatchOperation) (m : ordmap bytes bytes) : ordmap bytes bytes := foldl apply_op m os.

Lemma apply_op_wf m o : om_wf m → om_wf (apply_op m o).
Proof. destruct o; [apply om_insert_wf | apply om_remove_wf]. Qed.
Lemma apply_ops_wf os m : om_wf m → om_wf (apply_ops os m).
Proof. revert m. induction os as [|o os IH]; intros m Hm; [done|]. by apply IH, apply_op_wf. Qed.

Definition op_key_of (o : BatchOperation) : bytes := match o with BatchPut k _ | BatchDelete k => k end.
Definition op_result (o : BatchOperation) : option bytes := match o with BatchPut _ v => Some v | BatchDelete _ => None end.

Lemma get_apply_op k o m :
  om_get k (apply_op m o) = if decide (op_key_of o = k) then op_result o else om_get k m.
Proof.
  case_decide as Hk; destruct o; simpl in *; subst;
    [apply om_get_insert_eq | apply om_get_remove_eq | by rewrite om_get_insert_ne | by rewrite om_get_remove_ne].
Qed.
(** Operations on other keys do not matter. *)
Lemma get_apply_notin k os m : k ∉ op_key_of <$> os → om_get k (apply_ops os m) = om_get k m.
Proof.
  unfold apply_ops. revert m. induction os as [|o os IH]; intros m; [done|]. rewrite fmap_cons, not_elem_of_cons. intros [Hk Hos].
  cbn [foldl]. rewrite IH, get_apply_op, decide_False by done. done.
Qed.
(** With one operation per key, a key has the result of its operation. *)
Lemma get_apply_in o os m :
  NoDup (op_key_of <$> os) → o ∈ os → om_get (op_key_of o) (apply_ops os m) = op_result o.
Proof.
  unfold apply_ops. revert m. induction os as [|x os IH]; intros m Hn Ho; [by apply elem_of_nil in Ho|].
  rewrite fmap_cons in Hn. apply NoDup_cons in Hn as [Hx Hn]. cbn [foldl].
  apply elem_of_cons in Ho as [->|Ho]; [|by apply IH]. fold (apply_ops os (apply_op m x)).
  by rewrite get_apply_notin, get_apply_op, decide_True by done.
Qed.

(** ** The trait *)

Definition unsupported_batch : DBError := StorageError "atomic batches are unsupported by this engine".
Definition unsupported_barrier : DBError := StorageError "pending-write barriers are unsupported by this engine".

Class AsyncKVEngine (S : Type) : Type := {
  write_fault : Type;
  eng_get : bytes → eff S (option bytes);
  eng_put : bytes → bytes → write_fault → eff S unit;
  eng_delete : bytes → write_fault → eff S unit;
  eng_write_batch : list BatchOperation → write_fault → eff S unit;
  eng_await_pending_writes : eff S unit;
  eng_scan : key_range → eff S (list (bytes * bytes))
}.

(** [holds s m p]: the engine in state [s] has the map [m], and [p] is a batch
    whose write failed but that the next restart may bring back ([[]] when
    there is none).  What a write of [os] may do to it: *)
Definition wrote {S} (holds : S → ordmap bytes bytes → list BatchOperation → Prop) (os : list BatchOperation)
    (m : ordmap bytes bytes) (p : list BatchOperation) (r : res unit * S) : Prop :=
  match r with
  | (Ok _, s) => os = [] ∧ holds s m p ∨ p = [] ∧ holds s (apply_ops os m) []
  | (Err _, s) => holds s m p ∨ p = [] ∧ holds s m os
  | (Panic, _) => False
  end.
(** [admissible] are the batches an engine has room for, [fault_ok] the faults
    its contract covers, [restarted] relates a state to what opening its files
    again gives. *)
Class AsyncKVEngineSpec (S : Type) `{AsyncKVEngine S} : Type := {
  holds : S → ordmap bytes bytes → list BatchOperation → Prop;
  admissible : list BatchOperation → Prop;
  fault_ok : write_fault → Prop;
  restarted : S → res S → Prop;
  holds_wf : ∀ s m p, holds s m p → om_wf m;
  get_law : ∀ k s m p, holds s m p → ∃ s', eng_get k s = (Ok (om_get k m), s') ∧ holds s' m p;
  scan_law : ∀ range s m p, holds s m p →
    ∃ s', eng_scan range s = (Ok (List.filter (λ e, key_in_range (fst e) range) m), s') ∧ holds s' m p;
  await_law : ∀ s m p, holds s m p → ∃ s', eng_await_pending_writes s = (Ok tt, s') ∧ holds s' m p;
  put_law : ∀ k v f s m p, holds s m p → admissible [BatchPut k v] → fault_ok f →
    wrote holds [BatchPut k v] m p (eng_put k v f s);
  delete_law : ∀ k f s m p, holds s m p → admissible [BatchDelete k] → fault_ok f →
    wrote holds [BatchDelete k] m p (eng_delete k f s);
  batch_law : ∀ os f s m p, holds s m p → admissible os → fault_ok f →
    wrote holds os m p (eng_write_batch os f s);
  restart_law : ∀ s m p r, holds s m p → restarted s r → ∃ s', r = Ok s' ∧ holds s' (apply_ops p m) []
}.

(** Reads of an engine, as runs that keep the map. *)
Section reads.
Context {S : Type} `{AsyncKVEngineSpec S}.

(** [p] run from any state that holds [m] returns [a] and holds [m] still. *)
Definition reads {A} (m : ordmap bytes bytes) (p : eff S A) (a : res A) : Prop :=
  ∀ s pend, holds s m pend → ∃ s', p s = (a, s') ∧ holds s' m pend.

Lemma reads_ret {A} m (a : A) : reads m (mret a) (Ok a).
Proof. intros s pend Hs. by exists s. Qed.
Lemma reads_pure {A} m (r : res A) : reads m (pure_eff r) r.
Proof. intros s pend Hs. by exists s. Qed.
Lemma reads_bind {A B} m (p : eff S A) (f : A → eff S B) a b :
  reads m p (Ok a) → reads m (f a) b → reads m (p ≫= f) b.
Proof.
  intros Hp Hf s pend Hs. destruct (Hp s pend Hs) as (s1 & Hp1 & Hs1). destruct (Hf s1 pend Hs1) as (s2 & Hf2 & Hs2).
  exists s2. unfold mbind, eff_bind. by rewrite Hp1.
Qed.
Lemma reads_then {A B} m (p : eff S A) (f : A → eff S B) (a : res A) (g : A → res B) :
  reads m p a → (∀ x, a = Ok x → reads m (f x) (g x)) → reads m (p ≫= f) (a ≫= g).
Proof.
  intros Hp Hf s pend Hs. destruct (Hp s pend Hs) as (s1 & Hp1 & Hs1). unfold mbind at 1, eff_bind. rewrite Hp1.
  destruct a as [x|e|]; [by apply (Hf x) | by exists s1 | by exists s1].
Qed.
Lemma reads_fail {A B} m (p : eff S A) (f : A → eff S B) e : reads m p (Err e) → reads m (p ≫= f) (Err e).
Proof. intros Hp s pend Hs. destruct (Hp s pend Hs) as (s1 & Hp1 & Hs1). exists s1. unfold mbind, eff_bind. by rewrite Hp1. Qed.
Lemma reads_get m k : reads m (eng_get k) (Ok (om_get k m)).
Proof. intros s pend. apply get_law. Qed.
Lemma reads_scan m range : reads m (eng_scan range) (Ok (List.filter (λ e, key_in_range (fst e) range) m)).
Proof. intros s pend. apply scan_law. Qed.
Lemma reads_await m : reads m eng_await_pending_writes (Ok tt).
Proof. intros s pend. apply await_law. Qed.

(** [p] does reads, and then what [q] does. *)
Definition leads {A} (m : ordmap bytes bytes) (p q : eff S A) : Prop :=
  ∀ s pend, holds s m pend → ∃ s', p s = q s' ∧ holds s' m pend.
Lemma leads_refl {A} m (p : eff S A) : leads m p p.
Proof. intros s pend Hs. by exists s. Qed.
Lemma leads_bind {A B} m (p : eff S A) (f : A → eff S B) a q :
  reads m p (Ok a) → leads m (f a) q → leads m (p ≫= f) q.
Proof.
  intros Hp Hf s pend Hs. destruct (Hp s pend Hs) as (s1 & Hp1 & Hs1). destruct (Hf s1 pend Hs1) as (s2 & Hf2 & Hs2).
  exists s2. unfold mbind, eff_bind. by rewrite Hp1.
Qed.
Lemma leads_trans {A} m (p q r : eff S A) : leads m p q → leads m q r → leads m p r.
Proof.
  intros Hp Hq s pend Hs. destruct (Hp s pend Hs) as (s1 & -> & Hs1). by apply Hq.
Qed.
Lemma leads_fail {A} m (p : eff S A) e : reads m p (Err e) → leads m p (pure_eff (Err e)).
Proof. intros Hp s pend Hs. destruct (Hp s pend Hs) as (s1 & Hp1 & Hs1). by exists s1. Qed.
(** What an engine holds is what it answers. *)
Lemma holds_unique s m p m' p' : holds s m p → holds s m' p' → m = m'.
Proof.
  intros Hs Hs'. apply om_ext; [by eapply holds_wf..|]. intros k.
  destruct (get_law k s m p Hs) as (s1 & H1' & _), (get_law k s m' p' Hs') as (s2 & H2' & _). congruence.
Qed.
End reads.
