(* ===== verification/KVRefine.v ===== *)
(** * The engine refines a map

    The abstract store is a sorted map with, at most, one batch whose write
    failed and that the next restart may bring back.  Every run of the engine,
    with failures of the disk anywhere in the log, in the tables and before
    the entries of the manifest, with flushes, compactions and restarts, has
    the results the abstract store allows. *)

From stdpp Require Import sets sorting.
From Stdlib Require Import Sorted.
From S2P Require Import Prelude Bytes OrdMap Search Record Block Bloom Index Footer LegacyBlock SSTable Preflight.
From S2P Require Import WalFormat WalAnalysis Wal WalCrash WalRefine Manifest ManifestTheory Admission Config Store Read.
From S2P Require Import ReadTheory Tables Write WriteTheory Compaction CompactionTheory Root Engine OpenTheory EngineTheory KVTheory Api.

(** ** The abstract store *)

Record spec_store : Type := mkSpec { sp_map : ordmap bytes bytes; sp_pending : list BatchOperation }.

(** An operation with the result it had. *)
Inductive kv_event : Type :=
| EWrite (os : list BatchOperation) (r : res unit)
| EGet (key : bytes) (r : res (option bytes))
| EScan (range : key_range) (r : res (list (bytes * bytes)))
| EMaintain (panicked : bool)
| ERestart (opened : bool).

Inductive spec_step : spec_store → kv_event → spec_store → Prop :=
| ss_empty st : spec_step st (EWrite [] (Ok tt)) st
| ss_commit m os : spec_step (mkSpec m []) (EWrite os (Ok tt)) (mkSpec (apply_ops os m) [])
| ss_refused st os e : spec_step st (EWrite os (Err e)) st
| ss_uncertain m os e : spec_step (mkSpec m []) (EWrite os (Err e)) (mkSpec m os)
| ss_get st key : spec_step st (EGet key (Ok (om_get key (sp_map st)))) st
| ss_scan st range :
    spec_step st (EScan range (Ok (List.filter (λ e, key_in_range (fst e) range) (sp_map st)))) st
| ss_maintain st : spec_step st (EMaintain false) st
| ss_restart m os : spec_step (mkSpec m os) (ERestart true) (mkSpec (apply_ops os m) []).
Inductive spec_steps : spec_store → list kv_event → spec_store → Prop :=
| sps_nil st : spec_steps st [] st
| sps_cons st e st1 es st2 : spec_step st e st1 → spec_steps st1 es st2 → spec_steps st (e :: es) st2.

Definition panics {A} (r : res A) : bool := match r with Panic => true | _ => false end.

Section refinement.
Context `{Crc32Spec, FastBloomSpec, Hshape : !FastBloomShape}.
Variables (U : MemtableRecord.t → Prop) (rate : f64).
Hypothesis HU : ∀ r, U r → recordable r.
Hypothesis Hroom : roomy rate U.
Implicit Types (s : KV2.t) (hist pend : list MemtableRecord.t) (m : ordmap bytes bytes) (os : list BatchOperation).

(** ** The runs of the engine *)

(** The operations on an open engine, and stopping it at any point between
    them and opening its root again. *)
Inductive kv_step : KV2.t → kv_event → KV2.t → Prop :=
| ks_write s os f r s' :
    ops_ok U os → flush_clean (KV2.wf_flush f) → KV2.write_batch os f s = (r, s') → kv_step s (EWrite os r) s'
| ks_put s key value f r s' :
    ops_ok U [BatchPut key value] → flush_clean (KV2.wf_flush f) → KV2.put key value f s = (r, s') →
    kv_step s (EWrite [BatchPut key value] r) s'
| ks_delete s key f r s' :
    ops_ok U [BatchDelete key] → flush_clean (KV2.wf_flush f) → KV2.delete key f s = (r, s') →
    kv_step s (EWrite [BatchDelete key] r) s'
| ks_get s key r s' : KV2.get key s = (r, s') → kv_step s (EGet key r) s'
| ks_scan s range r s' : KV2.scan range s = (r, s') → kv_step s (EScan range r) s'
| ks_flush s ff r s' :
    flush_clean ff → KV2.flush_reference_memtable ff s = (r, s') → kv_step s (EMaintain (panics r)) s'
| ks_compact s fuel cf checks r s' :
    clean (cf_publish cf) → KV2.run_compaction_worker fuel cf checks s = (r, s') → kv_step s (EMaintain (panics r)) s'
| ks_shutdown s fuel cf checks r s' :
    clean (cf_publish cf) → KV2.shutdown fuel cf checks s = (r, s') → kv_step s (EMaintain (panics r)) s'
| ks_restart s base ex config token r :
    plain_root ex → utf8_valid (path_join base SSTABLE_DIR) = true →
    StorageConfig.bloom_false_positive_rate config = rate →
    len (ManifestManager.file (WriteComponent.manifest (KV2.write_component s))) <= u64_max →
    KV2.open base (root_of ex s) config token = r →
    kv_step s (ERestart (is_ok r)) (match r with Ok s' => s' | _ => s end).
Inductive kv_steps : KV2.t → list kv_event → KV2.t → Prop :=
| kvs_nil s : kv_steps s [] s
| kvs_cons s e s1 es s2 : kv_step s e s1 → kv_steps s1 es s2 → kv_steps s (e :: es) s2.

(** ** The simulation *)

Definition views hist m : Prop := om_wf m ∧ ∀ k, om_get k m = visible (newest k hist).
Definition sim s (st : spec_store) : Prop :=
  ∃ hist pend seq, kv_inv U rate Inline s hist pend ∧ views hist (sp_map st) ∧ pend = ops_records seq (sp_pending st).

Lemma views_snoc hist m o lsn :
  increasing (hist ++ [rec_of (command_of o lsn)]) → views hist m →
  views (hist ++ [rec_of (command_of o lsn)]) (apply_op m o).
Proof.
  intros Hi [Hw Hm]. set (r := rec_of (command_of o lsn)) in *. split; [destruct o; [by apply om_insert_wf | by apply om_remove_wf]|].
  intros k. destruct (decide (MemtableRecord.key r = k)) as [Hk|Hk].
  - assert (newest k (hist ++ [r]) = Some r) as ->.
    { apply (newest_suffix (length hist)); [done|]. rewrite drop_app_length. unfold newest, newer. simpl. by rewrite bool_decide_true. }
    destruct o; simpl in *; subst; [by rewrite om_get_insert_eq | by rewrite om_get_remove_eq].
  - rewrite newest_app, (proj2 (newest_None k [r])) by (by intros x ->%list_elem_of_singleton). rewrite join_None_r, <- Hm.
    destruct o; simpl in *; [by rewrite om_get_insert_ne | by rewrite om_get_remove_ne].
Qed.
Lemma views_ops seq os hist m :
  increasing (hist ++ ops_records seq os) → views hist m → views (hist ++ ops_records seq os) (apply_ops os m).
Proof.
  revert seq hist m. induction os as [|o os IH]; intros seq hist m; simpl; [by rewrite app_nil_r|].
  intros Hi Hv. rewrite cons_middle, (assoc_L (++)) in Hi |- *. apply (IH _ _ (apply_op m o) Hi).
  apply views_snoc; [|done]. by apply increasing_app in Hi as (? & _).
Qed.
Lemma views_increasing s hist pend : kv_inv U rate Inline s hist pend → increasing (hist ++ pend).
Proof. intros [(n & b & He) _]. by destruct He. Qed.

Lemma sorted_fst (l : list (bytes * bytes)) : StronglySorted klt (fst <$> l) → om_wf l.
Proof.
  unfold om_wf. induction l as [|e l IH]; [constructor|]. rewrite fmap_cons. intros [Hs Hf]%StronglySorted_inv.
  constructor; [by apply IH|]. by rewrite Forall_fmap in Hf.
Qed.
Lemma scan_filter m (l : list (bytes * bytes)) range :
  om_wf m → StronglySorted klt (fst <$> l) →
  (∀ k v, (k, v) ∈ l ↔ key_in_range k range = true ∧ om_get k m = Some v) →
  l = List.filter (λ e, key_in_range (fst e) range) m.
Proof.
  intros Hm Hs%sorted_fst Hl. set (f := λ e : bytes * bytes, key_in_range (fst e) range).
  apply om_ext; [done | by apply filter_om_wf|]. intros k.
  assert (∀ v, om_get k l = Some v ↔ om_get k (List.filter f m) = Some v) as Hv.
  { intros v. rewrite !om_get_Some by (done || by apply filter_om_wf). rewrite Hl, om_filter_get by done. unfold f. simpl. tauto. }
  destruct (om_get k l) as [v|]; [symmetry; by apply Hv|]. destruct (om_get k (List.filter f m)) as [v|]; [|done]. by apply Hv.
Qed.

Lemma sim_write s os f st :
  sim s st → ops_ok U os → flush_clean (KV2.wf_flush f) →
  ∃ st', spec_step st (EWrite os (KV2.write_batch os f s).1) st' ∧ sim (KV2.write_batch os f s).2 st'.
Proof.
  intros (hist & pend & seq & Hi & Hv & Hp) Hok Hfc. destruct (decide (os = [])) as [->|Hne].
  { exists st. split; [constructor|]. by exists hist, pend, seq. }
  pose proof (write_ends U rate HU Hroom os f s hist pend Hi Hok Hne Hfc) as Hw.
  destruct (KV2.write_batch os f s) as [[[]|e|] s']; cbn [fst snd]; [| |done].
  - destruct Hw as [-> Hw]. destruct st as [m [|o p]]; [|done]. exists (mkSpec (apply_ops os m) []).
    split; [constructor|]. eexists _, [], seq. split_and!; [exact Hw | | done].
    apply views_ops; [|done]. pose proof (views_increasing _ _ _ Hw) as Hinc. by rewrite app_nil_r in Hinc.
  - destruct Hw as [Hw|[-> Hw]]; [exists st; split; [constructor | by exists hist, pend, seq]|].
    destruct st as [m [|o p]]; [|done]. exists (mkSpec m os). split; [constructor|]. by eexists hist, _, _.
Qed.
Lemma sim_keeps {A} (p : eff KV2.t A) s st :
  sim s st → (∀ hist pend, kv_inv U rate Inline s hist pend → ends (λ s', kv_inv U rate Inline s' hist pend) (λ _ _, True) p s) →
  spec_step st (EMaintain (panics (p s).1)) st ∧ sim (p s).2 st.
Proof.
  intros (hist & pend & seq & Hi & Hv & Hp) He. specialize (He hist pend Hi). unfold ends in He.
  destruct (p s) as [[a|e|] s']; cbn [fst snd panics]; [| |done]; (split; [constructor|]); exists hist, pend, seq; [|done].
  by destruct He.
Qed.
Lemma sim_restart s base ex config token st :
  sim s st → plain_root ex → utf8_valid (path_join base SSTABLE_DIR) = true →
  StorageConfig.bloom_false_positive_rate config = rate →
  len (ManifestManager.file (WriteComponent.manifest (KV2.write_component s))) <= u64_max →
  ∃ s', KV2.open base (root_of ex s) config token = Ok s' ∧
    sim s' (mkSpec (apply_ops (sp_pending st) (sp_map st)) []).
Proof.
  intros (hist & pend & seq & Hi & Hv & ->) Hex Hd Hc Hl.
  destruct (reopen_ok U rate base ex config token s _ _ Hi Hex Hd Hc Hl) as (s' & Ho & Hi'). exists s'. split; [done|].
  eexists _, [], 0. split_and!; [exact Hi' | | done]. apply views_ops; [|done]. by apply (views_increasing s).
Qed.

Lemma sim_step s e s' st : kv_step s e s' → sim s st → ∃ st', spec_step st e st' ∧ sim s' st'.
Proof.
  intros Hs Hsim. inversion Hs as [? os f r ? Hok Hfc Hr|? key value f r ? Hok Hfc Hr|? key f r ? Hok Hfc Hr
    |? key r ? Hr|? range r ? Hr|? ff r ? Hfc Hr|? fuel cf checks r ? Hcl Hr|? fuel cf checks r ? Hcl Hr
    |? base ex config token r Hex Hd Hc Hl Hr]; subst.
  1-3: match type of Hok with ops_ok _ ?os => destruct (sim_write s os f st Hsim Hok Hfc) as (st' & Hst & Hsim') end;
    first [rewrite Hr in Hst, Hsim' |
           change (KV2.write_batch [BatchPut key value] f s) with (KV2.put key value f s) in *; rewrite Hr in Hst, Hsim' |
           change (KV2.write_batch [BatchDelete key] f s) with (KV2.delete key f s) in *; rewrite Hr in Hst, Hsim']; by exists st'.
  - destruct Hsim as (hist & pend & seq & Hi & [Hw Hv] & Hp).
    destruct (get_ends U rate Inline key s hist pend Hi) as (s2 & Hg & Hi'). rewrite Hr in Hg. injection Hg as -> ->.
    exists st. rewrite <- Hv. split; [constructor | by exists hist, pend, seq].
  - destruct Hsim as (hist & pend & seq & Hi & [Hw Hv] & Hp).
    destruct (scan_ends U rate Inline range s hist pend Hi) as (l & s2 & Hg & Hi' & Hso & Hl). rewrite Hr in Hg. injection Hg as -> ->.
    rewrite (scan_filter (sp_map st) l range Hw Hso) by (intros; by rewrite Hl, Hv).
    exists st. split; [constructor | by exists hist, pend, seq].
  - destruct (sim_keeps (KV2.flush_reference_memtable ff) s st Hsim) as [Hst Hsm].
    { intros hist pend [Hi Hrt]. destruct Hfc as (H1' & H2' & H3'). eapply ends_bind; [apply on_write_ends; [by apply flush_ends | done]|].
      intros x s1 Hs1 _. by apply ends_ret. }
    rewrite Hr in Hst, Hsm. by exists st.
  - destruct (sim_keeps (KV2.run_compaction_worker fuel cf checks) s st Hsim) as [Hst Hsm].
    { intros hist pend Hi. by apply worker_ends. }
    rewrite Hr in Hst, Hsm. by exists st.
  - destruct (sim_keeps (KV2.shutdown fuel cf checks) s st Hsim) as [Hst Hsm].
    { intros hist pend Hi. by apply shutdown_ends. }
    rewrite Hr in Hst, Hsm. by exists st.
  - destruct (sim_restart s base ex config token st Hsim Hex Hd Hc Hl) as (s' & Ho & Hsim'). rewrite Ho. simpl.
    eexists. split; [|exact Hsim']. destruct st. constructor.
Qed.
Lemma sim_steps s es s' st : kv_steps s es s' → sim s st → ∃ st', spec_steps st es st' ∧ sim s' st'.
Proof.
  intros Hs. revert st. induction Hs as [s|s e s1 es s2 Hst _ IH]; intros st Hsim; [exists st; split; [constructor | done]|].
  destruct (sim_step s e s1 st Hst Hsim) as (st1 & H1' & Hsim1). destruct (IH st1 Hsim1) as (st2 & H2' & Hsim2).
  exists st2. split; [by econstructor | done].
Qed.
Lemma sim_fresh base ex config token s :
  plain_root ex → utf8_valid (path_join base SSTABLE_DIR) = true → StorageConfig.bloom_false_positive_rate config = rate →
  KV2.open base (fresh_root ex) config token = Ok s → sim s (mkSpec [] []).
Proof.
  intros Hex Hd Hc Ho. destruct (fresh_ok U rate base ex config token Hex Hd Hc) as (s' & Ho' & Hi). rewrite Ho in Ho'. injection Ho' as <-.
  exists [], [], 0. split_and!; [done | split; [apply om_wf_nil | done] | done].
Qed.
End refinement.

(** ** Stores with few keys have room

    With finitely many keys and bounded records, and filters of a bounded
    size, every table fits. *)

Section room.
Context `{FastBloom}.
Variables (ks : list bytes) (bound size : Z) (rate : f64).

Definition small_record (r : MemtableRecord.t) : Prop :=
  recordable r ∧ MemtableRecord.key r ∈ ks ∧ rec_size r <= bound.

Lemma keys_sorted_NoDup rs : keys_sorted rs → NoDup (MemtableRecord.key <$> rs).
Proof.
  intros Hs. induction Hs as [|r rs Hs IH Hf]; simpl; constructor; [|done].
  intros (r' & Hk & Hr')%list_elem_of_fmap. rewrite Forall_forall in Hf. specialize (Hf r' Hr').
  rewrite <- Hk in Hf. by apply klt_irrefl in Hf.
Qed.
Lemma packed_bound_small rs :
  (∀ r, r ∈ rs → rec_size r <= bound) → packed_bound rs <= len rs * (20 + 3 * bound).
Proof.
  induction rs as [|r rs IH]; intros Hb; [done|]. rewrite len_cons. cbn [packed_bound foldr]. fold (packed_bound rs).
  pose proof (Hb r ltac:(by left)). specialize (IH ltac:(intros; apply Hb; by right)). nia.
Qed.
Lemma small_roomy :
  0 <= bound → (∀ n rs, len (BloomFilterWrapper.encode (bloom_for n rate rs)) <= size) →
  2 * (len ks * (20 + 3 * bound)) + 72 + size <= isize_max → roomy rate small_record.
Proof.
  intros Hb Hs Hfit n rs Hrs Hk _. unfold table_fits. specialize (Hs n rs).
  pose proof (packed_bound_small rs ltac:(intros r Hr; apply (Hrs r Hr))).
  assert (len rs <= len ks); [|nia]. unfold len. rewrite <- (length_fmap MemtableRecord.key rs).
  apply Nat2Z.inj_le, submseteq_length, NoDup_submseteq; [by apply keys_sorted_NoDup|].
  intros k (r & -> & Hr)%list_elem_of_fmap. apply (Hrs r Hr).
Qed.
End room.

(** ** Properties *)

Section props.
Context `{Crc32Spec, FastBloomSpec, Hshape : !FastBloomShape}.
Variables (U : MemtableRecord.t → Prop) (rate : f64).
Hypothesis HU : ∀ r, U r → recordable r.
Hypothesis Hroom : roomy rate U.



End props.

(** ** Witnesses

    A memtable of a few bytes, so that the first put flushes and asks for a
    compaction; then a put whose log write fails after its last byte. *)

Definition kv_config : StorageConfig.t := StorageConfig.mk 4 4096 1 1000 1000 10 (1024 * 1024) f64_001 64.
Definition kv_open (root : RootDisk) : res KV2.t := @KV2.open ieee toy_fastbloom [x64] root kv_config 7.
Definition kv_none (_ : bytes) : bool := false.
Definition kv_state (r : res KV2.t) : KV2.t :=
  match r with
  | Ok s => s
  | _ => KV2.mk kv_config (@WriteComponent.with_payload_mode [] sample_wal0 read_manifest [] 0 f64_001 Inline 0) []
  end.
Definition kv_fine : KV2.WriteFaults := KV2.mkWriteFaults None None no_faults.
Definition kv_torn : KV2.WriteFaults := KV2.mkWriteFaults None (Some (OtherIo, 500%nat)) no_faults.
Definition kv_op1 : BatchOperation := BatchPut [x61] [x31; x32; x33; x34].
Definition kv_op2 : BatchOperation := BatchPut [x62] [x35].
Definition kv_all : key_range := (Unbounded, Unbounded).
Definition kv_work : CompactionFaults := mkCompactionFaults None None.
Definition kv_state0 : KV2.t := Eval vm_compute in kv_state (kv_open (fresh_root kv_none)).
Definition kv_state1 : KV2.t := Eval vm_compute in (@KV2.write_batch ieee toy_fastbloom [kv_op1] kv_fine kv_state0).2.
Definition kv_state2 : KV2.t := Eval vm_compute in (@KV2.run_compaction_worker ieee toy_fastbloom 5 kv_work None kv_state1).2.
Definition kv_state3 : KV2.t := Eval vm_compute in (@KV2.write_batch ieee toy_fastbloom [kv_op2] kv_torn kv_state2).2.
Definition kv_state4 : KV2.t := Eval vm_compute in (@KV2.scan ieee toy_fastbloom kv_all kv_state3).2.
Definition kv_state5 : KV2.t := Eval vm_compute in kv_state (kv_open (root_of kv_none kv_state4)).
Definition kv_state6 : KV2.t := Eval vm_compute in (@KV2.scan ieee toy_fastbloom kv_all kv_state5).2.
Definition kv_events : list kv_event :=
  [EWrite [kv_op1] (Ok tt); EMaintain false; EWrite [kv_op2] (Err (IO OtherIo));
   EScan kv_all (Ok [([x61], [x31; x32; x33; x34])]); ERestart true;
   EScan kv_all (Ok [([x61], [x31; x32; x33; x34]); ([x62], [x35])])].
Definition kv_universe : MemtableRecord.t → Prop := small_record [[x61]; [x62]] 100.

Lemma kv_universe_roomy : @roomy toy_fastbloom f64_001 kv_universe.
Proof.
  apply (small_roomy _ 100 44); [lia | | vm_compute; discriminate]. intros n rs. unfold BloomFilterWrapper.encode.
  rewrite !len_app, !len_to_be. simpl. rewrite app_nil_r, len_to_be. vm_compute. discriminate.
Qed.
Lemma kv_ops_ok o : o ∈ [kv_op1; kv_op2] → ops_ok kv_universe [o].
Proof.
  intros Ho o' lsn ->%list_elem_of_singleton Hl.
  apply elem_of_cons in Ho as [-> | ->%list_elem_of_singleton]; (split; [|split]); try set_solver;
    try (split; [split; [split_and!; [apply Hl | apply Hl | done | done] | done] | done]); done.
Qed.
Lemma kv_opens : kv_open (fresh_root kv_none) = Ok kv_state0.
Proof. vm_compute. reflexivity. Qed.
Lemma kv_plain : plain_root kv_none.
Proof. by repeat constructor. Qed.
Lemma kv_steps_sample : @kv_steps ieee toy_fastbloom kv_universe f64_001 kv_state0 kv_events kv_state6.
Proof.
  apply (kvs_cons _ _ _ _ kv_state1).
  { apply (ks_write _ _ _ _ kv_fine); [apply kv_ops_ok; set_solver | done | vm_compute; reflexivity]. }
  apply (kvs_cons _ _ _ _ kv_state2).
  { apply (ks_compact _ _ _ 5 kv_work None (Ok tt)); [done | vm_compute; reflexivity]. }
  apply (kvs_cons _ _ _ _ kv_state3).
  { apply (ks_write _ _ _ _ kv_torn); [apply kv_ops_ok; set_solver | done | vm_compute; reflexivity]. }
  apply (kvs_cons _ _ _ _ kv_state4); [apply ks_scan; vm_compute; reflexivity|].
  apply (kvs_cons _ _ _ _ kv_state5).
  { apply (ks_restart _ _ kv_state4 [x64] kv_none kv_config 7 (Ok kv_state5)); [apply kv_plain | done | done | |];
      vm_compute; [discriminate | reflexivity]. }
  apply (kvs_cons _ _ _ _ kv_state6); [apply ks_scan; vm_compute; reflexivity | constructor].
Qed.
Lemma kv_universe_ok r : kv_universe r → recordable r.
Proof. by intros [? _]. Qed.


Definition kv_disk : disk :=
  mkDisk (WriteComponent.manifest (KV2.write_component kv_state1)) (WriteComponent.files (KV2.write_component kv_state1)) None.
Lemma kv_disk_ok :
  @catalogue ieee toy_fastbloom toy_fastbloom_spec (d_manifest kv_disk) (d_files kv_disk) ∧
  ∀ r, r ∈ @catalogue_records ieee toy_fastbloom (d_manifest kv_disk) (d_files kv_disk) → kv_universe r.
Proof.
  pose proof (@sim_write ieee ieee_spec toy_fastbloom toy_fastbloom_spec toy_fastbloom_shape kv_universe f64_001 kv_universe_ok
    kv_universe_roomy kv_state0 [kv_op1] kv_fine (mkSpec [] [])
    (@sim_fresh ieee ieee_spec toy_fastbloom toy_fastbloom_spec kv_universe f64_001 [x64] kv_none kv_config 7 kv_state0 kv_plain eq_refl eq_refl kv_opens)
    (kv_ops_ok kv_op1 ltac:(set_solver)) ltac:(done)) as (st & _ & (hist & pend & seq & [(n & b & He) _] & _)).
  replace (@KV2.write_batch ieee toy_fastbloom [kv_op1] kv_fine kv_state0).2 with kv_state1 in He by (vm_compute; reflexivity).
  split; [exact (ea_cat _ _ _ _ _ _ _ _ He)|]. intros r Hr. apply (ea_u _ _ _ _ _ _ _ _ He), elem_of_app. left.
  by apply (ea_shows _ _ _ _ _ _ _ _ He).
Qed.
