(* ===== verification/Fts.v ===== *)
(** * Full-text search: [src/src/fts/mod.rs]

    An inverted index kept in the reserved part of an engine's key space:
    documents, forward records with the term frequencies of a document,
    postings, document frequencies and corpus statistics.  Everything is
    written against the engine interface of [Api]. *)

From S2P Require Import Prelude Bytes OrdMap Search Manifest Unicode Store Read Admission Api.

Definition NAMESPACE : bytes := x00 :: bytes_of_string "ceredb:fts:v1:".
Definition META_KEY : bytes := x00 :: bytes_of_string "ceredb:fts:v1:m".
Definition DOCUMENT_MARKER : byte := x64.
Definition FORWARD_MARKER : byte := x66.
Definition POSTING_MARKER : byte := x70.
Definition DF_MARKER : byte := x67.
Definition STATS_KEY : bytes := x00 :: bytes_of_string "ceredb:fts:v1:s".
Definition FORMAT_VERSION : byte := x02.
Definition TOKENIZER_VERSION : byte := x01.
Definition MAX_QUERY_TERMS : Z := 32.
Definition MAX_LIMIT : Z := 1000.
Definition MAX_DOCUMENT_BATCH_DOCUMENTS : Z := 256.
Definition MAX_DOCUMENT_BATCH_INPUT_BYTES : Z := 4 * 1024 * 1024.
Definition MAX_DOCUMENT_BATCH_MUTATION_BYTES : Z := 8 * 1024 * 1024.
Definition MAX_DOCUMENT_BATCH_MUTATIONS : Z := 16384.
Definition WAL_UPDATE_FRAME_OVERHEAD_BYTES : Z := 62.
Definition WAL_COMMIT_FRAME_BYTES : Z := 37.

Definition corrupt (message : string) : DBError := Corrupted message.
Definition reserved_error : DBError := StorageError "key belongs to the reserved FTS namespace".
Definition reserved (key : bytes) : bool := starts_with NAMESPACE key.

(** A document id is a string that is not empty. *)
Module DocumentId.
Definition new (id : bytes) : res bytes :=
  _ ← guard_err (negb (bool_decide (id = []))) (StorageError "document ID must not be empty");
  mret id.
End DocumentId.

Inductive FtsQuery : Type :=
| And (terms : list bytes)
| Or (terms : list bytes).
Record SearchHit : Type := mkSearchHit { hit_id : bytes; hit_document : bytes }.

(** ** Terms *)

Abbreviation term_map := (ordmap bytes Z).
(** The changes of document frequencies, [i64] numbers. *)
Abbreviation delta_map := (ordmap bytes Z).

Section terms.
Context `{Unicode}.

(** [*terms.entry(term).or_insert(0) += 1]. *)
Definition bump (term : bytes) (terms : term_map) : term_map :=
  om_insert term (wrap64 (default 0 (om_get term terms) + 1)) terms.
Definition tokenize_char (acc : term_map * bytes) (character : bytes) : term_map * bytes :=
  let '(terms, current) := acc in
  if is_alphanumeric character then (terms, current ++ char_to_lowercase character)
  else if bool_decide (current = []) then (terms, current)
  else (bump current terms, []).
Definition tokenize (text : bytes) : term_map :=
  let '(terms, current) := foldl tokenize_char ([], []) (chars text) in
  if bool_decide (current = []) then terms else bump current terms.
(** The sorted set of the terms of all the strings of a query. *)
Definition normalize_terms (input : list bytes) : list bytes :=
  fst <$> foldl (λ set term, om_insert term tt set) [] (input ≫= λ term, fst <$> (tokenize term : list _)).
End terms.

(** ** Keys *)

Definition encode_component (value : bytes) : res bytes :=
  _ ← guard_err (len value <=? u32_max) (StorageError "FTS component too long");
  mret (to_be 4 (len value) ++ value).
Definition record_key (marker : byte) (id : bytes) : res bytes :=
  component ← encode_component id;
  mret (NAMESPACE ++ [marker] ++ component).
Definition document_key (id : bytes) : res bytes := record_key DOCUMENT_MARKER id.
Definition forward_key (id : bytes) : res bytes := record_key FORWARD_MARKER id.
Definition posting_prefix (term : bytes) : res bytes :=
  component ← encode_component term;
  mret (NAMESPACE ++ [POSTING_MARKER] ++ component).
Definition posting_key (term id : bytes) : res bytes :=
  prefix ← posting_prefix term;
  component ← encode_component id;
  mret (prefix ++ component).
Definition df_key (term : bytes) : res bytes :=
  component ← encode_component term;
  mret (NAMESPACE ++ [DF_MARKER] ++ component).

(** [prefix_successor]: the least string above every string with the prefix. *)
Fixpoint successor_rev (upper : bytes) : option bytes :=
  match upper with
  | [] => None
  | b :: rest => if bool_decide (b = xff) then successor_rev rest else Some (zb (bz b + 1) :: rest)
  end.
Definition prefix_successor (prefix : bytes) : option bytes := (λ upper, rev upper) <$> successor_rev (rev prefix).
Definition prefix_range (prefix : bytes) : key_range :=
  (Included prefix, match prefix_successor prefix with Some upper => Excluded upper | None => Unbounded end).
Definition namespace_range : key_range := prefix_range NAMESPACE.

(** ** Codecs *)

(** Readers over the rest of the bytes; the cursor is what was consumed. *)
Definition read_u32 : reader Z := λ bytes,
  number ← ok_or (slice_get bytes 0 4) (corrupt "truncated length");
  mret (from_be number, drop 4 bytes).
Definition read_u64 : reader Z := λ bytes,
  number ← ok_or (slice_get bytes 0 8) (corrupt "truncated integer");
  mret (from_be number, drop 8 bytes).
Definition read_component : reader bytes := λ bytes,
  '(length, rest) ← read_u32 bytes;
  value ← ok_or (slice_get rest 0 length) (corrupt "truncated component");
  mret (value, drop (Z.to_nat length) rest).
Definition decode_u64 (bytes : bytes) : res Z :=
  '(value, rest) ← read_u64 bytes;
  _ ← guard_err (len rest =? 0) (corrupt "malformed integer");
  mret value.
Definition encode_stats (count total : Z) : bytes := to_be 8 count ++ to_be 8 total.
Definition decode_stats (bytes : bytes) : res (Z * Z) :=
  _ ← guard_err (len bytes =? 16) (corrupt "malformed FTS corpus statistics");
  count ← decode_u64 (take 8 bytes);
  total ← decode_u64 (drop 8 bytes);
  _ ← guard_err (negb ((count =? 0) && negb (total =? 0))) (corrupt "invalid FTS corpus statistics");
  mret (count, total).

(** [values().try_fold(0, checked_add)]. *)
Fixpoint sum_frequencies (sum : Z) (terms : list (bytes * Z)) : option Z :=
  match terms with
  | [] => Some sum
  | (_, tf) :: terms => sum ← checked_add sum tf; sum_frequencies sum terms
  end.
Fixpoint encode_entries (terms : list (bytes * Z)) : res bytes :=
  match terms with
  | [] => mret []
  | (term, tf) :: terms =>
      component ← encode_component term;
      rest ← encode_entries terms;
      mret (component ++ to_be 8 tf ++ rest)
  end.
Definition encode_terms (terms : term_map) : res bytes :=
  length ← ok_or (sum_frequencies 0 terms) (StorageError "FTS document length overflow");
  entries ← encode_entries terms;
  mret (to_be 8 (len terms) ++ to_be 8 length ++ entries).

Section codec.
Context `{Unicode}.

(** The loop of [decode_terms]: terms, observed length, previous term. *)
Fixpoint decode_entries (count : nat) (terms : term_map) (observed_length : Z) (previous : option bytes)
    : reader (term_map * Z) :=
  match count with
  | O => mret (terms, observed_length)
  | S count =>
      term ← read_component;
      _ ← require (utf8_valid term) (corrupt "invalid UTF-8 term");
      tf ← read_u64;
      _ ← require (negb (bool_decide (term = []) || negb (bytes_eqb (str_to_lowercase term) term)))
            (corrupt "non-normalized forward term");
      _ ← require (negb ((tf =? 0) || match previous with Some last => bytes_leb term last | None => false end))
            (corrupt "invalid forward term frequency");
      observed_length ← lift (ok_or (checked_add observed_length tf) (corrupt "document length overflow"));
      decode_entries count (om_insert term tf terms) observed_length (Some term)
  end.
Definition decode_terms (bytes : bytes) : res (term_map * Z) :=
  '(count, rest) ← read_u64 bytes;
  '(length, rest) ← read_u64 rest;
  _ ← guard_err (negb (len rest / 12 <? count)) (corrupt "impossible forward term count");
  '((terms, observed_length), rest) ← decode_entries (Z.to_nat count) [] 0 None rest;
  _ ← guard_err ((len rest =? 0) && (observed_length =? length)) (corrupt "malformed forward record");
  mret (terms, length).
End codec.

Definition parse_posting (prefix key value : bytes) : res (bytes * Z) :=
  _ ← guard_err (starts_with prefix key) (corrupt "malformed posting record");
  '(id, rest) ← read_component (drop (length prefix) key);
  _ ← guard_err (utf8_valid id) (corrupt "invalid UTF-8 posting ID");
  _ ← guard_err (len rest =? 0) (corrupt "trailing posting key bytes");
  _ ← guard_err (negb (bool_decide (id = []))) (corrupt "empty posting ID");
  tf ← decode_u64 value;
  mret (id, tf).

(** ** The index *)

Module FtsIndex.
Section index.
Context {S : Type} `{Unicode, AsyncKVEngine S}.

(** *** Loading *)

Definition load_stats : eff S (Z * Z) :=
  value ← eng_get STATS_KEY;
  value ← pure_eff (ok_or value (corrupt "missing FTS corpus statistics"));
  pure_eff (decode_stats value).
Definition load_df (term : bytes) : eff S Z :=
  key ← pure_eff (df_key term);
  value ← eng_get key;
  match value with
  | None => mret 0
  | Some value =>
      df ← pure_eff (decode_u64 value);
      if df =? 0 then pure_eff (Err (corrupt "zero document frequency")) else mret df
  end.
Fixpoint check_postings (id : bytes) (terms : list (bytes * Z)) : eff S unit :=
  match terms with
  | [] => mret tt
  | (term, tf) :: terms =>
      key ← pure_eff (posting_key term id);
      value ← eng_get key;
      match value with
      | Some value =>
          n ← pure_eff (decode_u64 value);
          if n =? tf then check_postings id terms
          else pure_eff (Err (corrupt "forward term and posting disagree"))
      | None => pure_eff (Err (corrupt "forward term and posting disagree"))
      end
  end.
Definition load_document_state (id : bytes) : eff S (option (bytes * term_map * Z)) :=
  key ← pure_eff (document_key id);
  document ← eng_get key;
  key ← pure_eff (forward_key id);
  forward ← eng_get key;
  match document, forward with
  | None, None => mret None
  | Some document, Some forward =>
      _ ← pure_eff (guard_err (utf8_valid document) (corrupt "stored document is not UTF-8"));
      '(terms, length) ← pure_eff (decode_terms forward);
      _ ← pure_eff (guard_err (bool_decide (terms = tokenize document))
            (corrupt "document and forward terms disagree"));
      _ ← check_postings id terms;
      mret (Some (document, terms, length))
  | _, _ => pure_eff (Err (corrupt "document and forward index disagree"))
  end.
Definition validate_posting (id term : bytes) : eff S unit :=
  state ← load_document_state id;
  match state with
  | None => pure_eff (Err (corrupt "posting references a missing document"))
  | Some (_, terms, _) =>
      pure_eff (guard_err (bool_decide (is_Some (om_get term terms))) (corrupt "posting is absent from forward index"))
  end.

(** *** Opening *)

Definition metadata : bytes := [FORMAT_VERSION; TOKENIZER_VERSION].
Definition open (f : write_fault) : eff S unit :=
  _ ← eng_await_pending_writes;
  value ← eng_get META_KEY;
  match value with
  | Some value =>
      if bool_decide (value = metadata) then mret tt
      else if bool_decide (value = [x01; TOKENIZER_VERSION])
      then pure_eff (Err (corrupt "FTS format 1 requires rebuilding the index"))
      else pure_eff (Err (corrupt "unknown or malformed FTS metadata"))
  | None =>
      rows ← eng_scan namespace_range;
      _ ← pure_eff (guard_err (len rows =? 0) (corrupt "FTS records exist without metadata"));
      eng_write_batch [BatchPut META_KEY metadata; BatchPut STATS_KEY (encode_stats 0 0)] f
  end.

(** *** Writing documents *)

(** The sorted union of the terms of two maps. *)
Definition union_terms (old new : term_map) : list bytes :=
  fst <$> foldl (λ set term, om_insert term tt set) [] ((fst <$> (old : list _)) ++ (fst <$> (new : list _))).
Definition df_op (term : bytes) (updated : Z) : res BatchOperation :=
  key ← df_key term;
  mret (if updated =? 0 then BatchDelete key else BatchPut key (to_be 8 updated)).
Definition posting_op (term id : bytes) (next : Z) : res BatchOperation :=
  key ← posting_key term id;
  mret (if next =? 0 then BatchDelete key else BatchPut key (to_be 8 next)).
(** The body of the loop over terms of [put_document]. *)
Definition term_operations (id : bytes) (old new : term_map) (term : bytes) : eff S (list BatchOperation) :=
  let previous := default 0 (om_get term old) in
  let next := default 0 (om_get term new) in
  if previous =? next then mret []
  else
    df ← load_df term;
    updated ← pure_eff (match previous =? 0, next =? 0 with
      | true, false => ok_or (checked_add df 1) (corrupt "document frequency overflow")
      | false, true => ok_or (checked_sub df 1) (corrupt "document frequency underflow")
      | _, _ => mret df
      end);
    op1 ← pure_eff (df_op term updated);
    op2 ← pure_eff (posting_op term id next);
    mret [op1; op2].
Fixpoint terms_operations (id : bytes) (old new : term_map) (terms : list bytes) : eff S (list BatchOperation) :=
  match terms with
  | [] => mret []
  | term :: terms =>
      ops ← term_operations id old new term;
      rest ← terms_operations id old new terms;
      mret (ops ++ rest)
  end.
Definition old_terms (old : option (bytes * term_map * Z)) : term_map :=
  match old with Some (_, terms, _) => terms | None => [] end.
Definition old_length (old : option (bytes * term_map * Z)) : Z :=
  match old with Some (_, _, length) => length | None => 0 end.
(** The new document count and corpus length. *)
Definition update_stats (old : option (bytes * term_map * Z)) (new_length count total : Z) : res (Z * Z) :=
  count ← match old with
          | None => ok_or (checked_add count 1) (corrupt "document count overflow")
          | Some _ => mret count
          end;
  total ← ok_or (total ← checked_sub total (old_length old); checked_add total new_length)
            (corrupt "corpus length overflow");
  mret (count, total).
Definition document_operations (id document : bytes) (frequencies : term_map) : res (list BatchOperation) :=
  key ← document_key id;
  key' ← forward_key id;
  value ← encode_terms frequencies;
  mret [BatchPut key document; BatchPut key' value].
Definition put_document (id document : bytes) (f : write_fault) : eff S unit :=
  _ ← eng_await_pending_writes;
  _ ← pure_eff (guard_err (utf8_valid document) (StorageError "document is not valid UTF-8"));
  let frequencies := tokenize document in
  old ← load_document_state id;
  '(count, total) ← load_stats;
  new_length ← pure_eff (ok_or (sum_frequencies 0 frequencies) (corrupt "document length overflow"));
  '(count, total) ← pure_eff (update_stats old new_length count total);
  ops ← terms_operations id (old_terms old) frequencies (union_terms (old_terms old) frequencies);
  doc_ops ← pure_eff (document_operations id document frequencies);
  eng_write_batch (ops ++ doc_ops ++ [BatchPut STATS_KEY (encode_stats count total)]) f.

(** *** Writing a batch of documents *)

Definition wrap_i64 (z : Z) : Z := wrap64 (z + 2 ^ 63) - 2 ^ 63.
(** [*df_deltas.entry(term).or_default() += d]. *)
Definition add_delta (term : bytes) (d : Z) (deltas : delta_map) : delta_map :=
  om_insert term (wrap_i64 (default 0 (om_get term deltas) + d)) deltas.
Definition term_delta (previous next : Z) (term : bytes) (deltas : delta_map) : delta_map :=
  if (previous =? 0) && negb (next =? 0) then add_delta term 1 deltas
  else if negb (previous =? 0) && (next =? 0) then add_delta term (-1) deltas
  else deltas.
(** The loop over the terms of one document. *)
Fixpoint bulk_terms (id : bytes) (old new : term_map) (terms : list bytes) (deltas : delta_map)
    : res (delta_map * list BatchOperation) :=
  match terms with
  | [] => mret (deltas, [])
  | term :: terms =>
      let previous := default 0 (om_get term old) in
      let next := default 0 (om_get term new) in
      if previous =? next then bulk_terms id old new terms deltas
      else
        let deltas := term_delta previous next term deltas in
        op ← posting_op term id next;
        '(deltas, ops) ← bulk_terms id old new terms deltas;
        mret (deltas, op :: ops)
  end.
(** The loop over [final_documents]. *)
Fixpoint bulk_documents (old_states : ordmap bytes (option (bytes * term_map * Z)))
    (final_documents : list (bytes * (bytes * term_map))) (count total : Z) (df_deltas : delta_map)
    : res (Z * Z * delta_map * list BatchOperation) :=
  match final_documents with
  | [] => mret (count, total, df_deltas, [])
  | (id, (document, frequencies)) :: final_documents =>
      old ← match om_get id old_states with Some old => mret old | None => Panic end;
      new_length ← ok_or (sum_frequencies 0 frequencies) (corrupt "document length overflow");
      '(count, total) ← update_stats old new_length count total;
      '(df_deltas, ops) ← bulk_terms id (old_terms old) frequencies (union_terms (old_terms old) frequencies) df_deltas;
      doc_ops ← document_operations id document frequencies;
      '(count, total, df_deltas, rest) ← bulk_documents old_states final_documents count total df_deltas;
      mret (count, total, df_deltas, ops ++ doc_ops ++ rest)
  end.
(** The loop over [df_deltas]. *)
Fixpoint bulk_frequencies (df_deltas : list (bytes * Z)) : eff S (list BatchOperation) :=
  match df_deltas with
  | [] => mret []
  | (term, delta) :: df_deltas =>
      current ← load_df term;
      updated ← pure_eff (if 0 <=? delta then ok_or (checked_add current delta) (corrupt "document frequency overflow")
                          else ok_or (checked_sub current (- delta)) (corrupt "document frequency underflow"));
      op ← pure_eff (df_op term updated);
      rest ← bulk_frequencies df_deltas;
      mret (op :: rest)
  end.
Fixpoint input_bytes (sum : Z) (documents : list (bytes * bytes)) : option Z :=
  match documents with
  | [] => Some sum
  | (_, document) :: documents => sum ← checked_add sum (len document); input_bytes sum documents
  end.
Fixpoint mutation_bytes (sum : Z) (operations : list BatchOperation) : option Z :=
  match operations with
  | [] => Some sum
  | o :: operations =>
      v ← checked_add sum (len (op_key_of o));
      v ← checked_add v (match o with BatchPut _ value => len value | BatchDelete _ => 0 end);
      sum ← checked_add v WAL_UPDATE_FRAME_OVERHEAD_BYTES;
      mutation_bytes sum operations
  end.
(** A later document replaces an earlier one with its id. *)
Fixpoint final_documents (final : ordmap bytes (bytes * term_map)) (documents : list (bytes * bytes))
    : res (ordmap bytes (bytes * term_map)) :=
  match documents with
  | [] => mret final
  | (id, document) :: documents =>
      _ ← guard_err (utf8_valid document) (StorageError "document is not valid UTF-8");
      final_documents (om_insert id (document, tokenize document) final) documents
  end.
Fixpoint load_states (old_states : ordmap bytes (option (bytes * term_map * Z))) (ids : list bytes)
    : eff S (ordmap bytes (option (bytes * term_map * Z))) :=
  match ids with
  | [] => mret old_states
  | id :: ids =>
      state ← load_document_state id;
      load_states (om_insert id state old_states) ids
  end.
Definition check_mutations (operations : list BatchOperation) : res unit :=
  mutation_bytes ← ok_or (mutation_bytes 0 operations) (StorageError "FTS mutation size overflow");
  encoded_transaction_bytes ← ok_or (checked_add mutation_bytes WAL_COMMIT_FRAME_BYTES)
    (StorageError "FTS mutation size overflow");
  guard_err (negb ((MAX_DOCUMENT_BATCH_MUTATIONS <? len operations) ||
                   (MAX_DOCUMENT_BATCH_MUTATION_BYTES <? encoded_transaction_bytes)))
    (StorageError "FTS document batch exceeds mutation limit").
Definition check_documents (documents : list (bytes * bytes)) : res unit :=
  _ ← guard_err (negb (MAX_DOCUMENT_BATCH_DOCUMENTS <? len documents))
        (StorageError "FTS document batch exceeds document limit");
  input_bytes ← ok_or (input_bytes 0 documents) (StorageError "FTS document batch size overflow");
  guard_err (negb (MAX_DOCUMENT_BATCH_INPUT_BYTES <? input_bytes))
    (StorageError "FTS document batch exceeds input byte limit").
(** The batch from the documents, their states before and the statistics. *)
Definition write_documents (final : ordmap bytes (bytes * term_map)) (old_states : ordmap bytes (option (bytes * term_map * Z)))
    (count total : Z) (f : write_fault) : eff S unit :=
  '(count, total, df_deltas, operations) ← pure_eff (bulk_documents old_states final count total []);
  df_ops ← bulk_frequencies df_deltas;
  let operations := operations ++ df_ops ++ [BatchPut STATS_KEY (encode_stats count total)] in
  _ ← pure_eff (check_mutations operations);
  eng_write_batch operations f.
Definition put_documents (documents : list (bytes * bytes)) (f : write_fault) : eff S unit :=
  match documents with
  | [] => mret tt
  | _ =>
      _ ← pure_eff (check_documents documents);
      final ← pure_eff (final_documents [] documents);
      _ ← eng_await_pending_writes;
      old_states ← load_states [] (fst <$> (final : list _));
      '(count, total) ← load_stats;
      write_documents final old_states count total f
  end.

(** *** Deleting a document *)

Fixpoint delete_operations (id : bytes) (terms : list bytes) : eff S (list BatchOperation) :=
  match terms with
  | [] => mret []
  | term :: terms =>
      df ← load_df term;
      df ← pure_eff (ok_or (checked_sub df 1) (corrupt "document frequency underflow"));
      op ← pure_eff (df_op term df);
      key ← pure_eff (posting_key term id);
      rest ← delete_operations id terms;
      mret (op :: BatchDelete key :: rest)
  end.
Definition delete_document (id : bytes) (f : write_fault) : eff S bool :=
  _ ← eng_await_pending_writes;
  state ← load_document_state id;
  match state with
  | None => mret false
  | Some (_, terms, length) =>
      '(count, total) ← load_stats;
      count ← pure_eff (ok_or (checked_sub count 1) (corrupt "document count underflow"));
      total ← pure_eff (ok_or (checked_sub total length) (corrupt "corpus length underflow"));
      ops ← delete_operations id (fst <$> (terms : list _));
      key ← pure_eff (document_key id);
      key' ← pure_eff (forward_key id);
      _ ← eng_write_batch (ops ++ [BatchDelete key; BatchDelete key'; BatchPut STATS_KEY (encode_stats count total)]) f;
      mret true
  end.

(** *** Reading *)

Definition get_document (id : bytes) : eff S (option bytes) :=
  _ ← eng_await_pending_writes;
  state ← load_document_state id;
  mret ((λ x, x.1.1) <$> state).

(** A set of document ids ([BTreeSet]). *)
Abbreviation id_set := (ordmap bytes unit).
Fixpoint posting_ids (term prefix : bytes) (ids : id_set) (rows : list (bytes * bytes)) : eff S id_set :=
  match rows with
  | [] => mret ids
  | (key, value) :: rows =>
      '(id, tf) ← pure_eff (parse_posting prefix key value);
      if tf =? 0 then pure_eff (Err (corrupt "zero posting frequency"))
      else
        _ ← validate_posting id term;
        posting_ids term prefix (om_insert id tt ids) rows
  end.
Fixpoint posting_sets (terms : list bytes) : eff S (list id_set) :=
  match terms with
  | [] => mret []
  | term :: terms =>
      prefix ← pure_eff (posting_prefix term);
      rows ← eng_scan (prefix_range prefix);
      ids ← posting_ids term prefix [] rows;
      rest ← posting_sets terms;
      mret (ids :: rest)
  end.
(** [BTreeSet::intersection]. *)
Definition intersection (current ids : id_set) : id_set :=
  List.filter (λ e, bool_decide (is_Some (om_get (fst e) ids))) current.
Definition intersect_all (sets : list id_set) : option id_set :=
  foldl (λ matches ids, Some (match matches with None => ids | Some current => intersection current ids end)) None sets.
Definition union_all (sets : list id_set) : id_set :=
  foldl (λ set e, om_insert (fst e) tt set) [] (concat sets).
Definition len_cmp (x y : id_set) : comparison := Z.compare (len x) (len y).
Definition combine (is_and : bool) (sets : list id_set) : id_set :=
  if is_and then default [] (intersect_all (sort_by len_cmp sets)) else union_all sets.
Fixpoint load_hits (ids : list bytes) : eff S (list SearchHit) :=
  match ids with
  | [] => mret []
  | id :: ids =>
      key ← pure_eff (document_key id);
      document ← eng_get key;
      document ← pure_eff (ok_or document (corrupt "posting references a missing document"));
      hits ← load_hits ids;
      mret (mkSearchHit id document :: hits)
  end.
Definition is_and (query : FtsQuery) : bool := match query with And _ => true | Or _ => false end.
Definition query_terms (query : FtsQuery) : list bytes :=
  normalize_terms (match query with And terms | Or terms => terms end).
(** The checks both searches start with. *)
Definition check_query (terms : list bytes) : res unit :=
  _ ← guard_err (negb (len terms =? 0)) (StorageError "FTS query contains no searchable terms");
  guard_err (negb (MAX_QUERY_TERMS <? len terms)) (StorageError "FTS query exceeds 32 distinct terms").
Definition search (query : FtsQuery) (limit : Z) : eff S (list SearchHit) :=
  _ ← eng_await_pending_writes;
  _ ← pure_eff (guard_err (negb (MAX_LIMIT <? limit)) (StorageError "FTS result limit exceeds 1000"));
  let terms := query_terms query in
  _ ← pure_eff (check_query terms);
  if limit =? 0 then mret []
  else
    sets ← posting_sets terms;
    load_hits (take (Z.to_nat limit) (fst <$> (combine (is_and query) sets : list _))).

(** *** The index as an engine *)

Definition get (key : bytes) : eff S (option bytes) :=
  _ ← eng_await_pending_writes;
  if reserved key then pure_eff (Err reserved_error) else eng_get key.
Definition put (key value : bytes) (f : write_fault) : eff S unit :=
  if reserved key then pure_eff (Err reserved_error) else eng_put key value f.
Definition delete (key : bytes) (f : write_fault) : eff S unit :=
  if reserved key then pure_eff (Err reserved_error) else eng_delete key f.
Definition write_batch (operations : list BatchOperation) (f : write_fault) : eff S unit :=
  if existsb (λ o, reserved (op_key_of o)) operations then pure_eff (Err reserved_error)
  else eng_write_batch operations f.
Definition scan (range : key_range) : eff S (list (bytes * bytes)) :=
  _ ← eng_await_pending_writes;
  rows ← eng_scan range;
  mret (List.filter (λ e, negb (reserved (fst e))) rows).
Definition await_pending_writes : eff S unit := eng_await_pending_writes.
End index.
End FtsIndex.
