(* ===== verification/FtsTheory.v ===== *)
(** * The index codecs, the tokenizer and the key space

    What the index writes it reads back, the tokenizer yields term maps the
    codecs accept, keys of different records differ, and a prefix range holds
    exactly the keys with the prefix. *)

From stdpp Require Import sets sorting.
From Stdlib Require Import Sorted.
From S2P Require Import Prelude Bytes OrdMap Search Manifest Unicode Store Read Admission Api Fts.

Implicit Types (terms : term_map) (id term doc k v : bytes).

(** ** Sums over a map *)

Section sums.
Context {V : Type} (f : V → Z).
Implicit Types (m : ordmap bytes V).

Definition sum_map (m : list (bytes * V)) : Z := foldr (λ e n, f (snd e) + n) 0 m.
Definition weight (o : option V) : Z := match o with Some x => f x | None => 0 end.
Lemma sum_insert m k x : om_wf m → sum_map (om_insert k x m) = sum_map m - weight (om_get k m) + f x.
Proof.
  induction m as [|[k' y] m IH]; intros Hw; [simpl; lia|]. apply om_wf_cons in Hw as [Hw Hf]. cbn [om_insert om_get].
  destruct (kcmp k k') eqn:E; cbn [sum_map foldr snd]; fold (sum_map m);
    [simpl; lia | | fold (sum_map (om_insert k x m)); rewrite IH by done; lia].
  rewrite om_get_notin; [simpl; lia|]. eapply Forall_impl; [exact Hf|]. intros kv. by apply klt_trans.
Qed.
Lemma sum_filter_notin m k : om_get k m = None → om_remove k m = m.
Proof.
  unfold om_remove. induction m as [|[k' y] m IH]; [done|]. cbn [om_get List.filter fst].
  destruct (kcmp k k') eqn:E; [done | intros Hk; f_equal; by apply IH ..].
Qed.
Lemma sum_remove m k : om_wf m → sum_map (om_remove k m) = sum_map m - weight (om_get k m).
Proof.
  induction m as [|[k' y] m IH]; intros Hw; [simpl; lia|]. apply om_wf_cons in Hw as [Hw Hf].
  unfold om_remove in *. cbn [om_get List.filter fst]. destruct (kcmp k k') eqn:E; cbn [sum_map foldr snd]; fold (sum_map m).
  - apply kcmp_eq in E as ->. fold (om_remove k' m). rewrite sum_filter_notin by (by apply om_get_notin). simpl. lia.
  - fold (om_remove k m) in *. fold (sum_map (om_remove k m)). rewrite IH by done. lia.
  - fold (om_remove k m) in *. fold (sum_map (om_remove k m)). rewrite IH by done. lia.
Qed.
Lemma sum_nonneg m : (∀ k x, (k, x) ∈ (m : list _) → 0 <= f x) → 0 <= sum_map m.
Proof.
  induction m as [|[k x] m IH]; intros Hf; simpl; [lia|]. pose proof (Hf k x ltac:(by left)).
  specialize (IH ltac:(intros; eapply Hf; by right)). lia.
Qed.
Lemma sum_weight m k : om_wf m → (∀ k x, (k, x) ∈ (m : list _) → 0 <= f x) → weight (om_get k m) <= sum_map m.
Proof.
  intros Hw Hf. pose proof (sum_remove m k Hw) as Hr. assert (0 <= sum_map (om_remove k m)); [|lia].
  apply sum_nonneg. intros k' x Hin. apply (Hf k'). unfold om_remove in Hin. rewrite list_elem_of_In, filter_In, <- list_elem_of_In in Hin.
  apply Hin.
Qed.
End sums.
Lemma sum_ext {V} (f g : V → Z) m : (∀ k x, (k, x) ∈ m → f x = g x) → sum_map f m = sum_map g m.
Proof.
  induction m as [|[k x] m IH]; intros Hf; [done|]. simpl. rewrite (Hf k x) by (by left). rewrite IH; [done|].
  intros; eapply Hf; by right.
Qed.
Lemma sum_len {V} (m : list (bytes * V)) : sum_map (λ _, 1) m = len m.
Proof. induction m as [|e m IH]; [done|]. rewrite len_cons. simpl. by rewrite IH. Qed.

(** ** Sums of frequencies *)

Definition total (terms : list (bytes * Z)) : Z := sum_map (λ n, n) terms.
Lemma total_insert terms term n :
  om_wf terms → total (om_insert term n terms) = total terms - default 0 (om_get term terms) + n.
Proof. intros Hw. unfold total. rewrite sum_insert by done. by destruct (om_get term terms). Qed.
Lemma total_nonneg terms : Forall (λ e, 0 <= snd e) terms → 0 <= total terms.
Proof. unfold total. induction 1; simpl; lia. Qed.
Lemma total_in terms term tf : Forall (λ e, 0 <= snd e) terms → (term, tf) ∈ (terms : list _) → tf <= total terms.
Proof.
  induction 1 as [|e l He Hl IH]; [by intros ?%elem_of_nil|]. pose proof (total_nonneg l Hl). unfold total in *. simpl.
  intros [<-|Hin]%elem_of_cons; [simpl; lia|]. specialize (IH Hin). lia.
Qed.
Lemma sum_frequencies_total sum terms :
  Forall (λ e, 0 <= snd e) terms → 0 <= sum → sum + total terms <= u64_max →
  sum_frequencies sum terms = Some (sum + total terms).
Proof.
  intros Hf. revert sum. induction Hf as [|[t tf] terms Ht Hf IH]; intros sum Hs Hb; simpl in *; [f_equal; lia|].
  pose proof (total_nonneg terms Hf). rewrite checked_add_run by lia. cbn [mbind option_bind]. rewrite IH by lia. f_equal. lia.
Qed.

(** ** Components *)

Definition short (s : bytes) : Prop := len s <= u32_max.
Definition component (s : bytes) : bytes := to_be 4 (len s) ++ s.
#[global] Arguments component : simpl never.
Lemma encode_component_ok s : short s → encode_component s = Ok (component s).
Proof. intros Hs. unfold encode_component. by rewrite (proj2 (Z.leb_le _ _) Hs). Qed.
Lemma slice_get_prefix (x y : bytes) n : n = len x → slice_get (x ++ y) 0 n = Some x.
Proof.
  intros ->. unfold slice_get. pose proof (len_nonneg x). pose proof (len_nonneg y).
  rewrite len_app. rewrite (proj2 (Z.leb_le _ _)), (proj2 (Z.leb_le _ _)) by lia. simpl.
  rewrite drop_0, Z.sub_0_r. unfold len. by rewrite Nat2Z.id, take_app_length.
Qed.
Lemma read_u32_run n r : is_u32 n → read_u32 (to_be 4 n ++ r) = Ok (n, r).
Proof.
  intros Hn. unfold read_u32. rewrite slice_get_prefix by (by rewrite len_to_be). cbn [ok_or mbind res_bind].
  rewrite from_to_be by (by apply u32_bound). by rewrite drop_app_length' by (by rewrite length_to_be).
Qed.
Lemma read_u64_run n r : is_u64 n → read_u64 (to_be 8 n ++ r) = Ok (n, r).
Proof.
  intros Hn. unfold read_u64. rewrite slice_get_prefix by (by rewrite len_to_be). cbn [ok_or mbind res_bind].
  rewrite from_to_be by (by apply u64_bound). by rewrite drop_app_length' by (by rewrite length_to_be).
Qed.
Lemma read_component_run s r : short s → read_component (component s ++ r) = Ok (s, r).
Proof.
  intros Hs. unfold read_component, component. rewrite <- app_assoc, read_u32_run by (split; [apply len_nonneg | done]).
  cbn [mbind res_bind]. rewrite slice_get_prefix by done. cbn [ok_or mbind res_bind]. unfold len. by rewrite Nat2Z.id, drop_app_length.
Qed.
Lemma component_inj a b x y : short a → short b → component a ++ x = component b ++ y → a = b ∧ x = y.
Proof.
  intros Ha Hb He. pose proof (read_component_run a x Ha) as Hr. rewrite He, read_component_run in Hr by done.
  by injection Hr as -> ->.
Qed.
Lemma decode_u64_run n : is_u64 n → decode_u64 (to_be 8 n) = Ok n.
Proof.
  intros Hn. unfold decode_u64. rewrite <- (app_nil_r (to_be 8 n)), read_u64_run by done. done.
Qed.
Lemma decode_stats_run count tot :
  is_u64 count → is_u64 tot → (count = 0 → tot = 0) → decode_stats (encode_stats count tot) = Ok (count, tot).
Proof.
  intros Hc Ht Hz. unfold decode_stats, encode_stats. rewrite len_app, !len_to_be. cbn [Z.of_nat Pos.of_succ_nat Pos.succ].
  rewrite take_app_length', drop_app_length' by (by rewrite length_to_be). change (8 + 8 =? 16) with true. cbn [guard_err mbind res_bind].
  rewrite !decode_u64_run by done. cbn [mbind res_bind].
  destruct (Z.eqb_spec count 0) as [E|E], (Z.eqb_spec tot 0); try done. exfalso. auto.
Qed.

(** ** Forward records *)

Section forward.
Context `{Unicode}.

(** A term as the tokenizer makes them. *)
Definition term_ok term : Prop := term ≠ [] ∧ utf8_valid term = true ∧ str_to_lowercase term = term.
Record terms_ok terms : Prop := {
  to_wf : om_wf terms;
  to_terms : ∀ term tf, (term, tf) ∈ (terms : list _) → term_ok term ∧ 1 <= tf;
  to_total : total terms <= u64_max
}.
Definition entries (terms : list (bytes * Z)) : bytes := terms ≫= λ e, component (fst e) ++ to_be 8 (snd e).
Definition forward_bytes terms : bytes := to_be 8 (len terms) ++ to_be 8 (total terms) ++ entries terms.

Lemma terms_nonneg terms : terms_ok terms → Forall (λ e, 0 <= snd e) terms.
Proof. intros [_ Ht _]. apply Forall_forall. intros [t tf] Hin. destruct (Ht t tf Hin). simpl. lia. Qed.
Lemma terms_u64 terms term tf : terms_ok terms → (term, tf) ∈ (terms : list _) → is_u64 tf ∧ tf ≠ 0.
Proof.
  intros Ht Hin. destruct (to_terms _ Ht _ _ Hin) as [_ ?]. pose proof (total_in _ _ _ (terms_nonneg _ Ht) Hin).
  pose proof (to_total _ Ht). split; [word_lia | lia].
Qed.
Lemma entries_cons t tf l : entries ((t, tf) :: l) = component t ++ to_be 8 tf ++ entries l.
Proof. unfold entries. rewrite bind_cons. simpl. by rewrite <- app_assoc. Qed.
Lemma encode_entries_ok terms :
  (∀ e, e ∈ terms → short (fst e)) → encode_entries terms = Ok (entries terms).
Proof.
  induction terms as [|[t tf] terms IH]; intros Hs; [done|]. cbn [encode_entries]. rewrite encode_component_ok by (apply (Hs (t, tf)); by left).
  cbn [mbind res_bind]. rewrite IH by (intros; apply Hs; by right). by rewrite entries_cons.
Qed.
Lemma encode_terms_ok terms :
  terms_ok terms → (∀ e, e ∈ (terms : list _) → short (fst e)) → encode_terms terms = Ok (forward_bytes terms).
Proof.
  intros Ht Hs. unfold encode_terms. rewrite (sum_frequencies_total 0) by (by apply terms_nonneg || lia || apply (to_total _ Ht)).
  cbn [ok_or mbind res_bind]. rewrite encode_entries_ok by done. done.
Qed.
Lemma entries_len terms : 12 * len terms <= len (entries terms).
Proof.
  induction terms as [|[t tf] terms IH]; [done|]. rewrite entries_cons, len_cons. unfold component. rewrite !len_app, !len_to_be. pose proof (len_nonneg t). lia.
Qed.
Lemma decode_entries_run l : ∀ terms obs prev r,
  (∀ e, e ∈ l → short (fst e) ∧ term_ok (fst e) ∧ 1 <= snd e) → om_wf (terms ++ l) →
  prev = fst <$> last terms → 0 <= obs → obs + total l <= u64_max →
  decode_entries (length l) terms obs prev (entries l ++ r) = Ok ((terms ++ l, obs + total l), r).
Proof.
  induction l as [|[t tf] l IH]; intros terms obs prev r Hl Hw Hp Ho Hb.
  { simpl. rewrite app_nil_r, Z.add_0_r. done. }
  destruct (Hl (t, tf) ltac:(by left)) as (Hs & (Hne & Hu & Hlow) & Htf). simpl in Hs, Hne, Hu, Hlow, Htf, Hb.
  assert (Forall (λ e, 0 <= snd e) l) as Hnn by (apply Forall_forall; intros e He; destruct (Hl e ltac:(by right)) as (_ & _ & ?); lia).
  pose proof (total_nonneg l Hnn) as Htn.
  assert (Forall (λ kv, klt kv.1 t) terms) as Hlt.
  { rewrite cons_middle, (assoc_L (++)) in Hw. apply om_wf_app in Hw as (Hw & _). by apply om_wf_snoc in Hw as [_ ?]. }
  rewrite entries_cons. cbn [length decode_entries]. rewrite <- !app_assoc.
  etrans; [eapply reader_bind_run; by apply read_component_run | cbv beta].
  etrans; [eapply reader_bind_run; by apply require_run | cbv beta].
  etrans; [eapply reader_bind_run; apply read_u64_run; word_lia | cbv beta].
  etrans; [eapply reader_bind_run; apply require_run | cbv beta].
  { rewrite bool_decide_false by done. unfold bytes_eqb. by rewrite bool_decide_true. }
  etrans; [eapply reader_bind_run; apply require_run | cbv beta].
  { rewrite (proj2 (Z.eqb_neq _ _)) by lia. simpl. subst prev. destruct (last terms) as [[u n]|] eqn:El; [|done]. simpl.
    apply last_Some in El as [pre ->]. apply Forall_app in Hlt as [_ [Hu' _]%Forall_cons_1]. simpl in Hu'.
    apply negb_true_iff. apply not_true_iff_false. rewrite bytes_leb_le. intros Hc. apply Hc. rewrite bytes_cmp_antisym. unfold klt in Hu'. simpl in Hu'. by rewrite Hu'. }
  etrans; [eapply reader_bind_run; apply lift_run; rewrite checked_add_run by lia; done | cbv beta].
  rewrite om_insert_snoc by done.
  rewrite (IH (terms ++ [(t, tf)]) (obs + tf) (Some t) r); try done.
  - f_equal. f_equal. f_equal; [by rewrite <- app_assoc | simpl; lia].
  - intros e He. apply Hl. by right.
  - by rewrite <- app_assoc.
  - by rewrite last_snoc.
  - lia.
  - simpl in Hb. lia.
Qed.
Lemma decode_terms_run terms :
  terms_ok terms → (∀ e, e ∈ (terms : list _) → short (fst e)) → len terms <= u64_max →
  decode_terms (forward_bytes terms) = Ok (terms, total terms).
Proof.
  intros Ht Hs Hlen. pose proof (total_nonneg _ (terms_nonneg _ Ht)). pose proof (to_total _ Ht). pose proof (len_nonneg terms).
  unfold decode_terms, forward_bytes. rewrite read_u64_run by word_lia. cbn [mbind res_bind].
  rewrite read_u64_run by word_lia. cbn [mbind res_bind].
  assert ((len (entries terms) / 12 <? len terms) = false) as ->.
  { apply Z.ltb_ge. apply Z.div_le_lower_bound; [lia|]. apply entries_len. }
  cbn [negb guard_err mbind res_bind]. replace (Z.to_nat (len terms)) with (length terms) by (unfold len; lia).
  assert (decode_entries (length terms) [] 0 None (entries terms ++ []) = Ok (([] ++ terms, 0 + total terms), [])) as Hrun.
  { apply decode_entries_run; [|apply Ht | done | lia | lia]. intros [t tf] Hin. destruct (to_terms _ Ht _ _ Hin) as [Hok Htf].
    exact (conj (Hs _ Hin) (conj Hok Htf)). }
  rewrite app_nil_r in Hrun. rewrite Hrun. cbn [mbind res_bind app]. rewrite Z.add_0_l, (Z.eqb_refl (total terms)). done.
Qed.
End forward.

(** ** The tokenizer *)

Section tokenizer.
Context `{UnicodeSpec}.

(** The text read so far: the terms found, and the word being read. *)
Record tokens terms (current : bytes) (n : Z) : Prop := {
  tk_wf : om_wf terms;
  tk_terms : ∀ term tf, (term, tf) ∈ (terms : list _) → term_ok term ∧ 1 <= tf;
  tk_word : ∃ cs, Forall (λ c, is_alphanumeric c = true) cs ∧ Forall (λ c, utf8_valid c = true) cs ∧
                  current = cs ≫= char_to_lowercase;
  tk_total : total terms + (if bool_decide (current = []) then 0 else 1) <= n
}.
Lemma word_ok cs :
  Forall (λ c, is_alphanumeric c = true) cs → Forall (λ c, utf8_valid c = true) cs →
  cs ≫= char_to_lowercase ≠ [] → term_ok (cs ≫= char_to_lowercase).
Proof.
  intros Ha Hu Hne. split_and!; [done | | by apply lower_stable]. clear Ha Hne.
  induction Hu as [|c cs Hc Hu IH]; [done|]. rewrite bind_cons. apply utf8_app; [by apply lower_utf8 | done].
Qed.
Lemma bump_tokens terms current n :
  tokens terms current n → current ≠ [] → n <= u64_max → tokens (bump current terms) [] n.
Proof.
  intros [Hw Ht (cs & Ha & Hu & ->) Htot] Hne Hn. rewrite bool_decide_false in Htot by done.
  assert (Forall (λ e, 0 <= snd e) terms) as Hnn.
  { apply Forall_forall. intros [t tf] Hin. destruct (Ht t tf Hin). simpl. lia. }
  pose proof (total_nonneg terms Hnn). set (word := cs ≫= char_to_lowercase) in *.
  assert (0 <= default 0 (om_get word terms) <= total terms) as Hg.
  { destruct (om_get word terms) as [tf|] eqn:E; simpl; [|lia]. apply om_get_Some in E; [|done].
    pose proof (total_in _ _ _ Hnn E). destruct (Ht _ _ E). lia. }
  unfold bump. rewrite wrap64_id by word_lia. split.
  - by apply om_insert_wf.
  - intros t tf Hin. apply om_get_Some in Hin; [|by apply om_insert_wf]. rewrite om_get_insert in Hin.
    case_decide as Hk; [|apply Ht; by apply om_get_Some]. subst t. injection Hin as <-. split; [by apply word_ok | lia].
  - exists []. split_and!; [constructor | constructor | done].
  - rewrite bool_decide_true by done. rewrite total_insert by done. lia.
Qed.
Lemma tokens_chars cs : ∀ terms current n,
  tokens terms current n → n + len cs <= u64_max → Forall (λ c, utf8_valid c = true) cs →
  tokens (foldl tokenize_char (terms, current) cs).1 (foldl tokenize_char (terms, current) cs).2 (n + len cs).
Proof.
  induction cs as [|c cs IH]; intros terms current n Hi Hn Hc; [by rewrite len_nil, Z.add_0_r|].
  apply Forall_cons_1 in Hc as [Hc Hcs]. rewrite len_cons in *. pose proof (len_nonneg cs). cbn [foldl].
  assert (∀ terms' current', tokens terms' current' (n + 1) →
    tokens (foldl tokenize_char (terms', current') cs).1 (foldl tokenize_char (terms', current') cs).2 (n + (1 + len cs))) as Hgo.
  { intros t' c' Ht'. specialize (IH t' c' (n + 1) Ht'). rewrite <- Z.add_assoc in IH. apply IH; [lia | done]. }
  unfold tokenize_char at 2 4. destruct (is_alphanumeric c) eqn:Ea; [|case_bool_decide as Hne]; apply Hgo.
  - destruct Hi as [Hw Ht (ws & Ha & Hu & ->) Htot]. split; [done | done | | repeat case_bool_decide; lia].
    exists (ws ++ [c]). rewrite bind_app. simpl. rewrite app_nil_r. split_and!; [apply Forall_app; auto | apply Forall_app; auto | done].
  - destruct Hi as [Hw Ht Hword Htot]. split; [done | done | done | lia].
  - destruct (bump_tokens terms current n Hi Hne ltac:(lia)) as [Hw Ht Hword Htot]. split; [done | done | done | lia].
Qed.
(** The terms of a document are proper terms, at most one per character. *)
Lemma tokenize_ok doc : utf8_valid doc = true → len doc <= u64_max → terms_ok (tokenize doc) ∧ total (tokenize doc) <= len doc.
Proof.
  intros Hu Hlen. pose proof (chars_valid doc Hu) as Hc.
  assert (len (chars doc) <= len doc) as Hcl.
  { rewrite <- (chars_concat doc) at 2. clear -Hc. induction Hc as [|c cs [_ Hne] _ IH]; [done|]. cbn [concat].
    rewrite len_cons, len_app. destruct c; [done|]. rewrite len_cons. pose proof (len_nonneg c). lia. }
  assert (tokens [] [] 0) as H0'.
  { split; [apply om_wf_nil | by intros ? ? ?%elem_of_nil | exists []; repeat constructor | done]. }
  unfold tokenize. destruct (foldl tokenize_char ([], []) (chars doc)) as [terms current] eqn:E.
  assert (tokens terms current (len (chars doc))) as Ht.
  { pose proof (tokens_chars (chars doc) [] [] 0 H0' ltac:(lia) ltac:(eapply Forall_impl; [exact Hc | by intros c []])) as Ht.
    replace (foldl tokenize_char _ _) with (terms, current) in Ht by (symmetry; exact E). by rewrite Z.add_0_l in Ht. }
  assert (∀ t, tokens t [] (len (chars doc)) → terms_ok t ∧ total t <= len doc) as Hdone.
  { intros t [Hw Hok _ Htot]. rewrite bool_decide_true in Htot by done. split; [split; [done | done | lia] | lia]. }
  case_bool_decide as Hne; apply Hdone; [by subst | apply bump_tokens; [done | done | lia]].
Qed.
End tokenizer.

(** ** Prefix ranges *)

(** [prefix_successor] by recursion from the left. *)
Fixpoint succ (p : bytes) : option bytes :=
  match p with
  | [] => None
  | a :: p =>
      match succ p with
      | Some u => Some (a :: u)
      | None => if bool_decide (a = xff) then None else Some [zb (bz a + 1)]
      end
  end.
Lemma successor_rev_snoc s a :
  successor_rev (s ++ [a]) =
  match successor_rev s with
  | Some u => Some (u ++ [a])
  | None => if bool_decide (a = xff) then None else Some [zb (bz a + 1)]
  end.
Proof. induction s as [|b s IH]; cbn [successor_rev app]; [done|]. destruct (bool_decide (b = xff)); [apply IH | done]. Qed.
Lemma prefix_successor_succ p : prefix_successor p = succ p.
Proof.
  unfold prefix_successor. induction p as [|a p IH]; [done|]. cbn [rev succ]. rewrite successor_rev_snoc, <- IH.
  destruct (successor_rev (rev p)); simpl; [by rewrite rev_unit|]. by case_bool_decide.
Qed.
Lemma bz_succ a : a ≠ xff → bz (zb (bz a + 1)) = bz a + 1.
Proof.
  intros Ha. rewrite bz_zb. apply Z.mod_small. pose proof (bz_range a). assert (bz a ≠ 255); [|lia].
  intros Hb. apply Ha, bz_inj. by rewrite Hb.
Qed.
Lemma cmp_cons a b x y :
  bytes_cmp (a :: x) (b :: y) = match bz a ?= bz b with Eq => bytes_cmp x y | c => c end.
Proof. done. Qed.
(** The keys between a prefix and its successor are those with the prefix. *)
Lemma prefix_range_spec p k : key_in_range k (prefix_range p) = starts_with p k.
Proof.
  unfold key_in_range, prefix_range. rewrite prefix_successor_succ. cbn [fst snd]. revert k.
  induction p as [|a p IH]; intros k; [by destruct k|].
  destruct k as [|c k]; [done|]. specialize (IH k). cbn [succ starts_with]. unfold bytes_ltb, bytes_leb in *.
  rewrite !cmp_cons. destruct (Z.compare_spec (bz c) (bz a)) as [E|E|E].
  - apply bz_inj in E as ->. rewrite (bool_decide_true (a = a)) by done. cbn [andb]. rewrite <- IH.
    destruct (succ p) as [u|]; [by rewrite cmp_cons, Z.compare_refl|]. case_bool_decide as Ha; [by destruct (bytes_cmp k p)|].
    rewrite cmp_cons, bz_succ, (proj2 (Z.compare_gt_iff _ _)) by (done || lia). by destruct (bytes_cmp k p).
  - rewrite (bool_decide_false (a = c)) by (intros ->; lia). done.
  - rewrite (bool_decide_false (a = c)) by (intros ->; lia). cbn [andb]. destruct (succ p) as [u|].
    + rewrite cmp_cons, (proj2 (Z.compare_lt_iff _ _)) by lia. done.
    + case_bool_decide as Ha; [subst; pose proof (bz_range c); change (bz xff) with 255 in E; lia|].
      rewrite cmp_cons, bz_succ by done. destruct (Z.compare_spec (bz a + 1) (bz c)); [by destruct k | done | lia].
Qed.

(** ** The key space *)

Inductive record_name : Type :=
| RMeta | RStats | RDocument (id : bytes) | RForward (id : bytes) | RPosting (term id : bytes) | RFrequency (term : bytes).
#[export] Instance record_name_eq_dec : EqDecision record_name.
Proof. solve_decision. Defined.
Definition key_of (n : record_name) : bytes :=
  match n with
  | RMeta => META_KEY
  | RStats => STATS_KEY
  | RDocument id => NAMESPACE ++ [DOCUMENT_MARKER] ++ component id
  | RForward id => NAMESPACE ++ [FORWARD_MARKER] ++ component id
  | RPosting term id => (NAMESPACE ++ [POSTING_MARKER] ++ component term) ++ component id
  | RFrequency term => NAMESPACE ++ [DF_MARKER] ++ component term
  end.
Definition name_ok (n : record_name) : Prop :=
  match n with
  | RMeta | RStats => True
  | RDocument id | RForward id => short id
  | RPosting term id => short term ∧ short id
  | RFrequency term => short term
  end.

Lemma key_of_reserved n : reserved (key_of n) = true.
Proof. apply starts_with_spec. destruct n; eexists; reflexivity. Qed.
Lemma component_inj' a b : short a → short b → component a = component b → a = b.
Proof. intros Ha Hb He. apply (component_inj a b [] []); [done | done|]. by rewrite !app_nil_r. Qed.
(** A key is the namespace, a marker and components. *)
Definition marker_of (n : record_name) : byte :=
  match n with
  | RMeta => x6d | RStats => x73 | RDocument _ => DOCUMENT_MARKER | RForward _ => FORWARD_MARKER
  | RPosting _ _ => POSTING_MARKER | RFrequency _ => DF_MARKER
  end.
Definition body_of (n : record_name) : bytes :=
  match n with
  | RMeta | RStats => []
  | RDocument c | RForward c | RFrequency c => component c
  | RPosting term id => component term ++ component id
  end.
Lemma key_of_split n : key_of n = NAMESPACE ++ marker_of n :: body_of n.
Proof. by destruct n. Qed.
Lemma key_of_cases n m (b : bytes) : key_of n = NAMESPACE ++ m :: b → marker_of n = m ∧ body_of n = b.
Proof. rewrite key_of_split. intros He%app_inv_head. by injection He. Qed.
Lemma key_of_inj n n' : name_ok n → name_ok n' → key_of n = key_of n' → n = n'.
Proof.
  intros Hn Hn'. rewrite (key_of_split n'). intros [Hm Hb]%key_of_cases.
  destruct n, n'; simpl in *; try discriminate; try done; try (apply component_inj' in Hb; [by subst | done | done]).
  destruct Hn, Hn'. apply component_inj in Hb as [-> Hb]; [|done|done]. by apply component_inj' in Hb as ->.
Qed.

Lemma document_key_ok id : short id → document_key id = Ok (key_of (RDocument id)).
Proof. intros Hs. unfold document_key, record_key. by rewrite encode_component_ok. Qed.
Lemma forward_key_ok id : short id → forward_key id = Ok (key_of (RForward id)).
Proof. intros Hs. unfold forward_key, record_key. by rewrite encode_component_ok. Qed.
Lemma posting_prefix_ok term : short term → posting_prefix term = Ok (NAMESPACE ++ [POSTING_MARKER] ++ component term).
Proof. intros Hs. unfold posting_prefix. by rewrite encode_component_ok. Qed.
Lemma posting_key_ok term id : short term → short id → posting_key term id = Ok (key_of (RPosting term id)).
Proof. intros Ht Hi. unfold posting_key. rewrite posting_prefix_ok by done. cbn [mbind res_bind]. by rewrite encode_component_ok. Qed.
Lemma df_key_ok term : short term → df_key term = Ok (key_of (RFrequency term)).
Proof. intros Hs. unfold df_key. by rewrite encode_component_ok. Qed.
Lemma parse_posting_ok term id tf :
  short id → id ≠ [] → utf8_valid id = true → is_u64 tf →
  parse_posting (NAMESPACE ++ [POSTING_MARKER] ++ component term) (key_of (RPosting term id)) (to_be 8 tf) = Ok (id, tf).
Proof.
  intros Hs Hne Hu Htf. unfold parse_posting. cbn [key_of]. set (p := NAMESPACE ++ [POSTING_MARKER] ++ component term).
  rewrite (proj2 (starts_with_spec p _)) by (by eexists). cbn [guard_err mbind res_bind]. rewrite drop_app_length.
  rewrite <- (app_nil_r (component id)), read_component_run by done. cbn [mbind res_bind]. rewrite Hu. cbn [guard_err mbind res_bind].
  change (len (@nil byte) =? 0) with true. cbn [guard_err mbind res_bind]. rewrite bool_decide_false by done.
  cbn [negb guard_err mbind res_bind]. by rewrite decode_u64_run.
Qed.
(** The reserved keys with the prefix of a term are its postings. *)
Lemma posting_of_prefix n term :
  name_ok n → short term → starts_with (NAMESPACE ++ [POSTING_MARKER] ++ component term) (key_of n) = true →
  ∃ id, n = RPosting term id ∧ short id.
Proof.
  intros Hn Hs [r He]%starts_with_spec. rewrite <- !app_assoc in He. apply key_of_cases in He as [Hm Hb].
  destruct n; try discriminate. destruct Hn as [Ht Hi]. apply component_inj in Hb as [-> _]; [by eexists | done | done].
Qed.
