(* ===== verification/FtsIndexTheory.v ===== *)
(** * The index follows the documents

    The abstract index is a map from document ids to documents.  Everything
    the index keeps in the engine is a function of that map; putting and
    deleting documents changes the map and nothing else, and a search returns
    the documents of the map that match, in the order of their ids.  The
    proofs use only the contract of the engine interface. *)

From stdpp Require Import sets sorting.
From Stdlib Require Import Sorted.
From S2P Require Import Prelude Bytes OrdMap Search Manifest Unicode Store Read ReadTheory Admission Api Fts FtsTheory.

Abbreviation documents := (ordmap bytes bytes).

Section index.
Context {S : Type} `{UnicodeSpec, AsyncKVEngineSpec S}.
Implicit Types (D : documents) (m : ordmap bytes bytes) (id term doc : bytes) (n : record_name) (s : S).
Import FtsIndex.

(** ** The abstract index *)

Definition has_term term doc : bool := bool_decide (is_Some (om_get term (tokenize doc))).
Definition frequency D term : Z := sum_map (λ doc, if has_term term doc then 1 else 0) D.
Definition corpus D : Z := sum_map (λ doc, total (tokenize doc)) D.

Definition id_ok id : Prop := id ≠ [] ∧ utf8_valid id = true ∧ short id.
Record doc_ok doc : Prop := {
  dk_utf8 : utf8_valid doc = true;
  dk_len : len doc <= u64_max;
  dk_short : ∀ e, e ∈ (tokenize doc : list (bytes * Z)) → short (fst e)
}.
Record docs_ok D : Prop := {
  do_wf : om_wf D;
  do_ids : ∀ id doc, (id, doc) ∈ (D : list _) → id_ok id ∧ doc_ok doc;
  do_count : len D <= u64_max;
  do_corpus : corpus D <= u64_max
}.

(** What the engine holds for a record. *)
Definition value_of D n : option bytes :=
  match n with
  | RMeta => Some metadata
  | RStats => Some (encode_stats (len D) (corpus D))
  | RDocument id => om_get id D
  | RForward id => forward_bytes ∘ tokenize <$> om_get id D
  | RPosting term id => to_be 8 <$> (om_get id D ≫= λ doc, om_get term (tokenize doc))
  | RFrequency term => if frequency D term =? 0 then None else Some (to_be 8 (frequency D term))
  end.
(** The reserved keys hold the index of [D] and nothing else. *)
Record indexed m D : Prop := {
  ix_value : ∀ n, name_ok n → om_get (key_of n) m = value_of D n;
  ix_only : ∀ k v, om_get k m = Some v → reserved k = true → ∃ n, name_ok n ∧ k = key_of n
}.

(** ** Sums over the documents *)

Lemma doc_terms doc : doc_ok doc → terms_ok (tokenize doc) ∧ total (tokenize doc) <= len doc.
Proof. intros [Hu Hl _]. by apply tokenize_ok. Qed.
Lemma doc_total doc : doc_ok doc → 0 <= total (tokenize doc) <= u64_max.
Proof.
  intros Hd. destruct (doc_terms doc Hd) as [Ht _]. pose proof (to_total _ Ht). pose proof (total_nonneg _ (terms_nonneg _ Ht)). lia.
Qed.
Lemma terms_len terms : terms_ok terms → len terms <= total terms.
Proof.
  intros Ht. rewrite <- sum_len. pose proof (to_terms _ Ht) as Hf. clear Ht. unfold total.
  induction terms as [|[t tf] terms IH]; simpl; [lia|]. destruct (Hf t tf ltac:(by left)).
  specialize (IH ltac:(intros; apply Hf; by right)). lia.
Qed.
Lemma get_doc D id doc : docs_ok D → om_get id D = Some doc → id_ok id ∧ doc_ok doc.
Proof. intros Hd Hg. apply (do_ids _ Hd). apply om_get_Some; [apply Hd | done]. Qed.
Lemma corpus_nonneg D : docs_ok D → 0 <= corpus D.
Proof. intros Hd. apply sum_nonneg. intros id doc Hin. apply doc_total. by apply (do_ids _ Hd id). Qed.
Lemma frequency_bounds D term : docs_ok D → 0 <= frequency D term <= len D.
Proof.
  intros Hd. unfold frequency. clear Hd. induction D as [|[id doc] D IH]; [done|]. rewrite len_cons. simpl.
  destruct (has_term term doc); lia.
Qed.
Lemma frequency_has D id doc term :
  docs_ok D → om_get id D = Some doc → has_term term doc = true → 1 <= frequency D term.
Proof.
  intros Hd Hg Ht. pose proof (sum_weight (λ doc, if has_term term doc then 1 else 0) D id (do_wf _ Hd)) as Hs.
  rewrite Hg in Hs. simpl in Hs. rewrite Ht in Hs. apply Hs. intros ? doc' _. by destruct (has_term term doc').
Qed.
Lemma tf_u64 doc term tf : doc_ok doc → om_get term (tokenize doc) = Some tf → is_u64 tf ∧ tf ≠ 0 ∧ short term ∧ term_ok term.
Proof.
  intros Hd Hg. destruct (doc_terms doc Hd) as [Ht _]. apply om_get_Some in Hg; [|apply Ht].
  destruct (terms_u64 _ _ _ Ht Hg) as [Hu Hz]. destruct (to_terms _ Ht _ _ Hg) as [Hok _].
  exact (conj Hu (conj Hz (conj (dk_short _ Hd (term, tf) Hg) Hok))).
Qed.

(** ** Loading *)

Section loads.
Variables (m : ordmap bytes bytes) (D : documents).
Hypothesis Hix : indexed m D.
Hypothesis Hok : docs_ok D.

Lemma get_name n : name_ok n → reads m (eng_get (key_of n)) (Ok (value_of D n)).
Proof. intros Hn. rewrite <- (ix_value _ _ Hix n Hn). apply reads_get. Qed.
Lemma load_stats_ok : reads m load_stats (Ok (len D, corpus D)).
Proof.
  eapply reads_bind; [by apply (get_name RStats)|]. eapply reads_bind; [apply reads_pure|]. simpl.
  rewrite decode_stats_run; [apply reads_pure | | |].
  - pose proof (do_count _ Hok). pose proof (len_nonneg D). word_lia.
  - pose proof (do_corpus _ Hok). pose proof (corpus_nonneg D Hok). word_lia.
  - intros Hz%len_0_nil. by rewrite Hz.
Qed.
Lemma load_df_ok term : short term → reads m (load_df term) (Ok (frequency D term)).
Proof.
  intros Hs. unfold load_df. rewrite df_key_ok by done. eapply reads_bind; [apply reads_pure|].
  eapply reads_bind; [by apply (get_name (RFrequency term))|]. cbn [value_of].
  pose proof (frequency_bounds D term Hok). pose proof (do_count _ Hok).
  destruct (Z.eqb_spec (frequency D term) 0) as [->|Hne]; [apply reads_ret|].
  rewrite decode_u64_run by word_lia. eapply reads_bind; [apply reads_pure|]. rewrite (proj2 (Z.eqb_neq _ _)) by done. apply reads_ret.
Qed.
Lemma check_postings_ok id doc l :
  om_get id D = Some doc → (∀ term tf, (term, tf) ∈ l → om_get term (tokenize doc) = Some tf) →
  reads m (check_postings id l) (Ok tt).
Proof.
  intros Hg. destruct (get_doc D id doc Hok Hg) as [(_ & _ & Hs) Hd].
  induction l as [|[term tf] l IH]; intros Hl; [apply reads_ret|]. cbn [check_postings].
  pose proof (Hl term tf ltac:(by left)) as Htf. destruct (tf_u64 doc term tf Hd Htf) as (Hu & _ & Hst & _).
  rewrite posting_key_ok by done. eapply reads_bind; [apply reads_pure|].
  eapply reads_bind; [by apply (get_name (RPosting term id))|]. cbn [value_of]. rewrite Hg. simpl. rewrite Htf. simpl.
  rewrite decode_u64_run by done. eapply reads_bind; [apply reads_pure|]. rewrite Z.eqb_refl. apply IH.
  intros; apply Hl. by right.
Qed.
Lemma load_document_state_ok id :
  short id → reads m (load_document_state id) (Ok ((λ doc, (doc, tokenize doc, total (tokenize doc))) <$> om_get id D)).
Proof.
  intros Hs. unfold load_document_state. rewrite document_key_ok, forward_key_ok by done.
  eapply reads_bind; [apply reads_pure|]. eapply reads_bind; [by apply (get_name (RDocument id))|].
  eapply reads_bind; [apply reads_pure|]. eapply reads_bind; [by apply (get_name (RForward id))|]. cbn [value_of].
  destruct (om_get id D) as [doc|] eqn:Hg; [|apply reads_ret]. simpl. destruct (get_doc D id doc Hok Hg) as [_ Hd].
  destruct (doc_terms doc Hd) as [Ht _]. rewrite (dk_utf8 _ Hd). eapply reads_bind; [apply reads_pure|].
  rewrite decode_terms_run; [|done | apply Hd | pose proof (terms_len _ Ht); pose proof (to_total _ Ht); lia].
  eapply reads_bind; [apply reads_pure|]. cbv beta iota. rewrite bool_decide_true by done. eapply reads_bind; [apply reads_pure|].
  eapply reads_bind; [apply (check_postings_ok id doc); [done|] | apply reads_ret].
  intros term tf Hin. apply om_get_Some; [apply Ht | done].
Qed.
Lemma validate_posting_ok id doc term :
  om_get id D = Some doc → has_term term doc = true → reads m (validate_posting id term) (Ok tt).
Proof.
  intros Hg Ht. destruct (get_doc D id doc Hok Hg) as [(_ & _ & Hs) _]. unfold validate_posting.
  eapply reads_bind; [by apply load_document_state_ok|]. rewrite Hg. simpl. unfold has_term in Ht. rewrite Ht. apply reads_pure.
Qed.

(** A stored document is returned as it is. *)
Lemma get_document_ok id : short id → reads m (get_document id) (Ok (om_get id D)).
Proof.
  intros Hs. unfold get_document. eapply reads_bind; [apply reads_await|].
  eapply reads_bind; [by apply load_document_state_ok|]. destruct (om_get id D); apply reads_ret.
Qed.
End loads.

(** ** Writing records *)

Abbreviation named := (record_name * option bytes)%type.
Definition to_op (e : named) : BatchOperation :=
  match snd e with Some v => BatchPut (key_of (fst e)) v | None => BatchDelete (key_of (fst e)) end.

Lemma to_op_key e : op_key_of (to_op e) = key_of (fst e).
Proof. by destruct e as [n [v|]]. Qed.
Lemma to_op_result e : op_result (to_op e) = snd e.
Proof. by destruct e as [n [v|]]. Qed.
Lemma get_named (ns : list named) m n w :
  name_ok n → (∀ e, e ∈ ns → name_ok (fst e)) → (∀ v, (n, v) ∈ ns → v = w) →
  om_get (key_of n) (apply_ops (to_op <$> ns) m) = if decide (n ∈ ns.*1) then w else om_get (key_of n) m.
Proof.
  intros Hn Hok Hw. unfold apply_ops. revert m. induction ns as [|e ns IH] using rev_ind; intros m; [by rewrite decide_False by set_solver|].
  rewrite fmap_app, foldl_app. simpl. rewrite get_apply_op, to_op_key, to_op_result.
  rewrite IH by set_solver. rewrite fmap_app. simpl. destruct (decide (key_of e.1 = key_of n)) as [He|He].
  - apply key_of_inj in He; [|apply Hok; set_solver | done]. subst n. rewrite decide_True by set_solver.
    apply Hw. destruct e. set_solver.
  - assert (n ≠ e.1) by (by intros ->). by destruct (decide (n ∈ ns.*1)), (decide (n ∈ ns.*1 ++ [e.1])); set_solver.
Qed.
(** Writing the records that change turns one index into another. *)
Lemma apply_named m D D' (ns : list named) :
  indexed m D → (∀ n v, (n, v) ∈ ns → name_ok n ∧ v = value_of D' n) →
  (∀ n, name_ok n → n ∉ ns.*1 → value_of D' n = value_of D n) → om_wf m →
  indexed (apply_ops (to_op <$> ns) m) D' ∧
  ∀ k, reserved k = false → om_get k (apply_ops (to_op <$> ns) m) = om_get k m.
Proof.
  intros [Hv Ho] Hns Hsame Hw. assert (∀ e, e ∈ ns → name_ok e.1) as Hok by (intros [n v] He; by apply (Hns n v)).
  assert (∀ k, k ∉ key_of <$> ns.*1 → om_get k (apply_ops (to_op <$> ns) m) = om_get k m) as Hout.
  { intros k Hk. apply get_apply_notin. intros (o & -> & (e & -> & He)%list_elem_of_fmap)%list_elem_of_fmap. apply Hk.
    rewrite to_op_key. by do 2 apply list_elem_of_fmap_2. }
  split; [split|].
  - intros n Hn. rewrite (get_named ns m n (value_of D' n)) by (done || intros; by apply Hns).
    destruct (decide (n ∈ ns.*1)); [done|]. rewrite Hv by done. by rewrite Hsame.
  - intros k v Hg Hr. destruct (decide (k ∈ key_of <$> ns.*1)) as [(n & -> & (e & -> & He)%list_elem_of_fmap)%list_elem_of_fmap|Hk].
    + exists e.1. split; [by apply Hok | done].
    + rewrite Hout in Hg by done. by eapply Ho.
  - intros k Hr. apply Hout. intros (n & -> & _)%list_elem_of_fmap. by rewrite key_of_reserved in Hr.
Qed.

(** The frequency of a term in a document that may be missing. *)
Definition tf_in (o : option bytes) term : option Z := o ≫= λ doc, om_get term (tokenize doc).
Definition term_names D' id (o o' : option bytes) term : list named :=
  if default 0 (tf_in o term) =? default 0 (tf_in o' term) then []
  else [(RFrequency term, value_of D' (RFrequency term)); (RPosting term id, value_of D' (RPosting term id))].

Lemma tf_default o term : (∀ doc, o = Some doc → doc_ok doc) → default 0 (tf_in o term) = 0 ↔ tf_in o term = None.
Proof.
  intros Ho. destruct o as [doc|]; [|done]. simpl. destruct (om_get term (tokenize doc)) as [tf|] eqn:E; [|done].
  destruct (tf_u64 doc term tf (Ho doc eq_refl) E) as (_ & Hne & _). simpl. naive_solver.
Qed.
Lemma tf_eq o o' term :
  (∀ doc, o = Some doc → doc_ok doc) → (∀ doc, o' = Some doc → doc_ok doc) →
  default 0 (tf_in o term) = default 0 (tf_in o' term) → tf_in o term = tf_in o' term.
Proof.
  intros Ho Ho' He. destruct (tf_in o term) as [x|] eqn:E.
  - destruct (tf_in o' term) as [y|] eqn:E'; simpl in He; [by subst|]. subst x.
    pose proof (proj1 (tf_default o term Ho)) as Hd. rewrite E in Hd. by specialize (Hd eq_refl).
  - simpl in He. symmetry. apply tf_default; [done | by symmetry].
Qed.
Lemma weight_tf o term :
  weight (λ doc, if has_term term doc then 1 else 0) o = match tf_in o term with Some _ => 1 | None => 0 end.
Proof.
  destruct o as [doc|]; [|done]. simpl. unfold has_term. destruct (om_get term (tokenize doc)); [by rewrite bool_decide_true|].
  by rewrite bool_decide_false by (by intros []).
Qed.
Lemma elem_of_union_terms (old new : term_map) term :
  term ∈ union_terms old new ↔ term ∈ (fst <$> (old : list _)) ∨ term ∈ (fst <$> (new : list _)).
Proof.
  unfold union_terms. rewrite <- elem_of_app. generalize ((fst <$> (old : list (bytes * Z))) ++ (fst <$> (new : list (bytes * Z)))) as l.
  assert (∀ l (set : list (bytes * unit)), om_wf set → om_wf (foldl (λ set term, om_insert term tt set) set l) ∧
    ∀ t, t ∈ (foldl (λ set term, om_insert term tt set) set l).*1 ↔ t ∈ l ∨ t ∈ set.*1) as Hf.
  { intros l. induction l as [|x l IH]; intros set Hs; [split; [done | set_solver]|]. cbn [foldl].
    destruct (IH (om_insert x tt set)) as [Hw Hi]; [by apply om_insert_wf|]. split; [done|]. intros t. rewrite Hi.
    assert (∀ (y : list (bytes * unit)), om_wf y → ∀ t, t ∈ y.*1 ↔ om_get t y = Some tt) as Hg.
    { intros y Hy t'. rewrite list_elem_of_fmap. split.
      - intros ([k []] & -> & Hin). by apply om_get_Some.
      - intros Hin%om_get_Some; [|done]. by exists (t', tt). }
    rewrite !Hg by (done || by apply om_insert_wf). rewrite om_get_insert, elem_of_cons. case_decide; naive_solver. }
  intros l. destruct (Hf l []) as [_ Hi]; [apply om_wf_nil|]. rewrite Hi. set_solver.
Qed.

(** *** Changing one document *)

Definition set_doc id (o : option bytes) D : documents :=
  match o with Some doc => om_insert id doc D | None => om_remove id D end.
Lemma get_set_doc k id o D : om_get k (set_doc id o D) = if decide (k = id) then o else om_get k D.
Proof.
  destruct o; simpl; [by rewrite om_get_insert|]. case_decide; [subst; apply om_get_remove_eq | by apply om_get_remove_ne].
Qed.
Lemma sum_set_doc (f : bytes → Z) id o D :
  om_wf D → sum_map f (set_doc id o D) = sum_map f D - weight f (om_get id D) + weight f o.
Proof. intros Hw. destruct o; simpl; [by apply sum_insert | rewrite sum_remove by done; lia]. Qed.
Lemma frequency_set_doc D id o term :
  om_wf D → frequency (set_doc id o D) term =
    frequency D term - (match tf_in (om_get id D) term with Some _ => 1 | None => 0 end)
    + (match tf_in o term with Some _ => 1 | None => 0 end).
Proof. intros Hw. unfold frequency. rewrite sum_set_doc by done. by rewrite !weight_tf. Qed.

Lemma posting_op_run D' id o' t :
  om_get id D' = o' → (∀ doc, o' = Some doc → doc_ok doc) → short id → short t →
  posting_op t id (default 0 (tf_in o' t)) = Ok (to_op (RPosting t id, value_of D' (RPosting t id))).
Proof.
  intros Hg Hdoc Hsid Hs. unfold posting_op. rewrite posting_key_ok by done. cbn [value_of]. rewrite Hg. fold (tf_in o' t).
  pose proof (tf_default o' t Hdoc) as Hd. destruct (tf_in o' t) as [tf|]; [|done]. simpl in *. unfold to_op. simpl.
  by destruct (Z.eqb_spec tf 0) as [->|]; [naive_solver|].
Qed.
Lemma df_op_run D' t : short t → df_op t (frequency D' t) = Ok (to_op (RFrequency t, value_of D' (RFrequency t))).
Proof. intros Hs. unfold df_op. rewrite df_key_ok by done. simpl. unfold to_op. simpl. by destruct (frequency D' t =? 0). Qed.

(** The records a change of the document of [id] rewrites. *)
Definition update_names D' id o o' (terms : list bytes) : list named :=
  (terms ≫= term_names D' id o o') ++
  [(RDocument id, value_of D' (RDocument id)); (RForward id, value_of D' (RForward id)); (RStats, value_of D' RStats)].

Lemma elem_of_term_names D' id o o' term e :
  e ∈ term_names D' id o o' term →
  (e.1 = RFrequency term ∨ e.1 = RPosting term id) ∧ e.2 = value_of D' e.1.
Proof. unfold term_names. destruct (_ =? _); set_solver. Qed.
Section change.
Variables (m : ordmap bytes bytes) (D : documents) (id : bytes) (o' : option bytes).
Hypothesis Hix : indexed m D.
Hypothesis Hok : docs_ok D.
Hypothesis Hid : id_ok id.
Hypothesis Hdoc : ∀ doc, o' = Some doc → doc_ok doc.
Let o : option bytes := om_get id D.
Let D' : documents := set_doc id o' D.

Lemma old_doc doc : o = Some doc → doc_ok doc.
Proof. intros Hg. by apply (get_doc D id doc Hok). Qed.
Lemma update_indexed terms :
  om_wf m → Forall short terms →
  (∀ t, is_Some (tf_in o t) ∨ is_Some (tf_in o' t) → t ∈ terms) →
  indexed (apply_ops (to_op <$> update_names D' id o o' terms) m) D' ∧
  ∀ k, reserved k = false → om_get k (apply_ops (to_op <$> update_names D' id o o' terms) m) = om_get k m.
Proof.
  intros Hw Hs Hall. destruct Hid as (_ & _ & Hsid). rewrite Forall_forall in Hs. apply (apply_named m D); [done| | |done].
  - intros n v [Hin|Hin]%elem_of_app; [|set_solver].
    apply list_elem_of_bind in Hin as (t & He & Ht). apply elem_of_term_names in He as [[Hn|Hn] Hv]; simpl in *; subst; simpl; auto.
  - intros n Hn Hout. unfold update_names in Hout. rewrite fmap_app in Hout.
    assert (∀ t, t ∈ terms → default 0 (tf_in o t) ≠ default 0 (tf_in o' t) →
      RFrequency t ∈ (terms ≫= term_names D' id o o').*1 ∧ RPosting t id ∈ (terms ≫= term_names D' id o o').*1) as Hch.
    { intros t Ht Hne. assert (term_names D' id o o' t = [(RFrequency t, value_of D' (RFrequency t)); (RPosting t id, value_of D' (RPosting t id))])
        as Htn by (unfold term_names; by rewrite (proj2 (Z.eqb_neq _ _))).
      split; apply list_elem_of_fmap; eexists; (split; [|apply list_elem_of_bind; exists t; rewrite Htn; split; [|done]]);
        [|by left| |by right; left]; done. }
    assert (∀ t, RFrequency t ∉ (terms ≫= term_names D' id o o').*1 ∨ RPosting t id ∉ (terms ≫= term_names D' id o o').*1 →
      tf_in o t = tf_in o' t) as Hsame.
    { intros t Hno. destruct (decide (default 0 (tf_in o t) = default 0 (tf_in o' t))) as [He|He];
        [apply tf_eq; [apply old_doc | done | done]|].
      destruct (decide (t ∈ terms)) as [Ht|Ht]; [destruct (Hch t Ht He); naive_solver|].
      destruct (tf_in o t) eqn:E1, (tf_in o' t) eqn:E2; simpl in He; try done; exfalso; apply Ht, Hall; rewrite ?E1, ?E2; eauto. }
    destruct n as [| |i|i|t i|t]; cbn [value_of]; try done.
    + set_solver.
    + unfold D'. rewrite get_set_doc. case_decide; [subst; set_solver | done].
    + unfold D'. rewrite get_set_doc. case_decide; [subst; set_solver | done].
    + unfold D'. rewrite get_set_doc. case_decide as Hi; [|done]. subst i. f_equal. symmetry. apply (Hsame t). set_solver.
    + unfold D'. rewrite frequency_set_doc by apply Hok. fold o. rewrite (Hsame t) by set_solver.
      replace (frequency D t - _ + _) with (frequency D t) by lia. done.
Qed.

(** The loops of [put_document] and [delete_document] collect these records. *)
Definition terms_of (o : option bytes) : term_map := default [] (tokenize <$> o).
Lemma get_terms_of x t : om_get t (terms_of x) = tf_in x t.
Proof. by destruct x. Qed.
Lemma terms_of_short x e : (∀ doc, x = Some doc → doc_ok doc) → e ∈ (terms_of x : list _) → short (fst e).
Proof. intros Hx He. destruct x as [doc|]; [|by apply elem_of_nil in He]. exact (dk_short _ (Hx doc eq_refl) e He). Qed.

Lemma len_D' : len D' = len D - (match o with Some _ => 1 | None => 0 end) + (match o' with Some _ => 1 | None => 0 end).
Proof. rewrite <- !sum_len. unfold D'. rewrite sum_set_doc by apply Hok. unfold o. by destruct (om_get id D), o'. Qed.
Lemma corpus_D' : corpus D' = corpus D - total (terms_of o) + total (terms_of o').
Proof. unfold corpus, D'. rewrite sum_set_doc by apply Hok. unfold o. by destruct (om_get id D), o'. Qed.
Lemma corpus_old : 0 <= total (terms_of o) <= corpus D.
Proof.
  unfold o. pose proof (sum_weight (λ doc, total (tokenize doc)) D id (do_wf _ Hok)) as Hs. pose proof (corpus_nonneg D Hok).
  destruct (om_get id D) as [doc|] eqn:E; [|done]. split; [apply doc_total; by apply (get_doc D id)|]. apply Hs.
  intros i x Hx. apply doc_total. by apply (do_ids _ Hok i).
Qed.
Lemma docs_ok_D' : len D' <= u64_max → corpus D' <= u64_max → docs_ok D'.
Proof.
  intros Hl Hc. split; [| |done|done]; [unfold D'; destruct o'; simpl; [apply om_insert_wf | apply om_remove_wf]; apply Hok|].
  intros i x Hin. assert (om_get i D' = Some x) as Hg.
  { apply om_get_Some; [|done]. unfold D'; destruct o'; simpl; [apply om_insert_wf | apply om_remove_wf]; apply Hok. }
  unfold D' in Hg. rewrite get_set_doc in Hg. case_decide; [subst; auto | by apply (get_doc D)].
Qed.

Section written.
Hypothesis Hok' : docs_ok D'.
Lemma frequency_D' t :
  frequency D' t = frequency D t - (match tf_in o t with Some _ => 1 | None => 0 end)
    + (match tf_in o' t with Some _ => 1 | None => 0 end) ∧ 0 <= frequency D' t <= u64_max ∧ 0 <= frequency D t <= u64_max.
Proof.
  unfold D'. rewrite frequency_set_doc by apply Hok. split; [done|]. rewrite <- frequency_set_doc by apply Hok. fold D'.
  pose proof (frequency_bounds D t Hok). pose proof (frequency_bounds D' t Hok'). pose proof (do_count _ Hok). pose proof (do_count _ Hok'). lia.
Qed.
Lemma posting_op_ok t :
  short t → posting_op t id (default 0 (tf_in o' t)) = Ok (to_op (RPosting t id, value_of D' (RPosting t id))).
Proof.
  intros Hs. apply (posting_op_run D' id o'); [|done|apply Hid|done]. unfold D'. by rewrite get_set_doc, decide_True.
Qed.
Lemma term_operations_ok t :
  short t → reads m (term_operations id (terms_of o) (terms_of o') t) (Ok (to_op <$> term_names D' id o o' t)).
Proof.
  intros Hs. unfold term_operations, term_names. rewrite !get_terms_of.
  destruct (Z.eqb_spec (default 0 (tf_in o t)) (default 0 (tf_in o' t))) as [|Hne]; [apply reads_ret|].
  eapply reads_bind; [by apply load_df_ok|]. destruct (frequency_D' t) as (Hf & Hb' & Hb).
  assert (∀ x, (∀ doc, x = Some doc → doc_ok doc) → (default 0 (tf_in x t) =? 0) = match tf_in x t with Some _ => false | None => true end) as Hz.
  { intros x Hx. pose proof (tf_default x t Hx). destruct (tf_in x t); [apply Z.eqb_neq; naive_solver | done]. }
  rewrite (Hz o old_doc), (Hz o' Hdoc). eapply (reads_bind _ _ _ (frequency D' t)).
  - destruct (tf_in o t), (tf_in o' t); [| | |done]; rewrite Hf.
    + replace (_ - 1 + 1) with (frequency D t) by lia. apply reads_ret.
    + rewrite checked_sub_run by lia. rewrite Z.add_0_r. apply reads_pure.
    + rewrite checked_add_run by lia. rewrite Z.sub_0_r. apply reads_pure.
  - eapply reads_bind; [rewrite df_op_run by done; apply reads_pure|].
    eapply reads_bind; [rewrite posting_op_ok by done; apply reads_pure | apply reads_ret].
Qed.
Lemma terms_operations_ok terms :
  Forall short terms →
  reads m (terms_operations id (terms_of o) (terms_of o') terms) (Ok (to_op <$> (terms ≫= term_names D' id o o'))).
Proof.
  induction 1 as [|t terms Ht Hts IH]; [apply reads_ret|]. cbn [terms_operations].
  eapply reads_bind; [by apply term_operations_ok|]. eapply reads_bind; [apply IH|]. rewrite bind_cons, fmap_app. apply reads_ret.
Qed.
Lemma term_names_gone t tf :
  o' = None → tf_in o t = Some tf →
  to_op <$> term_names D' id o o' t = [to_op (RFrequency t, value_of D' (RFrequency t)); BatchDelete (key_of (RPosting t id))].
Proof.
  intros Ho' Ht. pose proof (proj1 (tf_default o t old_doc)) as Hd. unfold term_names.
  rewrite Ht in *. rewrite Ho'. change (default 0 (tf_in None t)) with 0. change (default 0 (Some tf)) with tf in *. rewrite (proj2 (Z.eqb_neq tf 0)) by (intros ->; by specialize (Hd eq_refl)).
  rewrite !fmap_cons. do 2 f_equal. unfold D', to_op. cbn [value_of fst snd]. by rewrite Ho', get_set_doc, decide_True.
Qed.
Lemma delete_operations_ok terms :
  o' = None → Forall (λ t, short t ∧ is_Some (tf_in o t)) terms →
  reads m (delete_operations id terms) (Ok (to_op <$> (terms ≫= term_names D' id o o'))).
Proof.
  intros Ho'. induction 1 as [|t terms [Hs [tf Ht]] Hts IH]; [apply reads_ret|]. cbn [delete_operations].
  destruct (frequency_D' t) as (Hf & Hb' & Hb). rewrite Ht, Ho' in Hf. simpl in Hf.
  eapply reads_bind; [by apply load_df_ok|]. rewrite checked_sub_run by lia. eapply reads_bind; [apply reads_pure|].
  replace (frequency D t - 1) with (frequency D' t) by lia. rewrite df_op_run by done. eapply reads_bind; [apply reads_pure|].
  destruct Hid as (_ & _ & Hsid). rewrite posting_key_ok by done. eapply reads_bind; [apply reads_pure|].
  eapply reads_bind; [apply IH|]. rewrite bind_cons, fmap_app, (term_names_gone t tf) by done. apply reads_ret.
Qed.
End written.

(** The batch a change of the document of [id] writes. *)
Definition batch_terms : list bytes :=
  match o' with Some doc => union_terms (terms_of o) (tokenize doc) | None => fst <$> (terms_of o : list (bytes * Z)) end.
Definition document_batch : list BatchOperation := to_op <$> update_names D' id o o' batch_terms.

Lemma batch_terms_ok : Forall short batch_terms ∧ ∀ t, is_Some (tf_in o t) ∨ is_Some (tf_in o' t) → t ∈ batch_terms.
Proof.
  assert (∀ x t, (∀ doc, x = Some doc → doc_ok doc) → t ∈ (fst <$> (terms_of x : list (bytes * Z))) ↔ is_Some (tf_in x t)) as Hin.
  { intros [doc|] t Hx; [|simpl; split; [intros []%elem_of_nil | by intros []]]. destruct (doc_terms doc (Hx doc eq_refl)) as [Ht _].
    simpl. rewrite list_elem_of_fmap. split.
    - intros ([k v] & -> & Hk). exists v. apply om_get_Some; [apply Ht | done].
    - intros [tf Htf]. exists (t, tf). split; [done|]. apply om_get_Some in Htf; [done | apply Ht]. }
  assert (∀ x t, (∀ doc, x = Some doc → doc_ok doc) → t ∈ (fst <$> (terms_of x : list (bytes * Z))) → short t) as Hsh.
  { intros x t Hx (e & -> & He)%list_elem_of_fmap. by apply (terms_of_short x). }
  pose proof old_doc as Hold. rewrite Forall_forall. unfold batch_terms. destruct o' as [doc|].
  - change (tokenize doc) with (terms_of (Some doc)). split; intros t; rewrite elem_of_union_terms; [naive_solver|].
    intros [Ht|Ht]; [left | right]; by apply Hin.
  - split; intros t; [by apply Hsh|]. intros [Ht|[x Ht]]; [by apply Hin | done].
Qed.
Lemma document_batch_indexed :
  om_wf m → indexed (apply_ops document_batch m) D' ∧
  ∀ k, reserved k = false → om_get k (apply_ops document_batch m) = om_get k m.
Proof. intros Hw. destruct batch_terms_ok. by apply update_indexed. Qed.
Lemma load_old : reads m (load_document_state id) (Ok ((λ doc, (doc, tokenize doc, total (tokenize doc))) <$> o)).
Proof. destruct Hid as (_ & _ & Hs). by apply (load_document_state_ok m D). Qed.

Lemma update_stats_ok doc :
  o' = Some doc →
  let r := update_stats ((λ doc, (doc, tokenize doc, total (tokenize doc))) <$> o) (total (tokenize doc)) (len D) (corpus D) in
  (docs_ok D' ∧ r = Ok (len D', corpus D')) ∨ ∃ e, r = Err e.
Proof.
  intros Ho'. pose proof len_D' as Hlen. pose proof corpus_D' as Hcor. pose proof corpus_old as Hold.
  pose proof (do_count _ Hok). pose proof docs_ok_D' as Hd.
  rewrite Ho' in Hlen, Hcor. change (terms_of (Some doc)) with (tokenize doc) in Hcor. intros r. unfold r, update_stats, checked_add, checked_sub.
  unfold o in Hlen, Hcor, Hold |- *. destruct (om_get id D) as [old|]; simpl in *.
  - change (terms_of (Some old)) with (tokenize old) in *. rewrite (proj2 (Z.leb_le (total (tokenize old)) (corpus D))) by lia. simpl.
    destruct (Z.leb_spec (corpus D - total (tokenize old) + total (tokenize doc)) u64_max); simpl; [left | eauto].
    split; [apply Hd; lia | apply (f_equal Ok), pair_equal_spec; lia].
  - change (total (terms_of None)) with 0 in *. destruct (Z.leb_spec (len D + 1) u64_max); simpl; [|eauto]. rewrite (proj2 (Z.leb_le 0 (corpus D))) by lia. simpl.
    destruct (Z.leb_spec (corpus D - 0 + total (tokenize doc)) u64_max); simpl; [left | eauto].
    split; [apply Hd; lia | apply (f_equal Ok), pair_equal_spec; lia].
Qed.
(** Putting a document writes its batch, or fails where the number of
    documents or their total length does not fit a [u64]. *)
Lemma put_document_leads doc f :
  o' = Some doc →
  (docs_ok D' ∧ leads m (put_document id doc f) (eng_write_batch document_batch f)) ∨
  ∃ e, leads m (put_document id doc f) (pure_eff (Err e)).
Proof.
  intros Ho'. pose proof (Hdoc doc Ho') as Hd. destruct (doc_total doc Hd) as [Ht0 Ht].
  set (old := (λ doc, (doc, tokenize doc, total (tokenize doc))) <$> o).
  assert (old_terms old = terms_of o) as Hot by (unfold old; by destruct o).
  assert (∀ q, leads m (
      '(count, total) ← pure_eff (update_stats old (total (tokenize doc)) (len D) (corpus D));
      ops ← terms_operations id (old_terms old) (tokenize doc) (union_terms (old_terms old) (tokenize doc));
      doc_ops ← pure_eff (document_operations id doc (tokenize doc));
      eng_write_batch (ops ++ doc_ops ++ [BatchPut STATS_KEY (encode_stats count total)]) f) q → leads m (put_document id doc f) q) as Hpre.
  { intros q Hq. unfold put_document. eapply leads_bind; [apply reads_await|]. rewrite (dk_utf8 _ Hd).
    eapply leads_bind; [apply reads_pure|]. cbv beta zeta. eapply leads_bind; [apply load_old|].
    eapply leads_bind; [by apply (load_stats_ok m D)|]. cbv beta iota.
    rewrite sum_frequencies_total by (by apply terms_nonneg, doc_terms || lia).
    eapply leads_bind; [apply reads_pure | done]. }
  destruct (update_stats_ok doc Ho') as [(Hok' & Hu)|[e Hu]]; fold old in Hu; rewrite Hu in Hpre.
  - left. split; [done|]. apply Hpre. eapply leads_bind; [apply reads_pure|]. cbv beta iota. rewrite Hot.
    pose proof (proj1 batch_terms_ok) as Hb. unfold batch_terms in Hb. rewrite Ho' in Hb.
    pose proof (terms_operations_ok Hok' _ Hb) as Hto. rewrite Ho' in Hto. eapply leads_bind; [apply Hto|].
    destruct (doc_terms doc Hd) as [Htk _]. destruct Hid as (_ & _ & Hsid). unfold document_operations.
    rewrite document_key_ok, forward_key_ok, encode_terms_ok by (done || apply Hd). eapply leads_bind; [apply reads_pure|].
    unfold document_batch, update_names, batch_terms. rewrite Ho'. simpl. rewrite fmap_app. unfold D'. rewrite Ho'. simpl.
    rewrite om_get_insert_eq. apply leads_refl.
  - right. exists e. apply Hpre. apply leads_fail, reads_fail, reads_pure.
Qed.
Lemma delete_document_missing f : o = None → reads m (delete_document id f) (Ok false).
Proof.
  intros Ho. unfold delete_document. eapply reads_bind; [apply reads_await|]. eapply reads_bind; [apply load_old|]. rewrite Ho. apply reads_ret.
Qed.
Lemma delete_document_leads doc f :
  o = Some doc → o' = None →
  docs_ok D' ∧ leads m (delete_document id f) (_ ← eng_write_batch document_batch f; mret true).
Proof.
  intros Ho Ho'. pose proof len_D' as Hlen. pose proof corpus_D' as Hcor. pose proof corpus_old as Hold.
  pose proof (do_count _ Hok). pose proof (do_corpus _ Hok). pose proof (len_nonneg D').
  rewrite Ho, Ho' in Hlen, Hcor. rewrite Ho in Hold. change (terms_of (Some doc)) with (tokenize doc) in Hcor, Hold.
  change (total (terms_of None)) with 0 in Hcor.
  assert (docs_ok D') as Hok' by (apply docs_ok_D'; lia). split; [done|].
  unfold delete_document. eapply leads_bind; [apply reads_await|]. eapply leads_bind; [apply load_old|]. rewrite Ho. cbv beta iota.
  cbn [fmap option_fmap option_map]. eapply leads_bind; [by apply (load_stats_ok m D)|]. cbv beta iota.
  rewrite (checked_sub_run (len D)) by lia. eapply leads_bind; [apply reads_pure|]. rewrite (checked_sub_run (corpus D)) by lia.
  eapply leads_bind; [apply reads_pure|].
  pose proof (proj1 batch_terms_ok) as Hb. unfold batch_terms in Hb. rewrite Ho, Ho' in Hb.
  eapply leads_bind; [apply (delete_operations_ok Hok'); [done|]|].
  { rewrite Forall_forall in Hb |- *. intros t Ht. split; [by apply Hb|]. apply list_elem_of_fmap in Ht as ([k tf] & -> & Hin).
    rewrite Ho. exists tf. apply om_get_Some; [apply doc_terms, old_doc, Ho | done]. }
  destruct Hid as (_ & _ & Hsid). rewrite document_key_ok, forward_key_ok by done. do 2 (eapply leads_bind; [apply reads_pure|]).
  assert (om_get id D' = None) as Hg by (unfold D'; by rewrite get_set_doc, decide_True, Ho').
  unfold document_batch, update_names, batch_terms. cbn [value_of]. rewrite Ho, Ho', Hg, fmap_app.
  replace (len D - 1) with (len D') by lia. replace (corpus D - total (tokenize doc)) with (corpus D') by lia.
  apply leads_refl.
Qed.
End change.

(** The pairs of the user. *)
Definition user_part m : ordmap bytes bytes := List.filter (λ e, negb (reserved (fst e))) m.
Lemma get_user_part k m : om_wf m → om_get k (user_part m) = if reserved k then None else om_get k m.
Proof.
  intros Hm. assert (om_wf (user_part m)) as Hu by (by apply filter_om_wf).
  assert (∀ v, om_get k (user_part m) = Some v ↔ om_get k m = Some v ∧ negb (reserved k) = true) as Hv.
  { intros v. rewrite om_get_Some by done. by apply om_filter_get. }
  destruct (reserved k); simpl in Hv.
  - destruct (om_get k (user_part m)) as [v|]; [|done]. by destruct (proj1 (Hv v) eq_refl).
  - destruct (om_get k m) as [v|]; [by apply Hv|]. destruct (om_get k (user_part m)) as [v|]; [|done]. by destruct (proj1 (Hv v) eq_refl).
Qed.
Lemma user_part_ext m m' :
  om_wf m → om_wf m' → (∀ k, reserved k = false → om_get k m' = om_get k m) → user_part m' = user_part m.
Proof.
  intros Hm Hm' Hk. apply om_ext; [by apply filter_om_wf..|]. intros k. rewrite !get_user_part by done.
  destruct (reserved k) eqn:Hr; [done | by apply Hk].
Qed.
End index.
