(* ===== verification/FtsSearch.v ===== *)
(** * Search returns the documents that match

    The second half of the contract of the index: opening it, searching it
    and using the engine under it.  A search answers with the documents whose
    terms match the query, in the order of their ids, cut at the limit. *)

From stdpp Require Import sets sorting.
From Stdlib Require Import Sorted.
From S2P Require Import Prelude Bytes OrdMap Search Manifest Unicode Store Read ReadTheory Admission Api Fts FtsTheory FtsIndexTheory.

(** ** Sets of ids *)

Import FtsIndex.
Implicit Types (X Y ids : ordmap bytes unit) (id : bytes).

Lemma om_get_filter {V} (f : bytes * V → bool) (m : list (bytes * V)) k v :
  om_wf m → om_get k (List.filter f m) = Some v ↔ om_get k m = Some v ∧ f (k, v) = true.
Proof. intros Hm. rewrite om_get_Some by (by apply filter_om_wf). by apply om_filter_get. Qed.

Definition in_ids id ids : Prop := is_Some (om_get id ids).
Lemma ids_ext X Y : om_wf X → om_wf Y → (∀ id, in_ids id X ↔ in_ids id Y) → X = Y.
Proof.
  intros HX HY Hi. apply om_ext; [done | done|]. intros k. specialize (Hi k). unfold in_ids in Hi.
  destruct (om_get k X) as [[]|], (om_get k Y) as [[]|]; try done; [destruct (proj1 Hi) | destruct (proj2 Hi)]; done.
Qed.
Lemma in_ids_insert id k X : in_ids id (om_insert k tt X) ↔ id = k ∨ in_ids id X.
Proof. unfold in_ids. rewrite om_get_insert. case_decide; naive_solver. Qed.
Lemma intersection_wf X Y : om_wf X → om_wf (intersection X Y).
Proof. apply filter_om_wf. Qed.
Lemma in_intersection id X Y : om_wf X → in_ids id (intersection X Y) ↔ in_ids id X ∧ in_ids id Y.
Proof.
  intros HX. unfold in_ids, intersection. split.
  - intros [u [Hg Hb]%om_get_filter]; [|done]. simpl in Hb. by apply bool_decide_eq_true in Hb.
  - intros [[u Hg] Hy]. exists u. apply om_get_filter; [done|]. split; [done|]. by apply bool_decide_eq_true.
Qed.
Lemma intersect_all_ok sets :
  sets ≠ [] → Forall om_wf sets →
  ∃ out, intersect_all sets = Some out ∧ om_wf out ∧ ∀ id, in_ids id out ↔ Forall (in_ids id) sets.
Proof.
  unfold intersect_all. destruct sets as [|X sets]; [done|]. intros _ [HX Hs]%Forall_cons. cbn [foldl].
  assert (∀ acc, om_wf acc → ∃ out, foldl (λ matches ids, Some (match matches with None => ids | Some current => intersection current ids end))
    (Some acc) sets = Some out ∧ om_wf out ∧ ∀ id, in_ids id out ↔ in_ids id acc ∧ Forall (in_ids id) sets) as Hf.
  { induction Hs as [|Y sets HY Hs IH]; intros acc Ha; cbn [foldl].
    - exists acc. split_and!; [done..|]. intros id. rewrite Forall_nil. tauto.
    - destruct (IH (intersection acc Y) (intersection_wf _ _ Ha)) as (out & Ho & Hw & Hi). exists out. split_and!; [done..|].
      intros id. rewrite Hi, in_intersection, Forall_cons by done. tauto. }
  destruct (Hf X HX) as (out & Ho & Hw & Hi). exists out. split_and!; [done..|]. intros id. by rewrite Hi, Forall_cons.
Qed.
Lemma collect_ids {V} (l : list (bytes * V)) : ∀ acc,
  om_wf acc → om_wf (foldl (λ set e, om_insert (fst e) tt set) acc l) ∧
  ∀ id, in_ids id (foldl (λ set e, om_insert (fst e) tt set) acc l) ↔ in_ids id acc ∨ id ∈ l.*1.
Proof.
  induction l as [|[k v] l IH]; intros acc Ha; cbn [foldl]; [set_solver|]. destruct (IH (om_insert k tt acc)) as [Hw Hi]; [by apply om_insert_wf|].
  split; [done|]. intros id. simpl. rewrite Hi, in_ids_insert, elem_of_cons. naive_solver.
Qed.
Lemma elem_of_concat_keys {V} (ls : list (list (bytes * V))) id :
  Forall om_wf ls → id ∈ (concat ls).*1 ↔ Exists (λ l, is_Some (om_get id l)) ls.
Proof.
  intros Hs. rewrite list_elem_of_fmap, Exists_exists. rewrite Forall_forall in Hs. split.
  - intros ([k v] & -> & Hin). apply list_elem_of_In, in_concat in Hin as (l & Hl%list_elem_of_In & Hin%list_elem_of_In).
    exists l. split; [done|]. exists v. apply om_get_Some; [by apply Hs | done].
  - intros (l & Hl & [v Hg]). exists (id, v). split; [done|]. apply list_elem_of_In, in_concat. exists l.
    split; [by apply list_elem_of_In|]. apply list_elem_of_In. apply om_get_Some in Hg; [done | by apply Hs].
Qed.
Lemma union_all_ok sets :
  Forall om_wf sets → om_wf (union_all sets) ∧ ∀ id, in_ids id (union_all sets) ↔ Exists (in_ids id) sets.
Proof.
  intros Hs. unfold union_all. destruct (collect_ids (concat sets) [] om_wf_nil) as [Hw Hi]. split; [done|]. intros id.
  rewrite Hi, elem_of_concat_keys by done. split; [by intros [[u Hu]|?] | by right].
Qed.
(** The ids of the documents with a property. *)
Definition ids_where (P : bytes → bool) (D : documents) : ordmap bytes unit :=
  (λ e, (fst e, tt)) <$> List.filter (λ e, P (snd e)) D.
Lemma ids_where_wf P D : om_wf D → om_wf (ids_where P D).
Proof.
  intros HD. unfold ids_where. pose proof (filter_om_wf (λ e, P (snd e)) D HD) as Hw. unfold om_wf in *.
  induction Hw as [|e l Hl IH He]; [constructor|]. rewrite fmap_cons. constructor; [done|]. by rewrite Forall_fmap.
Qed.
Lemma in_ids_where P D id : om_wf D → in_ids id (ids_where P D) ↔ ∃ doc, om_get id D = Some doc ∧ P doc = true.
Proof.
  intros HD. pose proof (ids_where_wf P D HD) as Hw. unfold in_ids, ids_where. split.
  - intros [u Hg%om_get_Some]; [|done]. apply list_elem_of_fmap in Hg as ([k doc] & [= -> ->] & Hin). exists doc.
    by apply om_filter_get in Hin.
  - intros (doc & Hg & HP). exists tt. apply om_get_Some; [done|]. apply list_elem_of_fmap. exists (id, doc). split; [done|].
    by apply om_filter_get.
Qed.

(** ** Searching *)

Section search.
Context {S : Type} `{UnicodeSpec, AsyncKVEngineSpec S}.
Implicit Types (D : documents) (m : ordmap bytes bytes) (term doc : bytes) (n : record_name) (s : S).

Definition posting_row D term (e : bytes * bytes) : Prop :=
  ∃ id doc tf, e = (key_of (RPosting term id), to_be 8 tf) ∧ om_get id D = Some doc ∧ om_get term (tokenize doc) = Some tf.
Definition hit_of (e : bytes * bytes) : SearchHit := mkSearchHit (fst e) (snd e).
(** Whether a document matches a query with these terms. *)
Definition matches (all : bool) (terms : list bytes) doc : bool :=
  if all then forallb (λ t, has_term t doc) terms else existsb (λ t, has_term t doc) terms.

Section postings.
Variables (m : ordmap bytes bytes) (D : documents).
Hypothesis Hix : indexed m D.
Hypothesis Hok : docs_ok D.
Hypothesis Hm : om_wf m.

Lemma posting_ids_ok term rows : ∀ acc,
  short term → Forall (posting_row D term) rows → om_wf acc →
  ∃ out, reads m (posting_ids term (NAMESPACE ++ [POSTING_MARKER] ++ component term) acc rows) (Ok out) ∧ om_wf out ∧
    ∀ id, in_ids id out ↔ in_ids id acc ∨ short id ∧ key_of (RPosting term id) ∈ rows.*1.
Proof.
  intros acc Hs Hr. revert acc. induction Hr as [|e rows (id & doc & tf & -> & Hg & Ht) Hr IH]; intros acc Ha.
  - exists acc. split_and!; [apply reads_ret | done | set_solver].
  - destruct (get_doc D id doc Hok Hg) as [(Hne & Hu & Hsi) Hd]. destruct (tf_u64 doc term tf Hd Ht) as (Htu & Htz & _).
    destruct (IH (om_insert id tt acc)) as (out & Ho & Hw & Hi); [by apply om_insert_wf|]. exists out. split_and!; [|done|].
    + cbn [posting_ids]. rewrite parse_posting_ok by done. eapply reads_bind; [apply reads_pure|]. cbv beta iota.
      rewrite (proj2 (Z.eqb_neq _ _)) by done. eapply reads_bind; [|apply Ho]. apply (validate_posting_ok m D Hix Hok id doc); [done|].
      unfold has_term. by rewrite bool_decide_true.
    + intros k. rewrite Hi, in_ids_insert, fmap_cons, elem_of_cons. cbn [fst]. split.
      * intros [[->|?]|[??]]; [right | by left | right]; auto.
      * intros [?|[Hk [He|?]]]; [by left; right| |by right]. apply key_of_inj in He; [|done|done]. left. left. congruence.
Qed.
(** The rows with the prefix of a term are its postings. *)
Lemma posting_rows term :
  short term → let rows := List.filter (λ e, key_in_range (fst e) (prefix_range (NAMESPACE ++ [POSTING_MARKER] ++ component term))) m in
  Forall (posting_row D term) rows ∧
  ∀ id, short id ∧ key_of (RPosting term id) ∈ rows.*1 ↔ ∃ doc, om_get id D = Some doc ∧ has_term term doc = true.
Proof.
  intros Hs rows.
  assert (∀ k v, (k, v) ∈ rows ↔ om_get k m = Some v ∧ starts_with (NAMESPACE ++ [POSTING_MARKER] ++ component term) k = true) as Hrows.
  { intros k v. unfold rows. rewrite om_filter_get by done. simpl. by rewrite prefix_range_spec. }
  assert (∀ k v, (k, v) ∈ rows → ∃ id doc tf, short id ∧ k = key_of (RPosting term id) ∧ v = to_be 8 tf ∧
    om_get id D = Some doc ∧ om_get term (tokenize doc) = Some tf) as Hform.
  { intros k v [Hg Hp]%Hrows.
    assert (reserved k = true) as Hres. { apply starts_with_spec in Hp as [r ->]. apply starts_with_spec. rewrite <- app_assoc. by eexists. }
    destruct (ix_only _ _ Hix k v Hg Hres) as (n & Hn & ->). destruct (posting_of_prefix n term Hn Hs Hp) as (id & -> & Hsi).
    rewrite (ix_value _ _ Hix) in Hg by done. cbn [value_of] in Hg. destruct (om_get id D) as [doc|] eqn:E; [|done]. simpl in Hg.
    destruct (om_get term (tokenize doc)) as [tf|] eqn:E'; [|done]. exists id, doc, tf. simpl in Hg. naive_solver. }
  split.
  - apply Forall_forall. intros [k v] (id & doc & tf & _ & -> & -> & ? & ?)%Hform. by exists id, doc, tf.
  - intros id. split.
    + intros [Hsi ([k v] & He & Hin)%list_elem_of_fmap]. cbn [fst] in He. subst k. destruct (Hform _ _ Hin) as (id' & doc & tf & Hs' & He & _ & Hg & Ht).
      apply key_of_inj in He; [|done|done]. injection He as ->. exists doc. split; [done|]. unfold has_term. by rewrite bool_decide_true.
    + intros (doc & Hg & Ht). destruct (get_doc D id doc Hok Hg) as [(_ & _ & Hsi) Hd]. split; [done|].
      unfold has_term in Ht. apply bool_decide_eq_true in Ht as [tf Ht]. apply list_elem_of_fmap.
      exists (key_of (RPosting term id), to_be 8 tf). split; [done|]. apply Hrows. split.
      * rewrite (ix_value _ _ Hix) by done. cbn [value_of]. rewrite Hg. simpl. by rewrite Ht.
      * apply starts_with_spec. cbn [key_of]. by eexists.
Qed.
Lemma posting_sets_ok terms :
  Forall short terms → reads m (posting_sets terms) (Ok ((λ t, ids_where (has_term t) D) <$> terms)).
Proof.
  induction 1 as [|term terms Hs Hts IH]; [apply reads_ret|]. cbn [posting_sets]. rewrite posting_prefix_ok by done.
  eapply reads_bind; [apply reads_pure|]. eapply reads_bind; [apply reads_scan|]. destruct (posting_rows term Hs) as [Hf Hi].
  destruct (posting_ids_ok term _ [] Hs Hf om_wf_nil) as (out & Ho & Hw & Hin). eapply reads_bind; [apply Ho|].
  eapply reads_bind; [apply IH|]. replace out with (ids_where (has_term term) D); [apply reads_ret|].
  apply ids_ext; [apply ids_where_wf, Hok | done|]. intros id. rewrite Hin, Hi, in_ids_where by apply Hok. split; [auto|].
  by intros [[u Hu]|?].
Qed.
Lemma combine_ok all terms :
  terms ≠ [] → combine all ((λ t, ids_where (has_term t) D) <$> terms) = ids_where (matches all terms) D.
Proof.
  intros Hne. assert (om_wf D) as HD by apply Hok. set (sets := _ <$> terms).
  assert (Forall om_wf sets) as Hw. { unfold sets. rewrite Forall_fmap, Forall_forall. intros t _. by apply ids_where_wf. }
  pose proof (ids_where_wf (matches all terms) D HD) as Hr.
  unfold combine, matches in *. destruct all.
  - pose proof (sort_by_perm len_cmp sets) as Hp. destruct (intersect_all_ok (sort_by len_cmp sets)) as (out & -> & Ho & Hi).
    { intros He. rewrite He in Hp. apply Permutation_nil in Hp. unfold sets in Hp. by destruct terms. }
    { by rewrite Hp. }
    apply ids_ext; [done | done|]. intros id. rewrite Hi, Hp. unfold sets. rewrite Forall_fmap, Forall_forall, in_ids_where by done. split.
    + intros Hall. destruct terms as [|t terms]; [done|]. destruct (Hall t) as [u Hu]; [by left|].
      assert (in_ids id (ids_where (has_term t) D)) as (doc & Hg & Ht)%in_ids_where by (by exists u); [|done].
      exists doc. split; [done|]. apply forallb_forall. intros t' Ht'%list_elem_of_In.
      destruct (Hall t' Ht') as [u' Hu']. assert (in_ids id (ids_where (has_term t') D)) as (doc' & Hg' & ?)%in_ids_where by (by exists u'); [|done].
      naive_solver.
    + intros (doc & Hg & Ha) t Ht. simpl. apply in_ids_where; [done|]. exists doc. split; [done|]. rewrite forallb_forall in Ha.
      by apply Ha, list_elem_of_In.
  - destruct (union_all_ok sets Hw) as [Ho Hi]. apply ids_ext; [done | done|]. intros id. rewrite Hi. unfold sets.
    rewrite Exists_fmap, Exists_exists, in_ids_where by done. setoid_rewrite existsb_exists. simpl. split.
    + intros (t & Ht & (doc & Hg & Hh)%in_ids_where); [|done]. exists doc. split; [done|]. exists t. by rewrite <- list_elem_of_In.
    + intros (doc & Hg & t & Ht & Hh). exists t. rewrite list_elem_of_In. split; [done|]. apply in_ids_where; [done|]. by exists doc.
Qed.
Lemma posting_sets_long terms :
  ¬ Forall short terms → reads m (posting_sets terms) (Err (StorageError "FTS component too long")).
Proof.
  induction terms as [|term terms IH]; intros Hn; [by destruct Hn|]. cbn [posting_sets].
  destruct (decide (short term)) as [Hs|Hs].
  - rewrite posting_prefix_ok by done. eapply reads_bind; [apply reads_pure|]. eapply reads_bind; [apply reads_scan|].
    destruct (posting_rows term Hs) as [Hf Hi]. destruct (posting_ids_ok term _ [] Hs Hf om_wf_nil) as (out & Ho & _).
    eapply reads_bind; [apply Ho|]. apply reads_fail, IH. intros Hf'. apply Hn. by constructor.
  - apply reads_fail. unfold posting_prefix, encode_component, short in *. rewrite (proj2 (Z.leb_gt _ _)) by lia. apply reads_pure.
Qed.
Lemma load_hits_ok l :
  (∀ e, e ∈ l → om_get (fst e) D = Some (snd e)) → reads m (load_hits (fst <$> l)) (Ok (hit_of <$> l)).
Proof.
  induction l as [|[id doc] l IH]; intros Hl; [apply reads_ret|]. rewrite !fmap_cons. cbn [load_hits fst].
  pose proof (Hl (id, doc) ltac:(by left)) as Hg. simpl in Hg. destruct (get_doc D id doc Hok Hg) as [(_ & _ & Hs) _].
  rewrite document_key_ok by done. eapply reads_bind; [apply reads_pure|]. eapply reads_bind; [by apply (get_name m D Hix (RDocument id))|].
  cbn [value_of]. rewrite Hg. eapply reads_bind; [apply reads_pure|].
  eapply reads_bind; [apply IH; intros; apply Hl; by right | apply reads_ret].
Qed.

(** What a search must answer. *)
Definition search_result (query : FtsQuery) (limit : Z) : res (list SearchHit) :=
  let terms := query_terms query in
  if MAX_LIMIT <? limit then Err (StorageError "FTS result limit exceeds 1000")
  else if len terms =? 0 then Err (StorageError "FTS query contains no searchable terms")
  else if MAX_QUERY_TERMS <? len terms then Err (StorageError "FTS query exceeds 32 distinct terms")
  else if limit =? 0 then Ok []
  else if bool_decide (Forall short terms)
  then Ok (take (Z.to_nat limit) (hit_of <$> List.filter (λ e, matches (is_and query) terms (snd e)) D))
  else Err (StorageError "FTS component too long").
Lemma search_ok query limit : reads m (search query limit) (search_result query limit).
Proof.
  unfold search, search_result, check_query. eapply reads_bind; [apply reads_await|].
  destruct (MAX_LIMIT <? limit); [apply reads_fail, reads_pure|]. eapply reads_bind; [apply reads_pure|]. cbv beta zeta.
  destruct (Z.eqb_spec (len (query_terms query)) 0) as [Hz|Hz]; [apply reads_fail, reads_pure|].
  destruct (MAX_QUERY_TERMS <? len (query_terms query)); [apply reads_fail, reads_pure|]. eapply reads_bind; [apply reads_pure|].
  destruct (limit =? 0); [apply reads_ret|]. case_bool_decide as Hs; [|by apply reads_fail, posting_sets_long].
  eapply reads_bind; [by apply posting_sets_ok|]. rewrite combine_ok by (intros He; by rewrite He in Hz).
  set (l := List.filter _ D). replace (fst <$> _) with (fst <$> l).
  - rewrite <- !fmap_take. apply load_hits_ok. intros [id doc] (i & Hi & _)%elem_of_take. apply list_elem_of_lookup_2 in Hi.
    unfold l in Hi. apply om_filter_get in Hi as [Hg _]; [done | apply Hok].
  - unfold ids_where. rewrite <- list_fmap_compose. by apply list_fmap_ext.
Qed.
Lemma search_result_np query limit : search_result query limit ≠ Panic.
Proof. unfold search_result. by repeat case_match. Qed.
End postings.

(** ** Opening *)

Definition open_batch : list BatchOperation := [BatchPut META_KEY metadata; BatchPut STATS_KEY (encode_stats 0 0)].
Lemma no_reserved m k : om_wf m → user_part m = m → reserved k = true → om_get k m = None.
Proof. intros Hm Hu Hr. rewrite <- Hu, get_user_part by done. by rewrite Hr. Qed.
Lemma open_batch_indexed m :
  om_wf m → user_part m = m → indexed (apply_ops open_batch m) [] ∧ user_part (apply_ops open_batch m) = m.
Proof.
  intros Hm Hu.
  pose proof (λ k, no_reserved m k Hm Hu) as Hno.
  assert (∀ k, om_get k (apply_ops open_batch m) =
    if decide (STATS_KEY = k) then Some (encode_stats 0 0) else if decide (META_KEY = k) then Some metadata else om_get k m) as Hg.
  { intros k. unfold open_batch, apply_ops. cbn [foldl]. by rewrite !get_apply_op. }
  split; [split|].
  - intros n Hn. change STATS_KEY with (key_of RStats) in Hg. change META_KEY with (key_of RMeta) in Hg. rewrite Hg.
    case_decide as H3; [apply key_of_inj in H3; [by subst|done|done]|]. case_decide as H4; [apply key_of_inj in H4; [by subst|done|done]|].
    rewrite Hno by apply key_of_reserved. by destruct n.
  - intros k v Hv Hr. rewrite Hg in Hv. case_decide; [by exists RStats|]. case_decide; [by exists RMeta|]. by rewrite Hno in Hv.
  - rewrite <- Hu at 2. apply user_part_ext; [done | by apply apply_ops_wf|]. intros k Hr. rewrite Hg.
    do 2 (case_decide; [by subst|]). done.
Qed.
Lemma docs_ok_nil : docs_ok [].
Proof. split; [apply om_wf_nil | by intros ?? ?%elem_of_nil | done | done]. Qed.
Lemma open_fresh m f : om_wf m → user_part m = m → leads m (open f) (eng_write_batch open_batch f).
Proof.
  intros Hm Hu. unfold open. eapply leads_bind; [apply reads_await|]. eapply leads_bind; [apply reads_get|].
  rewrite (no_reserved m META_KEY) by done. eapply leads_bind; [apply reads_scan|].
  replace (List.filter _ m) with (@nil (bytes * bytes)).
  { eapply leads_bind; [apply reads_pure | apply leads_refl]. }
  symmetry. apply elem_of_nil_inv. intros [k v] [Hg Hk]%om_filter_get; [|done]. unfold namespace_range in Hk. simpl in Hk.
  rewrite prefix_range_spec in Hk. fold (reserved k) in Hk. by rewrite (no_reserved m k Hm Hu Hk) in Hg.
Qed.
Lemma open_again m D f : indexed m D → reads m (open f) (Ok tt).
Proof.
  intros Hix. unfold open. eapply reads_bind; [apply reads_await|]. eapply reads_bind; [by apply (get_name m D Hix RMeta)|].
  cbn [value_of]. rewrite bool_decide_true by done. apply reads_ret.
Qed.

(** ** The user's reads *)

Lemma get_reads m key :
  om_wf m → reads m (get key) (if reserved key then Err reserved_error else Ok (om_get key (user_part m))).
Proof.
  intros Hm. rewrite get_user_part by done. unfold get. eapply reads_bind; [apply reads_await|].
  destruct (reserved key); [apply reads_pure | apply reads_get].
Qed.
Lemma scan_reads m range : reads m (scan range) (Ok (List.filter (λ e, key_in_range (fst e) range) (user_part m))).
Proof.
  unfold scan. eapply reads_bind; [apply reads_await|]. eapply reads_bind; [apply reads_scan|].
  replace (List.filter (λ e, key_in_range e.1 range) (user_part m)) with
    (List.filter (λ e, negb (reserved (fst e))) (List.filter (λ e, key_in_range e.1 range) m)); [apply reads_ret|].
  unfold user_part. clear. induction m as [|[k v] m IH]; [done|]. cbn [List.filter fst].
  destruct (key_in_range k range) eqn:E, (negb (reserved k)) eqn:E'; cbn [List.filter fst]; rewrite ?E, ?E'; congruence.
Qed.
End search.
