(* ===== verification/FtsBulk.v ===== *)
(** * Batches of documents

    [put_documents] writes many documents in one batch, with the changes of
    the document frequencies collected first.  What it writes is the index
    of the documents put one after the other. *)

From stdpp Require Import sets sorting.
From Stdlib Require Import Sorted.
From S2P Require Import Prelude Bytes OrdMap Search Manifest Unicode Store Read ReadTheory Admission Api Fts FtsTheory FtsIndexTheory FtsSearch.

Definition put_all (D : documents) (documents : list (bytes * bytes)) : ordmap bytes bytes :=
  foldl (λ D e, om_insert (fst e) (snd e) D) D documents.

Lemma put_all_wf docs : ∀ D, om_wf D → om_wf (put_all D docs).
Proof. unfold put_all. induction docs as [|e docs IH]; intros D HD; [done|]. cbn [foldl]. by apply IH, om_insert_wf. Qed.
Lemma get_put_all_out docs k : ∀ D, k ∉ docs.*1 → om_get k (put_all D docs) = om_get k D.
Proof.
  unfold put_all. induction docs as [|e docs IH]; intros D Hk; [done|]. rewrite fmap_cons, not_elem_of_cons in Hk. cbn [foldl].
  rewrite IH by apply Hk. apply om_get_insert_ne. apply Hk.
Qed.
Lemma get_put_all_in docs k doc : ∀ D, NoDup docs.*1 → (k, doc) ∈ docs → om_get k (put_all D docs) = Some doc.
Proof.
  unfold put_all. induction docs as [|e docs IH]; intros D Hn Hin; [by apply elem_of_nil in Hin|]. rewrite fmap_cons in Hn.
  apply NoDup_cons in Hn as [He Hn]. cbn [foldl]. apply elem_of_cons in Hin as [<-|Hin]; [|by apply IH].
  fold (put_all (om_insert k doc D) docs). rewrite get_put_all_out by done. apply om_get_insert_eq.
Qed.
Lemma om_wf_NoDup {V} (N : list (bytes * V)) : om_wf N → NoDup N.*1.
Proof.
  intros HN. induction HN as [|e l Hl IH He]; rewrite ?fmap_cons; constructor; [|done].
  intros (e' & Hk & Hin)%list_elem_of_fmap. rewrite Forall_forall in He. specialize (He e' Hin). rewrite Hk in He.
  by apply klt_irrefl in He.
Qed.
Lemma get_put_all_wf (N : documents) k D :
  om_wf N → om_get k (put_all D N) = match om_get k N with Some doc => Some doc | None => om_get k D end.
Proof.
  intros HN. pose proof (om_wf_NoDup N HN) as Hn. destruct (om_get k N) as [doc|] eqn:E.
  - apply get_put_all_in; [done|]. by apply om_get_Some.
  - apply get_put_all_out. intros ([k' doc] & -> & Hin)%list_elem_of_fmap. apply om_get_Some in Hin; [|done]. simpl in *. congruence.
Qed.
(** Collecting the last document of every id first makes no difference. *)
Lemma put_all_final docs D : om_wf D → put_all D (put_all [] docs) = put_all D docs.
Proof.
  intros HD. apply om_ext; [by apply put_all_wf..|]. intros k. rewrite get_put_all_wf by apply put_all_wf, om_wf_nil.
  clear HD. revert D. induction docs as [|e docs IH] using rev_ind; intros D; [done|]. unfold put_all in *. rewrite !foldl_app. cbn [foldl].
  rewrite !om_get_insert. case_decide; [done|]. apply IH.
Qed.
Lemma put_all_ids docs e : e ∈ (put_all [] docs : list _) → e ∈ docs.
Proof.
  destruct e as [k doc]. intros Hin. apply om_get_Some in Hin; [|apply put_all_wf, om_wf_nil]. revert Hin.
  induction docs as [|e docs IH] using rev_ind; [done|]. unfold put_all in *. rewrite foldl_app. cbn [foldl].
  rewrite om_get_insert, elem_of_app. case_decide as Hk; [|auto]. intros [= <-]. right. subst k. destruct e. by apply list_elem_of_singleton.
Qed.
Lemma put_all_len docs : len (put_all [] docs) <= len docs.
Proof.
  induction docs as [|[k doc] docs IH] using rev_ind; [done|]. rewrite len_app. unfold put_all in *. rewrite foldl_app. cbn [foldl fst snd].
  pose proof (sum_insert (λ _, 1) (put_all [] docs) k doc (put_all_wf docs [] om_wf_nil)) as Hs. rewrite !sum_len in Hs.
  change (len [(k, doc)]) with 1. unfold put_all in Hs. destruct (om_get k _); simpl in Hs; lia.
Qed.

(** ** Collecting the batch *)

Section bulk.
Context `{Unicode}.
Import FtsIndex.

Definition with_terms (e : bytes * bytes) : bytes * (bytes * term_map) := (fst e, (snd e, tokenize (snd e))).
Lemma with_terms_insert id doc (N : documents) :
  with_terms <$> om_insert id doc N = om_insert id (doc, tokenize doc) (with_terms <$> N).
Proof.
  induction N as [|[k v] N IH]; [done|]. rewrite fmap_cons. cbn [om_insert with_terms fst snd].
  destruct (kcmp id k); [done | done|]. rewrite fmap_cons. f_equal. apply IH.
Qed.
Lemma final_documents_ok docs : ∀ N : documents,
  Forall (λ e, utf8_valid (snd e) = true) docs → final_documents (with_terms <$> N) docs = Ok (with_terms <$> put_all N docs).
Proof.
  intros N Hd. revert N. induction Hd as [|[id doc] docs Hu Hd IH]; intros N; [done|]. cbn [final_documents]. simpl in Hu. rewrite Hu.
  cbn [guard_err mbind res_bind]. rewrite <- with_terms_insert, IH. done.
Qed.
Lemma final_documents_bad docs : ∀ N,
  ¬ Forall (λ e, utf8_valid (snd e) = true) docs → ∃ e, final_documents N docs = Err e.
Proof.
  induction docs as [|[id doc] docs IH]; intros N Hn; [by destruct Hn|]. cbn [final_documents].
  destruct (utf8_valid doc) eqn:E; [|by eexists]. apply IH. intros Hf. apply Hn. by constructor.
Qed.

(** The change of the number of documents with a term. *)
Definition present (o : option bytes) (t : bytes) : Z := match tf_in o t with Some _ => 1 | None => 0 end.
Definition doc_delta (o o' : option bytes) (deltas : delta_map) (t : bytes) : delta_map :=
  if default 0 (tf_in o t) =? default 0 (tf_in o' t) then deltas
  else term_delta (default 0 (tf_in o t)) (default 0 (tf_in o' t)) t deltas.
Definition doc_deltas (o o' : option bytes) (deltas : delta_map) : delta_map :=
  foldl (doc_delta o o') deltas (union_terms (terms_of o) (terms_of o')).
Definition posting_names (D' : documents) (id : bytes) (o o' : option bytes) (t : bytes) : list (record_name * option bytes) :=
  if default 0 (tf_in o t) =? default 0 (tf_in o' t) then [] else [(RPosting t id, value_of D' (RPosting t id))].
End bulk.

Section theory.
Context `{UnicodeSpec}.
Import FtsIndex.
Implicit Types (D N : documents) (o : option bytes) (deltas : delta_map) (t id doc : bytes).

Definition opt_ok o : Prop := ∀ doc, o = Some doc → doc_ok doc.
Lemma tf_absent o t : opt_ok o → t ∉ (fst <$> (terms_of o : list (bytes * Z))) → tf_in o t = None.
Proof.
  intros Ho Hnot. rewrite <- get_terms_of. destruct (om_get t (terms_of o)) as [tf|] eqn:E; [|done].
  destruct Hnot. destruct o as [d|]; [|done]. simpl in E. apply om_get_Some in E; [|by apply doc_terms, Ho].
  apply list_elem_of_fmap. by exists (t, tf).
Qed.
Lemma present_default o t : opt_ok o → (default 0 (tf_in o t) =? 0) = (present o t =? 0).
Proof. intros Ho. unfold present. pose proof (tf_default o t Ho) as Hd. destruct (tf_in o t); [apply Z.eqb_neq; naive_solver | done]. Qed.
Lemma present_01 o t : 0 <= present o t <= 1.
Proof. unfold present. by destruct (tf_in o t). Qed.
Lemma term_delta_get o o' deltas t k :
  opt_ok o → opt_ok o' → Z.abs (default 0 (om_get t deltas)) <= 1000 →
  default 0 (om_get k (term_delta (default 0 (tf_in o t)) (default 0 (tf_in o' t)) t deltas)) =
  default 0 (om_get k deltas) + (if decide (k = t) then present o' t - present o t else 0).
Proof.
  intros Ho Ho' Hb. unfold term_delta. rewrite !present_default by done. pose proof (present_01 o t). pose proof (present_01 o' t).
  assert (∀ d, -1 <= d <= 1 → wrap_i64 (default 0 (om_get t deltas) + d) = default 0 (om_get t deltas) + d) as Hw.
  { intros d Hd. unfold wrap_i64. rewrite wrap64_id by word_lia. lia. }
  destruct (Z.eqb_spec (present o t) 0), (Z.eqb_spec (present o' t) 0); cbn [negb andb]; unfold add_delta;
    rewrite ?om_get_insert; case_decide; subst; simpl; rewrite ?Hw by lia; lia.
Qed.
Lemma doc_delta_get o o' deltas t k :
  opt_ok o → opt_ok o' → Z.abs (default 0 (om_get t deltas)) <= 1000 →
  default 0 (om_get k (doc_delta o o' deltas t)) =
  default 0 (om_get k deltas) + (if decide (k = t) then present o' t - present o t else 0).
Proof.
  intros Ho Ho' Hb. unfold doc_delta. destruct (Z.eqb_spec (default 0 (tf_in o t)) (default 0 (tf_in o' t))) as [He|He]; [|by apply term_delta_get].
  assert (present o t = present o' t) by (unfold present; by rewrite (tf_eq o o' t Ho Ho' He)). case_decide; lia.
Qed.
Lemma fold_delta_get o o' terms : ∀ deltas k,
  opt_ok o → opt_ok o' → NoDup terms → (∀ t, t ∈ terms → Z.abs (default 0 (om_get t deltas)) <= 1000) →
  default 0 (om_get k (foldl (doc_delta o o') deltas terms)) =
  default 0 (om_get k deltas) + (if decide (k ∈ terms) then present o' k - present o k else 0).
Proof.
  induction terms as [|t terms IH]; intros deltas k Ho Ho' Hn Hb; cbn [foldl]; [rewrite decide_False by set_solver; lia|].
  apply NoDup_cons in Hn as [Ht Hn]. pose proof (Hb t ltac:(by left)) as Hbt. rewrite IH; [|done|done|done|].
  - rewrite doc_delta_get by done. destruct (decide (k = t)) as [->|Hk]; [rewrite decide_False, decide_True by set_solver; lia|].
    destruct (decide (k ∈ terms)); [rewrite decide_True by set_solver | rewrite decide_False by set_solver]; lia.
  - intros t' Ht'. rewrite doc_delta_get, decide_False by (done || by intros ->). rewrite Z.add_0_r. apply Hb. by right.
Qed.
Lemma union_terms_NoDup old new : NoDup (union_terms old new).
Proof.
  unfold union_terms. apply om_wf_NoDup. generalize ((fst <$> (old : list (bytes * Z))) ++ (fst <$> (new : list (bytes * Z)))) as l.
  intros l. assert (om_wf (@nil (bytes * unit))) as Hs by apply om_wf_nil. revert Hs. generalize (@nil (bytes * unit)) as set.
  induction l as [|x l IH]; intros set Hs; [done|]. cbn [foldl]. apply IH. by apply om_insert_wf.
Qed.
(** The terms of one document change the counts by one at most. *)
Lemma doc_deltas_get o o' deltas k :
  opt_ok o → opt_ok o' → (∀ t, Z.abs (default 0 (om_get t deltas)) <= 1000) →
  default 0 (om_get k (doc_deltas o o' deltas)) = default 0 (om_get k deltas) + present o' k - present o k.
Proof.
  intros Ho Ho' Hb. unfold doc_deltas. rewrite fold_delta_get; [|done|done|apply union_terms_NoDup|auto].
  case_decide as Hk; [lia|]. rewrite elem_of_union_terms in Hk.
  unfold present. rewrite !tf_absent by (done || naive_solver). lia.
Qed.
Lemma fold_delta_wf o o' terms : ∀ deltas,
  om_wf deltas → om_wf (foldl (doc_delta o o') deltas terms) ∧
  ∀ k, is_Some (om_get k (foldl (doc_delta o o') deltas terms)) → is_Some (om_get k deltas) ∨ k ∈ terms.
Proof.
  induction terms as [|t terms IH]; intros deltas Hw; cbn [foldl]; [auto|].
  assert (om_wf (doc_delta o o' deltas t) ∧ ∀ k, is_Some (om_get k (doc_delta o o' deltas t)) → is_Some (om_get k deltas) ∨ k = t) as [Hd Hk].
  { unfold doc_delta, term_delta, add_delta. repeat case_match; (split; [try apply om_insert_wf; done|]); intros k; rewrite ?om_get_insert;
      try case_decide; auto. }
  destruct (IH _ Hd) as [Hw' Hi]. split; [done|]. intros k Hsome; destruct (Hi k Hsome) as [Hk'|?]; [|right; by right]. destruct (Hk k Hk') as [? | ->]; [by left | right; by left].
Qed.
Lemma bulk_terms_ok D' id o o' terms : ∀ deltas,
  om_get id D' = o' → opt_ok o' → short id → Forall short terms →
  bulk_terms id (terms_of o) (terms_of o') terms deltas =
  Ok (foldl (doc_delta o o') deltas terms, to_op <$> (terms ≫= posting_names D' id o o')).
Proof.
  intros deltas Hg Ho' Hid Hs. revert deltas. induction Hs as [|t terms Ht Hs IH]; intros deltas; [done|].
  cbn [bulk_terms foldl]. rewrite !get_terms_of, bind_cons, fmap_app. unfold posting_names at 1, doc_delta at 2.
  destruct (default 0 (tf_in o t) =? default 0 (tf_in o' t)) eqn:E; [by rewrite IH|].
  rewrite (posting_op_run D' id o') by done. cbn [mbind res_bind]. rewrite IH. unfold doc_delta at 1. done.
Qed.

Definition state_of o : option (bytes * term_map * Z) := (λ doc, (doc, tokenize doc, total (tokenize doc))) <$> o.
Definition all_deltas D N deltas : delta_map := foldl (λ deltas e, doc_deltas (om_get (fst e) D) (Some (snd e)) deltas) deltas N.
Definition doc_names D (D' : documents) (e : bytes * bytes) : list (record_name * option bytes) :=
  let '(id, doc) := e in
  (union_terms (terms_of (om_get id D)) (terms_of (Some doc)) ≫= posting_names D' id (om_get id D) (Some doc)) ++
  [(RDocument id, value_of D' (RDocument id)); (RForward id, value_of D' (RForward id))].
Definition all_names D (D' : documents) (N : list (bytes * bytes)) : list (record_name * option bytes) := N ≫= doc_names D D'.
Lemma all_names_cons D D' e N : all_names D D' (e :: N) = doc_names D D' e ++ all_names D D' N.
Proof. done. Qed.

Lemma batch_terms_short D id doc :
  docs_ok D → doc_ok doc → Forall short (union_terms (terms_of (om_get id D)) (terms_of (Some doc))).
Proof.
  intros Hok Hd. apply Forall_forall. intros t. rewrite elem_of_union_terms.
  intros [(e & -> & He)%list_elem_of_fmap|(e & -> & He)%list_elem_of_fmap]; eapply terms_of_short; try done; [|naive_solver].
  intros x Hx. by apply (get_doc D id x Hok).
Qed.
Lemma document_operations_ok D' id doc :
  id_ok id → doc_ok doc → om_get id D' = Some doc →
  document_operations id doc (tokenize doc) =
  Ok (to_op <$> [(RDocument id, value_of D' (RDocument id)); (RForward id, value_of D' (RForward id))]).
Proof.
  intros (_ & _ & Hs) Hd Hg. unfold document_operations. rewrite document_key_ok, forward_key_ok by done.
  rewrite encode_terms_ok by (apply doc_terms, Hd || apply Hd). cbn [value_of]. by rewrite Hg.
Qed.
Lemma bulk_documents_ok states D D' N : ∀ Dk deltas,
  docs_ok D → docs_ok Dk → NoDup N.*1 →
  (∀ id doc, (id, doc) ∈ (N : list _) → id_ok id ∧ doc_ok doc ∧ om_get id D' = Some doc ∧ om_get id Dk = om_get id D ∧
    om_get id states = Some (state_of (om_get id D))) →
  (∃ e, bulk_documents states (with_terms <$> N) (len Dk) (corpus Dk) deltas = Err e) ∨
  docs_ok (put_all Dk N) ∧ bulk_documents states (with_terms <$> N) (len Dk) (corpus Dk) deltas =
    Ok (len (put_all Dk N), corpus (put_all Dk N), all_deltas D N deltas, to_op <$> all_names D D' N).
Proof.
  intros Dk deltas Hok. revert Dk deltas. induction N as [|[id doc] N IH]; intros Dk deltas Hk Hn HN; [by right|].
  rewrite fmap_cons in Hn. apply NoDup_cons in Hn as [Hid Hn].
  destruct (HN id doc ltac:(by left)) as (Hi & Hd & Hg' & Hgk & Hst).
  rewrite all_names_cons, fmap_app. cbn [doc_names]. rewrite fmap_app, <- app_assoc.
  rewrite fmap_cons. unfold with_terms at 1 3. cbn [bulk_documents fst snd]. rewrite Hst. cbn [mret res_ret mbind res_bind].
  rewrite sum_frequencies_total by (by apply terms_nonneg, doc_terms || lia || by apply doc_total). cbn [ok_or mbind res_bind].
  destruct (update_stats_ok Dk id (Some doc) Hk Hi ltac:(by intros x [= <-]) doc eq_refl) as [[Hk' Hu]|[e Hu]]; rewrite Hgk in Hu;
    fold (state_of (om_get id D)) in Hu; rewrite Z.add_0_l, Hu; cbn [mbind res_bind]; [|left; by exists e].
  assert (old_terms (state_of (om_get id D)) = terms_of (om_get id D)) as -> by (by destruct (om_get id D)).
  change (tokenize doc) with (terms_of (Some doc)).
  rewrite (bulk_terms_ok D'); [|done | by intros x [= <-] | apply Hi | by apply batch_terms_short]. cbn [mbind res_bind].
  rewrite (document_operations_ok D') by done. cbn [mbind res_bind].
  destruct (IH (set_doc id (Some doc) Dk) (doc_deltas (om_get id D) (Some doc) deltas) Hk' Hn) as [[e He]|[Hok' He]].
  - intros i x Hin. destruct (HN i x ltac:(by right)) as (? & ? & ? & Hgi & ?). split_and!; try done.
    rewrite get_set_doc, decide_False; [done|]. intros ->. apply Hid. by apply (list_elem_of_fmap_2 fst _ (id, x)).
  - left. exists e. unfold doc_deltas in He. by rewrite He.
  - right. split; [done|]. unfold doc_deltas in He. rewrite He. done.
Qed.
Lemma all_deltas_get D N : ∀ Dk deltas n k,
  docs_ok D → om_wf Dk → NoDup N.*1 →
  (∀ id doc, (id, doc) ∈ (N : list _) → doc_ok doc ∧ om_get id Dk = om_get id D) →
  (∀ k, default 0 (om_get k deltas) = frequency Dk k - frequency D k ∧ Z.abs (default 0 (om_get k deltas)) <= n) →
  n + len N <= 1000 → default 0 (om_get k (all_deltas D N deltas)) = frequency (put_all Dk N) k - frequency D k.
Proof.
  intros Dk deltas n k Hok. revert Dk deltas n. induction N as [|[id doc] N IH]; intros Dk deltas n Hw Hn HN Hd Hb; [apply Hd|].
  rewrite fmap_cons in Hn. apply NoDup_cons in Hn as [Hid Hn]. rewrite len_cons in Hb. pose proof (len_nonneg N).
  destruct (HN id doc ltac:(by left)) as [Hdoc Hg].
  assert (opt_ok (om_get id D)) as Ho by (intros x Hx; by apply (get_doc D id x Hok)).
  assert (opt_ok (Some doc)) as Ho' by (by intros x [= <-]).
  apply (IH (om_insert id doc Dk) (doc_deltas (om_get id D) (Some doc) deltas) (n + 1)); [by apply om_insert_wf | done | | |lia].
  - intros i x Hin. destruct (HN i x ltac:(by right)) as [? Hgi]. split; [done|]. rewrite om_get_insert_ne; [done|].
    intros ->. apply Hid. by apply (list_elem_of_fmap_2 fst _ (id, x)).
  - intros t. destruct (Hd t) as [Hdt Hbt]. rewrite doc_deltas_get by (done || intros t'; destruct (Hd t'); lia).
    change (om_insert id doc Dk) with (set_doc id (Some doc) Dk). rewrite frequency_set_doc by done. rewrite Hg.
    fold (present (om_get id D) t) (present (Some doc) t).
    pose proof (present_01 (om_get id D) t). pose proof (present_01 (Some doc) t). lia.
Qed.
Lemma all_deltas_wf D N : ∀ deltas,
  docs_ok D → (∀ id doc, (id, doc) ∈ (N : list _) → doc_ok doc) → om_wf deltas → (∀ k, is_Some (om_get k deltas) → short k) →
  om_wf (all_deltas D N deltas) ∧ ∀ k, is_Some (om_get k (all_deltas D N deltas)) → short k.
Proof.
  intros deltas Hok. revert deltas. induction N as [|[id doc] N IH]; intros deltas HN Hw Hs; [done|].
  destruct (fold_delta_wf (om_get id D) (Some doc) (union_terms (terms_of (om_get id D)) (terms_of (Some doc))) deltas Hw) as [Hw' Hk].
  apply (IH (doc_deltas (om_get id D) (Some doc) deltas)); [intros; eapply HN; by right | done|].
  intros k Hsome. destruct (Hk k Hsome) as [?|Hin]; [by apply Hs|].
  pose proof (batch_terms_short D id doc Hok (HN id doc ltac:(by left))) as Hf. rewrite Forall_forall in Hf. by apply Hf.
Qed.

(** The records a batch of documents rewrites. *)
Definition bulk_names D (docs : list (bytes * bytes)) : list (record_name * option bytes) :=
  let N := put_all [] docs in
  let D' := put_all D docs in
  all_names D D' N ++ ((λ t, (RFrequency t, value_of D' (RFrequency t))) <$> (fst <$> (all_deltas D N [] : list _))) ++
  [(RStats, value_of D' RStats)].
Definition bulk_batch D docs : list BatchOperation := to_op <$> bulk_names D docs.

Lemma elem_of_doc_names D D' id doc n v :
  (n, v) ∈ doc_names D D' (id, doc) →
  v = value_of D' n ∧ (n = RDocument id ∨ n = RForward id ∨ ∃ t, n = RPosting t id ∧ t ∈ union_terms (terms_of (om_get id D)) (terms_of (Some doc))).
Proof.
  cbn [doc_names]. rewrite elem_of_app. intros [(t & Hin & Ht)%list_elem_of_bind|Hin]; [|set_solver].
  unfold posting_names in Hin. case_match; [by apply elem_of_nil in Hin|]. apply list_elem_of_singleton in Hin as [= -> ->].
  split; [done|]. right. right. by exists t.
Qed.
Lemma posting_same D D' id doc t :
  docs_ok D → doc_ok doc → (∀ v, (RPosting t id, v) ∉ doc_names D D' (id, doc)) → tf_in (om_get id D) t = tf_in (Some doc) t.
Proof.
  intros Hok Hd Hno. assert (opt_ok (om_get id D)) as Ho by (intros x Hx; by apply (get_doc D id x Hok)).
  assert (opt_ok (Some doc)) as Ho' by (by intros x [= <-]).
  destruct (decide (default 0 (tf_in (om_get id D) t) = default 0 (tf_in (Some doc) t))) as [He|He]; [by apply tf_eq|].
  destruct (decide (t ∈ union_terms (terms_of (om_get id D)) (terms_of (Some doc)))) as [Hin|Hin].
  - destruct (Hno (value_of D' (RPosting t id))). cbn [doc_names]. apply elem_of_app. left. apply list_elem_of_bind. exists t. split; [|done].
    unfold posting_names. rewrite (proj2 (Z.eqb_neq _ _)) by done. by left.
  - rewrite elem_of_union_terms in Hin.
    rewrite !tf_absent by (done || naive_solver). done.
Qed.
Lemma bulk_indexed m D docs :
  indexed m D → docs_ok D → om_wf m → (∀ id doc, (id, doc) ∈ docs → id_ok id ∧ doc_ok doc) → len docs <= 1000 →
  indexed (apply_ops (bulk_batch D docs) m) (put_all D docs) ∧
  ∀ k, reserved k = false → om_get k (apply_ops (bulk_batch D docs) m) = om_get k m.
Proof.
  intros Hix Hok Hm Hdocs Hl. set (N := put_all [] docs). assert (om_wf N) as HN by apply put_all_wf, om_wf_nil.
  assert (∀ id doc, (id, doc) ∈ (N : list _) → id_ok id ∧ doc_ok doc) as Hids by (intros; by apply Hdocs, put_all_ids).
  pose proof (om_wf_NoDup N HN) as Hnd. assert (om_wf D) as HD by apply Hok.
  destruct (all_deltas_wf D N [] Hok ltac:(intros; by eapply Hids) om_wf_nil ltac:(by intros ? [])) as [Hwd Hsd].
  assert (∀ k, om_get k (put_all D docs) = match om_get k N with Some doc => Some doc | None => om_get k D end) as Hget.
  { intros k. rewrite <- put_all_final by done. by apply get_put_all_wf. }
  apply (apply_named m D); [done| | |done].
  - intros n v. unfold bulk_names. rewrite !elem_of_app. intros [([id doc] & Hin & He)%list_elem_of_bind|[Hin|Hin]].
    + destruct (Hids id doc He) as [(_ & _ & Hs) Hd]. apply elem_of_doc_names in Hin as [-> [->|[->|(t & -> & Ht)]]]; (split; [|done]);
        [done | done|]. pose proof (batch_terms_short D id doc Hok Hd) as Hf. rewrite Forall_forall in Hf. split; [by apply Hf | done].
    + apply list_elem_of_fmap in Hin as (t & [= -> ->] & ([t' d] & -> & Ht)%list_elem_of_fmap). split; [|done]. simpl. apply Hsd.
      exists d. by apply om_get_Some.
    + apply list_elem_of_singleton in Hin as [= -> ->]. done.
  - intros n Hn Hout. unfold bulk_names in Hout. fold N in Hout. rewrite !fmap_app, !not_elem_of_app in Hout. destruct Hout as (Hn1 & Hn2 & Hn3).
    assert (∀ id doc n v, om_get id N = Some doc → (n, v) ∈ doc_names D (put_all D docs) (id, doc) →
      n ∈ (all_names D (put_all D docs) N).*1) as Hall.
    { intros id doc n' v Hg Hin. apply list_elem_of_fmap. exists (n', v). split; [done|]. apply list_elem_of_bind. exists (id, doc).
      split; [done|]. by apply om_get_Some. }
    destruct n as [| |id|id|t id|t]; cbn [value_of]; try done.
    + set_solver.
    + rewrite Hget. destruct (om_get id N) as [doc|] eqn:E; [|done]. destruct Hn1. eapply Hall; [done|]. apply elem_of_app. right. by left.
    + rewrite Hget. destruct (om_get id N) as [doc|] eqn:E; [|done]. destruct Hn1. eapply Hall; [done|]. apply elem_of_app. right. right. by left.
    + rewrite Hget. destruct (om_get id N) as [doc|] eqn:E; [|done]. f_equal. symmetry. fold (tf_in (Some doc) t). fold (tf_in (om_get id D) t).
      apply (posting_same D (put_all D docs) id doc); [done | eapply Hids; by apply om_get_Some|].
      intros v Hin. apply Hn1. by eapply Hall.
    + assert (frequency (put_all D docs) t = frequency D t) as ->; [|done].
      assert (om_get t (all_deltas D N []) = None) as Hno.
      { destruct (om_get t (all_deltas D N [])) as [d|] eqn:E; [|done]. destruct Hn2. rewrite <- list_fmap_compose. apply list_elem_of_fmap.
        exists t. split; [done|]. apply list_elem_of_fmap. exists (t, d). split; [done|]. by apply om_get_Some. }
      pose proof (all_deltas_get D N D [] 0 t Hok HD Hnd) as Hf. rewrite Hno in Hf. simpl in Hf.
      rewrite <- (put_all_final docs D HD). fold N. pose proof (put_all_len docs). fold N in H1.
      assert (0 = frequency (put_all D N) t - frequency D t); [|lia]. apply Hf; [intros; split; [by eapply Hids | done] | intros; lia | lia].
Qed.
End theory.

(** ** Writing the batch *)

Section run.
Context {S : Type} `{UnicodeSpec, AsyncKVEngineSpec S}.
Import FtsIndex.
Variables (m : ordmap bytes bytes) (D : documents).
Hypothesis Hix : indexed m D.
Hypothesis Hok : docs_ok D.

Lemma load_states_ok ids : ∀ acc,
  Forall short ids →
  reads m (load_states acc ids) (Ok (foldl (λ acc id, om_insert id (state_of (om_get id D)) acc) acc ids)).
Proof.
  intros acc Hs. revert acc. induction Hs as [|id ids Hid Hs IH]; intros acc; [apply reads_ret|]. cbn [load_states foldl].
  eapply reads_bind; [by apply (load_document_state_ok m D) | apply IH].
Qed.
Lemma states_get ids id : ∀ acc,
  id ∈ ids ∨ om_get id acc = Some (state_of (om_get id D)) →
  om_get id (foldl (λ acc id, om_insert id (state_of (om_get id D)) acc) acc ids) = Some (state_of (om_get id D)).
Proof.
  induction ids as [|x ids IH]; intros acc Hid; [destruct Hid as [?%elem_of_nil|]; done|]. cbn [foldl]. apply IH.
  rewrite om_get_insert. rewrite elem_of_cons in Hid. case_decide; naive_solver.
Qed.
Lemma bulk_frequencies_ok D' l :
  docs_ok D' → (∀ t d, (t, d) ∈ l → short t ∧ d = frequency D' t - frequency D t) →
  reads m (bulk_frequencies l) (Ok (to_op <$> ((λ t, (RFrequency t, value_of D' (RFrequency t))) <$> (fst <$> l)))).
Proof.
  intros Hok' Hl. induction l as [|[t d] l IH]; [apply reads_ret|]. destruct (Hl t d ltac:(by left)) as [Ht Hd].
  cbn [bulk_frequencies]. eapply reads_bind; [by apply (load_df_ok m D)|].
  pose proof (frequency_bounds D t Hok). pose proof (frequency_bounds D' t Hok'). pose proof (do_count _ Hok').
  eapply (reads_bind _ _ _ (frequency D' t)).
  - destruct (0 <=? d); [rewrite checked_add_run by lia | rewrite checked_sub_run by lia];
      [replace (frequency D t + d) with (frequency D' t) by lia | replace (frequency D t - - d) with (frequency D' t) by lia]; apply reads_pure.
  - rewrite df_op_run by done. eapply reads_bind; [apply reads_pure|].
    eapply reads_bind; [apply IH; intros; apply Hl; by right | apply reads_ret].
Qed.
Lemma check_documents_cases docs : (check_documents docs = Ok tt ∧ len docs <= 256) ∨ ∃ e, check_documents docs = Err e.
Proof.
  unfold check_documents. destruct (Z.ltb_spec MAX_DOCUMENT_BATCH_DOCUMENTS (len docs)) as [Hl|Hl]; [by right; eexists|].
  cbn [negb guard_err mbind res_bind]. destruct (input_bytes 0 docs) as [n|]; [|by right; eexists]. cbn [ok_or mbind res_bind].
  destruct (MAX_DOCUMENT_BATCH_INPUT_BYTES <? n); [by right; eexists | by left].
Qed.
Lemma check_mutations_cases os : check_mutations os = Ok tt ∨ ∃ e, check_mutations os = Err e.
Proof.
  unfold check_mutations. destruct (mutation_bytes 0 os) as [n|]; [|by right; eexists]. cbn [ok_or mbind res_bind].
  destruct (checked_add n WAL_COMMIT_FRAME_BYTES) as [k|]; [|by right; eexists]. cbn [ok_or mbind res_bind].
  destruct (_ || _); [by right; eexists | by left].
Qed.

Lemma put_documents_leads docs f :
  docs ≠ [] → (∀ id doc, (id, doc) ∈ docs → id_ok id ∧ (utf8_valid doc = true → doc_ok doc)) →
  (∃ e, leads m (put_documents docs f) (pure_eff (Err e))) ∨
  (∀ id doc, (id, doc) ∈ docs → id_ok id ∧ doc_ok doc) ∧ len docs <= 256 ∧ docs_ok (put_all D docs) ∧
  leads m (put_documents docs f) (eng_write_batch (bulk_batch D docs) f).
Proof.
  intros Hne Hdocs. unfold put_documents. destruct docs as [|e0 docs0] eqn:Heq; [done|]. rewrite <- Heq in *. clear Heq e0 docs0.
  destruct (check_documents_cases docs) as [[-> Hl]|[e ->]]; [|left; exists e; apply leads_fail, reads_fail, reads_pure].
  destruct (decide (Forall (λ e, utf8_valid (snd e) = true) docs)) as [Hu|Hu].
  2: { destruct (final_documents_bad docs [] Hu) as [e He]. left. exists e. apply leads_fail. eapply reads_bind; [apply reads_pure|].
       rewrite He. apply reads_fail, reads_pure. }
  assert (∀ id doc, (id, doc) ∈ docs → id_ok id ∧ doc_ok doc) as Hall.
  { intros id doc Hin. destruct (Hdocs id doc Hin) as [? Hd]. split; [done|]. apply Hd. rewrite Forall_forall in Hu. exact (Hu _ Hin). }
  set (N := put_all [] docs). assert (om_wf N) as HN by apply put_all_wf, om_wf_nil. pose proof (om_wf_NoDup N HN) as Hnd.
  assert (om_wf D) as HD by apply Hok. pose proof (put_all_len docs) as HlN. fold N in HlN.
  assert (∀ id doc, (id, doc) ∈ (N : list _) → id_ok id ∧ doc_ok doc) as Hids by (intros; by apply Hall, put_all_ids).
  assert (Forall short N.*1) as Hsh.
  { apply Forall_fmap, Forall_forall. intros [id doc] Hin. by apply (Hids id doc). }
  set (states := foldl (λ acc id, om_insert id (state_of (om_get id D)) acc) [] N.*1).
  match goal with |- (∃ e, leads m ?p _) ∨ _ => assert (leads m p (write_documents (with_terms <$> N) states (len D) (corpus D) f)) as Hpre end.
  { eapply leads_bind; [apply reads_pure|]. pose proof (final_documents_ok docs [] Hu) as Hf. rewrite fmap_nil in Hf. rewrite Hf.
    eapply leads_bind; [apply reads_pure|]. fold N. eapply leads_bind; [apply reads_await|]. rewrite <- list_fmap_compose.
    eapply leads_bind; [by apply load_states_ok|]. eapply leads_bind; [by apply (load_stats_ok m D) | apply leads_refl]. }
  destruct (bulk_documents_ok states D (put_all D docs) N D [] Hok Hok Hnd) as [[e He]|[Hok' He]].
  { intros id doc Hin. destruct (Hids id doc Hin). split_and!; try done.
    - rewrite <- put_all_final by done. fold N. by apply get_put_all_in.
    - apply states_get. left. by apply (list_elem_of_fmap_2 fst _ (id, doc)). }
  { left. exists e. eapply leads_trans; [apply Hpre|]. unfold write_documents. rewrite He. apply leads_fail, reads_fail, reads_pure. }
  unfold N in Hok', He at 2 3. rewrite put_all_final in Hok', He by done.
  assert (reads m (bulk_frequencies (all_deltas D N [])) (Ok (to_op <$> ((λ t, (RFrequency t, value_of (put_all D docs) (RFrequency t)))
    <$> (fst <$> (all_deltas D N [] : list _)))))) as Hbf.
  { destruct (all_deltas_wf D N [] Hok ltac:(intros; by eapply Hids) om_wf_nil ltac:(by intros ? [])) as [Hwd Hsd].
    apply bulk_frequencies_ok; [done|]. intros t d Hin%om_get_Some; [|done]. split; [apply Hsd; by exists d|].
    pose proof (all_deltas_get D N D [] 0 t Hok HD Hnd) as Hf. rewrite Hin in Hf. simpl in Hf.
    rewrite <- (put_all_final docs D HD). apply Hf; [intros; split; [by eapply Hids | done] | intros; lia | lia]. }
  set (ops := (to_op <$> all_names D (put_all D docs) N) ++ (to_op <$> ((λ t, (RFrequency t, value_of (put_all D docs) (RFrequency t)))
    <$> (fst <$> (all_deltas D N [] : list _)))) ++ [BatchPut STATS_KEY (encode_stats (len (put_all D docs)) (corpus (put_all D docs)))]).
  assert (ops = bulk_batch D docs) as Hops by (unfold ops, bulk_batch, bulk_names; fold N; by rewrite !fmap_app).
  assert (∀ q, leads m (_ ← pure_eff (check_mutations ops); eng_write_batch ops f) q →
    leads m (write_documents (with_terms <$> N) states (len D) (corpus D) f) q) as Hmid.
  { intros q Hq. unfold write_documents. rewrite He. eapply leads_bind; [apply reads_pure|]. cbv beta iota.
    eapply leads_bind; [apply Hbf | exact Hq]. }
  destruct (check_mutations_cases ops) as [Hc|[e Hc]]; rewrite Hc in Hmid.
  - right. split_and!; [done | done | done|]. eapply leads_trans; [apply Hpre|]. apply Hmid. eapply leads_bind; [apply reads_pure|].
    rewrite Hops. apply leads_refl.
  - left. exists e. eapply leads_trans; [apply Hpre|]. apply Hmid, leads_fail, reads_fail, reads_pure.
Qed.
End run.
