(* ===== verification/FtsRank.v ===== *)
(** * Ranked search: [search_ranked] and [Bm25Config] of [src/src/fts/mod.rs]

    Scores are IEEE-754 doubles, computed with the operations of [SpecFloat]
    at the width of [f64]; the natural logarithm is that of the platform, a
    parameter.  The theorem says that a ranked search computes the BM25 scores
    of the documents, from the statistics the index keeps. *)

From stdpp Require Import sets sorting.
From Stdlib Require Import Sorted SpecFloat.
From S2P Require Import Prelude Bytes OrdMap Search Bloom Manifest Unicode Config Store Read ReadTheory Admission Api Fts FtsTheory FtsIndexTheory FtsSearch.

(** ** Doubles *)

Class NaturalLog : Type := f64_ln : f64 → f64.

Definition f64_add (x y : f64) : f64 := SFadd 53 1024 x y.
Definition f64_sub (x y : f64) : f64 := SFsub 53 1024 x y.
Definition f64_mul (x y : f64) : f64 := SFmul 53 1024 x y.
Definition f64_div (x y : f64) : f64 := SFdiv 53 1024 x y.
(** [n as f64], rounded to the nearest. *)
Definition f64_of_u64 (n : Z) : f64 := binary_normalize 53 1024 n 0 false.
Definition f64_is_finite (x : f64) : bool :=
  match x with S754_zero _ | S754_finite _ _ _ => true | _ => false end.
Definition f64_half : f64 := S754_finite false 4503599627370496 (-53).
(** [f64::total_cmp]: the place of a number on the line, with [-0] below [+0]. *)
Definition line_key (x : f64) : Z * (Z * Z) :=
  match x with
  | S754_infinity true => (-3, (0, 0))
  | S754_finite true m e => (-2, (- e, Zneg m))
  | S754_zero true => (-1, (0, 0))
  | S754_zero false => (0, (0, 0))
  | S754_finite false m e => (1, (e, Zpos m))
  | S754_infinity false => (2, (0, 0))
  | S754_nan => (3, (0, 0))
  end.
Definition total_cmp (x y : f64) : comparison := kcmp (line_key x) (line_key y).

(** [total_cmp] refines the comparison of numbers. *)
Lemma total_cmp_compare x y c : SFcompare x y = Some c → c ≠ Eq → total_cmp x y = c.
Proof.
  unfold total_cmp. destruct x as [sx|sx| |sx mx ex], y as [sy|sy| |sy my ey]; try destruct sx; try destruct sy; simpl; intros [= <-] Hc; try done.
  change (match - ex ?= - ey with Eq => CompOpp (Pos.compare mx my) | c => c end =
    match ex ?= ey with Eq => CompOpp (Pos.compare mx my) | Lt => Gt | Gt => Lt end).
  rewrite Z.compare_opp, (Z.compare_antisym ex ey). by destruct (ex ?= ey).
Qed.

(** ** The configuration *)

Module Bm25Config.
Record t : Type := mk { k1 : f64; b : f64 }.
Definition new (k1 b : f64) : res t :=
  _ ← guard_err (negb (negb (f64_is_finite k1) || f64_leb k1 f64_zero || negb (f64_is_finite b)
                       || negb (f64_leb f64_zero b && f64_leb b f64_one)))
        (StorageError "invalid BM25 configuration");
  mret (mk k1 b).
(** [1.2] and [0.75]. *)
Definition default_config : t := mk (S754_finite false 5404319552844595 (-52)) (S754_finite false 6755399441055744 (-53)).
End Bm25Config.

Record RankedSearchHit : Type := mkRankedSearchHit { ranked_id : bytes; ranked_document : bytes; ranked_score : f64 }.

(** A term of the query, its inverse document frequency and its postings. *)
Abbreviation term_stats := (bytes * f64 * ordmap bytes Z)%type.

Module FtsRanked.
Import FtsIndex.
Section ranked.
Context {S : Type} `{Unicode, NaturalLog, AsyncKVEngine S}.

Fixpoint check_empty (terms : list bytes) : eff S unit :=
  match terms with
  | [] => mret tt
  | term :: terms =>
      df ← load_df term;
      if negb (df =? 0) then pure_eff (Err (corrupt "zero corpus length has indexed terms"))
      else
        prefix ← pure_eff (posting_prefix term);
        rows ← eng_scan (prefix_range prefix);
        if negb (len rows =? 0) then pure_eff (Err (corrupt "zero corpus length has indexed terms"))
        else check_empty terms
  end.
Fixpoint posting_frequencies (term prefix : bytes) (frequencies : ordmap bytes Z) (rows : list (bytes * bytes))
    : eff S (ordmap bytes Z) :=
  match rows with
  | [] => mret frequencies
  | (key, value) :: rows =>
      '(id, tf) ← pure_eff (parse_posting prefix key value);
      if tf =? 0 then pure_eff (Err (corrupt "zero posting frequency"))
      else
        _ ← validate_posting id term;
        posting_frequencies term prefix (om_insert id tf frequencies) rows
  end.
Definition inverse_frequency (count df : Z) : f64 :=
  f64_sub (f64_ln (f64_add (f64_of_u64 count) f64_one)) (f64_ln (f64_add (f64_of_u64 df) f64_half)).
Definition check_inverse (idf : f64) : res unit :=
  guard_err (negb (negb (f64_is_finite idf) || SFltb idf f64_zero)) (corrupt "invalid BM25 inverse document frequency").
Fixpoint load_terms (count : Z) (terms : list bytes) : eff S (list term_stats) :=
  match terms with
  | [] => mret []
  | term :: terms =>
      df ← load_df term;
      _ ← pure_eff (guard_err (negb (count <? df)) (corrupt "document frequency exceeds document count"));
      prefix ← pure_eff (posting_prefix term);
      rows ← eng_scan (prefix_range prefix);
      frequencies ← posting_frequencies term prefix [] rows;
      _ ← pure_eff (guard_err (len frequencies =? df) (corrupt "document frequency disagrees with postings"));
      let idf := inverse_frequency count df in
      _ ← pure_eff (check_inverse idf);
      rest ← load_terms count terms;
      mret ((term, idf, frequencies) :: rest)
  end.
Definition candidates (is_and : bool) (per_term : list term_stats) : ordmap bytes unit :=
  let union := foldl (λ set e, om_insert (fst e) tt set) [] (concat (snd <$> per_term)) in
  if is_and then List.filter (λ e, forallb (λ t, bool_decide (is_Some (om_get (fst e) (snd t)))) per_term) union else union.

Definition length_factor (config : Bm25Config.t) (average : f64) (length : Z) : f64 :=
  f64_add (f64_sub f64_one (Bm25Config.b config))
    (f64_mul (Bm25Config.b config) (f64_div (f64_of_u64 length) average)).
Definition contribution (config : Bm25Config.t) (idf tf length_factor : f64) : f64 :=
  let k1 := Bm25Config.k1 config in
  if f64_leb k1 f64_one
  then f64_div (f64_mul idf (f64_mul tf (f64_add f64_one k1))) (f64_add tf (f64_mul k1 length_factor))
  else
    let k1_inverse := f64_div f64_one k1 in
    f64_div (f64_mul idf (f64_mul tf (f64_add f64_one k1_inverse))) (f64_add (f64_mul tf k1_inverse) length_factor).
(** The loop over the terms that scores one document. *)
Fixpoint score_terms (config : Bm25Config.t) (average : f64) (id : bytes) (forward : term_map) (length : Z)
    (score : f64) (per_term : list term_stats) : res f64 :=
  match per_term with
  | [] => mret score
  | (term, idf, postings) :: per_term =>
      match om_get id postings with
      | None => score_terms config average id forward length score per_term
      | Some tf =>
          let factor := length_factor config average length in
          let value := contribution config idf (f64_of_u64 tf) factor in
          _ ← guard_err (negb (negb (f64_is_finite value) || f64_leb factor f64_zero
                               || negb (bool_decide (is_Some (om_get term forward)))))
                (corrupt "invalid BM25 score state");
          score_terms config average id forward length (f64_add score value) per_term
      end
  end.
Definition check_score (score : f64) : res unit := guard_err (f64_is_finite score) (corrupt "BM25 score overflow").
Fixpoint rank (config : Bm25Config.t) (average : f64) (per_term : list term_stats) (ids : list bytes)
    : eff S (list RankedSearchHit) :=
  match ids with
  | [] => mret []
  | id :: ids =>
      state ← load_document_state id;
      '(document, forward, length) ← pure_eff (ok_or state (corrupt "posting references a missing document"));
      score ← pure_eff (score_terms config average id forward length f64_zero per_term);
      _ ← pure_eff (check_score score);
      rest ← rank config average per_term ids;
      mret (mkRankedSearchHit id document score :: rest)
  end.
(** Higher scores first, then smaller ids. *)
Definition rank_cmp (left right : RankedSearchHit) : comparison :=
  match total_cmp (ranked_score right) (ranked_score left) with
  | Eq => kcmp (ranked_id left) (ranked_id right)
  | c => c
  end.
Definition search_ranked (query : FtsQuery) (limit : Z) (config : Bm25Config.t) : eff S (list RankedSearchHit) :=
  _ ← eng_await_pending_writes;
  _ ← pure_eff (guard_err (negb (MAX_LIMIT <? limit)) (StorageError "FTS result limit exceeds 1000"));
  let terms := query_terms query in
  _ ← pure_eff (check_query terms);
  '(count, total) ← load_stats;
  if (count =? 0) || (total =? 0) then
    if (count =? 0) && negb (total =? 0) then pure_eff (Err (corrupt "invalid FTS corpus statistics"))
    else _ ← check_empty terms; mret []
  else
    let average := f64_div (f64_of_u64 total) (f64_of_u64 count) in
    _ ← pure_eff (guard_err (negb (negb (f64_is_finite average) || f64_leb average f64_zero))
          (corrupt "invalid average document length"));
    per_term ← load_terms count terms;
    ranked ← rank config average per_term (fst <$> (candidates (is_and query) per_term : list _));
    mret (take (Z.to_nat limit) (sort_by rank_cmp ranked)).
End ranked.
End FtsRanked.

(** ** The order of the hits *)

Import FtsRanked.
Lemma rank_cmp_le x y :
  rank_cmp x y ≠ Gt ↔ klt (line_key (ranked_score y)) (line_key (ranked_score x)) ∨
    line_key (ranked_score y) = line_key (ranked_score x) ∧ kle (ranked_id x) (ranked_id y).
Proof.
  unfold rank_cmp, total_cmp, klt, kle. destruct (kcmp (line_key (ranked_score y)) (line_key (ranked_score x))) eqn:E.
  - apply kcmp_eq in E. rewrite E. naive_solver.
  - naive_solver.
  - split; [done|]. intros [?|[He _]]; [done|]. apply kcmp_eq in He. congruence.
Qed.
Lemma rank_cmp_antisym x y : rank_cmp y x = CompOpp (rank_cmp x y).
Proof.
  unfold rank_cmp, total_cmp. rewrite (kcmp_antisym (line_key (ranked_score y))).
  destruct (kcmp (line_key (ranked_score y)) (line_key (ranked_score x))); cbn [CompOpp]; [apply kcmp_antisym | done | done].
Qed.
Lemma rank_cmp_trans x y z : rank_cmp x y ≠ Gt → rank_cmp y z ≠ Gt → rank_cmp x z ≠ Gt.
Proof.
  rewrite !rank_cmp_le. intros [H1|[H1 H1']] [H2|[H2 H2']].
  - left. by eapply klt_trans.
  - left. by rewrite H2.
  - left. by rewrite <- H1.
  - right. split; [congruence | by eapply kle_trans].
Qed.

(** ** The scores of the documents *)

Lemma res_bind_assoc {A B C} (r : res A) (f : A → res B) (g : B → res C) : (r ≫= f) ≫= g = r ≫= (λ x, f x ≫= g).
Proof. by destruct r. Qed.

Section theory.
Context {S : Type} `{UnicodeSpec, NaturalLog, AsyncKVEngineSpec S}.
Import FtsIndex.
Implicit Types (D : documents) (m : ordmap bytes bytes) (id term doc : bytes) (config : Bm25Config.t).

(** The documents with a term, with the frequency of the term in each. *)
Definition postings_of D term : ordmap bytes Z :=
  D ≫= λ e, match om_get term (tokenize (snd e)) with Some tf => [(fst e, tf)] | None => [] end.
Definition stats_of D term : term_stats := (term, inverse_frequency (len D) (frequency D term), postings_of D term).
Definition average_of D : f64 := f64_div (f64_of_u64 (corpus D)) (f64_of_u64 (len D)).
Definition bm25_score config D terms id doc : res f64 :=
  score ← score_terms config (average_of D) id (tokenize doc) (total (tokenize doc)) f64_zero (stats_of D <$> terms);
  _ ← check_score score;
  mret score.

Lemma postings_cons D term id doc :
  postings_of ((id, doc) :: D) term =
  match om_get term (tokenize doc) with Some tf => [(id, tf)] | None => [] end ++ postings_of D term.
Proof. done. Qed.
Lemma elem_of_postings D term id tf :
  (id, tf) ∈ (postings_of D term : list _) ↔ ∃ doc, (id, doc) ∈ (D : list _) ∧ om_get term (tokenize doc) = Some tf.
Proof.
  unfold postings_of. rewrite list_elem_of_bind. split.
  - intros ([k doc] & Hin & HD). simpl in Hin. destruct (om_get term (tokenize doc)) as [n|] eqn:E; [|by apply elem_of_nil in Hin].
    apply list_elem_of_singleton in Hin as [= -> ->]. by exists doc.
  - intros (doc & HD & Htf). exists (id, doc). simpl. rewrite Htf. split; [by left | done].
Qed.
Lemma postings_wf D term : om_wf D → om_wf (postings_of D term).
Proof.
  unfold om_wf. induction 1 as [|[id doc] D HD IH Hf]; [constructor|]. rewrite postings_cons.
  destruct (om_get term (tokenize doc)) as [tf|]; [|done]. constructor; [done|]. apply Forall_forall.
  intros [k n] (x & Hx & _)%elem_of_postings. rewrite Forall_forall in Hf. exact (Hf _ Hx).
Qed.
Lemma get_postings D term id : om_wf D → om_get id (postings_of D term) = om_get id D ≫= λ doc, om_get term (tokenize doc).
Proof.
  intros HD. pose proof (postings_wf D term HD) as Hw.
  assert (∀ tf, om_get id (postings_of D term) = Some tf ↔ om_get id D ≫= (λ doc, om_get term (tokenize doc)) = Some tf) as Hi.
  { intros tf. rewrite om_get_Some, elem_of_postings by done. rewrite bind_Some.
    split; intros (doc & Hd & Htf); exists doc; (split; [by apply om_get_Some | done]). }
  destruct (om_get id (postings_of D term)) as [tf|] eqn:E; [symmetry; by apply Hi|].
  destruct (om_get id D ≫= _) as [tf|]; [|done]. by pose proof (proj2 (Hi tf) eq_refl).
Qed.
Lemma postings_len D term : len (postings_of D term) = frequency D term.
Proof.
  unfold frequency. induction D as [|[id doc] D IH]; [done|]. rewrite postings_cons, len_app, IH. simpl. unfold has_term.
  destruct (om_get term (tokenize doc)); [rewrite bool_decide_true by done | rewrite bool_decide_false by (by intros [])]; done.
Qed.

Section runs.
Variables (m : ordmap bytes bytes) (D : documents).
Hypothesis Hix : indexed m D.
Hypothesis Hok : docs_ok D.
Hypothesis Hm : om_wf m.

Lemma posting_frequencies_ok term rows : ∀ acc,
  short term → Forall (posting_row D term) rows → om_wf acc →
  (∀ id tf, om_get id acc = Some tf → tf_in (om_get id D) term = Some tf) →
  ∃ out, reads m (posting_frequencies term (NAMESPACE ++ [POSTING_MARKER] ++ component term) acc rows) (Ok out) ∧ om_wf out ∧
    (∀ id tf, om_get id out = Some tf → tf_in (om_get id D) term = Some tf) ∧
    ∀ id, is_Some (om_get id acc) ∨ short id ∧ key_of (RPosting term id) ∈ rows.*1 → is_Some (om_get id out).
Proof.
  intros acc Hs Hr. revert acc. induction Hr as [|e rows (id & doc & tf & -> & Hg & Ht) Hr IH]; intros acc Ha Hv.
  - exists acc. split_and!; [apply reads_ret | done | done | set_solver].
  - destruct (get_doc D id doc Hok Hg) as [(Hne & Hu & Hsi) Hd]. destruct (tf_u64 doc term tf Hd Ht) as (Htu & Htz & _).
    destruct (IH (om_insert id tf acc)) as (out & Ho & Hw & Hv' & Hi); [by apply om_insert_wf| |exists out; split_and!; [|done|done|]].
    + intros k n. rewrite om_get_insert. case_decide; [|apply Hv]. subst. intros [= <-]. by rewrite Hg.
    + cbn [posting_frequencies]. rewrite parse_posting_ok by done. eapply reads_bind; [apply reads_pure|]. cbv beta iota.
      rewrite (proj2 (Z.eqb_neq _ _)) by done. eapply reads_bind; [|apply Ho]. apply (validate_posting_ok m D Hix Hok id doc); [done|].
      unfold has_term. by rewrite bool_decide_true.
    + intros k Hk. apply Hi. rewrite om_get_insert. rewrite fmap_cons, elem_of_cons in Hk. cbn [fst] in Hk.
      case_decide as Hkid; [by left|]. destruct Hk as [?|[Hks [He|?]]]; [by left| |by right].
      apply key_of_inj in He; [|done|done]. congruence.
Qed.
Lemma term_postings_ok term :
  short term →
  ∃ rows, reads m (eng_scan (prefix_range (NAMESPACE ++ [POSTING_MARKER] ++ component term))) (Ok rows) ∧
    reads m (posting_frequencies term (NAMESPACE ++ [POSTING_MARKER] ++ component term) [] rows) (Ok (postings_of D term)) ∧
    (postings_of D term = [] → rows = []).
Proof.
  intros Hs. eexists. split; [apply reads_scan|]. destruct (posting_rows m D Hix Hok Hm term Hs) as [Hf Hi].
  destruct (posting_frequencies_ok term _ [] Hs Hf om_wf_nil ltac:(done)) as (out & Ho & Hw & Hv & Hin).
  assert (om_wf D) as HD by apply Hok.
  assert (out = postings_of D term) as <-.
  { apply om_ext; [done | by apply postings_wf|]. intros id. rewrite get_postings by done. fold (tf_in (om_get id D) term).
    destruct (om_get id out) as [tf|] eqn:E; [symmetry; by apply Hv|]. destruct (tf_in (om_get id D) term) as [tf|] eqn:E'; [|done].
    destruct (Hin id) as [x Hx]; [|congruence]. right. apply Hi. unfold tf_in in E'. destruct (om_get id D) as [doc|]; [|done]. simpl in E'.
    exists doc. split; [done|]. unfold has_term. by rewrite bool_decide_true. }
  split; [done|]. intros He. rewrite He in Hin. destruct (List.filter _ m) as [|e rows] eqn:El; [done|].
  apply Forall_cons in Hf as [(id & doc & tf & -> & Hg & Htf) _].
  destruct (Hin id) as [x Hx]; [|done]. right. split; [by apply (get_doc D id doc)|]. rewrite fmap_cons. by left.
Qed.

Definition too_long : DBError := StorageError "FTS component too long".
Fixpoint spec_terms (terms : list bytes) : res (list term_stats) :=
  match terms with
  | [] => mret []
  | t :: terms =>
      _ ← guard_err (bool_decide (short t)) too_long;
      _ ← check_inverse (inverse_frequency (len D) (frequency D t));
      rest ← spec_terms terms;
      mret (stats_of D t :: rest)
  end.
Fixpoint spec_rank config (terms : list bytes) (l : list (bytes * bytes)) : res (list RankedSearchHit) :=
  match l with
  | [] => mret []
  | (id, doc) :: l =>
      score ← bm25_score config D terms id doc;
      rest ← spec_rank config terms l;
      mret (mkRankedSearchHit id doc score :: rest)
  end.
(** What a ranked search must answer: every matching document with its score,
    the best first. *)
Definition ranked_result (query : FtsQuery) (limit : Z) config : res (list RankedSearchHit) :=
  let terms := query_terms query in
  if MAX_LIMIT <? limit then Err (StorageError "FTS result limit exceeds 1000")
  else if len terms =? 0 then Err (StorageError "FTS query contains no searchable terms")
  else if MAX_QUERY_TERMS <? len terms then Err (StorageError "FTS query exceeds 32 distinct terms")
  else if corpus D =? 0 then _ ← guard_err (bool_decide (Forall short terms)) too_long; mret []
  else
    _ ← guard_err (negb (negb (f64_is_finite (average_of D)) || f64_leb (average_of D) f64_zero))
          (corrupt "invalid average document length");
    _ ← spec_terms terms;
    ranked ← spec_rank config terms (List.filter (λ e, matches (is_and query) terms (snd e)) D);
    mret (take (Z.to_nat limit) (sort_by rank_cmp ranked)).

Lemma spec_terms_Ok terms per : spec_terms terms = Ok per → per = stats_of D <$> terms ∧ Forall short terms.
Proof.
  revert per. induction terms as [|t terms IH]; intros per; [by intros [= <-]|]. cbn [spec_terms].
  case_bool_decide as Hs; [|done]. cbn [guard_err mbind res_bind]. destruct (check_inverse _); [|done|done]. cbn [mbind res_bind].
  destruct (spec_terms terms) as [rest|e|]; [|done|done]. intros [= <-]. destruct (IH rest eq_refl) as [-> Hf]. split; [done | by constructor].
Qed.
Lemma load_df_long t : ¬ short t → reads m (load_df t) (Err too_long).
Proof.
  intros Hs. unfold load_df, df_key, encode_component, short in *. rewrite (proj2 (Z.leb_gt _ _)) by lia. apply reads_fail, reads_pure.
Qed.
Lemma load_terms_ok terms : reads m (load_terms (len D) terms) (spec_terms terms).
Proof.
  induction terms as [|t terms IH]; [apply reads_ret|]. cbn [load_terms spec_terms]. case_bool_decide as Hs; cbn [guard_err mbind res_bind].
  2: { apply reads_fail. by apply load_df_long. }
  eapply reads_bind; [by apply (load_df_ok m D)|]. pose proof (frequency_bounds D t Hok). rewrite (proj2 (Z.ltb_ge _ _)) by lia.
  eapply reads_bind; [apply reads_pure|]. rewrite posting_prefix_ok by done. eapply reads_bind; [apply reads_pure|].
  destruct (term_postings_ok t Hs) as (rows & Hr & Hp & _). eapply reads_bind; [apply Hr|]. eapply reads_bind; [apply Hp|].
  rewrite postings_len, Z.eqb_refl. eapply reads_bind; [apply reads_pure|]. apply (reads_then m); [apply reads_pure|]. intros [] _.
  apply (reads_then m); [apply IH|]. intros rest _. apply reads_ret.
Qed.
Lemma candidates_ok all terms :
  terms ≠ [] → candidates all (stats_of D <$> terms) = ids_where (matches all terms) D.
Proof.
  intros Hne. assert (om_wf D) as HD by apply Hok. unfold candidates.
  replace (snd <$> (stats_of D <$> terms)) with (postings_of D <$> terms) by (by rewrite <- list_fmap_compose).
  set (u := foldl _ _ _). assert (Forall om_wf (postings_of D <$> terms)) as Hws.
  { rewrite Forall_fmap, Forall_forall. intros t _. by apply postings_wf. }
  destruct (collect_ids (concat (postings_of D <$> terms)) [] om_wf_nil) as [Hw Hi]. fold u in Hw, Hi.
  assert (∀ t id, is_Some (om_get id (postings_of D t)) ↔ ∃ doc, om_get id D = Some doc ∧ has_term t doc = true) as Hp.
  { intros t id. rewrite get_postings by done. unfold has_term. destruct (om_get id D) as [doc|]; simpl; [|by split; [intros [] | intros (? & ? & _)]].
    split; [intros Hs; exists doc; by rewrite bool_decide_true | intros (x & [= <-] & Hb); by apply bool_decide_eq_true in Hb]. }
  assert (∀ id, in_ids id u ↔ ∃ doc, om_get id D = Some doc ∧ existsb (λ t, has_term t doc) terms = true) as Hu.
  { intros id. rewrite Hi, elem_of_concat_keys by done. rewrite Exists_fmap, Exists_exists. setoid_rewrite existsb_exists. split.
    - intros [[x Hx]|(t & Ht & (doc & Hg & Hh)%Hp)]; [done|]. exists doc. split; [done|]. exists t. by rewrite <- list_elem_of_In.
    - intros (doc & Hg & t & Ht & Hh). right. exists t. rewrite list_elem_of_In. split; [done|]. apply Hp. by exists doc. }
  unfold matches. destruct all; apply ids_ext; try done; try (by apply ids_where_wf); [by apply filter_om_wf| |].
  - intros id. rewrite in_ids_where by done. unfold in_ids at 1. split.
    + intros [x [Hx Hf]%om_get_filter]; [|done]. assert (in_ids id u) as (doc & Hg & _)%Hu by (by exists x). exists doc. split; [done|].
      simpl in Hf. rewrite forallb_forall in Hf |- *. intros t Ht.
      assert (bool_decide (is_Some (om_get id (stats_of D t).2)) = true) as Hb.
      { apply Hf. apply list_elem_of_In, list_elem_of_fmap. exists t. by rewrite list_elem_of_In. }
      apply bool_decide_eq_true, Hp in Hb as (doc' & Hg' & Hh). congruence.
    + intros (doc & Hg & Hf). assert (in_ids id u) as [x Hx].
      { apply Hu. exists doc. split; [done|]. destruct terms as [|t terms]; [done|]. cbn [forallb existsb] in *.
        apply andb_true_iff in Hf as [-> _]. done. }
      exists x. apply om_get_filter; [done|]. split; [done|]. rewrite forallb_forall in Hf |- *. intros s Hs.
      apply list_elem_of_In, list_elem_of_fmap in Hs as (t & -> & Ht). apply bool_decide_eq_true, Hp. exists doc. split; [done|].
      apply Hf. by apply list_elem_of_In.
  - intros id. by rewrite Hu, in_ids_where by done.
Qed.
Lemma rank_ok config terms l :
  (∀ e, e ∈ l → om_get (fst e) D = Some (snd e)) →
  reads m (rank config (average_of D) (stats_of D <$> terms) (fst <$> l)) (spec_rank config terms l).
Proof.
  induction l as [|[id doc] l IH]; intros Hl; [apply reads_ret|]. rewrite fmap_cons. cbn [rank spec_rank fst].
  pose proof (Hl (id, doc) ltac:(by left)) as Hg. simpl in Hg. destruct (get_doc D id doc Hok Hg) as [(_ & _ & Hs) _].
  eapply reads_bind; [by apply (load_document_state_ok m D)|]. rewrite Hg. eapply reads_bind; [apply reads_pure|]. cbv beta iota.
  unfold bm25_score. rewrite res_bind_assoc. apply (reads_then m); [apply reads_pure|]. intros score _.
  rewrite res_bind_assoc. apply (reads_then m); [apply reads_pure|]. intros [] _. cbn [mret res_ret mbind res_bind].
  apply (reads_then m); [apply IH; intros; apply Hl; by right|]. intros rest _. apply reads_ret.
Qed.
(** Without any terms in the corpus nothing has a term. *)
Lemma no_terms t : corpus D = 0 → postings_of D t = [].
Proof.
  intros Hz. apply elem_of_nil_inv. intros [id tf] (doc & Hin & Htf)%elem_of_postings. apply (om_get_Some D) in Hin as Hg; [|apply Hok].
  destruct (get_doc D id doc Hok Hg) as [_ Hd]. destruct (doc_terms doc Hd) as [Ht _].
  pose proof (sum_weight (λ doc, total (tokenize doc)) D id (do_wf _ Hok)) as Hs. rewrite Hg in Hs. simpl in Hs.
  assert (total (tokenize doc) <= 0).
  { fold (corpus D) in Hs. rewrite Hz in Hs. apply Hs. intros i x Hx. apply doc_total. by apply (do_ids _ Hok i). }
  apply om_get_Some in Htf; [|apply Ht]. destruct (to_terms _ Ht _ _ Htf). pose proof (total_in _ _ _ (terms_nonneg _ Ht) Htf). lia.
Qed.
Lemma no_match all terms : corpus D = 0 → terms ≠ [] → List.filter (λ e, matches all terms (snd e)) D = [].
Proof.
  intros Hz Hne. apply elem_of_nil_inv. intros [id doc] [Hg Hmt]%om_filter_get; [|apply Hok]. simpl in Hmt.
  assert (∃ t, has_term t doc = true) as [t Ht].
  { unfold matches in Hmt. destruct all; [|apply existsb_exists in Hmt as (t & _ & ?); by exists t].
    destruct terms as [|t terms]; [done|]. apply andb_true_iff in Hmt as [? _]. by exists t. }
  unfold has_term in Ht. apply bool_decide_eq_true in Ht as [tf Ht]. apply om_get_Some in Hg; [|apply Hok].
  assert ((id, tf) ∈ (postings_of D t : list _)) as Hin by (apply elem_of_postings; by exists doc). rewrite no_terms in Hin by done.
  by apply elem_of_nil in Hin.
Qed.
Lemma check_empty_ok terms :
  corpus D = 0 → reads m (check_empty terms) (_ ← guard_err (bool_decide (Forall short terms)) too_long; mret tt).
Proof.
  intros Hz. assert (∀ t, postings_of D t = [] ∧ frequency D t = 0) as Hno.
  { intros t. rewrite <- postings_len. by rewrite no_terms. }
  induction terms as [|t terms IH]; [apply reads_ret|]. cbn [check_empty]. destruct (decide (short t)) as [Hs|Hs].
  - eapply reads_bind; [by apply (load_df_ok m D)|]. destruct (Hno t) as [Hp ->]. cbn [Z.eqb negb]. rewrite posting_prefix_ok by done.
    eapply reads_bind; [apply reads_pure|]. destruct (term_postings_ok t Hs) as (rows & Hr & _ & Hrows). rewrite (Hrows Hp) in Hr.
    eapply reads_bind; [apply Hr|]. cbn [negb]. rewrite (bool_decide_ext (Forall short (t :: terms)) (Forall short terms)); [apply IH|].
    rewrite Forall_cons. tauto.
  - rewrite bool_decide_false by (by intros [? _]%Forall_cons). apply reads_fail. by apply load_df_long.
Qed.
Lemma search_ranked_ok query limit config : reads m (search_ranked query limit config) (ranked_result query limit config).
Proof.
  unfold search_ranked, ranked_result, check_query. eapply reads_bind; [apply reads_await|].
  destruct (MAX_LIMIT <? limit); [apply reads_fail, reads_pure|]. eapply reads_bind; [apply reads_pure|]. cbv beta zeta.
  destruct (Z.eqb_spec (len (query_terms query)) 0) as [Hz|Hz]; [apply reads_fail, reads_pure|].
  destruct (MAX_QUERY_TERMS <? len (query_terms query)); [apply reads_fail, reads_pure|]. eapply reads_bind; [apply reads_pure|].
  eapply reads_bind; [by apply (load_stats_ok m D)|]. cbv beta iota.
  destruct (Z.eqb_spec (corpus D) 0) as [Hc|Hc].
  - rewrite orb_true_r, andb_false_r. pose proof (check_empty_ok (query_terms query) Hc) as He.
    destruct (bool_decide (Forall short (query_terms query))); [eapply reads_bind; [apply He | apply reads_ret] | by apply reads_fail].
  - rewrite (proj2 (Z.eqb_neq (len D) 0)) by (intros Hl%len_0_nil; by rewrite Hl in Hc). cbn [orb].
    apply (reads_then m); [apply reads_pure|]. intros [] _. apply (reads_then m); [apply load_terms_ok|].
    intros per [-> Hs]%spec_terms_Ok. rewrite candidates_ok by (intros He; by rewrite He in Hz).
    set (l := List.filter _ D). replace (fst <$> _) with (fst <$> l) by (unfold ids_where; rewrite <- list_fmap_compose; by apply list_fmap_ext).
    apply (reads_then m); [apply rank_ok|intros; apply reads_ret]. intros [id doc] [Hg _]%om_filter_get; [done | apply Hok].
Qed.
Lemma spec_rank_Ok config terms l hits :
  spec_rank config terms l = Ok hits →
  (λ h, (ranked_id h, ranked_document h)) <$> hits = l ∧
  ∀ h, h ∈ hits → bm25_score config D terms (ranked_id h) (ranked_document h) = Ok (ranked_score h).
Proof.
  revert hits. induction l as [|[id doc] l IH]; intros hits; cbn [spec_rank]; [intros [= <-]; split; [done | by intros h ?%elem_of_nil]|].
  destruct (bm25_score config D terms id doc) as [score|e|] eqn:Es; [|done|done]. cbn [mbind res_bind].
  destruct (spec_rank config terms l) as [rest|e|]; [|done|done]. intros [= <-]. destruct (IH rest eq_refl) as [He Hs].
  split; [rewrite fmap_cons; by rewrite He|]. intros h [->|Hh]%elem_of_cons; [done | by apply Hs].
Qed.
(** The hits of a ranked search. *)
Lemma ranked_result_Ok query limit config hits :
  ranked_result query limit config = Ok hits →
  ∃ all, hits = take (Z.to_nat limit) all ∧ StronglySorted (λ x y, rank_cmp x y ≠ Gt) all ∧
    (λ h, (ranked_id h, ranked_document h)) <$> all ≡ₚ List.filter (λ e, matches (is_and query) (query_terms query) (snd e)) D ∧
    ∀ h, h ∈ all → bm25_score config D (query_terms query) (ranked_id h) (ranked_document h) = Ok (ranked_score h).
Proof.
  unfold ranked_result. destruct (MAX_LIMIT <? limit); [done|].
  destruct (Z.eqb_spec (len (query_terms query)) 0) as [Hz|Hz]; [done|]. destruct (MAX_QUERY_TERMS <? _); [done|].
  destruct (Z.eqb_spec (corpus D) 0) as [Hc|Hc].
  - destruct (bool_decide _); [|done]. intros [= <-]. exists []. rewrite no_match by (done || intros He; by rewrite He in Hz).
    split_and!; [by rewrite take_nil | constructor | done | by intros h ?%elem_of_nil].
  - destruct (guard_err _ _); [|done|done]. cbn [mbind res_bind]. destruct (spec_terms _); [|done|done]. cbn [mbind res_bind].
    destruct (spec_rank _ _ _) as [ranked|e|] eqn:E; [|done|done]. intros [= <-]. apply spec_rank_Ok in E as [He Hs].
    exists (sort_by rank_cmp ranked). split_and!; [done | apply sort_by_sorted; [apply rank_cmp_antisym | apply rank_cmp_trans] | |].
    + by rewrite sort_by_perm, He.
    + intros h Hh. rewrite sort_by_perm in Hh. by apply Hs.
Qed.
(** None of this panics. *)
Lemma np_bind {A B} (r : res A) (f : A → res B) : r ≠ Panic → (∀ a, r = Ok a → f a ≠ Panic) → r ≫= f ≠ Panic.
Proof. destruct r; naive_solver. Qed.
Lemma np_guard b e : guard_err b e ≠ Panic.
Proof. by destruct b. Qed.
Lemma spec_terms_np terms : spec_terms terms ≠ Panic.
Proof.
  induction terms as [|t terms IH]; [done|]. cbn [spec_terms]. apply np_bind; [apply np_guard|]. intros _ _.
  apply np_bind; [apply np_guard|]. intros _ _. by apply np_bind.
Qed.
Lemma score_terms_np config average id forward length per : ∀ score,
  score_terms config average id forward length score per ≠ Panic.
Proof.
  induction per as [|[[t idf] postings] per IH]; intros score; [done|]. cbn [score_terms]. destruct (om_get id postings); [|done].
  apply np_bind; [apply np_guard|]. intros _ _. apply IH.
Qed.
Lemma spec_rank_np config terms l : spec_rank config terms l ≠ Panic.
Proof.
  induction l as [|[id doc] l IH]; [done|]. cbn [spec_rank]. apply np_bind; [|intros; by apply np_bind].
  apply np_bind; [apply score_terms_np|]. intros score _. apply np_bind; [apply np_guard | done].
Qed.
Lemma ranked_result_np query limit config : ranked_result query limit config ≠ Panic.
Proof.
  unfold ranked_result. repeat (case_match; [done|]). case_match; [by apply np_bind; [apply np_guard|]|].
  apply np_bind; [apply np_guard|]. intros _ _. apply np_bind; [apply spec_terms_np|]. intros _ _.
  apply np_bind; [apply spec_rank_np | done].
Qed.
End runs.
End theory.
