(* ===== verification/FtsRefine.v ===== *)
(** * The index refines documents beside a map

    The abstract store has the documents by id and, apart from them, the
    user's key-value pairs.  Whatever engine honours the contract of
    [AsyncKVEngine], every run of the index on it has the results the abstract
    store allows: the records of the index never show in the user's map, the
    user's writes never reach them, and a write that fails leaves the index
    whole, before a restart and after it. *)

From stdpp Require Import sets sorting.
From Stdlib Require Import Sorted.
From S2P Require Import Prelude Bytes OrdMap Search Manifest Bloom Unicode Store Read ReadTheory Admission Api Fts FtsTheory FtsIndexTheory FtsSearch FtsBulk FtsRank.

Record fts_store : Type := mkStore { st_docs : documents; st_user : ordmap bytes bytes }.

Inductive change : Type :=
| CPut (id doc : bytes)
| CPutAll (docs : list (bytes * bytes))
| CDelete (id : bytes)
| CUser (os : list BatchOperation).

(** What happened, with its result; that of a change is whether there was a
    document to delete, and true for the others. *)
Inductive fts_event : Type :=
| FOpen (r : res unit)
| FChange (c : change) (r : res bool)
| FDocument (id : bytes) (r : res (option bytes))
| FSearch (query : FtsQuery) (limit : Z) (r : res (list SearchHit))
| FRanked (query : FtsQuery) (limit : Z) (config : Bm25Config.t) (r : res (list RankedSearchHit))
| FGet (key : bytes) (r : res (option bytes))
| FScan (range : key_range) (r : res (list (bytes * bytes)))
| FRestart (opened : bool).

(** ** The abstract store *)

Section spec.
Context `{Unicode, NaturalLog}.
Implicit Types (x y : fts_store) (c : change).

Definition effect c x : fts_store :=
  match c with
  | CPut id doc => mkStore (om_insert id doc (st_docs x)) (st_user x)
  | CPutAll docs => mkStore (put_all (st_docs x) docs) (st_user x)
  | CDelete id => mkStore (om_remove id (st_docs x)) (st_user x)
  | CUser os => mkStore (st_docs x) (apply_ops os (st_user x))
  end.
Definition change_result c x : bool :=
  match c with CDelete id => bool_decide (is_Some (om_get id (st_docs x))) | _ => true end.
(** The changes that write nothing. *)
Definition idle c x : bool :=
  match c with
  | CPut _ _ => false
  | CPutAll docs => bool_decide (docs = [])
  | CDelete id => bool_decide (om_get id (st_docs x) = None)
  | CUser os => bool_decide (os = [])
  end.
Definition allowed c : bool :=
  match c with CUser os => negb (existsb (λ o, reserved (op_key_of o)) os) | _ => true end.

(** The first store is what reads see, the second what a restart will see;
    they differ only after a write that failed. *)
Inductive index_step : fts_store → fts_store → fts_event → fts_store → fts_store → Prop :=
| is_open x y : index_step x y (FOpen (Ok tt)) x y
| is_idle x y c : idle c x = true → index_step x y (FChange c (Ok (change_result c x))) x y
| is_commit x c :
    allowed c = true → index_step x x (FChange c (Ok (change_result c x))) (effect c x) (effect c x)
| is_refused x y c e : index_step x y (FChange c (Err e)) x y
| is_uncertain x c e : allowed c = true → index_step x x (FChange c (Err e)) x (effect c x)
| is_document x y id : index_step x y (FDocument id (Ok (om_get id (st_docs x)))) x y
| is_search x y query limit : index_step x y (FSearch query limit (search_result (st_docs x) query limit)) x y
| is_ranked x y query limit config :
    index_step x y (FRanked query limit config (ranked_result (st_docs x) query limit config)) x y
| is_get x y key :
    index_step x y (FGet key (if reserved key then Err reserved_error else Ok (om_get key (st_user x)))) x y
| is_scan x y range :
    index_step x y (FScan range (Ok (List.filter (λ e, key_in_range (fst e) range) (st_user x)))) x y
| is_restart x y : index_step x y (FRestart true) y y.
Inductive index_steps : fts_store → fts_store → list fts_event → fts_store → fts_store → Prop :=
| iss_nil x y : index_steps x y [] x y
| iss_cons x y e x1 y1 es x2 y2 :
    index_step x y e x1 y1 → index_steps x1 y1 es x2 y2 → index_steps x y (e :: es) x2 y2.
End spec.

Section refinement.
Context {S : Type} `{UnicodeSpec, NaturalLog, AsyncKVEngineSpec S}.
Implicit Types (D : documents) (m user : ordmap bytes bytes) (id doc key : bytes) (s : S) (x y : fts_store)
  (os p : list BatchOperation).
Import FtsIndex FtsRanked.

(** ** The runs of the index *)

Definition shows m x : Prop := indexed m (st_docs x) ∧ docs_ok (st_docs x) ∧ st_user x = user_part m.
Definition holds_index s x y : Prop :=
  ∃ m p, holds s m p ∧ shows m x ∧ shows (apply_ops p m) y ∧ (p = [] → y = x).
(** The batch a change writes, and that the engine has room for it. *)
Definition batch_of (c : change) x : list BatchOperation :=
  match c with
  | CPut id doc => document_batch (st_docs x) id (Some doc)
  | CPutAll docs => bulk_batch (st_docs x) docs
  | CDelete id => document_batch (st_docs x) id None
  | CUser os => os
  end.
Definition room_for s (c : change) : Prop := ∀ x y, holds_index s x y → admissible (batch_of c x).
(** A document is any bytes; one that is a string has terms of a length that
    fits a key. *)
Definition input_ok doc : Prop := utf8_valid doc = true → doc_ok doc.

Definition done_as (b : bool) (r : res unit) : res bool := _ ← r; mret b.
Inductive fts_step : S → fts_event → S → Prop :=
| fs_open s f r s' : open f s = (r, s') → fts_step s (FOpen r) s'
| fs_put s id doc f r s' :
    id_ok id → input_ok doc → fault_ok f → room_for s (CPut id doc) →
    put_document id doc f s = (r, s') → fts_step s (FChange (CPut id doc) (done_as true r)) s'
| fs_put_all s docs f r s' :
    (∀ id doc, (id, doc) ∈ docs → id_ok id ∧ input_ok doc) → fault_ok f → room_for s (CPutAll docs) →
    put_documents docs f s = (r, s') → fts_step s (FChange (CPutAll docs) (done_as true r)) s'
| fs_delete s id f r s' :
    id_ok id → fault_ok f → room_for s (CDelete id) →
    delete_document id f s = (r, s') → fts_step s (FChange (CDelete id) r) s'
| fs_document s id r s' : id_ok id → get_document id s = (r, s') → fts_step s (FDocument id r) s'
| fs_search s query limit r s' : search query limit s = (r, s') → fts_step s (FSearch query limit r) s'
| fs_ranked s query limit config r s' :
    search_ranked query limit config s = (r, s') → fts_step s (FRanked query limit config r) s'
| fs_get s key r s' : get key s = (r, s') → fts_step s (FGet key r) s'
| fs_scan s range r s' : scan range s = (r, s') → fts_step s (FScan range r) s'
| fs_user_put s key value f r s' :
    admissible [BatchPut key value] → fault_ok f → put key value f s = (r, s') →
    fts_step s (FChange (CUser [BatchPut key value]) (done_as true r)) s'
| fs_user_delete s key f r s' :
    admissible [BatchDelete key] → fault_ok f → delete key f s = (r, s') →
    fts_step s (FChange (CUser [BatchDelete key]) (done_as true r)) s'
| fs_user_batch s os f r s' :
    admissible os → fault_ok f → write_batch os f s = (r, s') → fts_step s (FChange (CUser os) (done_as true r)) s'
| fs_restart s r : restarted s r → fts_step s (FRestart (is_ok r)) (match r with Ok s' => s' | _ => s end).
Inductive fts_steps : S → list fts_event → S → Prop :=
| fts_nil s : fts_steps s [] s
| fts_cons s e s1 es s2 : fts_step s e s1 → fts_steps s1 es s2 → fts_steps s (e :: es) s2.

(** ** The simulation *)

Lemma user_part_ops os m :
  om_wf m → existsb (λ o, reserved (op_key_of o)) os = false → user_part (apply_ops os m) = apply_ops os (user_part m).
Proof.
  unfold apply_ops. revert m. induction os as [|o os IH]; intros m Hm; [done|]. cbn [existsb foldl]. intros [Ho Hos]%orb_false_iff.
  rewrite IH by (done || by apply apply_op_wf). f_equal. apply om_ext; [by apply filter_om_wf, apply_op_wf | by apply apply_op_wf, filter_om_wf|].
  intros k. rewrite get_apply_op, !get_user_part, get_apply_op by (done || by apply apply_op_wf).
  case_decide; [subst; by rewrite Ho | done].
Qed.
Lemma shows_user os m x :
  om_wf m → existsb (λ o, reserved (op_key_of o)) os = false → shows m x → shows (apply_ops os m) (effect (CUser os) x).
Proof.
  intros Hm Hos ([Hv Ho] & Hok & Hu). assert (∀ k, reserved k = true → om_get k (apply_ops os m) = om_get k m) as Hk.
  { intros k Hr. apply get_apply_notin. intros (o & -> & Hin)%list_elem_of_fmap. apply not_true_iff_false in Hos. apply Hos.
    apply existsb_exists. exists o. by rewrite <- list_elem_of_In. }
  split; [split|split; [done|]]; simpl.
  - intros n Hn. rewrite Hk by apply key_of_reserved. by apply Hv.
  - intros k v Hg Hr. rewrite Hk in Hg by done. by eapply Ho.
  - rewrite Hu. symmetry. by apply user_part_ops.
Qed.
Lemma shows_document m x id o :
  om_wf m → shows m x → id_ok id → (∀ doc, o = Some doc → doc_ok doc) → docs_ok (set_doc id o (st_docs x)) →
  shows (apply_ops (document_batch (st_docs x) id o) m) (mkStore (set_doc id o (st_docs x)) (st_user x)).
Proof.
  intros Hm (Hix & Hok & Hu) Hid Hd Hok'. destruct (document_batch_indexed m _ id o Hix Hok Hid Hd Hm) as [Hi Hk].
  split_and!; [done | done|]. simpl. rewrite Hu. symmetry. apply user_part_ext; [done | by apply apply_ops_wf | done].
Qed.
(** A write that reaches the engine is a step of the abstract store. *)
Lemma change_wrote c os s' m p x y r :
  om_wf m → shows m x → shows (apply_ops p m) y → (p = [] → y = x) →
  allowed c = true → shows (apply_ops os m) (effect c x) → (os = [] → idle c x = true ∧ effect c x = x) → wrote holds os m p (r, s') →
  ∃ x' y', index_step x y (FChange c (done_as (change_result c x) r)) x' y' ∧ holds_index s' x' y'.
Proof.
  intros Hm Hx Hy Hp Ha He Hidle Hw. destruct r as [[]|e|]; [destruct Hw as [[Hos Hs]|[-> Hs]] | destruct Hw as [Hs|[-> Hs]] | done].
  - exists x, y. split; [apply is_idle, Hidle, Hos|]. by exists m, p.
  - rewrite (Hp eq_refl). exists (effect c x), (effect c x). split; [by apply is_commit|]. by exists (apply_ops os m), [].
  - exists x, y. split; [apply is_refused|]. by exists m, p.
  - rewrite (Hp eq_refl). exists x, (effect c x). split; [by apply is_uncertain|]. exists m, os.
    split_and!; [done..|]. intros Hos. apply Hidle, Hos.
Qed.
Lemma read_step {A} (q : eff S A) (a : res A) (ev : res A → fts_event) s m p x y r s' :
  holds s m p → shows m x → shows (apply_ops p m) y → (p = [] → y = x) → reads m q a → q s = (r, s') →
  index_step x y (ev a) x y → ∃ x' y', index_step x y (ev r) x' y' ∧ holds_index s' x' y'.
Proof.
  intros Hs Hx Hy Hp Hq Hr Hst. destruct (Hq s p Hs) as (s1 & Hq1 & Hs1). rewrite Hq1 in Hr. injection Hr as -> ->.
  exists x, y. split; [done|]. by exists m, p.
Qed.

Section step.
Variables (s : S) (m : ordmap bytes bytes) (p : list BatchOperation) (x y : fts_store).
Hypothesis Hs : holds s m p.
Hypothesis Hx : shows m x.
Hypothesis Hy : shows (apply_ops p m) y.
Hypothesis Hp : p = [] → y = x.
Let Hm : om_wf m := holds_wf s m p Hs.
Let Hh : holds_index s x y := ex_intro _ m (ex_intro _ p (conj Hs (conj Hx (conj Hy Hp)))).

Lemma put_document_step id doc f :
  id_ok id → input_ok doc → fault_ok f → room_for s (CPut id doc) →
  let '(r, s') := put_document id doc f s in
  ∃ x' y', index_step x y (FChange (CPut id doc) (done_as true r)) x' y' ∧ holds_index s' x' y'.
Proof.
  intros Hid Hi Hf Hroom. destruct (utf8_valid doc) eqn:Hutf.
  2: { assert (reads m (put_document id doc f) (Err (StorageError "document is not valid UTF-8"))) as Hr.
       { unfold put_document. eapply reads_bind; [apply reads_await|]. rewrite Hutf. apply reads_fail, reads_pure. }
       destruct (Hr s p Hs) as (s1 & -> & Hs1). exists x, y. split; [apply is_refused|]. by exists m, p. }
  pose proof (Hi Hutf) as Hd. assert (∀ d, Some doc = Some d → doc_ok d) as Hdoc by naive_solver. destruct Hx as (Hix & Hok & Hu).
  destruct (put_document_leads m _ id (Some doc) Hix Hok Hid Hdoc doc f eq_refl) as [[Hok' Hl]|[e Hl]];
    destruct (Hl s p Hs) as (s1 & -> & Hs1).
  - pose proof (batch_law _ f s1 m p Hs1 (Hroom x y Hh) Hf) as Hw. cbn [batch_of] in Hw. destruct (eng_write_batch _ f s1) as [r s2].
    apply (change_wrote (CPut id doc) _ s2 m p x y r) in Hw; [done..| |].
    + by apply (shows_document m x id (Some doc)).
    + intros He. unfold document_batch, update_names in He. rewrite fmap_app in He. by apply app_nil in He as [_ ?].
  - exists x, y. split; [apply is_refused|]. by exists m, p.
Qed.
Lemma put_documents_step docs f :
  (∀ id doc, (id, doc) ∈ docs → id_ok id ∧ input_ok doc) → fault_ok f → room_for s (CPutAll docs) →
  let '(r, s') := put_documents docs f s in
  ∃ x' y', index_step x y (FChange (CPutAll docs) (done_as true r)) x' y' ∧ holds_index s' x' y'.
Proof.
  intros Hdocs Hf Hroom. destruct (decide (docs = [])) as [->|Hne].
  { exists x, y. split; [by apply (is_idle x y (CPutAll []))|]. by exists m, p. }
  destruct Hx as (Hix & Hok & Hu).
  destruct (put_documents_leads m (st_docs x) Hix Hok docs f Hne Hdocs) as [[e Hl]|(Hall & Hlen & Hok' & Hl)];
    destruct (Hl s p Hs) as (s1 & -> & Hs1).
  - exists x, y. split; [apply is_refused|]. by exists m, p.
  - pose proof (batch_law _ f s1 m p Hs1 (Hroom x y Hh) Hf) as Hw. cbn [batch_of] in Hw. destruct (eng_write_batch _ f s1) as [r s2].
    apply (change_wrote (CPutAll docs) _ s2 m p x y r) in Hw; [done..| |].
    + destruct (bulk_indexed m (st_docs x) docs Hix Hok Hm Hall ltac:(lia)) as [Hi Hk]. split_and!; [done | done|]. simpl. rewrite Hu.
      symmetry. apply user_part_ext; [done | by apply apply_ops_wf | done].
    + intros He. unfold bulk_batch, bulk_names in He. rewrite !fmap_app in He. by apply app_nil in He as [_ [_ ?]%app_nil].
Qed.
Lemma delete_document_step id f :
  id_ok id → fault_ok f → room_for s (CDelete id) →
  let '(r, s') := delete_document id f s in
  ∃ x' y', index_step x y (FChange (CDelete id) r) x' y' ∧ holds_index s' x' y'.
Proof.
  intros Hid Hf Hroom. assert (∀ d, None = Some d → doc_ok d) as Hdoc by naive_solver. destruct Hx as (Hix & Hok & Hu).
  destruct (om_get id (st_docs x)) as [doc|] eqn:Ho.
  - destruct (delete_document_leads m _ id None Hix Hok Hid Hdoc doc f Ho eq_refl) as [Hok' Hl].
    destruct (Hl s p Hs) as (s1 & -> & Hs1). pose proof (batch_law _ f s1 m p Hs1 (Hroom x y Hh) Hf) as Hw. cbn [batch_of] in Hw.
    unfold mbind, eff_bind. destruct (eng_write_batch _ f s1) as [r s2].
    apply (change_wrote (CDelete id) _ s2 m p x y r) in Hw; [|done..| |].
    + unfold change_result in Hw. rewrite Ho, bool_decide_true in Hw by done. by destruct r as [[]|e|].
    + by apply (shows_document m x id None).
    + intros He. unfold document_batch, update_names in He. rewrite fmap_app in He. by apply app_nil in He as [_ ?].
  - destruct (delete_document_missing m _ id Hix Hok Hid f Ho s p Hs) as (s1 & -> & Hs1). exists x, y. split; [|by exists m, p].
    pose proof (is_idle x y (CDelete id)) as Hidle. unfold change_result, idle in Hidle. rewrite Ho in Hidle.
    rewrite (bool_decide_false (is_Some None)) in Hidle by (by intros []). apply Hidle. by apply bool_decide_eq_true.
Qed.
Lemma user_step os (r : res unit) s' :
  existsb (λ o, reserved (op_key_of o)) os = false → wrote holds os m p (r, s') →
  ∃ x' y', index_step x y (FChange (CUser os) (done_as true r)) x' y' ∧ holds_index s' x' y'.
Proof.
  intros Hos Hw. apply (change_wrote (CUser os) os s' m p x y r) in Hw; try done.
  - simpl. by rewrite Hos.
  - by apply shows_user.
  - intros ->. by destruct x.
Qed.
End step.
Lemma fts_step_sim s e s' x y :
  holds_index s x y → fts_step s e s' → ∃ x' y', index_step x y e x' y' ∧ holds_index s' x' y'.
Proof.
  intros Hh Hst. pose proof Hh as (m & p & Hs & Hx & Hy & Hp). pose proof (holds_wf _ _ _ Hs) as Hm. pose proof Hx as (Hix & Hok & Hu).
  assert (∀ os, index_step x y (FChange (CUser os) (done_as true (Err reserved_error))) x y) as Hrf by (intros; apply is_refused).
  destruct Hst as [s f r s' Hr|s id doc f r s' Hid Hd Hf Hroom Hr|s docs f r s' Hdocs Hf Hroom Hr|s id f r s' Hid Hf Hroom Hr|s id r s' Hid Hr
    |s query limit r s' Hr|s query limit config r s' Hr|s key r s' Hr|s range r s' Hr|s key value f r s' Ha Hf Hr|s key f r s' Ha Hf Hr|s os f r s' Ha Hf Hr|s r Hr].
  - eapply (read_step _ _ FOpen); [done..| |done|apply is_open]. by eapply open_again.
  - pose proof (put_document_step s m p x y Hs Hx Hy Hp id doc f Hid Hd Hf Hroom) as Hst. by rewrite Hr in Hst.
  - pose proof (put_documents_step s m p x y Hs Hx Hy Hp docs f Hdocs Hf Hroom) as Hst. by rewrite Hr in Hst.
  - pose proof (delete_document_step s m p x y Hs Hx Hy Hp id f Hid Hf Hroom) as Hst. by rewrite Hr in Hst.
  - destruct Hid as (_ & _ & Hsi). eapply (read_step _ _ (FDocument id)); [done..| |done|apply is_document]. by apply get_document_ok.
  - eapply (read_step _ _ (FSearch query limit)); [done..| |done|apply is_search]. by apply search_ok.
  - eapply (read_step _ _ (FRanked query limit config)); [done..| |done|apply is_ranked]. by apply search_ranked_ok.
  - eapply (read_step _ _ (FGet key)); [done..| |done|apply is_get]. rewrite Hu. by apply get_reads.
  - eapply (read_step _ _ (FScan range)); [done..| |done|apply is_scan]. rewrite Hu. by apply scan_reads.
  - unfold put in Hr. destruct (reserved key) eqn:Hk; [injection Hr as <- <-; by exists x, y|].
    eapply user_step; [done..| |rewrite <- Hr; by apply put_law]. simpl. by rewrite Hk.
  - unfold delete in Hr. destruct (reserved key) eqn:Hk; [injection Hr as <- <-; by exists x, y|].
    eapply user_step; [done..| |rewrite <- Hr; by apply delete_law]. simpl. by rewrite Hk.
  - unfold write_batch in Hr. destruct (existsb _ os) eqn:Hk; [injection Hr as <- <-; by exists x, y|].
    eapply user_step; [done..|]. rewrite <- Hr. by apply batch_law.
  - destruct (restart_law s m p r Hs Hr) as (s' & -> & Hs'). exists y, y. split; [apply is_restart|].
    by exists (apply_ops p m), [].
Qed.
Lemma fts_steps_sim s es s' :
  fts_steps s es s' → ∀ x y, holds_index s x y → ∃ x' y', index_steps x y es x' y' ∧ holds_index s' x' y'.
Proof.
  induction 1 as [s|s e s1 es s2 Hst Hsts IH]; intros x y Hh; [exists x, y; by split; [constructor|]|].
  destruct (fts_step_sim s e s1 x y Hh Hst) as (x1 & y1 & Hs1 & Hh1). destruct (IH x1 y1 Hh1) as (x2 & y2 & Hs2 & Hh2).
  exists x2, y2. split; [by econstructor | done].
Qed.
Lemma open_holds s0 m0 f0 s :
  holds s0 m0 [] → user_part m0 = m0 → fault_ok f0 → admissible open_batch → open f0 s0 = (Ok tt, s) →
  holds_index s (mkStore [] m0) (mkStore [] m0).
Proof.
  intros Hs Hu Hf Ha Ho. pose proof (holds_wf _ _ _ Hs) as Hm. destruct (open_fresh m0 f0 Hm Hu s0 [] Hs) as (s1 & He & Hs1).
  rewrite He in Ho. pose proof (batch_law _ f0 s1 m0 [] Hs1 Ha Hf) as Hw. rewrite Ho in Hw. destruct Hw as [[? _]|[_ Hw]]; [done|].
  destruct (open_batch_indexed m0 Hm Hu) as [Hi Hu']. exists (apply_ops open_batch m0), [].
  assert (shows (apply_ops open_batch m0) (mkStore [] m0)); [|done]. split_and!; [done | apply docs_ok_nil | done].
Qed.

(** What is shown determines the documents. *)
Lemma indexed_docs m D D' : indexed m D → indexed m D' → docs_ok D → docs_ok D' → D = D'.
Proof.
  intros Hi Hi' Hok Hok'. apply om_ext; [apply Hok | apply Hok'|]. intros id. destruct (decide (short id)) as [Hs|Hs].
  - pose proof (ix_value _ _ Hi (RDocument id) Hs) as E. by rewrite (ix_value _ _ Hi' (RDocument id) Hs) in E.
  - assert (∀ D, docs_ok D → om_get id D = None) as Hn; [|by rewrite !Hn].
    intros X HX. destruct (om_get id X) as [doc|] eqn:E; [|done]. by destruct (get_doc X id doc HX E) as [(_ & _ & ?) _].
Qed.
Lemma room_for_docs s x y c : holds_index s x y → admissible (batch_of c x) → room_for s c.
Proof.
  intros (m & p & Hs & (Hi & Hok & _) & _) Ha x' y' (m' & p' & Hs' & (Hi' & Hok' & _) & _).
  rewrite <- (holds_unique _ _ _ _ _ Hs Hs') in Hi'. pose proof (indexed_docs m _ _ Hi Hi' Hok Hok') as He.
  destruct c; cbn [batch_of] in *; by rewrite <- ?He.
Qed.

(** C12.  Full-text search is correct over any engine that honours its contract:
    opened on a store with no reserved keys, the index starts empty beside
    the user's map, and every sequence of puts of one or many documents, deletions,
    lookups, searches, ranked searches, reopenings, restarts and user operations, with failing
    writes among them, has the results the documents and the map give.  A
    search answers with the matching documents in the order of their ids, cut
    at the limit, or with the error its query deserves; user operations never
    see or touch the records of the index; a write that fails has no effect,
    or, after a restart, its whole effect; nothing panics. *)
Theorem fts_refines_documents m0 f0 s0 s es s' :
  holds s0 m0 [] → user_part m0 = m0 → fault_ok f0 → admissible open_batch → open f0 s0 = (Ok tt, s) →
  fts_steps s es s' →
  ∃ x y, index_steps (mkStore [] m0) (mkStore [] m0) es x y ∧ holds_index s' x y.
Proof.
  intros Hs Hu Hf Ha Ho Hst. pose proof (open_holds s0 m0 f0 s Hs Hu Hf Ha Ho) as Hh. by apply (fts_steps_sim s es s').
Qed.

End refinement.
