(* ===== verification/KVEngine.v ===== *)
(** * The storage engine honours the engine interface

    [impl AsyncKVEngine for KV2] of [src/src/storage/kv2.rs], and the proof
    that it keeps the contract of [Api]; with it the theorems of the layers
    above hold of the storage engine. *)

From stdpp Require Import sets sorting.
From Stdlib Require Import Sorted.
From S2P Require Import Prelude Bytes OrdMap Search Record Block Bloom Index Footer LegacyBlock SSTable Preflight.
From S2P Require Import WalFormat WalAnalysis Wal WalCrash WalRefine Manifest ManifestTheory Admission Config Store Read.
From S2P Require Import ReadTheory Tables Write WriteTheory Compaction CompactionTheory Root Engine OpenTheory EngineTheory KVTheory Api KVRefine.
From S2P Require Import Unicode Fts FtsTheory FtsIndexTheory FtsSearch FtsBulk FtsRank FtsRefine.

#[export] Instance kv2_engine `{Crc32, FastBloom} : AsyncKVEngine KV2.t := {|
  write_fault := KV2.WriteFaults;
  eng_get := KV2.get;
  eng_put := KV2.put;
  eng_delete := KV2.delete;
  eng_write_batch := KV2.write_batch;
  eng_await_pending_writes := mret tt;
  eng_scan := KV2.scan
|}.

Section engine.
Context `{Crc32Spec, FastBloomSpec, Hshape : !FastBloomShape}.
Variables (U : MemtableRecord.t → Prop) (rate : f64).
Hypothesis HU : ∀ r, U r → recordable r.
Hypothesis Hroom : roomy rate U.
Implicit Types (s : KV2.t) (m : ordmap bytes bytes) (os p : list BatchOperation).

Definition kv2_holds s m p : Prop := sim U rate s (mkSpec m p).
Definition kv2_restarted s (r : res KV2.t) : Prop :=
  ∃ base ex config token,
    plain_root ex ∧ utf8_valid (path_join base SSTABLE_DIR) = true ∧
    StorageConfig.bloom_false_positive_rate config = rate ∧
    len (ManifestManager.file (WriteComponent.manifest (KV2.write_component s))) <= u64_max ∧
    r = KV2.open base (root_of ex s) config token.

Lemma kv2_writes os f s m p :
  kv2_holds s m p → ops_ok U os → flush_clean (KV2.wf_flush f) → wrote kv2_holds os m p (KV2.write_batch os f s).
Proof.
  intros Hs Hok Hf. destruct (sim_write U rate HU Hroom s os f (mkSpec m p) Hs Hok Hf) as (st & Hst & Hsim).
  destruct (KV2.write_batch os f s) as [[[]|e|] s']; cbn [fst snd] in *; inversion Hst; subst; unfold wrote, kv2_holds; auto.
Qed.
Lemma kv2_reads {A} (ev : res A → kv_event) (q : eff KV2.t A) (a : res A) s m p :
  kv2_holds s m p → (∀ r s', q s = (r, s') → kv_step U rate s (ev r) s') →
  (∀ r st', spec_step (mkSpec m p) (ev r) st' → r = a ∧ st' = mkSpec m p) →
  ∃ s', q s = (a, s') ∧ kv2_holds s' m p.
Proof.
  intros Hs Hq Ha. destruct (q s) as [r s'] eqn:E.
  destruct (sim_step U rate HU Hroom s (ev r) s' (mkSpec m p) (Hq r s' eq_refl) Hs) as (st' & Hst & Hs').
  destruct (Ha r st' Hst) as [-> ->]. by exists s'.
Qed.
#[local] Instance kv2_spec : AsyncKVEngineSpec KV2.t.
Proof.
  refine {| holds := kv2_holds; admissible := ops_ok U; fault_ok := λ f, flush_clean (KV2.wf_flush f); restarted := kv2_restarted |}.
  - intros s m p (hist & pend & seq & _ & [Hw _] & _). exact Hw.
  - intros k s m p Hs. apply (kv2_reads (EGet k)); [done | by intros; constructor|]. intros r st' Hst. by inversion Hst.
  - intros range s m p Hs. apply (kv2_reads (EScan range)); [done | by intros; constructor|]. intros r st' Hst. by inversion Hst.
  - intros s m p Hs. by exists s.
  - intros k v f s m p Hs Ha Hf. by apply (kv2_writes [BatchPut k v]).
  - intros k f s m p Hs Ha Hf. by apply (kv2_writes [BatchDelete k]).
  - intros os f s m p Hs Ha Hf. by apply kv2_writes.
  - intros s m p r Hs (base & ex & config & token & Hex & Hd & Hc & Hl & ->).
    exact (sim_restart U rate s base ex config token (mkSpec m p) Hs Hex Hd Hc Hl).
Defined.
End engine.

(** Batches over a small universe are admissible. *)
Definition small_op (ks : list bytes) (bound : Z) (o : BatchOperation) : bool :=
  bool_decide (op_key_of o ∈ ks) && negb (bool_decide (op_key_of o = [])) &&
  (17 + len (op_key_of o) + len (default [] (op_result o)) <=? bound).
Lemma small_ops ks bound os :
  bound <= u32_max → forallb (small_op ks bound) os = true → ops_ok (small_record ks bound) os.
Proof.
  intros Hb Hf o lsn Ho Hl. rewrite forallb_forall in Hf. specialize (Hf o (proj1 (list_elem_of_In _ _) Ho)). unfold small_op in Hf.
  apply andb_true_iff in Hf as [[Hk Hne]%andb_true_iff Hs%Z.leb_le]. apply bool_decide_eq_true in Hk.
  apply negb_true_iff, bool_decide_eq_false in Hne.
  pose proof (len_nonneg (op_key_of o)). pose proof (len_nonneg (default [] (op_result o))).
  assert (rec_size (rec_of (command_of o lsn)) <= bound) as Hsz by (unfold rec_size, MemtableRecord.record_length; destruct o; simpl in *; lia).
  split; [split; [split; [|unfold rec_size in Hsz; lia]|]|split; [|done]].
  - destruct o; simpl in *; (split_and!; [apply Hl..| |]); simpl; lia.
  - by destruct o.
  - by destruct o.
Qed.

(** ** A document whose write failed is there, whole, after the restart *)

Definition fts_config : StorageConfig.t := StorageConfig.mk 4096 4096 1 1000 1000 10 (1024 * 1024) f64_001 64.
Definition fts_kv_open (root : RootDisk) : res KV2.t := @KV2.open ieee toy_fastbloom [x64] root fts_config 7.
Definition fts_engine : AsyncKVEngine KV2.t := @kv2_engine ieee toy_fastbloom.
Definition fts_torn : KV2.WriteFaults := KV2.mkWriteFaults None (Some (OtherIo, 5000%nat)) no_faults.
Definition fts_id : bytes := [x61].
Definition fts_doc : bytes := bytes_of_string "Hi hi".
Definition fts_query : FtsQuery := And [bytes_of_string "HI"].
Definition fts_s0 : KV2.t := Eval vm_compute in kv_state (fts_kv_open (fresh_root kv_none)).
Definition fts_s1 : KV2.t := Eval vm_compute in (@FtsIndex.open KV2.t fts_engine kv_fine fts_s0).2.
Definition fts_s2 : KV2.t := Eval vm_compute in
  (@FtsIndex.put_document KV2.t ascii_unicode fts_engine fts_id fts_doc fts_torn fts_s1).2.
Definition fts_s3 : KV2.t := Eval vm_compute in (@FtsIndex.search KV2.t ascii_unicode fts_engine fts_query 10 fts_s2).2.
Definition fts_s4 : KV2.t := Eval vm_compute in kv_state (fts_kv_open (root_of kv_none fts_s3)).
Definition fts_s5 : KV2.t := Eval vm_compute in (@FtsIndex.open KV2.t fts_engine kv_fine fts_s4).2.
Definition fts_s6 : KV2.t := Eval vm_compute in (@FtsIndex.search KV2.t ascii_unicode fts_engine fts_query 10 fts_s5).2.
Definition fts_events : list fts_event :=
  [FChange (CPut fts_id fts_doc) (Err (IO OtherIo)); FSearch fts_query 10 (Ok []); FRestart true; FOpen (Ok tt);
   FSearch fts_query 10 (Ok [mkSearchHit fts_id fts_doc])].

(** A stand-in for the logarithm. *)
Definition fts_ln : NaturalLog := λ x, x.
Definition fts_ranked : res (list RankedSearchHit) * KV2.t := Eval vm_compute in
  @FtsRanked.search_ranked KV2.t ascii_unicode fts_ln fts_engine fts_query 10 Bm25Config.default_config fts_s6.
Definition fts_batch : list BatchOperation := Eval vm_compute in
  @document_batch ascii_unicode [] fts_id (Some fts_doc).
Definition fts_universe : MemtableRecord.t → Prop :=
  small_record (op_key_of <$> (open_batch ++ fts_batch)) 200.
Lemma fts_universe_ok r : fts_universe r → recordable r.
Proof. by intros [? _]. Qed.
Lemma fts_universe_roomy : @roomy toy_fastbloom f64_001 fts_universe.
Proof.
  apply (small_roomy _ 200 44); [lia | | vm_compute; discriminate]. intros n rs. unfold BloomFilterWrapper.encode.
  rewrite !len_app, !len_to_be. simpl. rewrite app_nil_r, len_to_be. vm_compute. discriminate.
Qed.
Definition fts_spec : @AsyncKVEngineSpec KV2.t fts_engine :=
  @kv2_spec ieee ieee_spec toy_fastbloom toy_fastbloom_spec toy_fastbloom_shape fts_universe f64_001 fts_universe_ok fts_universe_roomy.

Lemma fts_holds0 : @holds KV2.t fts_engine fts_spec fts_s0 [] [].
Proof.
  apply (@sim_fresh ieee ieee_spec toy_fastbloom toy_fastbloom_spec fts_universe f64_001 [x64] kv_none fts_config 7 fts_s0);
    [apply kv_plain | reflexivity | reflexivity | vm_compute; reflexivity].
Qed.
Lemma fts_opens : @FtsIndex.open KV2.t fts_engine kv_fine fts_s0 = (Ok tt, fts_s1).
Proof. vm_compute. reflexivity. Qed.
Lemma fts_open_room : @admissible KV2.t fts_engine fts_spec open_batch.
Proof. apply small_ops; [done | vm_compute; reflexivity]. Qed.
Lemma fts_room : @room_for KV2.t ascii_unicode fts_engine fts_spec fts_s1 (CPut fts_id fts_doc).
Proof.
  pose proof (@open_holds KV2.t ascii_unicode fts_engine fts_spec fts_s0 [] kv_fine fts_s1 fts_holds0 eq_refl ltac:(done)
    fts_open_room fts_opens) as Hh.
  apply (room_for_docs _ _ _ _ Hh). replace (batch_of _ _) with fts_batch by (vm_compute; reflexivity).
  apply small_ops; [done | vm_compute; reflexivity].
Qed.
Lemma fts_id_ok : id_ok fts_id.
Proof. split_and!; done. Qed.
Lemma fts_doc_ok : @doc_ok ascii_unicode fts_doc.
Proof.
  split; [done | done|]. intros e He. apply list_elem_of_In in He. vm_compute in He. destruct He as [<-|[]]. done.
Qed.
Lemma fts_steps_sample : @fts_steps KV2.t ascii_unicode fts_ln fts_engine fts_spec fts_s1 fts_events fts_s6.
Proof.
  apply (fts_cons _ _ fts_s2).
  { apply (@fs_put KV2.t ascii_unicode fts_ln fts_engine fts_spec _ _ _ fts_torn (Err (IO OtherIo))); [apply fts_id_ok | intros _; apply fts_doc_ok | done | apply fts_room | vm_compute; reflexivity]. }
  apply (fts_cons _ _ fts_s3); [apply fs_search; vm_compute; reflexivity|].
  apply (fts_cons _ _ fts_s4).
  { apply (@fs_restart KV2.t ascii_unicode fts_ln fts_engine fts_spec fts_s3 (Ok fts_s4)). exists [x64], kv_none, fts_config, 7.
    split_and!; [apply kv_plain | reflexivity | reflexivity | vm_compute; discriminate | vm_compute; reflexivity]. }
  apply (fts_cons _ _ fts_s5); [apply (@fs_open KV2.t ascii_unicode fts_ln fts_engine fts_spec _ kv_fine); vm_compute; reflexivity|].
  apply (fts_cons _ _ fts_s6); [apply fs_search; vm_compute; reflexivity | constructor].
Qed.
Lemma fts_refines_documents_witness :
  ∃ x y, @index_steps ascii_unicode fts_ln (mkStore [] []) (mkStore [] []) fts_events x y ∧
    @holds_index KV2.t ascii_unicode fts_engine fts_spec fts_s6 x y.
Proof.
  exact (@fts_refines_documents KV2.t ascii_unicode ascii_unicode_spec fts_ln fts_engine fts_spec [] kv_fine fts_s0 fts_s1 fts_events fts_s6
    fts_holds0 eq_refl (conj I (conj I I)) fts_open_room fts_opens fts_steps_sample).
Defined.
