(* ===== verification/Command.v ===== *)
(** * Commands: [src/src/command.rs]

    The tokenizer and the parser of command lines, and the execution of
    commands on an engine.  The operations an engine offers to commands are a
    record; an engine without full-text search answers its document commands
    with an error. *)

From S2P Require Import Prelude Bytes OrdMap Manifest Bloom Unicode Store Read Admission Api Fts FtsRank.

Abbreviation str := bytes_of_string.

(** ** Commands and responses *)

Inductive Command : Type :=
| Set_ (key value : bytes)
| Get (key : bytes)
| Delete_ (key : bytes)
| Batch (operations : list BatchOperation)
| DocumentPut (id text : bytes)
| DocumentGet (id : bytes)
| DocumentDelete (id : bytes)
| Search_ (query : FtsQuery)
| RankedSearch (query : FtsQuery)
| Exit.
Inductive Response : Type :=
| ROk
| Value (value : bytes)
| Nil
| Document (document : option bytes)
| SearchResults (hits : list SearchHit)
| RankedSearchResults (hits : list RankedSearchHit)
| Bye.
Inductive ParseError : Type :=
| Empty
| UnterminatedQuotedValue
| UnknownCommand (command : bytes)
| InvalidArity (command : bytes) (expected : string).
Inductive parsed (A : Type) : Type :=
| Parsed (a : A)
| Failed (e : ParseError).
Arguments Parsed {A} a.
Arguments Failed {A} e.

(** ** The tokenizer *)

Section parser.
Context `{Unicode}.

Record tokenizer : Type := mkTokenizer {
  tokens : list bytes;
  current : bytes;
  quote_char : option bytes;
  escape : bool;
  started_quote : bool
}.
Definition DOUBLE_QUOTE : bytes := [x22].
Definition SINGLE_QUOTE : bytes := [x27].
Definition BACKSLASH : bytes := [x5c].
Definition tokenize_step (t : tokenizer) (ch : bytes) : tokenizer :=
  match quote_char t with
  | Some active_quote =>
      if escape t then mkTokenizer (tokens t) (current t ++ ch) (quote_char t) false (started_quote t)
      else if bool_decide (ch = BACKSLASH) then mkTokenizer (tokens t) (current t) (quote_char t) true (started_quote t)
      else if bool_decide (ch = active_quote) then mkTokenizer (tokens t ++ [current t]) [] None (escape t) false
      else mkTokenizer (tokens t) (current t ++ ch) (quote_char t) (escape t) (started_quote t)
  | None =>
      let flushed := if bool_decide (current t = []) then tokens t else tokens t ++ [current t] in
      if bool_decide (ch = DOUBLE_QUOTE) || bool_decide (ch = SINGLE_QUOTE)
      then mkTokenizer flushed [] (Some ch) (escape t) true
      else if is_whitespace ch then mkTokenizer flushed [] None (escape t) (started_quote t)
      else mkTokenizer (tokens t) (current t ++ ch) None (escape t) (started_quote t)
  end.
Definition tokenize (input : bytes) : parsed (list bytes) :=
  let t := foldl tokenize_step (mkTokenizer [] [] None false false) (trim_chars input) in
  if bool_decide (is_Some (quote_char t)) || escape t || started_quote t then Failed UnterminatedQuotedValue
  else Parsed (if bool_decide (current t = []) then tokens t else tokens t ++ [current t]).

(** ** The parser *)

Definition is_word (token : bytes) (word : string) : bool := bool_decide (str_to_uppercase token = str word).
Definition BATCH_USAGE : string := "BATCH SET <key> <value> [DELETE <key> ...]".
(** The loop over the operations of a batch. *)
Fixpoint parse_batch (fuel : nat) (tokens : list bytes) (operations : list BatchOperation) : parsed (list BatchOperation) :=
  match fuel, tokens with
  | S fuel, word :: rest =>
      if is_word word "SET" then
        match rest with
        | key :: value :: rest => parse_batch fuel rest (operations ++ [BatchPut key value])
        | _ => Failed (InvalidArity (str "BATCH") BATCH_USAGE)
        end
      else if is_word word "DELETE" then
        match rest with
        | key :: rest => parse_batch fuel rest (operations ++ [BatchDelete key])
        | _ => Failed (InvalidArity (str "BATCH") BATCH_USAGE)
        end
      else Failed (InvalidArity (str "BATCH") BATCH_USAGE)
  | _, _ => Parsed operations
  end.
Definition parse_doc (args : list bytes) : parsed Command :=
  match args with
  | [] => Failed (InvalidArity (str "DOC") "DOC PUT <id> <text>, DOC GET <id>, or DOC DELETE <id>")
  | kind :: args =>
      if is_word kind "PUT" then
        match args with
        | [id; text] => Parsed (DocumentPut id text)
        | _ => Failed (InvalidArity (str "DOC PUT") "DOC PUT <id> <text>")
        end
      else if is_word kind "GET" then
        match args with
        | [id] => Parsed (DocumentGet id)
        | _ => Failed (InvalidArity (str "DOC GET") "DOC GET <id>")
        end
      else if is_word kind "DELETE" then
        match args with
        | [id] => Parsed (DocumentDelete id)
        | _ => Failed (InvalidArity (str "DOC DELETE") "DOC DELETE <id>")
        end
      else Failed (InvalidArity (str "DOC") "DOC PUT <id> <text>, DOC GET <id>, or DOC DELETE <id>")
  end.
(** [tokens.join(" ")]. *)
Fixpoint join_spaces (tokens : list bytes) : bytes :=
  match tokens with
  | [] => []
  | [token] => token
  | token :: tokens => token ++ [x20] ++ join_spaces tokens
  end.
Definition RANK_USAGE : string := "FTS RANK AND <query> or FTS RANK OR <query>".
Definition FTS_USAGE : string := "FTS AND <query> or FTS OR <query>".
Definition parse_fts (args : list bytes) : parsed Command :=
  match args with
  | kind :: rest =>
      if is_word kind "RANK" then
        match rest with
        | [how; text] =>
            if is_word how "AND" then Parsed (RankedSearch (And [text]))
            else if is_word how "OR" then Parsed (RankedSearch (Or [text]))
            else Failed (InvalidArity (str "FTS RANK") RANK_USAGE)
        | _ => Failed (InvalidArity (str "FTS RANK") RANK_USAGE)
        end
      else
        match rest with
        | [] => Failed (InvalidArity (str "FTS") FTS_USAGE)
        | _ =>
            let text := join_spaces rest in
            if is_word kind "AND" then Parsed (Search_ (And [text]))
            else if is_word kind "OR" then Parsed (Search_ (Or [text]))
            else Failed (InvalidArity (str "FTS") FTS_USAGE)
        end
  | [] => Failed (InvalidArity (str "FTS") FTS_USAGE)
  end.
Definition parse_tokens (tokens : list bytes) : parsed Command :=
  match tokens with
  | [] => Failed Empty
  | keyword :: args =>
      if is_word keyword "SET" then
        match args with
        | [key; value] => Parsed (Set_ key value)
        | _ => Failed (InvalidArity (str "SET") "SET <key> <value>")
        end
      else if is_word keyword "GET" then
        match args with
        | [key] => Parsed (Get key)
        | _ => Failed (InvalidArity (str "GET") "GET <key>")
        end
      else if is_word keyword "DELETE" || is_word keyword "DEL" then
        match args with
        | [key] => Parsed (Delete_ key)
        | _ => Failed (InvalidArity (str_to_uppercase keyword) "DELETE <key> (or DEL <key>)")
        end
      else if is_word keyword "BATCH" then
        match args with
        | _ :: _ :: _ =>
            match parse_batch (length args) args [] with
            | Failed e => Failed e
            | Parsed [] => Failed (InvalidArity (str "BATCH") BATCH_USAGE)
            | Parsed operations => Parsed (Batch operations)
            end
        | _ => Failed (InvalidArity (str "BATCH") BATCH_USAGE)
        end
      else if is_word keyword "DOC" then parse_doc args
      else if is_word keyword "FTS" then parse_fts args
      else if is_word keyword "EXIT" || is_word keyword "QUIT" then Parsed Exit
      else Failed (UnknownCommand keyword)
  end.
Definition parse_command (input : bytes) : parsed Command :=
  match tokenize input with
  | Failed e => Failed e
  | Parsed tokens => parse_tokens tokens
  end.
End parser.

(** ** Execution *)

Definition unsupported_fts : DBError :=
  StorageError "document and full-text search commands are unsupported by this engine".

(** What an engine of type [S] offers to commands; [F] is what the disk may do
    to a write. *)
Record FtsCommandEngine (S F : Type) : Type := mkCommandEngine {
  ce_get : bytes → eff S (option bytes);
  ce_put : bytes → bytes → F → eff S unit;
  ce_delete : bytes → F → eff S unit;
  ce_write_batch : list BatchOperation → F → eff S unit;
  ce_put_document : bytes → bytes → F → eff S unit;
  ce_get_document : bytes → eff S (option bytes);
  ce_delete_document : bytes → F → eff S bool;
  ce_search : FtsQuery → Z → eff S (list SearchHit);
  ce_search_ranked : FtsQuery → Z → Bm25Config.t → eff S (list RankedSearchHit)
}.
Arguments ce_get {S F}. Arguments ce_put {S F}. Arguments ce_delete {S F}. Arguments ce_write_batch {S F}.
Arguments ce_put_document {S F}. Arguments ce_get_document {S F}. Arguments ce_delete_document {S F}.
Arguments ce_search {S F}. Arguments ce_search_ranked {S F}.

(** The default methods: an engine without an index ([KV2], [RaftKV2]). *)
Definition plain_commands (S : Type) `{AsyncKVEngine S} : FtsCommandEngine S write_fault :=
  mkCommandEngine S write_fault eng_get eng_put eng_delete eng_write_batch
    (λ _ _ _, pure_eff (Err unsupported_fts)) (λ _, pure_eff (Err unsupported_fts))
    (λ _ _, pure_eff (Err unsupported_fts)) (λ _ _, pure_eff (Err unsupported_fts))
    (λ _ _ _, pure_eff (Err unsupported_fts)).
(** [impl FtsCommandEngine for FtsIndex]. *)
Definition index_commands (S : Type) `{Unicode, NaturalLog, AsyncKVEngine S} : FtsCommandEngine S write_fault :=
  mkCommandEngine S write_fault FtsIndex.get FtsIndex.put FtsIndex.delete FtsIndex.write_batch
    FtsIndex.put_document FtsIndex.get_document FtsIndex.delete_document FtsIndex.search FtsRanked.search_ranked.

Definition value_response (value : option bytes) : Response :=
  match value with Some value => Value (from_utf8_lossy value) | None => Nil end.
Definition execute_command_async {S F} (engine : FtsCommandEngine S F) (command : Command) (f : F) : eff S Response :=
  match command with
  | Set_ key value => _ ← ce_put engine key value f; mret ROk
  | Get key => value ← ce_get engine key; mret (value_response value)
  | Delete_ key => _ ← ce_delete engine key f; mret ROk
  | Batch operations => _ ← ce_write_batch engine operations f; mret ROk
  | DocumentPut id text =>
      id ← pure_eff (DocumentId.new id);
      _ ← ce_put_document engine id text f;
      mret ROk
  | DocumentGet id =>
      id ← pure_eff (DocumentId.new id);
      document ← ce_get_document engine id;
      mret (Document document)
  | DocumentDelete id =>
      id ← pure_eff (DocumentId.new id);
      _ ← ce_delete_document engine id f;
      mret ROk
  | Search_ query => hits ← ce_search engine query 100; mret (SearchResults hits)
  | RankedSearch query =>
      hits ← ce_search_ranked engine query 100 Bm25Config.default_config;
      mret (RankedSearchResults hits)
  | Exit => mret Bye
  end.

(** The synchronous trait and its executor. *)
Record KVEngine (S F : Type) : Type := mkKVEngine {
  kv_get : bytes → eff S (option bytes);
  kv_put : bytes → bytes → F → eff S unit;
  kv_delete : bytes → F → eff S unit;
  kv_write_batch : list BatchOperation → F → eff S unit
}.
Arguments kv_get {S F}. Arguments kv_put {S F}. Arguments kv_delete {S F}. Arguments kv_write_batch {S F}.
(** The default of [write_batch]. *)
Definition default_write_batch {S F} (_ : list BatchOperation) (_ : F) : eff S unit := pure_eff (Err unsupported_batch).
Definition execute_command {S F} (engine : KVEngine S F) (command : Command) (f : F) : eff S Response :=
  match command with
  | Set_ key value => _ ← kv_put engine key value f; mret ROk
  | Get key => value ← kv_get engine key; mret (value_response value)
  | Delete_ key => _ ← kv_delete engine key f; mret ROk
  | Batch operations => _ ← kv_write_batch engine operations f; mret ROk
  | DocumentPut _ _ | DocumentGet _ | DocumentDelete _ | Search_ _ | RankedSearch _ => pure_eff (Err unsupported_fts)
  | Exit => mret Bye
  end.
