(* ===== verification/CommandTheory.v ===== *)
(** * The command language

    Every command has a line that parses to it, with its strings in quotes,
    and only such commands are ever parsed. *)

From stdpp Require Import sets.
From S2P Require Import Prelude Bytes OrdMap Manifest Bloom Unicode Store Read Admission Api Fts FtsRank Command.

(** What the parser relies on of the character tables: the ASCII part. *)
Class UnicodeAscii `{Unicode} : Prop := {
  ascii_whitespace : ∀ b, bz b <= 127 → is_whitespace [b] = ((9 <=? bz b) && (bz b <=? 13) || (bz b =? 32));
  ascii_uppercase : ∀ s, Forall (λ b, bz b <= 127) s → str_to_uppercase s = upper_byte <$> s
}.
Lemma ascii_unicode_ascii : @UnicodeAscii ascii_unicode.
Proof. split; [intros b _; by destruct b | done]. Qed.

(** ** Characters of concatenations *)

Lemma chars_app x y : utf8_valid x = true → chars (x ++ y) = chars x ++ chars y.
Proof.
  induction x as [x IH] using utf8_ind. intros Hx. destruct x as [|a x]; [done|]. cbn [app chars utf8_valid] in *.
  destruct (bz a <=? 127); [cbn [app]; by rewrite IH by (done || simpl; lia)|].
  destruct x as [|b x]; [done|]. cbn [app]. destruct ((194 <=? bz a) && (bz a <=? 223)) eqn:H2.
  { apply andb_true_iff in H2 as [_ ->]. apply andb_true_iff in Hx as [_ Hx]. cbn [app]. by rewrite IH by (done || simpl; lia). }
  destruct x as [|c x]; [done|]. cbn [app]. destruct ((224 <=? bz a) && (bz a <=? 239)) eqn:H3.
  { apply andb_true_iff in H3 as [Hlo ->]. apply Z.leb_le in Hlo. rewrite (proj2 (Z.leb_gt _ _)) by lia.
    rewrite !andb_true_iff in Hx. destruct Hx as [_ Hx]. cbn [app]. by rewrite IH by (done || simpl; lia). }
  destruct x as [|d x]; [done|]. cbn [app]. rewrite !andb_true_iff in Hx. destruct Hx as [[[[[[[Hlo _] _] _] _] _] _] Hx].
  apply Z.leb_le in Hlo. rewrite !(proj2 (Z.leb_gt _ _)) by lia. cbn [app]. by rewrite IH by (done || simpl; lia).
Qed.
(** One character of a string. *)
Definition one_char (c : bytes) : Prop := utf8_valid c = true ∧ chars c = [c].
Lemma chars_one s : utf8_valid s = true → Forall one_char (chars s).
Proof.
  induction s as [s IH] using utf8_ind. intros Hs. destruct s as [|a s]; [constructor|]. cbn [chars utf8_valid] in *.
  destruct (bz a <=? 127) eqn:Ha; [constructor; [by split; simpl; rewrite Ha | apply IH; [simpl; lia | done]]|].
  destruct s as [|b s]; [done|]. destruct ((194 <=? bz a) && (bz a <=? 223)) eqn:H2.
  { pose proof H2 as [_ H2']%andb_true_iff. rewrite H2'. apply andb_true_iff in Hs as [Hb Hs].
    constructor; [split; cbn [utf8_valid chars]; by rewrite Ha, ?H2, ?H2', ?Hb | apply IH; [simpl; lia | done]]. }
  destruct s as [|c s]; [done|]. destruct ((224 <=? bz a) && (bz a <=? 239)) eqn:H3.
  { pose proof H3 as [Hlo H3']%andb_true_iff. assert ((bz a <=? 223) = false) as H2' by (apply Z.leb_le in Hlo; apply Z.leb_gt; lia).
    rewrite H2', H3'. apply andb_true_iff in Hs as [Hb Hs].
    constructor; [split; cbn [utf8_valid chars]; by rewrite Ha, ?H2, ?H2', ?H3, ?H3', ?Hb | apply IH; [simpl; lia | done]]. }
  destruct s as [|d s]; [done|]. apply andb_true_iff in Hs as [Hb Hs].
  assert (240 <= bz a) as Hlo by (rewrite !andb_true_iff in Hb; apply Z.leb_le, Hb).
  assert ((bz a <=? 223) = false) as H2' by (apply Z.leb_gt; lia).
  assert ((bz a <=? 239) = false) as H3' by (apply Z.leb_gt; lia). rewrite H2', H3'.
  constructor; [split; cbn [utf8_valid chars]; by rewrite Ha, ?H2, ?H2', ?H3, ?H3', ?Hb | apply IH; [simpl; lia | done]].
Qed.
Lemma chars_of l : Forall one_char l → chars (concat l) = l ∧ utf8_valid (concat l) = true.
Proof.
  induction 1 as [|c l [Hu Hc] Hl [IH IHu]]; [done|]. cbn [concat]. rewrite chars_app, Hc, IH by done. split; [done | by apply utf8_app].
Qed.

(** ** Printing *)

Definition escape_char (c : bytes) : list bytes :=
  if bool_decide (c = BACKSLASH) || bool_decide (c = DOUBLE_QUOTE) then [BACKSLASH; c] else [c].
(** A line is made of words, which are in capital letters, and of strings,
    which are quoted. *)
Inductive item : Type :=
| Word (w : string)
| Quoted (token : bytes).
Definition item_token (i : item) : bytes := match i with Word w => str w | Quoted token => token end.
Definition item_chars (i : item) : list bytes :=
  match i with
  | Word w => (λ b, [b]) <$> str w
  | Quoted token => [DOUBLE_QUOTE] ++ (chars token ≫= escape_char) ++ [DOUBLE_QUOTE]
  end.
Fixpoint line_chars (items : list item) : list bytes :=
  match items with
  | [] => []
  | [i] => item_chars i
  | i :: items => item_chars i ++ [x20] :: line_chars items
  end.
Definition print_line (items : list item) : bytes := concat (line_chars items).

Definition op_items (o : BatchOperation) : list item :=
  match o with
  | BatchPut key value => [Word "SET"; Quoted key; Quoted value]
  | BatchDelete key => [Word "DELETE"; Quoted key]
  end.
Definition query_items (query : FtsQuery) : list item :=
  match query with
  | And terms => [Word "AND"; Quoted (join_spaces terms)]
  | Or terms => [Word "OR"; Quoted (join_spaces terms)]
  end.
Definition command_items (c : Command) : list item :=
  match c with
  | Set_ key value => [Word "SET"; Quoted key; Quoted value]
  | Get key => [Word "GET"; Quoted key]
  | Delete_ key => [Word "DELETE"; Quoted key]
  | Batch operations => Word "BATCH" :: (operations ≫= op_items)
  | DocumentPut id text => [Word "DOC"; Word "PUT"; Quoted id; Quoted text]
  | DocumentGet id => [Word "DOC"; Word "GET"; Quoted id]
  | DocumentDelete id => [Word "DOC"; Word "DELETE"; Quoted id]
  | Search_ query => Word "FTS" :: query_items query
  | RankedSearch query => Word "FTS" :: Word "RANK" :: query_items query
  | Exit => [Word "EXIT"]
  end.
Definition print_command (c : Command) : bytes := print_line (command_items c).

Definition string_ok (s : bytes) : Prop := utf8_valid s = true.
Definition op_printable (o : BatchOperation) : Prop :=
  match o with BatchPut key value => string_ok key ∧ string_ok value | BatchDelete key => string_ok key end.
Definition query_printable (query : FtsQuery) : Prop := ∃ text, string_ok text ∧ (query = And [text] ∨ query = Or [text]).
Definition printable (c : Command) : Prop :=
  match c with
  | Set_ key value => string_ok key ∧ string_ok value
  | Get key | Delete_ key => string_ok key
  | Batch operations => operations ≠ [] ∧ Forall op_printable operations
  | DocumentPut id text => string_ok id ∧ string_ok text
  | DocumentGet id | DocumentDelete id => string_ok id
  | Search_ query | RankedSearch query => query_printable query
  | Exit => True
  end.

(** ** Tokenizing a printed line *)

Section tokenizer.
Context `{UnicodeAscii}.

Definition item_ok (i : item) : Prop :=
  match i with Word w => str w ≠ [] ∧ Forall (λ b, is_upper b = true) (str w) | Quoted token => string_ok token end.
Definition plain (ts : list bytes) (cur : bytes) : tokenizer := mkTokenizer ts cur None false false.
Definition flush (ts : list bytes) (cur : bytes) : list bytes := if bool_decide (cur = []) then ts else ts ++ [cur].

Lemma letter_char b :
  is_upper b = true → one_char [b] ∧ is_whitespace [b] = false ∧ [b] ≠ DOUBLE_QUOTE ∧ [b] ≠ SINGLE_QUOTE.
Proof.
  intros Hb. assert (bz b <= 127) as Hle by (unfold is_upper in Hb; apply andb_true_iff in Hb as [_ Hb%Z.leb_le]; lia).
  rewrite ascii_whitespace by done. by destruct b.
Qed.
Lemma ascii_char b : bz b <= 127 → one_char [b].
Proof. intros Hb. unfold one_char. cbn [utf8_valid chars]. by rewrite (proj2 (Z.leb_le _ _)). Qed.
Lemma quote_whitespace : is_whitespace DOUBLE_QUOTE = false.
Proof. unfold DOUBLE_QUOTE. by rewrite ascii_whitespace. Qed.
Lemma space_whitespace : is_whitespace [x20] = true.
Proof. by rewrite ascii_whitespace. Qed.

Lemma letter_step ts cur b : is_upper b = true → tokenize_step (plain ts cur) [b] = plain ts (cur ++ [b]).
Proof.
  intros Hb. destruct (letter_char b Hb) as (_ & Hs & Hd & Hq). unfold tokenize_step. cbn [plain quote_char].
  rewrite !bool_decide_false by done. by rewrite Hs.
Qed.
Lemma quote_step ts : tokenize_step (plain ts []) DOUBLE_QUOTE = mkTokenizer ts [] (Some DOUBLE_QUOTE) false true.
Proof. done. Qed.
Lemma word_run ts w : ∀ cur,
  Forall (λ b, is_upper b = true) w → foldl tokenize_step (plain ts cur) ((λ b, [b]) <$> w) = plain ts (cur ++ w).
Proof.
  induction w as [|b w IH]; intros cur Hw; [by rewrite app_nil_r|]. apply Forall_cons in Hw as [Hb Hw].
  rewrite fmap_cons. cbn [foldl]. rewrite letter_step, IH by done. by rewrite <- app_assoc.
Qed.
Lemma escaped_run ts cs : ∀ cur,
  foldl tokenize_step (mkTokenizer ts cur (Some DOUBLE_QUOTE) false true) (cs ≫= escape_char) =
  mkTokenizer ts (cur ++ concat cs) (Some DOUBLE_QUOTE) false true.
Proof.
  induction cs as [|c cs IH]; intros cur; [by rewrite app_nil_r|]. rewrite bind_cons, foldl_app. cbn [concat]. rewrite app_assoc, <- IH.
  f_equal. unfold escape_char. destruct (bool_decide (c = BACKSLASH)) eqn:Hb; [|destruct (bool_decide (c = DOUBLE_QUOTE)) eqn:Hd];
    cbn [orb foldl]; unfold tokenize_step; cbn [quote_char escape]; rewrite ?Hb, ?Hd; done.
Qed.
Lemma quoted_run ts token :
  foldl tokenize_step (plain ts []) (item_chars (Quoted token)) = plain (ts ++ [token]) [].
Proof.
  cbn [item_chars app foldl]. rewrite quote_step, foldl_app, escaped_run. cbn [app]. by rewrite chars_concat.
Qed.
Lemma space_run ts cur : tokenize_step (plain ts cur) [x20] = plain (flush ts cur) [].
Proof. unfold tokenize_step. cbn [plain quote_char current tokens]. by rewrite space_whitespace. Qed.
Lemma item_run ts i :
  item_ok i → ∃ ts' cur, foldl tokenize_step (plain ts []) (item_chars i) = plain ts' cur ∧ flush ts' cur = ts ++ [item_token i].
Proof.
  destruct i as [w|token]; intros Hi.
  - exists ts, (str w). destruct Hi as [Hne Hw]. cbn [item_chars]. rewrite word_run by done. split; [done|]. unfold flush.
    by rewrite bool_decide_false.
  - exists (ts ++ [token]), []. by rewrite quoted_run.
Qed.
Lemma line_run items : ∀ ts,
  Forall item_ok items →
  ∃ ts' cur, foldl tokenize_step (plain ts []) (line_chars items) = plain ts' cur ∧ flush ts' cur = ts ++ (item_token <$> items).
Proof.
  induction items as [|i items IH]; intros ts Hi; [exists ts, []; by rewrite app_nil_r|]. apply Forall_cons in Hi as [Hi His].
  destruct (item_run ts i Hi) as (ts1 & cur1 & Hr & Hf). destruct items as [|i2 items].
  - exists ts1, cur1. by split.
  - cbn [line_chars] in *. rewrite foldl_app, Hr. cbn [foldl]. rewrite space_run, Hf.
    destruct (IH (ts ++ [item_token i]) His) as (ts2 & cur2 & Hr2 & Hf2). exists ts2, cur2. split; [done|].
    rewrite Hf2, (fmap_cons item_token i), <- app_assoc. done.
Qed.

(** Neither end of a printed line is trimmed. *)
Definition edges (l : list bytes) : Prop :=
  (∃ c l', l = c :: l' ∧ is_whitespace c = false) ∧ ∃ l' c, l = l' ++ [c] ∧ is_whitespace c = false.
Lemma edges_app x y z : edges x → edges z → edges (x ++ y ++ z).
Proof.
  intros [(c & l & -> & Hc) _] [_ (l' & c' & -> & Hc')]. split; [by exists c, (l ++ y ++ l' ++ [c'])|].
  exists ((c :: l) ++ y ++ l'), c'. by rewrite !app_assoc.
Qed.
Lemma edges_word w : str w ≠ [] → Forall (λ b, is_upper b = true) (str w) → edges ((λ b, [b]) <$> str w).
Proof.
  generalize (str w) as l. intros l Hne Hl. assert (∀ b, b ∈ l → is_whitespace [b] = false) as Hw.
  { intros b Hb. rewrite Forall_forall in Hl. by apply letter_char, Hl. }
  split.
  - destruct l as [|b l]; [done|]. exists [b], ((λ b, [b]) <$> l). split; [done|]. apply Hw. by left.
  - induction l as [|b l _] using rev_ind; [done|]. exists ((λ b, [b]) <$> l), [b]. rewrite fmap_app. split; [done|]. apply Hw. set_solver.
Qed.
Lemma edges_item i : item_ok i → edges (item_chars i).
Proof.
  destruct i as [w|token]; intros Hi; [by apply edges_word; destruct Hi|]. pose proof quote_whitespace as Hq. cbn [item_chars].
  apply edges_app; (split; [by eexists _, [] | by exists [], DOUBLE_QUOTE]).
Qed.
Lemma edges_line items : items ≠ [] → Forall item_ok items → edges (line_chars items).
Proof.
  intros Hne Hi. induction Hi as [|i items Hi His IH]; [done|]. destruct items as [|i2 items]; [by apply edges_item|].
  cbn [line_chars] in *. change (?a ++ [x20] :: ?b) with (a ++ [[x20]] ++ b). apply edges_app; [by apply edges_item | by apply IH].
Qed.
Lemma trim_edges s : edges (chars s) → trim_chars s = chars s.
Proof.
  intros [(c & l & Hl & Hc) (l' & c' & Hl' & Hc')]. unfold trim_chars. rewrite Hl at 1. cbn [drop_while]. rewrite Hc.
  rewrite <- Hl, Hl', rev_app_distr. cbn [rev app drop_while]. rewrite Hc'. cbn [rev]. by rewrite rev_involutive.
Qed.
Lemma line_one items : Forall item_ok items → Forall one_char (line_chars items).
Proof.
  assert (∀ i, item_ok i → Forall one_char (item_chars i)) as Hone.
  { intros [w|token] Hi; cbn [item_chars].
    - destruct Hi as [_ Hw]. rewrite Forall_fmap. eapply Forall_impl; [exact Hw|]. intros b Hb. by apply letter_char.
    - rewrite !Forall_app, !Forall_singleton. split_and!; [by apply ascii_char| |by apply ascii_char].
      pose proof (chars_one token Hi) as Hc. induction Hc as [|c cs Hc Hcs IH]; [constructor|]. rewrite bind_cons, Forall_app.
      split; [|done]. unfold escape_char. destruct (_ || _); repeat constructor; try done; apply Hc. }
  induction 1 as [|i items Hi His IH]; [constructor|]. destruct items as [|i2 items]; [by apply Hone|]. cbn [line_chars] in *.
  apply Forall_app. split; [by apply Hone|]. apply Forall_cons. split; [by apply ascii_char | done].
Qed.
Lemma tokenize_line items :
  items ≠ [] → Forall item_ok items → tokenize (print_line items) = Parsed (item_token <$> items).
Proof.
  intros Hne Hi. destruct (chars_of _ (line_one items Hi)) as [Hc _]. unfold tokenize, print_line.
  rewrite trim_edges by (rewrite Hc; by apply edges_line). rewrite Hc. fold (plain [] []).
  destruct (line_run items [] Hi) as (ts & cur & -> & Hf). cbn [quote_char plain escape started_quote current tokens].
  rewrite bool_decide_false by (by intros []). cbn [orb]. fold (flush ts cur). by rewrite Hf.
Qed.

(** ** Parsing the tokens of a command *)

Definition capital (w : string) : bool := forallb is_upper (str w).
Lemma str_inj v w : str v = str w → v = w.
Proof.
  intros He. apply (f_equal String.string_of_list_byte) in He. unfold str in He. by rewrite !String.string_of_list_byte_of_string in He.
Qed.
Lemma is_word_capital w w' : capital w = true → is_word (str w) w' = String.eqb w w'.
Proof.
  intros Hw. unfold capital in Hw. rewrite forallb_forall in Hw. unfold is_word. rewrite ascii_uppercase.
  - assert (upper_byte <$> str w = str w) as ->.
    { rewrite <- (list_fmap_id (str w)) at 2. apply list_fmap_ext. intros i b Hb. apply list_elem_of_lookup_2, list_elem_of_In, Hw in Hb. by destruct b. }
    destruct (String.eqb_spec w w') as [->|Hne]; [by apply bool_decide_true | apply bool_decide_false; by intros ?%str_inj].
  - apply Forall_forall. intros b Hb%list_elem_of_In%Hw. by destruct b.
Qed.
Lemma parse_batch_items os : ∀ fuel acc,
  (length (os ≫= op_items) <= fuel)%nat → parse_batch fuel (item_token <$> (os ≫= op_items)) acc = Parsed (acc ++ os).
Proof.
  induction os as [|o os IH]; intros fuel acc Hf; [rewrite app_nil_r; by destruct fuel|]. rewrite bind_cons, fmap_app in *.
  rewrite length_app in Hf. destruct o as [key value|key]; cbn [op_items fmap list_fmap app item_token length] in *;
    (destruct fuel as [|fuel]; [lia|]); cbn [parse_batch]; rewrite !is_word_capital by done; cbn [String.eqb Ascii.eqb Bool.eqb];
    rewrite IH by lia; by rewrite <- app_assoc.
Qed.
Lemma parse_items c : printable c → parse_tokens (item_token <$> command_items c) = Parsed c.
Proof.
  intros Hc. destruct c as [k v|k|k|operations|i t|i|i|q|q|]; 
    try (cbn [fmap list_fmap command_items item_token parse_tokens parse_doc]; rewrite !is_word_capital by done; done).
  - destruct Hc as [Hne _]. cbn [command_items]. rewrite fmap_cons. cbn [item_token parse_tokens]. rewrite !is_word_capital by done.
    cbn [String.eqb Ascii.eqb Bool.eqb orb].
    pose proof (parse_batch_items operations (length (item_token <$> (operations ≫= op_items))) [] ltac:(by rewrite length_fmap)) as Hp.
    destruct operations as [|o os]; [done|]. cbn [app] in Hp. destruct (item_token <$> ((o :: os) ≫= op_items)) as [|a [|b rest]] eqn:Ha;
      [by destruct o | by destruct o|]. by rewrite Hp.
  - destruct Hc as (text & _ & [-> | ->]);
      cbn [fmap list_fmap command_items query_items join_spaces item_token parse_tokens parse_fts]; by rewrite !is_word_capital.
  - destruct Hc as (text & _ & [-> | ->]);
      cbn [fmap list_fmap command_items query_items join_spaces item_token parse_tokens parse_fts]; by rewrite !is_word_capital.
Qed.
Lemma command_items_ok c : printable c → command_items c ≠ [] ∧ Forall item_ok (command_items c).
Proof.
  intros Hc. assert (∀ w, str w ≠ [] → capital w = true → item_ok (Word w)) as Hw.
  { intros w Hne Hu. split; [done|]. unfold capital in Hu. rewrite forallb_forall in Hu. apply Forall_forall. intros b Hb%list_elem_of_In. by apply Hu. }
  assert (∀ q, query_printable q → Forall item_ok (query_items q)) as Hq.
  { intros q (text & Ht & [-> | ->]); (constructor; [by apply Hw | by repeat constructor]). }
  split; [by destruct c|]. destruct c as [k v|k|k|os|i t|i|i|q|q|]; cbn [command_items printable] in *;
    repeat (apply Forall_cons; split; [first [by apply Hw | exact Hc | exact (proj1 Hc) | exact (proj2 Hc)]|]); try apply Forall_nil; try exact I; try by apply Hq.
  apply proj2 in Hc. apply Forall_forall. intros i (o & Hi & Ho)%list_elem_of_bind. eapply Forall_forall in Hc; [|exact Ho].
  destruct o as [k v|k]; cbn [op_items op_printable] in Hi, Hc; repeat (apply elem_of_cons in Hi as [->|Hi]); try by apply elem_of_nil in Hi.
  all: first [by apply Hw | exact Hc | exact (proj1 Hc) | exact (proj2 Hc)].
Qed.

(** ** Only printable commands are parsed *)

Lemma step_strings t ch :
  string_ok ch → Forall string_ok (tokens t) → string_ok (current t) →
  Forall string_ok (tokens (tokenize_step t ch)) ∧ string_ok (current (tokenize_step t ch)).
Proof.
  intros Hch Ht Hc. assert (string_ok (current t ++ ch)) as Hp by (by apply utf8_app).
  assert (Forall string_ok (tokens t ++ [current t])) as Hs by (apply Forall_app; by repeat constructor).
  unfold tokenize_step. destruct (quote_char t); repeat case_match; simpl; try done.
Qed.
Lemma drop_while_Forall {A} (P : A → Prop) f l : Forall P l → Forall P (drop_while f l).
Proof. induction 1 as [|x l Hx Hl IH]; simpl; [constructor|]. destruct (f x); [done | by constructor]. Qed.
Lemma tokenize_strings input ts : string_ok input → tokenize input = Parsed ts → Forall string_ok ts.
Proof.
  intros Hi. unfold tokenize.
  assert (Forall string_ok (trim_chars input)) as Ht.
  { unfold trim_chars. apply Forall_rev, drop_while_Forall, Forall_rev, drop_while_Forall.
    eapply Forall_impl; [by apply chars_valid|]. by intros c [? _]. }
  assert (∀ l t, Forall string_ok l → Forall string_ok (tokens t) → string_ok (current t) →
    Forall string_ok (tokens (foldl tokenize_step t l)) ∧ string_ok (current (foldl tokenize_step t l))) as Hf.
  { clear. induction l as [|ch l IH]; intros t Hl Ht Hc; [done|]. apply Forall_cons in Hl as [Hch Hl]. cbn [foldl].
    destruct (step_strings t ch Hch Ht Hc). by apply IH. }
  destruct (Hf _ (mkTokenizer [] [] None false false) Ht ltac:(constructor) ltac:(done)) as [H1 H2].
  destruct (_ || _); [done|]. intros [= <-]. case_bool_decide; [done|]. apply Forall_app. by repeat constructor.
Qed.
Lemma join_strings ts : Forall string_ok ts → string_ok (join_spaces ts).
Proof.
  induction 1 as [|t ts Ht Hts IH]; [done|]. destruct ts as [|t2 ts]; [done|]. cbn [join_spaces] in *.
  apply utf8_app; [done|]. by apply (utf8_app [x20]).
Qed.
Lemma parse_batch_strings fuel : ∀ ts acc os,
  Forall string_ok ts → Forall op_printable acc → parse_batch fuel ts acc = Parsed os → Forall op_printable os.
Proof.
  induction fuel as [|fuel IH]; intros ts acc os Hts Hacc Hp; [by injection Hp as <-|]. destruct ts as [|w ts]; [by injection Hp as <-|].
  cbn [parse_batch] in Hp. apply Forall_cons in Hts as [_ Hts]. destruct (is_word w "SET").
  - destruct ts as [|k [|v ts]]; try done. apply Forall_cons in Hts as [Hk [Hv Hts]%Forall_cons]. apply IH in Hp; [done | done|].
    apply Forall_app. by repeat constructor.
  - destruct (is_word w "DELETE"); [|done]. destruct ts as [|k ts]; [done|]. apply Forall_cons in Hts as [Hk Hts].
    apply IH in Hp; [done | done|]. apply Forall_app. by repeat constructor.
Qed.
Ltac take_strings := repeat match goal with H : Forall string_ok (_ :: _) |- _ => apply Forall_cons in H as [? ?] end.
Lemma parse_doc_printable ts c : Forall string_ok ts → parse_doc ts = Parsed c → printable c.
Proof.
  intros Hts. unfold parse_doc. destruct ts as [|kind ts]; [done|]. take_strings.
  repeat case_match; intros [= <-]; subst; take_strings; done.
Qed.
Lemma parse_fts_printable ts c : Forall string_ok ts → parse_fts ts = Parsed c → printable c.
Proof.
  intros Hts. unfold parse_fts. destruct ts as [|kind ts]; [done|]. take_strings. pose proof (join_strings ts ltac:(done)) as Hj.
  repeat case_match; intros [= <-]; subst; take_strings; eexists; (split; [|by auto]); done.
Qed.
Lemma parse_printable ts c : Forall string_ok ts → parse_tokens ts = Parsed c → printable c.
Proof.
  intros Hts. unfold parse_tokens. destruct ts as [|kw ts]; [done|]. take_strings.
  destruct (is_word kw "SET"); [repeat case_match; intros [= <-]; subst; take_strings; done|].
  destruct (is_word kw "GET"); [repeat case_match; intros [= <-]; subst; take_strings; done|].
  destruct (is_word kw "DELETE" || is_word kw "DEL"); [repeat case_match; intros [= <-]; subst; take_strings; done|].
  destruct (is_word kw "BATCH").
  { destruct ts as [|a [|b ts]]; try done. destruct (parse_batch _ _ _) as [[|o os]|e] eqn:Hp; try done. intros [= <-].
    apply parse_batch_strings in Hp; [done | done | constructor]. }
  destruct (is_word kw "DOC"); [by apply parse_doc_printable|]. destruct (is_word kw "FTS"); [by apply parse_fts_printable|].
  destruct (_ || _); [by intros [= <-] | done].
Qed.

(** C15.  The command language is exact.  Every command whose strings are UTF-8
    (a batch with at least one operation, a search with one text) has a line
    that parses to it, in which its strings are quoted and may hold spaces,
    quotes and backslashes; and whatever line is parsed, the command is one of
    these, so that printing and parsing it again gives it back. *)
Theorem command_language_exact c :
  (printable c → utf8_valid (print_command c) = true ∧ parse_command (print_command c) = Parsed c) ∧
  ∀ input, utf8_valid input = true → parse_command input = Parsed c →
    printable c ∧ parse_command (print_command c) = Parsed c.
Proof.
  assert (printable c → utf8_valid (print_command c) = true ∧ parse_command (print_command c) = Parsed c) as Hprint.
  { intros Hc. destruct (command_items_ok c Hc) as [Hne Hi]. split; [by apply chars_of, line_one|].
    unfold parse_command, print_command. rewrite tokenize_line by done. by apply parse_items. }
  split; [done|]. intros input Hi Hp. assert (printable c) as Hc; [|split; [done | by apply Hprint]].
  unfold parse_command in Hp. destruct (tokenize input) as [ts|e] eqn:Et; [|done]. apply (parse_printable ts); [|done].
  by apply (tokenize_strings input).
Qed.
End tokenizer.
