(* ===== verification/Repl.v ===== *)
(** * The command loop: [src/src/repl.rs]

    Lines are read and answered until the end of the input or [EXIT].  The
    loop over an index answers every line as the documents and the user's map
    say.  The input is the list of its lines, the output the bytes written;
    the text of an error and the six decimals of a score are those of the
    formatting library, parameters. *)

From stdpp Require Import sets sorting.
From Stdlib Require Import Sorted.
From S2P Require Import Prelude Bytes OrdMap Search Manifest Bloom Unicode Store Read ReadTheory Admission Api Fts FtsTheory FtsIndexTheory FtsSearch.
From S2P Require Import FtsBulk FtsRank FtsRefine Command CommandTheory.

(** ** Printing *)

Class Display : Type := {
  show_error : DBError → bytes;
  show_score : f64 → bytes
}.

(** [str::escape_default], character by character. *)
Definition hex_digit (n : Z) : byte := if n <? 10 then zb (48 + n) else zb (87 + n).
Fixpoint hex_digits (fuel : nat) (n : Z) : bytes :=
  match fuel with
  | O => []
  | S fuel => if n <? 16 then [hex_digit n] else hex_digits fuel (n / 16) ++ [hex_digit (n mod 16)]
  end.
(** The number of a character. *)
Definition code_point (c : bytes) : Z :=
  match c with
  | [a] => bz a
  | [a; b] => (bz a - 192) * 64 + (bz b - 128)
  | [a; b; c] => (bz a - 224) * 4096 + (bz b - 128) * 64 + (bz c - 128)
  | [a; b; c; d] => (bz a - 240) * 262144 + (bz b - 128) * 4096 + (bz c - 128) * 64 + (bz d - 128)
  | _ => 0
  end.
Definition escape_default_char (c : bytes) : bytes :=
  if bool_decide (c = [x09]) then str "\t"
  else if bool_decide (c = [x0d]) then str "\r"
  else if bool_decide (c = [x0a]) then str "\n"
  else if bool_decide (c = SINGLE_QUOTE) || bool_decide (c = DOUBLE_QUOTE) || bool_decide (c = BACKSLASH) then BACKSLASH ++ c
  else match c with
  | [b] => if (32 <=? bz b) && (bz b <=? 126) then c else str "\u{" ++ hex_digits 6 (bz b) ++ str "}"
  | _ => str "\u{" ++ hex_digits 6 (code_point c) ++ str "}"
  end.
Definition escape_default (s : bytes) : bytes := chars s ≫= escape_default_char.

Definition NEWLINE : bytes := [x0a].
Definition TAB : bytes := [x09].
Definition line (s : bytes) : bytes := s ++ NEWLINE.
Definition PROMPT : bytes := str "> ".
Definition format_response (response : Response) : bytes :=
  match response with
  | ROk => str "OK"
  | Nil => str "(nil)"
  | Bye => str "bye"
  | _ => []
  end.
Definition BANNER : bytes := str "wasm-kv CLI REPL (SET/GET/DELETE/BATCH). Type EXIT to quit.".
Definition BANNER_ASYNC : bytes := str "wasm-kv CLI REPL (SET/GET/DELETE/BATCH/DOC/FTS). Type EXIT to quit.".

Section printing.
Context `{Display}.

Definition parse_failure (e : ParseError) : bytes :=
  match e with
  | Empty => []
  | UnknownCommand command => line (str "ERR unknown command: " ++ command)
  | InvalidArity _ expected => line (str "ERR usage: " ++ str expected)
  | UnterminatedQuotedValue => line (str "ERR unterminated quoted value")
  end.
Definition failure (e : DBError) : bytes := line (str "ERR " ++ show_error e).
Definition show_hit (hit : SearchHit) : bytes :=
  line (escape_default (hit_id hit) ++ TAB ++ escape_default (from_utf8_lossy (hit_document hit))).
Definition show_ranked (hit : RankedSearchHit) : bytes :=
  line (show_score (ranked_score hit) ++ TAB ++ escape_default (ranked_id hit) ++ TAB ++
        escape_default (from_utf8_lossy (ranked_document hit))).
Definition answer (response : Response) : bytes :=
  match response with
  | Value value => line value
  | Document (Some document) => line (escape_default (from_utf8_lossy document))
  | Document None => line (str "(nil)")
  | SearchResults hits => match hits with [] => line (str "(no results)") | _ => hits ≫= show_hit end
  | RankedSearchResults hits => match hits with [] => line (str "(no results)") | _ => hits ≫= show_ranked end
  | response => line (format_response response)
  end.
(** The synchronous loop prints values as they are and the rest by name. *)
Definition answer_sync (response : Response) : bytes :=
  match response with Value value => line value | response => line (format_response response) end.
Definition is_bye (response : Response) : bool := match response with Bye => true | _ => false end.

(** ** The loop *)

(** [read_line] fails on a line that is not UTF-8; the loop then returns the
    error, the flag of the result. *)
Section loop.
Context `{Unicode} {S F : Type} (execute : Command → F → eff S Response) (answer : Response → bytes).

Fixpoint repl_loop (lines : list (bytes * F)) : eff S (bytes * bool) :=
  match lines with
  | [] => mret (PROMPT, true)
  | (input, f) :: lines =>
      if utf8_valid input then
        match parse_command input with
        | Parsed command => λ s,
            match execute command f s with
            | (Ok response, s) =>
                if is_bye response then (Ok (PROMPT ++ answer response, true), s)
                else ('(out, ok) ← repl_loop lines; mret (PROMPT ++ answer response ++ out, ok)) s
            | (Err e, s) => ('(out, ok) ← repl_loop lines; mret (PROMPT ++ failure e ++ out, ok)) s
            | (Panic, s) => (Panic, s)
            end
        | Failed e => '(out, ok) ← repl_loop lines; mret (PROMPT ++ parse_failure e ++ out, ok)
        end
      else mret (PROMPT, false)
  end.
End loop.
Context `{Unicode}.
Definition run_repl {S F} (engine : KVEngine S F) (lines : list (bytes * F)) : eff S (bytes * bool) :=
  '(out, ok) ← repl_loop (execute_command engine) answer_sync lines;
  mret (line BANNER ++ out, ok).
Definition run_repl_async {S F} (engine : FtsCommandEngine S F) (lines : list (bytes * F)) : eff S (bytes * bool) :=
  '(out, ok) ← repl_loop (execute_command_async engine) answer lines;
  mret (line BANNER_ASYNC ++ out, ok).
End printing.

(** ** What a session must answer *)

Definition change_of (c : Command) : option change :=
  match c with
  | Set_ key value => Some (CUser [BatchPut key value])
  | Delete_ key => Some (CUser [BatchDelete key])
  | Batch operations => Some (CUser operations)
  | DocumentPut id text => Some (CPut id text)
  | DocumentDelete id => Some (CDelete id)
  | _ => None
  end.
(** The document a command names. *)
Definition names_document (c : Command) : option bytes :=
  match c with DocumentPut id _ | DocumentGet id | DocumentDelete id => Some id | _ => None end.
Definition empty_id : DBError := StorageError "document ID must not be empty".

Section session.
Context `{Unicode, NaturalLog, Display}.
Implicit Types (x y : fts_store) (c : Command).

(** The response to a command, given by the documents and the user's map. *)
Inductive responds : fts_store → fts_store → Command → res Response → fts_store → fts_store → Prop :=
| re_change x y c ch b x' y' :
    change_of c = Some ch → index_step x y (FChange ch (Ok b)) x' y' → responds x y c (Ok ROk) x' y'
| re_failed x y c ch e x' y' :
    change_of c = Some ch → index_step x y (FChange ch (Err e)) x' y' → responds x y c (Err e) x' y'
| re_no_id x y c : names_document c = Some [] → responds x y c (Err empty_id) x y
| re_get x y key :
    responds x y (Get key)
      (if reserved key then Err reserved_error else Ok (value_response (om_get key (st_user x)))) x y
| re_document x y id : responds x y (DocumentGet id) (Ok (Document (om_get id (st_docs x)))) x y
| re_search x y query :
    responds x y (Search_ query) (hits ← search_result (st_docs x) query 100; mret (SearchResults hits)) x y
| re_ranked x y query :
    responds x y (RankedSearch query)
      (hits ← ranked_result (st_docs x) query 100 Bm25Config.default_config; mret (RankedSearchResults hits)) x y
| re_exit x y : responds x y Exit (Ok Bye) x y.

(** What a session prints for its lines, and whether it ends without an error. *)
Inductive session : fts_store → fts_store → list bytes → bytes → bool → fts_store → fts_store → Prop :=
| se_end x y : session x y [] PROMPT true x y
| se_not_utf8 x y input lines : utf8_valid input = false → session x y (input :: lines) PROMPT false x y
| se_not_parsed x y input e lines out ok x' y' :
    utf8_valid input = true → parse_command input = Failed e → session x y lines out ok x' y' →
    session x y (input :: lines) (PROMPT ++ parse_failure e ++ out) ok x' y'
| se_answer x y input c response x1 y1 lines out ok x' y' :
    utf8_valid input = true → parse_command input = Parsed c → responds x y c (Ok response) x1 y1 → is_bye response = false →
    session x1 y1 lines out ok x' y' →
    session x y (input :: lines) (PROMPT ++ answer response ++ out) ok x' y'
| se_failure x y input c e x1 y1 lines out ok x' y' :
    utf8_valid input = true → parse_command input = Parsed c → responds x y c (Err e) x1 y1 →
    session x1 y1 lines out ok x' y' →
    session x y (input :: lines) (PROMPT ++ failure e ++ out) ok x' y'
| se_exit x y input c lines x1 y1 :
    utf8_valid input = true → parse_command input = Parsed c → responds x y c (Ok Bye) x1 y1 →
    session x y (input :: lines) (PROMPT ++ answer Bye) true x1 y1.
End session.

(** ** The loop over an index *)

Section index.
Context {S : Type} `{UnicodeSpec, NaturalLog, Display, AsyncKVEngineSpec S}.
Implicit Types (s : S) (x y : fts_store) (c : Command).

(** What the contract of the index asks of a command: names that fit a key,
    and room for what it writes. *)
Definition command_ok s c : Prop :=
  match c with
  | Set_ key value => admissible [BatchPut key value]
  | Delete_ key => admissible [BatchDelete key]
  | Batch operations => admissible operations
  | DocumentPut id text => utf8_valid id = true ∧ short id ∧ input_ok text ∧ room_for s (CPut id text)
  | DocumentGet id => utf8_valid id = true ∧ short id
  | DocumentDelete id => utf8_valid id = true ∧ short id ∧ room_for s (CDelete id)
  | Get _ | Search_ _ | RankedSearch _ | Exit => True
  end.
Lemma responds_np x y c x' y' : ¬ responds x y c Panic x' y'.
Proof.
  intros Hr. inversion Hr as [| | |? ? key He| |? ? query He|? ? query He|]; subst.
  - by destruct (reserved key).
  - pose proof (search_result_np (st_docs x') query 100). by destruct (search_result (st_docs x') query 100).
  - pose proof (ranked_result_np (st_docs x') query 100 Bm25Config.default_config).
    by destruct (ranked_result (st_docs x') query 100 Bm25Config.default_config).
Qed.
Lemma done_as_response s x y c ch (r : res unit) s' :
  change_of c = Some ch →
  (∃ x' y', index_step x y (FChange ch (done_as true r)) x' y' ∧ holds_index s' x' y') →
  ∃ x' y', responds x y c (_ ← r; mret ROk) x' y' ∧ holds_index s' x' y'.
Proof.
  intros Hc (x' & y' & Hst & Hh). destruct r as [[]|e|]; cbn [done_as mbind res_bind mret res_ret] in *.
  - exists x', y'. split; [by eapply re_change | done].
  - exists x', y'. split; [by eapply re_failed | done].
  - by inversion Hst.
Qed.
Lemma then_mret {A B} (p : eff S A) (g : A → B) s r s' :
  p s = (r, s') → (a ← p; mret (g a)) s = (a ← r; mret (g a), s').
Proof. intros Hp. unfold mbind at 1, eff_bind. rewrite Hp. by destruct r. Qed.
Lemma execute_responds s x y c f :
  holds_index s x y → command_ok s c → fault_ok f →
  ∃ x' y', responds x y c (execute_command_async (index_commands S) c f s).1 x' y' ∧
    holds_index (execute_command_async (index_commands S) c f s).2 x' y'.
Proof.
  intros Hh Hok Hf. assert (∀ e s', fts_step s e s' → ∃ x' y', index_step x y e x' y' ∧ holds_index s' x' y') as Hsim.
  { intros e s' Hst. by apply (fts_step_sim s e s'). }
  assert (∀ id, id ≠ [] → DocumentId.new id = Ok id) as Hnew by (intros id Hid; unfold DocumentId.new; by rewrite bool_decide_false).
  assert (∀ id (p : bytes → eff S Response), (i ← pure_eff (DocumentId.new id); p i) s =
    if decide (id = []) then (Err empty_id, s) else p id s) as Hid.
  { intros id p. unfold mbind, eff_bind, pure_eff. case_decide as Hi; [subst; done | by rewrite Hnew]. }
  destruct c as [key value|key|key|os|id text|id|id|query|query|]; cbn [execute_command_async command_ok] in *;
    try (rewrite Hid; case_decide as Hne; [exists x, y; by split; [apply re_no_id; subst|]|]); clear Hid;
    cbn [ce_put ce_get ce_delete ce_write_batch ce_put_document ce_get_document ce_delete_document ce_search ce_search_ranked index_commands].
  - destruct (FtsIndex.put key value f s) as [r s'] eqn:E. rewrite (then_mret _ _ _ _ _ E).
    eapply done_as_response; [done..|]. by apply Hsim, (fs_user_put s key value f).
  - destruct (FtsIndex.get key s) as [r s'] eqn:E. rewrite (then_mret _ _ _ _ _ E). destruct (Hsim _ _ (fs_get s key r s' E)) as (x' & y' & Hst & Hh').
    inversion Hst; subst. exists x', y'. split; [|done]. pose proof (re_get x' y' key) as Hr. by destruct (reserved key).
  - destruct (FtsIndex.delete key f s) as [r s'] eqn:E. rewrite (then_mret _ _ _ _ _ E).
    eapply done_as_response; [done..|]. by apply Hsim, (fs_user_delete s key f).
  - destruct (FtsIndex.write_batch os f s) as [r s'] eqn:E. rewrite (then_mret _ _ _ _ _ E).
    eapply done_as_response; [done..|]. by apply Hsim, (fs_user_batch s os f).
  - destruct Hok as (Hu & Hs & Hi & Hr). destruct (FtsIndex.put_document id text f s) as [r s'] eqn:E. rewrite (then_mret _ _ _ _ _ E).
    eapply done_as_response; [done..|]. apply Hsim, (fs_put s id text f); [exact (conj Hne (conj Hu Hs)) | done..].
  - destruct Hok as (Hu & Hs). destruct (FtsIndex.get_document id s) as [r s'] eqn:E. rewrite (then_mret _ _ _ _ _ E).
    destruct (Hsim _ _ (fs_document s id r s' (conj Hne (conj Hu Hs)) E)) as (x' & y' & Hst & Hh'). inversion Hst; subst.
    exists x', y'. split; [apply re_document | done].
  - destruct Hok as (Hu & Hs & Hr). destruct (FtsIndex.delete_document id f s) as [r s'] eqn:E. rewrite (then_mret _ _ _ _ _ E).
    destruct (Hsim _ _ (fs_delete s id f r s' (conj Hne (conj Hu Hs)) Hf Hr E)) as (x' & y' & Hst & Hh'). exists x', y'. split; [|done].
    destruct r as [b|e|]; [by eapply re_change | by eapply re_failed | by inversion Hst].
  - destruct (FtsIndex.search query 100 s) as [r s'] eqn:E. rewrite (then_mret _ _ _ _ _ E).
    destruct (Hsim _ _ (fs_search s query 100 r s' E)) as (x' & y' & Hst & Hh'). inversion Hst; subst. exists x', y'. split; [apply re_search | done].
  - destruct (FtsRanked.search_ranked query 100 Bm25Config.default_config s) as [r s'] eqn:E. rewrite (then_mret _ _ _ _ _ E).
    destruct (Hsim _ _ (fs_ranked s query 100 Bm25Config.default_config r s' E)) as (x' & y' & Hst & Hh'). inversion Hst; subst.
    exists x', y'. split; [apply re_ranked | done].
  - exists x, y. split; [apply re_exit | done].
Qed.

(** The lines of a session whose commands are all of this kind, in the states
    they are executed in. *)
Fixpoint session_ok s (lines : list (bytes * write_fault)) : Prop :=
  match lines with
  | [] => True
  | (input, f) :: lines =>
      match parse_command input with
      | Parsed c =>
          command_ok s c ∧ fault_ok f ∧ session_ok (execute_command_async (index_commands S) c f s).2 lines
      | Failed _ => session_ok s lines
      end
  end.
(** Lines that only read are fine in any state. *)
Definition reads_only (l : bytes * write_fault) : Prop :=
  match parse_command (fst l) with
  | Parsed (Get _ | Search_ _ | RankedSearch _ | Exit) => fault_ok (snd l)
  | Parsed (DocumentGet id) => utf8_valid id = true ∧ short id ∧ fault_ok (snd l)
  | Parsed _ => False
  | Failed _ => True
  end.
Lemma session_reads_ok lines : Forall reads_only lines → ∀ s, session_ok s lines.
Proof.
  induction 1 as [|[input f] lines Hl Hls IH]; intros s; [done|]. cbn [session_ok]. unfold reads_only in Hl. cbn [fst snd] in Hl.
  destruct (parse_command input) as [c|e]; [|done]. destruct c; try done; try (by split_and!; [..|apply IH]).
  destruct Hl as (Hu & Hs & Hf). split; [by split|]. split; [done | apply IH].
Qed.
Lemma repl_loop_session lines : ∀ s x y,
  holds_index s x y → session_ok s lines →
  ∃ out ok s' x' y', repl_loop (execute_command_async (index_commands S)) answer lines s = (Ok (out, ok), s') ∧
    session x y (fst <$> lines) out ok x' y' ∧ holds_index s' x' y'.
Proof.
  induction lines as [|[input f] lines IH]; intros s x y Hh Hok; [exists PROMPT, true, s, x, y; by split_and!; [|constructor|]|].
  cbn [repl_loop session_ok] in *. rewrite fmap_cons. destruct (utf8_valid input) eqn:Hu.
  2: { exists PROMPT, false, s, x, y. by split_and!; [|constructor|]. }
  destruct (parse_command input) as [c|e] eqn:Hp.
  - destruct Hok as (Hc & Hf & Hok). destruct (execute_responds s x y c f Hh Hc Hf) as (x1 & y1 & Hr & Hh1).
    destruct (execute_command_async (index_commands S) c f s) as [[response|e|] s1]; cbn [fst snd] in *; [| |by apply responds_np in Hr].
    + destruct (is_bye response) eqn:Hb.
      { destruct response; try done. eexists _, _, s1, x1, y1. split_and!; [done | by eapply se_exit | done]. }
      destruct (IH s1 x1 y1 Hh1 Hok) as (out & ok & s' & x' & y' & Hl & Hse & Hh'). eexists _, ok, s', x', y'.
      split_and!; [unfold mbind, eff_bind; rewrite Hl; done | by eapply se_answer | done].
    + destruct (IH s1 x1 y1 Hh1 Hok) as (out & ok & s' & x' & y' & Hl & Hse & Hh'). eexists _, ok, s', x', y'.
      split_and!; [unfold mbind, eff_bind; rewrite Hl; done | by eapply se_failure | done].
  - destruct (IH s x y Hh Hok) as (out & ok & s' & x' & y' & Hl & Hse & Hh'). eexists _, ok, s', x', y'.
    split_and!; [unfold mbind, eff_bind; rewrite Hl; done | by eapply se_not_parsed | done].
Qed.

End index.
