(* ===== verification/Sessions.v ===== *)
(** * A session on the storage engine

    The command loop over an index over [KV2], with a document put, searched
    and read, and commands that do not parse: the samples of the theorems on
    commands. *)

From stdpp Require Import sets sorting.
From S2P Require Import Prelude Bytes OrdMap Search Record Block Bloom Index Footer LegacyBlock SSTable Preflight.
From S2P Require Import WalFormat WalAnalysis Wal WalCrash WalRefine Manifest ManifestTheory Admission Config Store Read.
From S2P Require Import ReadTheory Tables Write WriteTheory Compaction CompactionTheory Root Engine OpenTheory EngineTheory KVTheory Api KVRefine.
From S2P Require Import Unicode Fts FtsTheory FtsIndexTheory FtsSearch FtsBulk FtsRank FtsRefine KVEngine Command CommandTheory Repl.

Definition plain_display : Display := {| show_error := λ _, str "error"; show_score := λ _, str "0.000000" |}.
Definition session_engine : FtsCommandEngine KV2.t KV2.WriteFaults := @index_commands KV2.t ascii_unicode fts_ln fts_engine.
Definition session_lines : list (bytes * KV2.WriteFaults) :=
  (λ l, (line (str l), kv_fine)) <$>
    ["doc put a 'Hi hi'"; "SET k"; "fts and 'HI'"; "  "; "DOC GET a"; "doc get ''"; "nonsense"; "exit"; "GET a"].
Definition session_run : res (bytes * bool) * KV2.t := Eval vm_compute in
  @run_repl_async plain_display ascii_unicode KV2.t KV2.WriteFaults session_engine session_lines fts_s1.

Lemma session_lines_ok : @session_ok KV2.t ascii_unicode fts_ln fts_engine fts_spec fts_s1 session_lines.
Proof.
  change session_lines with ((line (str "doc put a 'Hi hi'"), kv_fine) :: tail session_lines). cbn [session_ok].
  replace (@parse_command ascii_unicode (line (str "doc put a 'Hi hi'"))) with (Parsed (DocumentPut fts_id fts_doc)) by (vm_compute; reflexivity).
  split; [|split; [exact (conj I (conj I I))|]].
  - split; [reflexivity|]. split; [vm_compute; discriminate|]. split; [intros _; apply fts_doc_ok | apply fts_room].
  - apply session_reads_ok. unfold session_lines. cbn [tail fmap list_fmap]. repeat (apply Forall_cons; split); [..|by apply Forall_nil]; unfold reads_only; cbn [fst snd];
      (match goal with |- context [@parse_command ?u ?i] =>
         let p := eval vm_compute in (@parse_command u i) in replace (@parse_command u i) with p by (vm_compute; reflexivity) end);
      cbv beta iota; try exact I; try exact (conj I (conj I I)).
    all: split; [reflexivity|]; split; [vm_compute; discriminate | exact (conj I (conj I I))].
Qed.
Lemma session_holds : ∃ x y, @holds_index KV2.t ascii_unicode fts_engine fts_spec fts_s1 x y.
Proof.
  eexists _, _. exact (@open_holds KV2.t ascii_unicode fts_engine fts_spec fts_s0 [] kv_fine fts_s1 fts_holds0 eq_refl (conj I (conj I I))
    fts_open_room fts_opens).
Qed.
Lemma command_language_exact_witness :
  (@parse_command ascii_unicode (line (str "set 'a b' c\d")) = Parsed (Set_ (str "a b") (str "c\d"))) ∧
  ((printable (Set_ (str "a b") (str "c\d")) →
    utf8_valid (print_command (Set_ (str "a b") (str "c\d"))) = true ∧
    @parse_command ascii_unicode (print_command (Set_ (str "a b") (str "c\d"))) = Parsed (Set_ (str "a b") (str "c\d"))) ∧
   ∀ input, utf8_valid input = true → @parse_command ascii_unicode input = Parsed (Set_ (str "a b") (str "c\d")) →
     printable (Set_ (str "a b") (str "c\d")) ∧
     @parse_command ascii_unicode (print_command (Set_ (str "a b") (str "c\d"))) = Parsed (Set_ (str "a b") (str "c\d"))).
Proof.
  split; [vm_compute; reflexivity|]. exact (@command_language_exact ascii_unicode ascii_unicode_ascii (Set_ (str "a b") (str "c\d"))).
Defined.
