(* ===== verification/Generation.v ===== *)
(** * Generations of the experimental store: [src/src/storage/experimental.rs]

    The directory of an experimental store and the operations on it: the
    small files at the root, which are replaced by writing a temporary file
    and renaming it; the generation directories, with their names, their
    reservation, validation, seals and removal; the fingerprints of log
    segments.  The engine over them is [Experimental].

    A failed operation says what the disk was left with: a write stops after
    some bytes, a rename is lost or done, a removal leaves something.  Stopping
    the process anywhere is one of these. *)

From S2P Require Import Prelude Bytes OrdMap Search Record WalFormat WalAnalysis Wal Manifest Store Preflight.
From S2P Require Import SSTable Bloom Write Root Engine.

Definition INDEX_DIR : bytes := bytes_of_string "index".
Definition GENERATION_NAME_DIGITS : nat := 20.
Definition INITIAL_GENERATION : Z := 1.

(** ** The disk *)

(** What a name leads to: nothing, what is expected there, or an entry of
    another kind, with what following it gives. *)
Inductive slot (A : Type) : Type :=
| Absent
| Has (a : A)
| Unsafe (kind : FileKind) (target : res A).
Arguments Absent {A}.
Arguments Has {A} _.
Arguments Unsafe {A} _ _.

(** [read] and [read_dir], which follow links. *)
Definition follow {A} (s : slot A) : res A :=
  match s with
  | Absent => Err (IO NotFoundKind)
  | Has a => Ok a
  | Unsafe _ target => target
  end.
(** The pattern [Err(error) if error.kind() == NotFound => None]. *)
Definition found {A} (r : res A) : res (option A) :=
  match r with
  | Ok a => Ok (Some a)
  | Err (IO NotFoundKind) => Ok None
  | Err e => Err e
  | Panic => Panic
  end.

(** [sstable]: tables by path, and what other paths lead to. *)
Record TableDir : Type := mkTableDir {
  td_files : ordmap bytes bytes;
  td_special : ordmap bytes FileKind
}.
Record IndexDir : Type := mkIndexDir {
  ix_marker : slot bytes;
  ix_marker_temp : slot bytes;
  ix_manifest : slot bytes;
  ix_sstable : slot TableDir
}.
(** A generation directory; [g_extra] has the kinds and lengths of entries
    with other names. *)
Record GenDir : Type := mkGenDir {
  g_wal : slot WalDir;
  g_index : slot IndexDir;
  g_seal : slot bytes;
  g_seal_temp : slot bytes;
  g_extra : list (FileKind * Z)
}.
Inductive GenEntry : Type := GDir (g : GenDir) | GOther (kind : FileKind).
Inductive RootEntry : Type := RFile (bs : bytes) | RDirectory | ROther (target : res bytes).

(** The root: its entries, and those of its directory [generations], by name. *)
Record ExpRoot : Type := mkExpRoot {
  rt_entries : ordmap bytes RootEntry;
  rt_generations : ordmap bytes GenEntry
}.
Inductive RootAt : Type := RootMissing | RootNotADirectory | RootDir (rt : ExpRoot).

Definition set_entry (rt : ExpRoot) (name : bytes) (e : RootEntry) : ExpRoot :=
  mkExpRoot (om_insert name e (rt_entries rt)) (rt_generations rt).
Definition set_generations (rt : ExpRoot) (gs : ordmap bytes GenEntry) : ExpRoot :=
  mkExpRoot (rt_entries rt) gs.
Definition root_kind (e : RootEntry) : RootEntryKind.t :=
  match e with
  | RFile _ => RootEntryKind.File
  | RDirectory => RootEntryKind.Directory
  | ROther _ => RootEntryKind.Other
  end.
(** The entries as [read_root_entries] sees them. *)
Definition root_path (r : RootAt) : RootPath :=
  match r with
  | RootMissing => Missing
  | RootNotADirectory => NotADirectory
  | RootDir rt => Dir (map (λ e, (fst e, root_kind (snd e))) (rt_entries rt))
  end.
Definition read_root_file (rt : ExpRoot) (name : bytes) : res bytes :=
  match om_get name (rt_entries rt) with
  | None => Err (IO NotFoundKind)
  | Some (RFile bs) => Ok bs
  | Some RDirectory => Err (IO OtherIo)
  | Some (ROther target) => target
  end.

(** How replacing a file can fail: writing the temporary file, with the bytes
    it is left with (or not opened); the rename, done or not. *)
Definition TempFault : Type := io_kind * option nat.
Definition RenameFault : Type := io_kind * bool.

Definition write_temporary_bytes (temporary bs : bytes) (fault : option TempFault) : eff ExpRoot unit := λ rt,
  match fault with
  | Some (k, None) => (Err (IO k), rt)
  | Some (k, Some n) => (Err (IO k), set_entry rt temporary (RFile (take n bs)))
  | None => (Ok tt, set_entry rt temporary (RFile bs))
  end.
(** [rename] and the sync of the directory. *)
Definition rename_entry (temporary name : bytes) (rt : ExpRoot) : ExpRoot :=
  match om_get temporary (rt_entries rt) with
  | Some e => mkExpRoot (om_insert name e (om_remove temporary (rt_entries rt))) (rt_generations rt)
  | None => rt
  end.
Definition rename_file (temporary name : bytes) (fault : option RenameFault) : eff ExpRoot unit := λ rt,
  match fault with
  | Some (k, false) => (Err (IO k), rt)
  | Some (k, true) => (Err (IO k), rename_entry temporary name rt)
  | None =>
      match om_get temporary (rt_entries rt) with
      | Some _ => (Ok tt, rename_entry temporary name rt)
      | None => (Err (IO NotFoundKind), rt)
      end
  end.

(** ** Names *)

(** [format!("{generation:020}")] of a [u64]. *)
Definition digit (d : Z) : byte := zb (48 + d).
Fixpoint digits (n : nat) (x : Z) : bytes :=
  match n with
  | O => []
  | S n => digits n (x / 10) ++ [digit (x mod 10)]
  end.
Definition generation_name (generation : Z) : bytes := digits GENERATION_NAME_DIGITS generation.
Definition generation_path (root : bytes) (generation : Z) : bytes :=
  path_join (path_join root GENERATIONS_DIR) (generation_name generation).

Definition is_ascii_digit (b : byte) : bool := (48 <=? bz b) && (bz b <=? 57).
Definition digits_value (bs : bytes) : Z := foldl (λ n b, 10 * n + (bz b - 48)) 0 bs.
(** A name that is not UTF-8 has other characters than digits after
    [to_string_lossy] as well. *)
Definition parse_generation_name (name : bytes) : option Z :=
  if negb (len name =? Z.of_nat GENERATION_NAME_DIGITS) || negb (forallb is_ascii_digit name) then None
  else
    let n := digits_value name in
    if (u64_max <? n) || (n =? 0) then None else Some n.

(** ** The files of the root *)

Section root_files.
Context `{Crc32}.

Definition read_current (rt : ExpRoot) : res CurrentState.t :=
  bs ← read_root_file rt CURRENT_FILE;
  CurrentState.decode bs.
Definition write_current_temp (current : CurrentState.t) (fault : option TempFault) : eff ExpRoot unit :=
  write_temporary_bytes CURRENT_TEMP_FILE (CurrentState.encode current) fault.
Definition commit_current_temp (fault : option RenameFault) : eff ExpRoot unit :=
  rename_file CURRENT_TEMP_FILE CURRENT_FILE fault.
Definition write_current (current : CurrentState.t) (tf : option TempFault) (rf : option RenameFault)
    : eff ExpRoot unit :=
  _ ← write_current_temp current tf;
  commit_current_temp rf.

(** [write_marker] of the root. *)
Definition write_root_marker (tf : option TempFault) (rf : option RenameFault) : eff ExpRoot unit := λ rt,
  match found (read_root_file rt ROOT_MARKER_FILE) with
  | Ok (Some bs) => (RootMarker.decode bs, rt)
  | Ok None =>
      (_ ← write_temporary_bytes ROOT_MARKER_TEMP_FILE RootMarker.encode tf;
       rename_file ROOT_MARKER_TEMP_FILE ROOT_MARKER_FILE rf) rt
  | Err e => (Err e, rt)
  | Panic => (Panic, rt)
  end.

(** *** Reserving a generation *)

(** The loop over the entries of [generations]. *)
Fixpoint entry_ids (es : list (bytes * GenEntry)) : res (list Z) :=
  match es with
  | [] => mret []
  | (name, entry) :: es =>
      id ← ok_or (parse_generation_name name) (Corrupted "unexpected entry in the generations directory");
      _ ← guard_err (match entry with GDir _ => true | GOther _ => false end)
            (Corrupted "generation entry is not a directory");
      ids ← entry_ids es;
      mret (id :: ids)
  end.
Definition generation_directory_ids (rt : ExpRoot) : res (list Z) :=
  match om_get GENERATIONS_DIR (rt_entries rt) with
  | None => mret []
  | Some RDirectory => sort_by Z.compare <$> entry_ids (rt_generations rt)
  | Some _ => Err (IO OtherIo)
  end.
Definition read_generation_reservation (rt : ExpRoot) : res Z :=
  reserved ← found (read_root_file rt NEXT_GENERATION_FILE);
  match reserved with
  | Some bs => GenerationReservation.next_generation <$> GenerationReservation.decode bs
  | None => mret 0
  end.
(** The number to hand out, and the reservation to store. *)
Definition next_reservation (rt : ExpRoot) : res (Z * Z) :=
  reserved ← read_generation_reservation rt;
  ids ← generation_directory_ids rt;
  next_after_existing ← match last ids with
                        | Some highest => ok_or (checked_add highest 1) (StorageError "generation id exhausted")
                        | None => mret INITIAL_GENERATION
                        end;
  let next_generation := Z.max (Z.max next_after_existing reserved) INITIAL_GENERATION in
  following ← ok_or (checked_add next_generation 1) (StorageError "generation id exhausted");
  mret (next_generation, following).
Definition reserve_next_generation (tf : option TempFault) (rf : option RenameFault) : eff ExpRoot Z := λ rt,
  ('(next_generation, following) ← pure_eff (next_reservation rt);
   _ ← write_temporary_bytes NEXT_GENERATION_TEMP_FILE
         (GenerationReservation.encode (GenerationReservation.mk following)) tf;
   _ ← rename_file NEXT_GENERATION_TEMP_FILE NEXT_GENERATION_FILE rf;
   mret next_generation) rt.
End root_files.

(** ** Generation directories *)

Definition empty_generation : GenDir := mkGenDir Absent Absent Absent Absent [].
Definition empty_index : IndexDir := mkIndexDir Absent Absent Absent Absent.
Definition set_wal_slot (g : GenDir) (s : slot WalDir) : GenDir :=
  mkGenDir s (g_index g) (g_seal g) (g_seal_temp g) (g_extra g).
Definition set_index_slot (g : GenDir) (s : slot IndexDir) : GenDir :=
  mkGenDir (g_wal g) s (g_seal g) (g_seal_temp g) (g_extra g).
Definition set_seals (g : GenDir) (seal temporary : slot bytes) : GenDir :=
  mkGenDir (g_wal g) (g_index g) seal temporary (g_extra g).

(** [create_dir_all_durable]. *)
Definition make_dir {A} (s : slot A) (empty : A) : res (slot A) :=
  match s with
  | Absent => Ok (Has empty)
  | Has a => Ok (Has a)
  | Unsafe k (Ok a) => Ok (Unsafe k (Ok a))
  | Unsafe _ _ => Err (StorageError "not a directory")
  end.
(** The contents of a directory that may be reached through a link. *)
Definition set_inside {A} (s : slot A) (a : A) : slot A :=
  match s with
  | Unsafe k _ => Unsafe k (Ok a)
  | _ => Has a
  end.

Definition get_generation (rt : ExpRoot) (generation : Z) : option GenDir :=
  match om_get (generation_name generation) (rt_generations rt) with
  | Some (GDir g) => Some g
  | _ => None
  end.
Definition put_generation (generation : Z) (g : GenDir) (rt : ExpRoot) : ExpRoot :=
  set_generations rt (om_insert (generation_name generation) (GDir g) (rt_generations rt)).
Definition on_generation {A} (generation : Z) (f : GenDir → res A * GenDir) : eff ExpRoot A := λ rt,
  match get_generation rt generation with
  | Some g => let '(r, g) := f g in (r, put_generation generation g rt)
  | None => (Err (IO NotFoundKind), rt)
  end.

Section generations.
Context `{Crc32}.

(** What making a generation can run into: each of its steps. *)
Record BootstrapFaults : Type := mkBootstrapFaults {
  bf_dir : option io_kind;
  bf_index : option io_kind;
  bf_marker_temp : option TempFault;
  bf_marker_rename : option RenameFault;
  bf_manifest : option io_kind
}.
Definition no_bootstrap_faults : BootstrapFaults := mkBootstrapFaults None None None None None.

(** [write_marker] of an index. *)
Definition write_index_marker (tf : option TempFault) (rf : option RenameFault) (ix : IndexDir)
    : res unit * IndexDir :=
  let with_temp t := mkIndexDir (ix_marker ix) t (ix_manifest ix) (ix_sstable ix) in
  let renamed := mkIndexDir (Has RootMarker.encode) Absent (ix_manifest ix) (ix_sstable ix) in
  match found (follow (ix_marker ix)) with
  | Ok (Some bs) => (RootMarker.decode bs, ix)
  | Ok None =>
      match tf with
      | Some (k, None) => (Err (IO k), ix)
      | Some (k, Some n) => (Err (IO k), with_temp (Has (take n RootMarker.encode)))
      | None =>
          match rf with
          | Some (k, false) => (Err (IO k), with_temp (Has RootMarker.encode))
          | Some (k, true) => (Err (IO k), renamed)
          | None => (Ok tt, renamed)
          end
      end
  | Err e => (Err e, ix)
  | Panic => (Panic, ix)
  end.
(** [ManifestManager::load_or_create], which creates an empty file. *)
Definition create_manifest (fault : option io_kind) (ix : IndexDir) : res unit * IndexDir :=
  match fault, found (follow (ix_manifest ix)) with
  | Some k, _ => (Err (IO k), ix)
  | None, Ok content =>
      ((λ _, tt) <$> ManifestManager.load_or_create content,
       match content with
       | Some _ => ix
       | None => mkIndexDir (ix_marker ix) (ix_marker_temp ix) (Has []) (ix_sstable ix)
       end)
  | None, Err e => (Err e, ix)
  | None, Panic => (Panic, ix)
  end.
(** The index directory with its marker and manifest. *)
Definition bootstrap_index (f : BootstrapFaults) (g : GenDir) : res unit * GenDir :=
  match bf_index f, make_dir (g_index g) empty_index with
  | Some k, _ => (Err (IO k), g)
  | None, Ok s =>
      match follow s with
      | Ok ix =>
          let '(r, ix) := write_index_marker (bf_marker_temp f) (bf_marker_rename f) ix in
          match r with
          | Ok _ => let '(r, ix) := create_manifest (bf_manifest f) ix in (r, set_index_slot g (set_inside s ix))
          | r => (r, set_index_slot g (set_inside s ix))
          end
      | Err e => (Err e, set_index_slot g s)
      | Panic => (Panic, set_index_slot g s)
      end
  | None, Err e => (Err e, g)
  | None, Panic => (Panic, g)
  end.
(** The directory itself, with its log directory. *)
Definition make_generation_dir (generation : Z) (rt : ExpRoot) : res ExpRoot :=
  _ ← match om_get GENERATIONS_DIR (rt_entries rt) with
      | None | Some RDirectory => mret tt
      | Some _ => Err (IO OtherIo)
      end;
  g ← match om_get (generation_name generation) (rt_generations rt) with
      | None => mret empty_generation
      | Some (GDir g) => mret g
      | Some (GOther _) => Err (IO OtherIo)
      end;
  wal ← make_dir (g_wal g) empty_dir;
  mret (put_generation generation (set_wal_slot g wal) (set_entry rt GENERATIONS_DIR RDirectory)).
Definition bootstrap_generation (generation : Z) (f : BootstrapFaults) : eff ExpRoot unit := λ rt,
  match bf_dir f, make_generation_dir generation rt with
  | Some k, _ => (Err (IO k), rt)
  | None, Ok rt => on_generation generation (bootstrap_index f) rt
  | None, Err e => (Err e, rt)
  | None, Panic => (Panic, rt)
  end.

(** *** Removal *)

Definition slot_kinds {A} (kinds : A → list FileKind) (file : bool) (s : slot A) : list FileKind :=
  match s with
  | Absent => []
  | Has a => (if file then RegularFile else Directory) :: kinds a
  | Unsafe k _ => [k]
  end.
Definition file_kinds : slot bytes → list FileKind := slot_kinds (λ _, []) true.
Definition table_kinds (d : TableDir) : list FileKind :=
  map (λ _, RegularFile) (td_files d) ++ map snd (td_special d).
Definition index_kinds (ix : IndexDir) : list FileKind :=
  file_kinds (ix_marker ix) ++ file_kinds (ix_marker_temp ix) ++ file_kinds (ix_manifest ix)
  ++ slot_kinds table_kinds false (ix_sstable ix).
Definition wal_kinds (d : WalDir) : list FileKind :=
  map (λ _, RegularFile) (wd_segs d) ++ map fe_kind (wd_foreign d).
(** The kinds of everything in a generation. *)
Definition generation_kinds (g : GenDir) : list FileKind :=
  slot_kinds wal_kinds false (g_wal g) ++ slot_kinds index_kinds false (g_index g)
  ++ file_kinds (g_seal g) ++ file_kinds (g_seal_temp g) ++ (fst <$> g_extra g).
(** The walk that collects what is to be removed. *)
Fixpoint check_removable (kinds : list FileKind) : res unit :=
  match kinds with
  | [] => mret tt
  | Symlink :: _ => Err (Corrupted "refusing to follow a symbolic link during generation cleanup")
  | OtherKind :: _ => Err (Corrupted "unexpected generation entry during cleanup")
  | _ :: kinds => check_removable kinds
  end.
(** A removal that fails midway leaves something of the generation. *)
Definition RemoveFault : Type := io_kind * GenDir.
Definition remove_generation_tree (generation : Z) (fault : option RemoveFault) : eff ExpRoot unit := λ rt,
  match get_generation rt generation with
  | None => (Err (IO NotFoundKind), rt)
  | Some g =>
      match check_removable (generation_kinds g), fault with
      | Ok _, None => (Ok tt, set_generations rt (om_remove (generation_name generation) (rt_generations rt)))
      | Ok _, Some (k, left_) => (Err (IO k), put_generation generation left_ rt)
      | r, _ => (r, rt)
      end
  end.

Fixpoint remove_others (current : Z) (ids : list Z) (faults : Z → option RemoveFault) : eff ExpRoot unit :=
  match ids with
  | [] => mret tt
  | generation :: ids =>
      if generation =? current then remove_others current ids faults
      else _ ← remove_generation_tree generation (faults generation); remove_others current ids faults
  end.
Definition cleanup_abandoned_generations (current : Z) (faults : Z → option RemoveFault) : eff ExpRoot unit := λ rt,
  (ids ← pure_eff (generation_directory_ids rt); remove_others current ids faults) rt.

(** *** Sizes *)

Definition slot_bytes {A} (size : A → Z) (s : slot A) : Z := match s with Has a => size a | _ => 0 end.
Definition sum_lengths {A} (size : A → Z) (l : list A) : Z := foldr (λ a n, wrap64 (size a + n)) 0 l.
Definition wal_bytes (d : WalDir) : Z :=
  wrap64 (sum_lengths (λ s, len (snd s)) (wd_segs d : list (Z * bytes))
    + sum_lengths (λ e, if bool_decide (fe_kind e = RegularFile) then fe_len e else 0) (wd_foreign d)).
Definition index_bytes (ix : IndexDir) : Z :=
  wrap64 (slot_bytes len (ix_marker ix) + slot_bytes len (ix_marker_temp ix) + slot_bytes len (ix_manifest ix)
    + slot_bytes (λ d, sum_lengths (λ f, len (snd f)) (td_files d : list (bytes * bytes))) (ix_sstable ix)).
Definition generation_bytes (g : GenDir) : Z :=
  wrap64 (slot_bytes wal_bytes (g_wal g) + slot_bytes index_bytes (g_index g) + slot_bytes len (g_seal g)
    + slot_bytes len (g_seal_temp g)
    + sum_lengths (λ e, if bool_decide (fst e = RegularFile) then snd e else 0) (g_extra g)).
Definition entry_bytes (e : GenEntry) : Z := match e with GDir g => generation_bytes g | GOther _ => 0 end.
(** [directory_bytes] of the root; directories with other names are not
    looked into. *)
Definition directory_bytes (rt : ExpRoot) : Z :=
  wrap64 (sum_lengths (λ e, match snd e with RFile bs => len bs | _ => 0 end) (rt_entries rt : list (bytes * RootEntry))
    + sum_lengths (λ e, entry_bytes (snd e)) (rt_generations rt : list (bytes * GenEntry))).
Definition unreclaimed_generation_bytes (rt : ExpRoot) (keep_generation : Z) : Z :=
  match om_get GENERATIONS_DIR (rt_entries rt) with
  | Some RDirectory =>
      sum_lengths (λ e, if bool_decide (parse_generation_name (fst e) = Some keep_generation) then 0
                        else entry_bytes (snd e)) (rt_generations rt : list (bytes * GenEntry))
  | _ => 0
  end.

Fixpoint reclaim_loop (keep_generation : Z) (ids : list Z) (faults : Z → option RemoveFault) (deferred : Z)
    (rt : ExpRoot) : Z * ExpRoot :=
  match ids with
  | [] => (deferred, rt)
  | generation :: ids =>
      if generation =? keep_generation then reclaim_loop keep_generation ids faults deferred rt
      else
        match remove_generation_tree generation (faults generation) rt with
        | (Ok _, rt) => reclaim_loop keep_generation ids faults deferred rt
        | (_, rt) =>
            let left_ := match get_generation rt generation with Some g => generation_bytes g | None => 0 end in
            reclaim_loop keep_generation ids faults (wrap64 (deferred + left_)) rt
        end
  end.
(** Never fails: what could not be removed is counted. *)
Definition reclaim_generations (keep_generation : Z) (faults : Z → option RemoveFault) (rt : ExpRoot) : Z * ExpRoot :=
  match generation_directory_ids rt with
  | Ok ids => reclaim_loop keep_generation ids faults 0 rt
  | _ => (unreclaimed_generation_bytes rt keep_generation, rt)
  end.
End generations.

(** ** Seals *)

Section seals.
Context `{Crc32}.

Definition read_generation_seal (g : GenDir) : res (option GenerationSeal.t) :=
  seal ← found (follow (g_seal g));
  match seal with
  | Some bs => Some <$> GenerationSeal.decode bs
  | None => mret None
  end.
Definition write_generation_seal (seal : GenerationSeal.t) (tf : option TempFault) (rf : option RenameFault)
    (g : GenDir) : res unit * GenDir :=
  let bs := GenerationSeal.encode seal in
  match tf with
  | Some (k, None) => (Err (IO k), g)
  | Some (k, Some n) => (Err (IO k), set_seals g (g_seal g) (Has (take n bs)))
  | None =>
      match rf with
      | Some (k, false) => (Err (IO k), set_seals g (g_seal g) (Has bs))
      | Some (k, true) => (Err (IO k), set_seals g (Has bs) Absent)
      | None => (Ok tt, set_seals g (Has bs) Absent)
      end
  end.

(** Entries that are named as segments but are not canonical segment files:
    the log refuses to open beside them. *)
Fixpoint foreign_census (es : list ForeignEntry) : res (list (Z * Z)) :=
  match es with
  | [] => mret []
  | e :: es =>
      match fe_id e with
      | None => foreign_census es
      | Some id =>
          _ ← guard_err (bool_decide (fe_kind e = RegularFile)) (Corrupted "WAL segment is not a regular file");
          rest ← foreign_census es;
          mret ((id, fe_len e) :: rest)
      end
  end.
(** The segments of a log directory with their lengths ([u64]). *)
Definition wal_segment_census (d : WalDir) : res (list (Z * Z)) :=
  foreign ← foreign_census (wd_foreign d);
  mret (sort_by (λ x y, Z.compare (fst x) (fst y))
          (map (λ s, (fst s, len (snd s))) (wd_segs d) ++ foreign)).
Definition wal_segment_prefix_checksum (d : WalDir) (segment_id length : Z) : res Z :=
  file ← ok_or (om_get segment_id (wd_segs d)) (Corrupted "generation seal WAL segment is missing");
  let bs := take (Z.to_nat length) file in
  _ ← guard_err (len bs =? length) (Corrupted "generation seal WAL segment is truncated");
  mret (crc32 bs).
Fixpoint seal_segments (d : WalDir) (census : list (Z * Z)) : res (list WalSegmentFingerprint.t) :=
  match census with
  | [] => mret []
  | (segment_id, length) :: census =>
      checksum ← wal_segment_prefix_checksum d segment_id length;
      rest ← seal_segments d census;
      mret (WalSegmentFingerprint.mk segment_id length checksum :: rest)
  end.
Definition seal_wal_segments (d : WalDir) : res (list WalSegmentFingerprint.t) :=
  census ← wal_segment_census d;
  seal_segments d census.

Definition census_length (census : list (Z * Z)) (segment_id : Z) : option Z :=
  snd <$> List.find (λ e, fst e =? segment_id) census.
(** The loop over the sealed segments. *)
Fixpoint check_sealed (d : WalDir) (sealed_segments : list WalSegmentFingerprint.t) (census : list (Z * Z)) : res unit :=
  match sealed_segments with
  | [] => mret tt
  | segment :: rest =>
      _ ← guard_err (match census_length census (WalSegmentFingerprint.segment_id segment) with
                     | None => false
                     | Some length => negb (length <? WalSegmentFingerprint.length segment)
                     end) (Corrupted "generation seal WAL segment is missing or truncated");
      checksum ← wal_segment_prefix_checksum d (WalSegmentFingerprint.segment_id segment)
                   (WalSegmentFingerprint.length segment);
      _ ← guard_err (checksum =? WalSegmentFingerprint.checksum segment)
            (Corrupted "generation seal WAL segment checksum mismatch");
      check_sealed d rest census
  end.
Definition validate_sealed_wal_segments (d : WalDir) (sealed_segments : list WalSegmentFingerprint.t)
    (census : list (Z * Z)) : res unit :=
  _ ← check_sealed d sealed_segments census;
  let highest_sealed := WalSegmentFingerprint.segment_id <$> last sealed_segments in
  guard_err (negb (existsb (λ e,
      match highest_sealed with Some highest => fst e <? highest | None => false end
      && forallb (λ segment, negb (WalSegmentFingerprint.segment_id segment =? fst e)) sealed_segments) census))
    (Corrupted "generation seal WAL segments were replaced").

(** Whether what was recovered from a log is all that was published. *)
Definition validate_recovery_against_current (d : WalDir) (current : CurrentState.t) (seal : option GenerationSeal.t)
    (recovered_sequence next_physical_lsn : Z) : res unit :=
  let floor := CurrentState.application_sequence_floor current in
  let behind := Corrupted "WAL recovery is behind the published application sequence floor" in
  match seal with
  | None => guard_err (negb (recovered_sequence <? floor)) behind
  | Some seal =>
      _ ← guard_err (GenerationSeal.generation seal =? CurrentState.generation current)
            (Corrupted "generation seal does not match CURRENT");
      census ← wal_segment_census d;
      _ ← validate_sealed_wal_segments d (GenerationSeal.wal_segments seal) census;
      _ ← guard_err (negb (next_physical_lsn <? GenerationSeal.next_physical_lsn seal))
            (Corrupted "WAL recovery is behind the sealed physical log end");
      if floor <=? recovered_sequence
      then guard_err (negb (floor <? GenerationSeal.application_sequence_floor seal))
             (Corrupted "generation seal is ahead of the published application sequence floor")
      else guard_err (negb (negb (GenerationSeal.application_sequence_floor seal =? floor)
                            || negb (recovered_sequence =? GenerationSeal.max_live_application_sequence seal)))
             behind
  end.
End seals.

(** ** Validation of a root *)

Inductive RootFormat : Type :=
| Fresh
| IncompleteBootstrap (current : CurrentState.t)
| ExperimentalFormat (current : CurrentState.t).

(** Paths, as [Path::components] splits them. *)
Inductive Component : Type := RootComponent | CurDir | ParentDir | Normal (name : bytes).
#[export] Instance Component_eq_dec : EqDecision Component.
Proof. solve_decision. Defined.

Fixpoint split_slash (piece : bytes) (path : bytes) : list bytes :=
  match path with
  | [] => [rev piece]
  | b :: path => if bool_decide (b = x2f) then rev piece :: split_slash [] path else split_slash (b :: piece) path
  end.
Definition component_of (piece : bytes) : option Component :=
  if bool_decide (piece = []) || bool_decide (piece = [x2e]) then None
  else if bool_decide (piece = [x2e; x2e]) then Some ParentDir
  else Some (Normal piece).
Definition components (path : bytes) : list Component :=
  match split_slash [] path with
  | [] :: (_ :: _) as pieces => RootComponent :: omap component_of pieces
  | [x2e] :: pieces => CurDir :: omap component_of pieces
  | pieces => omap component_of pieces
  end.

(** What the file system says of a path: [canonicalize] and [symlink_metadata]. *)
Record PathFacts : Type := mkPathFacts {
  canonicalize : list Component → res (list Component);
  path_kind : list Component → option FileKind
}.
Definition is_path_kind (fs : PathFacts) (path : list Component) (kind : FileKind) : bool :=
  bool_decide (path_kind fs path = Some kind).

(** The proper ancestors of a path, nearest first. *)
Fixpoint prefixes_of {A} (l : list A) : list (list A) :=
  match l with
  | [] => []
  | x :: l => [] :: ((x ::.) <$> prefixes_of l)
  end.
Definition ancestors (path : list Component) : list (list Component) := rev (prefixes_of path).

Fixpoint check_components (fs : PathFacts) (path rest : list Component) : res unit :=
  match rest with
  | [] => mret tt
  | Normal name :: rest =>
      let path := path ++ [Normal name] in
      _ ← guard_err (is_path_kind fs path (match rest with [] => RegularFile | _ => Directory end))
            (Corrupted "invalid manifest SSTable path");
      check_components fs path rest
  | _ => Err (Corrupted "invalid manifest SSTable path")
  end.
Definition validate_sstable_path (fs : PathFacts) (sstable_dir : bytes) (table : SSTableMeta.t) : res unit :=
  let table_path := components (SSTableMeta.path table) in
  recorded_sstable_dir ← ok_or (List.find (λ p, bool_decide (last p = Some (Normal SSTABLE_DIR))) (ancestors table_path))
    (Corrupted "manifest SSTable path is outside the index");
  recorded ← canonicalize fs recorded_sstable_dir;
  actual ← canonicalize fs (components sstable_dir);
  _ ← guard_err (bool_decide (recorded = actual)) (Corrupted "manifest SSTable path is outside the index");
  (* [strip_prefix] of an ancestor, never empty *)
  let relative := drop (length recorded_sstable_dir) table_path in
  _ ← guard_err (negb (bool_decide (relative = []) || negb (is_path_kind fs recorded_sstable_dir Directory)))
        (Corrupted "invalid manifest SSTable path");
  check_components fs recorded_sstable_dir relative.

Definition require_entry_kind {A} (s : slot A) (missing_message : string) : res A :=
  match s with Has a => mret a | _ => Err (Corrupted missing_message) end.
Definition optional_entry_kind {A} (s : slot A) : res unit :=
  match s with Unsafe _ _ => Err (StorageError "unsafe storage artifact type") | _ => mret tt end.

Section validation.
Context `{Crc32, FastBloom}.

Definition inspect_root (rt : ExpRoot) : res RootFormat :=
  marker ← found (read_root_file rt ROOT_MARKER_FILE);
  current ← found (read_root_file rt CURRENT_FILE);
  current ← match current with Some bs => Some <$> CurrentState.decode bs | None => mret None end;
  match marker, current with
  | Some bs, Some current => _ ← RootMarker.decode bs; mret (ExperimentalFormat current)
  | Some _, None => Err (Corrupted "experimental root marker has no CURRENT")
  | None, Some current => mret (IncompleteBootstrap current)
  | None, None => mret Fresh
  end.
Fixpoint check_generation_entries (es : list (bytes * GenEntry)) : res unit :=
  match es with
  | [] => mret tt
  | (name, entry) :: es =>
      _ ← guard_err (negb (bool_decide (parse_generation_name name = None)
                           || match entry with GDir _ => false | GOther _ => true end))
            (Corrupted "invalid generation entry");
      check_generation_entries es
  end.
Definition validate_generation_directory_entries (rt : ExpRoot) : res unit :=
  match om_get GENERATIONS_DIR (rt_entries rt) with
  | Some RDirectory => check_generation_entries (rt_generations rt)
  | _ => mret tt
  end.

(** The loop over the tables of the manifest. *)
Fixpoint validate_index_tables (fs : PathFacts) (sstable_dir : bytes) (d : TableDir) (tables : list SSTableMeta.t)
    : res unit :=
  match tables with
  | [] => mret tt
  | table :: tables =>
      _ ← validate_sstable_path fs sstable_dir table;
      _ ← validate_manifest_sstable (td_files d) (td_special d) table;
      validate_index_tables fs sstable_dir d tables
  end.
Definition tables_at (ix : IndexDir) : TableDir :=
  match ix_sstable ix with Has d => d | _ => mkTableDir [] [] end.
Definition validate_generation (root : bytes) (fs : PathFacts) (rt : ExpRoot) (current : CurrentState.t) : res unit :=
  _ ← guard_err (match om_get GENERATIONS_DIR (rt_entries rt) with Some RDirectory => true | _ => false end)
        (Corrupted "required generations directory is missing");
  g ← ok_or (get_generation rt (CurrentState.generation current)) (Corrupted "required generation directory is missing");
  wal ← require_entry_kind (g_wal g) "required generation directory is missing";
  ix ← require_entry_kind (g_index g) "required generation directory is missing";
  _ ← optional_entry_kind (g_seal g);
  _ ← optional_entry_kind (g_seal_temp g);
  marker ← require_entry_kind (ix_marker ix) "required index marker is missing";
  _ ← optional_entry_kind (ix_marker_temp ix);
  manifest_file ← require_entry_kind (ix_manifest ix) "required index MANIFEST is missing";
  _ ← optional_entry_kind (ix_sstable ix);
  _ ← RootMarker.decode marker;
  seal ← read_generation_seal g;
  manifest ← ManifestManager.read_existing_snapshot RegularFile manifest_file;
  let sstable_dir := path_join (path_join (generation_path root (CurrentState.generation current)) INDEX_DIR) SSTABLE_DIR in
  _ ← validate_index_tables fs sstable_dir (tables_at ix) ((ManifestSnapshot.levels manifest : list _) ≫= snd);
  '(recovered_sequence, next_physical_lsn) ← Wal.preflight_recovery wal;
  validate_recovery_against_current wal current seal recovered_sequence next_physical_lsn.

Definition empty_root : ExpRoot := mkExpRoot [] [].
(** The entries under a root that exists. *)
Definition root_contents (r : RootAt) : ExpRoot := match r with RootDir rt => rt | _ => empty_root end.
Definition preflight_root (root : bytes) (fs : PathFacts) (r : RootAt) : res RootFormat :=
  entries ← read_root_entries (root_path r);
  kind ← classify_root entries;
  _ ← guard_err (negb (bool_decide (kind = Kv2)))
        (StorageError "KV2 storage root cannot be opened as experimental storage");
  let rt := root_contents r in
  _ ← validate_generation_directory_entries rt;
  root_format ← inspect_root rt;
  _ ← match root_format with
      | IncompleteBootstrap current | ExperimentalFormat current => validate_generation root fs rt current
      | Fresh => mret tt
      end;
  mret root_format.

(** What preparing a root can run into. *)
Record PrepareFaults : Type := mkPrepareFaults {
  pf_bootstrap : BootstrapFaults;
  pf_current_temp : option TempFault;
  pf_current_rename : option RenameFault;
  pf_marker_temp : option TempFault;
  pf_marker_rename : option RenameFault
}.
Definition no_prepare_faults : PrepareFaults := mkPrepareFaults no_bootstrap_faults None None None None.
Definition prepare_root (root_format : RootFormat) (f : PrepareFaults) : eff ExpRoot CurrentState.t :=
  match root_format with
  | Fresh =>
      let current := CurrentState.mk INITIAL_GENERATION 0 in
      _ ← bootstrap_generation (CurrentState.generation current) (pf_bootstrap f);
      _ ← write_current current (pf_current_temp f) (pf_current_rename f);
      _ ← write_root_marker (pf_marker_temp f) (pf_marker_rename f);
      mret current
  | IncompleteBootstrap current =>
      _ ← write_root_marker (pf_marker_temp f) (pf_marker_rename f);
      mret current
  | ExperimentalFormat current => mret current
  end.
End validation.
