(* ===== verification/GenerationTheory.v ===== *)
(** * Generation names, reservations and seals

    A generation's number and its directory name determine each other; a
    number is never handed out twice; a seal accepts exactly the logs that
    still begin with what was sealed. *)

From stdpp Require Import sets.
From Stdlib Require Import Sorted.
From S2P Require Import Prelude Bytes OrdMap Search Record Footer WalFormat WalAnalysis Wal Manifest Store Root RootTheory.
From S2P Require Import Preflight SSTable Bloom Write Engine Generation.

(** ** Names *)

Lemma bz_digit d : 0 <= d < 10 → bz (digit d) = 48 + d.
Proof. intros Hd. unfold digit. rewrite bz_zb. apply Z.mod_small. lia. Qed.
Lemma digits_length n x : length (digits n x) = n.
Proof. revert x. induction n as [|n IH]; intros x; [done|]. cbn [digits]. rewrite length_app, IH. simpl. lia. Qed.
Lemma digits_ascii n x : forallb is_ascii_digit (digits n x) = true.
Proof.
  revert x. induction n as [|n IH]; intros x; [done|]. cbn [digits]. rewrite forallb_app, IH. simpl.
  pose proof (Z.mod_pos_bound x 10 ltac:(lia)). unfold is_ascii_digit. rewrite bz_digit by lia.
  rewrite (proj2 (Z.leb_le _ _)), (proj2 (Z.leb_le _ _)) by lia. done.
Qed.
Lemma digits_value_run n x : 0 <= x < 10 ^ Z.of_nat n → digits_value (digits n x) = x.
Proof.
  unfold digits_value. revert x. induction n as [|n IH]; intros x Hx; [simpl in *; lia|]. cbn [digits]. rewrite foldl_app. cbn [foldl].
  rewrite Nat2Z.inj_succ, Z.pow_succ_r in Hx by lia. pose proof (Z.mod_pos_bound x 10 ltac:(lia)).
  rewrite IH by (split; [apply Z.div_pos; lia | apply Z.div_lt_upper_bound; lia]).
  rewrite bz_digit by lia. rewrite (Z.div_mod x 10) at 3 by lia. lia.
Qed.
Lemma generation_name_parse g : is_u64 g → g ≠ 0 → parse_generation_name (generation_name g) = Some g.
Proof.
  intros Hg Hg0. unfold parse_generation_name, generation_name. unfold len at 1. rewrite digits_length, Z.eqb_refl, digits_ascii.
  cbn [negb orb]. rewrite digits_value_run by (unfold GENERATION_NAME_DIGITS; word_lia).
  rewrite (proj2 (Z.ltb_ge _ _)), (proj2 (Z.eqb_neq _ _)) by word_lia. done.
Qed.
(** A name that parses is the name of its number. *)
Lemma digits_of_value bs : forallb is_ascii_digit bs = true → digits (length bs) (digits_value bs) = bs ∧ 0 <= digits_value bs.
Proof.
  unfold digits_value. induction bs as [|b bs IH] using rev_ind; [done|]. rewrite forallb_app, andb_true_iff. intros [Hb Hd].
  destruct (IH Hb) as [IH1 IH2]. simpl in Hd. rewrite andb_true_r in Hd. apply andb_true_iff in Hd as [H1%Z.leb_le H2%Z.leb_le].
  rewrite foldl_app, length_app. cbn [foldl length]. rewrite Nat.add_1_r. cbn [digits].
  set (v := foldl _ 0 bs) in *. replace (10 * v + (bz b - 48)) with ((bz b - 48) + v * 10) by lia.
  rewrite Z.div_add, Z.mod_add, (Z.div_small (bz b - 48)), (Z.mod_small (bz b - 48)), Z.add_0_l, IH1 by lia.
  split; [|lia]. f_equal. unfold digit. replace (48 + (bz b - 48)) with (bz b) by lia. by rewrite zb_bz.
Qed.
Lemma parse_generation_inv name g : parse_generation_name name = Some g → name = generation_name g ∧ is_u64 g ∧ g ≠ 0.
Proof.
  unfold parse_generation_name. destruct (negb _ || negb _) eqn:E; [done|]. apply orb_false_iff in E as [E1 E2].
  apply negb_false_iff in E1, E2. apply Z.eqb_eq in E1. destruct (digits_of_value name E2) as [Hd Hv].
  destruct (_ || _) eqn:E3; [done|]. intros [= <-]. apply orb_false_iff in E3 as [E3%Z.ltb_ge E4%Z.eqb_neq].
  unfold generation_name. assert (length name = GENERATION_NAME_DIGITS) as Hl by (unfold len in E1; lia).
  rewrite Hl in Hd. split; [done|]. split; [word_lia | done].
Qed.

(** ** Numbers in use *)

Section reservation.
Context `{Crc32Spec}.
Implicit Types (rt : ExpRoot).

Lemma om_get_elem {K V} `{OrdKey K} k (m : list (K * V)) v : om_get k m = Some v → (k, v) ∈ m.
Proof.
  induction m as [|[k' v'] m IH]; [done|]. cbn [om_get]. destruct (kcmp k k') eqn:E.
  - apply kcmp_eq in E as ->. intros [= ->]. by left.
  - done || (intros ?; right; by apply IH).
  - intros ?. right. by apply IH.
Qed.
Lemma entry_ids_elem es ids name e : entry_ids es = Ok ids → (name, e) ∈ es → ∃ g, parse_generation_name name = Some g ∧ g ∈ ids.
Proof.
  revert ids. induction es as [|[n x] es IH]; intros ids; [by intros _ ?%elem_of_nil|]. cbn [entry_ids].
  intros (id & Hid%ok_or_Ok & (u & _ & (ids' & Hids & [= <-])%res_bind_Ok)%res_bind_Ok)%res_bind_Ok [[= -> ->]|Hin]%elem_of_cons.
  - exists id. split; [done | by left].
  - destruct (IH ids' Hids Hin) as (g & ? & ?). exists g. split; [done | by right].
Qed.
Lemma sorted_last (ids : list Z) (h x : Z) : StronglySorted (λ a b, Z.compare a b ≠ Gt) ids → last ids = Some h → x ∈ ids → x <= h.
Proof.
  intros Hs Hl Hx. apply last_Some in Hl as [l ->]. apply elem_of_app in Hx as [Hx| ->%list_elem_of_singleton]; [|lia].
  clear -Hs Hx. induction l as [|y l IH]; [by apply elem_of_nil in Hx|]. simpl in Hs. apply StronglySorted_inv in Hs as [Hs Hf].
  apply elem_of_cons in Hx as [->|Hx]; [|by apply IH]. rewrite Forall_forall in Hf. specialize (Hf h ltac:(set_solver)).
  destruct (Z.compare_spec y h); done || lia.
Qed.
Lemma ids_sorted rt ids : generation_directory_ids rt = Ok ids → StronglySorted (λ a b, Z.compare a b ≠ Gt) ids.
Proof.
  unfold generation_directory_ids. destruct (om_get GENERATIONS_DIR (rt_entries rt)) as [[]|]; try done; [|intros [= <-]; constructor].
  intros (l & _ & ->)%res_fmap_Ok. apply sort_by_sorted.
  - intros x y. apply Z.compare_antisym.
  - intros x y z. rewrite !Z.compare_gt_iff. lia.
Qed.
(** The number handed out is new: larger than every directory and not below
    the reservation. *)
Lemma next_reservation_new rt next following :
  next_reservation rt = Ok (next, following) →
  1 <= next ∧ following = next + 1 ∧ following <= u64_max ∧
  (∀ r, read_generation_reservation rt = Ok r → r <= next) ∧
  (om_get GENERATIONS_DIR (rt_entries rt) = Some RDirectory →
     ∀ name e, (name, e) ∈ rt_generations rt → ∃ g, parse_generation_name name = Some g ∧ g < next).
Proof.
  unfold next_reservation. intros (reserved & Hr & (ids & Hids & (nx & Hnx & (fo & Hfo & [= <- <-])%res_bind_Ok)%res_bind_Ok)%res_bind_Ok)%res_bind_Ok.
  apply ok_or_Ok, checked_add_Some in Hfo as [-> Hle]. unfold INITIAL_GENERATION in *.
  split_and!; [lia | done | done | intros r Hr'; rewrite Hr in Hr'; injection Hr' as <-; lia|].
  intros Hdir name e Hin. pose proof (ids_sorted _ _ Hids) as Hs. unfold generation_directory_ids in Hids. rewrite Hdir in Hids.
  apply res_fmap_Ok in Hids as (l & Hl & ->). destruct (entry_ids_elem _ _ _ _ Hl Hin) as (g & Hg & Hgl).
  exists g. split; [done|]. assert (g ∈ sort_by Z.compare l) as Hgs by (by rewrite sort_by_perm).
  destruct (last (sort_by Z.compare l)) as [h|] eqn:Hlast.
  - pose proof (sorted_last _ _ _ Hs Hlast Hgs). apply ok_or_Ok, checked_add_Some in Hnx as [-> _]. lia.
  - apply last_None in Hlast. rewrite Hlast in Hgs. by apply elem_of_nil in Hgs.
Qed.

(** ** Roots over time

    What the store does to a root, with the number each step hands out. *)

Inductive root_step : ExpRoot → list Z → ExpRoot → Prop :=
| step_reserve tf rf rt g rt' : reserve_next_generation tf rf rt = (Ok g, rt') → root_step rt [g] rt'
| step_reserve_failed tf rf rt e rt' : reserve_next_generation tf rf rt = (Err e, rt') → root_step rt [] rt'
| step_bootstrap g f rt : root_step rt [] (bootstrap_generation g f rt).2
| step_generation {A} g (f : GenDir → res A * GenDir) rt : root_step rt [] (on_generation g f rt).2
| step_cleanup g f rt : root_step rt [] (cleanup_abandoned_generations g f rt).2
| step_reclaim g f rt : root_step rt [] (reclaim_generations g f rt).2
| step_current c tf rf rt : root_step rt [] (write_current c tf rf rt).2
| step_marker tf rf rt : root_step rt [] (write_root_marker tf rf rt).2.
Inductive root_run : ExpRoot → list Z → ExpRoot → Prop :=
| run_here rt : root_run rt [] rt
| run_more rt gs rt1 gs' rt2 : root_run rt gs rt1 → root_step rt1 gs' rt2 → root_run rt (gs ++ gs') rt2.

(** An operation that leaves a file of the root alone. *)
Definition leaves (name : bytes) {A} (p : eff ExpRoot A) : Prop :=
  ∀ rt, om_get name (rt_entries (p rt).2) = om_get name (rt_entries rt).

Lemma leaves_bind name {A B} (p : eff ExpRoot A) (f : A → eff ExpRoot B) :
  leaves name p → (∀ a, leaves name (f a)) → leaves name (p ≫= f).
Proof.
  intros Hp Hf rt. specialize (Hp rt). unfold mbind, eff_bind. destruct (p rt) as [[a|e|] rt']; [|done|done].
  rewrite Hf. exact Hp.
Qed.
Lemma write_leaves name temporary bs fault : name ≠ temporary → leaves name (write_temporary_bytes temporary bs fault).
Proof.
  intros Hn rt. unfold write_temporary_bytes. destruct fault as [[k [n|]]|]; simpl; try done; by rewrite om_get_insert_ne.
Qed.
Lemma rename_leaves name temporary name' fault :
  name ≠ temporary → name ≠ name' → leaves name (rename_file temporary name' fault).
Proof.
  intros Hn Hn' rt. unfold rename_file.
  assert (om_get name (rt_entries (rename_entry temporary name' rt)) = om_get name (rt_entries rt)) as Hr.
  { unfold rename_entry. destruct (om_get temporary _); [|done]. simpl. by rewrite om_get_insert_ne, om_get_remove_ne. }
  destruct fault as [[k []]|]; try done. by destruct (om_get temporary _).
Qed.
Lemma generation_leaves name {A} g (f : GenDir → res A * GenDir) : leaves name (on_generation g f).
Proof. intros rt. unfold on_generation. destruct (get_generation rt g); [|done]. by destruct (f _). Qed.
Lemma bootstrap_leaves name g f : name ≠ GENERATIONS_DIR → leaves name (bootstrap_generation g f).
Proof.
  intros Hn rt. unfold bootstrap_generation. destruct (bf_dir f); [done|].
  destruct (make_generation_dir g rt) as [rt'|e|] eqn:E; [|done|done]. rewrite generation_leaves. unfold make_generation_dir in E.
  apply res_bind_Ok in E as (? & _ & E). apply res_bind_Ok in E as (? & _ & E). apply res_bind_Ok in E as (? & _ & [= <-]).
  simpl. by rewrite om_get_insert_ne.
Qed.
Lemma remove_leaves name g fault : leaves name (remove_generation_tree g fault).
Proof.
  intros rt. unfold remove_generation_tree. destruct (get_generation rt g); [|done].
  destruct (check_removable _); [|done|done]. by destruct fault as [[k l]|].
Qed.
Lemma cleanup_leaves name g f : leaves name (cleanup_abandoned_generations g f).
Proof.
  intros rt. unfold cleanup_abandoned_generations. apply leaves_bind; [by intros ?|]. intros ids.
  induction ids as [|i ids IH]; [by intros ?|]. cbn [remove_others]. destruct (i =? g); [done|].
  apply leaves_bind; [apply remove_leaves | done].
Qed.
Lemma reclaim_leaves name g f rt : om_get name (rt_entries (reclaim_generations g f rt).2) = om_get name (rt_entries rt).
Proof.
  unfold reclaim_generations. destruct (generation_directory_ids rt) as [ids|e|]; [|done|done].
  generalize 0 as d. revert rt. induction ids as [|i ids IH]; intros rt d; [done|]. cbn [reclaim_loop]. destruct (i =? g); [apply IH|].
  pose proof (remove_leaves name i (f i) rt) as Hr. destruct (remove_generation_tree i (f i) rt) as [[]]; simpl in Hr; by rewrite IH, Hr.
Qed.
Lemma current_leaves name c tf rf : name ≠ CURRENT_TEMP_FILE → name ≠ CURRENT_FILE → leaves name (write_current c tf rf).
Proof. intros ? ?. apply leaves_bind; [by apply write_leaves | intros _; by apply rename_leaves]. Qed.
Lemma marker_leaves name tf rf : name ≠ ROOT_MARKER_TEMP_FILE → name ≠ ROOT_MARKER_FILE → leaves name (write_root_marker tf rf).
Proof.
  intros ? ? rt. unfold write_root_marker. destruct (found _) as [[bs|]|e|]; try done.
  apply leaves_bind; [by apply write_leaves | intros _; by apply rename_leaves].
Qed.

Lemma reservation_same rt rt' :
  om_get NEXT_GENERATION_FILE (rt_entries rt') = om_get NEXT_GENERATION_FILE (rt_entries rt) →
  read_generation_reservation rt' = read_generation_reservation rt.
Proof. intros E. unfold read_generation_reservation, read_root_file. by rewrite E. Qed.
(** A reservation stores the successor of the number it takes; one that fails
    stores that or nothing. *)
Lemma reserve_run tf rf rt r rt' :
  reserve_next_generation tf rf rt = (r, rt') →
  match r with
  | Ok g => next_reservation rt = Ok (g, g + 1) ∧ read_generation_reservation rt' = Ok (g + 1)
  | _ => read_generation_reservation rt' = read_generation_reservation rt ∨
         ∃ g, next_reservation rt = Ok (g, g + 1) ∧ read_generation_reservation rt' = Ok (g + 1)
  end.
Proof.
  unfold reserve_next_generation, mbind at 1, eff_bind at 1, pure_eff at 1.
  destruct (next_reservation rt) as [[g following]|e|] eqn:En; [|intros [= <- <-]; by left|intros [= <- <-]; by left].
  destruct (next_reservation_new _ _ _ En) as (Hg & -> & Hle & _ & _).
  set (bs := GenerationReservation.encode (GenerationReservation.mk (g + 1))). set (name := NEXT_GENERATION_TEMP_FILE).
  pose proof (write_leaves NEXT_GENERATION_FILE name bs tf ltac:(done) rt) as Hw.
  unfold mbind at 1, eff_bind at 1. destruct (write_temporary_bytes name bs tf rt) as [[u|e|] rt1] eqn:E1; simpl in Hw.
  2,3: intros [= <- <-]; left; by apply reservation_same.
  assert (om_get name (rt_entries rt1) = Some (RFile bs)) as Ht.
  { unfold write_temporary_bytes in E1. destruct tf as [[k [n|]]|]; [done | done|]. injection E1 as <- <-. apply om_get_insert_eq. }
  assert (read_generation_reservation (rename_entry name NEXT_GENERATION_FILE rt1) = Ok (g + 1)) as Hr.
  { unfold read_generation_reservation, read_root_file, rename_entry. rewrite Ht. cbn [rt_entries]. rewrite om_get_insert_eq.
    cbn [found mbind res_bind]. rewrite (proj2 (reservation_exact bs (GenerationReservation.mk (g + 1)))); [done|].
    split; [|done]. split; [simpl; word_lia | simpl; lia]. }
  unfold mbind, eff_bind, rename_file. destruct rf as [[k []]|]; [| |rewrite Ht]; intros [= <- <-].
  - right. by exists g.
  - left. by apply reservation_same.
  - done.
Qed.
(** The stored reservation only grows, past everything handed out. *)
Lemma step_reservation rt gs rt' :
  root_step rt gs rt' →
  (read_generation_reservation rt' = read_generation_reservation rt ∧ gs = []) ∨
  ∃ g, next_reservation rt = Ok (g, g + 1) ∧ read_generation_reservation rt' = Ok (g + 1) ∧ (gs = [] ∨ gs = [g]).
Proof.
  intros Hs. destruct Hs as [tf rf rt g rt' Hr|tf rf rt e rt' Hr| | | | | |].
  - apply reserve_run in Hr as [? ?]. right. exists g. auto.
  - apply reserve_run in Hr as [?|(g & ? & ?)]; [by left|]. right. exists g. auto.
  - left. split; [|done]. apply reservation_same. by apply bootstrap_leaves.
  - left. split; [|done]. apply reservation_same, generation_leaves.
  - left. split; [|done]. apply reservation_same, cleanup_leaves.
  - left. split; [|done]. apply reservation_same, reclaim_leaves.
  - left. split; [|done]. apply reservation_same. by apply current_leaves.
  - left. split; [|done]. apply reservation_same. by apply marker_leaves.
Qed.
Lemma run_reservation rt gs rt' :
  root_run rt gs rt' → gs = [] ∨ ∃ r, read_generation_reservation rt' = Ok r ∧ Forall (λ g, g < r) gs.
Proof.
  induction 1 as [|rt gs rt1 gs' rt2 _ IH Hs]; [by left|]. apply step_reservation in Hs as [[Hr ->]|(g & Hn & Hr & Hgs)].
  { rewrite app_nil_r, Hr. exact IH. }
  right. exists (g + 1). split; [done|]. destruct (next_reservation_new _ _ _ Hn) as (_ & _ & _ & Hold & _).
  apply Forall_app. split; [|destruct Hgs as [->| ->]; repeat constructor; lia].
  destruct IH as [->|(r & Hr1 & Hf)]; [constructor|]. specialize (Hold r Hr1). eapply Forall_impl; [exact Hf|]. simpl. lia.
Qed.

Lemma reserve_fresh tf rf rt g rt' :
  reserve_next_generation tf rf rt = (Ok g, rt') →
  1 <= g < u64_max ∧ read_generation_reservation rt' = Ok (g + 1) ∧ (∀ r, read_generation_reservation rt = Ok r → r <= g) ∧
  (om_get GENERATIONS_DIR (rt_entries rt) = Some RDirectory → om_get (generation_name g) (rt_generations rt) = None).
Proof.
  intros Hres. apply reserve_run in Hres as [Hn Hr]. destruct (next_reservation_new _ _ _ Hn) as (Hg & _ & Hle & Hold & Hdir).
  split; [lia|]. split; [done|]. split; [done|]. intros Hd. destruct (om_get (generation_name g) _) as [e|] eqn:E; [|done].
  destruct (Hdir Hd _ _ (om_get_elem _ _ _ E)) as (g' & Hp & Hlt). rewrite generation_name_parse in Hp by (try word_lia; lia).
  injection Hp as ->. lia.
Qed.

(** C6.  A generation number is handed out once: whatever the store did to a
    root before - reservations that failed halfway, generations made, removed
    or abandoned, [CURRENT] replaced - the next number is above every number
    handed out, no directory has it, and its successor is stored. *)
Theorem generations_never_reused rt gs rt1 tf rf g rt2 :
  root_run rt gs rt1 → reserve_next_generation tf rf rt1 = (Ok g, rt2) →
  1 <= g < u64_max ∧ Forall (λ x, x < g) gs ∧ read_generation_reservation rt2 = Ok (g + 1) ∧
  (om_get GENERATIONS_DIR (rt_entries rt1) = Some RDirectory → om_get (generation_name g) (rt_generations rt1) = None).
Proof.
  intros Hrun Hres. destruct (reserve_fresh _ _ _ _ _ Hres) as (Hg & Hr & Hold & Hdir). split; [done|]. split; [|done].
  destruct (run_reservation _ _ _ Hrun) as [->|(r & Hr1 & Hf)]; [constructor|]. specialize (Hold r Hr1).
  eapply Forall_impl; [exact Hf|]. simpl. lia.
Qed.
End reservation.

(** One generation made, a reservation that failed after its rename, then the
    next: number 2 is skipped. *)
Definition once_root : ExpRoot := Eval vm_compute in (reserve_next_generation (H := ieee) None None empty_root).2.
Definition first_root : ExpRoot := Eval vm_compute in (bootstrap_generation (H := ieee) 1 no_bootstrap_faults once_root).2.
Definition failed_root : ExpRoot :=
  Eval vm_compute in (reserve_next_generation (H := ieee) None (Some (OtherIo, true)) first_root).2.
Lemma generations_never_reused_witness :
  ∃ rt2, reserve_next_generation (H := ieee) None None failed_root = (Ok 3, rt2) ∧
    om_get (generation_name 3) (rt_generations failed_root) = None ∧ Forall (λ x, x < 3) [1].
Proof.
  eexists. split; [vm_compute; reflexivity|].
  destruct (@generations_never_reused ieee ieee_spec empty_root [1] failed_root None None 3 _
    (@run_more ieee _ [1] first_root [] failed_root
       (@run_more ieee _ [1] once_root [] first_root
          (@run_more ieee _ [] empty_root [1] once_root (@run_here ieee empty_root)
             (@step_reserve ieee None None empty_root 1 once_root ltac:(vm_compute; reflexivity)))
          (@step_bootstrap ieee 1 no_bootstrap_faults once_root))
       (@step_reserve_failed ieee None (Some (OtherIo, true)) first_root _ failed_root ltac:(vm_compute; reflexivity)))
    ltac:(vm_compute; reflexivity)) as (_ & Hf & _ & Hn).
  split; [apply Hn; vm_compute; reflexivity | exact Hf].
Defined.
