(* ===== verification/Experimental.v ===== *)
(** * The experimental engine: [src/src/storage/experimental.rs]

    An engine that keeps values in its log: its index, a [KV2] in reference
    mode, maps keys to references into the log of the same generation.
    Cleaning copies what is alive into a new generation and switches to it by
    replacing [CURRENT].  The engine shares its log with its index, so the
    lease of a generation is its number. *)

From S2P Require Import Prelude Bytes OrdMap Search Record WalFormat WalAnalysis Wal WalRead Manifest Admission Config Store.
From S2P Require Import Preflight Bloom SSTable Read Write Compaction Root Engine Generation.

Definition MAX_COPY_TRANSACTION_RECORDS : Z := 256.
Definition MAX_COPY_TRANSACTION_BYTES : Z := 8 * 1024 * 1024.
Definition COPY_TRANSACTION_OVERHEAD_BYTES : Z := 37.
Definition COPY_UPDATE_FRAME_OVERHEAD_BYTES : Z := 62.

Inductive OperationalState : Type := Active | Poisoned | Closed.
#[export] Instance OperationalState_eq_dec : EqDecision OperationalState.
Proof. solve_decision. Defined.

(** A computation that looks at the state. *)
Definition query {S A} (f : S → res A) : eff S A := λ s, (f s, s).

(** ** Recovery of the index *)

Section recovery.
Context `{Crc32}.

(** The newest update of every key so far, and the largest sequence number. *)
Definition add_update (generation : Z) (acc : ordmap bytes (Z * MemtableRecord.t) * Z) (update : RecoveredWalUpdate)
    : res (ordmap bytes (Z * MemtableRecord.t) * Z) :=
  let '(newest, max_sequence) := acc in
  let r := ru_record update in
  record_type ← match WALRecord.record_type r with
                | x01 => mret Put
                | x02 => mret Delete
                | _ => Err (Corrupted "Invalid WAL record type during reference recovery")
                end;
  let value := match record_type with
               | Put => ReferenceValue.encode (ReferenceValue.new generation (ru_reference update))
               | Delete => []
               end in
  let record := MemtableRecord.new value record_type (WALRecord.lsn r) in
  let entry := (WALRecord.lsn r, record) in
  let newest' := match om_get (WALRecord.key r) newest with
                 | Some existing =>
                     if fst existing <? WALRecord.lsn r then om_insert (WALRecord.key r) entry newest else newest
                 | None => om_insert (WALRecord.key r) entry newest
                 end in
  mret (newest', Z.max max_sequence (WALRecord.lsn r)).
Fixpoint add_updates (generation : Z) (acc : ordmap bytes (Z * MemtableRecord.t) * Z) (updates : list RecoveredWalUpdate)
    : res (ordmap bytes (Z * MemtableRecord.t) * Z) :=
  match updates with
  | [] => mret acc
  | u :: updates => acc ← add_update generation acc u; add_updates generation acc updates
  end.
Definition build_reference_memtable (generation : Z) (updates : list RecoveredWalUpdate) : res (memtable * Z * Z) :=
  '(newest, max_sequence) ← add_updates generation ([], 0) updates;
  let '(tab, total_size) :=
    foldl (λ (acc : memtable * Z) e,
      let '(key, (lsn, record)) := e in
      (om_insert (key, lsn) record (fst acc), wrap64 (snd acc + (len key + len (MemtableRecord.value record)))))
      ([], 0) newest in
  mret (tab, total_size, max_sequence).
End recovery.

(** ** Copying what is alive *)

Record CopiedLiveIndex : Type := mkCopied {
  cp_memtable : memtable;
  cp_memtable_size : Z;
  cp_live_records : Z;
  cp_live_logical_bytes : Z;
  cp_payload_bytes : Z;
  cp_transactions : Z;
  cp_max_live_sequence : Z
}.
Definition new_copied : CopiedLiveIndex := mkCopied [] 0 0 0 0 0 0.
Definition count_record (c : CopiedLiveIndex) (key value : bytes) (lsn : Z) : CopiedLiveIndex :=
  mkCopied (cp_memtable c) (cp_memtable_size c) (wrap64 (cp_live_records c + 1))
    (wrap64 (cp_live_logical_bytes c + (len key + len value))) (wrap64 (cp_payload_bytes c + len value))
    (cp_transactions c) (Z.max (cp_max_live_sequence c) lsn).

Section engine_ops.
Context `{Crc32}.

(** [resolve_record]: the value a record of the index refers to. *)
Definition resolve_record (wal : Wal.t) (generation : Z) (key : bytes) (record : MemtableRecord.t) : res bytes :=
  _ ← guard_err (negb (is_delete (MemtableRecord.record_type record)))
        (Corrupted "WAL reference index resolved a non-put record");
  value ← ReferenceValue.decode (MemtableRecord.value record);
  _ ← guard_err (ReferenceValue.generation value =? generation) (Corrupted "WAL value reference generation mismatch");
  _ ← guard_err (WalValueRef.application_sequence (ReferenceValue.reference value) =? MemtableRecord.lsn record)
        (Corrupted "WAL value reference sequence mismatch");
  read_value wal (ReferenceValue.reference value) key (MemtableRecord.lsn record).
Fixpoint resolve_all (wal : Wal.t) (generation : Z) (records : list (bytes * MemtableRecord.t))
    : res (list (bytes * bytes)) :=
  match records with
  | [] => mret []
  | (key, record) :: records =>
      value ← resolve_record wal generation key record;
      rest ← resolve_all wal generation records;
      mret ((key, value) :: rest)
  end.

(** The loop over the receipts of a copied transaction. *)
Fixpoint add_receipts (generation : Z) (c : CopiedLiveIndex) (identities : list (bytes * Z))
    (receipts : list WalValueRef.t) : res CopiedLiveIndex :=
  match identities, receipts with
  | (key, application_sequence) :: identities, receipt :: receipts =>
      _ ← guard_err ((WalValueRef.application_sequence receipt =? application_sequence)
                     && negb (is_delete (WalValueRef.record_type receipt)))
            (StorageError "new WAL reference does not match the copied record");
      let reference := ReferenceValue.encode (ReferenceValue.new generation receipt) in
      add_receipts generation
        (mkCopied (om_insert (key, application_sequence) (MemtableRecord.new reference Put application_sequence) (cp_memtable c))
           (wrap64 (cp_memtable_size c + (len key + len reference))) (cp_live_records c) (cp_live_logical_bytes c)
           (cp_payload_bytes c) (cp_transactions c) (cp_max_live_sequence c)) identities receipts
  | _, _ => mret c
  end.
Definition append_copy_transaction (c : CopiedLiveIndex) (new_generation : Z) (commands : list LogCommand.t)
    (rf : option Wal.RotateFault) (wf : option Wal.WriteFault) : eff Wal.t CopiedLiveIndex :=
  receipts ← ((λ w, Wal.append_engine_transactions w [commands] None true rf wf) : eff Wal.t _);
  receipts ← pure_eff (ok_or (last receipts) (StorageError "new WAL returned no value references"));
  _ ← pure_eff (guard_err (len receipts =? len commands)
        (StorageError "new WAL references do not match the copied transaction"));
  c ← pure_eff (add_receipts new_generation c (map (λ cmd, (LogCommand.key cmd, LogCommand.lsn cmd)) commands) receipts);
  mret (mkCopied (cp_memtable c) (cp_memtable_size c) (cp_live_records c) (cp_live_logical_bytes c)
          (cp_payload_bytes c) (wrap64 (cp_transactions c + 1)) (cp_max_live_sequence c)).

(** What the appends of a copy run into, one by one. *)
Definition CopyFaults : Type := list (option Wal.RotateFault * option Wal.WriteFault).
Definition next_fault (fs : CopyFaults) : (option Wal.RotateFault * option Wal.WriteFault) * CopyFaults :=
  match fs with [] => ((None, None), []) | f :: fs => (f, fs) end.

(** The loop over the live records; [transaction] collects commands until one
    of its limits is reached. *)
Fixpoint copy_loop (old : Wal.t) (old_generation new_generation : Z) (c : CopiedLiveIndex)
    (transaction : list LogCommand.t) (transaction_bytes : Z) (live : list (bytes * MemtableRecord.t))
    (faults : CopyFaults) : eff Wal.t CopiedLiveIndex :=
  match live with
  | [] =>
      match transaction with
      | [] => mret c
      | _ => let '((rf, wf), _) := next_fault faults in append_copy_transaction c new_generation transaction rf wf
      end
  | (key, record) :: live =>
      _ ← pure_eff (guard_err (negb (is_delete (MemtableRecord.record_type record)))
            (Corrupted "live index snapshot contains a tombstone"));
      value ← pure_eff (resolve_record old old_generation key record);
      frame_bytes ← pure_eff (ok_or (n ← checked_add COPY_UPDATE_FRAME_OVERHEAD_BYTES (len key); checked_add n (len value))
        (StorageError "copied WAL frame size overflow"));
      let command := LogCommand.mk Put key value (MemtableRecord.lsn record) in
      if negb (len transaction =? 0)
         && ((MAX_COPY_TRANSACTION_RECORDS <=? len transaction)
             || (MAX_COPY_TRANSACTION_BYTES <? wrap64 (transaction_bytes + frame_bytes)))
      then
        let '((rf, wf), faults) := next_fault faults in
        c ← append_copy_transaction c new_generation transaction rf wf;
        copy_loop old old_generation new_generation (count_record c key value (MemtableRecord.lsn record)) [command]
          (wrap64 (COPY_TRANSACTION_OVERHEAD_BYTES + frame_bytes)) live faults
      else
        copy_loop old old_generation new_generation (count_record c key value (MemtableRecord.lsn record))
          (transaction ++ [command]) (wrap64 (transaction_bytes + frame_bytes)) live faults
  end.
Definition copy_live_records (old : Wal.t) (old_generation new_generation : Z) (live : list (bytes * MemtableRecord.t))
    (faults : CopyFaults) : eff Wal.t CopiedLiveIndex :=
  copy_loop old old_generation new_generation new_copied [] COPY_TRANSACTION_OVERHEAD_BYTES live faults.

(** The loop of [validate_reference_index]. *)
Fixpoint check_references (wal : Wal.t) (generation : Z) (records : list (bytes * MemtableRecord.t)) : res unit :=
  match records with
  | [] => mret tt
  | (key, record) :: records =>
      _ ← guard_err (negb (is_delete (MemtableRecord.record_type record)))
            (Corrupted "new reference index contains a tombstone");
      reference ← ReferenceValue.decode (MemtableRecord.value record);
      _ ← guard_err (ReferenceValue.generation reference =? generation)
            (Corrupted "new reference index points at another generation");
      _ ← guard_err (WalValueRef.application_sequence (ReferenceValue.reference reference) =? MemtableRecord.lsn record)
            (Corrupted "new reference index sequence mismatch");
      _ ← read_value wal (ReferenceValue.reference reference) key (MemtableRecord.lsn record);
      check_references wal generation records
  end.
End engine_ops.

(** ** Between the disk and the engine *)

Definition inner_wal (s : KV2.t) : Wal.t := WriteComponent.wal (KV2.write_component s).
(** The files of a running index, put back into its generation directory. *)
Definition save_tables (s : slot TableDir) (files : ordmap bytes bytes) : slot TableDir :=
  match s, files with
  | Absent, [] => Absent
  | _, _ => set_inside s (mkTableDir files (match s with Has d => td_special d | _ => [] end))
  end.
Definition save_generation (s : KV2.t) (g : GenDir) : GenDir :=
  let w := KV2.write_component s in
  let ix := match follow (g_index g) with Ok ix => ix | _ => empty_index end in
  set_index_slot (set_wal_slot g (set_inside (g_wal g) (Wal.dir (inner_wal s))))
    (set_inside (g_index g)
       (mkIndexDir (ix_marker ix) (ix_marker_temp ix)
          (set_inside (ix_manifest ix) (ManifestManager.file (WriteComponent.manifest w)))
          (save_tables (ix_sstable ix) (WriteComponent.files w)))).
Definition update_generation (generation : Z) (f : GenDir → GenDir) (rt : ExpRoot) : ExpRoot :=
  match get_generation rt generation with
  | Some g => put_generation generation (f g) rt
  | None => rt
  end.
Definition store (generation : Z) (s : KV2.t) : ExpRoot → ExpRoot := update_generation generation (save_generation s).
Definition store_wal (generation : Z) (w : Wal.t) : ExpRoot → ExpRoot :=
  update_generation generation (λ g, set_wal_slot g (set_inside (g_wal g) (Wal.dir w))).

(** What opening a store runs into. *)
Record OpenFaults : Type := mkOpenFaults {
  of_create : option io_kind;
  of_locked : bool;
  of_prepare : PrepareFaults;
  of_current_temp : option TempFault;
  of_current_rename : option RenameFault;
  of_cleanup : Z → option RemoveFault
}.
(** What cleaning runs into, in the order of its steps. *)
Record CleanFaults : Type := mkCleanFaults {
  cl_measure_before : option io_kind;
  cl_reserve_temp : option TempFault;
  cl_reserve_rename : option RenameFault;
  cl_bootstrap : BootstrapFaults;
  cl_copy : CopyFaults;
  cl_flush : FlushFaults;
  cl_seal_temp : option TempFault;
  cl_seal_rename : option RenameFault;
  cl_measure_peak : option io_kind;
  cl_current_temp : option TempFault;
  cl_current_rename : option RenameFault;
  cl_compaction : CompactionFaults;
  cl_remove : Z → option RemoveFault;
  cl_measure_after : option io_kind
}.
(** Without the durations. *)
Record CleanStats : Type := mkCleanStats {
  cs_old_generation : Z;
  cs_new_generation : Z;
  cs_live_records : Z;
  cs_live_logical_bytes : Z;
  cs_copied_payload_bytes : Z;
  cs_copied_transactions : Z;
  cs_index_sstables_written : Z;
  cs_total_root_bytes_before : Z;
  cs_observed_peak_bytes : Z;
  cs_total_root_bytes_after : Z;
  cs_deferred_cleanup_bytes : Z
}.

Section disk_ops.
Context `{Crc32, FastBloom}.

(** [WALManager::new] of a generation, which may repair the tail of the log. *)
Definition open_wal (generation max_segment_size : Z) : eff ExpRoot Wal.t :=
  on_generation generation (λ g,
    match (s ← make_dir (g_wal g) empty_dir; d ← follow s; w ← Wal.new_inner d max_segment_size None false; mret (s, w)) with
    | Ok (s, w) => (Ok w, set_wal_slot g (set_inside s (Wal.dir w)))
    | Err e => (Err e, g)
    | Panic => (Panic, g)
    end).
(** [KV2::open_reference_index] on the files of a generation. *)
Definition open_index (root : bytes) (generation : Z) (w : Wal.t) (tab : memtable) (size sequence : Z)
    (config : StorageConfig.t) (token : Z) : eff ExpRoot KV2.t := λ rt,
  match (g ← ok_or (get_generation rt generation) (IO NotFoundKind);
         ix ← follow (g_index g);
         manifest_file ← found (follow (ix_manifest ix));
         KV2.open_reference_index (path_join (generation_path root generation) INDEX_DIR) manifest_file
           (td_files (tables_at ix)) (td_special (tables_at ix)) w tab size sequence generation config token) with
  | Ok s => (Ok s, store generation s rt)
  | Err e => (Err e, rt)
  | Panic => (Panic, rt)
  end.
Definition validate_reference_index (generation : Z) : eff KV2.t unit := λ s,
  (records ← KV2.scan_records (Unbounded, Unbounded);
   pure_eff (check_references (inner_wal s) generation records)) s.
End disk_ops.

(** ** The engine *)

Module ExperimentalEngine.
Section engine.
Context `{Crc32, FastBloom}.

(** [disk] is the root, up to the files its index has open. *)
Record t : Type := mk {
  inner : KV2.t;
  generation : Z;
  root : bytes;
  disk : ExpRoot;
  state : OperationalState
}.
Definition set_inner (e : t) (s : KV2.t) : t := mk s (generation e) (root e) (disk e) (state e).
Definition set_disk (e : t) (rt : ExpRoot) : t := mk (inner e) (generation e) (root e) rt (state e).
Definition set_state (e : t) (st : OperationalState) : t := mk (inner e) (generation e) (root e) (disk e) st.
(** What is on the disk while the engine runs. *)
Definition root_of (e : t) : ExpRoot := store (generation e) (inner e) (disk e).

Definition on_inner {A} (p : eff KV2.t A) : eff t A := λ e, let '(r, s) := p (inner e) in (r, set_inner e s).
Definition on_disk {A} (p : eff ExpRoot A) : eff t A := λ e, let '(r, rt) := p (disk e) in (r, set_disk e rt).
Definition modify (f : t → t) : eff t unit := λ e, (Ok tt, f e).

Definition ensure_operational : eff t unit := λ e,
  (match state e with
   | Active => Ok tt
   | Poisoned => Err (StorageError "experimental engine stopped after an interrupted generation switch")
   | Closed => Err (StorageError "experimental engine is closed")
   end, e).

(** *** Opening *)

Definition raise_floor (current : CurrentState.t) (sequence : Z) (tf : option TempFault) (rf : option RenameFault)
    : eff ExpRoot unit :=
  if CurrentState.application_sequence_floor current <? sequence
  then write_current (CurrentState.mk (CurrentState.generation current) sequence) tf rf
  else mret tt.
Definition open_prepared (root : bytes) (root_format : RootFormat) (config : StorageConfig.t) (token : Z) (f : OpenFaults)
    : eff ExpRoot t :=
  current ← prepare_root root_format (of_prepare f);
  let generation := CurrentState.generation current in
  wal ← open_wal generation (StorageConfig.wal_segment_size config);
  recovered ← pure_eff (Wal.recover_records_with_refs wal);
  '(tab, size, recovered_sequence) ← pure_eff (build_reference_memtable generation recovered);
  '(_, next_physical_lsn) ← pure_eff (Wal.recovery_position wal);
  seal ← query (λ rt, g ← ok_or (get_generation rt generation) (IO NotFoundKind); read_generation_seal g);
  _ ← pure_eff (validate_recovery_against_current (Wal.dir wal) current seal recovered_sequence next_physical_lsn);
  let sequence_floor := Z.max recovered_sequence (CurrentState.application_sequence_floor current) in
  _ ← raise_floor current sequence_floor (of_current_temp f) (of_current_rename f);
  inner ← open_index root generation wal tab size sequence_floor config token;
  _ ← cleanup_abandoned_generations generation (of_cleanup f);
  query (λ rt, Ok (mk inner generation root rt Active)).
(** [RootLock::acquire]: the file is created, then locked. *)
Definition acquire_lock (locked : bool) : eff ExpRoot unit := λ rt,
  let rt := match om_get LOCK_FILE (rt_entries rt) with
            | None => set_entry rt LOCK_FILE (RFile [])
            | Some _ => rt
            end in
  (guard_err (negb locked) (StorageError "experimental storage root is locked by another engine"), rt).
Definition open_with_config (root : bytes) (fs : PathFacts) (config : StorageConfig.t) (token : Z) (f : OpenFaults)
    : eff RootAt t := λ r,
  match (_ ← StorageConfig.validate config; preflight_root root fs r), of_create f with
  | Ok root_format, None =>
      let '(e, rt) := (_ ← acquire_lock (of_locked f); open_prepared root root_format config token f) (root_contents r) in
      (e, RootDir rt)
  | Ok _, Some k => (Err (IO k), r)
  | Err e, _ => (Err e, r)
  | Panic, _ => (Panic, r)
  end.

Definition open (root : bytes) (fs : PathFacts) (token : Z) (f : OpenFaults) : eff RootAt t :=
  open_with_config root fs StorageConfig.default_ token f.

(** *** Reads and writes *)

Definition get (key : bytes) : eff t (option bytes) :=
  _ ← ensure_operational;
  record ← on_inner (KV2.get_record key);
  match record with
  | None => mret None
  | Some record =>
      if is_delete (MemtableRecord.record_type record) then mret None
      else query (λ e, Some <$> resolve_record (inner_wal (inner e)) (generation e) key record)
  end.
Definition scan (range : key_range) : eff t (list (bytes * bytes)) :=
  _ ← ensure_operational;
  records ← on_inner (KV2.scan_records range);
  query (λ e, resolve_all (inner_wal (inner e)) (generation e) records).
Definition put (key value : bytes) (f : KV2.WriteFaults) : eff t unit :=
  _ ← ensure_operational; on_inner (KV2.put key value f).
Definition delete (key : bytes) (f : KV2.WriteFaults) : eff t unit :=
  _ ← ensure_operational; on_inner (KV2.delete key f).
Definition write_batch (operations : list BatchOperation) (f : KV2.WriteFaults) : eff t unit :=
  _ ← ensure_operational; on_inner (KV2.write_batch operations f).
Definition await_pending_writes : eff t unit := ensure_operational.

(** *** Shutdown *)

Definition raise_published (current : CurrentState.t) (tf : option TempFault) (rf : option RenameFault) : eff t unit := λ e,
  let sequence := Z.max (KV2.current_sequence_number (inner e)) (CurrentState.application_sequence_floor current) in
  on_disk (raise_floor current sequence tf rf) e.
Definition shutdown (fuel : nat) (cf : CompactionFaults) (checks : option nat)
    (tf : option TempFault) (rf : option RenameFault) : eff t unit :=
  _ ← ensure_operational;
  _ ← on_inner (KV2.shutdown fuel cf checks);
  current ← query (λ e, read_current (disk e));
  _ ← query (λ e, guard_err (CurrentState.generation current =? generation e)
        (Corrupted "CURRENT generation does not match the open engine"));
  _ ← raise_published current tf rf;
  modify (λ e, set_state e Closed).

(** *** Cleaning *)

(** [directory_bytes] of the root, which reads its directories. *)
Definition measure (fault : option io_kind) : eff t Z :=
  query (λ e, match fault with Some k => Err (IO k) | None => Ok (directory_bytes (root_of e)) end).
(** An operation of the index under construction, whose files are on the disk. *)
Definition on_new {A} (new_generation : Z) (s : KV2.t) (p : eff KV2.t A) : eff t (A * KV2.t) := λ e,
  let '(r, s) := p s in ((λ a, (a, s)) <$> r, set_disk e (store new_generation s (disk e))).
Definition copy_into (new_generation : Z) (live : list (bytes * MemtableRecord.t)) (new_wal : Wal.t) (faults : CopyFaults)
    : eff t (CopiedLiveIndex * Wal.t) := λ e,
  let '(r, w) := copy_live_records (inner_wal (inner e)) (generation e) new_generation live faults new_wal in
  ((λ c, (c, w)) <$> r, set_disk e (store_wal new_generation w (disk e))).
(** The new generation, up to its seal: its index, what was copied, and the
    number of tables written. *)
Definition build_generation (new_generation highwater : Z) (live : list (bytes * MemtableRecord.t))
    (config : StorageConfig.t) (token : Z) (f : CleanFaults) : eff t (KV2.t * CopiedLiveIndex * Z) := λ e,
  (_ ← on_disk (bootstrap_generation new_generation (cl_bootstrap f));
   new_wal ← on_disk (open_wal new_generation (StorageConfig.wal_segment_size config));
   '(copied, new_wal) ← copy_into new_generation live new_wal (cl_copy f);
   _ ← pure_eff (guard_err (negb (highwater <? cp_max_live_sequence copied))
         (Corrupted "live index records exceed the current application sequence"));
   new_inner ← on_disk (open_index (root e) new_generation new_wal (cp_memtable copied) (cp_memtable_size copied)
                          highwater config token);
   '(written, new_inner) ← if 0 <? cp_live_records copied
                           then '(_, s) ← on_new new_generation new_inner (KV2.flush_reference_memtable (cl_flush f));
                                mret (1, s)
                           else mret (0, new_inner);
   '(_, new_inner) ← on_new new_generation new_inner (validate_reference_index new_generation);
   mret (new_inner, copied, written)) e.
Definition seal_generation (new_generation highwater : Z) (new_inner : KV2.t) (copied : CopiedLiveIndex) (f : CleanFaults)
    : eff t unit :=
  wal_segments ← pure_eff (seal_wal_segments (Wal.dir (inner_wal new_inner)));
  '(_, next_physical_lsn) ← pure_eff (Wal.recovery_position (inner_wal new_inner));
  on_disk (on_generation new_generation (write_generation_seal
    (GenerationSeal.mk new_generation highwater (cp_max_live_sequence copied) next_physical_lsn wal_segments)
    (cl_seal_temp f) (cl_seal_rename f))).
(** The switch: an engine interrupted between the two steps is poisoned. *)
Definition publish_generation (published : CurrentState.t) (f : CleanFaults) : eff t unit :=
  _ ← on_disk (write_current_temp published (cl_current_temp f));
  _ ← modify (λ e, set_state e Poisoned);
  on_disk (commit_current_temp (cl_current_rename f)).
(** [mem::replace] of the index and of the generation. *)
Definition adopt (new_inner : KV2.t) (new_generation : Z) : eff t unit :=
  modify (λ e, mk new_inner new_generation (root e) (root_of e) Active).
(** The old index is shut down, then every other generation removed; failures
    only add to the bytes left for later. *)
Definition reclaim_after_switch (old_inner : KV2.t) (old_generation keep_generation : Z) (fuel : nat)
    (checks : option nat) (f : CleanFaults) : eff t Z := λ e,
  let '(shutdown, old_inner) := KV2.shutdown fuel (cl_compaction f) checks old_inner in
  let rt := store old_generation old_inner (disk e) in
  match shutdown with
  | Ok _ => let '(deferred, rt) := reclaim_generations keep_generation (cl_remove f) rt in (Ok deferred, set_disk e rt)
  | Err _ => (Ok (unreclaimed_generation_bytes rt keep_generation), set_disk e rt)
  | Panic => (Panic, set_disk e rt)
  end.
Definition clean (fuel : nat) (checks : option nat) (token : Z) (f : CleanFaults) : eff t CleanStats := λ e,
  (_ ← ensure_operational;
   let old_generation := generation e in
   let old_inner := inner e in
   let highwater := KV2.current_sequence_number old_inner in
   let config := KV2.config old_inner in
   total_root_bytes_before ← measure (cl_measure_before f);
   live ← on_inner (KV2.scan_records (Unbounded, Unbounded));
   new_generation ← on_disk (reserve_next_generation (cl_reserve_temp f) (cl_reserve_rename f));
   '(new_inner, copied, written) ← build_generation new_generation highwater live config token f;
   _ ← seal_generation new_generation highwater new_inner copied f;
   observed_peak_bytes ← measure (cl_measure_peak f);
   _ ← publish_generation (CurrentState.mk new_generation highwater) f;
   old_inner ← query (λ e, Ok (inner e));
   _ ← adopt new_inner new_generation;
   deferred ← reclaim_after_switch old_inner old_generation new_generation fuel checks f;
   total_root_bytes_after ← measure (cl_measure_after f);
   mret (mkCleanStats old_generation new_generation (cp_live_records copied) (cp_live_logical_bytes copied)
           (cp_payload_bytes copied) (cp_transactions copied) written total_root_bytes_before observed_peak_bytes
           total_root_bytes_after deferred)) e.
End engine.
End ExperimentalEngine.
