(* ===== verification/ReferenceTheory.v ===== *)
(** * Logs that keep their values

    The log of a reference index only grows, a receipt stays readable as it
    does, and a write through the log adds to the index records that resolve
    to the values written. *)

From stdpp Require Import sets.
From Stdlib Require Import Sorted.
From S2P Require Import Prelude Bytes OrdMap Search Record Block Bloom Index Footer LegacyBlock SSTable Preflight.
From S2P Require Import WalFormat WalAnalysis Wal WalCrash WalRefine WalRead Manifest ManifestTheory Admission Config Store Read.
From S2P Require Import ReadTheory Tables Write WriteTheory Compaction CompactionTheory Root Engine OpenTheory EngineTheory.
From S2P Require Import KVTheory Api Generation Experimental.

(** ** Growth *)

Definition grows (d d' : WalDir) : Prop :=
  ∀ id file, om_get id (wd_segs d) = Some file → ∃ suf, om_get id (wd_segs d') = Some (file ++ suf).
(** No segment is longer than a vector can be. *)
Definition small (d : WalDir) : Prop := ∀ id file, om_get id (wd_segs d) = Some file → len file <= isize_max.

#[export] Instance grows_preorder : PreOrder grows.
Proof.
  split; [intros d id file Hg; exists []; by rewrite app_nil_r|].
  intros d1 d2 d3 H12 H23 id file (s1 & (s2 & Hg)%H23)%H12. exists (s1 ++ s2). by rewrite (assoc_L (++)).
Qed.

Lemma grows_new d id bs : om_get id (wd_segs d) = None → grows d (set_segs d (om_insert id bs (wd_segs d))).
Proof.
  intros Hn id' file Hg. exists []. rewrite app_nil_r. simpl. rewrite om_get_insert_ne; [done|]. intros ->. congruence.
Qed.
Lemma small_insert d id bs : small d → len bs <= isize_max → small (set_segs d (om_insert id bs (wd_segs d))).
Proof.
  intros Hs Hl id' file. simpl. destruct (decide (id' = id)) as [->|Hne].
  - rewrite om_get_insert_eq. by intros [= <-].
  - rewrite om_get_insert_ne by done. apply Hs.
Qed.
Lemma grows_write (w : Wal.t) bs : grows (Wal.dir w) (Wal.dir (Wal.write_active w bs)).
Proof.
  intros id file Hg. unfold Wal.write_active. simpl. destruct (decide (id = Wal.segment_id w)) as [->|Hne].
  - rewrite om_get_insert_eq, Hg. by eexists.
  - rewrite om_get_insert_ne by done. exists []. by rewrite app_nil_r.
Qed.

(** The state of a log that belongs to a generation. *)
Record value_log (w : Wal.t) : Prop := {
  vl_small : small (Wal.dir w);
  vl_segment : is_u64 (Wal.segment_id w);
  vl_max : Wal.max_segment_size w <= isize_max;
  vl_owner : Wal.checkpoint_owner w = false;
  vl_sized : Wal.poisoned w = false →
    ∃ file, om_get (Wal.segment_id w) (wd_segs (Wal.dir w)) = Some file ∧ Wal.size w = len file
}.

Section growth.
Context `{Crc32Spec}.

Lemma header_small : len wal_header <= isize_max.
Proof. rewrite wal_header_len. vm_compute. discriminate. Qed.
Lemma rotate_locked_grows w rf r w' :
  value_log (Wal.set_poisoned w false) → Wal.rotate_locked w rf = (r, w') →
  grows (Wal.dir w) (Wal.dir w') ∧ Wal.poisoned w' = Wal.poisoned w ∧ Wal.max_segment_size w' = Wal.max_segment_size w ∧
  Wal.checkpoint_owner w' = Wal.checkpoint_owner w ∧ small (Wal.dir w') ∧ is_u64 (Wal.segment_id w') ∧
  (∀ u, r = Ok u → om_get (Wal.segment_id w') (wd_segs (Wal.dir w')) = Some wal_header ∧ Wal.size w' = len wal_header).
Proof.
  intros [Hs Hseg Hmax Hown _]. simpl in *. unfold Wal.rotate_locked.
  assert (grows (Wal.dir w) (Wal.dir w)) as Hrefl by reflexivity.
  destruct rf as [[k [n|]]|]; simpl.
  2: { intros [= <- <-]. by split_and!. }
  all: destruct (checked_add (Wal.segment_id w) 1) as [id|] eqn:Hid; [|intros [= <- <-]; by split_and!].
  all: apply checked_add_Some in Hid as [-> Hid]; unfold Wal.create_segment.
  all: destruct (om_get (Wal.segment_id w + 1) (wd_segs (Wal.dir w))) eqn:Hget; intros [= <- <-]; simpl; split_and!; try done.
  - by apply grows_new.
  - apply small_insert; [done|]. pose proof header_small. unfold len in *. rewrite length_take. lia.
  - by apply grows_new.
  - apply small_insert; [done | apply header_small].
  - word_lia.
  - intros _ _. split; [apply om_get_insert_eq | symmetry; apply wal_header_len].
Qed.

(** A plan's bytes are few: at most a thousand groups of bounded size. *)
Lemma groups_bytes_bound lsn gs :
  Forall (λ g, ∀ lsn, len (frames_bytes (group_frames lsn g)) <= MAX_GROUP_ENCODED_SIZE) gs →
  len (frames_bytes (groups_frames lsn gs)) <= len gs * MAX_GROUP_ENCODED_SIZE.
Proof.
  revert lsn. induction gs as [|g gs IH]; intros lsn Hf; [done|]. apply Forall_cons_1 in Hf as [Hg Hf].
  cbn [groups_frames]. rewrite frames_bytes_app, len_app, len_cons. specialize (Hg lsn). specialize (IH (lsn + len g + 1) Hf). lia.
Qed.
Lemma write_small (w : Wal.t) bs file :
  small (Wal.dir w) → om_get (Wal.segment_id w) (wd_segs (Wal.dir w)) = Some file → len file + len bs <= isize_max →
  small (Wal.dir (Wal.write_active w bs)).
Proof. intros Hs Hg Hl. unfold Wal.write_active. rewrite Hg. apply small_insert; [done|]. simpl. rewrite len_app. lia. Qed.

(** The rotation before an append leaves room for its bytes. *)
Lemma append_room w rf (bs file : bytes) :
  small (Wal.dir w) → is_u64 (Wal.segment_id w) → Wal.max_segment_size w <= isize_max → Wal.checkpoint_owner w = false →
  om_get (Wal.segment_id w) (wd_segs (Wal.dir w)) = Some file → Wal.size w = len file →
  len bs <= 1024 * MAX_GROUP_ENCODED_SIZE →
  let w0 := Wal.set_poisoned w true in
  ∃ rot w1, (if (WAL_HEADER_SIZE <? Wal.size w0) && (Wal.max_segment_size w0 <? saturating_add (Wal.size w0) (len bs))
             then Wal.rotate_locked w0 rf else (Ok tt, w0)) = (rot, w1) ∧
    grows (Wal.dir w) (Wal.dir w1) ∧ Wal.poisoned w1 = true ∧ Wal.max_segment_size w1 <= isize_max ∧
    Wal.checkpoint_owner w1 = false ∧ small (Wal.dir w1) ∧ is_u64 (Wal.segment_id w1) ∧
    (∀ u, rot = Ok u → ∃ file, om_get (Wal.segment_id w1) (wd_segs (Wal.dir w1)) = Some file ∧ Wal.size w1 = len file ∧
       len file + len bs <= isize_max).
Proof.
  intros Hs Hseg Hmax Hown Hfile Hsize Hbs w0. pose proof (Hs _ _ Hfile) as Hlen. destruct (_ && _) eqn:Hrot.
  - destruct (Wal.rotate_locked w0 rf) as [rot w1] eqn:Hr.
    destruct (rotate_locked_grows w0 rf rot w1) as (Hg & Hp & Hm & Ho & Hsm & Hid & Hf); [split; try done; by exists file | done|].
    exists rot, w1. split; [done|]. rewrite Hp, Hm, Ho. split_and!; try done. intros u Hu. destruct (Hf u Hu) as [Hget Hsz].
    exists wal_header. split_and!; [done | done|]. rewrite wal_header_len. unfold WAL_HEADER_SIZE, MAX_GROUP_ENCODED_SIZE in *. word_lia.
  - exists (Ok tt), w0. split; [done|]. split_and!; try done. intros _ _. exists file. split_and!; [done | done|].
    apply andb_false_iff in Hrot. rewrite !Z.ltb_ge in Hrot. unfold w0, saturating_add in Hrot. simpl in Hrot. rewrite Hsize in Hrot.
    unfold MAX_GROUP_ENCODED_SIZE, WAL_HEADER_SIZE in *. word_lia.
Qed.
Lemma append_grows w gs col rf wf r w' :
  value_log w → (Wal.poisoned w = false → 1 <= Wal.next_lsn w <= u64_max) → Forall (Forall typed) gs →
  Wal.append_transactions w gs col rf wf = (r, w') →
  value_log w' ∧ grows (Wal.dir w) (Wal.dir w').
Proof.
  intros Hv Hn Hty. unfold Wal.append_transactions.
  assert (value_log w ∧ grows (Wal.dir w) (Wal.dir w)) as Hsame by done.
  destruct (bool_decide (gs = [])) eqn:Hgs; [by intros [= <- <-]|]. apply bool_decide_eq_false in Hgs.
  destruct (Z.ltb_spec MAX_GROUP_COUNT (len gs)) as [|Hcount]; [by intros [= <- <-]|].
  unfold Wal.ensure_healthy. destruct (Wal.poisoned w) eqn:Hp; cbn [negb guard_err mbind res_bind]; [by intros [= <- <-]|].
  destruct (Wal.plan_groups col [] (Wal.next_lsn w) gs) as [[[bs next] pts]|e|] eqn:Hplan; [|by intros [= <- <-]|by intros [= <- <-]].
  apply plan_groups_Ok in Hplan as (_ & _ & Hszs & -> & -> & _ & ->); [|by apply Hn | done].
  set (bs := [] ++ _). assert (len bs <= 1024 * MAX_GROUP_ENCODED_SIZE) as Hbs.
  { unfold bs. simpl. pose proof (groups_bytes_bound (Wal.next_lsn w) gs Hszs). unfold MAX_GROUP_COUNT, MAX_GROUP_ENCODED_SIZE in *. lia. }
  destruct Hv as [Hs Hseg Hmax Hown Hsz]. destruct (Hsz Hp) as (file & Hfile & Hsize). specialize (Hs _ _ Hfile) as Hlen.
  destruct (append_room w rf bs file) as (rot & w1 & Hr & Hg1 & Hp1 & Hm1 & Ho1 & Hs1 & Hid1 & Hok1); try done.
  rewrite Hr.
  destruct rot as [u|e|]; cbn [mbind res_bind]; [|intros [= <- <-]; split; [by split; try congruence | done]..].
  destruct (Hok1 u eq_refl) as (file1 & Hfile1 & Hsize1 & Hroom).
  destruct (Wal.receipts_of _ _ _) as [rs|e|]; [|intros [= <- <-]; split; [by split; try congruence | done]..].
  assert (∀ n, small (Wal.dir (Wal.write_active w1 (take n bs)))) as Hsm.
  { intros n. eapply write_small; [done..|]. unfold len in *. rewrite length_take. lia. }
  destruct wf as [[k n]|]; intros [= <- <-].
  - split; [|etrans; [done | apply grows_write]]. split; try done. simpl. congruence.
  - split; [|etrans; [done | apply grows_write]]. split; try done; simpl.
    + specialize (Hsm (length bs)). by rewrite firstn_all in Hsm.
    + intros _. rewrite Hfile1, om_get_insert_eq. eexists. split; [done|]. simpl. rewrite len_app, Hsize1.
      apply wrap64_id. pose proof (len_nonneg file1). pose proof (len_nonneg bs). word_lia.
Qed.

Lemma rotate_grows w rf r w' :
  value_log w → Wal.rotate_wal_file w rf = (r, w') → value_log w' ∧ grows (Wal.dir w) (Wal.dir w').
Proof.
  intros Hv. unfold Wal.rotate_wal_file, Wal.ensure_healthy.
  destruct (Wal.poisoned w) eqn:Hp; cbn [negb guard_err]; [by intros [= <- <-]|]. pose proof Hv as [Hs Hseg Hmax Hown Hsz].
  destruct (Wal.rotate_locked (Wal.set_poisoned w true) rf) as [rot w1] eqn:Hr.
  destruct (rotate_locked_grows (Wal.set_poisoned w true) rf rot w1) as (Hg & Hp1 & Hm & Ho & Hsm & Hid & Hf); [|done|].
  { split; try done. simpl. intros _. by apply Hsz. }
  simpl in *. destruct rot as [u|e|]; intros [= <- <-]; (split; [|done]); split; simpl; rewrite ?Hm, ?Ho, ?Hp1; try done.
  intros _. destruct (Hf u eq_refl) as [? ?]. eauto.
Qed.
End growth.

(** ** References *)

Section references.
Context `{Crc32Spec}.
Implicit Types (d : WalDir) (w : Wal.t) (g : Z) (c : LogCommand.t) (ref : WalValueRef.t) (r : MemtableRecord.t)
  (o : BatchOperation).

(** A reference that reads back as [v] in every log grown from [d]. *)
Definition stored d ref (key : bytes) (lsn : Z) (v : bytes) : Prop :=
  ∀ w, grows d (Wal.dir w) → small (Wal.dir w) → read_value w ref key lsn = Ok v.
(** The index record [r] of generation [g] stands for the operation [o]. *)
Definition resolves d g r o : Prop :=
  MemtableRecord.key r = op_key_of o ∧
  match o with
  | BatchPut key v => MemtableRecord.record_type r = Put ∧ ∃ ref,
      ReferenceValue.decode (MemtableRecord.value r) = Ok (ReferenceValue.mk g ref) ∧
      WalValueRef.application_sequence ref = MemtableRecord.lsn r ∧ stored d ref key (MemtableRecord.lsn r) v
  | BatchDelete key => MemtableRecord.record_type r = Delete
  end.

Lemma stored_grows d d' ref key lsn v : grows d d' → stored d ref key lsn v → stored d' ref key lsn v.
Proof. intros Hg Hs w Hw. apply Hs. by etrans. Qed.
Lemma resolves_grows d d' g r o : grows d d' → resolves d g r o → resolves d' g r o.
Proof.
  intros Hg (Hk & Ho). split; [done|]. destruct o as [key v|key]; [|done]. destruct Ho as (Ht & ref & Hd & Ha & Hs).
  split; [done|]. exists ref. split_and!; [done..|]. by eapply stored_grows.
Qed.
Lemma resolve_stored d w g r a key v :
  resolves d g r (BatchPut key v) → grows d (Wal.dir w) → small (Wal.dir w) → same_content key a r →
  resolve_record w g key a = Ok v.
Proof.
  intros (_ & Ht & ref & Hd & Ha & Hs) Hg Hsm <-. simpl in *. unfold resolve_record. rewrite Ht. cbn [is_delete negb guard_err mbind res_bind].
  rewrite Hd. cbn [mbind res_bind ReferenceValue.generation ReferenceValue.reference]. rewrite Ha, !Z.eqb_refl. cbn [guard_err mbind res_bind].
  by apply Hs.
Qed.
(** Two index records with the same value have the same sequence number. *)
Lemma resolves_lsn d g r r' key key' v v' :
  resolves d g r (BatchPut key v) → resolves d g r' (BatchPut key' v') →
  MemtableRecord.value r = MemtableRecord.value r' → MemtableRecord.lsn r = MemtableRecord.lsn r'.
Proof. intros (_ & _ & ref & Hd & Ha & _) (_ & _ & ref' & Hd' & Ha' & _) E. rewrite E in Hd. congruence. Qed.

(** *** Their encoding *)

Lemma reference_len g ref : len (ReferenceValue.encode (ReferenceValue.mk g ref)) = REFERENCE_VALUE_ENCODED_SIZE.
Proof.
  unfold ReferenceValue.encode. cbn [ReferenceValue.generation ReferenceValue.reference].
  rewrite !len_app, ref_encode_len, !len_to_be. reflexivity.
Qed.
Lemma reference_decode g ref :
  is_u64 g → g ≠ 0 → ref_widths ref → WalValueRef.validate ref = Ok tt → WalValueRef.record_type ref = Put →
  ReferenceValue.decode (ReferenceValue.encode (ReferenceValue.mk g ref)) = Ok (ReferenceValue.mk g ref).
Proof.
  intros Hg Hg0 Hw Hv Hp. pose proof (reference_len g ref) as Hl. revert Hl. unfold ReferenceValue.encode.
  cbn [ReferenceValue.generation ReferenceValue.reference]. set (body := [REFERENCE_VALUE_VERSION] ++ _ ++ _). intros Hl.
  assert (len body = 103) as Hb by (unfold body; rewrite !len_app, ref_encode_len, len_to_be; reflexivity).
  unfold ReferenceValue.decode. rewrite Hl. change (REFERENCE_VALUE_ENCODED_SIZE) with 107. cbn [Z.eqb Pos.eqb guard_err ok_or mbind res_bind].
  change (byte_at (body ++ to_be 4 (crc32 body)) 0) with (Ok REFERENCE_VALUE_VERSION). cbn [mbind res_bind].
  rewrite bool_decide_true by done. cbn [guard_err mbind res_bind]. change (107 - 4) with 103.
  set (bs := body ++ to_be 4 (crc32 body)).
  assert (slice bs 103 107 = Ok (to_be 4 (crc32 body))) as ->
    by (apply (slice_mid body _ []); [by rewrite app_nil_r | done | by rewrite len_to_be]).
  cbn [fmap res_fmap mbind res_bind]. rewrite from_be_u32 by apply crc32_u32.
  assert (slice bs 0 103 = Ok body) as -> by (by apply slice_here). cbn [mbind res_bind].
  rewrite Z.eqb_refl. cbn [guard_err mbind res_bind].
  assert (slice bs 1 9 = Ok (to_be 8 g)) as ->.
  { apply (slice_mid [REFERENCE_VALUE_VERSION] _ (WalValueRef.encode ref ++ to_be 4 (crc32 body))); [|done|by rewrite len_to_be].
    unfold bs, body. by rewrite <- !(assoc_L (++)). }
  cbn [fmap res_fmap mbind res_bind]. rewrite from_be_u64 by done.
  assert (slice bs 9 (9 + WAL_VALUE_REF_ENCODED_SIZE) = Ok (WalValueRef.encode ref)) as ->.
  { apply (slice_mid ([REFERENCE_VALUE_VERSION] ++ to_be 8 g) _ (to_be 4 (crc32 body))).
    - unfold bs, body. by rewrite <- !(assoc_L (++)).
    - by rewrite len_app, len_to_be.
    - by rewrite ref_encode_len. }
  cbn [mbind res_bind]. rewrite ref_run by done. cbn [mbind res_bind]. unfold ReferenceValue.validate. simpl.
  rewrite (proj2 (Z.eqb_neq g 0)) by done. cbn [negb guard_err mbind res_bind]. by rewrite Hp.
Qed.

(** *** Receipts *)

(** The receipt [ref] of the command [c]. *)
Definition receipt_ok d c ref : Prop :=
  WalValueRef.record_type ref = LogCommand.record_type c ∧ WalValueRef.application_sequence ref = LogCommand.lsn c ∧
  (LogCommand.record_type c = Put →
     ref_widths ref ∧ WalValueRef.validate ref = Ok tt ∧ stored d ref (LogCommand.key c) (LogCommand.lsn c) (LogCommand.value c)).

Lemma planned_updates_length col tid start off prev lsn cs : length (planned_updates col tid start off prev lsn cs) = length cs.
Proof. revert off prev lsn. induction cs as [|c cs IH]; intros; [done|]. cbn [planned_updates length]. by rewrite IH. Qed.
Lemma append_stores w cmds rf wf recs rs w' :
  wal_inv w recs → value_log w → Forall typed cmds → cmds ≠ [] →
  Wal.append_transactions w [cmds] true rf wf = (Ok rs, w') →
  ∃ rl, rs = [rl] ∧ Forall2 (receipt_ok (Wal.dir w')) cmds rl.
Proof.
  intros Hi Hv Hty Hne Ha. pose proof (proj2 (Forall_singleton _ _) Hty) as Hty1.
  destruct (append_grows w [cmds] true rf wf (Ok rs) w' Hv ltac:(intros _; apply Hi) Hty1 Ha) as [[Hsm Hseg _ _ _] _].
  destruct (append_receipts w [cmds] rf wf recs rs w' Hi Hty1 ltac:(done) Ha) as (Hl & Hmax & Hok & Hsz & fs & Hrs & Hfile).
  apply Forall_cons_1 in Hsz as [Hsz _]. pose proof (Hsm _ _ Hfile) as Hlen. set (lsn := Wal.next_lsn w) in *.
  assert (length rs = 1%nat) as Hlrs by (by apply map_res_length in Hrs).
  destruct rs as [|rl [|]]; try done. exists rl. split; [done|].
  assert (length rl = length cmds) as Hlrl.
  { unfold Wal.receipts_of in Hrs. simpl in Hrs. apply res_bind_Ok in Hrs as (x & Hx & Hr). injection Hr as ->.
    apply res_bind_Ok in Hx as (co & _ & Hx). apply map_res_length in Hx. rewrite Hx. apply planned_updates_length. }
  apply Forall2_same_length_lookup_2; [done|]. intros i c ref Hc Href.
  apply list_elem_of_split_length in Hc as (g1 & g2 & -> & ->).
  destruct (receipt_is_ref _ _ _ _ _ 0%nat g1 c g2 Hrs eq_refl) as (rl' & r' & [= <-] & Hr' & ->).
  rewrite Hr' in Href. injection Href as <-. split_and!; [done | done|]. intros Hput.
  cbn [groups_size groups_frames] in Hmax, Hok, Hfile, Hlen.
  rewrite app_nil_r in Hok, Hfile, Hlen.
  assert (is_u64 (len (seg_bytes fs))) as Hu.
  { rewrite len_app in Hlen. pose proof (len_nonneg (seg_bytes fs)). pose proof (len_nonneg (frames_bytes (group_frames lsn (g1 ++ c :: g2)))). word_lia. }
  assert (ref_to (Wal.segment_id w') (wrap64 (len (seg_bytes fs)) + len (frames_bytes [])) (lsn + 0) g1 c g2 =
    ref_to (Wal.segment_id w') (len (seg_bytes fs)) lsn g1 c g2) as E.
  { rewrite wrap64_id by done. change (len (frames_bytes [])) with 0. by rewrite !Z.add_0_r. }
  assert (lsn + len (g1 ++ c :: g2) <= u64_max) as Hl' by (clear -Hmax; cbn [groups_size foldr] in Hmax; lia).
  rewrite E. split; [|split].
  - refine (lookup_widths _ _ _ fs g1 c g2 [] Hok eq_refl _ Hl Hl' Hseg). by rewrite app_nil_r.
  - refine (lookup_validate _ _ _ fs g1 c g2 [] Hok eq_refl _ Hl Hput). by rewrite app_nil_r.
  - intros w2 Hg2 Hs2. destruct (Hg2 _ _ Hfile) as (suf & Hf2). pose proof (Hs2 _ _ Hf2) as Hl2. rewrite <- (assoc_L (++)) in Hf2, Hl2.
    exact (read_value_run _ _ _ fs g1 c g2 suf Hok eq_refl Hl2 Hl Hl' (Hsz lsn) Hput w2 Hf2).
Qed.

(** The engine's append. *)
Lemma append_engine_stores w log cmds owner rf wf (res : res (list (list WalValueRef.t))) w' :
  good w log → value_log w → Forall typed cmds → cmds ≠ [] →
  Wal.append_engine_transactions w [cmds] owner true rf wf = (res, w') →
  value_log w' ∧ grows (Wal.dir w) (Wal.dir w') ∧
  ∀ rs, res = Ok rs → ∃ rl, rs = [rl] ∧ Forall2 (receipt_ok (Wal.dir w')) cmds rl.
Proof.
  intros Hgd Hv Ht Hne. unfold Wal.append_engine_transactions. set (w0 := if Wal.owns_checkpoint w owner then w else _).
  assert (value_log w0 ∧ same_log w w0) as [Hv0 Hs] by (unfold w0; destruct (Wal.owns_checkpoint w owner); [done|]; by destruct Hv).
  pose proof (same_log_good _ _ _ Hs Hgd) as (recs & _ & _ & Hi). destruct Hs as (Hd & _). rewrite <- Hd. clearbody w0. intros Ha.
  destruct (append_grows _ _ _ _ _ _ _ Hv0 (λ Hp, proj1 (proj2 (Hi Hp))) (proj2 (Forall_singleton _ _) Ht) Ha) as [Hv' Hg].
  split_and!; [done..|]. intros rs ->. destruct (Wal.poisoned w0) eqn:Hp.
  { destruct (append_poisoned w0 [cmds] true rf wf Hp) as [e He]; [done|]. by rewrite He in Ha. }
  eapply append_stores; [by apply Hi | done..].
Qed.

(** *** Index writes *)

(** What goes to the memtable for a logged command. *)
Definition indexed g c ref : LogCommand.t :=
  LogCommand.mk (LogCommand.record_type c) (LogCommand.key c)
    (match LogCommand.record_type c with Put => ReferenceValue.encode (ReferenceValue.mk g ref) | Delete => [] end)
    (LogCommand.lsn c).
Lemma zip_writes_ok d g cmds rl :
  Forall2 (receipt_ok d) cmds rl → zip_writes g cmds rl = Ok (write_of_command <$> zip_with (indexed g) cmds rl).
Proof.
  induction 1 as [|c ref cmds rl (Ht & Hs & _) _ IH]; [done|]. cbn [zip_writes].
  rewrite Ht, Hs, bool_decide_true, Z.eqb_refl by done. cbn [andb guard_err mbind res_bind]. rewrite IH. reflexivity.
Qed.
Lemma encode_writes_ok d g cmds rl :
  Forall2 (receipt_ok d) cmds rl →
  encode_reference_writes g [cmds] [rl] = Ok (write_of_command <$> zip_with (indexed g) cmds rl).
Proof.
  intros Hf. unfold encode_reference_writes. change (len [cmds] =? len [rl]) with true. cbn [guard_err mbind res_bind zip_groups].
  assert (len cmds = len rl) as -> by (unfold len; by rewrite (Forall2_length _ _ _ Hf)). rewrite Z.eqb_refl. cbn [guard_err mbind res_bind].
  rewrite (zip_writes_ok d) by done. cbn [mbind res_bind mret res_ret]. by rewrite app_nil_r.
Qed.
(** An indexed command resolves to the operation it was made from. *)
Lemma indexed_resolves d g o lsn ref :
  is_u64 g → g ≠ 0 → receipt_ok d (command_of o lsn) ref →
  resolves d g (rec_of (indexed g (command_of o lsn) ref)) o.
Proof.
  intros Hg Hg0 (Ht & Ha & Hput). destruct o as [key v|key]; [|done]. destruct (Hput eq_refl) as (Hw & Hv & Hs).
  split; [done|]. split; [done|]. exists ref. simpl in *. split_and!; [by apply reference_decode | done | done].
Qed.
Lemma build_commands_ops os i cmds next :
  build_commands i os = Some (cmds, next) → Forall2 (λ o c, ∃ lsn, c = command_of o lsn) os cmds.
Proof.
  revert i cmds next. induction os as [|o os IH]; intros i cmds next; simpl; [by intros [= <- <-]|].
  destruct (checked_add i 1) as [j|]; [|done]. simpl. destruct (build_commands j os) as [[cs nx]|] eqn:Eb; [|done].
  simpl. intros [= <- <-]. constructor; [by eexists | by eapply IH].
Qed.
End references.

(** ** Writes through a value log *)

Section writes.
Context `{Crc32Spec, FastBloomSpec, Hshape : !FastBloomShape}.
Variables (U : MemtableRecord.t → Prop) (rate : f64) (g : Z).
Hypothesis HU : ∀ r, U r → recordable r.
Hypothesis Hroom : roomy rate U.
Hypothesis Hg : is_u64 g.
Hypothesis Hg0 : g ≠ 0.
Implicit Types (w : WriteComponent.t) (hist : list MemtableRecord.t) (os : list BatchOperation).
Import WriteComponent.

(** The operations whose index records the universe has. *)
Definition index_record (o : BatchOperation) (v : bytes) (lsn : Z) : MemtableRecord.t :=
  match o with
  | BatchPut key _ => MemtableRecord.mk Put lsn key v
  | BatchDelete key => MemtableRecord.mk Delete lsn key []
  end.
Definition ref_ops_ok os : Prop :=
  ∀ o v lsn, o ∈ os → is_u64 lsn → len v = REFERENCE_VALUE_ENCODED_SIZE → U (index_record o v lsn).

Lemma indexed_record o lsn ref :
  rec_of (indexed g (command_of o lsn) ref) = index_record o (ReferenceValue.encode (ReferenceValue.mk g ref)) lsn.
Proof. by destruct o. Qed.

Lemma append_all_wal ws w : wal (append_all ws w) = wal w.
Proof. unfold append_all. revert w. induction ws as [|x ws IH]; intros w; [done|]. cbn [foldl]. by rewrite IH. Qed.
Lemma increasing_lsns rs rs' :
  MemtableRecord.lsn <$> rs = MemtableRecord.lsn <$> rs' → increasing rs → increasing rs'.
Proof.
  revert rs'. induction rs as [|r rs IH]; intros [|r' rs']; try done. rewrite !fmap_cons. intros [= Hr Hrs].
  intros [Hs Hf]%StronglySorted_inv. constructor; [by apply IH|]. apply Forall_forall. intros x Hx.
  apply (list_elem_of_fmap_2 MemtableRecord.lsn) in Hx. rewrite <- Hrs in Hx. apply list_elem_of_fmap in Hx as (y & Hy & Hin).
  rewrite Forall_forall in Hf. specialize (Hf y Hin). lia.
Qed.

(** The index records of a batch, from its commands and their receipts. *)
Lemma indexed_batch d w os cmds next rl :
  is_u64 (sequence_number w) → build_commands (sequence_number w) os = Some (cmds, next) →
  Forall2 (receipt_ok d) cmds rl → ref_ops_ok os →
  let ix := zip_with (indexed g) cmds rl in
  Forall typed ix ∧ increasing (rec_of <$> ix) ∧
  Forall (λ c, LogCommand.record_type c = Delete → LogCommand.value c = []) ix ∧
  (∀ r, r ∈ rec_of <$> ix → U r ∧ sequence_number w < MemtableRecord.lsn r <= next) ∧
  Forall2 (resolves d g) (rec_of <$> ix) os.
Proof.
  intros Hseq Hb Hrl HUo ix. pose proof (build_commands_ops _ _ _ _ Hb) as Hops.
  destruct (build_commands_spec _ _ _ _ Hseq Hb) as (Hr & -> & Hnext & Htc & _).
  assert (∀ i c, cmds !! i = Some c → is_u64 (LogCommand.lsn c) ∧
    sequence_number w < LogCommand.lsn c <= sequence_number w + len os) as Hlsn.
  { intros i c Hc. split; [by apply (Forall_lookup_1 _ _ _ _ Htc Hc)|].
    apply (ops_records_lsn (sequence_number w) os (rec_of c)). rewrite <- Hr. apply list_elem_of_fmap_2. by eapply list_elem_of_lookup_2. }
  assert (∀ i r, (rec_of <$> ix) !! i = Some r → ∃ o lsn ref, os !! i = Some o ∧ is_u64 lsn ∧
    sequence_number w < lsn <= sequence_number w + len os ∧ receipt_ok d (command_of o lsn) ref ∧
    r = rec_of (indexed g (command_of o lsn) ref)) as Hix.
  { intros i r. rewrite list_lookup_fmap. intros (c' & Hc' & ->)%fmap_Some. apply lookup_zip_with_Some in Hc' as (c & ref & -> & Hc & Href).
    destruct (Forall2_lookup_r _ _ _ _ _ Hops Hc) as (o & Ho & lsn & ->). destruct (Hlsn _ _ Hc) as [? ?].
    assert (LogCommand.lsn (command_of o lsn) = lsn) as El by (by destruct o). rewrite El in *.
    exists o, lsn, ref. do 3 (split; [done|]). split; [|done]. by eapply (Forall2_lookup_lr _ _ _ _ _ _ Hrl). }
  assert (length ix = length os) as Hlen.
  { unfold ix. rewrite length_zip_with_l_eq by (by eapply Forall2_length). symmetry. by eapply Forall2_length. }
  split_and!.
  - apply Forall_lookup_2. intros i c Hc. assert ((rec_of <$> ix) !! i = Some (rec_of c)) as Hc' by (by rewrite list_lookup_fmap, Hc).
    destruct (Hix i _ Hc') as (o & lsn & ref & _ & Hl & _ & _ & E). apply (f_equal MemtableRecord.lsn) in E.
    unfold typed. simpl in E. rewrite E. by destruct o.
  - eapply increasing_lsns; [|apply (ops_records_increasing (sequence_number w) os)]. rewrite <- Hr. unfold ix. clear -Hrl.
    induction Hrl as [|c ref cmds rl _ _ IH]; [done|]. cbn [zip_with]. rewrite !fmap_cons. by f_equal.
  - apply Forall_lookup_2. intros i c Hc. apply lookup_zip_with_Some in Hc as (c0 & ref & -> & _). simpl. by destruct (LogCommand.record_type c0).
  - intros r [i Hi]%list_elem_of_lookup_1. destruct (Hix i r Hi) as (o & lsn & ref & Ho & Hl & Hb' & _ & ->).
    rewrite indexed_record. split; [apply HUo; [by eapply list_elem_of_lookup_2 | done | apply reference_len]|]. by destruct o.
  - apply Forall2_same_length_lookup_2; [by rewrite length_fmap|]. intros i r o Hri Hoi.
    destruct (Hix i r Hri) as (o' & lsn & ref & Ho & _ & _ & Hrc & ->). assert (o' = o) as -> by congruence. by apply indexed_resolves.
Qed.

Lemma reference_write w hist os rf wf :
  engine_inv U rate (WalReference g) w hist [] → value_log (wal w) → os ≠ [] → ref_ops_ok os →
  let '(r, w') := write_batch os rf wf w in
  value_log (wal w') ∧ grows (Wal.dir (wal w)) (Wal.dir (wal w')) ∧
  match r with
  | Ok _ => ∃ new, engine_inv U rate (WalReference g) w' (hist ++ new) [] ∧ Forall2 (resolves (Wal.dir (wal w')) g) new os
  | Err _ => engine_inv U rate (WalReference g) w' hist []
  | Panic => False
  end.
Proof.
  intros (n & b & He) Hv Hne HUo. unfold write_batch.
  replace (match os with [] => mret tt | _ => _ end) with (pure_eff (validate_batch os) ≫= λ _, run_requests [os] rf wf)
    by (by destruct os).
  unfold mbind, eff_bind, pure_eff. assert (engine_inv U rate (WalReference g) w hist []) as Hi by (by exists n, b).
  assert (validate_batch os ≠ Panic) as Hvb by apply validate_batch_np.
  destruct (validate_batch os) as [sz|e|]; [|by split_and!|done].
  unfold run_requests. cbn [build_groups]. pose proof He as [].
  destruct (build_commands (sequence_number w) os) as [[cmds next]|] eqn:Hb; [|by split_and!].
  cbn [mbind option_bind build_groups]. rewrite ea_mode. cbn [payload_of].
  destruct (build_commands_spec _ _ _ _ ea_seq Hb) as (Hr & Hnext & Hn64 & Htc & _). pose proof (len_nonneg os).
  destruct ea_log as (log & Hgd & Ht & Hlog). assert (cmds ≠ []) as Hcne by (intros ->; by destruct os).
  unfold mbind, eff_bind, on_wal, modify, pure_eff.
  destruct (Wal.append_engine_transactions _ _ _ _ _ _) as [r l'] eqn:Ha.
  destruct (engine_append _ _ _ _ _ _ _ _ _ Hgd Htc Hcne Ha) as (Hck & Hwt & Hres). specialize (Hwt ea_wal).
  destruct (append_engine_stores _ _ _ _ _ _ _ _ Hgd Hv Htc Hcne Ha) as (Hv' & Hgr & Hrec).
  assert (∀ log', good l' log' → Forall typed log' → engine_at U rate (WalReference g) (set_wal w l') hist [] n b) as Hstay.
  { intros log' Hg' Ht'. eapply engine_wal; try done; [by intros ? ?%elem_of_nil | intros _; apply Hv']. }
  destruct r as [rs|e|]; [| |done].
  - destruct (Hrec rs eq_refl) as (rl & -> & Hrl). rewrite (encode_writes_ok (Wal.dir l')) by done.
    change (wal (set_sequence ?w0 next)) with (wal w0). rewrite append_all_wal. split_and!; [done..|]. destruct Hres as (Hg' & _).
    destruct (indexed_batch (Wal.dir l') w os cmds next rl) as (H1' & H2' & H3' & H4' & H5'); [done..|].
    exists (rec_of <$> zip_with (indexed g) cmds rl). split; [|done]. exists n, b.
    eapply (engine_commit U rate (WalReference g) HU Hroom w hist n b l' (log ++ cmds)); try done; [lia | by apply Forall_app | intros _; apply Hv'].
  - split_and!; [done..|]. exists n, b.
    destruct Hres as [[Hg' _]|(_ & _ & Hg')]; [by apply (Hstay log)|]. apply (Hstay (log ++ cmds)); [done|]. by apply Forall_app.
Qed.
End writes.
