(* ===== verification/SealTheory.v ===== *)
(** * Seals of generations

    The fingerprints in a seal: which logs [validate_sealed_wal_segments]
    accepts, and that a log which only grew is accepted. *)

From stdpp Require Import sets.
From Stdlib Require Import Sorted.
From S2P Require Import Prelude Bytes OrdMap Search Record Footer WalFormat WalAnalysis Wal Root Engine Generation ReferenceTheory.

Section seals.
Context `{Crc32Spec}.
Implicit Types (d : WalDir) (s : WalSegmentFingerprint.t) (segs : list WalSegmentFingerprint.t).
Import WalSegmentFingerprint.

(** The log still begins with what [s] has the fingerprint of. *)
Definition begins d s : Prop :=
  ∃ file, om_get (segment_id s) (wd_segs d) = Some file ∧ WalSegmentFingerprint.length s <= len file ∧
    crc32 (take (Z.to_nat (WalSegmentFingerprint.length s)) file) = checksum s.
(** No other file is named as a segment. *)
Definition plain d : Prop := om_wf (wd_segs d) ∧ Forall (λ e, fe_id e = None) (wd_foreign d).
Definition seg_lens d : list (Z * Z) := map (λ x, (fst x, len (snd x))) (wd_segs d : list (Z * bytes)).

Lemma foreign_none es : Forall (λ e, fe_id e = None) es → foreign_census es = Ok [].
Proof. induction 1 as [|e es He _ IH]; [done|]. cbn [foreign_census]. by rewrite He. Qed.
Lemma census_plain d : plain d → wal_segment_census d = Ok (seg_lens d).
Proof.
  intros [Hw Hf]. unfold wal_segment_census. rewrite foreign_none by done. cbn [mbind res_bind]. rewrite app_nil_r. unfold mret, res_ret.
  f_equal. fold (seg_lens d). apply sort_by_id. clear Hf. unfold seg_lens. destruct d as [m fo]. cbn [wd_segs] in *. clear fo.
  induction m as [|[k v] m IH]; [constructor|]. apply om_wf_cons in Hw as [Hw Hk]. cbn [map]. constructor; [by apply IH|].
  apply Forall_forall. intros y (z & <- & Hz%list_elem_of_In)%list_elem_of_In%in_map_iff. rewrite Forall_forall in Hk. specialize (Hk z Hz).
  cbn [fst snd]. unfold klt in Hk. simpl in Hk. by rewrite Hk.
Qed.
Lemma census_of id file d : om_get id (wd_segs d) = Some file → census_length (seg_lens d) id = Some (len file).
Proof.
  unfold census_length, seg_lens. destruct d as [m fo]. cbn [wd_segs]. induction m as [|[k v] m IH]; [done|]. cbn [om_get map List.find fst snd].
  change (kcmp id k) with (Z.compare id k). destruct (Z.compare_spec id k) as [->|Hlt|Hgt].
  1: intros [= ->]; by rewrite Z.eqb_refl.
  all: intros Hm; rewrite (proj2 (Z.eqb_neq k id)) by lia; by apply IH.
Qed.
Lemma census_none id d : om_wf (wd_segs d) → om_get id (wd_segs d) = None → census_length (seg_lens d) id = None.
Proof.
  intros Hw Hn. unfold census_length, seg_lens. destruct (List.find _ _) as [x|] eqn:E; [|done].
  apply List.find_some in E as [([k v] & <- & Hx%list_elem_of_In)%in_map_iff E%Z.eqb_eq]. cbn [fst] in E. subst k.
  apply om_get_Some in Hx; [congruence | done].
Qed.
Lemma prefix_checksum d id n file :
  om_get id (wd_segs d) = Some file → 0 <= n <= len file → wal_segment_prefix_checksum d id n = Ok (crc32 (take (Z.to_nat n) file)).
Proof.
  intros Hf Hn. unfold wal_segment_prefix_checksum. rewrite Hf. cbn [ok_or mbind res_bind].
  assert ((len (take (Z.to_nat n) file) =? n) = true) as -> by (apply Z.eqb_eq; unfold len in *; rewrite length_take; lia). done.
Qed.

(** The checks on one sealed segment. *)
Lemma check_sealed_exact d segs :
  plain d → Forall (λ s, 0 <= WalSegmentFingerprint.length s) segs →
  check_sealed d segs (seg_lens d) = Ok tt ↔ Forall (begins d) segs.
Proof.
  intros [Hw _]. induction 1 as [|s segs Hs _ IH]; [split; [constructor | done]|]. cbn [check_sealed].
  destruct (om_get (segment_id s) (wd_segs d)) as [file|] eqn:Hf.
  2: { rewrite census_none by done. split; [done|]. intros (? & ? & _)%Forall_cons_1%proj1. congruence. }
  rewrite (census_of _ _ _ Hf). destruct (Z.ltb_spec (len file) (WalSegmentFingerprint.length s)).
  { split; [done|]. intros (f & Hf' & Hl & _)%Forall_cons_1%proj1. rewrite Hf in Hf'. injection Hf' as <-. lia. }
  cbn [negb guard_err mbind res_bind]. rewrite (prefix_checksum d (segment_id s) _ file) by (done || lia). cbn [mbind res_bind].
  rewrite Forall_cons. destruct (Z.eqb_spec (crc32 (take (Z.to_nat (WalSegmentFingerprint.length s)) file)) (checksum s)) as [Hc|Hc]; cbn [guard_err mbind res_bind].
  - rewrite IH. split; [intros ?; split; [by exists file | done] | by intros [_ ?]].
  - split; [done|]. intros [(f & Hf' & _ & Hc') _]. rewrite Hf in Hf'. injection Hf' as <-. done.
Qed.
(** Every segment below the last sealed one is sealed. *)
Definition none_older d segs : Prop :=
  ∀ h id file, last segs = Some h → om_get id (wd_segs d) = Some file → id < segment_id h → id ∈ segment_id <$> segs.

Lemma validate_sealed_run d segs :
  plain d → Forall (λ s, 0 <= WalSegmentFingerprint.length s) segs →
  validate_sealed_wal_segments d segs (seg_lens d) = Ok tt ↔ Forall (begins d) segs ∧ none_older d segs.
Proof.
  intros Hp Hl. pose proof (check_sealed_exact d segs Hp Hl) as Hc. destruct Hp as [Hw _].
  unfold validate_sealed_wal_segments. split.
  - intros ([] & H1%Hc & H2%guard_err_Ok%negb_true_iff)%res_bind_Ok. split; [done|]. intros h id file Hh Hf Hlt.
    destruct (decide (id ∈ segment_id <$> segs)) as [Hin|Hin]; [done|]. exfalso.
    rewrite <- not_true_iff_false in H2. apply H2. apply existsb_exists. exists (id, len file). split.
    + apply in_map_iff. exists (id, file). split; [done|]. apply list_elem_of_In. by apply om_get_Some.
    + rewrite Hh. cbn [fmap option_fmap option_map fst]. rewrite (proj2 (Z.ltb_lt _ _)) by done. cbn [andb].
      apply forallb_forall. intros s Hs%list_elem_of_In. apply negb_true_iff, Z.eqb_neq. intros E. apply Hin. rewrite <- E.
      by apply list_elem_of_fmap_2.
  - intros [H1 H2]. rewrite (proj2 Hc H1). cbn [mbind res_bind]. match goal with |- guard_err (negb ?b) _ = _ => destruct b eqn:E end; [|done].
    exfalso. apply existsb_exists in E as (x & Hx & Hb). apply in_map_iff in Hx as ([id file] & <- & Hf%list_elem_of_In).
    apply andb_true_iff in Hb as [Hb1 Hb2]. destruct (last segs) as [h|] eqn:Hh; [|done]. cbn [fmap option_fmap option_map fst] in Hb1, Hb2.
    apply Z.ltb_lt in Hb1. apply om_get_Some in Hf; [|done]. specialize (H2 h id file Hh Hf Hb1).
    apply list_elem_of_fmap in H2 as (s & -> & Hs). rewrite forallb_forall in Hb2. apply list_elem_of_In, Hb2, negb_true_iff, Z.eqb_neq in Hs. done.
Qed.

(** *** Sealing *)

Lemma seal_segments_run d census segs :
  seal_segments d census = Ok segs → Forall (λ e, 0 <= snd e) census →
  Forall (begins d) segs ∧ segment_id <$> segs = fst <$> census ∧ Forall (λ s, 0 <= WalSegmentFingerprint.length s) segs.
Proof.
  revert segs. induction census as [|[id n] census IH]; intros segs; [by intros [= <-]|]. cbn [seal_segments].
  intros (c & Hc & (rest & Hr & [= <-])%res_bind_Ok)%res_bind_Ok [Hn Hf]%Forall_cons_1. destruct (IH rest Hr Hf) as (IH1 & IH2 & IH3).
  unfold wal_segment_prefix_checksum in Hc. apply res_bind_Ok in Hc as (file & Hfi%ok_or_Ok & Hc).
  apply res_bind_Ok in Hc as (u & Hg%guard_err_Ok%Z.eqb_eq & [= <-]). cbn [snd] in Hn.
  split_and!.
  - constructor; [|done]. exists file. cbn [segment_id WalSegmentFingerprint.length checksum]. split_and!; [done | | done].
    unfold len in *. rewrite length_take in Hg. lia.
  - by rewrite !fmap_cons, IH2.
  - by constructor.
Qed.
Lemma seg_lens_nonneg d : Forall (λ e, 0 <= snd e) (seg_lens d).
Proof. apply Forall_forall. intros x ([id f] & <- & _)%list_elem_of_In%in_map_iff. simpl. unfold len. lia. Qed.

Lemma take_grown (file suf : bytes) n : n <= len file → take (Z.to_nat n) (file ++ suf) = take (Z.to_nat n) file.
Proof. intros Hn. apply take_app_le. unfold len in Hn. lia. Qed.
Lemma begins_grows d d' s : grows d d' → begins d s → begins d' s.
Proof.
  intros Hg (file & Hf & Hl & Hc). destruct (Hg _ _ Hf) as (suf & Hf'). exists (file ++ suf). split_and!; [done | |].
  - rewrite len_app. unfold len. unfold len in Hl. lia.
  - by rewrite take_grown.
Qed.

(** [d'] has every segment of [d], with the same beginning as far as its
    checksum tells, and only newer ones besides. *)
Definition continues d d' : Prop :=
  (∀ id file, om_get id (wd_segs d) = Some file →
     ∃ file', om_get id (wd_segs d') = Some file' ∧ len file <= len file' ∧ crc32 (take (Z.to_nat (len file)) file') = crc32 file) ∧
  (∀ id file id', om_get id (wd_segs d) = Some file → om_get id' (wd_segs d) = None → is_Some (om_get id' (wd_segs d')) → id < id').

Lemma grown_continues d d' :
  grows d d' → (∀ id file id', om_get id (wd_segs d) = Some file → om_get id' (wd_segs d) = None →
                 is_Some (om_get id' (wd_segs d')) → id < id') → continues d d'.
Proof.
  intros Hg Hn. split; [|done]. intros id file Hf. destruct (Hg _ _ Hf) as (suf & Hf'). exists (file ++ suf).
  split_and!; [done | rewrite len_app; unfold len; lia |]. unfold len. by rewrite Nat2Z.id, take_app_length.
Qed.
(** The segments of a seal, as files. *)
Lemma sealed_files d segs :
  plain d → seal_wal_segments d = Ok segs →
  segment_id <$> segs = fst <$> (wd_segs d : list (Z * bytes)) ∧ Forall (λ s, 0 <= WalSegmentFingerprint.length s) segs ∧
  Forall (λ s, ∃ file, om_get (segment_id s) (wd_segs d) = Some file ∧ WalSegmentFingerprint.length s = len file ∧ checksum s = crc32 file) segs.
Proof.
  intros Hp. unfold seal_wal_segments. rewrite census_plain by done. cbn [mbind res_bind]. intros Hs.
  destruct (seal_segments_run _ _ _ Hs (seg_lens_nonneg d)) as (_ & Hi & Hl). split_and!; [|done|].
  - rewrite Hi. unfold seg_lens. rewrite <- list_fmap_compose. by apply list_fmap_ext.
  - destruct Hp as [Hw _]. clear Hi Hl. assert (∀ x, x ∈ seg_lens d → ∃ file, om_get (fst x) (wd_segs d) = Some file ∧ snd x = len file) as Hin.
    { intros x ([id f] & <- & Hf%list_elem_of_In)%list_elem_of_In%in_map_iff. exists f. split; [by apply om_get_Some | done]. }
    revert segs Hs Hin. generalize (seg_lens d) as census. induction census as [|[id n] census IH]; intros segs; [by intros [= <-]|].
    cbn [seal_segments]. intros (c & Hc & (rest & Hr & [= <-])%res_bind_Ok)%res_bind_Ok Hin. constructor; [|apply IH; [done|]; intros; apply Hin; by right].
    destruct (Hin (id, n) ltac:(by left)) as (file & Hf & Hn). cbn [fst snd] in *. subst n. exists file. split_and!; [done | done|].
    rewrite (prefix_checksum _ _ _ file) in Hc by (try done; unfold len; lia). injection Hc as <-. cbn [checksum].
    unfold len. by rewrite Nat2Z.id, firstn_all.
Qed.
Lemma last_sealed d segs h id file :
  om_wf (wd_segs d) → segment_id <$> segs = fst <$> (wd_segs d : list (Z * bytes)) → last segs = Some h →
  om_get id (wd_segs d) = Some file → id <= segment_id h.
Proof.
  intros Hw Hi Hh Hf. apply om_get_Some in Hf; [|done]. apply (list_elem_of_fmap_2 fst) in Hf. rewrite <- Hi in Hf.
  assert (StronglySorted Z.lt (segment_id <$> segs)) as Hs.
  { rewrite Hi. clear -Hw. induction (wd_segs d) as [|[k v] m IH]; [constructor|]. apply om_wf_cons in Hw as [Hw Hk].
    cbn [fmap list_fmap]. constructor; [by apply IH|]. apply Forall_forall. intros y (z & -> & Hz)%list_elem_of_fmap.
    rewrite Forall_forall in Hk. specialize (Hk z Hz). unfold klt in Hk. simpl in Hk. by apply Z.compare_lt_iff. }
  apply last_Some in Hh as [l ->]. rewrite fmap_app in Hf, Hs. cbn [fmap list_fmap fst] in Hf, Hs.
  apply elem_of_app in Hf as [Hf| ->%list_elem_of_singleton]; [|lia].
  clear -Hf Hs. induction l as [|y l IH]; [by apply elem_of_nil in Hf|]. cbn [fmap list_fmap] in Hf, Hs. simpl in Hs.
  apply StronglySorted_inv in Hs as [Hs Hy]. apply elem_of_cons in Hf as [->|Hf]; [|by apply IH].
  rewrite Forall_forall in Hy. specialize (Hy (segment_id h) ltac:(set_solver)). simpl in Hy. lia.
Qed.

(** C7.  The seal of a log is accepted with exactly the logs that continue it:
    every sealed segment is there, at least as long, with the same checksum
    over the sealed length, and every other segment is newer than all of
    those.  A log that was only appended to continues itself. *)
Theorem seal_accepts_exactly d d' segs census :
  plain d → plain d' → seal_wal_segments d = Ok segs → wal_segment_census d' = Ok census →
  validate_sealed_wal_segments d' segs census = Ok tt ↔ continues d d'.
Proof.
  intros Hp Hp' Hs Hcen. rewrite census_plain in Hcen by done. injection Hcen as <-.
  destruct (sealed_files d segs Hp Hs) as (Hi & Hl & Hfi). rewrite validate_sealed_run by done. destruct Hp as [Hw _].
  assert (∀ id file, om_get id (wd_segs d) = Some file → ∃ s, s ∈ segs ∧ segment_id s = id ∧
            WalSegmentFingerprint.length s = len file ∧ checksum s = crc32 file) as Hsf.
  { intros id file Hf. pose proof Hf as Hin. apply om_get_Some, (list_elem_of_fmap_2 fst) in Hin; [|done]. rewrite <- Hi in Hin.
    apply list_elem_of_fmap in Hin as (s & Hid & Hin). rewrite Forall_forall in Hfi. destruct (Hfi s Hin) as (f & Hf' & ? & ?).
    cbn [fst] in Hid. rewrite <- Hid, Hf in Hf'. injection Hf' as <-. eauto. }
  split; intros [H1 H2]; split.
  - intros id file (s & Hin & <- & Hls & Hcs)%Hsf. rewrite Forall_forall in H1. destruct (H1 s Hin) as (f & ? & ? & Hc).
    exists f. rewrite Hls in Hc. split_and!; [done | lia | congruence].
  - intros id file id' Hf Hn [f' Hf']. destruct (Z.lt_ge_cases id id') as [|Hge]; [done|]. exfalso.
    assert (id ≠ id') by (intros ->; congruence). destruct (last segs) as [h|] eqn:Hh.
    2: { apply last_None in Hh as ->. by destruct (Hsf id file Hf) as (s & ?%elem_of_nil & _). }
    pose proof (last_sealed d segs h id file Hw Hi Hh Hf). pose proof (H2 h id' f' Hh Hf' ltac:(lia)) as Hin.
    rewrite Hi in Hin. apply list_elem_of_fmap in Hin as ([k v] & -> & Hin). apply om_get_Some in Hin; [|done]. simpl in Hn. congruence.
  - apply Forall_forall. intros s Hin. rewrite Forall_forall in Hfi. destruct (Hfi s Hin) as (file & Hf & Hls & Hcs).
    destruct (H1 _ _ Hf) as (f' & Hf' & Hle & Hc). exists f'. by rewrite Hls, Hcs.
  - intros h id f' Hh Hf' Hlt. rewrite Hi. destruct (om_get id (wd_segs d)) as [file|] eqn:Hf.
    + apply om_get_Some, (list_elem_of_fmap_2 fst) in Hf; done.
    + exfalso. rewrite Forall_forall in Hfi. destruct (Hfi h) as (fh & Hfh & _); [apply last_Some in Hh as [l ->]; set_solver|].
      specialize (H2 _ _ _ Hfh Hf (mk_is_Some _ _ Hf')). lia.
Qed.
End seals.

(** A log that was sealed, then appended to and rotated. *)
Definition sealed_log : WalDir := mkWalDir [(4, [x01; x02; x03])] [].
Definition grown_log : WalDir := mkWalDir [(4, [x01; x02; x03; x04]); (5, [x07])] [].
Definition log_seal : list WalSegmentFingerprint.t :=
  Eval vm_compute in match seal_wal_segments (H := ieee) sealed_log with Ok segs => segs | _ => [] end.
Lemma seal_accepts_exactly_witness :
  validate_sealed_wal_segments (H := ieee) grown_log log_seal [(4, 4); (5, 1)] = Ok tt.
Proof.
  apply (@seal_accepts_exactly ieee ieee_spec sealed_log grown_log log_seal).
  - split; [repeat constructor | constructor].
  - split; [repeat constructor | constructor].
  - vm_compute; reflexivity.
  - vm_compute; reflexivity.
  - split.
    + intros id file Hf. unfold sealed_log in Hf. cbn [wd_segs om_get] in Hf.
      destruct (kcmp id 4) eqn:E; [|done|done]. injection Hf as <-. change ((id ?= 4) = Eq) in E. apply Z.compare_eq in E as ->.
      exists [x01; x02; x03; x04]. split; [done|]. split; [done|]. vm_compute. reflexivity.
    + intros id file id' Hf Hn [f' Hf']. unfold sealed_log in Hf, Hn. unfold grown_log in Hf'. cbn [wd_segs om_get] in Hf, Hn, Hf'.
      change (kcmp id 4) with (id ?= 4) in Hf. change (kcmp id' 4) with (id' ?= 4) in Hn, Hf'. change (kcmp id' 5) with (id' ?= 5) in Hf'.
      destruct (Z.compare_spec id 4); [|done|done]. destruct (Z.compare_spec id' 4); [done| |];
        destruct (Z.compare_spec id' 5); try done; lia.
Defined.
