(* ===== verification/Frame.v ===== *)
(** * What maintenance leaves alone

    Flushes and compactions change the manifest, the files, the memtable and
    the log: a property of the write component that does not depend on them is
    kept by all of them, and by the engine around the component. *)

From S2P Require Import Prelude Bytes OrdMap Bloom SSTable Wal Manifest Admission Config Store Read Write Compaction Engine.

(** [keeps J p]: [J] is an invariant of [p], whatever its result. *)

Definition keeps {S A} (J : S → Prop) (p : eff S A) : Prop := ∀ s, J s → J (p s).2.

Section keeps.
Context {S : Type} (J : S → Prop).
Lemma keeps_ret {A} (a : A) : keeps J (mret a).
Proof. by intros s Hs. Qed.
Lemma keeps_pure {A} (m : res A) : keeps J (pure_eff m).
Proof. by intros s Hs. Qed.
Lemma keeps_bind {A B} (p : eff S A) (f : A → eff S B) : keeps J p → (∀ a, keeps J (f a)) → keeps J (p ≫= f).
Proof.
  intros Hp Hf s Hs. specialize (Hp s Hs). unfold mbind, eff_bind. destruct (p s) as [[a|e|] s']; [|done|done]. by apply Hf.
Qed.
End keeps.

(** What every part of a flush and of a compaction keeps, they keep: a
    property of the component that does not depend on its manifest, files and
    memtable, and that survives a rotation and a checkpoint. *)
Section frame.
Context `{Crc32, FastBloom}.
Import WriteComponent.
Variable J : WriteComponent.t → Prop.
Hypothesis J_manifest : ∀ w m, J w → J (set_manifest w m).
Hypothesis J_files : ∀ w fs, J w → J (set_files w fs).
Hypothesis J_mem : ∀ w m size, J w → J (set_mem w m size).
Hypothesis J_rotate : ∀ rf, keeps J (on_wal (λ l, Wal.rotate_wal_file l rf)).
Hypothesis J_publish : ∀ n fault, keeps J (publish_checkpoint n fault).

Lemma on_manifest_frame {A} (f : ManifestManager.t → res A * ManifestManager.t) : keeps J (on_manifest f).
Proof. intros w Hw. unfold on_manifest. destruct (f (manifest w)). by apply J_manifest. Qed.
Lemma create_frame fuel fault : keeps J (create_table_file fuel fault).
Proof.
  induction fuel as [|fuel IH]; [apply keeps_pure|]. cbn [create_table_file]. apply keeps_bind; [apply on_manifest_frame|].
  intros id w Hw. destruct fault; [done|]. destruct (om_get _ _); [by apply IH | by apply J_files].
Qed.
Lemma write_file_frame p data fault : keeps J (write_table_file p data fault).
Proof. intros w Hw. unfold write_table_file. destruct fault as [[k n]|]; by apply J_files. Qed.
Lemma flush_inner_frame m seq ff : keeps J (flush_inner m seq ff).
Proof.
  intros w Hw. unfold flush_inner.
  apply (keeps_bind J (pure_eff (build_table (bloom_false_positive_rate w) m))); [apply keeps_pure| |done].
  intros [[codec [smallest largest]] valid]. destruct (SSTableCodec.serialize codec) as [encoded footer].
  apply keeps_bind; [apply create_frame|]. intros [id p].
  apply keeps_bind; [apply write_file_frame | intros _].
  apply keeps_bind; [apply on_manifest_frame | intros _].
  apply keeps_bind; [apply J_rotate | intros seg].
  apply keeps_bind; [apply on_manifest_frame | intros _].
  apply keeps_bind; [apply J_publish | intros _]. apply keeps_ret.
Qed.
Lemma flush_frame ff : keeps J (flush_active_memtable ff).
Proof.
  intros w Hw. unfold flush_active_memtable.
  apply (keeps_bind J (flush_inner (mem w) (Some (sequence_number w)) ff)); [apply flush_inner_frame | intros a | done].
  apply keeps_bind; [|intros _; apply keeps_ret]. intros w' Hw'. unfold modify, remove_flushed.
  destruct (foldl _ _ _). by apply J_mem.
Qed.

(** The engine around the component keeps its configuration too. *)
Variable c0 : StorageConfig.t.
Definition framed (s : KV2.t) : Prop := J (KV2.write_component s) ∧ KV2.config s = c0.
Lemma on_write_frame {A} (p : eff WriteComponent.t A) : keeps J p → keeps framed (KV2.on_write p).
Proof. intros Hp s [Hs Hc]. specialize (Hp _ Hs). unfold KV2.on_write. by destruct (p (KV2.write_component s)). Qed.
Lemma maybe_flush_frame ff : keeps framed (KV2.maybe_flush_and_compact ff).
Proof.
  intros s Hs. unfold KV2.maybe_flush_and_compact. destruct (_ <? _); [done|].
  apply (keeps_bind framed (KV2.on_write (flush_active_memtable ff))); [apply on_write_frame, flush_frame | intros a | done].
  intros s' Hs'. by destruct (_ <=? _).
Qed.
Lemma maintain_frame ff : keeps framed (KV2.maintain_after_commit ff).
Proof.
  intros s Hs. pose proof (maybe_flush_frame ff s Hs) as Hm. unfold KV2.maintain_after_commit.
  by destruct (KV2.maybe_flush_and_compact ff s) as [[]].
Qed.
Lemma trigger_frame fuel level cf checks : keeps framed (KV2.run_trigger fuel level cf checks).
Proof.
  intros s [Hs Hc]. unfold KV2.run_trigger. destruct (compact_levels _ _ _ _ _). split; [|done]. by apply J_files, J_manifest.
Qed.
Lemma worker_frame fuel cf checks : keeps framed (KV2.run_compaction_worker fuel cf checks).
Proof. intros s Hs. unfold KV2.run_compaction_worker. destruct (KV2.triggers s); [done|]. by apply trigger_frame. Qed.
Lemma shutdown_frame fuel cf checks : keeps framed (KV2.shutdown fuel cf checks).
Proof.
  intros s Hs. unfold KV2.shutdown. generalize (KV2.triggers s) as ls. intros ls.
  assert (keeps framed (KV2.drain_triggers fuel ls cf checks)) as Hd; [|by apply Hd].
  induction ls as [|l ls IH]; [apply keeps_ret|]. cbn [KV2.drain_triggers]. apply keeps_bind; [apply trigger_frame | by intros _].
Qed.
End frame.
