(* ===== verification/ExperimentalTheory.v ===== *)
(** * The experimental engine, while it runs

    The engine over a generation is a map: its index records stand for the
    operations performed, in order, and reading a key resolves the newest of
    them in the log. *)

From stdpp Require Import sets.
From Stdlib Require Import Sorted.
From S2P Require Import Prelude Bytes OrdMap Search Record Block Bloom Index Footer LegacyBlock SSTable Preflight.
From S2P Require Import WalFormat WalAnalysis Wal WalCrash WalRefine WalRead Manifest ManifestTheory Admission Config Store Read.
From S2P Require Import ReadTheory Tables Write WriteTheory Compaction CompactionTheory Root Engine OpenTheory EngineTheory.
From S2P Require Import KVTheory Api Generation Experimental ReferenceTheory Frame.

(** ** What a log keeps through the engine *)

Section log_kept.
Context `{Crc32Spec, FastBloom}.
Variable d0 : WalDir.
Import WriteComponent.

(** The log is a value log grown from [d0]. *)
Definition log_kept (w : WriteComponent.t) : Prop := value_log (wal w) ∧ grows d0 (Wal.dir (wal w)).

Lemma rotate_kept rf : keeps log_kept (on_wal (λ l, Wal.rotate_wal_file l rf)).
Proof.
  intros w [Hv Hg]. unfold on_wal. destruct (Wal.rotate_wal_file (wal w) rf) as [r l'] eqn:Hr.
  destruct (rotate_grows _ _ _ _ Hv Hr) as [Hv' Hg']. split; [done|]. simpl. by etrans.
Qed.
Lemma publish_kept s fault : keeps log_kept (publish_checkpoint s fault).
Proof.
  intros w [Hv Hg]. unfold publish_checkpoint, Wal.owns_recovery_checkpoints. destruct s; [|done].
  by rewrite (vl_owner _ Hv).
Qed.
Variable c0 : StorageConfig.t.
Definition inner_kept : KV2.t → Prop := framed log_kept c0.
Lemma flush_kept ff : keeps log_kept (flush_active_memtable ff).
Proof. apply flush_frame; try done; [apply rotate_kept | apply publish_kept]. Qed.
Lemma on_write_kept {A} (p : eff WriteComponent.t A) : keeps log_kept p → keeps inner_kept (KV2.on_write p).
Proof. apply on_write_frame. Qed.
Lemma maintain_kept ff : keeps inner_kept (KV2.maintain_after_commit ff).
Proof. apply maintain_frame; try done; [apply rotate_kept | apply publish_kept]. Qed.
Lemma trigger_kept fuel level cf checks : keeps inner_kept (KV2.run_trigger fuel level cf checks).
Proof. by apply trigger_frame. Qed.
Lemma worker_kept fuel cf checks : keeps inner_kept (KV2.run_compaction_worker fuel cf checks).
Proof. by apply worker_frame. Qed.
Lemma shutdown_kept fuel cf checks : keeps inner_kept (KV2.shutdown fuel cf checks).
Proof. by apply shutdown_frame. Qed.
End log_kept.

(** ** Records of the index *)

Section records.
Context `{Crc32Spec, FastBloomSpec, Hshape : !FastBloomShape}.
Variables (U : MemtableRecord.t → Prop) (rate : f64) (mode : Logging).
Implicit Types (s : KV2.t) (hist : list MemtableRecord.t).

(** A read only changes the cache of the manifest. *)
Definition reread s s' : Prop := ∃ m', s' = KV2.set_write s (WriteComponent.set_manifest (KV2.write_component s) m').
(** What is found of a key in the index: a record of the history that shows
    the same as its newest one. *)
Definition found_in hist (key : bytes) (b : option MemtableRecord.t) : Prop :=
  visible b = visible (newest key hist) ∧ ∀ r, b = Some r → r ∈ hist ∧ MemtableRecord.key r = key.

Lemma engine_found w hist pend n b k :
  engine_at U rate mode w hist pend n b →
  found_in hist k (newest k (store_records (WriteComponent.mem w)
    (tables_of (WriteComponent.files w) (lvls (WriteComponent.manifest w))) (WriteComponent.sequence_number w))).
Proof.
  intros He. split; [by eapply engine_view|]. intros r Hr. set (rs := store_records _ _ _) in *.
  pose proof (newest_spec k rs) as Hs. rewrite Hr in Hs. destruct Hs as (Hin & Hk & _). split; [|done].
  unfold rs, store_records in Hin. apply elem_of_upto in Hin as [Hin _]. apply elem_of_app in Hin as [Hin|Hin].
  - eapply elem_of_drop. by apply (ea_memrec _ _ _ _ _ _ _ _ He).
  - by apply (ea_shows _ _ _ _ _ _ _ _ He).
Qed.
Lemma get_record_ends key s hist pend :
  kv_inv U rate mode s hist pend →
  ∃ o b s', KV2.get_record key s = (Ok o, s') ∧ kv_inv U rate mode s' hist pend ∧ reread s s' ∧
    answers key o b ∧ found_in hist key b.
Proof.
  intros Hi. pose proof Hi as [(n & b & He) _]. pose proof (engine_store _ _ _ _ _ _ _ _ He) as Hst.
  destruct (get_answers _ _ _ _ _ key Hst) as (o & (m' & Hg & Hs) & Ha).
  eexists o, _, _. split_and!; [|by eapply read_keeps | by eexists | exact Ha | by eapply engine_found].
  unfold KV2.get_record, KV2.on_read.
  change (KV2.current_sequence_number s) with (WriteComponent.sequence_number (KV2.write_component s)).
  unfold open_of in Hg. by rewrite Hg.
Qed.
Lemma scan_records_ends range s hist pend :
  kv_inv U rate mode s hist pend →
  ∃ l s', KV2.scan_records range s = (Ok l, s') ∧ kv_inv U rate mode s' hist pend ∧ reread s s' ∧
    StronglySorted klt (fst <$> l) ∧
    (∀ k r, (k, r) ∈ l → key_in_range k range = true ∧ MemtableRecord.record_type r = Put ∧
                         found_in hist k (Some (MemtableRecord.with_key r k))) ∧
    ∀ k v, key_in_range k range = true → visible (newest k hist) = Some v → ∃ r, (k, r) ∈ l.
Proof.
  intros Hi. pose proof Hi as [(n & b & He) _]. pose proof (engine_store _ _ _ _ _ _ _ _ He) as Hst.
  destruct (scan_records_spec _ _ _ _ _ range Hst) as (l & m' & Hg & Hs & Hso & Hin & Hall).
  eexists l, _. split_and!; [|by eapply read_keeps | by eexists | done | |].
  - unfold KV2.scan_records, KV2.on_read.
    change (KV2.current_sequence_number s) with (WriteComponent.sequence_number (KV2.write_component s)).
    unfold open_of in Hg. by rewrite Hg.
  - intros k r (? & ? & Hn)%Hin. split_and!; [done..|]. rewrite <- Hn. by eapply engine_found.
  - intros k v Hk Hv. rewrite <- (engine_view _ _ _ _ _ _ _ _ k He) in Hv.
    destruct (newest k _) as [b'|] eqn:Hn; [|done]. simpl in Hv.
    destruct (MemtableRecord.record_type b') eqn:Ht; [|done]. destruct (Hall k b' Hk Hn Ht) as (r & Hr & _). by exists r.
Qed.
End records.

(** ** Histories of operations *)

Section history.
Context `{Crc32Spec}.
Implicit Types (d : WalDir) (g : Z) (hist : list MemtableRecord.t) (os : list BatchOperation).

(** The newest record of a key stands for the last operation on it. *)
Lemma history_get d g hist os k :
  increasing hist → Forall2 (resolves d g) hist os →
  match newest k hist with
  | Some r => ∃ o, o ∈ os ∧ resolves d g r o ∧ om_get k (apply_ops os []) = op_result o
  | None => om_get k (apply_ops os []) = None
  end.
Proof.
  intros Hi Hf. revert os Hf. induction hist as [|r hist IH] using rev_ind; intros os Hf; [by apply Forall2_nil_inv_l in Hf as ->|].
  apply Forall2_app_inv_l in Hf as (os1 & os2 & Hf1 & Hf2 & ->). apply Forall2_cons_inv_l in Hf2 as (o & os' & Ho & Hn & ->).
  apply Forall2_nil_inv_l in Hn as ->. apply increasing_app in Hi as (Hi & _ & Hlt).
  unfold apply_ops. rewrite foldl_snoc. fold (apply_ops os1 []). rewrite newest_snoc, get_apply_op.
  specialize (IH Hi os1 Hf1). unfold newer. destruct Ho as [Hk Ho]. case_bool_decide as Hkr.
  - rewrite decide_True by congruence. pose proof (newest_spec k hist) as Hs.
    destruct (newest k hist) as [b|]; [|exists o; split; [set_solver | done]].
    destruct Hs as (Hb & _). specialize (Hlt b r Hb ltac:(by left)). rewrite (proj2 (Z.ltb_lt _ _)) by done.
    exists o. split; [set_solver | done].
  - rewrite decide_False by congruence. destruct (newest k hist) as [b|]; [|done].
    destruct IH as (o' & Ho' & ? & ?). exists o'. split; [set_solver | done].
Qed.
(** What is found in the index resolves to what the map has. *)
Lemma found_put d g hist os k b v w a :
  increasing hist → Forall2 (resolves d g) hist os → found_in hist k (Some b) → MemtableRecord.record_type b = Put →
  grows d (Wal.dir w) → small (Wal.dir w) → same_content k a b → om_get k (apply_ops os []) = v →
  ∃ x, resolve_record w g k a = Ok x ∧ v = Some x.
Proof.
  intros Hi Hf [Hv Hin] Hp Hg Hs Ha Hm. destruct (Hin b eq_refl) as [Hb Hk]. simpl in Hv. rewrite Hp in Hv.
  pose proof (history_get d g hist os k Hi Hf) as Hh. pose proof (newest_spec k hist) as Hn.
  destruct (newest k hist) as [r|]; [|done]. simpl in Hv. destruct (MemtableRecord.record_type r) eqn:Ht; [|done].
  injection Hv as Hv. destruct Hh as (o & _ & Hro & Ho). destruct Hn as (Hr & Hkr & _).
  apply list_elem_of_lookup_1 in Hb as Hbi. destruct Hbi as [i Hbi].
  destruct (Forall2_lookup_l _ _ _ _ _ Hf Hbi) as (o' & _ & Hro').
  destruct o as [k1 v1|k1]; [|by destruct Hro as (_ & Hro); congruence].
  destruct o' as [k2 v2|k2]; [|by destruct Hro' as (_ & Hro'); congruence].
  assert (b = r) as ->.
  { apply (increasing_unique _ Hi); [done | done | congruence|]. eapply resolves_lsn; [done | done | done]. }
  exists v1. split; [|by rewrite <- Hm, Ho]. assert (k1 = k) as -> by (destruct Hro as [E _]; simpl in E; congruence).
  by eapply resolve_stored.
Qed.
Lemma found_none d g hist os k :
  increasing hist → Forall2 (resolves d g) hist os → visible (newest k hist) = None → om_get k (apply_ops os []) = None.
Proof.
  intros Hi Hf Hv. pose proof (history_get d g hist os k Hi Hf) as Hh. destruct (newest k hist) as [r|]; [|done].
  destruct Hh as (o & _ & (_ & Ho) & ->). destruct o as [k1 v1|k1]; [|done]. destruct Ho as [Ht _]. simpl in Hv. by rewrite Ht in Hv.
Qed.
End history.

(** ** The running engine *)

Section running.
Context `{Crc32Spec, FastBloomSpec, Hshape : !FastBloomShape}.
Variables (U : MemtableRecord.t → Prop) (rate : f64).
Hypothesis HU : ∀ r, U r → recordable r.
Hypothesis Hroom : roomy rate U.
Implicit Types (s : KV2.t) (e : ExperimentalEngine.t) (hist : list MemtableRecord.t) (os : list BatchOperation)
  (m : ordmap bytes bytes).
Import ExperimentalEngine.

(** An index of generation [g] whose records stand for [os]. *)
Record index_at (g : Z) s hist os : Prop := {
  xa_kv : kv_inv U rate (WalReference g) s hist [];
  xa_log : value_log (inner_wal s);
  xa_ops : Forall2 (resolves (Wal.dir (inner_wal s)) g) hist os;
  xa_config : StorageConfig.wal_segment_size (KV2.config s) <= isize_max
}.
Definition index_holds (g : Z) s m : Prop := ∃ hist os, index_at g s hist os ∧ m = apply_ops os [].

Lemma index_increasing g s hist os : index_at g s hist os → increasing hist.
Proof. intros [[(n & b & He) _] _ _ _]. by eapply ea_hist. Qed.
Lemma index_step g s s' hist os :
  index_at g s hist os → kv_inv U rate (WalReference g) s' hist [] →
  inner_kept (Wal.dir (inner_wal s)) (KV2.config s) s' → index_at g s' hist os.
Proof.
  intros [Hkv Hv Hops Hc] Hkv' [[Hv' Hg] Hcfg]. split; [done | done | | by rewrite Hcfg].
  eapply Forall2_impl; [exact Hops|]. intros r o. by apply resolves_grows.
Qed.
Lemma index_start g s hist os : index_at g s hist os → inner_kept (Wal.dir (inner_wal s)) (KV2.config s) s.
Proof. intros [_ Hv _ _]. split; [|done]. split; [done | reflexivity]. Qed.
Lemma index_reread g s s' hist os :
  index_at g s hist os → kv_inv U rate (WalReference g) s' hist [] → reread s s' → index_at g s' hist os.
Proof. intros Hx Hkv (m' & ->). eapply index_step; [done | done|]. destruct (index_start _ _ _ _ Hx) as [[? ?] ?]. done. Qed.

(** *** Reads *)

Lemma index_get key g s hist os :
  index_at g s hist os →
  ∃ o s', KV2.get_record key s = (Ok o, s') ∧ index_at g s' hist os ∧
    match o with
    | Some a => if is_delete (MemtableRecord.record_type a) then om_get key (apply_ops os []) = None
                else ∃ v, resolve_record (inner_wal s') g key a = Ok v ∧ om_get key (apply_ops os []) = Some v
    | None => om_get key (apply_ops os []) = None
    end.
Proof.
  intros Hx. pose proof (index_increasing _ _ _ _ Hx) as Hinc.
  destruct (get_record_ends U rate (WalReference g) key s hist [] (xa_kv _ _ _ _ Hx)) as (o & b & s' & Hg & Hkv & Hre & Ha & Hf).
  exists o, s'. split; [done|]. pose proof (index_reread _ _ _ _ _ Hx Hkv Hre) as Hx'. split; [done|].
  pose proof (xa_ops _ _ _ _ Hx') as Hops. pose proof (vl_small _ (xa_log _ _ _ _ Hx')) as Hsm.
  destruct o as [a|], b as [b|]; try done.
  - destruct (MemtableRecord.record_type a) eqn:Ht; cbn [is_delete].
    + destruct (found_put _ g hist os key b _ (inner_wal s') a Hinc Hops Hf ltac:(by rewrite <- Ha) ltac:(reflexivity) Hsm Ha eq_refl)
        as (x & Hx1 & Hx2). by exists x.
    + destruct Hf as [Hv _]. eapply found_none; [done..|]. rewrite <- Hv, <- Ha. simpl. by rewrite Ht.
  - destruct Hf as [Hv _]. eapply found_none; [done..|]. rewrite <- Hv. simpl in Ha |- *. by rewrite Ha.
  - destruct Hf as [Hv _]. eapply found_none; [done..|]. by rewrite <- Hv.
Qed.

Lemma om_ext_elem {K V} `{OrdKey K} (m1 m2 : list (K * V)) :
  om_wf m1 → om_wf m2 → (∀ k v, (k, v) ∈ m1 ↔ (k, v) ∈ m2) → m1 = m2.
Proof.
  intros Hw1 Hw2 Hm. apply om_ext; [done..|]. intros k. destruct (om_get k m1) as [v|] eqn:E1.
  - symmetry. apply om_get_Some; [done|]. apply Hm. by apply om_get_Some.
  - destruct (om_get k m2) as [v|] eqn:E2; [|done]. apply om_get_Some, Hm, om_get_Some in E2; [congruence | done..].
Qed.
Lemma resolve_all_run (wal : Wal.t) g (val : bytes → MemtableRecord.t → bytes) l :
  (∀ k r, (k, r) ∈ l → resolve_record wal g k r = Ok (val k r)) →
  resolve_all wal g l = Ok ((λ x, (fst x, val (fst x) (snd x))) <$> l).
Proof.
  induction l as [|[k r] l IH]; intros Hl; [done|]. cbn [resolve_all]. rewrite Hl by (by left). cbn [mbind res_bind].
  rewrite IH by (intros; apply Hl; by right). done.
Qed.
Lemma index_scan range g s hist os :
  index_at g s hist os →
  ∃ l s', KV2.scan_records range s = (Ok l, s') ∧ index_at g s' hist os ∧
    StronglySorted klt (fst <$> l) ∧
    (∀ k r, (k, r) ∈ l → MemtableRecord.record_type r = Put ∧ MemtableRecord.with_key r k ∈ hist ∧
       ∃ v, resolve_record (inner_wal s') g k r = Ok v ∧ om_get k (apply_ops os []) = Some v) ∧
    resolve_all (inner_wal s') g l = Ok (List.filter (λ x, key_in_range (fst x) range) (apply_ops os [])).
Proof.
  intros Hx. pose proof (index_increasing _ _ _ _ Hx) as Hinc.
  destruct (scan_records_ends U rate (WalReference g) range s hist [] (xa_kv _ _ _ _ Hx)) as (l & s' & Hg & Hkv & Hre & Hso & Hin & Hall).
  exists l, s'. split; [done|]. pose proof (index_reread _ _ _ _ _ Hx Hkv Hre) as Hx'. split; [done|]. split; [done|].
  pose proof (xa_ops _ _ _ _ Hx') as Hops. pose proof (vl_small _ (xa_log _ _ _ _ Hx')) as Hsm. set (m := apply_ops os []).
  assert (∀ k r, (k, r) ∈ l → MemtableRecord.record_type r = Put ∧ MemtableRecord.with_key r k ∈ hist ∧ ∃ v, resolve_record (inner_wal s') g k r = Ok v ∧ om_get k m = Some v) as Hres.
  { intros k r (_ & Hp & Hf)%Hin. split; [done|]. split; [by apply Hf|].
    destruct (found_put _ g hist os k (MemtableRecord.with_key r k) _ (inner_wal s') r Hinc Hops Hf Hp ltac:(reflexivity) Hsm eq_refl eq_refl)
      as (x & Hx1 & Hx2). by exists x. }
  split; [done|]. assert (om_wf m) as Hwf by (apply apply_ops_wf, om_wf_nil).
  rewrite (resolve_all_run _ _ (λ k _, default [] (om_get k m))).
  2: { intros k r (_ & _ & v & Hv & Hm)%Hres. by rewrite Hv, Hm. }
  f_equal. apply om_ext_elem; [|by apply filter_om_wf|].
  { clear -Hso. induction l as [|[k r] l IH]; [apply om_wf_nil|]. cbn [fmap list_fmap fst snd] in *.
    apply StronglySorted_inv in Hso as [Hso Hf]. apply om_wf_cons. split; [by apply IH|].
    apply Forall_forall. intros y (z & -> & Hz)%list_elem_of_fmap. rewrite Forall_forall in Hf. apply Hf. cbn [fst]. by apply (list_elem_of_fmap_2 fst l). }
  intros k v. rewrite om_filter_get by done. cbn [fst]. rewrite list_elem_of_fmap. split.
  - intros ([k' r] & [= -> ->] & Hkr). destruct (Hres k' r Hkr) as (_ & _ & x & _ & Hm). destruct (Hin k' r Hkr) as (Hk & _).
    by rewrite Hm.
  - intros [Hm Hk]. destruct (visible (newest k hist)) as [x|] eqn:Hv.
    + destruct (Hall k x Hk Hv) as (r & Hr). exists (k, r). cbn [fst]. by rewrite Hm.
    + pose proof (found_none _ _ _ _ _ Hinc Hops Hv). unfold m in Hm. congruence.
Qed.

(** *** Writes *)

Lemma apply_ops_app os os' m : apply_ops (os ++ os') m = apply_ops os' (apply_ops os m).
Proof. unfold apply_ops. apply foldl_app. Qed.

(** A batch and the maintenance after it. *)
Definition batch_run os (f : KV2.WriteFaults) : eff KV2.t unit :=
  _ ← KV2.on_write (WriteComponent.write_batch os (KV2.wf_rotate f) (KV2.wf_write f));
  KV2.maintain_after_commit (KV2.wf_flush f).
Lemma index_write os f g s hist os0 :
  is_u64 g → g ≠ 0 → index_at g s hist os0 → os ≠ [] → ref_ops_ok U os → flush_clean (KV2.wf_flush f) →
  match batch_run os f s with
  | (Ok _, s') => ∃ hist', index_at g s' hist' (os0 ++ os)
  | (Err _, s') => index_at g s' hist os0
  | (Panic, _) => False
  end.
Proof.
  intros Hg Hg0 Hx Hne Hok Hfc. pose proof Hx as [[Hi Hr] Hv Hops Hc]. unfold batch_run, mbind, eff_bind, KV2.on_write.
  pose proof (reference_write U rate g HU Hroom Hg Hg0 _ _ os (KV2.wf_rotate f) (KV2.wf_write f) Hi Hv Hne Hok) as Hw.
  destruct (WriteComponent.write_batch os _ _ (KV2.write_component s)) as [r w']. destruct Hw as (Hv' & Hgr & Hw).
  assert (Forall2 (resolves (Wal.dir (WriteComponent.wal w')) g) hist os0) as Hops'.
  { eapply Forall2_impl; [exact Hops|]. intros r0 o. by apply resolves_grows. }
  destruct r as [u|e|]; [|by split|done]. destruct Hw as (new & Hi' & Hnew).
  assert (index_at g (KV2.set_write s w') (hist ++ new) (os0 ++ os)) as Hx1 by (split; [done | done | by apply Forall2_app | done]).
  pose proof (maintain_ends U rate (WalReference g) HU Hroom (KV2.wf_flush f) (KV2.set_write s w') _ [] (xa_kv _ _ _ _ Hx1) Hfc) as Hm.
  pose proof (maintain_kept _ _ (KV2.wf_flush f) _ (index_start _ _ _ _ Hx1)) as Hk. unfold ends in Hm.
  destruct (KV2.maintain_after_commit (KV2.wf_flush f) (KV2.set_write s w')) as [[]] eqn:Em; [| |done].
  - exists (hist ++ new). eapply index_step; [exact Hx1 | apply Hm | exact Hk].
  - exfalso. unfold KV2.maintain_after_commit in Em. by destruct (KV2.maybe_flush_and_compact _ _) as [[]].
Qed.
(** Maintenance: an operation that keeps the history and the log. *)
Lemma index_maintain {A} (p : eff KV2.t A) g s hist os :
  index_at g s hist os →
  ends (λ s', kv_inv U rate (WalReference g) s' hist []) (λ _ _, True) p s →
  keeps (inner_kept (Wal.dir (inner_wal s)) (KV2.config s)) p →
  (p s).1 ≠ Panic ∧ index_at g (p s).2 hist os.
Proof.
  intros Hx He Hk. specialize (Hk s (index_start _ _ _ _ Hx)). unfold ends in He. destruct (p s) as [[a|e|] s']; [| |done];
    (split; [done|]); (eapply index_step; [exact Hx | apply He | exact Hk]).
Qed.

(** *** The engine *)

(** [e] is active and has the map [m]. *)
Definition exp_holds e m : Prop :=
  state e = Active ∧ is_u64 (generation e) ∧ generation e ≠ 0 ∧ index_holds (generation e) (inner e) m.

Lemma exp_get key e m :
  exp_holds e m → ∃ s', get key e = (Ok (om_get key m), set_inner e s') ∧ exp_holds (set_inner e s') m.
Proof.
  intros (Hst & Hg & Hg0 & hist & os & Hx & ->). destruct (index_get key _ _ _ _ Hx) as (o & s' & Hgr & Hx' & Ho).
  exists s'. split; [|by split_and!; [.. | exists hist, os]].
  unfold get, ensure_operational, mbind, eff_bind. rewrite Hst. unfold on_inner. rewrite Hgr.
  destruct o as [a|]; [|by rewrite Ho]. destruct (is_delete (MemtableRecord.record_type a)); [by rewrite Ho|].
  destruct Ho as (v & Hv & ->). unfold query. simpl. by rewrite Hv.
Qed.
Lemma exp_scan range e m :
  exp_holds e m →
  ∃ s', scan range e = (Ok (List.filter (λ x, key_in_range (fst x) range) m), set_inner e s') ∧ exp_holds (set_inner e s') m.
Proof.
  intros (Hst & Hg & Hg0 & hist & os & Hx & ->). destruct (index_scan range _ _ _ _ Hx) as (l & s' & Hgr & Hx' & _ & _ & Hl).
  exists s'. split; [|by split_and!; [.. | exists hist, os]].
  unfold scan, ensure_operational, mbind, eff_bind. rewrite Hst. unfold on_inner. rewrite Hgr. unfold query. simpl. by rewrite Hl.
Qed.
(** What a write of [os] does to the map. *)
Definition exp_wrote os m (r : res unit * ExperimentalEngine.t) : Prop :=
  match r with
  | (Ok _, e) => exp_holds e (apply_ops os m)
  | (Err _, e) => exp_holds e m
  | (Panic, _) => False
  end.
Lemma exp_run os f e m (p : eff KV2.t unit) :
  exp_holds e m → os ≠ [] → ref_ops_ok U os → flush_clean (KV2.wf_flush f) → p (inner e) = batch_run os f (inner e) →
  exp_wrote os m ((_ ← ensure_operational; on_inner p) e).
Proof.
  intros (Hst & Hg & Hg0 & hist & os0 & Hx & ->) Hne Hok Hfc Hp.
  pose proof (index_write os f _ _ _ _ Hg Hg0 Hx Hne Hok Hfc) as Hw.
  unfold ensure_operational, mbind, eff_bind. rewrite Hst. unfold on_inner. rewrite Hp.
  destruct (batch_run os f (inner e)) as [[u|er|] s']; [| |done].
  - destruct Hw as (hist' & Hx'). split_and!; [done..|]. exists hist', (os0 ++ os). split; [done|]. by rewrite apply_ops_app.
  - split_and!; [done..|]. by exists hist, os0.
Qed.
Lemma exp_put key value f e m :
  exp_holds e m → ref_ops_ok U [BatchPut key value] → flush_clean (KV2.wf_flush f) →
  exp_wrote [BatchPut key value] m (put key value f e).
Proof. intros He Hok Hfc. by apply (exp_run [BatchPut key value] f). Qed.
Lemma exp_delete key f e m :
  exp_holds e m → ref_ops_ok U [BatchDelete key] → flush_clean (KV2.wf_flush f) →
  exp_wrote [BatchDelete key] m (delete key f e).
Proof. intros He Hok Hfc. by apply (exp_run [BatchDelete key] f). Qed.
Lemma exp_batch os f e m :
  exp_holds e m → ref_ops_ok U os → flush_clean (KV2.wf_flush f) → exp_wrote os m (write_batch os f e).
Proof.
  intros He Hok Hfc. destruct os as [|o os]; [|by apply (exp_run (o :: os) f)].
  pose proof He as (Hst & _). unfold write_batch, ensure_operational, mbind, eff_bind. rewrite Hst. by destruct e.
Qed.
End running.
