(* ===== verification/CleanTheory.v ===== *)
(** * Cleaning keeps the contents

    The copy of the live records into a new log, the index over it, and the
    switch of the engine to the new generation. *)

From stdpp Require Import sets sorting.
From Stdlib Require Import Sorted.
From S2P Require Import Prelude Bytes OrdMap Search Record Block Bloom Index Footer LegacyBlock SSTable Preflight.
From S2P Require Import WalFormat WalAnalysis Wal WalCrash WalRefine WalRead Manifest ManifestTheory Admission Config Store Read.
From S2P Require Import ReadTheory Tables Write WriteTheory Compaction CompactionTheory Root Engine OpenTheory EngineTheory.
From S2P Require Import KVTheory Api Generation Experimental ReferenceTheory ExperimentalTheory Frame.

(** ** The copy *)

Section copy.
Context `{Crc32Spec}.
Variable g : Z.
Hypothesis Hg : is_u64 g.
Hypothesis Hg0 : g ≠ 0.
Implicit Types (c : CopiedLiveIndex) (w : Wal.t) (recs : list MemtableRecord.t) (os : list BatchOperation)
  (cmds : list LogCommand.t).

Definition put_of (cmd : LogCommand.t) : BatchOperation := BatchPut (LogCommand.key cmd) (LogCommand.value cmd).

(** The memtable of a copy has the records [recs], which stand for [os]. *)
Record copied_mem d c recs os : Prop := {
  cm_mem : mem_ok (cp_memtable c);
  cm_recs : ∀ r, r ∈ mem_records (cp_memtable c) ↔ r ∈ recs;
  cm_ops : Forall2 (resolves d g) recs os;
  cm_len : Forall (λ r, len (MemtableRecord.value r) = REFERENCE_VALUE_ENCODED_SIZE) recs
}.
Record copied_at c w recs os : Prop := {
  ct_log : ∃ log, good w log ∧ Forall typed log;
  ct_value : value_log w;
  ct_typed : wal_typed w;
  ct_checkpoint : Wal.checkpoint w = None;
  ct_mem : copied_mem (Wal.dir w) c recs os
}.
(** Everything but the memtable. *)
Definition same_counts c c' : Prop := cp_max_live_sequence c' = cp_max_live_sequence c.

Lemma add_receipts_ok d cmds rl c recs os :
  Forall2 (receipt_ok d) cmds rl → Forall (λ x, LogCommand.record_type x = Put ∧ typed x) cmds →
  NoDup ((MemtableRecord.lsn <$> recs) ++ (LogCommand.lsn <$> cmds)) → copied_mem d c recs os →
  ∃ c' new, add_receipts g c (map (λ x, (LogCommand.key x, LogCommand.lsn x)) cmds) rl = Ok c' ∧ same_counts c c' ∧
    copied_mem d c' (recs ++ new) (os ++ (put_of <$> cmds)) ∧ MemtableRecord.lsn <$> new = LogCommand.lsn <$> cmds.
Proof.
  intros Hf. revert c recs os. induction Hf as [|x ref cmds rl Hr Hf IH]; intros c recs os Hp Hn Hc.
  { exists c, []. cbn [fmap list_fmap]. by rewrite !app_nil_r. }
  apply Forall_cons_1 in Hp as [[Hput Hty] Hp]. pose proof Hr as (Ht & Hs & Hrp). destruct (Hrp Hput) as (Hw & Hv & Hst).
  cbn [map add_receipts]. rewrite Hs, Z.eqb_refl, Ht, Hput. cbn [is_delete negb andb guard_err mbind res_bind].
  set (reference := ReferenceValue.encode (ReferenceValue.new g ref)). set (c1 := mkCopied _ _ _ _ _ _ _).
  destruct Hc as [Hm Hrs Hops Hl].
  destruct (mem_insert (cp_memtable c) (LogCommand.key x) (LogCommand.lsn x) (MemtableRecord.new reference Put (LogCommand.lsn x)) Hm)
    as [Hm1 Hr1]; [done | done | |].
  { intros r Hin%Hrs E. rewrite fmap_cons in Hn. apply NoDup_app in Hn as (_ & Hd & _). apply (Hd (LogCommand.lsn x)); [|by left].
    rewrite <- E. by apply list_elem_of_fmap_2. }
  set (r1 := MemtableRecord.mk Put (LogCommand.lsn x) (LogCommand.key x) reference).
  destruct (IH c1 (recs ++ [r1]) (os ++ [put_of x])) as (c' & new & Ha & Hsc & Hc' & Hln); [done | | |].
  - rewrite fmap_app, <- (assoc_L (++)). done.
  - split; simpl.
    + done.
    + intros r. rewrite Hr1, Hrs, elem_of_app, list_elem_of_singleton. unfold r1. tauto.
    + apply Forall2_app; [done|]. constructor; [|constructor]. split; [done|]. split; [done|]. exists ref.
      split_and!; [|done|done]. apply reference_decode; try done. congruence.
    + apply Forall_app. split; [done|]. constructor; [|constructor]. apply reference_len.
  - exists c', (r1 :: new). split; [exact Ha|]. split; [done|]. rewrite !fmap_cons.
    rewrite <- !(assoc_L (++)) in Hc'. split; [exact Hc'|]. by rewrite Hln.
Qed.

Lemma append_copy_ok c w recs os cmds rf wf :
  copied_at c w recs os → cmds ≠ [] → Forall (λ x, LogCommand.record_type x = Put ∧ typed x) cmds →
  NoDup ((MemtableRecord.lsn <$> recs) ++ (LogCommand.lsn <$> cmds)) →
  match append_copy_transaction c g cmds rf wf w with
  | (Ok c', w') => same_counts c c' ∧ ∃ new, copied_at c' w' (recs ++ new) (os ++ (put_of <$> cmds)) ∧
                   MemtableRecord.lsn <$> new = LogCommand.lsn <$> cmds
  | (Err _, _) => True
  | (Panic, _) => False
  end.
Proof.
  intros [(log & Hgd & Ht) Hv Hty Hck Hm] Hne Hp Hn.
  assert (Forall typed cmds) as Htc by (eapply Forall_impl; [exact Hp | by intros ? [? ?]]).
  unfold append_copy_transaction, mbind at 1, eff_bind at 1.
  destruct (Wal.append_engine_transactions w [cmds] None true rf wf) as [r w'] eqn:Ha.
  destruct (engine_append _ _ _ _ _ _ _ _ _ Hgd Htc Hne Ha) as (Hck' & Hwt & Hres).
  destruct (append_engine_stores _ _ _ _ _ _ _ _ Hgd Hv Htc Hne Ha) as (Hv' & Hgr & Hrec).
  destruct r as [rs|e|]; [|done|done]. destruct (Hrec rs eq_refl) as (rl & -> & Hrl). destruct Hres as (Hg' & _).
  unfold mbind, eff_bind, pure_eff. cbn [last ok_or].
  assert (len rl = len cmds) as -> by (unfold len; by rewrite (Forall2_length _ _ _ Hrl)). rewrite Z.eqb_refl. cbn [guard_err].
  assert (copied_mem (Wal.dir w') c recs os) as Hm'.
  { destruct Hm as [? ? Hops ?]. split; try done. eapply Forall2_impl; [exact Hops|]. intros r0 o. by apply resolves_grows. }
  destruct (add_receipts_ok _ _ _ _ _ _ Hrl Hp Hn Hm') as (c' & new & -> & Hsc & [Hm1 Hm2 Hm3 Hm4] & Hln).
  unfold mret, eff_ret. split; [done|]. exists new. split; [|done]. split; [|done | by apply Hwt | congruence | by split].
  exists (log ++ cmds). split; [done|]. by apply Forall_app.
Qed.

(** *** The loop *)

Variables (old : Wal.t) (g0 : Z) (val : bytes → MemtableRecord.t → bytes).
Abbreviation live_list := (list (bytes * MemtableRecord.t)).
Definition live_cmd (x : bytes * MemtableRecord.t) : LogCommand.t :=
  LogCommand.mk Put (fst x) (val (fst x) (snd x)) (MemtableRecord.lsn (snd x)).
Definition live_ok (l : live_list) : Prop :=
  ∀ k r, (k, r) ∈ l → MemtableRecord.record_type r = Put ∧ is_u64 (MemtableRecord.lsn r) ∧
                      resolve_record old g0 k r = Ok (val k r).
(** The result of a copy: the records [recs'] of the commands [cmds]. *)
Definition copied_all os cmds (lsns : list Z) (r : res CopiedLiveIndex * Wal.t) : Prop :=
  match r with
  | (Ok c', w') => ∃ recs', copied_at c' w' recs' (os ++ (put_of <$> cmds)) ∧ MemtableRecord.lsn <$> recs' = lsns ∧
                   ∀ r, r ∈ recs' → MemtableRecord.lsn r <= cp_max_live_sequence c'
  | (Err _, _) => True
  | (Panic, _) => False
  end.
Lemma copied_all_shift os tx cmds lsns r : copied_all (os ++ (put_of <$> tx)) cmds lsns r → copied_all os (tx ++ cmds) lsns r.
Proof. unfold copied_all. by rewrite fmap_app, (assoc_L (++)). Qed.
Lemma max_lsns recs lsns (mx : Z) :
  MemtableRecord.lsn <$> recs = lsns → (∀ x, x ∈ lsns → x <= mx) → ∀ r, r ∈ recs → MemtableRecord.lsn r <= mx.
Proof. intros <- Hle r Hr. apply Hle. by apply list_elem_of_fmap_2. Qed.

Lemma count_copied c w recs os k v l : copied_at c w recs os → copied_at (count_record c k v l) w recs os.
Proof. intros [? ? ? ? [? ? ? ?]]. by split. Qed.
Lemma copy_loop_ok live c tx txb faults w recs os :
  copied_at c w recs os → live_ok live → Forall (λ x, LogCommand.record_type x = Put ∧ typed x) tx →
  let lsns := (MemtableRecord.lsn <$> recs) ++ (LogCommand.lsn <$> tx) in
  NoDup (lsns ++ (LogCommand.lsn <$> (live_cmd <$> live))) → (∀ x, x ∈ lsns → x <= cp_max_live_sequence c) →
  copied_all os (tx ++ (live_cmd <$> live)) (lsns ++ (LogCommand.lsn <$> (live_cmd <$> live)))
    (copy_loop old g0 g c tx txb live faults w).
Proof.
  revert c tx txb faults w recs os. induction live as [|[k r] live IH]; intros c tx txb faults w recs os Hc Hl Ht lsns Hn Hmax.
  - rewrite !app_nil_r in *. cbn [copy_loop]. destruct tx as [|x tx].
    { exists recs. rewrite !app_nil_r. split_and!; [done | unfold lsns; by rewrite app_nil_r | intros r Hr; apply Hmax, elem_of_app].
      left. by apply list_elem_of_fmap_2. }
    destruct (next_fault faults) as [[rf wf] _].
    pose proof (append_copy_ok c w recs os (x :: tx) rf wf Hc ltac:(done) Ht Hn) as Ha. unfold copied_all.
    destruct (append_copy_transaction c g (x :: tx) rf wf w) as [[c'|e|] w']; [|done|done].
    destruct Ha as (Hsc & new & Hc' & Hln). exists (recs ++ new). split; [done|].
    assert (MemtableRecord.lsn <$> recs ++ new = lsns) as Hls by (unfold lsns; by rewrite fmap_app, Hln).
    split; [done|]. rewrite Hsc. by eapply max_lsns.
  - destruct (Hl k r ltac:(by left)) as (Hp & Hu & Hr). cbn [copy_loop]. unfold mbind at 1, eff_bind at 1, pure_eff at 1.
    rewrite Hp. cbn [is_delete negb guard_err]. unfold mbind at 1, eff_bind at 1, pure_eff at 1. rewrite Hr.
    unfold mbind at 1, eff_bind at 1, pure_eff at 1.
    match goal with |- context [ok_or ?o ?er] => destruct o as [fb|] eqn:Hfb; cbn [ok_or]; [clear Hfb | done] end.
    set (cmd := LogCommand.mk Put k (val k r) (MemtableRecord.lsn r)).
    assert (live_ok live) as Hl' by (intros k' r' ?; apply Hl; by right).
    rewrite !fmap_cons in *. change (live_cmd (k, r)) with cmd in *.
    assert (Forall (λ x, LogCommand.record_type x = Put ∧ typed x) [cmd]) as Hcmd by (constructor; [done | constructor]).
    assert (∀ x, x ∈ lsns ++ [MemtableRecord.lsn r] → x <= Z.max (cp_max_live_sequence c) (MemtableRecord.lsn r)) as Hmax'.
    { intros x [Hx| ->%list_elem_of_singleton]%elem_of_app; [specialize (Hmax x Hx)|]; lia. }
    destruct (negb (len tx =? 0) && _) eqn:Hb.
    + assert (tx ≠ []) as Hne by (by intros ->). destruct (next_fault faults) as [[rf wf] faults'].
      unfold mbind at 1, eff_bind at 1. apply NoDup_app in Hn as Hn1. destruct Hn1 as (Hn1 & _).
      pose proof (append_copy_ok c w recs os tx rf wf Hc Hne Ht Hn1) as Ha.
      destruct (append_copy_transaction c g tx rf wf w) as [[c'|e|] w']; [|done|done].
      destruct Ha as (Hsc & new & Hc' & Hln).
      assert (MemtableRecord.lsn <$> recs ++ new = lsns) as Hls by (unfold lsns; by rewrite fmap_app, Hln).
      specialize (IH (count_record c' k (val k r) (MemtableRecord.lsn r)) [cmd] (wrap64 (COPY_TRANSACTION_OVERHEAD_BYTES + fb)) faults' w'
        (recs ++ new) (os ++ (put_of <$> tx)) (count_copied _ _ _ _ _ _ _ Hc') Hl' Hcmd). cbv zeta in IH. rewrite Hls in IH.
      apply copied_all_shift. rewrite <- (assoc_L (++)) in IH. apply IH; [done|]. simpl. by rewrite Hsc.
    + specialize (IH (count_record c k (val k r) (MemtableRecord.lsn r)) (tx ++ [cmd]) (wrap64 (txb + fb)) faults w
        recs os (count_copied _ _ _ _ _ _ _ Hc) Hl' (proj2 (Forall_app _ _ _) (conj Ht Hcmd))). cbv zeta in IH.
      rewrite fmap_app, (assoc_L (++)) in IH. fold lsns in IH. rewrite <- !(assoc_L (++)) in IH. by apply IH.
Qed.
End copy.

(** ** The new index *)

Section new_index.
Context `{Crc32Spec, FastBloomSpec, Hshape : !FastBloomShape}.
Variables (U : MemtableRecord.t → Prop) (rate : f64).
Implicit Types (recs hist : list MemtableRecord.t) (os : list BatchOperation) (m : ordmap bytes bytes).

(** Records with distinct sequence numbers, in the order of those. *)
Lemma sort_history d g recs os :
  Forall2 (resolves d g) recs os → NoDup (MemtableRecord.lsn <$> recs) →
  ∃ hist os', Forall2 (resolves d g) hist os' ∧ hist ≡ₚ recs ∧ os' ≡ₚ os ∧ increasing hist.
Proof.
  intros Hf Hn. set (cmp := λ x y : MemtableRecord.t * BatchOperation, MemtableRecord.lsn (fst x) ?= MemtableRecord.lsn (fst y)).
  set (ps := sort_by cmp (zip recs os)). exists ps.*1, ps.*2.
  assert (ps ≡ₚ zip recs os) as Hp by apply sort_by_perm.
  assert (length recs = length os) as Hlen by (by eapply Forall2_length).
  assert (ps.*1 ≡ₚ recs) as Hp1 by (rewrite Hp, fst_zip by lia; done).
  split_and!; [|done | rewrite Hp, snd_zip by lia; done |].
  - assert (Forall (λ p, resolves d g (fst p) (snd p)) ps) as Hr.
    { rewrite Hp. clear -Hf. induction Hf; constructor; done. }
    clear -Hr. induction Hr as [|[r o] ps Hr _ IH]; constructor; done.
  - assert (NoDup (MemtableRecord.lsn <$> ps.*1)) as Hn' by (by rewrite Hp1).
    assert (StronglySorted (λ x y, cmp x y ≠ Gt) ps) as Hs.
    { apply sort_by_sorted; unfold cmp.
      - intros x y. rewrite (Z.compare_antisym (MemtableRecord.lsn (fst x))). done.
      - intros x y z. rewrite !Z.compare_gt_iff. lia. }
    clear -Hs Hn'. induction Hs as [|[r o] ps Hs IH Hall]; [constructor|]. cbn [fmap list_fmap fst] in *.
    apply NoDup_cons in Hn' as [Hx Hn']. constructor; [by apply IH|]. apply Forall_forall. intros r' ([r1 o'] & -> & Hin)%list_elem_of_fmap.
    rewrite Forall_forall in Hall. specialize (Hall _ Hin). unfold cmp in Hall. simpl in Hall |- *.
    assert (MemtableRecord.lsn r ≠ MemtableRecord.lsn r1).
    { intros E. apply Hx. rewrite E. apply list_elem_of_fmap_2. exact (list_elem_of_fmap_2 fst ps _ Hin). }
    destruct (Z.compare_spec (MemtableRecord.lsn r) (MemtableRecord.lsn r1)); done || lia.
Qed.
(** Puts of distinct keys, in any order, make the map with those entries. *)
Lemma puts_map os m :
  om_wf m → NoDup (op_key_of <$> os) → (∀ o, o ∈ os → ∃ k v, o = BatchPut k v ∧ om_get k m = Some v) →
  (∀ k v, om_get k m = Some v → k ∈ op_key_of <$> os) → apply_ops os [] = m.
Proof.
  intros Hw Hn Hos Hm. apply om_ext; [apply apply_ops_wf, om_wf_nil | done|]. intros k.
  destruct (decide (k ∈ op_key_of <$> os)) as [Hin|Hin].
  - apply list_elem_of_fmap in Hin as (o & -> & Ho). rewrite (get_apply_in o) by done.
    destruct (Hos o Ho) as (k & v & -> & Hv). done.
  - rewrite get_apply_notin by done. destruct (om_get k m) as [v|] eqn:E; [|done]. by destruct (Hin (Hm k v E)).
Qed.

(** The records of a copy are in the universe the old ones are in. *)
Definition ref_closed : Prop := ∀ k v v' lsn,
  U (MemtableRecord.mk Put lsn k v) → len v = REFERENCE_VALUE_ENCODED_SIZE → len v' = REFERENCE_VALUE_ENCODED_SIZE →
  U (MemtableRecord.mk Put lsn k v').

Lemma open_copied g c w recs os index_dir manifest_file seq config token s :
  copied_at g c w recs os → NoDup (MemtableRecord.lsn <$> recs) → default [] manifest_file = [] →
  (∀ r, r ∈ recs → U r ∧ MemtableRecord.lsn r <= seq) → is_u64 seq →
  utf8_valid (path_join index_dir SSTABLE_DIR) = true → StorageConfig.bloom_false_positive_rate config = rate →
  StorageConfig.wal_segment_size config <= isize_max →
  KV2.open_reference_index index_dir manifest_file [] [] w (cp_memtable c) (cp_memtable_size c) seq g config token = Ok s →
  ∃ hist os', index_at U rate g s hist os' ∧ os' ≡ₚ os.
Proof.
  intros [(log & Hgd & Ht) Hv Hty Hck [Hm Hrs Hops Hl]] Hn Hman Hu Hseq Hdir Hrate Hseg Ho.
  destruct (sort_history _ _ _ _ Hops Hn) as (hist & os' & Hf & Hp & Hpo & Hinc). exists hist, os'. split; [|done].
  unfold KV2.open_reference_index in Ho. apply res_bind_Ok in Ho as (_ & _ & Ho). apply res_bind_Ok in Ho as (man & Hman' & Ho).
  assert (ManifestManager.load_or_create None = Ok man) as Hman2.
  { unfold ManifestManager.load_or_create in *. by rewrite Hman in Hman'. }
  destruct (fresh_catalogue man Hman2) as (Hc & Hlv & Hr). apply res_bind_Ok in Ho as (_ & _ & Ho). injection Ho as <-.
  unfold WriteComponent.with_payload_mode, Wal.register_checkpoint_owner. rewrite (vl_owner _ Hv). cbn [negb orb]. split; [|done | done | done]. split; [|done]. exists O, O.
  assert (∀ n, (n <= 0)%nat → shows man [] hist n) as Hsh.
  { intros n Hn0. unfold shows, catalogue_records. rewrite Hlv. split; [by intros r ?%elem_of_nil|].
    intros k Hk. assert (n = 0)%nat as -> by lia. rewrite drop_0 in Hk. by rewrite (proj2 (newest_None k hist) Hk). }
  split; simpl; try done.
  - by rewrite app_nil_r.
  - intros r. rewrite app_nil_r, Hp. apply Hu.
  - intros r. rewrite Hp. apply Hu.
  - by apply Hsh.
  - by apply Hsh.
  - intros r. by rewrite drop_0, Hrs, Hp.
  - lia.
  - by exists log.
  - intros _. apply Hv.
  - by rewrite Hck, Hr.
  - by rewrite Hr.
Qed.
End new_index.
