(* ===== verification/SwitchTheory.v ===== *)
(** * Switching generations

    Cleaning on the disk and in the engine: what each step leaves alone, the
    new generation, the switch, and the theorem that cleaning keeps the
    contents of the store whatever fails. *)

From stdpp Require Import sets sorting.
From Stdlib Require Import Sorted.
From S2P Require Import Prelude Bytes OrdMap Search Record Block Bloom Index Footer LegacyBlock SSTable Preflight.
From S2P Require Import WalFormat WalAnalysis Wal WalCrash WalRefine WalRead Manifest ManifestTheory Admission Config Store Read.
From S2P Require Import Unicode ReadTheory Tables Write WriteTheory Compaction CompactionTheory Root RootTheory Engine OpenTheory.
From S2P Require Import EngineTheory KVTheory Api Generation GenerationTheory Experimental ReferenceTheory ExperimentalTheory.
From S2P Require Import CleanTheory Frame.

(** ** The disk *)

(** [CURRENT] and the directory of generations are left alone. *)
Definition disk_kept (rt rt' : ExpRoot) : Prop :=
  om_get CURRENT_FILE (rt_entries rt') = om_get CURRENT_FILE (rt_entries rt) ∧
  (om_get GENERATIONS_DIR (rt_entries rt) = Some RDirectory → om_get GENERATIONS_DIR (rt_entries rt') = Some RDirectory).
#[export] Instance disk_kept_preorder : PreOrder disk_kept.
Proof.
  split; [by intros rt|]. intros x y z [H1 H2] [H3 H4]. split; [congruence | auto].
Qed.
Definition disk_op {A} (p : eff ExpRoot A) : Prop := ∀ rt, disk_kept rt (p rt).2.

Section disk.
Context `{Crc32Spec}.
Implicit Types (rt : ExpRoot).

Lemma leaves_op {A} (p : eff ExpRoot A) : leaves CURRENT_FILE p → leaves GENERATIONS_DIR p → disk_op p.
Proof. intros Hc Hg rt. split; [apply Hc | by rewrite Hg]. Qed.
Lemma disk_op_bind {A B} (p : eff ExpRoot A) (f : A → eff ExpRoot B) : disk_op p → (∀ a, disk_op (f a)) → disk_op (p ≫= f).
Proof.
  intros Hp Hf rt. specialize (Hp rt). unfold mbind, eff_bind. destruct (p rt) as [[a|e|] rt']; [|done|done].
  etrans; [exact Hp | apply Hf].
Qed.
Lemma generation_op {A} g (f : GenDir → res A * GenDir) : disk_op (on_generation g f).
Proof. apply leaves_op; apply generation_leaves. Qed.
Lemma reserve_op tf rf : disk_op (reserve_next_generation tf rf).
Proof.
  intros rt. unfold reserve_next_generation. apply disk_op_bind; [by intros ?|]. intros [g following].
  apply disk_op_bind; [apply leaves_op; by apply write_leaves | intros _].
  apply disk_op_bind; [apply leaves_op; by apply rename_leaves | by intros _ ?].
Qed.
Lemma bootstrap_op g f : disk_op (bootstrap_generation g f).
Proof.
  intros rt. split; [by apply bootstrap_leaves|]. intros Hd. unfold bootstrap_generation. destruct (bf_dir f); [done|].
  destruct (make_generation_dir g rt) as [rt'|e|] eqn:E; [|done|done]. rewrite generation_leaves. unfold make_generation_dir in E.
  apply res_bind_Ok in E as (? & _ & E). apply res_bind_Ok in E as (? & _ & E). apply res_bind_Ok in E as (? & _ & [= <-]).
  apply om_get_insert_eq.
Qed.
Lemma update_kept g f rt : disk_kept rt (update_generation g f rt).
Proof. unfold update_generation. by destruct (get_generation rt g). Qed.
Lemma write_temp_op c tf : disk_op (write_current_temp c tf).
Proof. apply leaves_op; by apply write_leaves. Qed.
Lemma reclaim_kept g f rt : disk_kept rt (reclaim_generations g f rt).2.
Proof. split; [apply reclaim_leaves | by rewrite reclaim_leaves]. Qed.

(** A reservation leaves the generations as they are. *)
Lemma reserve_generations tf rf rt : rt_generations (reserve_next_generation tf rf rt).2 = rt_generations rt.
Proof.
  unfold reserve_next_generation, mbind, eff_bind, pure_eff. destruct (next_reservation rt) as [[g fo]|e|]; [|done|done].
  unfold write_temporary_bytes. destruct tf as [[k [n|]]|]; [done | done|].
  unfold rename_file, rename_entry. cbn [rt_entries set_entry]. rewrite om_get_insert_eq. by destruct rf as [[k []]|].
Qed.

(** *** Making a generation *)

Lemma get_put_generation g d rt : get_generation (put_generation g d rt) g = Some d.
Proof. unfold get_generation, put_generation. cbn [rt_generations set_generations]. by rewrite om_get_insert_eq. Qed.
Lemma get_update g f rt d : get_generation rt g = Some d → get_generation (update_generation g f rt) g = Some (f d).
Proof. intros Hg. unfold update_generation. by rewrite Hg, get_put_generation. Qed.
(** What a new generation starts with. *)
Definition fresh_index : IndexDir := mkIndexDir (Has RootMarker.encode) Absent (Has []) Absent.
Definition fresh_generation : GenDir := mkGenDir (Has empty_dir) (Has fresh_index) Absent Absent [].

Lemma bootstrap_new g f rt rt' :
  om_get (generation_name g) (rt_generations rt) = None → bootstrap_generation g f rt = (Ok tt, rt') →
  get_generation rt' g = Some fresh_generation.
Proof.
  intros Hn. unfold bootstrap_generation. destruct (bf_dir f); [done|].
  destruct (make_generation_dir g rt) as [rt1|e|] eqn:E; [|done|done]. unfold make_generation_dir in E.
  apply res_bind_Ok in E as (? & _ & E). rewrite Hn in E. cbn [mbind res_bind mret res_ret make_dir empty_generation g_wal] in E.
  injection E as <-. unfold on_generation. rewrite get_put_generation.
  unfold bootstrap_index. cbn [set_wal_slot g_index empty_generation]. destruct (bf_index f); [done|].
  cbn [make_dir follow]. unfold write_index_marker. cbn [empty_index ix_marker follow found].
  destruct (bf_marker_temp f) as [[k [n|]]|]; [done | done|]. destruct (bf_marker_rename f) as [[k []]|]; [done | done|].
  unfold create_manifest. cbn [ix_manifest empty_index follow found]. destruct (bf_manifest f); [done|].
  destruct (ManifestManager.load_or_create None) as [man|e|]; [|done|done].
  intros [= <-]. apply get_put_generation.
Qed.
Lemma open_wal_new g max rt d w rt' :
  get_generation rt g = Some d → g_wal d = Has empty_dir → open_wal g max rt = (Ok w, rt') →
  Wal.new_inner empty_dir max None false = Ok w ∧ get_generation rt' g = Some (set_wal_slot d (Has (Wal.dir w))).
Proof.
  intros Hg Hw. unfold open_wal, on_generation. rewrite Hg, Hw. cbn [make_dir follow mbind res_bind].
  destruct (Wal.new_inner empty_dir max None false) as [w1|e|]; cbn [mbind res_bind]; [|done|done].
  intros [= <- <-]. split; [done | apply get_put_generation].
Qed.
Lemma open_index_new `{FastBloom} dir g w tab size seq config token rt d s rt' :
  get_generation rt g = Some d → g_index d = Has fresh_index →
  open_index dir g w tab size seq config token rt = (Ok s, rt') →
  KV2.open_reference_index (path_join (generation_path dir g) INDEX_DIR) (Some []) [] [] w tab size seq g config token = Ok s.
Proof.
  intros Hg Hd. unfold open_index. rewrite Hg. cbn [ok_or mbind res_bind]. rewrite Hd.
  cbn [follow mbind res_bind fresh_index ix_manifest found tables_at ix_sstable td_files td_special].
  destruct (KV2.open_reference_index _ _ _ _ _ _ _ _ _ _ _) as [s'|er|]; [|done|done]. by intros [= ->].
Qed.
Lemma open_wal_op g max : disk_op (open_wal g max).
Proof. apply generation_op. Qed.

(** *** [CURRENT] *)

Lemma current_same rt rt' :
  om_get CURRENT_FILE (rt_entries rt') = om_get CURRENT_FILE (rt_entries rt) → read_current rt' = read_current rt.
Proof. intros E. unfold read_current, read_root_file. by rewrite E. Qed.
(** Between the temporary file and the rename, [CURRENT] is the old one; after
    the rename the new one. *)
Lemma commit_current c rf rt rt1 r rt' :
  current_ok c → write_current_temp c None rt = (Ok tt, rt1) → commit_current_temp rf rt1 = (r, rt') →
  om_get GENERATIONS_DIR (rt_entries rt') = om_get GENERATIONS_DIR (rt_entries rt) ∧
  (r = Ok tt → read_current rt' = Ok c) ∧ (read_current rt' = read_current rt ∨ read_current rt' = Ok c).
Proof.
  intros Hc [= <-] Hr. pose proof (rename_leaves GENERATIONS_DIR CURRENT_TEMP_FILE CURRENT_FILE rf ltac:(done) ltac:(done)
    (set_entry rt CURRENT_TEMP_FILE (RFile (CurrentState.encode c)))) as Hl. unfold commit_current_temp in Hr. rewrite Hr in Hl. cbn [snd] in Hl.
  split; [rewrite Hl; simpl; by rewrite om_get_insert_ne|]. clear Hl. unfold rename_file in Hr.
  set (rt1 := set_entry _ _ _) in *. assert (om_get CURRENT_TEMP_FILE (rt_entries rt1) = Some (RFile (CurrentState.encode c))) as Ht
    by apply om_get_insert_eq.
  assert (read_current (rename_entry CURRENT_TEMP_FILE CURRENT_FILE rt1) = Ok c) as Hn.
  { unfold read_current, read_root_file, rename_entry. rewrite Ht. cbn [rt_entries]. rewrite om_get_insert_eq.
    cbn [mbind res_bind]. by apply current_exact. }
  rewrite Ht in Hr. destruct rf as [[k []]|]; injection Hr as <- <-.
  - by split; [|right].
  - split; [done|]. left. apply current_same. simpl. by rewrite om_get_insert_ne.
  - by split; [|right].
Qed.
End disk.

(** ** The engine *)

Section beside.
Context `{Crc32Spec, FastBloom}.
Import ExperimentalEngine.

(** Only the disk changed, besides [CURRENT]. *)
Definition beside (e e' : ExperimentalEngine.t) : Prop :=
  inner e' = inner e ∧ generation e' = generation e ∧ root e' = root e ∧ state e' = state e ∧ disk_kept (disk e) (disk e').
#[export] Instance beside_preorder : PreOrder beside.
Proof.
  split; [by intros e|]. intros x y z (? & ? & ? & ? & ?) (? & ? & ? & ? & ?). split_and!; [congruence.. | by etrans].
Qed.
Lemma beside_disk e rt : disk_kept (disk e) rt → beside e (set_disk e rt).
Proof. by intros ?. Qed.

Section from.
Variable e0 : ExperimentalEngine.t.
Abbreviation keep := (keeps (beside e0)).
Lemma on_disk_beside {A} (p : eff ExpRoot A) : disk_op p → keep (on_disk p).
Proof.
  intros Hp e He. specialize (Hp (disk e)). unfold on_disk. destruct (p (disk e)) as [r rt]. etrans; [exact He | by apply beside_disk].
Qed.
Lemma on_new_beside {A} g s (p : eff KV2.t A) : keep (on_new g s p).
Proof. intros e He. unfold on_new. destruct (p s) as [r s']. etrans; [exact He | apply beside_disk, update_kept]. Qed.
Lemma copy_into_beside g live w faults : keep (copy_into g live w faults).
Proof. intros e He. unfold copy_into. destruct (copy_live_records _ _ _ _ _ _) as [r w']. etrans; [exact He | apply beside_disk, update_kept]. Qed.
Lemma query_beside {A} (f : ExperimentalEngine.t → res A) : keep (query f).
Proof. by intros e He. Qed.
Lemma open_index_op rootp g w tab size seq config token : disk_op (open_index rootp g w tab size seq config token).
Proof. intros rt. unfold open_index. destruct (_ ≫= _); [apply update_kept | done | done]. Qed.

Lemma build_beside g hw live config token f : keep (build_generation g hw live config token f).
Proof.
  intros e He. unfold build_generation.
  apply (keeps_bind (beside e0) (on_disk (bootstrap_generation g (cl_bootstrap f)))); [apply on_disk_beside, bootstrap_op | intros _ | done].
  apply keeps_bind; [apply on_disk_beside, open_wal_op | intros w].
  apply keeps_bind; [apply copy_into_beside | intros [c w']].
  apply keeps_bind; [apply keeps_pure | intros _].
  apply keeps_bind; [apply on_disk_beside, open_index_op | intros s].
  apply keeps_bind; [|intros [n s']; apply keeps_bind; [apply on_new_beside | intros [? ?]; apply keeps_ret]].
  destruct (_ <? _); [|apply keeps_ret]. apply keeps_bind; [apply on_new_beside | intros [? ?]; apply keeps_ret].
Qed.
Lemma seal_beside g hw s c f : keep (seal_generation g hw s c f).
Proof.
  unfold seal_generation. apply keeps_bind; [apply keeps_pure | intros segs]. apply keeps_bind; [apply keeps_pure | intros [? n]].
  apply on_disk_beside, generation_op.
Qed.
End from.
End beside.

(** ** The new generation *)

Lemma utf8_join d n : utf8_valid d = true → utf8_valid n = true → utf8_valid (path_join d n) = true.
Proof. intros Hd Hn. unfold path_join. destruct d; [done|]. apply utf8_app; [done|]. by apply (utf8_app (bytes_of_string "/")). Qed.
Lemma utf8_digits n x : utf8_valid (digits n x) = true.
Proof.
  revert x. induction n as [|n IH]; intros x; [done|]. cbn [digits]. apply utf8_app; [apply IH|]. cbn [utf8_valid].
  pose proof (Z.mod_pos_bound x 10 ltac:(lia)). rewrite bz_digit by lia. by rewrite (proj2 (Z.leb_le _ _)) by lia.
Qed.
Lemma utf8_generation dir g : utf8_valid dir = true → utf8_valid (path_join (path_join (generation_path dir g) INDEX_DIR) SSTABLE_DIR) = true.
Proof. intros Hd. apply utf8_join; [|done]. apply utf8_join; [|done]. apply utf8_join; [by apply utf8_join | apply utf8_digits]. Qed.

Section cleaning.
Context `{Crc32Spec, FastBloomSpec, Hshape : !FastBloomShape}.
Variables (U : MemtableRecord.t → Prop) (rate : f64).
Hypothesis HU : ∀ r, U r → recordable r.
Hypothesis Hroom : roomy rate U.
Hypothesis Hclosed : ref_closed U.
Implicit Types (s : KV2.t) (e : ExperimentalEngine.t) (hist recs : list MemtableRecord.t) (os : list BatchOperation)
  (m : ordmap bytes bytes).
Import ExperimentalEngine.

Lemma flush_reference_ends ff g s hist :
  kv_inv U rate (WalReference g) s hist [] → flush_clean ff →
  ends (λ s', kv_inv U rate (WalReference g) s' hist []) (λ _ _, True) (KV2.flush_reference_memtable ff) s.
Proof.
  intros [Hi Hr] (Hcr & Hcm & Hcp). unfold KV2.flush_reference_memtable.
  eapply ends_bind; [apply on_write_ends; [by apply (flush_ends U rate (WalReference g) HU Hroom) | done]|].
  intros x s1 Hs1 _. by apply ends_ret.
Qed.
Lemma flush_reference_kept ff d0 c0 : keeps (inner_kept d0 c0) (KV2.flush_reference_memtable ff).
Proof. apply keeps_bind; [apply on_write_kept, flush_kept | intros r; apply keeps_ret]. Qed.

Lemma fresh_copied g max w :
  max <= isize_max → Wal.new_inner empty_dir max None false = Ok w → copied_at g new_copied w [] [].
Proof.
  intros Hmax Hw. pose proof (fresh_good _ _ _ Hw) as Hg. injection Hw as <-. split.
  - exists []. split; [exact Hg | constructor].
  - split.
    + intros id file Hf. simpl in Hf. destruct (Z.compare id 0); [|done|done]. injection Hf as <-. vm_compute. done.
    + vm_compute. done.
    + exact Hmax.
    + done.
    + intros _. eexists. split; [reflexivity | done].
  - split; [done|]. by repeat constructor.
  - done.
  - split; [split; [apply om_wf_nil | constructor] | done | constructor | constructor].
Qed.
(** The copies are records the universe has. *)
Lemma copied_universe (val : bytes → MemtableRecord.t → bytes) d g recs (live : list (bytes * MemtableRecord.t)) :
  Forall2 (resolves d g) recs (put_of <$> (live_cmd val <$> live)) →
  MemtableRecord.lsn <$> recs = LogCommand.lsn <$> (live_cmd val <$> live) →
  Forall (λ r, len (MemtableRecord.value r) = REFERENCE_VALUE_ENCODED_SIZE) recs →
  (∀ k r, (k, r) ∈ live → MemtableRecord.record_type r = Put ∧ U (MemtableRecord.with_key r k) ∧
                          len (MemtableRecord.value r) = REFERENCE_VALUE_ENCODED_SIZE) →
  ∀ r, r ∈ recs → U r.
Proof.
  revert recs. induction live as [|[k r0] live IH]; intros recs Hf Hl Hs Hu; [by apply Forall2_nil_inv_r in Hf as ->; intros ? ?%elem_of_nil|].
  rewrite !fmap_cons in Hf. apply Forall2_cons_inv_r in Hf as (r & recs' & (Hk & Hp & _) & Hf & ->).
  rewrite !fmap_cons in Hl. injection Hl as Hl1 Hl. apply Forall_cons_1 in Hs as [Hs1 Hs].
  intros x [->|Hx]%elem_of_cons; [|apply (IH recs'); try done; intros; apply Hu; by right].
  destruct (Hu k r0 ltac:(by left)) as (Hp0 & Hu0 & Hs0). destruct r as [ty l key v], r0 as [ty0 l0 key0 v0]. simpl in *. subst.
  by apply (Hclosed _ v0).
Qed.

(** What is alive in a store: the records of a scan. *)
Record alive e (val : bytes → MemtableRecord.t → bytes) (live : list (bytes * MemtableRecord.t)) : Prop := {
  al_ok : live_ok (inner_wal (inner e)) (generation e) val live;
  al_lsn : NoDup (LogCommand.lsn <$> (live_cmd val <$> live));
  al_u : ∀ k r, (k, r) ∈ live → MemtableRecord.record_type r = Put ∧ U (MemtableRecord.with_key r k) ∧
                                len (MemtableRecord.value r) = REFERENCE_VALUE_ENCODED_SIZE
}.
Lemma copy_into_ok e val live g faults w c w' e' max :
  is_u64 g → g ≠ 0 → alive e val live → max <= isize_max → Wal.new_inner empty_dir max None false = Ok w →
  copy_into g live w faults e = (Ok (c, w'), e') →
  ∃ recs, copied_at g c w' recs (put_of <$> (live_cmd val <$> live)) ∧ NoDup (MemtableRecord.lsn <$> recs) ∧
    (∀ r, r ∈ recs → U r ∧ MemtableRecord.lsn r <= cp_max_live_sequence c) ∧ e' = set_disk e (store_wal g w' (disk e)).
Proof.
  intros Hg Hg0 [Hok Hn Hu] Hmax Hw. unfold copy_into.
  pose proof (copy_loop_ok g Hg Hg0 (inner_wal (inner e)) (generation e) val live new_copied [] COPY_TRANSACTION_OVERHEAD_BYTES faults w [] []
    (fresh_copied g max w Hmax Hw) Hok ltac:(constructor) Hn ltac:(by intros ? ?%elem_of_nil)) as Hc. unfold copied_all, copy_live_records in *.
  destruct (copy_loop _ _ _ _ _ _ _ _ _) as [[c1|er|] w1]; [|done|done]. intros [= -> -> <-].
  destruct Hc as (recs & Hc & Hl & Hle). cbn [app fmap list_fmap] in Hc, Hl. exists recs. split; [done|]. split; [by rewrite Hl|].
  split; [|done]. intros r Hr. split; [|by apply Hle]. destruct Hc as [_ _ _ _ [_ _ Hops Hlen]]. by eapply copied_universe.
Qed.
(** The index of a new generation, flushed and checked. *)
Lemma build_ok e val live g hw config token f s c n e' :
  is_u64 g → g ≠ 0 → is_u64 hw → om_get (generation_name g) (rt_generations (disk e)) = None →
  utf8_valid (root e) = true → StorageConfig.bloom_false_positive_rate config = rate →
  StorageConfig.wal_segment_size config <= isize_max → flush_clean (cl_flush f) → alive e val live →
  build_generation g hw live config token f e = (Ok (s, c, n), e') →
  ∃ hist os, index_at U rate g s hist os ∧ os ≡ₚ put_of <$> (live_cmd val <$> live).
Proof.
  intros Hg Hg0 Hhw Hnew Hroot Hrate Hseg Hfc Hal. unfold build_generation.
  intros (u & e1 & Hq1 & (w & e2 & Hq2 & ([c1 w1] & e3 & Hq3 & (u4 & e4 & Hq4 & (s5 & e5 & Hq5 & ([n6 s6] & e6 & Hq6 & ([u7 s7] & e7 & Hq7 & Hq8)
    %eff_bind_Ok)%eff_bind_Ok)%eff_bind_Ok)%eff_bind_Ok)%eff_bind_Ok)%eff_bind_Ok)%eff_bind_Ok. injection Hq8 as <- <- <- <-.
  unfold on_disk in Hq1. destruct (bootstrap_generation _ _ (disk e)) as [r1 rt1] eqn:Hb. injection Hq1 as -> <-. destruct u.
  pose proof (bootstrap_new _ _ _ _ Hnew Hb) as Hd1.
  unfold on_disk in Hq2. cbn [disk set_disk] in Hq2. destruct (open_wal g _ rt1) as [r2 rt2] eqn:Ho. injection Hq2 as -> <-.
  destruct (open_wal_new _ _ _ _ _ _ Hd1 ltac:(reflexivity) Ho) as [Hw Hd2].
  destruct (copy_into_ok (set_disk (set_disk e rt1) rt2) val live g _ w c1 w1 e3 _ Hg Hg0 ltac:(by destruct Hal) Hseg Hw Hq3) as (recs & Hc & Hn & Hu & ->).
  unfold pure_eff in Hq4. injection Hq4 as Hq4 <-. apply guard_err_Ok, negb_true_iff, Z.ltb_ge in Hq4.
  unfold on_disk in Hq5. cbn [disk set_disk root] in Hq5. set (rt3 := store_wal g w1 rt2) in *.
  assert (get_generation rt3 g = Some (set_wal_slot (set_wal_slot fresh_generation (Has (Wal.dir w))) (Has (Wal.dir w1)))) as Hd3.
  { unfold rt3, store_wal. by rewrite (get_update _ _ _ _ Hd2). }
  destruct (open_index _ _ _ _ _ _ _ _ _) as [r5 rt5] eqn:Hop in Hq5. injection Hq5 as -> <-.
  apply (open_index_new _ _ _ _ _ _ _ _ _ _ _ _ Hd3) in Hop; [|done].
  destruct (open_copied U rate g c1 w1 recs _ _ (Some []) hw config token s5 Hc Hn ltac:(done)
    ltac:(intros r Hr; destruct (Hu r Hr); split; [done | lia]) Hhw (utf8_generation _ g Hroot) Hrate Hseg Hop) as (hist & os & Hx & Hp).
  exists hist, os. split; [|done].
  assert (index_at U rate g s6 hist os) as Hx6.
  { destruct (_ <? _) in Hq6; [|by injection Hq6 as _ <- _]. apply eff_bind_Ok in Hq6 as ([a s1] & e1 & Hq6 & [= _ <- _]). unfold on_new in Hq6.
    pose proof (index_maintain U rate (KV2.flush_reference_memtable (cl_flush f)) g s5 hist os Hx
      (flush_reference_ends _ _ _ _ (xa_kv _ _ _ _ _ _ Hx) Hfc) (flush_reference_kept _ _ _)) as [_ Hi].
    destruct (KV2.flush_reference_memtable (cl_flush f) s5) as [[]]; try done. by injection Hq6 as _ <- _. }
  unfold on_new, validate_reference_index, mbind, eff_bind in Hq7.
  destruct (index_scan U rate (Unbounded, Unbounded) g s6 hist os Hx6) as (l & s1 & Hsc & Hx1 & _). rewrite Hsc in Hq7.
  unfold pure_eff in Hq7. destruct (check_references _ _ _); [|done|done]. by injection Hq7 as _ <- _.
Qed.

(** *** What is alive *)

Lemma resolve_keys w g l x : resolve_all w g l = Ok x → fst <$> x = fst <$> l.
Proof.
  revert x. induction l as [|[k r] l IH]; intros x; [by intros [= <-]|]. cbn [resolve_all].
  intros (v & _ & (rest & Hr & [= <-])%res_bind_Ok)%res_bind_Ok. rewrite !fmap_cons. f_equal. by apply IH.
Qed.
Lemma filter_unbounded m : List.filter (λ x, key_in_range (fst x) (Unbounded, Unbounded)) m = m.
Proof. induction m as [|x m IH]; [done|]. cbn [List.filter key_in_range]. by rewrite IH. Qed.
Lemma klt_NoDup (ks : list bytes) : StronglySorted klt ks → NoDup ks.
Proof.
  induction 1 as [|k ks _ IH Hf]; constructor; [|done]. intros Hin. rewrite Forall_forall in Hf.
  specialize (Hf k Hin). by apply klt_irrefl in Hf.
Qed.
Lemma reference_sized d g r o :
  resolves d g r o → MemtableRecord.record_type r = Put → len (MemtableRecord.value r) = REFERENCE_VALUE_ENCODED_SIZE.
Proof.
  intros [_ Ho] Hp. destruct o as [k v|k]; [|congruence]. destruct Ho as (_ & ref & Hd & _). unfold ReferenceValue.decode in Hd.
  by apply res_bind_Ok in Hd as (u & Hl%guard_err_Ok%Z.eqb_eq & _).
Qed.
(** The values of a map, for its records. *)
Definition value_of m (k : bytes) (_ : MemtableRecord.t) : bytes := default [] (om_get k m).

Lemma scan_alive e m :
  exp_holds U rate e m →
  ∃ live s, KV2.scan_records (Unbounded, Unbounded) (inner e) = (Ok live, s) ∧ exp_holds U rate (set_inner e s) m ∧
    alive (set_inner e s) (value_of m) live ∧
    ∀ os, os ≡ₚ put_of <$> (live_cmd (value_of m) <$> live) → apply_ops os [] = m.
Proof.
  intros (Hst & Hg & Hg0 & hist & os & Hx & Hm). destruct (index_scan U rate (Unbounded, Unbounded) _ _ _ _ Hx)
    as (live & s & Hs & Hx' & Hso & Hin & Hall). exists live, s. split; [done|]. split; [by split_and!; [.. | exists hist, os]|].
  pose proof (index_increasing U rate _ _ _ _ Hx') as Hinc. rewrite <- Hm in Hin, Hall.
  assert (om_wf m) as Hwf by (rewrite Hm; apply apply_ops_wf, om_wf_nil).
  pose proof (klt_NoDup _ Hso) as Hnd. rewrite filter_unbounded in Hall. apply resolve_keys in Hall. split.
  - split.
    + intros k r Hkr. destruct (Hin k r Hkr) as (Hp & Hh & v & Hr & Hv). split; [done|]. split; [|unfold value_of; by rewrite Hv].
      destruct (xa_kv _ _ _ _ _ _ Hx') as [(n & b & He) _]. destruct (HU _ (ea_u _ _ _ _ _ _ _ _ He _ (proj2 (elem_of_app _ _ _) (or_introl Hh)))) as [Hrec _].
      by apply Hrec.
    + rewrite <- list_fmap_compose. clear Hs Hall. induction live as [|[k r] live IH]; [constructor|].
      cbn [fmap list_fmap] in Hso, Hnd |- *. apply NoDup_cons in Hnd as [Hk Hnd]. apply StronglySorted_inv in Hso as [Hso _].
      apply NoDup_cons. split; [|apply IH; [done | intros; apply Hin; by right | done]].
      intros ([k' r'] & El & Hin')%list_elem_of_fmap. simpl in El. destruct (Hin k r ltac:(by left)) as (_ & Hh & _).
      destruct (Hin k' r' ltac:(by right)) as (_ & Hh' & _). assert (k = k') as ->.
      { pose proof (increasing_inj _ _ _ Hinc Hh Hh' El) as E. by injection E. }
      apply Hk. exact (list_elem_of_fmap_2 fst live _ Hin').
    + intros k r Hkr. destruct (Hin k r Hkr) as (Hp & Hh & _). split; [done|].
      destruct (xa_kv _ _ _ _ _ _ Hx') as [(n & b & He) _]. split; [apply (ea_u _ _ _ _ _ _ _ _ He), elem_of_app; by left|].
      apply list_elem_of_lookup_1 in Hh as [i Hi]. destruct (Forall2_lookup_l _ _ _ _ _ (xa_ops _ _ _ _ _ _ Hx') Hi) as (o & _ & Ho).
      exact (reference_sized _ _ _ _ Ho Hp).
  - intros os' Hp. assert (op_key_of <$> (put_of <$> (live_cmd (value_of m) <$> live)) = fst <$> live) as Hks
      by (rewrite <- !list_fmap_compose; by apply list_fmap_ext).
    apply puts_map; [done | by rewrite Hp, Hks | |].
    + intros o. rewrite Hp, <- list_fmap_compose. intros ([k r] & -> & Hkr)%list_elem_of_fmap. exists k, (value_of m k r). split; [done|].
      destruct (Hin k r Hkr) as (_ & _ & v & _ & Hv). unfold value_of. by rewrite Hv.
    + intros k v Hk%om_get_Some; [|done]. rewrite Hp, Hks, <- Hall. exact (list_elem_of_fmap_2 fst m _ Hk).
Qed.

(** *** Cleaning *)

(** The root of an open store: [CURRENT] names its generation. *)
Record exp_ready e : Prop := {
  er_dir : om_get GENERATIONS_DIR (rt_entries (disk e)) = Some RDirectory;
  er_current : ∃ floor, read_current (disk e) = Ok (CurrentState.mk (generation e) floor);
  er_root : utf8_valid (root e) = true
}.
Definition serves m e : Prop := exp_holds U rate e m ∧ exp_ready e.
Lemma serves_beside m e e' : beside e e' → serves m e → serves m e'.
Proof.
  intros (Hi & Hg & Hr & Hs & Hc & Hd) [(Hq1 & Hq2 & Hq3 & Hq4) [Hq5 (fl & Hq6) Hq7]]. rewrite <- Hi, <- Hg, <- Hs, <- Hr in *.
  split; [by split_and!|]. split; [by apply Hd | exists fl; by rewrite (current_same _ _ Hc) | done].
Qed.
(** Cleaning was interrupted between the two steps of the switch: [CURRENT]
    is as before or names a generation with the same contents. *)
Definition interrupted m e e' : Prop :=
  state e' = Poisoned ∧
  (read_current (disk e') = read_current (disk e) ∨
   ∃ g s, read_current (disk e') = Ok (CurrentState.mk g (KV2.current_sequence_number (inner e))) ∧ index_holds U rate g s m).
Definition cleaned m e (r : res CleanStats * ExperimentalEngine.t) : Prop :=
  match r with
  | (Ok st, e') => serves m e' ∧ generation e' = cs_new_generation st
  | (_, e') => serves m e' ∨ interrupted m e e'
  end.
(** A step that fails keeps what was there. *)
Lemma cleaned_bind {A} m e e1 (p : eff ExperimentalEngine.t A) (k : A → eff ExperimentalEngine.t CleanStats) :
  serves m e1 → keeps (beside e1) p → (∀ a e2, p e1 = (Ok a, e2) → beside e1 e2 → cleaned m e (k a e2)) → cleaned m e ((p ≫= k) e1).
Proof.
  intros Hs Hp Hk. specialize (Hp e1 ltac:(reflexivity)). unfold mbind, eff_bind.
  destruct (p e1) as [[a|er|] e2]; [by apply Hk | left; by eapply serves_beside..].
Qed.
Lemma reclaim_beside old g0 g fuel checks f e0 : keeps (beside e0) (reclaim_after_switch old g0 g fuel checks f).
Proof.
  intros e He. unfold reclaim_after_switch. destruct (KV2.shutdown fuel (cl_compaction f) checks old) as [r old'].
  pose proof (update_kept g0 (save_generation old') (disk e)) as Hu. fold (store g0 old' (disk e)) in Hu. destruct r as [u|er|].
  - pose proof (reclaim_kept g (cl_remove f) (store g0 old' (disk e))) as Hr. destruct (reclaim_generations _ _ _) as [n rt].
    etrans; [exact He|]. apply beside_disk. by etrans.
  - etrans; [exact He | by apply beside_disk].
  - etrans; [exact He | by apply beside_disk].
Qed.
(** The switch, from an engine whose new generation is ready. *)
Lemma switch_ok m e e1 g hw s f fuel checks (finish : Z → eff ExperimentalEngine.t CleanStats) :
  serves m e1 → is_u64 g → g ≠ 0 → is_u64 hw → hw = KV2.current_sequence_number (inner e) →
  read_current (disk e1) = read_current (disk e) → index_holds U rate g s m →
  (∀ n e2, (∃ er, finish n e2 = (Err er, e2)) ∨ ∃ st, finish n e2 = (Ok st, e2) ∧ cs_new_generation st = g) →
  cleaned m e ((_ ← publish_generation (CurrentState.mk g hw) f;
                old_inner ← query (λ e, Ok (inner e));
                _ ← adopt s g;
                deferred ← reclaim_after_switch old_inner (generation e) g fuel checks f;
                finish deferred) e1).
Proof.
  intros Hs Hg Hg0 Hhw -> Hcur Hx Hfin. unfold mbind at 1, eff_bind at 1, publish_generation.
  unfold mbind at 1, eff_bind at 1, on_disk at 1.
  destruct (write_current_temp _ (cl_current_temp f) (disk e1)) as [r rt1] eqn:Ht.
  destruct r as [[]|er|].
  2,3: left; eapply serves_beside; [|exact Hs]; apply beside_disk; pose proof (write_temp_op (CurrentState.mk g (KV2.current_sequence_number (inner e))) (cl_current_temp f) (disk e1)) as Hw;
       by rewrite Ht in Hw.
  unfold mbind at 1, eff_bind at 1, modify at 1, on_disk at 1. cbn [disk set_state set_disk].
  destruct (commit_current_temp (cl_current_rename f) rt1) as [r rt2] eqn:Hc.
  assert (cl_current_temp f = None) as Hnf.
  { destruct (cl_current_temp f) as [[k [n|]]|]; [done | done | done]. }
  rewrite Hnf in Ht. destruct (commit_current (CurrentState.mk g _) _ _ _ _ _ (conj Hg (conj Hg0 Hhw)) Ht Hc) as (Hd & Hok & Hor). rewrite Hcur in Hor.
  destruct r as [[]|er|].
  2,3: right; split; [done|]; destruct Hor as [Hor|Hor]; [by left | right; by exists g, s].
  specialize (Hok eq_refl). unfold mbind at 1, eff_bind at 1, query at 1. unfold mbind at 1, eff_bind at 1, adopt, modify at 1.
  set (e3 := mk s g _ _ Active).
  assert (serves m e3) as Hs3.
  { destruct Hs as [_ [Hd1 _ Hr]]. split; [by split_and!|]. split; [| |done].
    - simpl. unfold root_of. cbn [disk generation inner set_disk set_state].
      apply (update_kept (generation e1) (save_generation (inner e1)) rt2). by rewrite Hd.
    - exists (KV2.current_sequence_number (inner e)). simpl. rewrite <- Hok. apply current_same.
      unfold root_of. cbn [disk generation inner set_disk set_state]. apply update_kept. }
  apply cleaned_bind; [done | apply reclaim_beside|]. intros n e4 _ He4. destruct (Hfin n e4) as [[er ->]|(st & -> & Hst)].
  { left. by eapply serves_beside. }
  split; [by eapply serves_beside|]. rewrite Hst. by destruct He4 as (_ & -> & _).
Qed.

Lemma clean_run m e fuel checks token f :
  serves m e → flush_clean (cl_flush f) → cleaned m e (clean fuel checks token f e).
Proof.
  intros Hs Hfc. pose proof Hs as [He Hrd]. destruct (scan_alive e m He) as (live & s1 & Hsc & He1 & Hal & Hputs).
  pose proof He as (Hst & _ & _ & hist0 & os0 & [[(n0 & b0 & Hi0) Hrate] _ _ Hseg] & _).
  pose proof (ea_seq _ _ _ _ _ _ _ _ Hi0) as Hhw.
  unfold clean. unfold mbind at 1, eff_bind at 1, ensure_operational. rewrite Hst.
  apply cleaned_bind; [done | apply query_beside|]. intros before e' Hm _. assert (e' = e) as -> by (by injection Hm as _ <-). clear Hm.
  unfold mbind at 1, eff_bind at 1, on_inner. rewrite Hsc. set (e1 := set_inner e s1) in *.
  assert (serves m e1) as Hs1 by (split; [done | by destruct Hrd; split]).
  apply cleaned_bind; [done | apply on_disk_beside, reserve_op|]. intros g e2 Hr Hb2. unfold on_disk in Hr.
  pose proof (reserve_generations (cl_reserve_temp f) (cl_reserve_rename f) (disk e1)) as Hgs.
  destruct (reserve_next_generation _ _ (disk e1)) as [r rt2] eqn:Hres. injection Hr as -> <-. cbn [snd] in Hgs.
  destruct (reserve_fresh _ _ _ _ _ Hres) as (Hg & _ & _ & Hnew). specialize (Hnew (er_dir _ Hrd)).
  rewrite <- Hgs in Hnew.
  assert (is_u64 g ∧ g ≠ 0) as [Hgu Hg0] by (split; [word_lia | lia]).
  pose proof (serves_beside _ _ _ Hb2 Hs1) as Hs2.
  apply cleaned_bind; [done | apply build_beside|]. intros [[s c] w] e3 Hbuild Hb3.
  destruct (build_ok (set_disk e1 rt2) (value_of m) live _ _ _ _ _ _ _ _ _ Hgu Hg0 Hhw Hnew (er_root _ Hrd) Hrate Hseg Hfc ltac:(by destruct Hal) Hbuild) as (hist & os & Hx & Hp).
  pose proof (serves_beside _ _ _ Hb3 Hs2) as Hs3.
  apply cleaned_bind; [done | apply seal_beside|]. intros [] e4 _ Hb4. pose proof (serves_beside _ _ _ Hb4 Hs3) as Hs4.
  apply cleaned_bind; [done | apply query_beside|]. intros peak e' Hm _. assert (e' = e4) as -> by (by injection Hm as _ <-). clear Hm.
  eapply (switch_ok m e e4 g _ s f fuel checks (λ deferred, _) Hs4 Hgu Hg0 Hhw eq_refl).
  - apply current_same. destruct Hb2 as (_ & _ & _ & _ & E2 & _), Hb3 as (_ & _ & _ & _ & E3 & _), Hb4 as (_ & _ & _ & _ & E4 & _).
    by rewrite E4, E3, E2.
  - exists hist, os. split; [done|]. symmetry. by apply Hputs.
  - intros n e5. unfold mbind, eff_bind, measure, query. destruct (cl_measure_after f) as [k|]; [left; by eexists|].
    right. eexists. split; [reflexivity | done].
Qed.
End cleaning.
