(* ===== verification/ExperimentalRefine.v ===== *)
(** * The experimental engine refines a map

    From a new root, every run of reads, writes, compactions, cleanings and
    shutdowns has the results of an ordered map that may stop serving: after
    an interrupted switch of generations, or a shutdown, everything is
    refused. *)

From stdpp Require Import sets sorting.
From Stdlib Require Import Sorted.
From S2P Require Import Prelude Bytes OrdMap Search Record Block Bloom Index Footer LegacyBlock SSTable Preflight.
From S2P Require Import WalFormat WalAnalysis Wal WalCrash WalRefine WalRead Manifest ManifestTheory Admission Config Store Read.
From S2P Require Import ReadTheory Tables Write WriteTheory Compaction CompactionTheory Root RootTheory Engine OpenTheory.
From S2P Require Import EngineTheory KVTheory Api KVRefine Generation GenerationTheory Experimental ReferenceTheory.
From S2P Require Import ExperimentalTheory CleanTheory SwitchTheory Frame.

(** ** The abstract store *)

Inductive exp_spec : Type := Serving (m : ordmap bytes bytes) | Stopped.

(** An operation with the result it had. *)
Inductive exp_event : Type :=
| XWrite (os : list BatchOperation) (r : res unit)
| XGet (key : bytes) (r : res (option bytes))
| XScan (range : key_range) (r : res (list (bytes * bytes)))
| XMaintain (panicked : bool)
| XClean (cleaned : bool)
| XShutdown (closed : bool).

Definition is_err {A} (r : res A) : bool := match r with Err _ => true | _ => false end.
(** How a stopped store answers. *)
Definition refused (ev : exp_event) : Prop :=
  match ev with
  | XWrite _ r => is_err r = true
  | XGet _ r => is_err r = true
  | XScan _ r => is_err r = true
  | XMaintain _ => True
  | XClean cleaned => cleaned = false
  | XShutdown closed => closed = false
  end.

Inductive exp_spec_step : exp_spec → exp_event → exp_spec → Prop :=
| xs_commit m os : exp_spec_step (Serving m) (XWrite os (Ok tt)) (Serving (apply_ops os m))
| xs_failed m os e : exp_spec_step (Serving m) (XWrite os (Err e)) (Serving m)
| xs_get m key : exp_spec_step (Serving m) (XGet key (Ok (om_get key m))) (Serving m)
| xs_scan m range :
    exp_spec_step (Serving m) (XScan range (Ok (List.filter (λ e, key_in_range (fst e) range) m))) (Serving m)
| xs_maintain m : exp_spec_step (Serving m) (XMaintain false) (Serving m)
| xs_clean m cleaned : exp_spec_step (Serving m) (XClean cleaned) (Serving m)
| xs_interrupted m : exp_spec_step (Serving m) (XClean false) Stopped
| xs_closed m : exp_spec_step (Serving m) (XShutdown true) Stopped
| xs_open m : exp_spec_step (Serving m) (XShutdown false) (Serving m)
| xs_refused ev : refused ev → exp_spec_step Stopped ev Stopped.
Inductive exp_spec_steps : exp_spec → list exp_event → exp_spec → Prop :=
| xss_nil st : exp_spec_steps st [] st
| xss_cons st ev st1 evs st2 : exp_spec_step st ev st1 → exp_spec_steps st1 evs st2 → exp_spec_steps st (ev :: evs) st2.

Section refinement.
Context `{Crc32Spec, FastBloomSpec, Hshape : !FastBloomShape}.
Variables (U : MemtableRecord.t → Prop) (rate : f64).
Hypothesis HU : ∀ r, U r → recordable r.
Hypothesis Hroom : roomy rate U.
Hypothesis Hclosed : ref_closed U.
Implicit Types (e : ExperimentalEngine.t) (m : ordmap bytes bytes) (os : list BatchOperation).
Import ExperimentalEngine.

(** ** The runs of the engine *)

Inductive exp_step : ExperimentalEngine.t → exp_event → ExperimentalEngine.t → Prop :=
| xe_put e key value f r e' :
    ref_ops_ok U [BatchPut key value] → flush_clean (KV2.wf_flush f) → put key value f e = (r, e') →
    exp_step e (XWrite [BatchPut key value] r) e'
| xe_delete e key f r e' :
    ref_ops_ok U [BatchDelete key] → flush_clean (KV2.wf_flush f) → delete key f e = (r, e') →
    exp_step e (XWrite [BatchDelete key] r) e'
| xe_batch e os f r e' :
    ref_ops_ok U os → flush_clean (KV2.wf_flush f) → write_batch os f e = (r, e') → exp_step e (XWrite os r) e'
| xe_get e key r e' : get key e = (r, e') → exp_step e (XGet key r) e'
| xe_scan e range r e' : scan range e = (r, e') → exp_step e (XScan range r) e'
| xe_await e r e' : await_pending_writes e = (r, e') → exp_step e (XMaintain (panics r)) e'
| xe_worker e fuel cf checks r e' :
    Tables.clean (cf_publish cf) → on_inner (KV2.run_compaction_worker fuel cf checks) e = (r, e') →
    exp_step e (XMaintain (panics r)) e'
| xe_clean e fuel checks token f r e' :
    flush_clean (cl_flush f) → ExperimentalEngine.clean fuel checks token f e = (r, e') → exp_step e (XClean (is_ok r)) e'
| xe_shutdown e fuel cf checks tf rf r e' :
    Tables.clean (cf_publish cf) → shutdown fuel cf checks tf rf e = (r, e') → exp_step e (XShutdown (is_ok r)) e'.
Inductive exp_steps : ExperimentalEngine.t → list exp_event → ExperimentalEngine.t → Prop :=
| xes_nil e : exp_steps e [] e
| xes_cons e ev e1 evs e2 : exp_step e ev e1 → exp_steps e1 evs e2 → exp_steps e (ev :: evs) e2.

(** ** The simulation *)

Abbreviation serves := (serves U rate).
Definition exp_sim e (st : exp_spec) : Prop := match st with Serving m => serves m e | Stopped => state e ≠ Active end.

Lemma serves_inner m e s : serves m e → exp_holds U rate (set_inner e s) m → serves m (set_inner e s).
Proof. intros [_ [? ? ?]] He. split; [done | by split]. Qed.
(** A stopped engine refuses everything. *)
Lemma stopped_bind {A} e (p : eff ExperimentalEngine.t A) : state e ≠ Active → ∃ er, (_ ← ensure_operational; p) e = (Err er, e).
Proof. intros Hs. unfold mbind, eff_bind, ensure_operational. destruct (state e); [done|..]; by eexists. Qed.
Lemma stopped_step e ev e' : exp_step e ev e' → state e ≠ Active → refused ev ∧ state e' ≠ Active.
Proof.
  intros Hs Hst. destruct Hs as [e key value f r e' _ _ Hr|e key f r e' _ _ Hr|e os f r e' _ _ Hr|e key r e' Hr|e range r e' Hr
    |e r e' Hr|e fuel cf checks r e' _ Hr|e fuel checks token f r e' _ Hr|e fuel cf checks tf rf r e' _ Hr].
  6: split; [done|]; by injection Hr as _ <-.
  6: { split; [done|]. unfold on_inner in Hr. destruct (KV2.run_compaction_worker _ _ _ _). by injection Hr as _ <-. }
  all: unfold put, delete, write_batch, get, scan, ExperimentalEngine.clean, shutdown in Hr;
    match type of Hr with mbind ?k _ _ = _ => destruct (stopped_bind e (k tt) Hst) as [er He]; cbv beta in He; rewrite He in Hr; by injection Hr as <- <- end.
Qed.
Lemma write_sim e m os (p : eff KV2.t unit) :
  serves m e → exp_wrote U rate os m ((_ ← ensure_operational; on_inner p) e) →
  ∃ st, exp_spec_step (Serving m) (XWrite os ((_ ← ensure_operational; on_inner p) e).1) st ∧
        exp_sim ((_ ← ensure_operational; on_inner p) e).2 st.
Proof.
  intros Hs. pose proof Hs as [(Hst & _) _]. unfold mbind, eff_bind, ensure_operational, on_inner. rewrite Hst.
  destruct (p (inner e)) as [[[]|er|] s]; intros Hw; [| |done]; cbn [fst snd]; eexists; (split; [constructor|]).
  - destruct Hs as [_ [? ? ?]]. by split.
  - destruct Hs as [_ [? ? ?]]. by split.
Qed.
Lemma inner_sim {A} e m (p : eff KV2.t A) :
  serves m e →
  (∀ g s hist, kv_inv U rate (WalReference g) s hist [] → ends (λ s', kv_inv U rate (WalReference g) s' hist []) (λ _ _, True) p s) →
  (∀ d c, keeps (inner_kept d c) p) → (p (inner e)).1 ≠ Panic ∧ serves m (set_inner e (p (inner e)).2).
Proof.
  intros Hs He Hk. pose proof Hs as [(Hst & Hg & Hg0 & hist & os & Hx & ->) _].
  destruct (index_maintain U rate p _ _ _ _ Hx (He _ _ _ (xa_kv _ _ _ _ _ _ Hx)) (Hk _ _)) as [Hp Hx']. split; [done|].
  apply serves_inner; [done|]. split; [done|]. split; [done|]. split; [done|]. by exists hist, os.
Qed.

(** A shutdown that fails leaves the engine open. *)
Lemma floor_current c seq tf rf rt :
  current_ok c → is_u64 seq → read_current rt = Ok c →
  let rt' := (raise_floor c seq tf rf rt).2 in
  om_get GENERATIONS_DIR (rt_entries rt') = om_get GENERATIONS_DIR (rt_entries rt) ∧
  ∃ floor, read_current rt' = Ok (CurrentState.mk (CurrentState.generation c) floor).
Proof.
  intros (Hg & Hg0 & Hf) Hseq Hc. unfold raise_floor. set (c' := CurrentState.mk _ seq).
  assert (∃ floor, read_current rt = Ok (CurrentState.mk (CurrentState.generation c) floor)) as Hold by (destruct c; by eexists).
  destruct (_ <? _); [|done]. unfold write_current, mbind, eff_bind.
  destruct (write_current_temp c' tf rt) as [r rt1] eqn:Ht. pose proof (write_temp_op c' tf rt) as [Hw _].
  pose proof (write_leaves GENERATIONS_DIR CURRENT_TEMP_FILE (CurrentState.encode c') tf ltac:(done) rt) as Hl.
  unfold write_current_temp in *. rewrite Ht in Hw, Hl. cbn [snd] in Hw, Hl.
  destruct r as [[]|er|]; [|cbn [snd]; split; [done|]; by rewrite (current_same _ _ Hw)..].
  destruct tf as [[k [n|]]|]; [done | done|]. destruct (commit_current_temp rf rt1) as [r2 rt2] eqn:Hcm.
  destruct (commit_current c' rf rt rt1 r2 rt2 (conj Hg (conj Hg0 Hseq)) Ht Hcm) as (Hd & _ & Hor). cbn [snd].
  split; [done|]. destruct Hor as [->|Hor]; [done | by exists seq].
Qed.
Lemma shutdown_sim e m fuel cf checks tf rf :
  serves m e → Tables.clean (cf_publish cf) →
  match shutdown fuel cf checks tf rf e with
  | (Ok _, e') => state e' ≠ Active
  | (_, e') => serves m e'
  end.
Proof.
  intros Hs Hcl. pose proof Hs as [(Hst & _) _]. unfold shutdown. unfold mbind at 1, eff_bind at 1, ensure_operational. rewrite Hst.
  destruct (inner_sim e m (KV2.shutdown fuel cf checks) Hs) as [_ Hs1]; [intros; by apply shutdown_ends | intros; apply shutdown_kept|].
  unfold mbind at 1, eff_bind at 1, on_inner. destruct (KV2.shutdown fuel cf checks (inner e)) as [r s]. cbn [snd] in Hs1.
  destruct r as [[]|er|]; [|done|done]. set (e1 := set_inner e s) in *. unfold mbind at 1, eff_bind at 1, query at 1.
  pose proof Hs1 as [He1 [Hd (fl & Hc) Hr]]. rewrite Hc. unfold mbind at 1, eff_bind at 1, query at 1. cbn [CurrentState.generation].
  rewrite Z.eqb_refl. cbn [guard_err]. unfold mbind at 1, eff_bind at 1, raise_published, on_disk.
  pose proof Hc as Hok. unfold read_current in Hok. apply res_bind_Ok in Hok as (bs & _ & [Hok _]%current_exact).
  assert (is_u64 (Z.max (KV2.current_sequence_number (inner e1)) (CurrentState.application_sequence_floor (CurrentState.mk (generation e1) fl)))) as Hsq.
  { destruct He1 as (_ & _ & _ & hist & os & [[(n & b & He) _] _ _ _] & _). pose proof (ea_seq _ _ _ _ _ _ _ _ He) as Hq. destruct Hok as (_ & _ & Hf). cbn in *.
    unfold KV2.current_sequence_number, WriteComponent.current_sequence_number in *. destruct (Z.max_spec (WriteComponent.sequence_number (KV2.write_component s)) fl) as [[_ ->]|[_ ->]]; done. }
  destruct (floor_current _ _ tf rf (disk e1) Hok Hsq Hc) as [Hd' Hc']. cbv zeta in Hd', Hc'.
  destruct (raise_floor _ _ tf rf (disk e1)) as [r rt]. cbn [snd] in Hd', Hc'.
  assert (serves m (set_disk e1 rt)) as Hs2 by (split; [exact He1 | split; [cbn [disk set_disk]; congruence | done | done]]).
  destruct r as [[]|er|]; [|done|done]. done.
Qed.

Lemma exp_sim_step e ev e' st : exp_step e ev e' → exp_sim e st → ∃ st', exp_spec_step st ev st' ∧ exp_sim e' st'.
Proof.
  intros Hstep Hsim. destruct st as [m|].
  2: { destruct (stopped_step _ _ _ Hstep Hsim). exists Stopped. split; [by constructor | done]. }
  simpl in Hsim. pose proof Hsim as [He _].
  destruct Hstep as [e key value f r e' Hok Hfc Hr|e key f r e' Hok Hfc Hr|e os f r e' Hok Hfc Hr|e key r e' Hr|e range r e' Hr
    |e r e' Hr|e fuel cf checks r e' Hcl Hr|e fuel checks token f r e' Hfc Hr|e fuel cf checks tf rf r e' Hcl Hr].
  - destruct (write_sim e m [BatchPut key value] (KV2.put key value f) Hsim) as (st & Hst & Hsm); [by apply exp_put|].
    change (_ ≫= _) with (put key value f) in Hst, Hsm. rewrite Hr in Hst, Hsm. by exists st.
  - destruct (write_sim e m [BatchDelete key] (KV2.delete key f) Hsim) as (st & Hst & Hsm); [by apply exp_delete|].
    change (_ ≫= _) with (delete key f) in Hst, Hsm. rewrite Hr in Hst, Hsm. by exists st.
  - destruct (write_sim e m os (KV2.write_batch os f) Hsim) as (st & Hst & Hsm); [by apply exp_batch|].
    change (_ ≫= _) with (write_batch os f) in Hst, Hsm. rewrite Hr in Hst, Hsm. by exists st.
  - destruct (exp_get U rate key e m He) as (s' & Hg & He'). rewrite Hr in Hg. injection Hg as -> ->.
    exists (Serving m). split; [constructor | by apply serves_inner].
  - destruct (exp_scan U rate range e m He) as (s' & Hg & He'). rewrite Hr in Hg. injection Hg as -> ->.
    exists (Serving m). split; [constructor | by apply serves_inner].
  - exists (Serving m). injection Hr as <- <-. destruct He as (-> & _). split; [constructor | done].
  - destruct (inner_sim e m (KV2.run_compaction_worker fuel cf checks) Hsim) as [Hp Hs1];
      [intros; by apply worker_ends | intros; apply worker_kept|].
    unfold on_inner in Hr. destruct (KV2.run_compaction_worker _ _ _ _) as [r1 s1]. injection Hr as -> <-.
    exists (Serving m). split; [|done]. destruct r; [constructor | constructor | done].
  - pose proof (clean_run U rate HU Hroom Hclosed m e fuel checks token f Hsim Hfc) as Hc. rewrite Hr in Hc. simpl in Hc.
    destruct r as [st|er|]; [exists (Serving m); split; [constructor | by destruct Hc]|..];
      (destruct Hc as [Hc|[Hc _]]; [exists (Serving m); split; [constructor | done] | exists Stopped; split; [constructor | simpl; congruence]]).
  - pose proof (shutdown_sim e m fuel cf checks tf rf Hsim Hcl) as Hc. rewrite Hr in Hc.
    destruct r as [u|er|]; [exists Stopped; split; [constructor | done] | exists (Serving m); split; [constructor | done]..].
Qed.
Lemma exp_sim_steps e evs e' st : exp_steps e evs e' → exp_sim e st → ∃ st', exp_spec_steps st evs st' ∧ exp_sim e' st'.
Proof.
  intros Hs. revert st. induction Hs as [e|e ev e1 evs e2 Hst _ IH]; intros st Hsim; [exists st; split; [constructor | done]|].
  destruct (exp_sim_step e ev e1 st Hst Hsim) as (st1 & Hs1 & Hsim1). destruct (IH st1 Hsim1) as (st2 & Hs2 & Hsim2).
  exists st2. split; [by econstructor | done].
Qed.

(** ** A new store *)

Lemma write_generations temporary bs tf rt : rt_generations (write_temporary_bytes temporary bs tf rt).2 = rt_generations rt.
Proof. unfold write_temporary_bytes. by destruct tf as [[k [n|]]|]. Qed.
Lemma rename_generations temporary name rf rt : rt_generations (rename_file temporary name rf rt).2 = rt_generations rt.
Proof.
  unfold rename_file, rename_entry. destruct rf as [[k []]|]; [by destruct (om_get temporary _) | done|]. by destruct (om_get temporary _).
Qed.
Lemma replace_generations temporary name bs tf rf rt :
  rt_generations ((_ ← write_temporary_bytes temporary bs tf; rename_file temporary name rf) rt).2 = rt_generations rt.
Proof.
  unfold mbind, eff_bind. pose proof (write_generations temporary bs tf rt) as Hw.
  destruct (write_temporary_bytes temporary bs tf rt) as [[u|er|] rt1]; [|done|done]. by rewrite rename_generations.
Qed.
(** A root that was just prepared. *)
Lemma prepare_fresh f rt c rt' :
  om_get (generation_name 1) (rt_generations rt) = None → prepare_root Fresh f rt = (Ok c, rt') →
  c = CurrentState.mk 1 0 ∧ read_current rt' = Ok c ∧ om_get GENERATIONS_DIR (rt_entries rt') = Some RDirectory ∧
  get_generation rt' 1 = Some fresh_generation.
Proof.
  intros Hn. unfold prepare_root, INITIAL_GENERATION. cbn [CurrentState.generation].
  intros ([] & rt1 & Hb & ([] & rt2 & Hc & ([] & rt3 & Hm & [= <- <-])%eff_bind_Ok)%eff_bind_Ok)%eff_bind_Ok. split; [done|].
  set (c := CurrentState.mk 1 0) in *. pose proof (bootstrap_new _ _ _ _ Hn Hb) as Hg.
  assert (om_get GENERATIONS_DIR (rt_entries rt1) = Some RDirectory) as Hd.
  { unfold bootstrap_generation in Hb. destruct (bf_dir _); [done|]. destruct (make_generation_dir _ _) as [rt0|er|] eqn:E; [|done|done].
    pose proof (generation_leaves GENERATIONS_DIR 1 (bootstrap_index (pf_bootstrap f)) rt0) as Hl.
    rewrite Hb in Hl. cbn [snd] in Hl. rewrite Hl. unfold make_generation_dir in E.
    apply res_bind_Ok in E as (? & _ & E). apply res_bind_Ok in E as (? & _ & E). apply res_bind_Ok in E as (? & _ & [= <-]). apply om_get_insert_eq. }
  assert (read_current rt2 = Ok c ∧ om_get GENERATIONS_DIR (rt_entries rt2) = Some RDirectory) as [Hc2 Hd2].
  { unfold write_current in Hc. apply eff_bind_Ok in Hc as ([] & rtt & Ht & Hcm). destruct (pf_current_temp f) as [[k [n|]]|]; [done | done|].
    destruct (commit_current c _ _ _ _ _ ltac:(done) Ht Hcm) as (Hdc & Hok & _). rewrite Hdc. by split; [apply Hok|]. }
  assert (rt_generations rt2 = rt_generations rt1) as Hg2.
  { pose proof (replace_generations CURRENT_TEMP_FILE CURRENT_FILE (CurrentState.encode c) (pf_current_temp f) (pf_current_rename f) rt1) as Hq.
    change (_ ≫= _) with (write_current c (pf_current_temp f) (pf_current_rename f)) in Hq. by rewrite Hc in Hq. }
  pose proof (marker_leaves CURRENT_FILE (pf_marker_temp f) (pf_marker_rename f) ltac:(done) ltac:(done) rt2) as Hm1.
  pose proof (marker_leaves GENERATIONS_DIR (pf_marker_temp f) (pf_marker_rename f) ltac:(done) ltac:(done) rt2) as Hm2.
  rewrite Hm in Hm1, Hm2. cbn [snd] in Hm1, Hm2. split; [by rewrite (current_same _ _ Hm1)|]. split; [by rewrite Hm2|].
  assert (rt_generations rt3 = rt_generations rt2) as Hg3.
  { unfold write_root_marker in Hm. destruct (found _) as [[bs|]|er|]; [by injection Hm as _ <- | | done | done].
    pose proof (replace_generations ROOT_MARKER_TEMP_FILE ROOT_MARKER_FILE RootMarker.encode (pf_marker_temp f) (pf_marker_rename f) rt2) as Hq.
    by rewrite Hm in Hq. }
  unfold get_generation in *. by rewrite Hg3, Hg2.
Qed.

Lemma validate_segment config u : StorageConfig.validate config = Ok u → StorageConfig.wal_segment_size config <= isize_max.
Proof.
  unfold StorageConfig.validate. intros Hv.
  do 7 (apply res_bind_Ok in Hv as (? & _ & Hv)). apply res_bind_Ok in Hv as (? & Hg%guard_err_Ok & _).
  apply negb_true_iff, Z.ltb_ge in Hg. unfold isize_max. lia.
Qed.

Lemma exp_open_fresh dir fs config token f e r :
  utf8_valid dir = true → StorageConfig.bloom_false_positive_rate config = rate →
  open_with_config dir fs config token f RootMissing = (Ok e, r) → serves [] e.
Proof.
  intros Hd Hrate. unfold open_with_config. destruct (_ ≫= _) as [fmt|er|] eqn:Hp; [|done|done].
  apply res_bind_Ok in Hp as (u & Hval & [= <-]). pose proof (validate_segment _ _ Hval) as Hseg. destruct (of_create f); [done|].
  destruct (_ ≫= _) as [r0 rt] eqn:Ho. intros [= -> <-]. cbn [root_contents] in Ho.
  apply eff_bind_Ok in Ho as (u1 & rt0 & Hl & Ho). unfold open_prepared in Ho.
  apply eff_bind_Ok in Ho as (c & rt1 & Hpr & Ho).
  apply (prepare_fresh _ rt0) in Hpr as (-> & Hc & Hg & Hgen); [|by injection Hl as _ <-]. cbn [CurrentState.generation CurrentState.application_sequence_floor] in Ho.
  apply eff_bind_Ok in Ho as (w & rt2 & Hw & Ho). pose proof (open_wal_op 1 (StorageConfig.wal_segment_size config) rt1) as [Hk2 Hk2'].
  rewrite Hw in Hk2, Hk2'. destruct (open_wal_new _ _ _ _ _ _ Hgen ltac:(reflexivity) Hw) as [Hnew Hgen2].
  apply eff_bind_Ok in Ho as (rec & rt3 & Hrec & Ho). unfold pure_eff in Hrec. rewrite (fresh_recovers _ _ _ Hnew) in Hrec. injection Hrec as <- <-.
  apply eff_bind_Ok in Ho as ([[tab size] seq] & rt3 & [= <- <- <- <-] & Ho).
  apply eff_bind_Ok in Ho as ([lsn0 lsn] & rt3 & Hpos & Ho). injection Hpos as _ <-.
  apply eff_bind_Ok in Ho as (seal & rt3 & Hsl & Ho). injection Hsl as _ <-.
  apply eff_bind_Ok in Ho as (u3 & rt3 & Hv & Ho). injection Hv as _ <-.
  apply eff_bind_Ok in Ho as (u4 & rt3 & [= <- <-] & Ho).
  apply eff_bind_Ok in Ho as (s & rt3 & Hx & Ho).
  pose proof (open_index_op dir 1 w [] 0 (Z.max 0 0) config token rt2) as [Hk3 Hk3']. rewrite Hx in Hk3, Hk3'.
  pose proof (open_index_new _ _ _ _ _ _ _ _ _ _ _ _ Hgen2 ltac:(reflexivity) Hx) as Hop.
  apply eff_bind_Ok in Ho as (u5 & rt4 & Hcl & [= <- <-]).
  pose proof (cleanup_leaves CURRENT_FILE 1 (of_cleanup f) rt3) as Hk4. pose proof (cleanup_leaves GENERATIONS_DIR 1 (of_cleanup f) rt3) as Hk4'.
  rewrite Hcl in Hk4, Hk4'. cbn [snd] in *.
  destruct (open_copied U rate 1 new_copied w [] [] _ (Some []) 0 config token s (fresh_copied 1 _ w Hseg Hnew) ltac:(constructor) ltac:(done)
    ltac:(by intros ? ?%elem_of_nil) ltac:(done) (utf8_generation dir 1 Hd) Hrate Hseg Hop) as (hist & os & Hi & ->%Permutation_nil_r).
  split.
  - split; [done|]. split; [done|]. split; [done|]. by exists hist, [].
  - split; [cbn [disk]; rewrite Hk4'; auto | | done]. exists 0. cbn [disk generation]. rewrite <- Hc. apply current_same. congruence.
Qed.
End refinement.

(** ** Properties *)

Section props.
Context `{Crc32Spec, FastBloomSpec, Hshape : !FastBloomShape}.
Variables (U : MemtableRecord.t → Prop) (rate : f64).
Hypothesis HU : ∀ r, U r → recordable r.
Hypothesis Hroom : roomy rate U.
Hypothesis Hclosed : ref_closed U.
Import ExperimentalEngine.


(** [CURRENT] names the generation of the engine. *)
Definition names_generation (e : ExperimentalEngine.t) : Prop :=
  ∃ floor, read_current (disk e) = Ok (CurrentState.mk (generation e) floor).

End props.

(** ** Witness

    A store with two keys: writes, a cleaning that succeeds, one that is
    interrupted after the rename, and a read that is refused. *)

Definition x_fs : PathFacts := mkPathFacts (λ p, Ok p) (λ _, None).
Definition x_config : StorageConfig.t :=
  StorageConfig.mk (1024 * 1024) 4096 4 (16 * 1024 * 1024) (16 * 1024 * 1024) 10 (1024 * 1024) f64_001 64.
Definition x_faults : OpenFaults := mkOpenFaults None false no_prepare_faults None None (λ _, None).
Definition x_clean (rename : option RenameFault) : CleanFaults :=
  mkCleanFaults None None None no_bootstrap_faults [] no_faults None None None None rename kv_work (λ _, None) None.
Definition x_open : res ExperimentalEngine.t * RootAt :=
  @ExperimentalEngine.open_with_config ieee toy_fastbloom [x64] x_fs x_config 7 x_faults RootMissing.
Definition x_state (r : res ExperimentalEngine.t) : ExperimentalEngine.t :=
  match r with Ok e => e | _ => ExperimentalEngine.mk kv_state0 0 [] empty_root Closed end.
Definition x0 : ExperimentalEngine.t := Eval vm_compute in x_state x_open.1.
Definition x1 : ExperimentalEngine.t :=
  Eval vm_compute in (@ExperimentalEngine.write_batch ieee toy_fastbloom [kv_op1; kv_op2] kv_fine x0).2.
Definition x2 : ExperimentalEngine.t :=
  Eval vm_compute in (@ExperimentalEngine.delete ieee toy_fastbloom [x61] kv_fine x1).2.
Definition x3 : ExperimentalEngine.t :=
  Eval vm_compute in (@ExperimentalEngine.clean ieee toy_fastbloom 5 None 8 (x_clean None) x2).2.
Definition x3_stats : CleanStats :=
  Eval vm_compute in match (@ExperimentalEngine.clean ieee toy_fastbloom 5 None 8 (x_clean None) x2).1 with
                     | Ok st => st
                     | _ => mkCleanStats 0 0 0 0 0 0 0 0 0 0 0
                     end.
Definition x4 : ExperimentalEngine.t := Eval vm_compute in (@ExperimentalEngine.scan ieee toy_fastbloom kv_all x3).2.
Definition x5 : ExperimentalEngine.t :=
  Eval vm_compute in (@ExperimentalEngine.clean ieee toy_fastbloom 5 None 9 (x_clean (Some (OtherIo, true))) x4).2.
Definition x_refusal : DBError := StorageError "experimental engine stopped after an interrupted generation switch".
Definition x_events : list exp_event :=
  [XWrite [kv_op1; kv_op2] (Ok tt); XWrite [BatchDelete [x61]] (Ok tt); XClean true; XScan kv_all (Ok [([x62], [x35])]);
   XClean false; XGet [x62] (Err x_refusal)].
Definition x_universe : MemtableRecord.t → Prop := small_record [[x61]; [x62]] 200.

Lemma x_universe_roomy : @roomy toy_fastbloom f64_001 x_universe.
Proof.
  apply (small_roomy _ 200 44); [lia | | vm_compute; discriminate]. intros n rs. unfold BloomFilterWrapper.encode.
  rewrite !len_app, !len_to_be. simpl. rewrite app_nil_r, len_to_be. vm_compute. discriminate.
Qed.
Lemma x_universe_ok r : x_universe r → recordable r.
Proof. by intros [? _]. Qed.
Lemma small_closed ks bound : ref_closed (small_record ks bound).
Proof.
  intros k v v' lsn ([[(H1 & H2 & H3) Hl] Hne] & Hk & Hs) Hv Hv'.
  unfold rec_size, MemtableRecord.record_length in *. cbn [MemtableRecord.key MemtableRecord.value MemtableRecord.lsn] in *.
  split; [split; [split; [split; [exact H1 | split; [exact H2 | cbn; congruence]] |] | exact Hne] | split; [exact Hk |]];
    unfold rec_size, MemtableRecord.record_length; cbn [MemtableRecord.key MemtableRecord.value]; rewrite Hv', <- Hv; done.
Qed.
Lemma x_universe_closed : ref_closed x_universe.
Proof. apply small_closed. Qed.
Lemma x_ops_ok o : o ∈ [kv_op1; kv_op2; BatchDelete [x61]] → ∀ v lsn, is_u64 lsn → len v = REFERENCE_VALUE_ENCODED_SIZE →
  x_universe (index_record o v lsn).
Proof.
  intros Ho v lsn Hl Hv.
  repeat (apply elem_of_cons in Ho as [->|Ho]); [| | |by apply elem_of_nil in Ho];
    (split; [split; [split; [split; [exact Hl | split; [done | simpl; rewrite ?Hv; done]] |] | done] | split; [set_solver|]]);
    unfold rec_size, MemtableRecord.record_length; simpl; rewrite ?Hv; done.
Qed.
Lemma x_steps_sample : @exp_steps ieee toy_fastbloom x_universe x0 x_events x5.
Proof.
  apply (xes_cons _ _ _ x1).
  { apply (xe_batch _ _ _ kv_fine); [|done | vm_compute; reflexivity]. intros o v lsn Ho. apply x_ops_ok. set_solver. }
  apply (xes_cons _ _ _ x2).
  { apply (xe_delete _ _ _ kv_fine); [|done | vm_compute; reflexivity]. intros o v lsn Ho. apply x_ops_ok. set_solver. }
  apply (xes_cons _ _ _ x3).
  { eapply (xe_clean _ x2 5 None 8 (x_clean None) (Ok _)); [done | vm_compute; reflexivity]. }
  apply (xes_cons _ _ _ x4); [apply xe_scan; vm_compute; reflexivity|].
  apply (xes_cons _ _ _ x5).
  { eapply (xe_clean _ x4 5 None 9 (x_clean (Some (OtherIo, true))) (Err _)); [done | vm_compute; reflexivity]. }
  apply (xes_cons _ _ _ x5); [apply xe_get; vm_compute; reflexivity | constructor].
Qed.
