(* ===== verification/RaftLog.v ===== *)
(** * The log of the raft adapter: [src/src/storage/raft/log_store.rs]

    The store the consensus library keeps its entries and its vote in: two
    vectors in memory, each written whole to a file by a temporary file and a
    rename.  The library's own types are parameters, as is the serialization of
    entries and votes.  A reader handle shares the memory of the store. *)

From S2P Require Import Prelude Bytes OrdMap Wal Read.

(** ** What the consensus library provides *)

Class OpenRaft : Type := {
  LogId : Type;
  log_index : LogId → Z;
  Membership : Type;
  StoredMembership : Type;
  stored_membership : option LogId → Membership → StoredMembership;
  default_stored : StoredMembership;
  Vote : Type;
  default_vote : Vote
}.
Arguments LogId {_}.
Arguments Membership {_}.
Arguments StoredMembership {_}.
Arguments Vote {_}.

Section payload.
Context `{OpenRaft}.
Inductive EntryPayload : Type :=
| Blank
| NormalPayload (data : bytes)
| MembershipPayload (membership : Membership).
End payload.
Module Entry.
Section entry.
Context `{OpenRaft}.
Record t : Type := mk { log_id : LogId; payload : EntryPayload }.
Definition index (e : t) : Z := log_index (log_id e).
End entry.
End Entry.

(** [bincode::serialize] and [bincode::deserialize], which may fail. *)
Class Bincode `{OpenRaft} : Type := {
  serialize_entries : list Entry.t → option bytes;
  deserialize_entries : bytes → option (list Entry.t);
  serialize_vote : Vote → option bytes;
  deserialize_vote : bytes → option Vote
}.
(** What is written is read back, and it is never the empty file. *)
Class BincodeSpec `{Bincode} : Prop := {
  entries_back : ∀ es bs, serialize_entries es = Some bs → bs ≠ [] ∧ deserialize_entries bs = Some es;
  vote_back : ∀ v bs, serialize_vote v = Some bs → bs ≠ [] ∧ deserialize_vote bs = Some v
}.

(** ** Errors of the store *)

Inductive ErrorSubject : Type := VoteSubject | Logs | LogIndex (index : Z) | StateMachineSubject.
Inductive ErrorVerb : Type := ReadVerb | WriteVerb | DeleteVerb.
(** [StorageError::IO]. *)
Record StoreError : Type := mkStoreError { se_subject : ErrorSubject; se_verb : ErrorVerb; se_kind : io_kind }.
Inductive store_res (A : Type) : Type := Done (a : A) | Failed (e : StoreError).
Arguments Done {A} a.
Arguments Failed {A} e.
Definition io_error (subject : ErrorSubject) (verb : ErrorVerb) (k : io_kind) : StoreError :=
  mkStoreError subject verb k.
(** A failed serialization is reported as an I/O error of kind [Other]. *)
Definition io_error_msg (subject : ErrorSubject) (verb : ErrorVerb) : StoreError :=
  mkStoreError subject verb OtherIo.

(** ** Files *)

(** [with_extension] on a file name: the extension starts at its last dot,
    unless that is the first character. *)
Fixpoint before_dot (rev_name : bytes) : option bytes :=
  match rev_name with
  | [] => None
  | b :: rest => if bool_decide (b = x2e) then Some (rev rest) else before_dot rest
  end.
Definition file_stem (name : bytes) : bytes :=
  match before_dot (rev name) with
  | Some (b :: stem) => b :: stem
  | _ => name
  end.
Definition with_extension (name ext : bytes) : bytes := file_stem name ++ [x2e] ++ ext.

Definition ENTRIES_FILE : bytes := bytes_of_string "entries.dat".
Definition VOTE_FILE : bytes := bytes_of_string "vote".

Abbreviation raft_dir := (ordmap bytes bytes).

(** Where [atomic_write] can stop: opening the temporary file, writing it
    after some bytes, the rename, or opening and syncing the directory. *)
Inductive AtomicFault : Type :=
| FailCreate (k : io_kind)
| FailWrite (k : io_kind) (written : nat)
| FailRename (k : io_kind)
| FailSync (k : io_kind).
Definition rename_over (tmp name : bytes) (d : raft_dir) : raft_dir :=
  match om_get tmp d with
  | Some bs => om_insert name bs (om_remove tmp d)
  | None => d
  end.
Definition atomic_write (name data : bytes) (fault : option AtomicFault) (d : raft_dir) : option io_kind * raft_dir :=
  let tmp := with_extension name (bytes_of_string "tmp") in
  match fault with
  | Some (FailCreate k) => (Some k, d)
  | Some (FailWrite k n) => (Some k, om_insert tmp (take n data) d)
  | Some (FailRename k) => (Some k, om_insert tmp data d)
  | Some (FailSync k) => (Some k, rename_over tmp name (om_insert tmp data d))
  | None => (None, rename_over tmp name (om_insert tmp data d))
  end.

(** ** The store *)

(** The bounds of a range of indices; the additions are unchecked. *)
Definition range_start (range : Bound Z * Bound Z) : Z :=
  match fst range with Included i => i | Excluded i => wrap64 (i + 1) | Unbounded => 0 end.
Definition range_end (range : Bound Z * Bound Z) (length : Z) : Z :=
  match snd range with Included i => wrap64 (i + 1) | Excluded i => i | Unbounded => length end.

Module Inner.
Section inner.
Context `{OpenRaft}.
Record t : Type := mk { entries : list Entry.t; vote : option Vote }.
End inner.
End Inner.

Module LogReader.
Section reader.
Context `{OpenRaft}.
Record t : Type := mk { inner : Inner.t }.
Definition try_get_log_entries (range : Bound Z * Bound Z) (r : t) : list Entry.t :=
  let entries := Inner.entries (inner r) in
  let start := range_start range in
  let end_ := range_end range (len entries) in
  if (len entries <=? start) || (end_ <=? start) then []
  else
    let end_ := Z.min end_ (len entries) in
    take (Z.to_nat (end_ - start)) (drop (Z.to_nat start) entries).
End reader.
End LogReader.

Module LogState.
Section state.
Context `{OpenRaft}.
Record t : Type := mk { last_purged_log_id : option LogId; last_log_id : option LogId }.
End state.
End LogState.

Module LogStore.
Section store.
Context `{Bincode}.

(** The store with the directory it writes to. *)
Record t : Type := mk { dir : raft_dir; inner : Inner.t }.
Definition set_dir (s : t) (d : raft_dir) : t := mk d (inner s).
Definition set_entries (s : t) (es : list Entry.t) : t := mk (dir s) (Inner.mk es (Inner.vote (inner s))).
Definition entries (s : t) : list Entry.t := Inner.entries (inner s).

(** What opening can run into: the directory, and the two reads. *)
Record OpenFaults : Type := mkOpenFaults {
  lo_create : option io_kind; lo_entries : option io_kind; lo_vote : option io_kind
}.
Definition no_open_faults : OpenFaults := mkOpenFaults None None None.
Definition read_raft_file (fault : option io_kind) (bs : bytes) : res bytes :=
  match fault with Some k => Err (IO k) | None => Ok bs end.
Definition load_entries (fault : option io_kind) (d : raft_dir) : res (list Entry.t) :=
  match om_get ENTRIES_FILE d with
  | Some bs =>
      buf ← read_raft_file fault bs;
      if bool_decide (buf = []) then Ok []
      else ok_or (deserialize_entries buf) (StorageError "log deserialize")
  | None => Ok []
  end.
Definition load_vote (fault : option io_kind) (d : raft_dir) : res (option Vote) :=
  match om_get VOTE_FILE d with
  | Some bs =>
      buf ← read_raft_file fault bs;
      if bool_decide (buf = []) then Ok None
      else Some <$> ok_or (deserialize_vote buf) (StorageError "vote deserialize")
  | None => Ok None
  end.
Definition open (d : raft_dir) (f : OpenFaults) : res t :=
  _ ← match lo_create f with Some k => Err (IO k) | None => Ok tt end;
  entries ← load_entries (lo_entries f) d;
  vote ← load_vote (lo_vote f) d;
  mret (mk d (Inner.mk entries vote)).

Definition flush_entries (fault : option AtomicFault) (s : t) : option io_kind * t :=
  match serialize_entries (entries s) with
  | None => (Some OtherIo, s)
  | Some data => let '(r, d) := atomic_write ENTRIES_FILE data fault (dir s) in (r, set_dir s d)
  end.
(** The result of a flush under the error of an operation. *)
Definition flushed (subject : ErrorSubject) (verb : ErrorVerb) (r : option io_kind * t) : store_res unit * t :=
  match r with
  | (None, s) => (Done tt, s)
  | (Some k, s) => (Failed (io_error subject verb k), s)
  end.

Definition try_get_log_entries (range : Bound Z * Bound Z) (s : t) : list Entry.t :=
  let es := entries s in
  let start := range_start range in
  let end_ := range_end range (len es) in
  if (len es <=? start) || (end_ <=? start) then []
  else
    let end_ := Z.min end_ (len es) in
    take (Z.to_nat (end_ - start)) (drop (Z.to_nat start) es).
Definition get_log_state (s : t) : LogState.t := LogState.mk None (Entry.log_id <$> last (entries s)).
Definition get_log_reader (s : t) : LogReader.t := LogReader.mk (inner s).

Definition save_vote (vote : Vote) (fault : option AtomicFault) (s : t) : store_res unit * t :=
  let s := mk (dir s) (Inner.mk (entries s) (Some vote)) in
  match serialize_vote vote with
  | None => (Failed (io_error_msg VoteSubject WriteVerb), s)
  | Some data =>
      let '(r, d) := atomic_write VOTE_FILE data fault (dir s) in
      flushed VoteSubject WriteVerb (r, set_dir s d)
  end.
Definition read_vote (s : t) : option Vote := Inner.vote (inner s).

(** The callback runs exactly when the result is [Done]. *)
Definition append (new : list Entry.t) (fault : option AtomicFault) (s : t) : store_res unit * t :=
  flushed Logs WriteVerb (flush_entries fault (set_entries s (foldl (λ es e, es ++ [e]) (entries s) new))).
Definition truncate (log_id : LogId) (fault : option AtomicFault) (s : t) : store_res unit * t :=
  let keep := wrap64 (log_index log_id + 1) in
  let s := if keep <? len (entries s) then set_entries s (take (Z.to_nat keep) (entries s)) else s in
  flushed (LogIndex (log_index log_id)) DeleteVerb (flush_entries fault s).
Definition purge (log_id : LogId) (fault : option AtomicFault) (s : t) : store_res unit * t :=
  let end_ := wrap64 (log_index log_id + 1) in
  let s := if len (entries s) <=? end_ then set_entries s []
           else set_entries s (drop (Z.to_nat end_) (entries s)) in
  flushed (LogIndex (log_index log_id)) DeleteVerb (flush_entries fault s).
End store.
End LogStore.
