(* ===== verification/RaftLogTheory.v ===== *)
(** * What the log of the raft adapter keeps

    The store refines a pair of copies, one in memory and one on disk: every
    change reaches the memory, reaches the disk when the operation succeeds and
    may reach it when it fails, always whole, and opening the directory again
    gives the copy on disk.  Reads go by position, which is the index of an
    entry for as long as nothing was purged. *)

From S2P Require Import Prelude Bytes OrdMap Wal Read RaftLog.

(** ** The abstract log *)

Section spec.
Context `{OpenRaft}.

Record log_spec : Type := mkLogSpec {
  ls_mem : list Entry.t; ls_disk : list Entry.t; ls_vote : option Vote; ls_saved : option Vote
}.
Inductive log_event : Type :=
| LAppend (new : list Entry.t) (r : store_res unit)
| LTruncate (log_id : LogId) (r : store_res unit)
| LPurge (log_id : LogId) (r : store_res unit)
| LSaveVote (vote : Vote) (r : store_res unit)
| LRead (range : Bound Z * Bound Z) (es : list Entry.t)
| LReadVote (vote : option Vote)
| LState (st : LogState.t)
| LReopen (opened : bool).

(** A change to [es] in memory; on disk it is there on success, all or nothing
    on failure. *)
Inductive replaced (st : log_spec) (es : list Entry.t) : store_res unit → log_spec → Prop :=
| rep_done : replaced st es (Done tt) (mkLogSpec es es (ls_vote st) (ls_saved st))
| rep_lost e : replaced st es (Failed e) (mkLogSpec es (ls_disk st) (ls_vote st) (ls_saved st))
| rep_kept e : replaced st es (Failed e) (mkLogSpec es es (ls_vote st) (ls_saved st)).
Inductive voted (st : log_spec) (v : Vote) : store_res unit → log_spec → Prop :=
| vote_done : voted st v (Done tt) (mkLogSpec (ls_mem st) (ls_disk st) (Some v) (Some v))
| vote_lost e : voted st v (Failed e) (mkLogSpec (ls_mem st) (ls_disk st) (Some v) (ls_saved st))
| vote_kept e : voted st v (Failed e) (mkLogSpec (ls_mem st) (ls_disk st) (Some v) (Some v)).

(** The entries at the positions of a range. *)
Definition in_bounds (range : Bound Z * Bound Z) (i : Z) : bool :=
  above (fst range) i && below (snd range) i.
Fixpoint at_positions (range : Bound Z * Bound Z) (i : Z) (es : list Entry.t) : list Entry.t :=
  match es with
  | [] => []
  | e :: es => if in_bounds range i then e :: at_positions range (i + 1) es else at_positions range (i + 1) es
  end.

Inductive log_spec_step : log_spec → log_event → log_spec → Prop :=
| lss_append st new r st' : replaced st (ls_mem st ++ new) r st' → log_spec_step st (LAppend new r) st'
| lss_truncate st id r st' :
    replaced st (take (Z.to_nat (log_index id + 1)) (ls_mem st)) r st' → log_spec_step st (LTruncate id r) st'
| lss_purge st id r st' :
    replaced st (drop (Z.to_nat (log_index id + 1)) (ls_mem st)) r st' → log_spec_step st (LPurge id r) st'
| lss_vote st v r st' : voted st v r st' → log_spec_step st (LSaveVote v r) st'
| lss_read st range : log_spec_step st (LRead range (at_positions range 0 (ls_mem st))) st
| lss_read_vote st : log_spec_step st (LReadVote (ls_vote st)) st
| lss_state st : log_spec_step st (LState (LogState.mk None (Entry.log_id <$> last (ls_mem st)))) st
| lss_reopen st :
    log_spec_step st (LReopen true) (mkLogSpec (ls_disk st) (ls_disk st) (ls_saved st) (ls_saved st)).
Inductive log_spec_steps : log_spec → list log_event → log_spec → Prop :=
| lsps_nil st : log_spec_steps st [] st
| lsps_cons st e st1 es st2 : log_spec_step st e st1 → log_spec_steps st1 es st2 → log_spec_steps st (e :: es) st2.
End spec.

(** ** Runs of the store *)

(** An index whose successor is one. *)
Definition index_ok (i : Z) : Prop := 0 <= i < u64_max.
Definition bound_ok (b : Bound Z) : Prop := match b with Included i | Excluded i => index_ok i | Unbounded => True end.
Definition range_ok (range : Bound Z * Bound Z) : Prop := bound_ok (fst range) ∧ bound_ok (snd range).

Section theory.
Context `{BincodeSpec}.
Import LogStore.

Inductive log_step : t → log_event → t → Prop :=
| lst_append s new f r s' : append new f s = (r, s') → log_step s (LAppend new r) s'
| lst_truncate s id f r s' : index_ok (log_index id) → truncate id f s = (r, s') → log_step s (LTruncate id r) s'
| lst_purge s id f r s' : index_ok (log_index id) → purge id f s = (r, s') → log_step s (LPurge id r) s'
| lst_vote s v f r s' : save_vote v f s = (r, s') → log_step s (LSaveVote v r) s'
| lst_read s range : range_ok range → log_step s (LRead range (try_get_log_entries range s)) s
| lst_reader s range : range_ok range → log_step s (LRead range (LogReader.try_get_log_entries range (get_log_reader s))) s
| lst_read_vote s : log_step s (LReadVote (read_vote s)) s
| lst_state s : log_step s (LState (get_log_state s)) s
| lst_reopen s :
    log_step s (LReopen (is_ok (open (dir s) no_open_faults)))
      (match open (dir s) no_open_faults with Ok s' => s' | _ => s end).
Inductive log_steps : t → list log_event → t → Prop :=
| lsts_nil s : log_steps s [] s
| lsts_cons s e s1 es s2 : log_step s e s1 → log_steps s1 es s2 → log_steps s (e :: es) s2.

(** ** Files *)

Ltac names_differ := apply (bool_decide_eq_true_1 _); vm_compute; reflexivity.

(** A file is replaced whole or not at all, and no other is touched. *)
Lemma atomic_write_effect name data f (d : raft_dir) r d' :
  with_extension name (bytes_of_string "tmp") ≠ name → atomic_write name data f d = (r, d') →
  (∀ other, other ≠ name → other ≠ with_extension name (bytes_of_string "tmp") → om_get other d' = om_get other d) ∧
  (om_get name d' = Some data ∨ r ≠ None ∧ om_get name d' = om_get name d).
Proof.
  set (tmp := with_extension name _). intros Hne.
  assert (∀ bs, om_get name (om_insert tmp bs d) = om_get name d) as Hn by (intros; by apply om_get_insert_ne).
  assert (∀ bs other, other ≠ tmp → om_get other (om_insert tmp bs d) = om_get other d) as Ho by (intros; by apply om_get_insert_ne).
  assert (rename_over tmp name (om_insert tmp data d) = om_insert name data (om_remove tmp (om_insert tmp data d))) as Hr.
  { unfold rename_over. by rewrite om_get_insert_eq. }
  unfold atomic_write. fold tmp. rewrite Hr.
  destruct f as [[k|k n|k|k]|]; intros [= <- <-]; (split; [intros other Hx Hy | ]); auto.
  - by rewrite om_get_insert_ne, om_get_remove_ne, Ho.
  - left. apply om_get_insert_eq.
  - by rewrite om_get_insert_ne, om_get_remove_ne, Ho.
  - left. apply om_get_insert_eq.
Qed.

(** The store and its abstraction. *)
Record log_sim s (st : log_spec) : Prop := {
  lg_mem : entries s = ls_mem st;
  lg_vote : Inner.vote (inner s) = ls_vote st;
  lg_disk : load_entries None (dir s) = Ok (ls_disk st);
  lg_saved : load_vote None (dir s) = Ok (ls_saved st)
}.

Lemma load_entries_same (d d' : raft_dir) :
  om_get ENTRIES_FILE d' = om_get ENTRIES_FILE d → load_entries None d' = load_entries None d.
Proof. unfold load_entries. by intros ->. Qed.
Lemma load_vote_same (d d' : raft_dir) :
  om_get VOTE_FILE d' = om_get VOTE_FILE d → load_vote None d' = load_vote None d.
Proof. unfold load_vote. by intros ->. Qed.
Lemma load_entries_written (d : raft_dir) es data :
  om_get ENTRIES_FILE d = Some data → serialize_entries es = Some data → load_entries None d = Ok es.
Proof.
  intros Hd Hs. destruct (entries_back es data Hs) as [Hne Hb]. unfold load_entries. rewrite Hd. simpl.
  rewrite bool_decide_false by done. by rewrite Hb.
Qed.
Lemma load_vote_written (d : raft_dir) v data :
  om_get VOTE_FILE d = Some data → serialize_vote v = Some data → load_vote None d = Ok (Some v).
Proof.
  intros Hd Hs. destruct (vote_back v data Hs) as [Hne Hb]. unfold load_vote. rewrite Hd. simpl.
  rewrite bool_decide_false by done. by rewrite Hb.
Qed.

(** Writing the entries that memory has. *)
Lemma flush_sim subject verb f s st r s' :
  log_sim s (mkLogSpec (ls_mem st) (ls_disk st) (ls_vote st) (ls_saved st)) →
  flushed subject verb (flush_entries f s) = (r, s') → ∃ st', replaced st (ls_mem st) r st' ∧ log_sim s' st'.
Proof.
  intros [Hm Hv Hd Hs] Hf. cbn [ls_mem ls_disk ls_vote ls_saved] in *. unfold flush_entries in Hf.
  destruct (serialize_entries (entries s)) as [data|] eqn:Hser; [|injection Hf as <- <-; eexists; split; [apply rep_lost | by split]].
  destruct (atomic_write ENTRIES_FILE data f (dir s)) as [o d] eqn:Ha.
  destruct (atomic_write_effect ENTRIES_FILE _ _ _ _ _ ltac:(names_differ) Ha) as [Ho Hw].
  pose proof (load_vote_same _ _ (Ho VOTE_FILE ltac:(names_differ) ltac:(names_differ))) as Hlv.
  rewrite Hm in Hser. destruct Hw as [Hw|[Hne Hw]].
  - pose proof (load_entries_written d _ _ Hw Hser) as Hl. destruct o as [k|]; injection Hf as <- <-; eexists.
    + split; [apply rep_kept | split; simpl; [done | done | done | congruence]].
    + split; [apply rep_done | split; simpl; [done | done | done | congruence]].
  - destruct o as [k|]; [|done]. injection Hf as <- <-. eexists. split; [apply rep_lost|].
    split; simpl; [done | done | | congruence]. by rewrite (load_entries_same _ _ Hw).
Qed.
Lemma flush_keeps_entries sub verb f s : entries (flushed sub verb (flush_entries f s)).2 = entries s.
Proof. unfold flush_entries. destruct (serialize_entries _); [|done]. by destruct (atomic_write _ _ _ _) as [[] ?]. Qed.
(** An operation that sets the entries to [es] and writes them. *)
Lemma replace_sim subject verb f s st es r s' :
  log_sim s st → flushed subject verb (flush_entries f (set_entries s es)) = (r, s') →
  ∃ st', replaced st es r st' ∧ log_sim s' st'.
Proof.
  intros [Hm Hv Hd Hs] Hf.
  destruct (flush_sim subject verb f (set_entries s es) (mkLogSpec es (ls_disk st) (ls_vote st) (ls_saved st)) r s' ltac:(by split) Hf) as (st' & Hr & Hsim).
  exists st'. split; [destruct Hr; cbn [ls_mem ls_disk ls_vote ls_saved]; [apply rep_done | apply rep_lost | apply rep_kept] | done].
Qed.
Lemma vote_sim v f s st r s' :
  log_sim s st → save_vote v f s = (r, s') → ∃ st', voted st v r st' ∧ log_sim s' st'.
Proof.
  intros [Hm Hv Hd Hs] Hf. unfold save_vote in Hf.
  destruct (serialize_vote v) as [data|] eqn:Hser; [|injection Hf as <- <-; eexists; split; [apply vote_lost | by split]].
  cbn [dir] in Hf. destruct (atomic_write VOTE_FILE data f (dir s)) as [o d] eqn:Ha.
  destruct (atomic_write_effect VOTE_FILE _ _ _ _ _ ltac:(names_differ) Ha) as [Ho Hw].
  pose proof (load_entries_same _ _ (Ho ENTRIES_FILE ltac:(names_differ) ltac:(names_differ))) as Hle.
  destruct Hw as [Hw|[Hne Hw]].
  - pose proof (load_vote_written d _ _ Hw Hser) as Hl. destruct o as [k|]; injection Hf as <- <-; eexists.
    + split; [apply vote_kept | split; simpl; [done | done | congruence | done]].
    + split; [apply vote_done | split; simpl; [done | done | congruence | done]].
  - destruct o as [k|]; [|done]. injection Hf as <- <-. eexists. split; [apply vote_lost|].
    split; simpl; [done | done | congruence |]. by rewrite (load_vote_same _ _ Hw).
Qed.

(** ** Reads *)

(** The half-open interval a range stands for. *)
Lemma in_bounds_interval range i n :
  range_ok range → 0 <= i < n → in_bounds range i = (range_start range <=? i) && (i <? range_end range n).
Proof.
  destruct range as [lo hi]. intros [Hlo Hhi] Hi. unfold in_bounds, range_start, range_end, bound_ok, index_ok in *. cbn [fst snd] in *. f_equal.
  - destruct lo as [a|a|]; cbn [above] in *; unfold kleb, kltb; cbn [kcmp Z_ord].
    + unfold Z.leb. by destruct (a ?= i).
    + rewrite wrap64_id by word_lia. destruct (Z.compare_spec a i), (Z.leb_spec (a + 1) i); done || lia.
    + by rewrite (proj2 (Z.leb_le _ _)) by lia.
  - destruct hi as [a|a|]; cbn [below] in *; unfold kleb, kltb; cbn [kcmp Z_ord].
    + rewrite wrap64_id by word_lia. destruct (Z.compare_spec i a), (Z.ltb_spec i (a + 1)); done || lia.
    + unfold Z.ltb. by destruct (i ?= a).
    + by rewrite (proj2 (Z.ltb_lt _ _)) by lia.
Qed.
Lemma at_positions_slice range es k n :
  range_ok range → 0 <= k → n = k + len es →
  at_positions range k es =
  take (Z.to_nat (range_end range n - Z.max (range_start range) k)) (drop (Z.to_nat (range_start range - k)) es).
Proof.
  intros Hr. revert k. induction es as [|e es IH]; intros k Hk Hn; [by rewrite drop_nil, take_nil|].
  rewrite len_cons in Hn. pose proof (len_nonneg es). cbn [at_positions]. rewrite (in_bounds_interval range k n Hr) by lia.
  rewrite (IH (k + 1)) by lia.
  set (a := range_start range). set (b := range_end range n). destruct (Z.leb_spec a k); simpl.
  - replace (Z.to_nat (a - k)) with O by lia. replace (Z.to_nat (a - (k + 1))) with O by lia. rewrite !drop_0.
    destruct (Z.ltb_spec k b).
    + replace (Z.to_nat (b - Z.max a k)) with (S (Z.to_nat (b - Z.max a (k + 1)))) by lia. done.
    + replace (Z.to_nat (b - Z.max a k)) with O by lia. by replace (Z.to_nat (b - Z.max a (k + 1))) with O by lia.
  - replace (Z.to_nat (a - k)) with (S (Z.to_nat (a - (k + 1)))) by lia. simpl. f_equal. f_equal. lia.
Qed.
Lemma get_entries_positions range s :
  range_ok range → try_get_log_entries range s = at_positions range 0 (entries s).
Proof.
  intros Hr. rewrite (at_positions_slice range _ 0 (len (entries s)) Hr) by lia. unfold try_get_log_entries.
  set (es := entries s). set (a := range_start range). set (b := range_end range (len es)). pose proof (len_nonneg es).
  assert (0 <= a) by (destruct range as [[i|i|] hi], Hr as [Hlo _]; unfold a, range_start; cbn in *;
    [unfold index_ok in *; lia | apply wrap64_u64 | lia]).
  replace (Z.max a 0) with a by lia. replace (a - 0) with a by lia.
  destruct (Z.leb_spec (len es) a); simpl.
  { rewrite drop_ge, take_nil by (unfold len in *; lia). done. }
  destruct (Z.leb_spec b a); simpl; [by replace (Z.to_nat (b - a)) with O by lia|].
  destruct (Z.le_gt_cases b (len es)); [by rewrite Z.min_l by lia|]. rewrite Z.min_r by lia.
  rewrite !take_ge by (rewrite length_drop; unfold len in *; lia). done.
Qed.

(** ** The simulation *)

Lemma snoc_all (new es : list Entry.t) : foldl (λ es e, es ++ [e]) es new = es ++ new.
Proof.
  revert es. induction new as [|e new IH]; intros es; simpl; [by rewrite app_nil_r|]. by rewrite IH, <- (assoc_L (++)).
Qed.
Lemma log_sim_step s e s' st : log_step s e s' → log_sim s st → ∃ st', log_spec_step st e st' ∧ log_sim s' st'.
Proof.
  intros Hstep Hsim. pose proof Hsim as [Hm Hv Hd Hs].
  inversion Hstep as [? new f r ? Ha|? id f r ? Hi Ha|? id f r ? Hi Ha|? v f r ? Ha|? range Hr|? range Hr|?|?|?]; subst.
  - unfold append in Ha. rewrite snoc_all, Hm in Ha. destruct (replace_sim _ _ _ _ _ _ _ _ Hsim Ha) as (st' & Hrep & Hsim').
    exists st'. split; [by constructor | done].
  - unfold truncate in Ha. unfold index_ok in Hi. rewrite wrap64_id in Ha by word_lia. rewrite Hm in Ha.
    replace (if _ <? _ then _ else s) with (set_entries s (take (Z.to_nat (log_index id + 1)) (ls_mem st))) in Ha.
    + destruct (replace_sim _ _ _ _ _ _ _ _ Hsim Ha) as (st' & Hrep & Hsim'). exists st'. split; [by constructor | done].
    + destruct (Z.ltb_spec (log_index id + 1) (len (ls_mem st))); [done|].
      rewrite take_ge by (unfold len in *; lia). rewrite <- Hm. destruct s as [d [es v]]. done.
  - unfold purge in Ha. unfold index_ok in Hi. rewrite wrap64_id in Ha by word_lia. rewrite Hm in Ha.
    replace (if _ <=? _ then _ else _) with (set_entries s (drop (Z.to_nat (log_index id + 1)) (ls_mem st))) in Ha.
    + destruct (replace_sim _ _ _ _ _ _ _ _ Hsim Ha) as (st' & Hrep & Hsim'). exists st'. split; [by constructor | done].
    + destruct (Z.leb_spec (len (ls_mem st)) (log_index id + 1)); [|done]. rewrite drop_ge by (unfold len in *; lia). done.
  - destruct (vote_sim _ _ _ _ _ _ Hsim Ha) as (st' & Hrep & Hsim'). exists st'. split; [by constructor | done].
  - exists st. rewrite get_entries_positions, Hm by done. split; [constructor | done].
  - exists st. change (LogReader.try_get_log_entries range _) with (try_get_log_entries range s').
    rewrite get_entries_positions, Hm by done. split; [constructor | done].
  - exists st. unfold read_vote. rewrite Hv. split; [constructor | done].
  - exists st. unfold get_log_state. rewrite Hm. split; [constructor | done].
  - unfold open. cbn [lo_create lo_entries lo_vote no_open_faults]. rewrite Hd, Hs. simpl. eexists. split; [constructor | by split].
Qed.
Lemma log_sim_steps s es s' st : log_steps s es s' → log_sim s st → ∃ st', log_spec_steps st es st' ∧ log_sim s' st'.
Proof.
  intros Hs. revert st. induction Hs as [s|s e s1 es s2 Hst _ IH]; intros st Hsim; [exists st; split; [constructor | done]|].
  destruct (log_sim_step s e s1 st Hst Hsim) as (st1 & Hq1 & Hsim1). destruct (IH st1 Hsim1) as (st2 & Hq2 & Hsim2).
  exists st2. split; [by econstructor | done].
Qed.
Lemma log_sim_fresh s : open [] no_open_faults = Ok s → log_sim s (mkLogSpec [] [] None None).
Proof. intros [= <-]. by split. Qed.
End theory.

(** ** Positions and indices *)

Section indices.
Context `{OpenRaft}.

(** The entries of consecutive indices from [k] on. *)
Definition consecutive (k : Z) (es : list Entry.t) : Prop :=
  ∀ i e, es !! i = Some e → Entry.index e = k + Z.of_nat i.

Lemma consecutive_cons k e es : consecutive k (e :: es) ↔ Entry.index e = k ∧ consecutive (k + 1) es.
Proof.
  split.
  - intros Hc. split; [by rewrite (Hc O e eq_refl); lia|]. intros i x Hx. rewrite (Hc (S i) x Hx). lia.
  - intros [He Hc] [|i] x Hx; [injection Hx as <-; lia|]. rewrite (Hc i x Hx). lia.
Qed.
Lemma consecutive_app k es new : consecutive k es → consecutive (k + len es) new → consecutive k (es ++ new).
Proof.
  revert k. induction es as [|e es IH]; intros k; [by rewrite len_nil, Z.add_0_r|].
  rewrite <- app_comm_cons, !consecutive_cons, len_cons. intros [He Hc] Hn. split; [done|]. apply IH; [done|].
  by replace (k + 1 + len es) with (k + (1 + len es)) by lia.
Qed.
Lemma consecutive_take k n es : consecutive k es → consecutive k (take n es).
Proof. intros Hc i e [He _]%lookup_take_Some. by apply Hc. Qed.
Lemma at_positions_index range k es :
  consecutive k es → at_positions range k es = List.filter (λ e, in_bounds range (Entry.index e)) es.
Proof.
  revert k. induction es as [|e es IH]; intros k; [done|]. rewrite consecutive_cons. intros [He Hc]. simpl. rewrite He, (IH _ Hc). done.
Qed.
(** One position. *)
Lemma at_position j k es :
  at_positions (Included j, Included j) k es = if j <? k then [] else option_list (es !! Z.to_nat (j - k)).
Proof.
  revert k. induction es as [|e es IH]; intros k; [by destruct (j <? k)|]. cbn [at_positions].
  rewrite (IH (k + 1)). unfold in_bounds. cbn [fst snd above below]. unfold kleb. cbn [kcmp Z_ord].
  destruct (Z.compare_spec j k) as [->|?|?]; cbn [andb].
  - rewrite Z.compare_refl, (proj2 (Z.ltb_lt _ _)), (proj2 (Z.ltb_ge _ _)) by lia. cbn [andb]. by replace (Z.to_nat (k - k)) with O by lia.
  - rewrite !(proj2 (Z.ltb_lt _ _)) by lia. destruct (Z.compare_spec k j); [lia | lia | done].
  - rewrite !(proj2 (Z.ltb_ge _ _)) by lia.
    replace (Z.to_nat (j - k)) with (S (Z.to_nat (j - (k + 1)))) by lia. done.
Qed.
End indices.

(** ** Properties *)

Section props.
Context `{BincodeSpec}.
Import LogStore.

(** C9.  The log of the raft adapter keeps whole copies.  From an empty
    directory, take any run of appends, truncations, purges, votes, reads
    through the store or a reader handle, and reopenings, in which a write may
    fail at any step of replacing its file, after any byte.  Then every result
    is the one of an abstract log with a copy in memory and a copy on disk: a
    change reaches memory; it is on disk when the operation succeeds, and there
    whole or not at all when it fails; opening the directory again always
    succeeds and returns the copy on disk; votes and entries do not disturb
    each other. *)
Theorem raft_log_refines s0 es s :
  open [] no_open_faults = Ok s0 → log_steps s0 es s →
  ∃ st, log_spec_steps (mkLogSpec [] [] None None) es st ∧ log_sim s st.
Proof. intros Ho Hs. eapply log_sim_steps; [done|]. by apply log_sim_fresh. Qed.

(** C30.  While the entries have the indices 0, 1, 2 and so on, a read of a
    range of indices returns exactly the stored entries whose index is in it,
    through the store and through a reader; an append of the entries that
    follow and a truncation, successful or not, keep the indices that way. *)
Theorem raft_log_reads_by_index s range new id f :
  consecutive 0 (entries s) → range_ok range → index_ok (log_index id) →
  try_get_log_entries range s = List.filter (λ e, in_bounds range (Entry.index e)) (entries s) ∧
  LogReader.try_get_log_entries range (get_log_reader s) = try_get_log_entries range s ∧
  (consecutive (len (entries s)) new → consecutive 0 (entries (append new f s).2)) ∧
  consecutive 0 (entries (truncate id f s).2).
Proof.
  intros Hc Hr Hi.
  split; [by rewrite get_entries_positions, (at_positions_index range 0) by done|]. split; [done|]. split.
  - intros Hn. unfold append. rewrite flush_keeps_entries, snoc_all. apply consecutive_app; [done|]. by rewrite Z.add_0_l.
  - unfold truncate. rewrite flush_keeps_entries. destruct (_ <? _); [|done]. by apply consecutive_take.
Qed.

(** C31.  Where the store departs from the contract of the consensus library
    (a truncation removes the entries from its log id on, inclusive; purged
    entries are no longer part of the log and the last purged id is reported):
    a truncation keeps the entry at its log id, after a purge a read at an
    index returns an entry of another index, and no purge is ever reported. *)
Theorem raft_log_departs s id f :
  consecutive 0 (entries s) → index_ok (log_index id) → log_index id < len (entries s) →
  (∃ e, e ∈ entries (truncate id f s).2 ∧ Entry.index e = log_index id) ∧
  (∀ j e, index_ok j → e ∈ try_get_log_entries (Included j, Included j) (purge id f s).2 →
     Entry.index e = j + log_index id + 1) ∧
  LogState.last_purged_log_id (get_log_state (purge id f s).2) = None.
Proof.
  intros Hc Hi Hlt. unfold index_ok in Hi.
  split; [|split; [|done]].
  - destruct (lookup_lt_is_Some_2 (entries s) (Z.to_nat (log_index id))) as [e He]; [unfold len in Hlt; lia|].
    exists e. split; [|rewrite (Hc _ _ He); lia]. unfold truncate. rewrite flush_keeps_entries, wrap64_id by word_lia.
    apply (list_elem_of_lookup_2 _ (Z.to_nat (log_index id))). destruct (_ <? _); [|done]. cbn [entries set_entries inner Inner.entries].
    rewrite lookup_take_lt by lia. done.
  - intros j e Hj. unfold index_ok in Hj. rewrite get_entries_positions by done. rewrite at_position, Z.sub_0_r.
    rewrite (proj2 (Z.ltb_ge _ _)) by lia. unfold purge. rewrite flush_keeps_entries, wrap64_id by word_lia.
    destruct (_ <=? _); cbn [entries set_entries inner Inner.entries]; [by rewrite lookup_nil; intros ?%elem_of_nil|].
    rewrite lookup_drop. destruct (entries s !! _) as [x|] eqn:Hx; [|by intros ?%elem_of_nil].
    intros ->%list_elem_of_singleton. rewrite (Hc _ _ Hx). lia.
Qed.
End props.

(** ** Witnesses

    A serialization for blank entries with small indices. *)

Definition toy_raft : OpenRaft := {|
  LogId := Z; log_index := λ i, i; Membership := unit; StoredMembership := option Z;
  stored_membership := λ o _, o; default_stored := None; Vote := Z; default_vote := 0 |}.
Fixpoint toy_entries (es : list (@Entry.t toy_raft)) : option bytes :=
  match es with
  | [] => Some [x00]
  | Entry.mk id Blank :: es =>
      rest ← toy_entries es; if bool_decide (bz (zb id) = id) then Some (x01 :: zb id :: rest) else None
  | _ :: _ => None
  end.
Fixpoint toy_unentries (bs : bytes) : option (list (@Entry.t toy_raft)) :=
  match bs with
  | [x00] => Some []
  | x01 :: i :: rest => es ← toy_unentries rest; Some (@Entry.mk toy_raft (bz i) (@Blank toy_raft) :: es)
  | _ => None
  end.
Definition toy_bincode : @Bincode toy_raft := {|
  serialize_entries := toy_entries; deserialize_entries := toy_unentries;
  serialize_vote := λ v : @Vote toy_raft, if bool_decide (bz (zb v) = v) then Some [zb v] else None;
  deserialize_vote := λ bs, (bz <$> head bs : option (@Vote toy_raft)) |}.
Lemma toy_bincode_spec : @BincodeSpec toy_raft toy_bincode.
Proof.
  split.
  - cbn [serialize_entries deserialize_entries toy_bincode]. intros es. induction es as [|[id [|data|m]] es IH]; intros bs; simpl; try done.
    + by intros [= <-].
    + destruct (toy_entries es) as [rest|]; [|done]. simpl. case_bool_decide as Hid; [|done]. intros [= <-].
      destruct (IH rest eq_refl) as [_ Hb]. split; [done|]. simpl. rewrite Hb. simpl. by rewrite Hid.
  - cbn [serialize_vote deserialize_vote toy_bincode]. intros v bs. case_bool_decide as Hv; [|done]. intros [= <-]. split; [done|].
    simpl. by rewrite Hv.
Qed.

Definition toy_entry (i : Z) : @Entry.t toy_raft := @Entry.mk toy_raft i (@Blank toy_raft).
Definition toy_log (es : list (@Entry.t toy_raft)) : @LogStore.t toy_raft :=
  LogStore.mk (om_insert ENTRIES_FILE (default [] (toy_entries es)) []) (@Inner.mk toy_raft es None).
Definition toy_log0 : @LogStore.t toy_raft := @LogStore.mk toy_raft [] (@Inner.mk toy_raft [] None).
Definition toy_log1 : @LogStore.t toy_raft := toy_log [toy_entry 0; toy_entry 1].
(** A truncation whose rename fails, and a vote. *)
Definition toy_log2 : @LogStore.t toy_raft :=
  Eval vm_compute in (@LogStore.truncate toy_raft toy_bincode 0 (Some (FailRename OtherIo)) toy_log1).2.
Definition toy_log3 : @LogStore.t toy_raft :=
  Eval vm_compute in (@LogStore.save_vote toy_raft toy_bincode 5 None toy_log2).2.
Definition toy_log4 : @LogStore.t toy_raft :=
  Eval vm_compute in match @LogStore.open toy_raft toy_bincode (LogStore.dir toy_log3) LogStore.no_open_faults with Ok s => s | _ => toy_log3 end.
Definition toy_all : Bound Z * Bound Z := (Unbounded, Unbounded).
Definition toy_log_events : list (@log_event toy_raft) :=
  [@LAppend toy_raft [toy_entry 0; toy_entry 1] (Done tt);
   @LTruncate toy_raft 0 (Failed (mkStoreError (LogIndex 0) DeleteVerb OtherIo));
   @LRead toy_raft toy_all [toy_entry 0]; @LSaveVote toy_raft 5 (Done tt); @LReopen toy_raft true;
   @LRead toy_raft toy_all [toy_entry 0; toy_entry 1]; @LReadVote toy_raft (Some 5)].

Lemma toy_log_run : @log_steps toy_raft toy_bincode toy_log0 toy_log_events toy_log4.
Proof.
  apply (lsts_cons _ _ toy_log1); [apply lst_append with (f := None); vm_compute; reflexivity|].
  apply (lsts_cons _ _ toy_log2).
  { apply lst_truncate with (f := Some (FailRename OtherIo)); [by vm_compute | vm_compute; reflexivity]. }
  apply (lsts_cons _ _ toy_log2); [apply (lst_read toy_log2 toy_all); done|].
  apply (lsts_cons _ _ toy_log3); [apply lst_vote with (f := None); vm_compute; reflexivity|].
  apply (lsts_cons _ _ toy_log4); [exact (@lst_reopen toy_raft toy_bincode toy_log3)|].
  apply (lsts_cons _ _ toy_log4); [apply (lst_reader toy_log4 toy_all); done|].
  apply (lsts_cons _ _ toy_log4); [exact (@lst_read_vote toy_raft toy_bincode toy_log4) | constructor].
Qed.
Lemma raft_log_refines_witness :
  ∃ st, @log_spec_steps toy_raft (@mkLogSpec toy_raft [] [] None None) toy_log_events st ∧ @log_sim toy_raft toy_bincode toy_log4 st.
Proof.
  apply (@raft_log_refines toy_raft toy_bincode toy_bincode_spec toy_log0 toy_log_events toy_log4); [reflexivity | apply toy_log_run].
Defined.

Lemma toy_consecutive : @consecutive toy_raft 0 (LogStore.entries toy_log1).
Proof. intros [|[|[|i]]] e [= <-]; reflexivity. Qed.
Lemma raft_log_reads_by_index_witness :
  @LogStore.try_get_log_entries toy_raft (Included 1, Unbounded) toy_log1 = [toy_entry 1] ∧
  @consecutive toy_raft 0 (LogStore.entries (@LogStore.truncate toy_raft toy_bincode 0 None toy_log1).2).
Proof.
  destruct (@raft_log_reads_by_index toy_raft toy_bincode toy_log1 (Included 1, Unbounded) [] 0 None
    toy_consecutive ltac:(by repeat split; vm_compute) ltac:(by vm_compute)) as (Hr & _ & _ & Ht).
  split; [exact Hr | exact Ht].
Defined.
Lemma raft_log_departs_witness :
  ∃ e, e ∈ LogStore.entries (@LogStore.truncate toy_raft toy_bincode 0 None toy_log1).2 ∧ @Entry.index toy_raft e = 0.
Proof.
  exact (proj1 (@raft_log_departs toy_raft toy_bincode toy_log1 0 None toy_consecutive ltac:(by vm_compute) ltac:(by vm_compute))).
Defined.
