(* ===== verification/RaftNode.v ===== *)
(** * A node of the cluster: [src/src/storage/raft/{state_machine,network,server,mod}.rs]

    The state machine the consensus library applies committed entries to, the
    HTTP client and server of the cluster, the layer that puts them together
    and the flags that configure it.  The library, the HTTP transport and the
    parsing of socket addresses are parameters. *)

From S2P Require Import Prelude Bytes OrdMap Unicode Config Read Write Generation Root RaftLog.

(** ** The state machine *)

Module SMInner.
Section inner.
Context `{OpenRaft}.
Record t : Type := mk { last_applied : option LogId; membership : StoredMembership }.
End inner.
End SMInner.

Module KVStateMachine.
Section machine.
Context `{OpenRaft}.

(** The write pipeline is shared with the engine. *)
Record t : Type := mk { write_component : WriteComponent.t; inner : SMInner.t }.
Definition new (w : WriteComponent.t) : t := mk w (SMInner.mk None default_stored).
Definition with_last_applied (w : WriteComponent.t) (last_applied : option LogId) (membership : StoredMembership) : t :=
  mk w (SMInner.mk last_applied membership).
Definition applied_state (s : t) : option LogId * StoredMembership :=
  (SMInner.last_applied (inner s), SMInner.membership (inner s)).

(** One entry: the lock of the pipeline is taken and released, and the answer
    is empty. *)
Definition apply_entry (acc : list bytes * t) (entry : Entry.t) : list bytes * t :=
  let '(results, s) := acc in
  let sm := SMInner.mk (Some (Entry.log_id entry)) (SMInner.membership (inner s)) in
  match Entry.payload entry with
  | NormalPayload data => (results ++ [[]], mk (write_component s) sm)
  | MembershipPayload membership =>
      (results ++ [[]],
       mk (write_component s)
          (SMInner.mk (SMInner.last_applied sm) (stored_membership (Some (Entry.log_id entry)) membership)))
  | Blank => (results ++ [[]], mk (write_component s) sm)
  end.
Definition apply (entries : list Entry.t) (s : t) : list bytes * t := foldl apply_entry ([], s) entries.

(** Snapshots are not supported. *)
Definition begin_receiving_snapshot (s : t) : bytes := [].
Definition install_snapshot (s : t) : store_res unit * t := (Done tt, s).
Definition get_current_snapshot (s : t) : option bytes := None.
Definition build_snapshot : store_res bytes := Failed (mkStoreError StateMachineSubject ReadVerb OtherIo).
End machine.
End KVStateMachine.

(** ** The network *)

(** [RPCError::Network], the only error of a client. *)
Inductive rpc_res (A : Type) : Type := Answer (a : A) | NetworkError.
Arguments Answer {A} a.
Arguments NetworkError {A}.

(** The requests and answers of the library. *)
Class RaftRpc `{OpenRaft} : Type := {
  AppendEntriesRequest : Type; AppendEntriesResponse : Type;
  InstallSnapshotRequest : Type; InstallSnapshotResponse : Type;
  VoteRequest : Type; VoteResponse : Type;
  higher_vote : Vote → AppendEntriesResponse;
  snapshot_vote : Vote → InstallSnapshotResponse;
  vote_answer : Vote → bool → option LogId → VoteResponse
}.
Arguments AppendEntriesRequest {_ _}.
Arguments AppendEntriesResponse {_ _}.
Arguments InstallSnapshotRequest {_ _}.
Arguments InstallSnapshotResponse {_ _}.
Arguments VoteRequest {_ _}.
Arguments VoteResponse {_ _}.

Module RaftHttpClient.
Section client.
Context `{RaftRpc} {Reply : Type}.
Record t : Type := mk { target_url : bytes }.

(** A POST with the request as JSON: sending it, and reading the reply. *)
Definition post {Req Resp} (send : bytes → Req → option Reply) (json : Reply → option Resp) (url : bytes) (rpc : Req)
    : rpc_res Resp :=
  match send url rpc with
  | None => NetworkError
  | Some reply => match json reply with Some resp => Answer resp | None => NetworkError end
  end.
Definition append_entries (c : t) (send : bytes → AppendEntriesRequest → option Reply)
    (json : Reply → option AppendEntriesResponse) (rpc : AppendEntriesRequest) : rpc_res AppendEntriesResponse :=
  post send json (target_url c ++ bytes_of_string "/raft/append_entries") rpc.
Definition install_snapshot (c : t) (send : bytes → InstallSnapshotRequest → option Reply)
    (json : Reply → option InstallSnapshotResponse) (rpc : InstallSnapshotRequest) : rpc_res InstallSnapshotResponse :=
  post send json (target_url c ++ bytes_of_string "/raft/install_snapshot") rpc.
Definition vote (c : t) (send : bytes → VoteRequest → option Reply)
    (json : Reply → option VoteResponse) (rpc : VoteRequest) : rpc_res VoteResponse :=
  post send json (target_url c ++ bytes_of_string "/raft/vote") rpc.
End client.
End RaftHttpClient.

Module RaftHttpNetwork.
Record t : Type := mk { peer_urls : ordmap Z bytes }.
Definition new (peers : list (Z * bytes)) : t := mk (foldl (λ m p, om_insert (fst p) (snd p) m) [] peers).
Definition url_for (n : t) (target : Z) : option bytes := om_get target (peer_urls n).
Definition add_peer (n : t) (id : Z) (url : bytes) : t := mk (om_insert id url (peer_urls n)).
Definition new_client (n : t) (target : Z) : RaftHttpClient.t :=
  let addr := default (bytes_of_string "node-" ++ decimal target ++ bytes_of_string ":21001") (url_for n target) in
  RaftHttpClient.mk (bytes_of_string "http://" ++ addr).
End RaftHttpNetwork.

(** ** The server *)

Module Server.
Inductive Method : Type := GET | POST.
Inductive Handler : Type := HandleAppendEntries | HandleVote | HandleInstallSnapshot | HandleMetrics.
#[export] Instance Method_eq_dec : EqDecision Method.
Proof. solve_decision. Defined.
(** The routes of [start_raft_http_server]. *)
Definition routes : list (Method * bytes * Handler) :=
  [(POST, bytes_of_string "/raft/append_entries", HandleAppendEntries);
   (POST, bytes_of_string "/raft/vote", HandleVote);
   (POST, bytes_of_string "/raft/install_snapshot", HandleInstallSnapshot);
   (GET, bytes_of_string "/raft/metrics", HandleMetrics)].
Definition route (method : Method) (path : bytes) : option Handler :=
  snd <$> List.find (λ r, bool_decide (fst (fst r) = method) && bytes_eqb (snd (fst r)) path) routes.

Section handlers.
Context `{RaftRpc}.
(** A failure inside the library is logged and answered with a default. *)
Definition handle_append_entries (raft : AppendEntriesRequest → option AppendEntriesResponse)
    (req : AppendEntriesRequest) : AppendEntriesResponse :=
  default (higher_vote default_vote) (raft req).
Definition handle_vote (raft : VoteRequest → option VoteResponse) (req : VoteRequest) : VoteResponse :=
  default (vote_answer default_vote false None) (raft req).
Definition handle_install_snapshot (raft : InstallSnapshotRequest → option InstallSnapshotResponse)
    (req : InstallSnapshotRequest) : InstallSnapshotResponse :=
  default (snapshot_vote default_vote) (raft req).
(** [serde_json::to_value] of the metrics, [null] when it fails. *)
Definition handle_metrics {Metrics Json} (to_value : Metrics → option Json) (null : Json) (metrics : Metrics) : Json :=
  default null (to_value metrics).
End handlers.
End Server.

(** ** Flags *)

(** [str::split] at a character of one byte. *)
Fixpoint split_at (sep : byte) (piece : bytes) (s : bytes) : list bytes :=
  match s with
  | [] => [rev piece]
  | b :: s => if bool_decide (b = sep) then rev piece :: split_at sep [] s else split_at sep (b :: piece) s
  end.
(** [u64::from_str]. *)
Definition parse_u64 (s : bytes) : option Z :=
  let ds := match s with x2b :: rest => rest | _ => s end in
  if bool_decide (ds = []) || negb (forallb is_ascii_digit ds) then None
  else if u64_max <? digits_value ds then None else Some (digits_value ds).

(** [SocketAddr] and its [from_str]. *)
Class SocketAddrs : Type := { SocketAddr : Type; parse_addr : bytes → option SocketAddr }.
Arguments SocketAddr {_}.

Module RaftNodeConfig.
Section config.
Context `{SocketAddrs}.
Record t : Type := mk { node_id : Z; peers : list (Z * bytes); http_bind : SocketAddr; raft_dir : bytes }.
End config.
End RaftNodeConfig.

Section flags.
Context `{Unicode, SocketAddrs}.
(** One peer, [id:host:port]; others are skipped. *)
Definition parse_peer (s : bytes) : option (Z * bytes) :=
  match split_at x3a [] (concat (trim_chars s)) with
  | [id; host; port] => id ← parse_u64 id; Some (id, host ++ [x3a] ++ port)
  | _ => None
  end.
Definition parse_peers (s : bytes) : list (Z * bytes) :=
  omap parse_peer (List.filter (λ p, negb (bool_decide (p = []))) (split_at x2c [] s)).
(** An address that does not parse is a panic. *)
Definition to_raft_node_config (c : Config.t) : res (option RaftNodeConfig.t) :=
  if negb (Config.raft_mode c) then Ok None
  else
    let peers := parse_peers (Config.raft_peers c) in
    match parse_addr (Config.raft_http_bind c) with
    | None => Panic
    | Some http_bind =>
        Ok (Some (RaftNodeConfig.mk (Config.raft_node_id c) peers http_bind
                    (path_join (Config.data_dir c) (bytes_of_string "raft"))))
    end.
End flags.

(** ** The consensus layer *)

Module RaftConsensusLayer.
Section layer.
Context `{Bincode, SocketAddrs}.

(** What can fail at the start besides the files: the configuration of the
    library, its start, and the listener. *)
Record StartFaults : Type := mkStartFaults {
  sf_log : LogStore.OpenFaults; sf_config : bool; sf_raft : bool; sf_bind : option io_kind
}.
(** The layer: [leader] is what the library reports as the current leader.
    The write component is the engine's. *)
Record t : Type := mk {
  log_store : LogStore.t;
  network : RaftHttpNetwork.t;
  node_id : Z;
  leader : option Z
}.
(** The state machine is the one given to the library. *)
Definition start (config : RaftNodeConfig.t) (exists_ : bytes → bool) (files : raft_dir)
    (w : WriteComponent.t) (f : StartFaults) : res (t * KVStateMachine.t) :=
  _ ← ensure_not_experimental_storage exists_;
  log_store ← LogStore.open files (sf_log f);
  let state_machine := KVStateMachine.new w in
  let network := RaftHttpNetwork.new (RaftNodeConfig.peers config) in
  _ ← guard_err (negb (sf_config f)) (StorageError "invalid raft config");
  _ ← guard_err (negb (sf_raft f)) (StorageError "raft init");
  _ ← match sf_bind f with Some k => Err (IO k) | None => Ok tt end;
  mret (mk log_store network (RaftNodeConfig.node_id config) None, state_machine).

(** [client_write] is what the library answers to the proposal. *)
Definition propose (client_write : bytes → bool) (data : bytes) : res unit :=
  guard_err (client_write data) (StorageError "raft client_write").
Definition is_leader (l : t) : bool := bool_decide (leader l = Some (node_id l)).
Definition current_leader (l : t) : option Z := leader l.
Definition id (l : t) : Z := node_id l.
(** The members are given to the library as nodes without an address. *)
Definition initialize (raft_initialize : ordmap Z unit → bool) (members : list Z) : res unit :=
  guard_err (raft_initialize (foldl (λ m i, om_insert i tt m) [] members)) (StorageError "raft initialize").
End layer.
End RaftConsensusLayer.
