(* ===== verification/RaftKV.v ===== *)
(** * The replicated engine: [RaftKV2] of [src/src/storage/kv2.rs]

    The engine of a cluster node: a write is proposed to the consensus library
    and applied here once it is committed, reads are local and only on the
    leader.  The write pipeline, the manifest, the read manager and the
    compaction worker are those of [KV2] over a log that is never written. *)

From S2P Require Import Prelude Bytes OrdMap Record Bloom WalFormat Wal Manifest Admission Config Store Read Write Compaction Root Engine.
From S2P Require Import Unicode Api RaftLog RaftNode.

(** [build_recovered_memtable] of [RaftKV2]. *)
Definition recover_command (acc : memtable * Z * Z) (cmd : LogCommand.t) : memtable * Z * Z :=
  let '(memtable, max_lsn, total_size) := acc in
  let value := if is_delete (LogCommand.record_type cmd) then [] else LogCommand.value cmd in
  (om_insert (LogCommand.key cmd, LogCommand.lsn cmd)
     (MemtableRecord.new value (LogCommand.record_type cmd) (LogCommand.lsn cmd)) memtable,
   Z.max max_lsn (LogCommand.lsn cmd),
   wrap64 (total_size + (len (LogCommand.key cmd) + len value))).
Definition build_replicated_memtable (commands : list LogCommand.t) : memtable * Z * Z :=
  foldl recover_command ([], 0, 0) commands.

Module RaftKV2.
Section engine.
Context `{Crc32, FastBloom, Bincode, SocketAddrs}.

(** [kv] has the configuration, the write component with the manifest, and the
    channel of the compaction worker. *)
Record t : Type := mk {
  kv : KV2.t;
  sequence_number : Z;
  raft_layer : RaftConsensusLayer.t
}.
Definition set_kv (s : t) (k : KV2.t) : t := mk k (sequence_number s) (raft_layer s).
Definition on_kv {A} (p : eff KV2.t A) : eff t A := λ s, let '(r, k) := p (kv s) in (r, set_kv s k).
Definition is_leader (s : t) : bool := RaftConsensusLayer.is_leader (raft_layer s).
(** The library reports another leader. *)
Definition set_leader (s : t) (leader : option Z) : t :=
  let l := raft_layer s in
  mk (kv s) (sequence_number s)
     (RaftConsensusLayer.mk (RaftConsensusLayer.log_store l) (RaftConsensusLayer.network l)
        (RaftConsensusLayer.node_id l) leader).

(** Opens the manifest, a log that is never written and the consensus layer.
    Nothing is recovered, the tables are not validated, and the sequence
    numbers start at zero. *)
Definition open (base_dir : bytes) (root : RootDisk) (config : StorageConfig.t) (token : Z)
    (raft_config : RaftNodeConfig.t) (raft_exists : bytes → bool) (raft_files : raft_dir)
    (f : RaftConsensusLayer.StartFaults) : res t :=
  _ ← ensure_not_experimental_storage (rd_exists root);
  manifest ← ManifestManager.load_or_create (rd_manifest root);
  dummy_wal ← Wal.new_inner (rd_wal root) (StorageConfig.wal_segment_size config) None false;
  let write_component :=
    WriteComponent.with_payload_mode (path_join base_dir SSTABLE_DIR) dummy_wal manifest (rd_files root) 0
      (StorageConfig.bloom_false_positive_rate config) Inline token in
  '(raft_layer, _) ← RaftConsensusLayer.start raft_config raft_exists raft_files write_component f;
  mret (mk (KV2.mk config write_component []) 0 raft_layer).

(** *** Reading *)

Definition not_the_leader : DBError := StorageError "not the leader".
Definition get (key : bytes) : eff t (option bytes) := λ s,
  if negb (is_leader s) then (Err not_the_leader, s)
  else
    (record ← on_kv (KV2.on_read (λ open,
       ReadManager.get open (WriteComponent.mem (KV2.write_component (kv s))) key (sequence_number s)));
     mret (match record with
           | Some rec => if is_delete (MemtableRecord.record_type rec) then None else Some (MemtableRecord.value rec)
           | None => None
           end)) s.
Definition scan (range : key_range) : eff t (list (bytes * bytes)) := λ s,
  if negb (is_leader s) then (Err not_the_leader, s)
  else
    on_kv (KV2.on_read (λ open,
      ReadManager.scan_range open (WriteComponent.mem (KV2.write_component (kv s))) range (sequence_number s))) s.

(** *** Writing *)

Definition maybe_flush (ff : FlushFaults) : eff KV2.t unit := λ k,
  if WriteComponent.memtable_size (KV2.write_component k) <? StorageConfig.memtable_size_threshold (KV2.config k)
  then (Ok tt, k)
  else
    (_ ← KV2.on_write (WriteComponent.flush_active_memtable ff);
     ((λ k,
       let snapshot := ManifestManager.snapshot (WriteComponent.manifest (KV2.write_component k)) in
       let l0 := match om_get 0 (ManifestSnapshot.levels snapshot) with Some f => len f | None => 0 end in
       if StorageConfig.max_level0_files (KV2.config k) <=? l0
       then (Ok tt, KV2.mk (KV2.config k) (KV2.write_component k) (KV2.triggers k ++ [0]))
       else (Ok tt, k)) : eff KV2.t unit)) k.

(** What a write can run into: the answer to the proposal, and the flush. *)
Record ReplicateFaults : Type := mkReplicateFaults { rf_write : bytes → bool; rf_flush : FlushFaults }.

(** The body [put] and [delete] share: the sequence number is taken before the
    proposal, and a failed flush fails the write that is already applied. *)
Definition replicate (ty : RecordType) (key value : bytes) (f : ReplicateFaults) : eff t unit := λ s,
  if negb (is_leader s) then (Err not_the_leader, s)
  else
    let lsn := wrap64 (sequence_number s + 1) in
    let s := mk (kv s) lsn (raft_layer s) in
    let cmd := LogCommand.mk ty key value lsn in
    let data := LogCommand.serialize cmd in
    (_ ← pure_eff (RaftConsensusLayer.propose (rf_write f) data);
     _ ← on_kv (KV2.on_write (λ w, (Ok tt, WriteComponent.apply_replicated_command w cmd)));
     on_kv (maybe_flush (rf_flush f))) s.
Definition put (key value : bytes) (f : ReplicateFaults) : eff t unit := replicate Put key value f.
Definition delete (key : bytes) (f : ReplicateFaults) : eff t unit := replicate Delete key [] f.
Definition write_batch (operations : list BatchOperation) : eff t unit :=
  pure_eff (Err (StorageError "atomic batches are unsupported by RaftKV2")).
Definition await_pending_writes : eff t unit :=
  pure_eff (Err (StorageError "pending-write barriers are unsupported by RaftKV2")).

(** *** The worker *)

Definition run_compaction_worker (fuel : nat) (cf : CompactionFaults) (checks : option nat) : eff t unit :=
  on_kv (KV2.run_compaction_worker fuel cf checks).
(** The worker drains its channel; the memtable is not flushed. *)
Definition shutdown (fuel : nat) (cf : CompactionFaults) (checks : option nat) : eff t unit :=
  on_kv (KV2.shutdown fuel cf checks).
End engine.
End RaftKV2.

#[export] Instance RaftKV2_engine `{Crc32, FastBloom, Bincode} : AsyncKVEngine RaftKV2.t := {|
  write_fault := RaftKV2.ReplicateFaults;
  eng_get := RaftKV2.get;
  eng_put := RaftKV2.put;
  eng_delete := RaftKV2.delete;
  eng_write_batch := λ os _, RaftKV2.write_batch os;
  eng_await_pending_writes := RaftKV2.await_pending_writes;
  eng_scan := RaftKV2.scan
|}.
