(* ===== verification/RaftTheory.v ===== *)
(** * The replicated engine as a map

    On the leader, and as long as it runs, a node of the cluster serves an
    ordered map: a write whose proposal is committed is applied, whatever
    becomes of the flush that follows, one that is not committed changes
    nothing, and a node that does not lead refuses every operation. *)

From stdpp Require Import sets sorting.
From Stdlib Require Import Sorted.
From S2P Require Import Prelude Bytes OrdMap Search Record Block Bloom Index Footer LegacyBlock SSTable Preflight.
From S2P Require Import WalFormat WalAnalysis Wal WalCrash WalRefine Manifest ManifestTheory Unicode Admission Config Store Read.
From S2P Require Import ReadTheory Tables Write WriteTheory Compaction CompactionTheory Root Engine OpenTheory EngineTheory KVTheory Api KVRefine.
From S2P Require Import Frame RaftLog RaftLogTheory Generation RaftNode RaftKV.

(** ** The abstract node *)

Inductive raft_event : Type :=
| RWrite (o : BatchOperation) (committed : bool) (r : res unit)
| RBatch (os : list BatchOperation) (r : res unit)
| RGet (key : bytes) (r : res (option bytes))
| RScan (range : key_range) (r : res (list (bytes * bytes)))
| RMaintain (panicked : bool)
| RLeads (leading : bool).

(** The map, and whether the node leads. *)
Inductive raft_spec_step : ordmap bytes bytes * bool → raft_event → ordmap bytes bytes * bool → Prop :=
| rss_commit m o r : r ≠ Panic → raft_spec_step (m, true) (RWrite o true r) (apply_op m o, true)
| rss_rejected m o e : raft_spec_step (m, true) (RWrite o false (Err e)) (m, true)
| rss_refused m o c e : raft_spec_step (m, false) (RWrite o c (Err e)) (m, false)
| rss_batch st os e : raft_spec_step st (RBatch os (Err e)) st
| rss_get m key : raft_spec_step (m, true) (RGet key (Ok (om_get key m))) (m, true)
| rss_no_get m key e : raft_spec_step (m, false) (RGet key (Err e)) (m, false)
| rss_scan m range :
    raft_spec_step (m, true) (RScan range (Ok (List.filter (λ e, key_in_range (fst e) range) m))) (m, true)
| rss_no_scan m range e : raft_spec_step (m, false) (RScan range (Err e)) (m, false)
| rss_maintain st : raft_spec_step st (RMaintain false) st
| rss_leads m l l' : raft_spec_step (m, l) (RLeads l') (m, l').
Inductive raft_spec_steps : ordmap bytes bytes * bool → list raft_event → ordmap bytes bytes * bool → Prop :=
| rsps_nil st : raft_spec_steps st [] st
| rsps_cons st e st1 es st2 : raft_spec_step st e st1 → raft_spec_steps st1 es st2 → raft_spec_steps st (e :: es) st2.

(** ** Maintenance leaves the sequence number alone *)

Section sequence.
Context `{Crc32, FastBloom}.
Variables (n : Z) (c0 : StorageConfig.t).
Definition at_sequence (w : WriteComponent.t) : Prop := WriteComponent.sequence_number w = n.

Lemma rotate_sequence rf : keeps at_sequence (WriteComponent.on_wal (λ l, Wal.rotate_wal_file l rf)).
Proof. intros w Hw. unfold WriteComponent.on_wal. by destruct (Wal.rotate_wal_file _ _). Qed.
Lemma publish_sequence s fault : keeps at_sequence (WriteComponent.publish_checkpoint s fault).
Proof.
  intros w Hw. unfold WriteComponent.publish_checkpoint. destruct s as [c|]; [|done]. destruct (Wal.owns_recovery_checkpoints _ _); [|done].
  unfold mbind, eff_bind, pure_eff. destruct (Wal.trusted_recovery_position _) as [[[seg lsn]|]|e|]; [|done|done|done].
  unfold WriteComponent.on_manifest. by destruct (ManifestManager.publish_recovery_checkpoint _ _ _) as [[] ?].
Qed.
Lemma maybe_flush_sequence ff : keeps (framed at_sequence c0) (RaftKV2.maybe_flush ff).
Proof. apply (maybe_flush_frame at_sequence); try done; [apply rotate_sequence | apply publish_sequence]. Qed.
End sequence.

Section refinement.
Context `{Crc32Spec, FastBloomSpec, Hshape : !FastBloomShape} `{Bincode, SocketAddrs}.
Variables (U : MemtableRecord.t → Prop) (rate : f64).
Hypothesis HU : ∀ r, U r → recordable r.
Hypothesis Hroom : roomy rate U.
Implicit Types (s : RaftKV2.t) (k : KV2.t) (w : WriteComponent.t) (hist : list MemtableRecord.t).
Import RaftKV2.

(** ** Runs *)

(** The command of a write in a state. *)
Definition next_command s (o : BatchOperation) : LogCommand.t := command_of o (sequence_number s + 1).
Definition run_write (o : BatchOperation) (f : ReplicateFaults) : eff RaftKV2.t unit :=
  match o with BatchPut key value => put key value f | BatchDelete key => delete key f end.

Inductive raft_step : RaftKV2.t → raft_event → RaftKV2.t → Prop :=
| rst_write s o f r s' :
    ops_ok U [o] → flush_clean (rf_flush f) → sequence_number s < u64_max → run_write o f s = (r, s') →
    raft_step s (RWrite o (rf_write f (LogCommand.serialize (next_command s o))) r) s'
| rst_batch s os r s' : write_batch os s = (r, s') → raft_step s (RBatch os r) s'
| rst_get s key r s' : get key s = (r, s') → raft_step s (RGet key r) s'
| rst_scan s range r s' : scan range s = (r, s') → raft_step s (RScan range r) s'
| rst_compact s fuel cf checks r s' :
    clean (cf_publish cf) → run_compaction_worker fuel cf checks s = (r, s') → raft_step s (RMaintain (panics r)) s'
| rst_shutdown s fuel cf checks r s' :
    clean (cf_publish cf) → shutdown fuel cf checks s = (r, s') → raft_step s (RMaintain (panics r)) s'
| rst_leader s leader : raft_step s (RLeads (is_leader (set_leader s leader))) (set_leader s leader).
Inductive raft_steps : RaftKV2.t → list raft_event → RaftKV2.t → Prop :=
| rsts_nil s : raft_steps s [] s
| rsts_cons s e s1 es s2 : raft_step s e s1 → raft_steps s1 es s2 → raft_steps s (e :: es) s2.

(** ** The invariant *)

(** The sequence number of the node may be ahead of the component's. *)
Definition raft_inv s hist : Prop :=
  kv_inv U rate Unlogged (kv s) hist [] ∧ is_u64 (sequence_number s) ∧
  WriteComponent.sequence_number (KV2.write_component (kv s)) <= sequence_number s.
Definition raft_sim s (st : ordmap bytes bytes * bool) : Prop :=
  ∃ hist, raft_inv s hist ∧ views hist (fst st) ∧ is_leader s = snd st.

(** A larger sequence number hides nothing. *)
Lemma engine_sequence w hist n b seq :
  engine_at U rate Unlogged w hist [] n b → is_u64 seq → WriteComponent.sequence_number w <= seq →
  engine_at U rate Unlogged (WriteComponent.set_sequence w seq) hist [] n b.
Proof. intros [] Hs Hle. split; simpl; try done. intros r Hr%ea_le. lia. Qed.

(** ** Reads *)

Lemma raft_get_ends key s hist :
  raft_inv s hist → is_leader s = true →
  ∃ s', get key s = (Ok (visible (newest key hist)), s') ∧ raft_inv s' hist ∧ is_leader s' = true.
Proof.
  intros (Hi & Hs & Hle) Hl. pose proof Hi as [(n & b & He) _]. pose proof (engine_sequence _ _ _ _ _ He Hs Hle) as He'.
  destruct (get_runs _ _ _ _ _ key (engine_store _ _ _ _ _ _ _ _ He')) as (o & (m' & Hg & Hsm) & Hv).
  rewrite (engine_view _ _ _ _ _ _ _ _ key He') in Hv. unfold open_of in Hg. simpl in Hg.
  exists (set_kv s (KV2.set_write (kv s) (WriteComponent.set_manifest (KV2.write_component (kv s)) m'))).
  split; [|split; [split; [exact (read_keeps U rate Unlogged (kv s) m' hist [] Hi Hsm) | done] | done]].
  rewrite <- Hv. unfold get. rewrite Hl. simpl. unfold mbind, eff_bind, on_kv, KV2.on_read. rewrite Hg.
  destruct o as [r|]; [|done]. unfold mret, eff_ret. simpl. by destruct (MemtableRecord.record_type r).
Qed.
Lemma raft_scan_ends range s hist m :
  raft_inv s hist → is_leader s = true → views hist m →
  ∃ s', scan range s = (Ok (List.filter (λ e, key_in_range (fst e) range) m), s') ∧ raft_inv s' hist ∧ is_leader s' = true.
Proof.
  intros (Hi & Hs & Hle) Hl [Hw Hm]. pose proof Hi as [(n & b & He) _]. pose proof (engine_sequence _ _ _ _ _ He Hs Hle) as He'.
  destruct (scan_spec _ _ _ _ _ range (engine_store _ _ _ _ _ _ _ _ He')) as (l & m' & Hg & Hsm & Hso & Hv).
  rewrite <- (scan_filter m l range Hw Hso) by (intros; rewrite Hv, (engine_view _ _ _ _ _ _ _ _ _ He'), Hm; done).
  exists (set_kv s (KV2.set_write (kv s) (WriteComponent.set_manifest (KV2.write_component (kv s)) m'))).
  split; [|split; [split; [exact (read_keeps U rate Unlogged (kv s) m' hist [] Hi Hsm) | done] | done]].
  unfold scan. rewrite Hl. simpl. unfold on_kv, KV2.on_read. unfold open_of in Hg. simpl in Hg. by rewrite Hg.
Qed.

(** ** Writes *)

Lemma apply_keeps w hist o seq :
  engine_inv U rate Unlogged w hist [] → WriteComponent.sequence_number w <= seq → seq < u64_max → ops_ok U [o] →
  engine_inv U rate Unlogged (WriteComponent.apply_replicated_command w (command_of o (seq + 1)))
    (hist ++ [rec_of (command_of o (seq + 1))]) [] ∧
  WriteComponent.sequence_number (WriteComponent.apply_replicated_command w (command_of o (seq + 1))) = seq + 1.
Proof.
  intros (n & b & He) Hle Hlt Hok. pose proof (ea_seq _ _ _ _ _ _ _ _ He) as H64.
  set (cmd := command_of o (seq + 1)). set (l := Wal.mark_untracked_mutation (WriteComponent.wal w)).
  assert (LogCommand.lsn cmd = seq + 1) as Hlsn by (by destruct o).
  assert (WriteComponent.apply_replicated_command w cmd =
    WriteComponent.set_sequence (WriteComponent.append_all (write_of_command <$> [cmd]) (WriteComponent.set_wal w l)) (seq + 1)) as ->.
  { unfold WriteComponent.apply_replicated_command. fold l. rewrite Hlsn. cbn [WriteComponent.sequence_number WriteComponent.append_to_memtable WriteComponent.set_mem WriteComponent.set_wal].
    rewrite Z.max_r by lia. unfold WriteComponent.append_all, write_of_command. simpl. by destruct o. }
  split; [|done]. destruct (ea_log _ _ _ _ _ _ _ _ He) as (log & Hg & Ht & Hlog). exists n, b.
  change ([rec_of cmd]) with (rec_of <$> [cmd]). eapply (engine_commit U rate Unlogged HU Hroom w hist n b l log [cmd]); try done.
  - constructor; [|constructor]. unfold typed. rewrite Hlsn. word_lia.
  - repeat constructor.
  - constructor; [by destruct o | constructor].
  - intros r ->%list_elem_of_singleton. split; [apply Hok; [by left | word_lia]|]. change (MemtableRecord.lsn (rec_of cmd)) with (LogCommand.lsn cmd). lia.
  - word_lia.
  - lia.
  - apply (ea_wal _ _ _ _ _ _ _ _ He).
  - apply (ea_owner _ _ _ _ _ _ _ _ He).
Qed.
Lemma maybe_flush_ends ff k hist :
  kv_inv U rate Unlogged k hist [] → flush_clean ff →
  ends (λ k', kv_inv U rate Unlogged k' hist []) (λ _ _, True) (maybe_flush ff) k.
Proof.
  intros Hi (Hcr & Hcm & Hcp). unfold ends, maybe_flush. destruct (_ <? _); [done|].
  match goal with |- match ?p k with _ => _ end => change (ends (λ k', kv_inv U rate Unlogged k' hist []) (λ _ _, True) p k) end.
  destruct Hi as [Hi Hr]. eapply ends_bind; [apply on_write_ends; [by apply flush_ends | done]|].
  intros x k1 [Hi1 Hr1] _. unfold ends. by destruct (_ <=? _).
Qed.

(** A write on the leader. *)
Lemma raft_write_ends o f s hist :
  raft_inv s hist → is_leader s = true → ops_ok U [o] → flush_clean (rf_flush f) → sequence_number s < u64_max →
  let committed := rf_write f (LogCommand.serialize (next_command s o)) in
  match run_write o f s with
  | (Panic, _) => False
  | (r, s') =>
      (committed = false → is_Err r) ∧ is_leader s' = true ∧
      raft_inv s' (if committed then hist ++ [rec_of (next_command s o)] else hist)
  end.
Proof.
  intros (Hi & Hs & Hle) Hl Hok Hfc Hlt. unfold next_command. cbv zeta.
  assert (run_write o f = replicate (LogCommand.record_type (command_of o 0)) (LogCommand.key (command_of o 0))
    (LogCommand.value (command_of o 0)) f) as -> by (by destruct o).
  unfold replicate. rewrite Hl. cbn [negb]. rewrite wrap64_id by word_lia.
  replace (LogCommand.mk _ _ _ _) with (command_of o (sequence_number s + 1)) by (by destruct o).
  set (cmd := command_of o (sequence_number s + 1)). set (lsn := sequence_number s + 1) in *.
  unfold mbind, eff_bind, pure_eff, RaftConsensusLayer.propose. destruct (rf_write f (LogCommand.serialize cmd)); cbn [guard_err].
  2: { split; [by eexists|]. split; [done|]. split; [done|]. cbn. split; [word_lia | lia]. }
  destruct Hi as [Hi Hr]. destruct (apply_keeps _ _ _ _ Hi Hle Hlt Hok) as [Hi' Hsq]. fold lsn cmd in Hi', Hsq.
  unfold on_kv, KV2.on_write. cbn [kv set_kv].
  set (k := KV2.set_write (kv s) (WriteComponent.apply_replicated_command (KV2.write_component (kv s)) cmd)).
  assert (kv_inv U rate Unlogged k (hist ++ [rec_of cmd]) []) as Hk by (by split).
  pose proof (maybe_flush_ends (rf_flush f) k _ Hk Hfc) as He. unfold ends in He.
  pose proof (maybe_flush_sequence lsn (KV2.config k) (rf_flush f) k (conj Hsq eq_refl)) as [Hseq _]. unfold at_sequence in Hseq.
  destruct (maybe_flush (rf_flush f) k) as [[u|e|] k']; cbn [snd] in Hseq; [| |done].
  - split; [done|]. split; [done|]. split; [apply He|]. cbn. rewrite Hseq. split; [word_lia | lia].
  - split; [done|]. split; [done|]. split; [done|]. cbn. rewrite Hseq. split; [word_lia | lia].
Qed.

(** Maintenance of the engine below. *)
Lemma raft_keeps_sim (p : eff KV2.t unit) s st :
  raft_sim s st → (∀ hist, kv_inv U rate Unlogged (kv s) hist [] → ends (λ k, kv_inv U rate Unlogged k hist []) (λ _ _, True) p (kv s)) →
  (∀ n c, keeps (framed (at_sequence n) c) p) →
  raft_spec_step st (RMaintain (panics (on_kv p s).1)) st ∧ raft_sim (on_kv p s).2 st.
Proof.
  intros (hist & (Hi & Hs & Hle) & Hv & Hl) He Hk. specialize (He hist Hi). unfold ends in He.
  specialize (Hk _ (KV2.config (kv s)) (kv s) (conj eq_refl eq_refl)). destruct Hk as [Hk _]. unfold at_sequence in Hk.
  unfold on_kv. destruct (p (kv s)) as [[a|e|] k']; cbn [fst snd panics] in *; [| |done].
  - split; [destruct st; constructor|]. exists hist. split; [|done]. split; [apply He|]. split; [done|]. cbn. lia.
  - split; [destruct st; constructor|]. exists hist. split; [|done]. split; [done|]. split; [done|]. cbn. lia.
Qed.
Lemma raft_write_sim o f s st :
  raft_sim s st → ops_ok U [o] → flush_clean (rf_flush f) → sequence_number s < u64_max →
  ∃ st', raft_spec_step st (RWrite o (rf_write f (LogCommand.serialize (next_command s o))) (run_write o f s).1) st' ∧
    raft_sim (run_write o f s).2 st'.
Proof.
  destruct st as [m []]; intros (hist & Hi & Hv & Hl) Hok Hfc Hlt; cbn [fst snd] in *.
  - pose proof (raft_write_ends o f s hist Hi Hl Hok Hfc Hlt) as Hw. cbv zeta in Hw.
    destruct (rf_write f _) eqn:Hc.
    + exists (apply_op m o, true). destruct (run_write o f s) as [r s']. cbn [fst snd].
      assert (r ≠ Panic ∧ is_leader s' = true ∧ raft_inv s' (hist ++ [rec_of (next_command s o)])) as (Hr & Hl' & Hi').
      { destruct r; [| |done]; by destruct Hw as (_ & ? & ?). }
      split; [by constructor|]. exists (hist ++ [rec_of (next_command s o)]). split; [done|]. split; [|done].
      apply views_snoc; [|done]. destruct Hi' as [[(n & b & He) _] _]. by eapply ea_hist.
    + exists (m, true). destruct (run_write o f s) as [r s']. cbn [fst snd].
      destruct r as [u|e|]; [| |done]; destruct Hw as (He & Hl' & Hi'); [by destruct (He eq_refl)|].
      split; [constructor|]. by exists hist.
  - exists (m, false). assert (run_write o f s = (Err not_the_leader, s)) as ->.
    { destruct o; unfold run_write, put, delete, replicate; by rewrite Hl. }
    split; [constructor|]. by exists hist.
Qed.
Lemma raft_sim_step s e s' st : raft_step s e s' → raft_sim s st → ∃ st', raft_spec_step st e st' ∧ raft_sim s' st'.
Proof.
  intros Hstep Hsim. inversion Hstep as [? o f r ? Hok Hfc Hlt Hr|? os r ? Hr|? key r ? Hr|? range r ? Hr
    |? fuel cf checks r ? Hcl Hr|? fuel cf checks r ? Hcl Hr|? leader]; subst.
  - destruct (raft_write_sim o f s st Hsim Hok Hfc Hlt) as (st' & Hst & Hsim'). rewrite Hr in Hst, Hsim'. by exists st'.
  - injection Hr as <- <-. exists st. split; [constructor | done].
  - destruct st as [m []], Hsim as (hist & Hi & Hv & Hl); cbn [fst snd] in *.
    + destruct (raft_get_ends key s hist Hi Hl) as (s2 & Hg & Hi' & Hl'). rewrite Hr in Hg. injection Hg as -> ->.
      exists (m, true). rewrite <- (proj2 Hv). split; [constructor | by exists hist].
    + unfold get in Hr. rewrite Hl in Hr. injection Hr as <- <-. exists (m, false). split; [constructor | by exists hist].
  - destruct st as [m []], Hsim as (hist & Hi & Hv & Hl); cbn [fst snd] in *.
    + destruct (raft_scan_ends range s hist m Hi Hl Hv) as (s2 & Hg & Hi' & Hl'). rewrite Hr in Hg. injection Hg as -> ->.
      exists (m, true). split; [constructor | by exists hist].
    + unfold scan in Hr. rewrite Hl in Hr. injection Hr as <- <-. exists (m, false). split; [constructor | by exists hist].
  - destruct (raft_keeps_sim (KV2.run_compaction_worker fuel cf checks) s st Hsim) as [Hst Hsm].
    { intros hist Hi. by apply worker_ends. }
    { intros n c. by apply worker_frame. }
    unfold run_compaction_worker in Hr. rewrite Hr in Hst, Hsm. by exists st.
  - destruct (raft_keeps_sim (KV2.shutdown fuel cf checks) s st Hsim) as [Hst Hsm].
    { intros hist Hi. by apply shutdown_ends. }
    { intros n c. by apply shutdown_frame. }
    unfold shutdown in Hr. rewrite Hr in Hst, Hsm. by exists st.
  - destruct st as [m l], Hsim as (hist & Hi & Hv & Hl). eexists (m, _). split; [constructor|]. by exists hist.
Qed.
Lemma raft_sim_steps s es s' st : raft_steps s es s' → raft_sim s st → ∃ st', raft_spec_steps st es st' ∧ raft_sim s' st'.
Proof.
  intros Hs. revert st. induction Hs as [s|s e s1 es s2 Hst _ IH]; intros st Hsim; [exists st; split; [constructor | done]|].
  destruct (raft_sim_step s e s1 st Hst Hsim) as (st1 & Hq1 & Hsim1). destruct (IH st1 Hsim1) as (st2 & Hq2 & Hsim2).
  exists st2. split; [by econstructor | done].
Qed.

(** A new node. *)
Lemma raft_fresh base ex config token rc rex rfiles f s :
  utf8_valid (path_join base SSTABLE_DIR) = true → StorageConfig.bloom_false_positive_rate config = rate →
  RaftKV2.open base (fresh_root ex) config token rc rex rfiles f = Ok s → raft_sim s ([], false).
Proof.
  intros Hdir Hrate Ho. unfold RaftKV2.open, fresh_root in Ho. cbn [rd_exists rd_manifest rd_wal rd_files] in Ho.
  apply res_bind_Ok in Ho as (u & _ & Ho). apply res_bind_Ok in Ho as (m & Hm & Ho). apply res_bind_Ok in Ho as (l & Hw & Ho).
  apply res_bind_Ok in Ho as ([layer sm] & Hst & [= <-]).
  destruct (fresh_catalogue m Hm) as (Hc & Hl & Hr). pose proof (fresh_good _ _ _ Hw) as Hg.
  assert (Wal.checkpoint_owner l = false ∧ Wal.checkpoint l = None ∧ wal_typed l) as (Hown & Hck & Hty).
  { injection Hw as <-. split; [done|]. split; [done|]. split; [done|]. by repeat constructor. }
  assert (RaftConsensusLayer.leader layer = None) as Hlead.
  { unfold RaftConsensusLayer.start in Hst. by repeat (apply res_bind_Ok in Hst as (? & _ & Hst)); injection Hst as <- <-. }
  exists []. split; [|split; [split; [apply om_wf_nil | done]|]].
  2: { unfold is_leader, RaftConsensusLayer.is_leader. simpl. rewrite Hlead. done. }
  unfold WriteComponent.with_payload_mode, Wal.register_checkpoint_owner. rewrite Hown. cbn [negb orb].
  split; [|done]. split; [|done]. exists O, O. cbn [kv KV2.write_component].
  assert (shows m [] [] 0) as Hsh by (unfold shows, catalogue_records; rewrite Hl; split; [by intros r ?%elem_of_nil | done]).
  split; simpl; try done.
  - constructor.
  - by intros r ?%elem_of_nil.
  - by intros r ?%elem_of_nil.
  - split; [apply om_wf_nil | constructor].
  - exists []. split; [done|]. split; [apply Forall_nil; exact I | done].
  - by rewrite Hck, Hr.
  - by rewrite Hr.
Qed.
End refinement.

(** ** The state machine *)

Section machine.
Context `{OpenRaft}.
Import KVStateMachine.

(** The membership after some entries: the last one among them, if any. *)
Definition last_membership (es : list Entry.t) : option StoredMembership :=
  last (omap (λ e, match Entry.payload e with
                   | MembershipPayload m => Some (stored_membership (Some (Entry.log_id e)) m)
                   | _ => None end) es).
Lemma apply_from es results s :
  ∃ s', foldl apply_entry (results, s) es = (results ++ repeat [] (length es), s') ∧
    write_component s' = write_component s ∧
    SMInner.last_applied (inner s') = from_option Some (SMInner.last_applied (inner s)) (Entry.log_id <$> last es) ∧
    SMInner.membership (inner s') = default (SMInner.membership (inner s)) (last_membership es).
Proof.
  revert results s. induction es as [|e es IH]; intros results s; [exists s; by rewrite app_nil_r|].
  cbn [foldl]. destruct (apply_entry (results, s) e) as [rs s1] eqn:He.
  destruct (IH rs s1) as (s' & -> & Hw & Hl & Hm). exists s'.
  assert (rs = results ++ [[]] ∧ write_component s1 = write_component s ∧ SMInner.last_applied (inner s1) = Some (Entry.log_id e) ∧
    SMInner.membership (inner s1) = default (SMInner.membership (inner s)) (last_membership [e])) as (-> & Hw1 & Hl1 & Hm1).
  { unfold apply_entry in He. unfold last_membership. simpl.
    destruct (Entry.payload e); injection He as <- <-; done. }
  split; [by rewrite <- (assoc_L (++))|]. split; [congruence|]. split.
  - rewrite Hl, Hl1, last_cons. by destruct (last es).
  - rewrite Hm, Hm1. unfold last_membership. cbn [omap list_omap].
    destruct (match Entry.payload e with MembershipPayload m => Some _ | _ => None end) as [x|]; [|done].
    rewrite !last_cons. by destruct (last (omap _ es)).
Qed.
End machine.

(** ** Requests between nodes *)

(** A URL is its scheme, the authority up to the next slash, and the path. *)
Fixpoint until_slash (piece : bytes) (s : bytes) : bytes * bytes :=
  match s with
  | [] => (rev piece, [])
  | b :: rest => if bool_decide (b = x2f) then (rev piece, s) else until_slash (b :: piece) rest
  end.
Definition http_target (url : bytes) : option (bytes * bytes) :=
  if bytes_eqb (take 7 url) (bytes_of_string "http://") then Some (until_slash [] (drop 7 url)) else None.

Lemma until_slash_addr piece addr path :
  x2f ∉ addr → until_slash piece (addr ++ x2f :: path) = (rev piece ++ addr, x2f :: path).
Proof.
  revert piece. induction addr as [|b addr IH]; intros piece Hn; simpl; [by rewrite app_nil_r|].
  apply not_elem_of_cons in Hn as [Hb Hn]. rewrite bool_decide_false by done. rewrite IH by done. simpl. by rewrite <- (assoc_L (++)).
Qed.
(** The three requests a client of a listed peer sends go to the address of the
    peer, and the server there routes each to the handler of its kind. *)
Lemma peer_requests_routed (net : RaftHttpNetwork.t) id addr :
  RaftHttpNetwork.url_for net id = Some addr → x2f ∉ addr →
  Forall (λ p : bytes * Server.Handler,
    ∃ path, http_target (RaftHttpClient.target_url (RaftHttpNetwork.new_client net id) ++ fst p) = Some (addr, path) ∧
      Server.route Server.POST path = Some (snd p))
    [(bytes_of_string "/raft/append_entries", Server.HandleAppendEntries);
     (bytes_of_string "/raft/install_snapshot", Server.HandleInstallSnapshot);
     (bytes_of_string "/raft/vote", Server.HandleVote)].
Proof.
  intros Hu Hn. unfold RaftHttpNetwork.new_client. rewrite Hu. cbn [default RaftHttpClient.target_url].
  assert (∀ path, http_target ((bytes_of_string "http://" ++ addr) ++ x2f :: path) = Some (addr, x2f :: path)) as Ht.
  { intros path. rewrite <- (assoc_L (++)). unfold http_target.
    change (take 7 _) with (bytes_of_string "http://"). change (drop 7 (_ ++ ?x)) with x.
    by rewrite until_slash_addr. }
  repeat constructor; eexists; (split; [apply Ht | reflexivity]).
Qed.

(** ** Peers *)

(** A malformed peer is skipped and disturbs no other. *)
Lemma split_at_app sep piece x y : split_at sep piece (x ++ sep :: y) = split_at sep piece x ++ split_at sep [] y.
Proof.
  revert piece. induction x as [|b x IH]; intros piece; simpl; [by rewrite bool_decide_true|].
  case_bool_decide; by rewrite IH.
Qed.
Lemma parse_peers_app `{Unicode} x y : parse_peers (x ++ x2c :: y) = parse_peers x ++ parse_peers y.
Proof. unfold parse_peers. by rewrite split_at_app, List.filter_app, omap_app. Qed.

(** ** Properties *)

Section props.
Context `{Crc32Spec, FastBloomSpec, Hshape : !FastBloomShape} `{Bincode, SocketAddrs}.
Variables (U : MemtableRecord.t → Prop) (rate : f64).
Hypothesis HU : ∀ r, U r → recordable r.
Hypothesis Hroom : roomy rate U.

End props.

Section machine_props.
Context `{OpenRaft}.

End machine_props.

(** ** Witnesses *)

Definition toy_addrs : SocketAddrs := {| SocketAddr := unit; parse_addr := λ _, Some tt |}.
Definition toy_node : @RaftNodeConfig.t toy_addrs := @RaftNodeConfig.mk toy_addrs 1 [(2, bytes_of_string "b:2")] tt [x72].
Definition toy_start : RaftConsensusLayer.StartFaults :=
  RaftConsensusLayer.mkStartFaults LogStore.no_open_faults false false None.
Definition toy_open (root : RootDisk) : res (@RaftKV2.t toy_raft) :=
  @RaftKV2.open ieee toy_raft toy_bincode toy_addrs [x64] root kv_config 7 toy_node kv_none [] toy_start.
Definition toy_state (r : res (@RaftKV2.t toy_raft)) : @RaftKV2.t toy_raft :=
  match r with
  | Ok s => s
  | _ => @RaftKV2.mk toy_raft kv_state0 0 (@RaftConsensusLayer.mk toy_raft toy_log0 (RaftHttpNetwork.mk []) 1 None)
  end.
Definition toy_commits : RaftKV2.ReplicateFaults := RaftKV2.mkReplicateFaults (λ _, true) no_faults.
Definition toy_rejects : RaftKV2.ReplicateFaults := RaftKV2.mkReplicateFaults (λ _, false) no_faults.
(** The write is applied and its flush fails. *)
Definition toy_no_table : RaftKV2.ReplicateFaults :=
  RaftKV2.mkReplicateFaults (λ _, true) (mkFlushFaults (Some OtherIo) None None None None None).
Definition toy_run (o : BatchOperation) (f : RaftKV2.ReplicateFaults) (s : @RaftKV2.t toy_raft) :=
  @run_write ieee toy_fastbloom toy_raft o f s.

Definition raft_state0 : @RaftKV2.t toy_raft := Eval vm_compute in toy_state (toy_open (fresh_root kv_none)).
Definition raft_state1 : @RaftKV2.t toy_raft := Eval vm_compute in RaftKV2.set_leader raft_state0 (Some 1).
Definition raft_state2 : @RaftKV2.t toy_raft := Eval vm_compute in (toy_run kv_op1 toy_no_table raft_state1).2.
Definition raft_state3 : @RaftKV2.t toy_raft := Eval vm_compute in (toy_run kv_op2 toy_rejects raft_state2).2.
Definition raft_state4 : @RaftKV2.t toy_raft := Eval vm_compute in (@RaftKV2.scan ieee toy_fastbloom toy_raft kv_all raft_state3).2.
Definition raft_events : list raft_event :=
  [RGet [x61] (Err RaftKV2.not_the_leader); RLeads true; RWrite kv_op1 true (Err (IO OtherIo));
   RWrite kv_op2 false (Err (StorageError "raft client_write")); RScan kv_all (Ok [([x61], [x31; x32; x33; x34])])].

Lemma raft_opens : toy_open (fresh_root kv_none) = Ok raft_state0.
Proof. vm_compute. reflexivity. Qed.
Lemma raft_run : @raft_steps ieee toy_fastbloom toy_raft kv_universe raft_state0 raft_events raft_state4.
Proof.
  apply (rsts_cons _ _ _ raft_state0); [apply rst_get; vm_compute; reflexivity|].
  apply (rsts_cons _ _ _ raft_state1); [exact (@rst_leader ieee toy_fastbloom toy_raft kv_universe raft_state0 (Some 1))|].
  apply (rsts_cons _ _ _ raft_state2).
  { apply (@rst_write ieee toy_fastbloom toy_raft kv_universe raft_state1 kv_op1 toy_no_table); [apply kv_ops_ok; set_solver | done | done | vm_compute; reflexivity]. }
  apply (rsts_cons _ _ _ raft_state3).
  { apply (@rst_write ieee toy_fastbloom toy_raft kv_universe raft_state2 kv_op2 toy_rejects); [apply kv_ops_ok; set_solver | done | done | vm_compute; reflexivity]. }
  apply (rsts_cons _ _ _ raft_state4); [apply rst_scan; vm_compute; reflexivity | constructor].
Qed.

(** *** A restart *)

(** A committed put that is flushed, one that is not, and the node opened again
    over its own files and made the leader. *)
Definition raft_flushed : @RaftKV2.t toy_raft := Eval vm_compute in (toy_run kv_op1 toy_commits raft_state1).2.
Definition raft_before : @RaftKV2.t toy_raft := Eval vm_compute in (toy_run kv_op2 toy_commits raft_flushed).2.
Definition raft_after : @RaftKV2.t toy_raft :=
  Eval vm_compute in RaftKV2.set_leader (toy_state (toy_open (root_of kv_none (RaftKV2.kv raft_before)))) (Some 1).

