(* ===== verification/Durable.v ===== *)
(** * Durable directories: [src/src/storage/durable_dir.rs]

    Making a directory survive a crash takes a sync of every directory whose
    entries lead to it.  [create_dir_all_durable] walks the path as the file
    system resolves it, through symbolic links and parent references, and syncs
    every directory it met and their ancestors.  What the file system answers is
    a parameter; a resolved path is the list of its names from the root. *)

From S2P Require Import Prelude Bytes OrdMap Manifest Config Read Write Generation Store.

(** [symlink_metadata] with [read_link], and [canonicalize]. *)
Inductive Node : Type := Present | Link (target : bytes).
Record DirFacts : Type := mkDirFacts {
  lstat : list bytes → res Node;
  canonical : list bytes → res (list bytes)
}.

Definition MAX_LINKS : nat := 40.

(** The components to walk: a root component is dropped. *)
Definition pending_of (cs : list Component) : list Component :=
  List.filter (λ c, negb (bool_decide (c = RootComponent))) cs.
Definition is_absolute (cs : list Component) : bool := bool_decide (head cs = Some RootComponent).

(** What the walk has: where it is, the directories it went through, and those
    that hold the links it followed. *)
Record Walk : Type := mkWalk {
  resolved : list bytes; traversed : list (list bytes); link_parents : list (list bytes)
}.
(** The loop over the pending components; [hops] links may still be followed.
    [PathBuf::pop] of the root leaves the root. *)
Fixpoint walk (fs : DirFacts) (hops : nat) : list Component → Walk → res Walk :=
  fix go (pending : list Component) (s : Walk) : res Walk :=
    match pending with
    | [] => mret s
    | component :: pending =>
        match component with
        | CurDir => go pending s
        | ParentDir =>
            go pending (mkWalk (take (pred (length (resolved s))) (resolved s)) (traversed s ++ [resolved s]) (link_parents s))
        | RootComponent => go pending s
        | Normal name =>
            let candidate := resolved s ++ [name] in
            metadata ← lstat fs candidate;
            match metadata with
            | Link target =>
                match hops with
                | O => Err (IO OtherIo)
                | S hops =>
                    let target_components := components target in
                    let s := mkWalk (resolved s) (traversed s) (link_parents s ++ [resolved s]) in
                    let s := if is_absolute target_components then mkWalk [] (traversed s ++ [[]]) (link_parents s) else s in
                    walk fs hops (pending_of target_components ++ pending) s
                end
            | Present => go pending (mkWalk candidate (traversed s ++ [candidate]) (link_parents s))
            end
        end
    end.

(** A path, its parent, and so on to the root. *)
Fixpoint prefixes {A} (l : list A) : list (list A) :=
  [] :: match l with [] => [] | x :: l => (x ::.) <$> prefixes l end.
Definition upwards (path : list bytes) : list (list bytes) := rev (prefixes path).
Fixpoint add_canonical (fs : DirFacts) (chain : list (list bytes)) (paths : list (list bytes)) : res (list (list bytes)) :=
  match paths with
  | [] => mret chain
  | path :: paths =>
      c ← canonical fs path;
      add_canonical fs (if bool_decide (c ∈ chain) then chain else chain ++ [c]) paths
  end.
(** [path] is absolute. *)
Definition resolved_sync_chain (fs : DirFacts) (path : list Component) : res (list (list bytes)) :=
  w ← walk fs MAX_LINKS (pending_of path) (mkWalk [] [[]] []);
  add_canonical fs [] ((resolved w :: traversed w ++ link_parents w) ≫= upwards).

(** The state is the directories synced so far, in order; [fault] is the error
    of syncing one. *)
Definition sync_directory (fault : list bytes → option io_kind) (path : list bytes) : eff (list (list bytes)) unit := λ synced,
  match fault path with
  | Some k => (Err (IO k), synced)
  | None => (Ok tt, synced ++ [path])
  end.
Fixpoint sync_chain (fault : list bytes → option io_kind) (chain : list (list bytes)) : eff (list (list bytes)) unit :=
  match chain with
  | [] => mret tt
  | directory :: chain => _ ← sync_directory fault directory; sync_chain fault chain
  end.
(** [metadata] says whether the path is a directory, if it exists; [created]
    is the result of [create_dir_all], after which [fs] describes the file
    system; [cwd] is the current directory. *)
Definition create_dir_all_durable (metadata : option bool) (created : option io_kind) (cwd : res (list Component))
    (fs : DirFacts) (fault : list bytes → option io_kind) (path : bytes) : eff (list (list bytes)) unit :=
  _ ← pure_eff (guard_err (negb (bool_decide (metadata = Some false))) (StorageError "not a directory"));
  _ ← pure_eff (match created with Some k => Err (IO k) | None => Ok tt end);
  absolute_path ← pure_eff (if is_absolute (components path) then Ok (components path)
                            else cwd ← cwd; Ok (cwd ++ components path));
  chain ← pure_eff (resolved_sync_chain fs absolute_path);
  sync_chain fault chain.
(** [fault] by the parent of the path, [.] when it has none. *)
Definition sync_parent (fault : list Component → option io_kind) (path : bytes) : res unit :=
  let cs := components path in
  let parent := take (pred (length cs)) cs in
  match fault (if bool_decide (parent = []) then [CurDir] else parent) with
  | Some k => Err (IO k)
  | None => Ok tt
  end.

(** ** Resolution *)

(** How the file system resolves a path, one component at a time; the flag says
    whether a link was followed. *)
Inductive resolve_step (fs : DirFacts) : list bytes * list Component → bool → list bytes * list Component → Prop :=
| rs_here d p : resolve_step fs (d, CurDir :: p) false (d, p)
| rs_up d p : resolve_step fs (d, ParentDir :: p) false (take (pred (length d)) d, p)
| rs_down d n p : lstat fs (d ++ [n]) = Ok Present → resolve_step fs (d, Normal n :: p) false (d ++ [n], p)
| rs_link d n p t : lstat fs (d ++ [n]) = Ok (Link t) →
    resolve_step fs (d, Normal n :: p) true
      (if is_absolute (components t) then [] else d, pending_of (components t) ++ p).
Inductive resolves (fs : DirFacts) : list bytes * list Component → nat → list bytes * list Component → Prop :=
| res_stop s : resolves fs s O s
| res_step s l s1 n s2 : resolve_step fs s l s1 → resolves fs s1 n s2 → resolves fs s (Nat.b2n l + n) s2.

(** The walk has gone through the directory, or through one below it. *)
Definition covered (ds : list (list bytes)) (d : list bytes) : Prop := ∃ e, e ∈ ds ∧ d `prefix_of` e.

Lemma covered_app ds ds' d : covered ds d → covered (ds ++ ds') d.
Proof. intros (e & He & Hp). exists e. split; [|done]. apply elem_of_app. by left. Qed.
Lemma covered_snoc ds d : covered (ds ++ [d]) d.
Proof. exists d. split; [|done]. apply elem_of_app. right. by left. Qed.
Lemma covered_pop ds d : covered ds d → covered ds (take (pred (length d)) d).
Proof. intros (e & He & Hp). exists e. split; [done|]. etrans; [|exact Hp]. apply prefix_take. Qed.

(** No component of a pending path is the root. *)
Definition rootless (p : list Component) : Prop := RootComponent ∉ p.
Lemma pending_rootless cs : rootless (pending_of cs).
Proof.
  unfold rootless, pending_of. intros Hin%list_elem_of_In%List.filter_In. by destruct Hin as [_ Hn]; rewrite bool_decide_true in Hn.
Qed.
Lemma rootless_app p q : rootless p → rootless q → rootless (p ++ q).
Proof. unfold rootless. rewrite elem_of_app. tauto. Qed.

Section walk.
Variable fs : DirFacts.
Implicit Types (s w : Walk) (p : list Component).

Lemma walk_cons hops c p s :
  walk fs hops (c :: p) s =
  match c with
  | CurDir | RootComponent => walk fs hops p s
  | ParentDir => walk fs hops p (mkWalk (take (pred (length (resolved s))) (resolved s)) (traversed s ++ [resolved s]) (link_parents s))
  | Normal name =>
      lstat fs (resolved s ++ [name]) ≫= λ metadata,
        match metadata with
        | Link target =>
            match hops with
            | O => Err (IO OtherIo)
            | S hops =>
                walk fs hops (pending_of (components target) ++ p)
                  (if is_absolute (components target)
                   then mkWalk [] (traversed s ++ [[]]) (link_parents s ++ [resolved s])
                   else mkWalk (resolved s) (traversed s) (link_parents s ++ [resolved s]))
            end
        | Present => walk fs hops p (mkWalk (resolved s ++ [name]) (traversed s ++ [resolved s ++ [name]]) (link_parents s))
        end
  end.
Proof. by destruct hops, c. Qed.
Lemma walk_nil hops s : walk fs hops [] s = Ok s.
Proof. by destruct hops. Qed.

(** The walk goes where the file system goes, and keeps every directory. *)
Lemma walk_follows hops p s w :
  rootless p → covered (traversed s) (resolved s) → walk fs hops p s = Ok w →
  (∀ d, covered (traversed s) d → covered (traversed w) d) ∧
  (∀ n d q, resolves fs (resolved s, p) n (d, q) → covered (traversed w) d) ∧
  ∃ n, (n <= hops)%nat ∧ resolves fs (resolved s, p) n (resolved w, []).
Proof.
  revert p s. induction hops as [hops IHh] using lt_wf_ind. intros p. induction p as [|c p IH]; intros s Hr Hc Hw.
  { rewrite walk_nil in Hw. injection Hw as <-. split; [done|]. split; [|exists O; split; [lia | constructor]].
    intros n d q Hs. inversion Hs as [|? ? ? ? ? Hstep]; subst; [done | inversion Hstep]. }
  apply not_elem_of_cons in Hr as [Hne Hr]. rewrite walk_cons in Hw.
  (* one step of the walk that is one of the resolution *)
  assert (∀ l s1 h1 p1, resolve_step fs (resolved s, c :: p) l (resolved s1, p1) → (Nat.b2n l + h1 <= hops)%nat →
    (∀ l' x, resolve_step fs (resolved s, c :: p) l' x → x = (resolved s1, p1)) →
    (∀ d, covered (traversed s) d → covered (traversed s1) d) →
    ((∀ d, covered (traversed s1) d → covered (traversed w) d) ∧
     (∀ n d q, resolves fs (resolved s1, p1) n (d, q) → covered (traversed w) d) ∧
     ∃ n, (n <= h1)%nat ∧ resolves fs (resolved s1, p1) n (resolved w, [])) →
    (∀ d, covered (traversed s) d → covered (traversed w) d) ∧
    (∀ n d q, resolves fs (resolved s, c :: p) n (d, q) → covered (traversed w) d) ∧
    ∃ n, (n <= hops)%nat ∧ resolves fs (resolved s, c :: p) n (resolved w, [])) as Hone.
  { intros l s1 h1 p1 Hst Hh Hdet Hm (Hq1 & Hq2 & n & Hn & Hq3). split; [auto|]. split.
    - intros n' d q Hs. inversion Hs as [|? l' x n2 ? Hst' Hs']; subst; [auto|]. apply Hdet in Hst' as ->. by eapply Hq2.
    - exists (Nat.b2n l + n)%nat. split; [lia|]. by econstructor. }
  destruct c as [| | |name]; [done | | |].
  - apply (Hone false s hops p); [constructor | simpl; lia | by inversion 1 | done | by apply IH].
  - match type of Hw with walk _ _ _ ?s1 = _ => apply (Hone false s1 hops p) end;
      [apply rs_up | simpl; lia | by inversion 1 | | apply IH; [done | | exact Hw]].
    + intros d. apply covered_app.
    + apply covered_pop, covered_snoc.
  - destruct (lstat fs (resolved s ++ [name])) as [[|t]|e|] eqn:Hl; [| |done|done]; cbn [mbind res_bind] in Hw.
    + match type of Hw with walk _ _ _ ?s1 = _ => apply (Hone false s1 hops p) end;
        [by apply rs_down | simpl; lia | | | apply IH; [done | | exact Hw]].
      * inversion 1; subst; [done | congruence].
      * intros d. apply covered_app.
      * apply covered_snoc.
    + destruct hops as [|hops]; [done|].
      set (s1 := if is_absolute (components t) then _ else _) in Hw.
      assert (resolved s1 = if is_absolute (components t) then [] else resolved s) as Hs1 by (unfold s1; by destruct (is_absolute _)).
      apply (Hone true s1 hops (pending_of (components t) ++ p)).
      * rewrite Hs1. by apply rs_link.
      * simpl. lia.
      * rewrite Hs1. intros l' x Hx. inversion Hx as [| |? ? ? Hl'|? ? ? t' Hl']; subst; rewrite Hl in Hl'; [done|]. by injection Hl' as <-.
      * intros d. unfold s1. destruct (is_absolute _); [apply covered_app | done].
      * apply (IHh hops); [lia | by apply rootless_app; [apply pending_rootless|] | | done].
        unfold s1. destruct (is_absolute _); [apply covered_snoc | done].
Qed.
(** A path that resolves through few enough links is walked to its end. *)
Lemma walk_reaches x n d :
  resolves fs x n (d, []) → ∀ hops s, x.1 = resolved s → (n <= hops)%nat → ∃ w, walk fs hops x.2 s = Ok w ∧ resolved w = d.
Proof.
  intros Hs. remember (d, []) as y eqn:Hy. revert Hy. induction Hs as [x|x l x1 n x2 Hst _ IH]; intros -> hops s Hx Hh.
  { exists s. by rewrite walk_nil. }
  destruct Hst as [d1 p|d1 p|d1 nm p Hl|d1 nm p t Hl]; cbn [fst snd] in *; subst d1; rewrite walk_cons; try rewrite Hl; cbn [mbind res_bind];
    try (apply IH; [done | done | simpl in Hh; lia]).
  destruct hops as [|hops]; [simpl in Hh; lia|]. apply IH; [done | by destruct (is_absolute _) | simpl in Hh; lia].
Qed.

(** ** The chain *)

Lemma elem_of_prefixes {A} (l q : list A) : q ∈ prefixes l ↔ q `prefix_of` l.
Proof.
  revert q. induction l as [|x l IH]; intros q; simpl.
  - rewrite list_elem_of_singleton. split; [by intros -> | by intros ->%prefix_nil_inv].
  - rewrite elem_of_cons, list_elem_of_fmap. split.
    + intros [->|(y & -> & Hy%IH)]; [apply prefix_nil | by apply prefix_cons].
    + destruct q as [|z q]; [by left|]. intros Hp. pose proof (prefix_cons_inv_1 _ _ _ _ Hp) as ->.
      right. exists q. split; [done|]. apply IH. by eapply prefix_cons_inv_2.
Qed.
Lemma add_canonical_spec paths chain chain' :
  add_canonical fs chain paths = Ok chain' →
  chain `prefix_of` chain' ∧ (∀ q, q ∈ paths → ∃ c, canonical fs q = Ok c ∧ c ∈ chain') ∧ (NoDup chain → NoDup chain').
Proof.
  revert chain. induction paths as [|q paths IH]; intros chain; cbn [add_canonical].
  { intros [= <-]. split; [done|]. split; [by intros q ?%elem_of_nil | done]. }
  intros (c & Hc & Ha)%res_bind_Ok. apply IH in Ha as (Hq1 & Hq2 & Hq3).
  assert (c ∈ chain') as Hin.
  { destruct Hq1 as [k ->]. apply elem_of_app. left. case_bool_decide; [done|]. apply elem_of_app. right. by left. }
  split; [etrans; [|exact Hq1]; case_bool_decide; [done | apply prefix_app_r; done]|]. split.
  - intros q' [->|Hq]%elem_of_cons; [by exists c | auto].
  - intros Hn. apply Hq3. case_bool_decide as Hd; [done|]. apply NoDup_app.
    split; [done|]. split; [by intros x Hx ->%list_elem_of_singleton | apply NoDup_singleton].
Qed.
Lemma add_canonical_total paths chain :
  (∀ q, is_Ok (canonical fs q)) → ∃ chain', add_canonical fs chain paths = Ok chain'.
Proof.
  intros Hc. revert chain. induction paths as [|q paths IH]; intros chain; [by exists chain|].
  cbn [add_canonical]. destruct (Hc q) as [c ->]. apply IH.
Qed.
Lemma sync_chain_all fault chain ds u ds' : sync_chain fault chain ds = (Ok u, ds') → ds' = ds ++ chain.
Proof.
  revert ds. induction chain as [|c chain IH]; intros ds; cbn [sync_chain].
  - intros [= _ <-]. by rewrite app_nil_r.
  - unfold mbind, eff_bind, sync_directory. destruct (fault c); [done|]. intros ->%IH. by rewrite <- (assoc_L (++)).
Qed.
Lemma sync_chain_total chain ds : sync_chain (λ _, None) chain ds = (Ok tt, ds ++ chain).
Proof.
  revert ds. induction chain as [|c chain IH]; intros ds; [by rewrite app_nil_r|].
  cbn [sync_chain]. unfold mbind, eff_bind, sync_directory. rewrite IH. by rewrite <- (assoc_L (++)).
Qed.
Lemma elem_of_upwards d q : q ∈ upwards d ↔ q `prefix_of` d.
Proof. unfold upwards. rewrite list_elem_of_In, <- in_rev, <- list_elem_of_In. apply elem_of_prefixes. Qed.
Lemma upwards_head d : ∃ rest, upwards d = d :: rest.
Proof.
  assert (∃ l, prefixes d = l ++ [d]) as [l Hl].
  { induction d as [|x d [l Hl]]; [by exists []|]. exists ([] :: ((x ::.) <$> l)). cbn [prefixes]. by rewrite Hl, fmap_app. }
  exists (rev l). unfold upwards. by rewrite Hl, rev_app_distr.
Qed.
End walk.

(** ** Properties *)

(** The path that is walked. *)
Definition walked (cwd : res (list Component)) (path : bytes) (abs : list Component) : Prop :=
  if is_absolute (components path) then abs = components path else ∃ c, cwd = Ok c ∧ abs = c ++ components path.

(** C11.  A directory that was created durably can be reached after a crash.
    When [create_dir_all_durable] succeeds, the file system resolves the path to
    a directory through at most 40 symbolic links, that directory is synced
    first, and every directory the resolution passes through - before and after
    parent references and links, those that hold the links included - is synced
    with all its ancestors, each once.  When the path resolves that way, every
    path has a canonical form and nothing fails, the call succeeds; a cycle of
    links is an error, never a loop. *)
Theorem durable_directories_synced metadata created cwd fs fault path :
  (∀ u synced, create_dir_all_durable metadata created cwd fs fault path [] = (Ok u, synced) →
     NoDup synced ∧ ∃ abs, walked cwd path abs ∧
       (∃ n d c, (n <= MAX_LINKS)%nat ∧ resolves fs ([], pending_of abs) n (d, []) ∧ canonical fs d = Ok c ∧ head synced = Some c) ∧
       ∀ n d q a, resolves fs ([], pending_of abs) n (d, q) → a `prefix_of` d → ∃ c, canonical fs a = Ok c ∧ c ∈ synced) ∧
  (∀ abs n d, metadata ≠ Some false → walked cwd path abs → resolves fs ([], pending_of abs) n (d, []) → (n <= MAX_LINKS)%nat →
     (∀ q, is_Ok (canonical fs q)) → is_Ok (create_dir_all_durable metadata None cwd fs (λ _, None) path []).1).
Proof.
  split.
  - intros u synced (? & ? & [= _ <-] & (? & ? & [= _ <-] & (abs & ? & [= Habs <-] & (chain & ? & [= Hch <-] & Hsy)%eff_bind_Ok)%eff_bind_Ok)%eff_bind_Ok)%eff_bind_Ok.
    apply sync_chain_all in Hsy as ->. cbn [app]. apply res_bind_Ok in Hch as (w & Hw & Hch).
    apply (walk_follows fs MAX_LINKS) in Hw as (Hm & Hv & n & Hn & Hr); [|apply pending_rootless | by exists []; split; [left|]].
    apply add_canonical_spec in Hch as Hspec. destruct Hspec as (_ & Hin & Hnd). split; [apply Hnd, NoDup_nil_2|].
    exists abs. split.
    { unfold walked. destruct (is_absolute (components path)); [by injection Habs as <-|].
      apply res_bind_Ok in Habs as (c & -> & [= <-]). by exists c. }
    split.
    + destruct (upwards_head (resolved w)) as [rest Hup]. cbn [mbind list_bind] in Hch. rewrite Hup in Hch. cbn [app add_canonical] in Hch.
      apply res_bind_Ok in Hch as (c & Hc & Hch). apply add_canonical_spec in Hch as ([k ->] & _).
      exists n, (resolved w), c. split; [done|]. split; [done|]. split; [done|]. by rewrite bool_decide_false by apply not_elem_of_nil.
    + intros n' d q a Hd Ha. destruct (Hv n' d q Hd) as (e & He & Hp). apply Hin. apply list_elem_of_bind. exists e.
      split; [by apply elem_of_upwards; etrans|]. right. apply elem_of_app. by left.
  - intros abs n d Hmd Hw Hr Hn Hc. destruct (walk_reaches fs _ _ _ Hr MAX_LINKS (mkWalk [] [[]] []) eq_refl Hn) as (w & Hwk & _).
    cbn [snd] in Hwk. destruct (add_canonical_total fs ((resolved w :: traversed w ++ link_parents w) ≫= upwards) [] Hc) as [chain Hch].
    assert (resolved_sync_chain fs abs = Ok chain) as Hrc by (unfold resolved_sync_chain; by rewrite Hwk).
    assert ((if is_absolute (components path) then Ok (components path) else cwd ≫= λ c, Ok (c ++ components path)) = Ok abs) as Ha.
    { unfold walked in Hw. destruct (is_absolute _); [by subst | destruct Hw as (c & -> & ->); done]. }
    unfold create_dir_all_durable. rewrite Ha, bool_decide_false by done. unfold mbind, eff_bind, pure_eff. cbn [guard_err negb].
    rewrite Hrc, sync_chain_total. by eexists.
Qed.

(** ** A witness

    [/a/l] is a link to [../r]: the directory [/a/l/db] is [/r/db]. *)

Definition link_facts : DirFacts := {|
  lstat := λ p, if bool_decide (p = [[x61]; [x6c]]) then Ok (Link (bytes_of_string "../r")) else Ok Present;
  canonical := λ p, Ok p
|}.
Definition link_path : bytes := bytes_of_string "/a/l/db".
Definition link_synced : list (list bytes) := [[[x72]; bytes_of_string "db"]; [[x72]]; []; [[x61]]].

Lemma link_created : create_dir_all_durable None None (Ok []) link_facts (λ _, None) link_path [] = (Ok tt, link_synced).
Proof. vm_compute. reflexivity. Qed.
Lemma durable_directories_synced_witness :
  NoDup link_synced ∧
  (∃ abs, walked (Ok []) link_path abs ∧
    ∀ n d q a, resolves link_facts ([], pending_of abs) n (d, q) → a `prefix_of` d →
      ∃ c, canonical link_facts a = Ok c ∧ c ∈ link_synced) ∧
  is_Ok (create_dir_all_durable None None (Ok []) link_facts (λ _, None) (bytes_of_string "/") []).1.
Proof.
  destruct (proj1 (durable_directories_synced None None (Ok []) link_facts (λ _, None) link_path) tt link_synced link_created)
    as (Hn & abs & Hw & _ & Hv).
  split; [exact Hn|]. split; [exists abs; split; [exact Hw | exact Hv]|].
  apply (proj2 (durable_directories_synced None None (Ok []) link_facts (λ _, None) (bytes_of_string "/")) [RootComponent] 0%nat []);
    [discriminate | reflexivity | apply res_stop | apply Nat.le_0_l | intros q; exists q; reflexivity].
Defined.
