(* ===== verification/Main.v ===== *)
(** * The program: [src/src/main.rs]

    The flags choose an engine - the replicated one, or the one the data
    directory is for - and the command loop runs over it, with a full-text index
    in front of the standalone engines.  The messages of failures are the
    constructors of [MainEnd]. *)

From stdpp Require Import sets sorting.
From S2P Require Import Prelude Bytes OrdMap Search Record Block Bloom Index Footer LegacyBlock SSTable Preflight.
From S2P Require Import WalFormat WalAnalysis Wal WalCrash WalRefine WalRead Manifest ManifestTheory Admission Config Store Read.
From S2P Require Import ReadTheory Tables Write WriteTheory Compaction CompactionTheory Root Engine OpenTheory EngineTheory KVTheory Api KVRefine.
From S2P Require Import Unicode Fts FtsTheory FtsIndexTheory FtsSearch FtsBulk FtsRank FtsRefine KVEngine Command CommandTheory Repl Sessions.
From S2P Require Import Generation Experimental ReferenceTheory Frame ExperimentalTheory CleanTheory SwitchTheory ExperimentalRefine.
From S2P Require Import RaftLog RaftLogTheory RaftNode RaftKV RaftTheory.

(** ** The experimental engine behind the interface *)

#[export] Instance experimental_engine `{Crc32, FastBloom} : AsyncKVEngine ExperimentalEngine.t := {|
  write_fault := KV2.WriteFaults;
  eng_get := ExperimentalEngine.get;
  eng_put := ExperimentalEngine.put;
  eng_delete := ExperimentalEngine.delete;
  eng_write_batch := ExperimentalEngine.write_batch;
  eng_await_pending_writes := ExperimentalEngine.await_pending_writes;
  eng_scan := ExperimentalEngine.scan
|}.

Section engine.
Context `{Crc32Spec, FastBloomSpec, Hshape : !FastBloomShape}.
Variables (U : MemtableRecord.t → Prop) (rate : f64).
Hypothesis HU : ∀ r, U r → recordable r.
Hypothesis Hroom : roomy rate U.
Hypothesis Hclosed : ref_closed U.

(** Nothing of a failed write is left to come back. *)
Definition exp_has (e : ExperimentalEngine.t) (m : ordmap bytes bytes) (p : list BatchOperation) : Prop :=
  SwitchTheory.serves U rate m e ∧ p = [].
Lemma exp_event_sim {A} (ev : res A → exp_event) (q : eff ExperimentalEngine.t A) e m :
  SwitchTheory.serves U rate m e → (∀ r e', q e = (r, e') → exp_step U e (ev r) e') →
  ∃ st, exp_spec_step (Serving m) (ev (q e).1) st ∧ exp_sim U rate (q e).2 st.
Proof.
  intros Hs Hq. destruct (q e) as [r e'] eqn:E. exact (exp_sim_step U rate HU Hroom Hclosed e (ev r) e' (Serving m) (Hq r e' eq_refl) Hs).
Qed.
Lemma exp_event_write os (q : eff ExperimentalEngine.t unit) e m p :
  exp_has e m p → (∀ r e', q e = (r, e') → exp_step U e (XWrite os r) e') → wrote exp_has os m p (q e).
Proof.
  intros [Hs ->] Hq. destruct (exp_event_sim (XWrite os) q e m Hs Hq) as (st & Hst & Hsim).
  destruct (q e) as [[[]|er|] e']; cbn [fst snd] in *; inversion Hst; subst; unfold wrote, exp_has; auto.
Qed.
#[local] Instance exp_async_spec : AsyncKVEngineSpec ExperimentalEngine.t.
Proof.
  refine {| holds := exp_has; admissible := ref_ops_ok U; fault_ok := λ f, flush_clean (KV2.wf_flush f); restarted := λ _ _, False |}.
  - intros e m p [[(_ & _ & _ & hist & os & _ & ->) _] _]. apply apply_ops_wf, om_wf_nil.
  - intros k e m p [Hs ->]. destruct (exp_event_sim (XGet k) (ExperimentalEngine.get k) e m Hs) as (st & Hst & Hsim); [by intros; constructor|].
    cbn [eng_get experimental_engine]. destruct (ExperimentalEngine.get k e) as [r e']. cbn [fst snd] in *. inversion Hst; subst. by exists e'.
  - intros range e m p [Hs ->]. destruct (exp_event_sim (XScan range) (ExperimentalEngine.scan range) e m Hs) as (st & Hst & Hsim); [by intros; constructor|].
    cbn [eng_scan experimental_engine]. destruct (ExperimentalEngine.scan range e) as [r e']. cbn [fst snd] in *. inversion Hst; subst. by exists e'.
  - intros e m p [Hs ->]. pose proof Hs as [(Hst & _) _]. exists e. split; [|done].
    cbn [eng_await_pending_writes experimental_engine]. unfold ExperimentalEngine.await_pending_writes, ExperimentalEngine.ensure_operational. by rewrite Hst.
  - intros k v f e m p Hs Ha Hf. apply exp_event_write; [done|]. intros r e' Hr. by eapply xe_put.
  - intros k f e m p Hs Ha Hf. apply exp_event_write; [done|]. intros r e' Hr. by eapply xe_delete.
  - intros os f e m p Hs Ha Hf. apply exp_event_write; [done|]. intros r e' Hr. by eapply xe_batch.
  - intros e m p r _ [].
Defined.
End engine.

(** ** The program *)

(** How it ends: what could not be set up, or the session with what it printed,
    whether its input ended well, and the result of the shutdown. *)
Inductive MainEnd : Type :=
| InvalidConfiguration (e : DBError)
| EngineFailed (e : DBError)
| SelectionFailed (e : DBError)
| IndexFailed (e : DBError)
| Session (out : bytes) (repl_ok : bool) (closed : res unit)
| Panicked.

(** What a run meets: the data directory as each engine finds it, the identity
    of a checkpoint owner, the faults of opening and of shutting down. *)
Record World : Type := mkWorld {
  wo_root : RootAt;
  wo_paths : PathFacts;
  wo_disk : RootDisk;
  wo_token : Z;
  wo_open : OpenFaults;
  wo_index : KV2.WriteFaults;
  wo_fuel : nat;
  wo_compaction : CompactionFaults;
  wo_checks : option nat;
  wo_floor : option TempFault * option RenameFault;
  wo_raft_exists : bytes → bool;
  wo_raft_files : raft_dir;
  wo_start : RaftConsensusLayer.StartFaults
}.

Section main.
Context `{Crc32, FastBloom, Unicode, NaturalLog, Display} `{Bincode, SocketAddrs}.

(** [FtsIndex::open], the loop, and the shutdown of the engine below. *)
Definition run_indexed {S} `{AsyncKVEngine S} (engine : S) (f : write_fault) (shutdown : eff S unit)
    (lines : list (bytes * write_fault)) : MainEnd :=
  match FtsIndex.open f engine with
  | (Ok _, index) =>
      match run_repl_async (index_commands S) lines index with
      | (Ok (out, repl_ok), index) =>
          match shutdown index with
          | (Panic, _) => Panicked
          | (r, _) => Session out repl_ok r
          end
      | (Err e, _) => IndexFailed e
      | (Panic, _) => Panicked
      end
  | (Err e, _) => IndexFailed e
  | (Panic, _) => Panicked
  end.
(** The replicated engine runs without an index; only its consensus layer is
    shut down. *)
Definition main_raft (config : Config.t) (storage_config : StorageConfig.t) (w : World)
    (lines : list (bytes * RaftKV2.ReplicateFaults)) : MainEnd :=
  match to_raft_node_config config with
  | Ok (Some raft_config) =>
      match RaftKV2.open (Config.data_dir config) (wo_disk w) storage_config (wo_token w) raft_config
              (wo_raft_exists w) (wo_raft_files w) (wo_start w) with
      | Ok kv =>
          match run_repl_async (plain_commands RaftKV2.t) lines kv with
          | (Ok (out, repl_ok), _) => Session out repl_ok (Ok tt)
          | (Err e, _) => EngineFailed e
          | (Panic, _) => Panicked
          end
      | Err e => EngineFailed e
      | Panic => Panicked
      end
  | _ => Panicked
  end.
Definition main_standalone (config : Config.t) (storage_config : StorageConfig.t) (w : World)
    (lines : list (bytes * KV2.WriteFaults)) : MainEnd :=
  match classify_storage_root (root_path (wo_root w)) with
  | Err e => SelectionFailed e
  | Panic => Panicked
  | Ok Root.Experimental =>
      match fst (ExperimentalEngine.open_with_config (Config.data_dir config) (wo_paths w) storage_config (wo_token w)
                   (wo_open w) (wo_root w)) with
      | Ok engine =>
          run_indexed engine (wo_index w)
            (ExperimentalEngine.shutdown (wo_fuel w) (wo_compaction w) (wo_checks w) (fst (wo_floor w)) (snd (wo_floor w))) lines
      | Err e => EngineFailed e
      | Panic => Panicked
      end
  | Ok Kv2 =>
      match KV2.open (Config.data_dir config) (wo_disk w) storage_config (wo_token w) with
      | Ok engine =>
          run_indexed engine (wo_index w) (KV2.shutdown (wo_fuel w) (wo_compaction w) (wo_checks w)) lines
      | Err e => EngineFailed e
      | Panic => Panicked
      end
  end.
Definition main (config : Config.t) (w : World) (lines : list (bytes * KV2.WriteFaults))
    (raft_lines : list (bytes * RaftKV2.ReplicateFaults)) : MainEnd :=
  match Config.to_storage_config config with
  | Ok storage_config =>
      if Config.raft_mode config then main_raft config storage_config w raft_lines
      else main_standalone config storage_config w lines
  | Err e => InvalidConfiguration e
  | Panic => Panicked
  end.
End main.

(** ** A session from the start *)

Section indexed.
Context {S : Type} `{UnicodeSpec, NaturalLog, Display, AsyncKVEngineSpec S}.

Lemma index_open_np (s0 : S) m0 f :
  holds s0 m0 [] → user_part m0 = m0 → fault_ok f → admissible open_batch → (FtsIndex.open f s0).1 ≠ Panic.
Proof.
  intros Hs Hu Hf Ha. destruct (open_fresh m0 f (holds_wf _ _ _ Hs) Hu s0 [] Hs) as (s1 & -> & Hs1).
  pose proof (batch_law _ f s1 m0 [] Hs1 Ha Hf) as Hw. by destruct (eng_write_batch open_batch f s1) as [[] ?].
Qed.
Lemma run_indexed_session (s0 : S) m0 f shutdown lines :
  holds s0 m0 [] → user_part m0 = m0 → fault_ok f → admissible open_batch →
  (∀ s, FtsIndex.open f s0 = (Ok tt, s) → session_ok s lines) → (∀ s x y, holds_index s x y → (shutdown s).1 ≠ Panic) →
  match run_indexed s0 f shutdown lines with
  | Session out ok closed =>
      ∃ out' x' y', out = line BANNER_ASYNC ++ out' ∧ session (mkStore [] m0) (mkStore [] m0) (fst <$> lines) out' ok x' y'
  | IndexFailed e => (FtsIndex.open f s0).1 = Err e
  | _ => False
  end.
Proof.
  intros Hs Hu Hf Ha Hok Hsd. pose proof (index_open_np s0 m0 f Hs Hu Hf Ha) as Hnp. unfold run_indexed.
  destruct (FtsIndex.open f s0) as [[[]|e|] s] eqn:Ho; [|done|done].
  pose proof (open_holds s0 m0 f s Hs Hu Hf Ha Ho) as Hh.
  destruct (repl_loop_session lines s _ _ Hh (Hok s eq_refl)) as (out & ok & s' & x' & y' & Hl & Hse & Hh').
  unfold run_repl_async, mbind, eff_bind. rewrite Hl. cbn [mret eff_ret]. specialize (Hsd s' x' y' Hh').
  destruct (shutdown s') as [[u|e|] s2]; [by exists out, x', y' | by exists out, x', y' | done].
Qed.
End indexed.

Section props.
Context `{Crc32Spec, FastBloomSpec, Hshape : !FastBloomShape} `{UnicodeSpec, NaturalLog, Display} `{Bincode, SocketAddrs}.
Variables (U : MemtableRecord.t → Prop) (rate : f64).
Hypothesis HU : ∀ r, U r → recordable r.
Hypothesis Hroom : roomy rate U.
Hypothesis Hclosed : ref_closed U.

Lemma exp_shutdown_np m e fuel cf checks tf rf :
  SwitchTheory.serves U rate m e → Tables.clean (cf_publish cf) → (ExperimentalEngine.shutdown fuel cf checks tf rf e).1 ≠ Panic.
Proof.
  intros Hs Hcl. pose proof Hs as [(Hst & _) _]. unfold ExperimentalEngine.shutdown.
  unfold mbind at 1, eff_bind at 1, ExperimentalEngine.ensure_operational. rewrite Hst.
  destruct (inner_sim U rate e m (KV2.shutdown fuel cf checks) Hs) as [Hp Hs1]; [intros; by apply shutdown_ends | intros; apply shutdown_kept|].
  unfold mbind at 1, eff_bind at 1, ExperimentalEngine.on_inner. destruct (KV2.shutdown fuel cf checks _) as [[[]|er|] s]; [|done|done].
  cbn [snd] in Hs1. destruct Hs1 as [_ [_ (fl & Hc) _]]. unfold mbind at 1, eff_bind at 1, Experimental.query at 1. rewrite Hc.
  unfold mbind at 1, eff_bind at 1, Experimental.query at 1. cbn [CurrentState.generation]. rewrite Z.eqb_refl. cbn [guard_err].
  unfold mbind at 1, eff_bind at 1, ExperimentalEngine.raise_published, ExperimentalEngine.on_disk, ExperimentalEngine.raise_floor.
  destruct (_ <? _); [|done]. unfold write_current, write_current_temp, commit_current_temp, write_temporary_bytes, rename_file, mbind, eff_bind.
  destruct tf as [[k [n|]]|]; [done | done|]. destruct rf as [[k []]|]; [done | done|]. by destruct (om_get CURRENT_TEMP_FILE _).
Qed.

End props.

(** ** A witness *)

Definition main_config : Config.t := Config.storage_flags 1 4 4 1 f64_001.
Definition main_storage_config : StorageConfig.t :=
  Eval vm_compute in match Config.to_storage_config main_config with Ok c => c | _ => x_config end.
Definition main_world : World :=
  mkWorld RootMissing x_fs (fresh_root kv_none) 7 x_faults kv_fine 5 kv_work None (None, None) kv_none []
    (RaftConsensusLayer.mkStartFaults LogStore.no_open_faults false false None).
Definition main_lines : list (bytes * KV2.WriteFaults) := (λ l, (line (str l), kv_fine)) <$> ["GET a"; "exit"].
Definition main_opened : res ExperimentalEngine.t * RootAt := Eval vm_compute in
  @ExperimentalEngine.open_with_config ieee toy_fastbloom (Config.data_dir main_config) x_fs main_storage_config 7 x_faults RootMissing.
Definition main_engine : ExperimentalEngine.t := Eval vm_compute in x_state main_opened.1.
Definition main_universe : MemtableRecord.t → Prop := small_record (op_key_of <$> open_batch) 200.

Lemma main_universe_ok r : main_universe r → recordable r.
Proof. by intros [? _]. Qed.
Lemma main_universe_roomy : @roomy toy_fastbloom f64_001 main_universe.
Proof.
  apply (small_roomy _ 200 44); [lia | | vm_compute; discriminate]. intros n rs. unfold BloomFilterWrapper.encode.
  rewrite !len_app, !len_to_be. simpl. rewrite app_nil_r, len_to_be. vm_compute. discriminate.
Qed.
Lemma main_universe_closed : ref_closed main_universe.
Proof. apply small_closed. Qed.
Lemma main_open_batch_ok : ref_ops_ok main_universe open_batch.
Proof.
  intros o v lsn Ho Hl Hv.
  repeat (apply elem_of_cons in Ho as [->|Ho]); [| |by apply elem_of_nil in Ho];
    (split; [split; [split; [split; [exact Hl | split; [done | simpl; rewrite ?Hv; done]] |] | done] | split; [set_solver|]]);
    unfold rec_size, MemtableRecord.record_length; simpl; rewrite ?Hv; done.
Qed.
Definition main_spec : @AsyncKVEngineSpec ExperimentalEngine.t (@experimental_engine ieee toy_fastbloom) :=
  @exp_async_spec ieee ieee_spec toy_fastbloom toy_fastbloom_spec toy_fastbloom_shape main_universe f64_001
    main_universe_ok main_universe_roomy main_universe_closed.
Lemma main_lines_ok s :
  @session_ok ExperimentalEngine.t ascii_unicode fts_ln (@experimental_engine ieee toy_fastbloom) main_spec s main_lines.
Proof.
  apply session_reads_ok. unfold main_lines. cbn [fmap list_fmap]. repeat (apply Forall_cons; split); [..|by apply Forall_nil]; unfold reads_only; cbn [fst snd].
  all: match goal with |- context [@parse_command ?u ?i] =>
         let p := eval vm_compute in (@parse_command u i) in replace (@parse_command u i) with p by (vm_compute; reflexivity) end.
  all: exact (conj I (conj I I)).
Qed.
